(* ===== verification/_CoqProject ===== *)
-Q . S2P
Prelude.v
ListLib.v
Types.v
Backoff.v
ContainerHeap.v
StoreApi.v
Durable.v
MemStore.v
MemStoreFacts.v
MemStoreProps.v
World.v
Recurring.v
RecurringProps.v
Scheduler.v
Worker.v
WorkerProps.v
SchedulerProps.v
Ledger.v
Turns.v
System.v
SystemProps.v
TurnsProps.v
Contents.v
Shutdown.v
ExampleMain.v
Conformance.v
Sql.v
SqlEngine.v
SqlBackend.v
SqlFacts.v
SqlDurable.v
Sqlite.v
SqliteFacts.v
SqliteProps.v
SqliteDurable.v
Cluster.v
Trace.v
TwoProcesses.v
ClusterFacts.v
ClusterProps.v
Cancelled.v
Postgres.v
PostgresFacts.v
PostgresProps.v
PostgresDurable.v
LostReplies.v
Text.v
RedisEngine.v
Redis.v
RedisFacts.v
RedisClaim.v
RedisMethods.v
RedisProps.v
RedisLease.v
RedisDurable.v
Open.v
Codec.v
ProtoCodec.v
FakeClock.v
Metrics.v
