(* ===== verification/Prelude.v ===== *)
(** * goschedule: a verification development for the Go job scheduler

    The repository is an in-process job scheduler: a [Scheduler] dispatches
    one-shot and recurring jobs into a [Store], and its goroutines claim due
    jobs, run handlers, retry, and report through hooks and a log. This library
    models it in Gallina as it is written and proves what makes it correct.

    ** Parts and files

    - [Prelude], [ListLib]: the program monad [GoM] (a state, and [None] for a
      run-time panic or a loop out of fuel), 64-bit and 8-bit integers, list
      lemmas, stable sorting, tactics and the hint database [goschedule].
    - [Types] (src/types.go, src/store.go): jobs, schedules, states,
      priorities, errors, and [time.Time] as nanoseconds. The claim order
      [jobLess] is a strict weak order (class [StrictWeak]).
    - [Backoff] (src/backoff.go): [ExponentialBackoff.Next] on machine integers.
    - [ContainerHeap]: the standard library's [container/heap], over the class
      [HeapIface]; its routines keep the heap order for any implementation that
      meets [HeapLaws].
    - [StoreApi] (src/store.go): the [Store] interface (class [StoreOps]); the
      abstract store [Spec] over plain maps; [LawfulStore], what every backend
      promises (each method acts as [Spec] says or reports an infrastructure
      error and changes nothing); [LocalStore], a store inside the process,
      which never fails, takes no claim back and looks at no context. A method is
      called with a context ([under]); calls as data ([method], [op]).
      [Durable]: two interfaces with no condition on the values passed:
      [DurableStore], what a call to a store that processes share has done to
      the jobs if it returned, and [HeedsContext], a store that fails every call
      whose context has ended. Every [LocalStore] is a [DurableStore].
    - [MemStore] (src/memstore/memstore.go): the in-memory store over an
      explicit object memory, for the id map and the queue heaps point to the
      same entries. [MemStoreFacts] has its invariant (every pending job sits in
      the heap of its queue at the index it records) and the proof that it is
      a [LawfulStore]; [MemStoreProps] its properties, and that it is a
      [LocalStore].
    - [World] (src/hooks.go, src/log.go, src/clock.go): what the goroutines act
      on: the store, the user's hook state, the log records, the clock's
      readings, the identifiers generated.
    - [Recurring] (src/recurring.go): next runs, catch-up and the runner's tick;
      [RecurringProps] their properties.
    - [Scheduler] (src/scheduler.go, the API of src/recurring.go): options,
      construction, registration, [At], [Now], [After], [Every], [Cron],
      [Cancel], [Reschedule]; [SchedulerProps] their properties.
    - [Worker] (src/worker.go, src/dispatcher.go, src/janitor.go): [executeOne]
      and one turn of each goroutine; [WorkerProps] their properties. [Turns]:
      the turns of the janitor and the recurring runner one call of the store
      at a time, and that the calls in a row are the turn of [Worker] and
      [Recurring] ([turns_equivalent]).
    - [System] (Start of src/scheduler.go): the running scheduler as a step
      relation labelled with who takes a step, a step being one call of the
      store at most: others move between two calls of a janitor's or a
      runner's turn. [Ledger] is its invariant over the abstract store,
      [SystemProps] the invariant of reachable states and what follows,
      [TurnsProps] that a turn comes to its end, or never does, [Contents] that
      what is run was dispatched as it is. [Shutdown]: the same system with the
      goroutines that are left, from the cancellation to the return of [Start],
      on a store inside the process;
      each leaves only where its loop selects, the janitor and the runner
      between two turns.
    - [ExampleMain] (src/cmd/example/main.go): the example program over these
      definitions, and what its runs print.
    - [Cluster]: several processes that each run [Start] on one store, their
      steps interleaved, with crashes and new processes; [Trace] plays such
      runs as a function, [TwoProcesses] sets up examples. [ClusterFacts]: what
      one step does to the jobs of a [DurableStore]; [ClusterProps]: what
      follows for the cluster, with SQLite as the store where the recovery must
      succeed. [Cancelled]: the goroutines after the cancellation of the context
      they pass to the store, on one that heeds it ([HeedsContext]).
    - [Conformance] (src/storetest/storetest.go): the conformance suite as
      executable scenarios, and that the in-memory store passes it.
    - The SQL backends. [Sql]: statements on a table as functions of a finite
      map of rows. [SqlEngine]: the rows of the schemas
      (src/store/sqlite/migrations.go, src/store/postgres/migrations.go), and
      a database with calls that fail, transactions and rollback. [SqlBackend]
      and [SqlFacts]: the invariant, the abstraction and the lemmas the two
      share. [Sqlite] (src/store/sqlite/store.go), [SqliteFacts] (it is
      a [LawfulStore]), [SqliteProps]; [Postgres] (src/store/postgres/store.go,
      listen.go), [PostgresFacts] (a [LawfulStore] too), [PostgresProps].
      [SqlDurable], [SqliteDurable], [PostgresDurable]: both are
      [DurableStore]s and heed contexts. [LostReplies]: a store behind a
      network that loses replies is and does too.
    - The Redis backend. [Text]: decimal strings, doubles and Lua's number
      format. [RedisEngine]: keys, values, commands, pipelines, a client.
      [Redis] (src/store/redis/store.go, scripts.go, keys.go): scripts and
      methods. [RedisFacts]: the invariant [reps] that ties hashes and sorted
      sets, and the scripts that concern one job or schedule; [RedisClaim]: the
      two that move many; [RedisMethods]: the methods against [Spec];
      [RedisProps] and [RedisLease]: the properties. [RedisDurable]: the store
      with its conditions as guards, a [DurableStore].
    - [Open] (New, Close, Listen and parseAddr of the three backends): which
      handles of the drivers are open, and the addresses of the Redis store.
    - [Codec] (src/codec.go): typed payloads over the interface of a codec;
      [ProtoCodec] (src/codec/proto/proto.go, src/codec/json/json.go): the
      codecs, over values with their dynamic type and a memory of messages.
    - [FakeClock] (src/schedtest/schedtest.go), [Metrics]
      (src/metrics/prometheus): the tests' clock, the collector's hooks.

    The scheduler's components are proved against the interfaces
    ([LawfulStore], or [LocalStore] where no failing store is meant). The
    in-memory store discharges both and the SQL stores the first; the witnesses
    run on the in-memory store. The Redis store is not a [LawfulStore]: an
    upsert may leave a job in two queues, scores are rounded, and a claim whose
    reply is lost stays; it refines [Spec] under the conditions its theorems
    name. Nor is it a [DurableStore] as it is, for a job saved again in another
    queue can be claimed twice; for callers that keep to the conditions it is
    ([RedisDurable]), which a scheduler does that saves jobs under new
    identifiers, so what is proved of a [Cluster] on any [DurableStore] holds on
    Redis for runs whose calls are inside the conditions.

    ** What the theorems show

    - The in-memory store: no call panics but a claim of a number of jobs [make]
      cannot allocate (negative, or more than the address space holds),
      refinement of the abstract store on every branch, the exact answer of [ClaimDue]. A job
      of high priority that is not due blocks the due ones behind it, and that
      is the only way a claim falls short. It passes the conformance suite.
    - The SQL stores: refinement of the abstract store, given three attempts for
      none and, on Postgres, times as the driver rounds them, with every failing
      call leaving the contents as they were; complete claims; leases that
      exclude other workers whatever calls come in between, short of a deletion
      of the schedule; for Postgres, two claims that overlap act as one after the
      other, and a cancellation may delete a job that was claimed meanwhile.
    - The Redis store: sorted sets and hashes agree in every reachable state,
      refinement of the abstract store for jobs that stay in their bucket, what
      a claim takes and how far rounding can move it, recovery and leases by the
      server's clock; and examples of where it departs from the contract.
    - One execution: the store's record, the retry decision and the hook agree
      for a registered handler, a positive [MaxAttempts] and a store inside the
      process; a failing store loses no job; and the cases
      where the two sides disagree (an unlimited [MaxAttempts], a missing
      handler, a retry that cannot be recorded).
    - The whole system, one scheduler on a store inside its process that is empty
      at the start, for every interleaving: no identifier is in flight
      twice, no claimed job is lost, a bounded job is started at most
      [MaxAttempts] times, and queues keep to their capacity. (On a database
      none of the first three is so: [cluster_double_run], [lost_claim_recovered].)
      This also holds through a shutdown, which leaves claimed just the jobs that were
      waiting in batches and channels; on the in-memory store they stay so.
      [Start] does not wait for the handlers that run. A runner that looks for
      a next run that does not exist never leaves, and [Start] returns by the
      grace period only.
    - Several schedulers on one store, for every interleaving, failing calls,
      crashes and restarts included: a job leaves the store only by a
      successful end, with its attempts used up or by a cancellation; until a
      recovery meets its lock lapsed nobody but its holder touches a claimed job;
      after that, on a database that works, the
      next turn of any janitor and dispatcher hands it out again. And the
      limits: heartbeats do not extend a lock, a holder that has lost its lock
      still ends the job, and what ends after the cancellation of the context
      is not recorded by a database. None of it depends on replies that
      arrive: a lost one leaves a claim nobody works on until its lock is over,
      or tells a caller that a job which will run could not be dispatched.
    - Opening a store, or listening, leaks no handle when it fails, and closing
      gives back what opening took.
    - Recurring schedules: the fires of a tick and the next run are exactly the
      instants of the schedule, without drift, gap or repetition up to the
      catch-up bound; on a store inside the process a tick ends and leaves every
      schedule ahead, except for cron expressions without activations, for which
      it never ends. Two
      runners with the same listing fire twice once the first's lease is over.
    - Dispatch: [At] on every branch, its round trip with [Cancel] and through
      a codec; backoff delays equal their closed form and never overflow.

    ** Modelling choices and bounds

    Effects are explicit state passing in [GoM]. A method of a store holds its
    mutex or runs one transaction, so a call of it is one step of [System] and
    of [Cluster]; for the shared stores,
    overlapping sessions are put together from the parts of methods
    ([Postgres.Fail_from], [Cancel_from], [Reschedule_from],
    [PostgresProps.overlapping_claims], [Redis.ClaimDue_fetch]). Servers are
    given by an oracle of failing calls, their clock, and the order in which they
    list rows or set members. A call that fails is taken to have had no effect,
    a failing [Commit] to have ended its transaction without one (the [Rollback]
    deferred after it finds the transaction done), a failing round trip of Redis
    not to have reached the server; replies that are lost after the effect are
    the matter of [LostReplies]. The
    values a server may refuse are those outside the ranges of its columns; that
    Postgres takes no NUL in a text is one of the failing calls. The
    semantics of the SQL statements and Redis commands used is written out; the
    resolution of Postgres's timestamps is a parameter ([PgDriver]). Loops that the code does
    not bound take fuel: [nextAfter] (the theorems give the number of turns
    that is enough, the number of instants up to the present, and show where
    none is) and [claim_loop] (the length of the heap, since each turn pops).
    Integers are [Z] with Go's wrap-around where arithmetic is done on an
    [int] or a [time.Duration]; instants do not wrap. Third-party code is a
    parameter: the cron parser, the identifier generator (injective where a
    theorem needs fresh identifiers), handlers, hooks, codecs, the Prometheus
    client. Handlers and hooks are assumed to return.

    Every call of the store is made with the context the code passes: the API
    with [context.Background()], the goroutines with the one given to [Start]
    ([System.start_ctx]), the collector with its own. What is kept of a context
    is its error at the time of a call. A database's driver fails every
    statement of a method called with an ended context ([ended_db],
    [ended_server]); one that ends in the middle of a method is among the
    failing calls of the oracle. Of a handler's context only the deadline is
    kept. In [System] the handlers are those registered before [Start], and the
    options of a call are the library's own ([builtin]). The in-memory store's
    claim reserves room for [n] jobs and panics like [make] where that many
    cannot be allocated ([makeable]; the machine's memory is taken to suffice
    below that).

    ** Not modelled

    Inside the drivers: pools, reconnection, and the connection a Postgres
    [Listener] waits on. The encoders of [encoding/json] and of protobuf,
    logging sinks and the emission of metrics, which only hand values to
    libraries. A reply lost inside a method of several round trips is not told
    apart from a round trip that failed. Two claims of Postgres overlap in
    one way only: the first holds all its row locks when the second selects. In
    [Cluster] the calls of two sessions do not overlap; where they
    may, on Postgres, [PostgresProps] says what changes (a cancellation can
    take a job that has been claimed meanwhile). *)

From stdpp Require Export base gmap sets list strings sorting.
From Stdlib Require Export ZArith Lia ZifyNat.

(** ** Prelude: the program monad, machine integers, generic lemmas *)

Declare Scope go_scope.
Delimit Scope go_scope with go.

(** *** The state-and-panic monad

    A Go routine run to completion against a state of type [S]: [Some (a, s')]
    is a return with value [a] in state [s'], [None] a run-time panic (index
    out of range, nil dereference) or, for a loop, not having stopped within
    its fuel. *)
Definition GoM (S A : Type) : Type := S → option (A * S).

Definition gret {S A} (a : A) : GoM S A := λ s, Some (a, s).
Definition gbind {S A B} (m : GoM S A) (k : A → GoM S B) : GoM S B :=
  λ s, match m s with Some (a, s') => k a s' | None => None end.
Definition gget {S} : GoM S S := λ s, Some (s, s).
Definition gput {S} (s' : S) : GoM S unit := λ _, Some (tt, s').
Definition gmodify {S} (f : S → S) : GoM S unit := λ s, Some (tt, f s).
Definition glift {S A} (o : option A) : GoM S A :=
  λ s, match o with Some a => Some (a, s) | None => None end.

Notation "'let!' x := m 'in' k" := (gbind m (λ x, k))
  (at level 10, x binder, m at level 100, k at level 200) : go_scope.
Notation "'do!' m 'in' k" := (gbind m (λ _, k))
  (at level 10, m at level 100, k at level 200) : go_scope.

(** A call that may report an error, as [inl]:
    [if err != nil { return f(err) }]. *)
Notation "'try!' x := m 'else' f 'in' k" :=
  (gbind m (λ r, match r with inl msg => gret (f msg) | inr x => k end))
  (at level 10, x binder, m at level 100, f at level 100, k at level 200) : go_scope.

(** A [for _, x := range l] loop whose body may panic. *)
Fixpoint gfor {S A} (l : list A) (body : A → GoM S unit) : GoM S unit :=
  match l with
  | [] => gret tt
  | x :: l' => gbind (body x) (λ _, gfor l' body)
  end.

(** The monad's laws, at a state. *)
Lemma gbind_assoc {S A B C} (m : GoM S A) (f : A → GoM S B) (g : B → GoM S C) s :
  gbind (gbind m f) g s = gbind m (λ a, gbind (f a) g) s.
Proof. unfold gbind. by destruct (m s) as [[a s1]|]. Qed.

Lemma gbind_ext {S A B} (m : GoM S A) (f g : A → GoM S B) s :
  (∀ a s, f a s = g a s) → gbind m f s = gbind m g s.
Proof. intros Hfg. unfold gbind. by destruct (m s) as [[a s1]|]. Qed.

(** *** Machine integers

    Go's [int] and [time.Duration] are 64-bit two's complement; [uint8] is the
    width of [Priority] and [State]. *)
Definition wrap_s (w : Z) (x : Z) : Z := (x + 2 ^ (w - 1)) `mod` 2 ^ w - 2 ^ (w - 1).
Definition wrap_u (w : Z) (x : Z) : Z := x `mod` 2 ^ w.
Definition wrap64 : Z → Z := wrap_s 64.
Definition wrap8 : Z → Z := wrap_u 8.
Definition max_int64 : Z := 2 ^ 63 - 1.
Definition min_int64 : Z := - 2 ^ 63.
Definition in_int64 (x : Z) : Prop := (min_int64 ≤ x ≤ max_int64)%Z.

(** Unfold the 64-bit bounds to literals, so that [lia] sees them. *)
Ltac int64_consts :=
  unfold in_int64, wrap64, wrap_s, wrap8, wrap_u, min_int64, max_int64 in *;
  change (2 ^ 63)%Z with 9223372036854775808%Z in *;
  change (2 ^ (64 - 1))%Z with 9223372036854775808%Z in *;
  change (2 ^ 64)%Z with 18446744073709551616%Z in *;
  change (2 ^ 8)%Z with 256%Z in *.

Ltac int64_lia := int64_consts; Z.div_mod_to_equations; lia.

Lemma wrap64_id x : in_int64 x → wrap64 x = x.
Proof. int64_lia. Qed.

Lemma wrap64_range x : in_int64 (wrap64 x).
Proof. int64_lia. Qed.

Lemma wrap8_id x : (0 ≤ x < 256)%Z → wrap8 x = x.
Proof. int64_lia. Qed.

Lemma wrap8_range x : (0 ≤ wrap8 x < 256)%Z.
Proof. int64_lia. Qed.

Create HintDb goschedule.
#[export] Hint Resolve wrap64_range wrap8_range : goschedule.

(** *** Tactics *)

(** Case analysis on the outermost [match]/[if] of the goal or a hypothesis,
    keeping the equation. *)
Ltac go_case :=
  match goal with
  | |- context [match ?x with _ => _ end] =>
      lazymatch x with context [match _ with _ => _ end] => fail | _ => destruct x eqn:? end
  | H : context [match ?x with _ => _ end] |- _ =>
      lazymatch x with context [match _ with _ => _ end] => fail | _ => destruct x eqn:? end
  end.

(** Turn boolean comparisons into propositions, everywhere. *)
Ltac breflect :=
  repeat match goal with
  | H : (_ =? _)%Z = true |- _ => apply Z.eqb_eq in H
  | H : (_ =? _)%Z = false |- _ => apply Z.eqb_neq in H
  | H : (_ <? _)%Z = true |- _ => apply Z.ltb_lt in H
  | H : (_ <? _)%Z = false |- _ => apply Z.ltb_ge in H
  | H : (_ <=? _)%Z = true |- _ => apply Z.leb_le in H
  | H : (_ <=? _)%Z = false |- _ => apply Z.leb_gt in H
  | H : (_ && _) = true |- _ => apply andb_true_iff in H; destruct H
  | H : (_ || _) = false |- _ => apply orb_false_iff in H; destruct H
  | H : negb _ = true |- _ => apply negb_true_iff in H
  | H : negb _ = false |- _ => apply negb_false_iff in H
  end.

(** Run the monadic plumbing of a program applied to a state. *)
Ltac gorun := unfold gbind, gget, gput, gret, gmodify, glift; cbn beta iota zeta.
