(* ===== verification/ListLib.v ===== *)
(** List operations the components share: swapping two positions, the longest
    prefix satisfying a test, and stable sorting by a strict weak order (the
    shape of Go's [less] functions). *)

From S2P Require Import Prelude.

(** [l[i], l[j] = l[j], l[i]]: [None] when an index is out of range. *)
Definition swap_at {A} (l : list A) (i j : nat) : option (list A) :=
  match l !! i, l !! j with
  | Some a, Some b => Some (<[i := b]> (<[j := a]> l))
  | _, _ => None
  end.

Fixpoint take_while {A} (P : A → bool) (l : list A) : list A :=
  match l with
  | [] => []
  | x :: l' => if P x then x :: take_while P l' else []
  end.

(** Stable sorting. Every stable sort by a strict weak order returns the same
    list, so insertion sort stands for [sort.SliceStable] and [ORDER BY]. *)
Fixpoint insert_by {A} (lt : A → A → bool) (x : A) (l : list A) : list A :=
  match l with
  | [] => [x]
  | y :: l' => if lt y x then y :: insert_by lt x l' else x :: y :: l'
  end.

Fixpoint stable_sort {A} (lt : A → A → bool) (l : list A) : list A :=
  match l with
  | [] => []
  | x :: l' => insert_by lt x (stable_sort lt l')
  end.

(** A Go [less] function is a strict weak order: asymmetric, and "not less"
    is transitive. *)
Class StrictWeak {A} (lt : A → A → bool) : Prop := {
  sw_asym : ∀ a b, lt a b = true → lt b a = false;
  sw_ntrans : ∀ a b c, lt b a = false → lt c b = false → lt c a = false
}.

Definition le_of {A} (lt : A → A → bool) (a b : A) : Prop := lt b a = false.

#[export] Hint Unfold le_of : goschedule.

Section order.
  Context {A : Type} (lt : A → A → bool) `{!StrictWeak lt}.

Lemma sw_irrefl a : lt a a = false.
Proof. destruct (lt a a) eqn:E; [by apply sw_asym in E as E'; congruence | done]. Qed.

#[export] Instance le_of_refl : Reflexive (le_of lt).
Proof. intros a. apply sw_irrefl. Qed.

#[export] Instance le_of_trans : Transitive (le_of lt).
Proof. intros a b c. apply sw_ntrans. Qed.

Lemma lt_le_of a b : lt a b = true → le_of lt a b.
Proof. apply sw_asym. Qed.

Lemma le_of_total a b : le_of lt a b ∨ le_of lt b a.
Proof. unfold le_of. destruct (lt a b) eqn:E; [left; by apply sw_asym | by right]. Qed.

Lemma lt_le_lt a b c : lt a b = true → le_of lt b c → lt a c = true.
Proof.
  unfold le_of. intros H1 H2. destruct (lt a c) eqn:E; [done|].
  assert (lt a b = false) by (eapply sw_ntrans; [exact H2 | exact E]). congruence.
Qed.
End order.

(** Sortedness under an order pulled back along a key. *)
#[export] Instance strict_weak_preimage {A B} (lt : B → B → bool) (f : A → B) :
  StrictWeak lt → StrictWeak (λ a b, lt (f a) (f b)).
Proof. intros [H1 H2]. split; intros *; [apply H1 | apply H2]. Qed.

Section sort.
  Context {A : Type} (lt : A → A → bool) `{!StrictWeak lt}.

Lemma insert_by_perm x l : insert_by lt x l ≡ₚ x :: l.
Proof.
  induction l as [|y l IH]; simpl; [done|].
  destruct (lt y x); [|done]. rewrite IH. apply perm_swap.
Qed.

Lemma stable_sort_perm l : stable_sort lt l ≡ₚ l.
Proof. induction l as [|x l IH]; simpl; [done|]. by rewrite insert_by_perm, IH. Qed.

Lemma insert_by_sorted x l :
  StronglySorted (le_of lt) l → StronglySorted (le_of lt) (insert_by lt x l).
Proof.
  induction 1 as [|y l Hs IH Hf]; simpl; [repeat constructor|].
  destruct (lt y x) eqn:E.
  - constructor; [done|]. rewrite insert_by_perm. constructor; [by apply lt_le_of|done].
  - constructor; [by constructor|]. constructor; [done|].
    eapply Forall_impl; [exact Hf|]. intros z Hz. by transitivity y.
Qed.

Lemma stable_sort_sorted l : StronglySorted (le_of lt) (stable_sort lt l).
Proof. induction l; simpl; [constructor | by apply insert_by_sorted]. Qed.

(** Sorting a sorted list changes nothing, not even among equal elements. *)
Lemma stable_sort_id l : StronglySorted (le_of lt) l → stable_sort lt l = l.
Proof.
  induction 1 as [|x l Hs IH Hf]; simpl; [done|]. rewrite IH.
  destruct l as [|y l]; simpl; [done|].
  inversion_clear Hf as [|?? Hle]. unfold le_of in Hle. by rewrite Hle.
Qed.

Lemma sorted_lookup_le l i j a b :
  StronglySorted (le_of lt) l → i < j → l !! i = Some a → l !! j = Some b → le_of lt a b.
Proof.
  intros Hs. revert i j. induction Hs as [|x l Hs IH Hf]; intros i j Hij Hi Hj; [done|].
  destruct j as [|j]; [lia|]. destruct i as [|i]; simpl in *.
  - simplify_eq. rewrite Forall_lookup in Hf. eauto.
  - eapply (IH i j); eauto; lia.
Qed.
End sort.

Section more.
  Context {A : Type}.
  Implicit Types (l : list A) (P : A → bool).

Lemma take_while_prefix P l : ∃ k, take_while P l = take k l.
Proof.
  induction l as [|x l [k IH]]; simpl; [by exists 0|].
  destruct (P x); [exists (S k); simpl; by rewrite IH | by exists 0].
Qed.

Lemma take_while_forall P l : Forall (λ x, P x = true) (take_while P l).
Proof. induction l as [|x l IH]; simpl; [done|]. destruct (P x) eqn:E; by constructor. Qed.

(** When the test is downward closed along a sorted list, the prefix it
    accepts is all it accepts. *)
Lemma take_while_filter P l (R : A → A → Prop) :
  StronglySorted R l →
  (∀ x y, R x y → P y = true → P x = true) →
  take_while P l = filter (λ x, P x = true) l.
Proof.
  intros Hs HP. induction Hs as [|x l Hs IH Hf]; simpl; [done|].
  destruct (P x) eqn:E.
  - rewrite filter_cons_True by done. by rewrite IH.
  - rewrite filter_cons_False by congruence.
    symmetry. assert (Forall (λ y, P y ≠ true) l) as Hn.
    { eapply Forall_impl; [exact Hf|]. intros y HR HPy. rewrite (HP x y HR HPy) in E. done. }
    clear -Hn. induction Hn as [|y l Hy Hl IH]; [done|]. by rewrite filter_cons_False.
Qed.

Lemma swap_at_lookup l l' i j k :
  swap_at l i j = Some l' →
  l' !! k = if decide (k = i) then l !! j else if decide (k = j) then l !! i else l !! k.
Proof.
  unfold swap_at. destruct (l !! i) as [a|] eqn:Hi; [|done].
  destruct (l !! j) as [b|] eqn:Hj; [|done]. intros [= <-].
  apply lookup_lt_Some in Hi as Hi', Hj as Hj'.
  repeat case_decide; subst.
  - by rewrite list_lookup_insert_eq by (rewrite length_insert; lia).
  - rewrite list_lookup_insert_ne by done. by rewrite list_lookup_insert_eq.
  - by rewrite !list_lookup_insert_ne.
Qed.

Lemma swap_at_length l l' i j : swap_at l i j = Some l' → length l' = length l.
Proof.
  unfold swap_at. destruct (l !! i); [|done]. destruct (l !! j); [|done].
  intros [= <-]. by rewrite !length_insert.
Qed.

Lemma swap_at_is_Some l i j : i < length l → j < length l → is_Some (swap_at l i j).
Proof.
  intros Hi Hj. apply lookup_lt_is_Some in Hi as [a Ha]. apply lookup_lt_is_Some in Hj as [b Hb].
  unfold swap_at. rewrite Ha, Hb. eauto.
Qed.

Lemma swap_at_perm l l' i j : swap_at l i j = Some l' → l' ≡ₚ l.
Proof.
  unfold swap_at. destruct (l !! i) as [a|] eqn:Hi; [|done].
  destruct (l !! j) as [b|] eqn:Hj; [|done]. intros [= <-].
  destruct (decide (i = j)) as [->|Hne].
  - rewrite list_insert_insert_eq. simplify_eq. by rewrite list_insert_id.
  - rewrite Permutation_inj. split; [by rewrite !length_insert|].
    exists (λ k, if decide (k = i) then j else if decide (k = j) then i else k). split.
    + intros x y. repeat case_decide; congruence.
    + intros k. rewrite (swap_at_lookup l _ i j k) by (unfold swap_at; by rewrite Hi, Hj).
      by repeat case_decide.
Qed.
End more.

Lemma sorted_take {A} (R : A → A → Prop) n l : StronglySorted R l → StronglySorted R (take n l).
Proof. intros H. rewrite <- (take_drop n l) in H. by eapply StronglySorted_app_1_l. Qed.

(** A map that keeps the comparison keeps sortedness. *)
Lemma sorted_fmap {A B} (R : A → A → Prop) (R' : B → B → Prop) (f : A → B) l :
  (∀ x y, R x y → R' (f x) (f y)) → StronglySorted R l → StronglySorted R' (f <$> l).
Proof.
  intros Hf. induction 1 as [|x l Hs IH Hall]; simpl; [constructor|].
  constructor; [done|]. rewrite Forall_fmap. eapply Forall_impl; [done|]. intros y. apply Hf.
Qed.

(** Whatever a prefix of a sorted list leaves out comes after all of it. *)
Lemma sorted_prefix_best {A} (R : A → A → Prop) n l x :
  StronglySorted R l → x ∈ l → x ∉ take n l → Forall (λ c, R c x) (take n l).
Proof.
  intros Hs. revert n. induction Hs as [|y l Hs IH Hall]; intros n Hx Hn; [by apply elem_of_nil in Hx|].
  destruct n as [|n]; simpl in *; [constructor|].
  apply not_elem_of_cons in Hn as [Hne Hn]. apply elem_of_cons in Hx as [->|Hx]; [done|].
  constructor; [|by apply IH]. rewrite Forall_forall in Hall. by apply Hall.
Qed.

Lemma sorted_fmap_in {A B} (R : A → A → Prop) (R' : B → B → Prop) (f : A → B) l :
  (∀ x y, x ∈ l → y ∈ l → R x y → R' (f x) (f y)) → StronglySorted R l → StronglySorted R' (f <$> l).
Proof.
  intros Hf Hs. induction Hs as [|x l Hs IH Hall]; simpl; [constructor|].
  constructor; [apply IH; intros y z Hy Hz; by apply Hf; right|].
  rewrite Forall_fmap. rewrite Forall_forall in *. intros y Hy. apply Hf; [by left|by right|by apply Hall].
Qed.
