(* ===== verification/Types.v ===== *)
(** The data the whole program shares ([src/types.go], [src/store.go]): job
    and schedule records, lifecycle states, priorities, error values, and Go's
    [time.Time] as far as the program uses it. *)

From S2P Require Import Prelude ListLib.
From Stdlib Require Export Strings.Byte.
Local Open Scope Z_scope.

(** ** Time

    A [time.Time] is an instant: nanoseconds from the Unix epoch, as an
    integer. [time.Time{}] is midnight of January 1 of year 1, UTC. The
    seconds counter of a [time.Time] has 64 bits of its own (it overflows after
    some 292 billion years), so [Add] does not wrap here; [UnixNano] is the one
    operation that narrows, and it wraps as Go's does. *)
Module Time.
Definition zero : Z := -62135596800 * 10 ^ 9.

Definition IsZero (t : Z) : bool := t =? zero.
Definition Before (t u : Z) : bool := t <? u.
Definition After (t u : Z) : bool := u <? t.
Definition Add (t d : Z) : Z := t + d.
(** [Sub] saturates instead of wrapping. *)
Definition Sub (t u : Z) : Z := Z.max min_int64 (Z.min max_int64 (t - u)).
Definition UnixNano (t : Z) : Z := wrap64 t.
(** [time.Unix(0, n)]. *)
Definition Unix0 (n : Z) : Z := n.
End Time.

Definition Millisecond : Z := 10 ^ 6.
Definition Second : Z := 10 ^ 9.
Definition Minute : Z := 60 * Second.
Definition Hour : Z := 60 * Minute.

(** ** Priorities and states

    Both are [uint8] in Go, so any value of that range can be stored; the
    constants name the ones the program gives a meaning. *)
Definition PriorityLow : Z := 0.
Definition PriorityNormal : Z := 1.
Definition PriorityHigh : Z := 2.
Definition PriorityCritical : Z := 3.

Definition Priority_String (p : Z) : string :=
  if p =? PriorityLow then "low"
  else if p =? PriorityNormal then "normal"
  else if p =? PriorityHigh then "high"
  else if p =? PriorityCritical then "critical"
  else "unknown".

Definition StatePending : Z := 0.
Definition StateClaimed : Z := 1.
Definition StateSucceeded : Z := 2.
Definition StateFailed : Z := 3.
Definition StateCancelled : Z := 4.

Definition Terminal (s : Z) : bool :=
  (s =? StateSucceeded) || (s =? StateFailed) || (s =? StateCancelled).

Definition DeliveryAtLeastOnce : Z := 0.

(** ** Errors

    [error] values the program compares by identity, and the ones it only
    prints. A Go [error] result is [option error]: [None] is [nil]. *)
Inductive error : Type :=
  | ErrJobNotFound
  | ErrJobNotPending
  | ErrOther (msg : string).

#[export] Instance error_eq_dec : EqDecision error.
Proof. solve_decision. Defined.

(** ** Records *)

#[export] Instance byte_eq_dec : EqDecision Byte.byte := Byte.byte_eq_dec.

Module Job.
(** The record passed between stores and scheduler. [Payload] identifies a nil
    and an empty byte slice. *)
Record t : Type := mk {
  ID : string;
  Name : string;
  Queue : string;
  Priority : Z;
  Payload : list Byte.byte;
  CodecName : string;
  RunAt : Z;
  Attempt : Z;
  MaxAttempts : Z;
  State : Z;
  Delivery : Z;
  Timeout : Z;
  LockedBy : string;
  LockedUntil : Z;
  LastError : string;
  RecurringID : string;
  CreatedAt : Z;
  UpdatedAt : Z;
  catchup : bool
}.

#[export] Instance t_eq_dec : EqDecision t.
Proof. solve_decision. Defined.

(** The zero value, [Job{}]. *)
Definition zero : t :=
  {| ID := ""; Name := ""; Queue := ""; Priority := 0; Payload := []; CodecName := "";
     RunAt := Time.zero; Attempt := 0; MaxAttempts := 0; State := 0; Delivery := 0;
     Timeout := 0; LockedBy := ""; LockedUntil := Time.zero; LastError := "";
     RecurringID := ""; CreatedAt := Time.zero; UpdatedAt := Time.zero; catchup := false |}.

(** Assignment to one field: the others keep their values. *)
Definition set_Queue (v : string) (x : t) : t :=
  {| ID := ID x; Name := Name x; Queue := v; Priority := Priority x; Payload := Payload x;
     CodecName := CodecName x; RunAt := RunAt x; Attempt := Attempt x;
     MaxAttempts := MaxAttempts x; State := State x; Delivery := Delivery x;
     Timeout := Timeout x; LockedBy := LockedBy x; LockedUntil := LockedUntil x;
     LastError := LastError x; RecurringID := RecurringID x; CreatedAt := CreatedAt x;
     UpdatedAt := UpdatedAt x; catchup := catchup x |}.
Definition set_Priority (v : Z) (x : t) : t :=
  {| ID := ID x; Name := Name x; Queue := Queue x; Priority := v; Payload := Payload x;
     CodecName := CodecName x; RunAt := RunAt x; Attempt := Attempt x;
     MaxAttempts := MaxAttempts x; State := State x; Delivery := Delivery x;
     Timeout := Timeout x; LockedBy := LockedBy x; LockedUntil := LockedUntil x;
     LastError := LastError x; RecurringID := RecurringID x; CreatedAt := CreatedAt x;
     UpdatedAt := UpdatedAt x; catchup := catchup x |}.
Definition set_CodecName (v : string) (x : t) : t :=
  {| ID := ID x; Name := Name x; Queue := Queue x; Priority := Priority x;
     Payload := Payload x; CodecName := v; RunAt := RunAt x; Attempt := Attempt x;
     MaxAttempts := MaxAttempts x; State := State x; Delivery := Delivery x;
     Timeout := Timeout x; LockedBy := LockedBy x; LockedUntil := LockedUntil x;
     LastError := LastError x; RecurringID := RecurringID x; CreatedAt := CreatedAt x;
     UpdatedAt := UpdatedAt x; catchup := catchup x |}.
Definition set_RunAt (v : Z) (x : t) : t :=
  {| ID := ID x; Name := Name x; Queue := Queue x; Priority := Priority x;
     Payload := Payload x; CodecName := CodecName x; RunAt := v; Attempt := Attempt x;
     MaxAttempts := MaxAttempts x; State := State x; Delivery := Delivery x;
     Timeout := Timeout x; LockedBy := LockedBy x; LockedUntil := LockedUntil x;
     LastError := LastError x; RecurringID := RecurringID x; CreatedAt := CreatedAt x;
     UpdatedAt := UpdatedAt x; catchup := catchup x |}.
Definition set_Attempt (v : Z) (x : t) : t :=
  {| ID := ID x; Name := Name x; Queue := Queue x; Priority := Priority x;
     Payload := Payload x; CodecName := CodecName x; RunAt := RunAt x; Attempt := v;
     MaxAttempts := MaxAttempts x; State := State x; Delivery := Delivery x;
     Timeout := Timeout x; LockedBy := LockedBy x; LockedUntil := LockedUntil x;
     LastError := LastError x; RecurringID := RecurringID x; CreatedAt := CreatedAt x;
     UpdatedAt := UpdatedAt x; catchup := catchup x |}.
Definition set_MaxAttempts (v : Z) (x : t) : t :=
  {| ID := ID x; Name := Name x; Queue := Queue x; Priority := Priority x;
     Payload := Payload x; CodecName := CodecName x; RunAt := RunAt x; Attempt := Attempt x;
     MaxAttempts := v; State := State x; Delivery := Delivery x; Timeout := Timeout x;
     LockedBy := LockedBy x; LockedUntil := LockedUntil x; LastError := LastError x;
     RecurringID := RecurringID x; CreatedAt := CreatedAt x; UpdatedAt := UpdatedAt x;
     catchup := catchup x |}.
Definition set_State (v : Z) (x : t) : t :=
  {| ID := ID x; Name := Name x; Queue := Queue x; Priority := Priority x;
     Payload := Payload x; CodecName := CodecName x; RunAt := RunAt x; Attempt := Attempt x;
     MaxAttempts := MaxAttempts x; State := v; Delivery := Delivery x; Timeout := Timeout x;
     LockedBy := LockedBy x; LockedUntil := LockedUntil x; LastError := LastError x;
     RecurringID := RecurringID x; CreatedAt := CreatedAt x; UpdatedAt := UpdatedAt x;
     catchup := catchup x |}.
Definition set_Timeout (v : Z) (x : t) : t :=
  {| ID := ID x; Name := Name x; Queue := Queue x; Priority := Priority x;
     Payload := Payload x; CodecName := CodecName x; RunAt := RunAt x; Attempt := Attempt x;
     MaxAttempts := MaxAttempts x; State := State x; Delivery := Delivery x; Timeout := v;
     LockedBy := LockedBy x; LockedUntil := LockedUntil x; LastError := LastError x;
     RecurringID := RecurringID x; CreatedAt := CreatedAt x; UpdatedAt := UpdatedAt x;
     catchup := catchup x |}.
Definition set_LockedBy (v : string) (x : t) : t :=
  {| ID := ID x; Name := Name x; Queue := Queue x; Priority := Priority x;
     Payload := Payload x; CodecName := CodecName x; RunAt := RunAt x; Attempt := Attempt x;
     MaxAttempts := MaxAttempts x; State := State x; Delivery := Delivery x;
     Timeout := Timeout x; LockedBy := v; LockedUntil := LockedUntil x;
     LastError := LastError x; RecurringID := RecurringID x; CreatedAt := CreatedAt x;
     UpdatedAt := UpdatedAt x; catchup := catchup x |}.
Definition set_LockedUntil (v : Z) (x : t) : t :=
  {| ID := ID x; Name := Name x; Queue := Queue x; Priority := Priority x;
     Payload := Payload x; CodecName := CodecName x; RunAt := RunAt x; Attempt := Attempt x;
     MaxAttempts := MaxAttempts x; State := State x; Delivery := Delivery x;
     Timeout := Timeout x; LockedBy := LockedBy x; LockedUntil := v; LastError := LastError x;
     RecurringID := RecurringID x; CreatedAt := CreatedAt x; UpdatedAt := UpdatedAt x;
     catchup := catchup x |}.
Definition set_LastError (v : string) (x : t) : t :=
  {| ID := ID x; Name := Name x; Queue := Queue x; Priority := Priority x;
     Payload := Payload x; CodecName := CodecName x; RunAt := RunAt x; Attempt := Attempt x;
     MaxAttempts := MaxAttempts x; State := State x; Delivery := Delivery x;
     Timeout := Timeout x; LockedBy := LockedBy x; LockedUntil := LockedUntil x;
     LastError := v; RecurringID := RecurringID x; CreatedAt := CreatedAt x;
     UpdatedAt := UpdatedAt x; catchup := catchup x |}.
Definition set_UpdatedAt (v : Z) (x : t) : t :=
  {| ID := ID x; Name := Name x; Queue := Queue x; Priority := Priority x;
     Payload := Payload x; CodecName := CodecName x; RunAt := RunAt x; Attempt := Attempt x;
     MaxAttempts := MaxAttempts x; State := State x; Delivery := Delivery x;
     Timeout := Timeout x; LockedBy := LockedBy x; LockedUntil := LockedUntil x;
     LastError := LastError x; RecurringID := RecurringID x; CreatedAt := CreatedAt x;
     UpdatedAt := v; catchup := catchup x |}.
Definition set_catchup (v : bool) (x : t) : t :=
  {| ID := ID x; Name := Name x; Queue := Queue x; Priority := Priority x;
     Payload := Payload x; CodecName := CodecName x; RunAt := RunAt x; Attempt := Attempt x;
     MaxAttempts := MaxAttempts x; State := State x; Delivery := Delivery x;
     Timeout := Timeout x; LockedBy := LockedBy x; LockedUntil := LockedUntil x;
     LastError := LastError x; RecurringID := RecurringID x; CreatedAt := CreatedAt x;
     UpdatedAt := UpdatedAt x; catchup := v |}.
End Job.

(** *** How many jobs a slice or a channel can be made for

    [make([]Job, 0, n)] panics for a negative [n], and for one whose jobs take
    more than the address space a 64-bit Go program has. A [Job] has seven
    strings of two words, a slice of three, four times of three, three integers
    and four bytes that take three words with their padding. *)
Definition sizeof_Job : Z := 8 * (7 * 2 + 3 + 4 * 3 + 3 + 3).
Definition maxAlloc : Z := 2 ^ 48.
Definition makeable (n : Z) : Prop := 0 ≤ n ∧ n * sizeof_Job ≤ maxAlloc.

#[export] Instance makeable_dec n : Decision (makeable n).
Proof. unfold makeable. apply _. Defined.

Lemma makeable_nonneg n : makeable n → 0 ≤ n.
Proof. by intros []. Qed.

Module RecurringSpec.
(** A recurring schedule. *)
Record t : Type := mk {
  ID : string;
  Name : string;
  Queue : string;
  Priority : Z;
  Payload : list Byte.byte;
  CodecName : string;
  Delivery : Z;
  Timeout : Z;
  MaxAttempts : Z;
  Cron : string;
  Every : Z;
  Catchup : bool;
  LeaseUntil : Z;
  LeasedBy : string;
  NextRunAt : Z;
  LastFireAt : Z
}.

#[export] Instance t_eq_dec : EqDecision t.
Proof. solve_decision. Defined.

(** Assignment to one field: the others keep their values. *)
Definition set_Every (v : Z) (x : t) : t :=
  {| ID := ID x; Name := Name x; Queue := Queue x; Priority := Priority x;
     Payload := Payload x; CodecName := CodecName x; Delivery := Delivery x;
     Timeout := Timeout x; MaxAttempts := MaxAttempts x; Cron := Cron x; Every := v;
     Catchup := Catchup x; LeaseUntil := LeaseUntil x; LeasedBy := LeasedBy x;
     NextRunAt := NextRunAt x; LastFireAt := LastFireAt x |}.
Definition set_Cron (v : string) (x : t) : t :=
  {| ID := ID x; Name := Name x; Queue := Queue x; Priority := Priority x;
     Payload := Payload x; CodecName := CodecName x; Delivery := Delivery x;
     Timeout := Timeout x; MaxAttempts := MaxAttempts x; Cron := v; Every := Every x;
     Catchup := Catchup x; LeaseUntil := LeaseUntil x; LeasedBy := LeasedBy x;
     NextRunAt := NextRunAt x; LastFireAt := LastFireAt x |}.
Definition set_LeaseUntil (v : Z) (x : t) : t :=
  {| ID := ID x; Name := Name x; Queue := Queue x; Priority := Priority x;
     Payload := Payload x; CodecName := CodecName x; Delivery := Delivery x;
     Timeout := Timeout x; MaxAttempts := MaxAttempts x; Cron := Cron x; Every := Every x;
     Catchup := Catchup x; LeaseUntil := v; LeasedBy := LeasedBy x; NextRunAt := NextRunAt x;
     LastFireAt := LastFireAt x |}.
Definition set_LeasedBy (v : string) (x : t) : t :=
  {| ID := ID x; Name := Name x; Queue := Queue x; Priority := Priority x;
     Payload := Payload x; CodecName := CodecName x; Delivery := Delivery x;
     Timeout := Timeout x; MaxAttempts := MaxAttempts x; Cron := Cron x; Every := Every x;
     Catchup := Catchup x; LeaseUntil := LeaseUntil x; LeasedBy := v; NextRunAt := NextRunAt x;
     LastFireAt := LastFireAt x |}.
Definition set_NextRunAt (v : Z) (x : t) : t :=
  {| ID := ID x; Name := Name x; Queue := Queue x; Priority := Priority x;
     Payload := Payload x; CodecName := CodecName x; Delivery := Delivery x;
     Timeout := Timeout x; MaxAttempts := MaxAttempts x; Cron := Cron x; Every := Every x;
     Catchup := Catchup x; LeaseUntil := LeaseUntil x; LeasedBy := LeasedBy x; NextRunAt := v;
     LastFireAt := LastFireAt x |}.
Definition set_LastFireAt (v : Z) (x : t) : t :=
  {| ID := ID x; Name := Name x; Queue := Queue x; Priority := Priority x;
     Payload := Payload x; CodecName := CodecName x; Delivery := Delivery x;
     Timeout := Timeout x; MaxAttempts := MaxAttempts x; Cron := Cron x; Every := Every x;
     Catchup := Catchup x; LeaseUntil := LeaseUntil x; LeasedBy := LeasedBy x;
     NextRunAt := NextRunAt x; LastFireAt := v |}.
End RecurringSpec.

#[export] Existing Instance Job.t_eq_dec.
#[export] Existing Instance RecurringSpec.t_eq_dec.

(** The claim order: higher priority first, then earlier [RunAt]. The same
    comparison is written in [memstore.queueHeap.Less], in the [less] argument
    of [ClaimDue]'s [sort.SliceStable], in [postgres.jobLess], and as
    [ORDER BY priority DESC, run_at ASC]. *)
Definition jobLess (a b : Job.t) : bool :=
  if negb (Job.Priority a =? Job.Priority b) then Job.Priority b <? Job.Priority a
  else Time.Before (Job.RunAt a) (Job.RunAt b).

Lemma jobLess_spec a b :
  jobLess a b = true ↔
  Job.Priority b < Job.Priority a ∨
  (Job.Priority a = Job.Priority b ∧ Job.RunAt a < Job.RunAt b).
Proof.
  unfold jobLess, Time.Before. destruct (Z.eqb_spec (Job.Priority a) (Job.Priority b)); simpl;
    rewrite Z.ltb_lt; lia.
Qed.

Lemma jobLess_false a b :
  jobLess a b = false ↔
  Job.Priority a < Job.Priority b ∨
  (Job.Priority a = Job.Priority b ∧ Job.RunAt b ≤ Job.RunAt a).
Proof.
  unfold jobLess, Time.Before. destruct (Z.eqb_spec (Job.Priority a) (Job.Priority b)); simpl;
    rewrite Z.ltb_ge; lia.
Qed.

#[export] Instance jobLess_strict_weak : StrictWeak jobLess.
Proof.
  split; intros *; rewrite ?jobLess_spec, ?jobLess_false; lia.
Qed.
