(* ===== verification/Backoff.v ===== *)
(** Retry delays ([src/backoff.go]): exponential backoff on 64-bit durations,
    with its cap and its overflow guard. *)

From S2P Require Import Prelude Types.
Local Open Scope Z_scope.

(** [BackoffStrategy] has one method, [Next]. *)
Definition BackoffStrategy : Type := Z → Z.

Record ExponentialBackoff : Type := mkExponentialBackoff { Base : Z; Cap : Z }.

(** The [for] loop of [Next], with [n] iterations left: [inl v] is a
    [return v] inside it, [inr d] leaves it (by [break] or by its end) with
    the delay [d]. *)
Fixpoint Next_loop (e : ExponentialBackoff) (n : nat) (d : Z) : Z + Z :=
  match n with
  | O => inr d
  | S n' =>
      let prev := d in
      let d := wrap64 (d * 2) in
      if d <? prev then inr max_int64
      else if (0 <? Cap e) && (Cap e <=? d) then inl (Cap e)
      else Next_loop e n' d
  end.

Definition Next (e : ExponentialBackoff) (attempt : Z) : Z :=
  let attempt := if attempt <? 1 then 1 else attempt in
  match Next_loop e (Z.to_nat (attempt - 1)) (Base e) with
  | inl v => v
  | inr d =>
      if (0 <? Cap e) && (Cap e <? d) then Cap e
      else if d <? 0 then max_int64
      else d
  end.

Definition DefaultBackoff : BackoffStrategy :=
  Next {| Base := 100 * Millisecond; Cap := 5 * Minute |}.

(** The durations of a strategy are [time.Duration] values. *)
Definition backoff_ok (e : ExponentialBackoff) : Prop :=
  in_int64 (Base e) ∧ in_int64 (Cap e).

(** The limit [Next] never exceeds for a non-negative base. *)
Definition ceiling (e : ExponentialBackoff) : Z :=
  if 0 <? Cap e then Cap e else max_int64.

Lemma ceiling_bounds e : backoff_ok e → 0 < ceiling e ≤ max_int64.
Proof. unfold backoff_ok, ceiling. intros [_ H]. case_match; breflect; int64_lia. Qed.

(** Doubling a non-negative duration overflows exactly when it comes out
    smaller. *)
Lemma double_wraps d :
  0 ≤ d ≤ max_int64 →
  (wrap64 (d * 2) <? d) = (max_int64 <? 2 * d).
Proof. intros H. apply eq_true_iff_eq. rewrite !Z.ltb_lt. revert H. int64_lia. Qed.

(** The delay without a width: what the loop computes when nothing stops it. *)
Lemma Next_loop_spec e n d :
  backoff_ok e → 0 ≤ d ≤ ceiling e →
  match Next_loop e n d with
  | inl v | inr v => Z.min (ceiling e) v = Z.min (ceiling e) (d * 2 ^ Z.of_nat n) ∧ 0 ≤ v
  end.
Proof.
  intros Hok. pose proof (ceiling_bounds e Hok) as Hc. revert d.
  induction n as [|n IH]; intros d Hd; cbn [Next_loop].
  { rewrite Z.mul_1_r. lia. }
  rewrite double_wraps by lia.
  assert (Hpow : d * 2 ^ Z.of_nat (S n) = (2 * d) * 2 ^ Z.of_nat n).
  { rewrite Nat2Z.inj_succ, Z.pow_succ_r by lia. ring. }
  assert (H1 : 1 ≤ 2 ^ Z.of_nat n).
  { change 1 with (2 ^ 0). apply Z.pow_le_mono_r; lia. }
  rewrite Hpow. destruct (Z.ltb_spec max_int64 (2 * d)) as [Ho|Ho].
  { split; [|lia]. rewrite !Z.min_l; [done|nia|lia]. }
  replace (wrap64 (d * 2)) with (2 * d) by (rewrite wrap64_id; [lia | int64_lia]).
  destruct (Z.ltb_spec 0 (Cap e)) as [Hcap|Hcap]; cbn [andb].
  - assert (ceiling e = Cap e) as Hce by (unfold ceiling; case_match; breflect; lia).
    destruct (Z.leb_spec (Cap e) (2 * d)).
    + split; [|lia]. rewrite !Z.min_l; [done|nia|lia].
    + apply IH; lia.
  - assert (ceiling e = max_int64) as Hce by (unfold ceiling; case_match; breflect; lia).
    apply IH; lia.
Qed.

(** Beyond its ceiling the base itself is cut off. *)
Lemma Next_loop_above e n d :
  backoff_ok e → 0 ≤ d ≤ max_int64 → ceiling e < d →
  match Next_loop e n d with inl v | inr v => ceiling e ≤ v end.
Proof.
  intros Hok Hd Hgt. pose proof (ceiling_bounds e Hok).
  assert (Hcap : 0 < Cap e ∧ ceiling e = Cap e).
  { unfold ceiling in *. case_match; breflect; lia. }
  destruct n as [|n]; cbn [Next_loop]; [lia|].
  rewrite double_wraps by lia. destruct (Z.ltb_spec max_int64 (2 * d)); [lia|].
  replace (wrap64 (d * 2)) with (2 * d) by (rewrite wrap64_id; [lia | int64_lia]).
  destruct (Z.ltb_spec 0 (Cap e)); [|lia].
  destruct (Z.leb_spec (Cap e) (2 * d)); cbn [andb]; lia.
Qed.

Lemma Next_loop_inl e n d v : Next_loop e n d = inl v → v = Cap e ∧ 0 < Cap e.
Proof.
  revert d. induction n as [|n IH]; intros d; cbn [Next_loop]; [done|].
  destruct (_ <? d); [done|].
  destruct ((0 <? Cap e) && (Cap e <=? _)) eqn:E; [|apply IH].
  intros [= <-]. breflect. done.
Qed.

Lemma Next_loop_inr_range e n d v :
  in_int64 d → Next_loop e n d = inr v → in_int64 v.
Proof.
  revert d. induction n as [|n IH]; intros d Hd; cbn [Next_loop].
  { by intros [= <-]. }
  destruct (_ <? d); [intros [= <-]; int64_lia|].
  destruct (_ && _); [done|]. apply IH, wrap64_range.
Qed.

Lemma Next_min_ceiling e attempt :
  backoff_ok e → 0 ≤ Base e →
  Next e attempt = Z.min (ceiling e) (Base e * 2 ^ (Z.max 1 attempt - 1)).
Proof.
  intros Hok HB. pose proof (ceiling_bounds e Hok) as Hc.
  unfold Next. replace (if attempt <? 1 then 1 else attempt) with (Z.max 1 attempt)
    by (destruct (Z.ltb_spec attempt 1); lia).
  set (a := Z.max 1 attempt - 1). assert (0 ≤ a) by lia.
  assert (H1 : 1 ≤ 2 ^ a) by (change 1 with (2 ^ 0); apply Z.pow_le_mono_r; lia).
  assert (HBm : Base e ≤ max_int64) by (destruct Hok as [Hb _]; unfold in_int64 in Hb; lia).
  assert (Hfin : ∀ v, Next_loop e (Z.to_nat a) (Base e) = inr v → 0 ≤ v ≤ max_int64 →
    (if (0 <? Cap e) && (Cap e <? v) then Cap e else if v <? 0 then max_int64 else v)
    = Z.min (ceiling e) v).
  { intros v _ Hv. unfold ceiling.
    destruct (Z.ltb_spec 0 (Cap e)), (Z.ltb_spec (Cap e) v), (Z.ltb_spec v 0); cbn [andb]; lia. }
  destruct (Z.le_gt_cases (Base e) (ceiling e)) as [Hle|Hgt].
  - pose proof (Next_loop_spec e (Z.to_nat a) (Base e) Hok ltac:(lia)) as Hs.
    rewrite Z2Nat.id in Hs by lia.
    destruct (Next_loop e (Z.to_nat a) (Base e)) as [v|v] eqn:E; destruct Hs as [Hs Hv].
    + apply Next_loop_inl in E as [-> E]. rewrite <- Hs. unfold ceiling. case_match; breflect; lia.
    + apply Next_loop_inr_range in E as Hr; [|apply Hok]. unfold in_int64 in Hr.
      rewrite Hfin by (done || lia). done.
  - pose proof (Next_loop_above e (Z.to_nat a) (Base e) Hok ltac:(lia) Hgt) as Hs.
    rewrite Z.min_l by nia.
    destruct (Next_loop e (Z.to_nat a) (Base e)) as [v|v] eqn:E.
    + apply Next_loop_inl in E as [-> E]. unfold ceiling. case_match; breflect; lia.
    + apply Next_loop_inr_range in E as Hr; [|apply Hok]. unfold in_int64 in Hr.
      rewrite Hfin by (done || lia). lia.
Qed.

(** C40: the delay of [ExponentialBackoff.Next] is [Base * 2^(attempt-1)]
    (attempts below 1 count as 1), cut off at [Cap] when there is one and at
    the largest [time.Duration] otherwise: the 64-bit loop with its overflow
    guard computes exactly the saturated product. *)
Theorem Next_closed_form (e : ExponentialBackoff) (attempt : Z) :
  backoff_ok e → 0 ≤ Base e →
  Next e attempt =
  Z.min (if 0 <? Cap e then Cap e else max_int64) (Base e * 2 ^ (Z.max 1 attempt - 1)).
Proof. apply Next_min_ceiling. Qed.

Lemma Next_closed_form_witness :
  Next {| Base := 100 * Millisecond; Cap := 5 * Minute |} 4 =
  Z.min (if 0 <? 5 * Minute then 5 * Minute else max_int64)
        (100 * Millisecond * 2 ^ (Z.max 1 4 - 1)).
Proof.
  apply (Next_closed_form {| Base := 100 * Millisecond; Cap := 5 * Minute |} 4).
  - split; split; vm_compute; discriminate.
  - vm_compute. discriminate.
Defined.

(** whatever base, cap and attempt number, the delay is a non-negative
    [time.Duration], so no retry is scheduled in the past by an overflow. *)
Theorem Next_nonneg (e : ExponentialBackoff) (attempt : Z) :
  backoff_ok e → 0 ≤ Next e attempt ≤ max_int64.
Proof.
  intros Hok. unfold Next.
  set (n := Z.to_nat _). destruct (Next_loop e n (Base e)) as [v|v] eqn:E.
  - apply Next_loop_inl in E as [-> E]. destruct Hok as [_ Hc]. unfold in_int64 in Hc. lia.
  - apply Next_loop_inr_range in E; [|apply Hok]. destruct Hok as [_ Hc]. unfold in_int64 in *.
    destruct ((0 <? Cap e) && (Cap e <? v)) eqn:E1; breflect; [lia|].
    destruct (Z.ltb_spec v 0); int64_lia.
Qed.

Lemma Next_nonneg_witness :
  0 ≤ Next {| Base := Millisecond; Cap := 0 |} 100 ≤ max_int64.
Proof.
  apply (Next_nonneg {| Base := Millisecond; Cap := 0 |} 100).
  split; split; vm_compute; discriminate.
Defined.

(** The cap is not honoured for a negative base: the first delay is the
    largest duration. *)
Example Next_negative_base :
  Next {| Base := -1; Cap := Second |} 1 = max_int64.
Proof. reflexivity. Qed.
