(* ===== verification/ContainerHeap.v ===== *)
(** Go's [container/heap], the standard library's binary heap over an
    interface of five methods, as [src/memstore/memstore.go] uses it ([Push],
    [Pop], [Remove], [Fix]), and its correctness against that interface.

    [HeapIface] is [heap.Interface]; [HeapLaws] is what a client's methods must
    satisfy: they act on a list ([view]) by reading, swapping, appending and
    dropping the last element, and compare by a strict weak order. *)

From S2P Require Import Prelude ListLib.

Class HeapIface (H X : Type) : Type := {
  hLen : H → nat;
  hLess : H → nat → nat → option bool;
  hSwap : H → nat → nat → option H;
  hPush : H → X → option H;
  hPop : H → option (X * H)
}.

(** ** The operations *)
Section ops.
  Context {H X : Type} `{!HeapIface H X}.

(** [up(h, j)]. The loop moves to a smaller index at each turn, so [S j] turns
    are enough ([up_spec]). *)
Fixpoint up_loop (fuel : nat) (h : H) (j : nat) : option H :=
  match fuel with
  | O => None
  | S fuel =>
      let i := (j - 1) / 2 in
      if i =? j then Some h
      else match hLess h j i with
           | None => None
           | Some false => Some h
           | Some true =>
               match hSwap h i j with
               | None => None
               | Some h' => up_loop fuel h' i
               end
           end
  end.

Definition up (h : H) (j : nat) : option H := up_loop (S j) h j.

(** [down(h, i0, n)], which also returns the index it stopped at: Go's result
    is whether that index is beyond [i0]. *)
Fixpoint down_loop (fuel : nat) (h : H) (i n : nat) : option (H * nat) :=
  match fuel with
  | O => None
  | S fuel =>
      let j1 := 2 * i + 1 in
      if n <=? j1 then Some (h, i)
      else
        let j2 := j1 + 1 in
        match (if j2 <? n then hLess h j2 j1 else Some false) with
        | None => None
        | Some smaller_right =>
            let j := if smaller_right then j2 else j1 in
            match hLess h j i with
            | None => None
            | Some false => Some (h, i)
            | Some true =>
                match hSwap h i j with
                | None => None
                | Some h' => down_loop fuel h' j n
                end
            end
        end
  end.

Definition down (h : H) (i0 n : nat) : option (H * bool) :=
  match down_loop (S n) h i0 n with
  | Some (h', i) => Some (h', i0 <? i)
  | None => None
  end.

Definition Push (h : H) (x : X) : option H :=
  match hPush h x with
  | Some h' => up h' (hLen h' - 1)
  | None => None
  end.

(** [Pop] and [Remove] end with the client's [Pop]; what comes before it is
    named, because the proofs split there. [hLen h = 0] would make [n]
    negative and [Swap] panic. *)
Definition Pop_prepare (h : H) : option H :=
  if hLen h =? 0 then None
  else
    let n := hLen h - 1 in
    match hSwap h 0 n with
    | Some h' => match down h' 0 n with Some (h'', _) => Some h'' | None => None end
    | None => None
    end.

Definition Pop (h : H) : option (X * H) :=
  match Pop_prepare h with Some h' => hPop h' | None => None end.

Definition down_or_up (h : H) (i n : nat) : option H :=
  match down h i n with
  | Some (h', true) => Some h'
  | Some (h', false) => up h' i
  | None => None
  end.

Definition Remove_prepare (h : H) (i : nat) : option H :=
  if hLen h =? 0 then None
  else
    let n := hLen h - 1 in
    if n =? i then Some h
    else match hSwap h i n with
         | Some h' => down_or_up h' i n
         | None => None
         end.

Definition Remove (h : H) (i : nat) : option (X * H) :=
  match Remove_prepare h i with Some h' => hPop h' | None => None end.

Definition Fix (h : H) (i : nat) : option H := down_or_up h i (hLen h).
End ops.

(** ** Laws of the interface

    [inv] is an invariant the client keeps while the heap code runs. *)
Class HeapLaws {H X : Type} `{!HeapIface H X}
    {V : Type} (lt : V → V → bool) (view : H → list V) (inv : H → Prop) : Prop := {
  hl_order :: StrictWeak lt;
  hl_len : ∀ h, inv h → hLen h = length (view h);
  hl_less : ∀ h i j a b,
    inv h → view h !! i = Some a → view h !! j = Some b → hLess h i j = Some (lt a b);
  hl_swap : ∀ h i j l',
    inv h → swap_at (view h) i j = Some l' → ∃ h', hSwap h i j = Some h' ∧ inv h' ∧ view h' = l'
}.

(** ** Heap order on a list *)

Definition parent (k : nat) : nat := (k - 1) / 2.

(** The elements at two indices, when both are there, are in order. *)
Definition le_at {V} (lt : V → V → bool) (l : list V) (p k : nat) : Prop :=
  ∀ a b, l !! p = Some a → l !! k = Some b → le_of lt a b.

(** The first [n] elements form a heap. *)
Definition heap_upto {V} (lt : V → V → bool) (l : list V) (n : nat) : Prop :=
  ∀ k, 0 < k < n → le_at lt l (parent k) k.

Definition heap_ordered {V} (lt : V → V → bool) (l : list V) : Prop :=
  heap_upto lt l (length l).

(** A heap but for the element at [i] against its parent and its children;
    its children are still in order with its parent. *)
Definition heap_but {V} (lt : V → V → bool) (l : list V) (n i : nat) : Prop :=
  (∀ k, 0 < k < n → k ≠ i → parent k ≠ i → le_at lt l (parent k) k) ∧
  (∀ k, 0 < k < n → 0 < i → parent k = i → le_at lt l (parent i) k).

(** The same, the element at [i] being in order with its parent ([down]'s
    invariant), or with its children ([up]'s). *)
Definition heap_below {V} (lt : V → V → bool) (l : list V) (n i : nat) : Prop :=
  heap_but lt l n i ∧ (0 < i < n → le_at lt l (parent i) i).
Definition heap_above {V} (lt : V → V → bool) (l : list V) (n i : nat) : Prop :=
  heap_but lt l n i ∧ (∀ k, 0 < k < n → parent k = i → le_at lt l i k).

Lemma parent_lt k : 0 < k → parent k < k.
Proof. unfold parent. intros. apply Nat.Div0.div_lt_upper_bound; lia. Qed.

Lemma parent_eq k i : 0 < k → parent k = i ↔ k = 2 * i + 1 ∨ k = 2 * i + 2.
Proof. unfold parent. intros Hk. split; intros; [|subst]; zify; Z.div_mod_to_equations; lia. Qed.

(** Facts about indices close by arithmetic once [parent] is unfolded. *)
Ltac idx := first [done | lia | congruence].
Ltac heap_lia := unfold parent in *; zify; Z.div_mod_to_equations; lia.

Section lists.
  Context {V : Type} (lt : V → V → bool) `{!StrictWeak lt}.
  Implicit Types (l : list V).

(** Rewrite the lookups of a swapped list and decide the index equalities. *)
Ltac swapped H :=
  intros a b; rewrite !(swap_at_lookup _ _ _ _ _ H);
  repeat case_decide; try heap_lia; subst.

Lemma down_step l l' n i j :
  heap_but lt l n i → 0 < j < n → parent j = i →
  (∀ k, 0 < k < n → parent k = i → le_at lt l j k) →
  (∀ a b, l !! j = Some a → l !! i = Some b → lt a b = true) →
  swap_at l i j = Some l' → heap_below lt l' n j.
Proof.
  intros [Hb Hg] Hj Hp Hmin Hlt Hs. pose proof (parent_lt j ltac:(lia)).
  split; [split|].
  - intros k Hk Hkj Hpj. pose proof (parent_lt k ltac:(lia)).
    destruct (decide (k = i)) as [->|Hki].
    { swapped Hs. apply (Hg j); [lia|lia|done]. }
    destruct (decide (parent k = i)) as [Hpk|Hpk].
    { swapped Hs. apply (Hmin k); [lia|done]. }
    swapped Hs; try congruence. apply Hb; done.
  - intros k Hk _ Hpk. pose proof (parent_lt k ltac:(lia)). rewrite Hp.
    swapped Hs; try congruence. apply (Hb k); idx.
  - intros _. rewrite Hp. swapped Hs; try congruence.
    intros Ha Hb'. by apply lt_le_of; [done|]; eapply Hlt.
Qed.

Lemma up_step l l' n j :
  heap_above lt l n j → 0 < j < n →
  (∀ a b, l !! j = Some a → l !! parent j = Some b → lt a b = true) →
  swap_at l (parent j) j = Some l' → heap_above lt l' n (parent j).
Proof.
  intros [[Hb Hg] Hch] Hj Hlt Hs. pose proof (parent_lt j ltac:(lia)).
  assert (is_Some (l !! parent j)) as [p Hp].
  { unfold swap_at in Hs. destruct (l !! parent j); [eauto|done]. }
  split; [split|].
  - intros k Hk Hki Hpi. pose proof (parent_lt k ltac:(lia)).
    destruct (decide (k = j)) as [->|Hkj]; [done|].
    swapped Hs; try congruence.
    + intros Ha Hb'. eapply (Hg k); [lia|lia|congruence|done|done].
    + apply Hb; congruence.
  - intros k Hk H0 Hpk. pose proof (parent_lt k ltac:(lia)). pose proof (parent_lt (parent j) H0).
    swapped Hs; try congruence.
    + apply (Hb (parent j)); lia.
    + intros Ha Hb'. trans p.
      * eapply (Hb (parent j)); [lia|lia|lia|done|done].
      * eapply (Hb k); [lia|done|lia| |done]. by rewrite Hpk.
  - intros k Hk Hpk. pose proof (parent_lt k ltac:(lia)).
    swapped Hs; try congruence.
    + intros Ha Hb'. apply lt_le_of; [done|]. by eapply Hlt.
    + intros Ha Hb'. trans p; [by apply lt_le_of; [done|]; eapply Hlt|].
      eapply (Hb k); [lia|done|lia| |done]. by rewrite Hpk.
Qed.

Lemma heap_above_root l n : heap_above lt l n 0 → heap_upto lt l n.
Proof.
  intros [[Hb _] Hch] k Hk. destruct (decide (parent k = 0)) as [E|E].
  - rewrite E. by apply Hch.
  - apply Hb; [done|lia|done].
Qed.

Lemma heap_above_done l n j :
  heap_above lt l n j → le_at lt l (parent j) j → heap_upto lt l n.
Proof.
  intros [[Hb _] Hch] Hle k Hk.
  destruct (decide (k = j)) as [->|]; [done|].
  destruct (decide (parent k = j)) as [E|E]; [rewrite E; by apply Hch | by apply Hb].
Qed.

Lemma heap_below_done l n i :
  heap_below lt l n i → (∀ k, 0 < k < n → parent k = i → le_at lt l i k) → heap_upto lt l n.
Proof.
  intros [Hbut Hp] Hch k Hk.
  destruct (decide (k = i)) as [->|]; [by apply Hp|].
  destruct (decide (parent k = i)) as [E|E]; [rewrite E; by apply Hch | by apply Hbut].
Qed.

(** The least element of a heap is its first. *)
Lemma heap_upto_root l n k :
  heap_upto lt l n → n ≤ length l → k < n → le_at lt l 0 k.
Proof.
  intros Hh Hn. induction k as [k IH] using (well_founded_induction Nat.lt_wf_0). intros Hk a b Ha Hb.
  destruct (decide (k = 0)) as [->|]; [simplify_eq; apply sw_irrefl; done|].
  pose proof (parent_lt k ltac:(lia)).
  destruct (lookup_lt_is_Some_2 l (parent k) ltac:(lia)) as [c Hc].
  trans c; [eapply (IH (parent k)); [lia|lia|done|done] | by eapply (Hh k); [lia|..]].
Qed.

Lemma heap_upto_take l n : heap_upto lt l n → heap_ordered lt (take n l).
Proof.
  intros Hh k Hk a b. rewrite length_take in Hk. pose proof (parent_lt k ltac:(lia)).
  rewrite !lookup_take_lt by lia. apply Hh. lia.
Qed.

(** The condition [down_or_up] starts from, as [Remove] and [Fix] leave it:
    the heap changed at one index only. *)
Lemma heap_change l l' n i :
  heap_upto lt l n → n ≤ length l → (∀ k, k < n → k ≠ i → l' !! k = l !! k) →
  heap_but lt l' n i.
Proof.
  intros Hh Hn Heq. split.
  - intros k Hk Hki Hpi a b. pose proof (parent_lt k ltac:(lia)).
    rewrite !Heq by lia. by apply Hh.
  - intros k Hk Hi Hpk a b. pose proof (parent_lt k ltac:(lia)). pose proof (parent_lt i Hi).
    rewrite !Heq by lia. intros Ha Hb.
    destruct (lookup_lt_is_Some_2 l i ltac:(lia)) as [c Hc].
    trans c; [by eapply (Hh i); [lia|..] | eapply (Hh k); [lia| |done]; by rewrite Hpk].
Qed.
End lists.

(** ** The operations keep the heap *)
Section correctness.
  Context {H X : Type} `{!HeapIface H X} {V : Type} (lt : V → V → bool).
  Context (view : H → list V) (inv : H → Prop) `{!HeapLaws lt view inv}.

(** [h'] holds the elements of [h], those from index [n] on in place. *)
Definition rearranged (h h' : H) (n : nat) : Prop :=
  inv h' ∧ view h' ≡ₚ view h ∧ ∀ k, n ≤ k → view h' !! k = view h !! k.

Lemma rearranged_refl h n : inv h → rearranged h h n.
Proof. by repeat split. Qed.

Lemma rearranged_trans h h' h'' n : rearranged h h' n → rearranged h' h'' n → rearranged h h'' n.
Proof.
  intros (Hi & Hp & Hk) (Hi' & Hp' & Hk'). repeat split; [done|by trans (view h')|].
  intros k Hn. by rewrite Hk', Hk.
Qed.

Lemma rearranged_length h h' n : rearranged h h' n → length (view h') = length (view h).
Proof. intros (_ & Hp & _). by apply Permutation_length. Qed.

Lemma swap_rearranged h i j n :
  inv h → i < n → j < n → n ≤ length (view h) →
  ∃ h', hSwap h i j = Some h' ∧ swap_at (view h) i j = Some (view h') ∧ rearranged h h' n.
Proof.
  intros Hinv Hi Hj Hn.
  destruct (swap_at_is_Some (view h) i j ltac:(lia) ltac:(lia)) as [l' Hl'].
  destruct (hl_swap h i j l' Hinv Hl') as (h' & Hs & Hinv' & <-).
  exists h'. split; [done|]. split; [done|]. split; [done|]. split; [by eapply swap_at_perm|].
  intros k Hk. rewrite (swap_at_lookup _ _ _ _ _ Hl'). repeat case_decide; try lia. done.
Qed.

Lemma up_loop_spec fuel h j n :
  inv h → heap_above lt (view h) n j → j < n ≤ length (view h) → j < fuel →
  ∃ h', up_loop fuel h j = Some h' ∧ rearranged h h' n ∧ heap_upto lt (view h') n.
Proof.
  revert h j. induction fuel as [|fuel IH]; intros h j Hinv Hab Hj Hf; [lia|].
  cbn [up_loop]. fold (parent j). pose proof (@hl_order _ _ _ _ _ _ _ HeapLaws0) as Hord.
  destruct (Nat.eqb_spec (parent j) j) as [E|E].
  { destruct j as [|j]; [|pose proof (parent_lt (S j)); lia].
    exists h. split; [done|]. split; [by apply rearranged_refl|]. by apply heap_above_root. }
  assert (0 < j) as H0 by (destruct j; [done|lia]). pose proof (parent_lt j H0).
  destruct (lookup_lt_is_Some_2 (view h) j ltac:(lia)) as [a Ha].
  destruct (lookup_lt_is_Some_2 (view h) (parent j) ltac:(lia)) as [b Hb].
  rewrite (hl_less h j (parent j) a b) by done.
  destruct (lt a b) eqn:Hlt.
  - destruct (swap_rearranged h (parent j) j n) as (h' & -> & Hs & Hr); [done|lia..|].
    destruct (IH h' (parent j)) as (h'' & -> & Hr' & Hh).
    + apply Hr.
    + eapply up_step; eauto with lia. by intros; simplify_eq.
    + rewrite (rearranged_length _ _ _ Hr). lia.
    + lia.
    + exists h''. split; [done|]. split; [by eapply rearranged_trans|done].
  - exists h. split; [done|]. split; [by apply rearranged_refl|].
    eapply heap_above_done; [exact Hab|]. by intros ????; simplify_eq.
Qed.

Lemma up_spec h j n :
  inv h → heap_above lt (view h) n j → j < n ≤ length (view h) →
  ∃ h', up h j = Some h' ∧ rearranged h h' n ∧ heap_upto lt (view h') n.
Proof. intros. apply up_loop_spec; auto with lia. Qed.

(** The child [down] compares with, and why it is the smaller one. *)
Lemma smaller_child h i n :
  inv h → 2 * i + 1 < n ≤ length (view h) →
  ∃ r, (if 2 * i + 1 + 1 <? n then hLess h (2 * i + 1 + 1) (2 * i + 1) else Some false) = Some r ∧
       let j := if r then 2 * i + 1 + 1 else 2 * i + 1 in
       0 < j < n ∧ parent j = i ∧ ∀ k, 0 < k < n → parent k = i → le_at lt (view h) j k.
Proof.
  intros Hinv Hi. pose proof (@hl_order _ _ _ _ _ _ _ HeapLaws0) as Hord.
  destruct (lookup_lt_is_Some_2 (view h) (2 * i + 1) ltac:(lia)) as [a Ha].
  destruct (Nat.ltb_spec (2 * i + 1 + 1) n) as [H2|H2].
  - destruct (lookup_lt_is_Some_2 (view h) (2 * i + 1 + 1) ltac:(lia)) as [b Hb].
    rewrite (hl_less h _ _ b a) by done. exists (lt b a). split; [done|].
    destruct (lt b a) eqn:E; cbv zeta;
      (split; [lia|]); (split; [rewrite parent_eq by lia; lia|]); intros k Hk Hpk;
      rewrite parent_eq in Hpk by lia; destruct Hpk as [-> | ->];
      replace (2 * i + 2) with (2 * i + 1 + 1) by lia; intros x y Hx Hy; simplify_eq;
      first [apply sw_irrefl; done | by apply lt_le_of | done].
  - exists false. split; [done|]. cbv zeta. split; [lia|].
    split; [rewrite parent_eq by lia; lia|]. intros k Hk Hpk.
    rewrite parent_eq in Hpk by lia. destruct Hpk as [-> | ->]; [|lia].
    intros x y Hx Hy. simplify_eq. apply sw_irrefl; done.
Qed.

(** One turn of [down], from a heap broken at [i] on either side. *)
Lemma down_turn fuel h i n :
  inv h → heap_but lt (view h) n i → n ≤ length (view h) →
  (down_loop (S fuel) h i n = Some (h, i) ∧
     ∀ k, 0 < k < n → parent k = i → le_at lt (view h) i k) ∨
  ∃ h' j, down_loop (S fuel) h i n = down_loop fuel h' j n ∧
     i < j < n ∧ rearranged h h' n ∧ heap_below lt (view h') n j.
Proof.
  intros Hinv Hbut Hn. cbn [down_loop]. pose proof (@hl_order _ _ _ _ _ _ _ HeapLaws0) as Hord.
  destruct (Nat.leb_spec n (2 * i + 1)) as [Hle|Hgt].
  { left. split; [done|]. intros k Hk Hpk. rewrite parent_eq in Hpk by lia. lia. }
  destruct (smaller_child h i n Hinv ltac:(lia)) as (r & -> & Hj & Hp & Hmin).
  set (j := if r then _ else _) in *. pose proof (parent_lt j ltac:(lia)).
  destruct (lookup_lt_is_Some_2 (view h) j ltac:(lia)) as [a Ha].
  destruct (lookup_lt_is_Some_2 (view h) i ltac:(lia)) as [b Hb].
  rewrite (hl_less h j i a b) by done. destruct (lt a b) eqn:Hlt.
  - right. destruct (swap_rearranged h i j n) as (h' & -> & Hs & Hr); [done|lia..|].
    exists h', j. split; [done|]. split; [lia|]. split; [done|].
    eapply down_step; eauto. by intros; simplify_eq.
  - left. split; [done|]. intros k Hk Hpk x y Hx Hy. simplify_eq. trans a; [done|].
    eapply (Hmin k); eauto.
Qed.

Lemma down_loop_spec fuel h i n :
  inv h → heap_below lt (view h) n i → n ≤ length (view h) → n - i < fuel →
  ∃ h' i', down_loop fuel h i n = Some (h', i') ∧ i ≤ i' ∧ rearranged h h' n ∧
           heap_upto lt (view h') n.
Proof.
  revert h i. induction fuel as [|fuel IH]; intros h i Hinv Hbe Hn Hf; [lia|].
  destruct (down_turn fuel h i n Hinv (proj1 Hbe) Hn)
    as [[-> Hch]|(h' & j & -> & Hj & Hr & Hbe')].
  - exists h, i. split; [done|]. split; [lia|]. split; [by apply rearranged_refl|].
    by eapply heap_below_done.
  - destruct (IH h' j) as (h'' & i' & -> & Hi' & Hr' & Hh);
      [apply Hr|done|rewrite (rearranged_length _ _ _ Hr); lia|lia|].
    exists h'', i'. split; [done|]. split; [lia|]. split; [by eapply rearranged_trans|done].
Qed.

Lemma down_spec h n :
  inv h → heap_below lt (view h) n 0 → n ≤ length (view h) →
  ∃ h' b, down h 0 n = Some (h', b) ∧ rearranged h h' n ∧ heap_upto lt (view h') n.
Proof.
  intros Hinv Hb Hn. unfold down.
  destruct (down_loop_spec (S n) h 0 n) as (h' & i' & -> & _ & Hr & Hh); [done..|lia|].
  eauto 10.
Qed.

Lemma down_or_up_spec h i n :
  inv h → heap_but lt (view h) n i → i < n ≤ length (view h) →
  ∃ h', down_or_up h i n = Some h' ∧ rearranged h h' n ∧ heap_upto lt (view h') n.
Proof.
  intros Hinv Hbut Hn. unfold down_or_up, down.
  destruct (down_turn n h i n Hinv Hbut ltac:(lia)) as [[-> Hch]|(h' & j & -> & Hj & Hr & Hbe)].
  - rewrite Nat.ltb_irrefl. by apply up_spec.
  - destruct (down_loop_spec n h' j n) as (h'' & i' & -> & Hi' & Hr' & Hh);
      [apply Hr|done|rewrite (rearranged_length _ _ _ Hr); lia|lia|].
    destruct (Nat.ltb_spec i i'); [|lia].
    exists h''. split; [done|]. split; [by eapply rearranged_trans|done].
Qed.

(** [Push]: once the client's [Push] has appended the element. *)
Lemma Push_spec h h1 x v :
  hPush h x = Some h1 → inv h1 → view h1 = view h ++ [v] → heap_ordered lt (view h) →
  ∃ h', Push h x = Some h' ∧ rearranged h1 h' (length (view h1)) ∧ heap_ordered lt (view h').
Proof.
  intros Hp Hinv Hv Hh. unfold Push. rewrite Hp, (hl_len h1 Hinv).
  assert (Hlen : length (view h1) = S (length (view h))) by (rewrite Hv, length_app; simpl; lia).
  destruct (up_spec h1 (length (view h1) - 1) (length (view h1))) as (h' & -> & Hr & Hh').
  - done.
  - rewrite Hlen. replace (S (length (view h)) - 1) with (length (view h)) by lia.
    split; [split|].
    + intros k Hk Hk' _ a b. pose proof (parent_lt k ltac:(lia)).
      rewrite Hv, !lookup_app_l by lia. apply Hh. lia.
    + intros k Hk _ Hpk. pose proof (parent_lt k ltac:(lia)). lia.
    + intros k Hk Hpk. pose proof (parent_lt k ltac:(lia)). lia.
  - lia.
  - exists h'. split; [done|]. split; [done|].
    unfold heap_ordered. by rewrite (rearranged_length _ _ _ Hr).
Qed.

(** What [Pop] and [Remove] hand to the client's [Pop]: the removed element is
    last, the others form a heap. *)
Lemma Remove_prepare_spec h i v :
  inv h → heap_ordered lt (view h) → view h !! i = Some v →
  ∃ h', Remove_prepare h i = Some h' ∧ inv h' ∧ view h' ≡ₚ view h ∧
        view h' !! (length (view h) - 1) = Some v ∧
        heap_upto lt (view h') (length (view h) - 1).
Proof.
  intros Hinv Hh Hi. pose proof (lookup_lt_Some _ _ _ Hi) as Hlt.
  pose proof (@hl_order _ _ _ _ _ _ _ HeapLaws0) as Hord.
  unfold Remove_prepare. rewrite (hl_len h Hinv). set (n := length (view h)) in *.
  destruct (Nat.eqb_spec n 0); [lia|]. destruct (Nat.eqb_spec (n - 1) i) as [<-|Hne].
  { exists h. do 4 (split; [done|]). intros k Hk. apply Hh. fold n. lia. }
  destruct (swap_rearranged h i (n - 1) n) as (h1 & -> & Hs & Hinv1 & Hp1 & _); [done|lia..|].
  assert (Hlk : ∀ k, k < n - 1 → k ≠ i → view h1 !! k = view h !! k).
  { intros k Hk Hki. rewrite (swap_at_lookup _ _ _ _ _ Hs). repeat case_decide; idx. }
  destruct (down_or_up_spec h1 i (n - 1)) as (h2 & -> & (Hinv2 & Hp2 & Hk2) & Hh2).
  - done.
  - eapply (heap_change lt (view h)); [| |done].
    + intros k Hk. apply Hh. fold n. lia.
    + fold n. lia.
  - rewrite (Permutation_length Hp1). fold n. lia.
  - exists h2. split; [done|]. split; [done|]. split; [by trans (view h1)|].
    split; [|done]. rewrite Hk2 by lia. rewrite (swap_at_lookup _ _ _ _ _ Hs).
    repeat case_decide; idx.
Qed.

Lemma Pop_prepare_spec h v :
  inv h → heap_ordered lt (view h) → view h !! 0 = Some v →
  ∃ h', Pop_prepare h = Some h' ∧ inv h' ∧ view h' ≡ₚ view h ∧
        view h' !! (length (view h) - 1) = Some v ∧
        heap_upto lt (view h') (length (view h) - 1).
Proof.
  intros Hinv Hh Hi. pose proof (lookup_lt_Some _ _ _ Hi) as Hlt.
  pose proof (@hl_order _ _ _ _ _ _ _ HeapLaws0) as Hord.
  unfold Pop_prepare. rewrite (hl_len h Hinv). set (n := length (view h)) in *.
  destruct (Nat.eqb_spec n 0); [lia|].
  destruct (swap_rearranged h 0 (n - 1) n) as (h1 & -> & Hs & Hinv1 & Hp1 & _); [done|lia..|].
  destruct (down_spec h1 (n - 1)) as (h2 & b & -> & (Hinv2 & Hp2 & Hk2) & Hh2).
  - done.
  - split; [|lia]. eapply (heap_change lt (view h)).
    + intros k Hk. apply Hh. fold n. lia.
    + fold n. lia.
    + intros k Hk Hki. rewrite (swap_at_lookup _ _ _ _ _ Hs). repeat case_decide; idx.
  - rewrite (Permutation_length Hp1). fold n. lia.
  - exists h2. split; [done|]. split; [done|]. split; [by trans (view h1)|].
    split; [|done]. rewrite Hk2 by lia. rewrite (swap_at_lookup _ _ _ _ _ Hs).
    repeat case_decide; idx.
Qed.

Lemma Fix_spec h i l0 :
  inv h → heap_ordered lt l0 → length l0 = length (view h) → i < length l0 →
  (∀ k, k ≠ i → view h !! k = l0 !! k) →
  ∃ h', Fix h i = Some h' ∧ rearranged h h' (length (view h)) ∧ heap_ordered lt (view h').
Proof.
  intros Hinv Hh Hlen Hi Hk. pose proof (@hl_order _ _ _ _ _ _ _ HeapLaws0) as Hord.
  unfold Fix. rewrite (hl_len h Hinv).
  destruct (down_or_up_spec h i (length (view h))) as (h' & -> & Hr & Hh').
  - done.
  - eapply (heap_change lt l0); [by rewrite <- Hlen | lia | auto].
  - lia.
  - exists h'. split; [done|]. split; [done|]. unfold heap_ordered.
    by rewrite (rearranged_length _ _ _ Hr).
Qed.
End correctness.
