(* ===== verification/StoreApi.v ===== *)
(** The persistence boundary ([src/store.go]).

    [StoreOps] is the [Store] interface: one field per method, each a routine
    over the store's own state. [Spec] says what the interface promises over
    plain maps of jobs and schedules, and [LawfulStore] is the promise a
    backend makes: whatever it keeps its data in, seen through [abs] every
    method acts as [Spec] says, or reports an infrastructure error and changes
    nothing. The scheduler's components are proved against [LawfulStore]. *)

From S2P Require Import Prelude ListLib Types.
Local Open Scope Z_scope.

(** ** The interface

    Every method takes a context. What of it matters here is [ctx.Err()] when the
    call is made: nothing for a context that has not ended. *)
Record context : Type := mkContext { ctx_Err : option string }.

(** [context.Background()]. *)
Definition Background : context := mkContext None.

(** A method is a routine over the store's state, as a call with a context that
    has not ended runs it. [st_ended e s] is the store as a call finds it whose
    context has ended with the error [e], and [st_left s s'] the store after such a
    call went from [st_ended e s] to [s'] ([under]). *)
Class StoreOps (S : Type) : Type := {
  st_ended : string → S → S;
  st_left : S → S → S;
  st_Save : Job.t → GoM S (option error);
  st_ClaimDue : string → Z → Z → string → Z → GoM S (list Job.t * option error);
  st_Ack : string → GoM S (option error);
  st_Fail : string → string → Z → GoM S (option error);
  st_Cancel : string → GoM S (option error);
  st_Reschedule : string → Z → GoM S (option error);
  st_Heartbeat : string → Z → GoM S (option error);
  st_RecoverStale : Z → GoM S (Z * option error);
  st_UpsertRecurring : RecurringSpec.t → GoM S (option error);
  st_ListRecurring : GoM S (list RecurringSpec.t * option error);
  st_DeleteRecurring : string → GoM S (option error);
  st_AcquireRecurringLease : string → Z → string → GoM S (bool * option error);
  st_UpdateRecurringNextRun : string → Z → Z → GoM S (option error);
  st_QueueSize : string → GoM S (Z * option error)
}.

(** The call [m] with the context [ctx]. *)
Definition under {S A} `{!StoreOps S} (ctx : context) (m : GoM S A) : GoM S A :=
  match ctx_Err ctx with
  | None => m
  | Some e => λ s, match m (st_ended e s) with
                   | Some (a, s') => Some (a, st_left s s')
                   | None => None
                   end
  end.

(** ** What the interface promises *)
Module Spec.

(** The part of a job the contract speaks of. The bookkeeping fields are left
    out: backends differ on them ([CreatedAt] and [UpdatedAt] are kept or
    rewritten by an upsert, [Delivery] and [catchup] are not persisted). *)
Definition job_view (j : Job.t) : Job.t :=
  {| Job.ID := Job.ID j; Job.Name := Job.Name j; Job.Queue := Job.Queue j;
     Job.Priority := Job.Priority j; Job.Payload := Job.Payload j;
     Job.CodecName := Job.CodecName j; Job.RunAt := Job.RunAt j;
     Job.Attempt := Job.Attempt j; Job.MaxAttempts := Job.MaxAttempts j;
     Job.State := Job.State j; Job.Delivery := 0; Job.Timeout := Job.Timeout j;
     Job.LockedBy := Job.LockedBy j; Job.LockedUntil := Job.LockedUntil j;
     Job.LastError := Job.LastError j; Job.RecurringID := Job.RecurringID j;
     Job.CreatedAt := 0; Job.UpdatedAt := 0; Job.catchup := false |}.

(** Of a schedule, without its lease and delivery mode. *)
Definition rec_view (r : RecurringSpec.t) : RecurringSpec.t :=
  {| RecurringSpec.ID := RecurringSpec.ID r; RecurringSpec.Name := RecurringSpec.Name r;
     RecurringSpec.Queue := RecurringSpec.Queue r;
     RecurringSpec.Priority := RecurringSpec.Priority r;
     RecurringSpec.Payload := RecurringSpec.Payload r;
     RecurringSpec.CodecName := RecurringSpec.CodecName r; RecurringSpec.Delivery := 0;
     RecurringSpec.Timeout := RecurringSpec.Timeout r;
     RecurringSpec.MaxAttempts := RecurringSpec.MaxAttempts r;
     RecurringSpec.Cron := RecurringSpec.Cron r; RecurringSpec.Every := RecurringSpec.Every r;
     RecurringSpec.Catchup := RecurringSpec.Catchup r; RecurringSpec.LeaseUntil := 0;
     RecurringSpec.LeasedBy := ""; RecurringSpec.NextRunAt := RecurringSpec.NextRunAt r;
     RecurringSpec.LastFireAt := RecurringSpec.LastFireAt r |}.

Record t : Type := mk {
  jobs : gmap string Job.t;
  recurring : gmap string RecurringSpec.t
}.

Definition set_jobs (m : gmap string Job.t) (s : t) : t := mk m (recurring s).
Definition set_recurring (m : gmap string RecurringSpec.t) (s : t) : t := mk (jobs s) m.

(** A result with an error leaves the state alone. *)
Definition refuse (e : error) (s : t) : option error * t := (Some e, s).
Definition done_with (s : t) : option error * t := (None, s).

Definition save (j : Job.t) (s : t) : option error * t :=
  done_with (set_jobs (<[Job.ID j := job_view j]> (jobs s)) s).

(** Acknowledged and exhausted jobs leave the store: the terminal states are
    never seen in it. *)
Definition ack (id : string) (s : t) : option error * t :=
  match jobs s !! id with
  | Some j => if Job.State j =? StateClaimed then done_with (set_jobs (delete id (jobs s)) s)
              else refuse ErrJobNotFound s
  | None => refuse ErrJobNotFound s
  end.

Definition exhausted (j : Job.t) : bool :=
  (0 <? Job.MaxAttempts j) && (Job.MaxAttempts j <=? wrap64 (Job.Attempt j + 1)).

Definition retry_job (msg : string) (at_ : Z) (j : Job.t) : Job.t :=
  Job.set_LockedUntil Time.zero (Job.set_LockedBy "" (Job.set_RunAt at_
    (Job.set_State StatePending (Job.set_LastError msg
      (Job.set_Attempt (wrap64 (Job.Attempt j + 1)) j))))).

Definition fail (id msg : string) (at_ : Z) (s : t) : option error * t :=
  match jobs s !! id with
  | Some j =>
      if Job.State j =? StateClaimed then
        if exhausted j then done_with (set_jobs (delete id (jobs s)) s)
        else done_with (set_jobs (<[id := retry_job msg at_ j]> (jobs s)) s)
      else refuse ErrJobNotFound s
  | None => refuse ErrJobNotFound s
  end.

Definition cancel (id : string) (s : t) : option error * t :=
  match jobs s !! id with
  | Some j => if Job.State j =? StatePending then done_with (set_jobs (delete id (jobs s)) s)
              else refuse ErrJobNotPending s
  | None => refuse ErrJobNotFound s
  end.

Definition reschedule (id : string) (at_ : Z) (s : t) : option error * t :=
  match jobs s !! id with
  | Some j => if Job.State j =? StatePending
              then done_with (set_jobs (<[id := Job.set_RunAt at_ j]> (jobs s)) s)
              else refuse ErrJobNotPending s
  | None => refuse ErrJobNotFound s
  end.

Definition upsert_recurring (r : RecurringSpec.t) (s : t) : option error * t :=
  done_with (set_recurring (<[RecurringSpec.ID r := rec_view r]> (recurring s)) s).

Definition delete_recurring (id : string) (s : t) : option error * t :=
  done_with (set_recurring (delete id (recurring s)) s).

Definition update_next_run (id : string) (next last : Z) (s : t) : option error * t :=
  done_with (set_recurring
    (alter (λ r, RecurringSpec.set_LastFireAt last (RecurringSpec.set_NextRunAt next r)) id
           (recurring s)) s).

(** Pending jobs of a queue. *)
Definition pending_in (q : string) (j : Job.t) : bool :=
  bool_decide (Job.Queue j = q) && (Job.State j =? StatePending).

Definition pending_of (q : string) (m : gmap string Job.t) : list Job.t :=
  filter (λ j, pending_in q j = true) (map_to_list m).*2.

Definition queue_size (q : string) (s : t) : Z := Z.of_nat (length (pending_of q (jobs s))).

(** Pending and due: what a claim may take. *)
Definition eligible (q : string) (now : Z) (j : Job.t) : bool :=
  pending_in q j && negb (Time.After (Job.RunAt j) now).

Definition claim_job (w : string) (u : Z) (j : Job.t) : Job.t :=
  Job.set_LockedUntil u (Job.set_LockedBy w (Job.set_State StateClaimed j)).

Definition ids (js : list Job.t) : list string := Job.ID <$> js.

(** Rewrite the jobs [js] of a store by [f], one after the other. *)
Definition update_all (f : Job.t → Job.t) (js : list Job.t) (m : gmap string Job.t)
    : gmap string Job.t :=
  foldl (λ m j, <[Job.ID j := f j]> m) m js.

Definition claim_all (w : string) (u : Z) : list Job.t → gmap string Job.t → gmap string Job.t :=
  update_all (claim_job w u).

(** Taking the jobs [js] is a correct answer to [ClaimDue]: eligible jobs of
    the store, each once, at most [n], in claim order, none of them before a
    better one that was left out. *)
Record claim_ok (q : string) (now n : Z) (m : gmap string Job.t) (js : list Job.t) : Prop := {
  claim_nodup : NoDup (ids js);
  claim_eligible : Forall (λ j, m !! Job.ID j = Some j ∧ eligible q now j = true) js;
  claim_bound : Z.of_nat (length js) ≤ n;
  claim_sorted : StronglySorted (le_of jobLess) js;
  claim_best : ∀ k j, m !! k = Some j → eligible q now j = true → j ∉ js →
                 Forall (λ c, le_of jobLess c j) js
}.

(** The rest of the contract of [ClaimDue]: a short answer means that nothing
    eligible is left. *)
Definition claim_complete (q : string) (now n : Z) (m : gmap string Job.t) (js : list Job.t)
    : Prop :=
  Z.of_nat (length js) < n → ∀ k j, m !! k = Some j → eligible q now j = true → j ∈ js.

(** Recovery puts claimed jobs back to pending, and touches no others. *)
Definition release_job (j : Job.t) : Job.t :=
  Job.set_LockedUntil Time.zero (Job.set_LockedBy "" (Job.set_State StatePending j)).

Definition recovered (m m' : gmap string Job.t) (n : Z) : Prop :=
  ∃ stale : list string,
    NoDup stale ∧ n = Z.of_nat (length stale) ∧
    (∀ k, k ∈ stale → ∃ j, m !! k = Some j ∧ Job.State j = StateClaimed ∧
                            m' !! k = Some (release_job j)) ∧
    (∀ k, k ∉ stale → m' !! k = m !! k).
End Spec.

(** ** The promise of a backend

    [wf] is the backend's own invariant and [abs] what its state stands for;
    [ok_job], [ok_spec] and [ok_time] are the records and times it can
    represent. *)
Class LawfulStore (S : Type) `{!StoreOps S} : Type := {
  wf : S → Prop;
  abs : S → Spec.t;
  ok_job : Job.t → Prop;
  ok_spec : RecurringSpec.t → Prop;
  ok_time : Z → Prop;
  law_ended : ∀ s e, wf s → wf (st_ended e s) ∧ abs (st_ended e s) = abs s;
  law_left : ∀ s s', wf s' → wf (st_left s s') ∧ abs (st_left s s') = abs s';
  law_key : ∀ s k j, wf s → Spec.jobs (abs s) !! k = Some j →
    Job.ID j = k ∧ Spec.job_view j = j;
  law_Save : ∀ s j, wf s → ok_job j →
    ∃ e s', st_Save j s = Some (e, s') ∧ wf s' ∧
      ((∃ msg, e = Some (ErrOther msg) ∧ abs s' = abs s) ∨ (e, abs s') = Spec.save j (abs s));
  law_Ack : ∀ s id, wf s →
    ∃ e s', st_Ack id s = Some (e, s') ∧ wf s' ∧
      ((∃ msg, e = Some (ErrOther msg) ∧ abs s' = abs s) ∨ (e, abs s') = Spec.ack id (abs s));
  law_Fail : ∀ s id msg t, wf s → ok_time t →
    ∃ e s', st_Fail id msg t s = Some (e, s') ∧ wf s' ∧
      ((∃ m, e = Some (ErrOther m) ∧ abs s' = abs s) ∨ (e, abs s') = Spec.fail id msg t (abs s));
  law_Cancel : ∀ s id, wf s →
    ∃ e s', st_Cancel id s = Some (e, s') ∧ wf s' ∧
      ((∃ msg, e = Some (ErrOther msg) ∧ abs s' = abs s) ∨ (e, abs s') = Spec.cancel id (abs s));
  law_Reschedule : ∀ s id t, wf s → ok_time t →
    ∃ e s', st_Reschedule id t s = Some (e, s') ∧ wf s' ∧
      ((∃ msg, e = Some (ErrOther msg) ∧ abs s' = abs s) ∨
       (e, abs s') = Spec.reschedule id t (abs s));
  law_ClaimDue : ∀ s q now n w u, wf s → makeable n → ok_time now → ok_time u →
    ∃ out e s', st_ClaimDue q now n w u s = Some ((out, e), s') ∧ wf s' ∧
      ((∃ msg, out = [] ∧ e = Some (ErrOther msg) ∧ abs s' = abs s) ∨
       (∃ js, e = None ∧ Spec.claim_ok q now n (Spec.jobs (abs s)) js ∧
          Spec.job_view <$> out = Spec.claim_job w u <$> js ∧
          abs s' = Spec.set_jobs (Spec.claim_all w u js (Spec.jobs (abs s))) (abs s)));
  law_Heartbeat : ∀ s w now, wf s →
    ∃ e s', st_Heartbeat w now s = Some (e, s') ∧ wf s' ∧ abs s' = abs s;
  law_RecoverStale : ∀ s now, wf s → ok_time now →
    ∃ n e s', st_RecoverStale now s = Some ((n, e), s') ∧ wf s' ∧
      ((∃ msg, n = 0 ∧ e = Some (ErrOther msg) ∧ abs s' = abs s) ∨
       (e = None ∧ Spec.recovered (Spec.jobs (abs s)) (Spec.jobs (abs s')) n ∧
        Spec.recurring (abs s') = Spec.recurring (abs s)));
  law_UpsertRecurring : ∀ s r, wf s → ok_spec r →
    ∃ e s', st_UpsertRecurring r s = Some (e, s') ∧ wf s' ∧
      ((∃ msg, e = Some (ErrOther msg) ∧ abs s' = abs s) ∨
       (e, abs s') = Spec.upsert_recurring r (abs s));
  law_ListRecurring : ∀ s, wf s →
    ∃ out e s', st_ListRecurring s = Some ((out, e), s') ∧ wf s' ∧ abs s' = abs s ∧
      ((∃ msg, e = Some (ErrOther msg)) ∨
       (e = None ∧ Spec.rec_view <$> out ≡ₚ (map_to_list (Spec.recurring (abs s))).*2));
  law_DeleteRecurring : ∀ s id, wf s →
    ∃ e s', st_DeleteRecurring id s = Some (e, s') ∧ wf s' ∧
      ((∃ msg, e = Some (ErrOther msg) ∧ abs s' = abs s) ∨
       (e, abs s') = Spec.delete_recurring id (abs s));
  law_AcquireRecurringLease : ∀ s id u w, wf s → ok_time u →
    ∃ b e s', st_AcquireRecurringLease id u w s = Some ((b, e), s') ∧ wf s' ∧ abs s' = abs s;
  law_UpdateRecurringNextRun : ∀ s id next last, wf s → ok_time next → ok_time last →
    ∃ e s', st_UpdateRecurringNextRun id next last s = Some (e, s') ∧ wf s' ∧
      ((∃ msg, e = Some (ErrOther msg) ∧ abs s' = abs s) ∨
       (e, abs s') = Spec.update_next_run id next last (abs s));
  law_QueueSize : ∀ s q, wf s →
    ∃ n e s', st_QueueSize q s = Some ((n, e), s') ∧ wf s' ∧ abs s' = abs s ∧
      ((∃ msg, n = 0 ∧ e = Some (ErrOther msg)) ∨ (e = None ∧ n = Spec.queue_size q (abs s)))
}.

(** *** Calls as data *)

(** A call to a method that changes the store, but for [ClaimDue]: the ones
    whose result the abstract store determines. *)
Inductive method : Type :=
  | MSave (j : Job.t)
  | MAck (id : string)
  | MFail (id msg : string) (t : Z)
  | MCancel (id : string)
  | MReschedule (id : string) (t : Z)
  | MUpsertRecurring (r : RecurringSpec.t)
  | MDeleteRecurring (id : string)
  | MUpdateRecurringNextRun (id : string) (next last : Z).

(** Any call. *)
Inductive op : Type :=
  | OMethod (c : method)
  | OClaim (q : string) (now n : Z) (w : string) (u : Z)
  | OHeartbeat (w : string) (now : Z)
  | ORecover (now : Z)
  | OList
  | OLease (id : string) (u : Z) (w : string)
  | OSize (q : string).

Section methods.
Context {S : Type} `{!StoreOps S}.

Definition run_method (c : method) : GoM S (option error) :=
  match c with
  | MSave j => st_Save j
  | MAck id => st_Ack id
  | MFail id msg t => st_Fail id msg t
  | MCancel id => st_Cancel id
  | MReschedule id t => st_Reschedule id t
  | MUpsertRecurring r => st_UpsertRecurring r
  | MDeleteRecurring id => st_DeleteRecurring id
  | MUpdateRecurringNextRun id next last => st_UpdateRecurringNextRun id next last
  end.

Definition run_op (o : op) : GoM S unit :=
  match o with
  | OMethod c => gbind (run_method c) (λ _, gret tt)
  | OClaim q now n w u => gbind (st_ClaimDue q now n w u) (λ _, gret tt)
  | OHeartbeat w now => gbind (st_Heartbeat w now) (λ _, gret tt)
  | ORecover now => gbind (st_RecoverStale now) (λ _, gret tt)
  | OList => gbind st_ListRecurring (λ _, gret tt)
  | OLease id u w => gbind (st_AcquireRecurringLease id u w) (λ _, gret tt)
  | OSize q => gbind (st_QueueSize q) (λ _, gret tt)
  end.

Definition run_ops (os : list op) : GoM S unit := gfor os run_op.

Definition run_methods (cs : list method) : GoM S unit :=
  gfor cs (λ c, gbind (run_method c) (λ _, gret tt)).

Lemma run_methods_cons c cs (s s' : S) e :
  run_method c s = Some (e, s') → run_methods (c :: cs) s = run_methods cs s'.
Proof. intros H. unfold run_methods, gbind at 1. cbn. unfold gbind at 1 2. by rewrite H. Qed.

Definition spec_method (c : method) (s : Spec.t) : option error * Spec.t :=
  match c with
  | MSave j => Spec.save j s
  | MAck id => Spec.ack id s
  | MFail id msg t => Spec.fail id msg t s
  | MCancel id => Spec.cancel id s
  | MReschedule id t => Spec.reschedule id t s
  | MUpsertRecurring r => Spec.upsert_recurring r s
  | MDeleteRecurring id => Spec.delete_recurring id s
  | MUpdateRecurringNextRun id next last => Spec.update_next_run id next last s
  end.

(** The arguments a backend can represent. *)
Definition ok_method `{!LawfulStore S} (c : method) : Prop :=
  match c with
  | MSave j => ok_job j
  | MFail _ _ t => ok_time t
  | MReschedule _ t => ok_time t
  | MUpsertRecurring r => ok_spec r
  | MUpdateRecurringNextRun _ next last => ok_time next ∧ ok_time last
  | _ => True
  end.

Definition ok_op `{!LawfulStore S} (o : op) : Prop :=
  match o with
  | OMethod c => ok_method c
  | OClaim _ now n _ u => makeable n ∧ ok_time now ∧ ok_time u
  | ORecover now => ok_time now
  | OLease _ u _ => ok_time u
  | _ => True
  end.
End methods.

(** The databases' [Save] turns a [MaxAttempts] of zero into three: the job that
    is stored, and the call that stores it as it is. *)
Definition stored_job (j : Job.t) : Job.t :=
  Job.set_MaxAttempts (if Job.MaxAttempts j =? 0 then 3 else Job.MaxAttempts j) j.

Definition as_stored (c : method) : method :=
  match c with MSave j => MSave (stored_job j) | c => c end.

(** What the laws say of them, together. *)
Section lawful.
Context {S : Type} `{!StoreOps S, !LawfulStore S}.

Lemma law_method c s :
  wf s → ok_method c →
  ∃ e s', run_method c s = Some (e, s') ∧ wf s' ∧
    ((∃ msg, e = Some (ErrOther msg) ∧ abs s' = abs s) ∨ (e, abs s') = spec_method c (abs s)).
Proof.
  intros Hwf Hc. destruct c; simpl in *.
  - by apply law_Save.
  - by apply law_Ack.
  - by apply law_Fail.
  - by apply law_Cancel.
  - by apply law_Reschedule.
  - by apply law_UpsertRecurring.
  - by apply law_DeleteRecurring.
  - by apply law_UpdateRecurringNextRun; try apply Hc.
Qed.

(** Every call returns, in a state of the invariant. *)
Lemma law_op o s : wf s → ok_op o → ∃ s', run_op o s = Some (tt, s') ∧ wf s'.
Proof.
  intros Hwf Ho. destruct o as [c|q now n w u|w now|now| |id u w|q]; cbn in *; unfold gbind, gret.
  - destruct (law_method c s Hwf Ho) as (e & s' & -> & ? & _). eauto.
  - destruct Ho as (? & ? & ?).
    destruct (law_ClaimDue s q now n w u) as (out & e & s' & -> & ? & _); eauto.
  - destruct (law_Heartbeat s w now Hwf) as (e & s' & -> & ? & _). eauto.
  - destruct (law_RecoverStale s now Hwf Ho) as (n & e & s' & -> & ? & _). eauto.
  - destruct (law_ListRecurring s Hwf) as (out & e & s' & -> & ? & _). eauto.
  - destruct (law_AcquireRecurringLease s id u w Hwf Ho) as (b & e & s' & -> & ? & _). eauto.
  - destruct (law_QueueSize s q Hwf) as (n & e & s' & -> & ? & _). eauto.
Qed.

(** The same of a call with a context, ended or not. *)
Lemma under_run {A} ctx (m : GoM S A) s (R : A → Spec.t → Prop) :
  wf s →
  (∀ s0, wf s0 → abs s0 = abs s → ∃ a s', m s0 = Some (a, s') ∧ wf s' ∧ R a (abs s')) →
  ∃ a s', under ctx m s = Some (a, s') ∧ wf s' ∧ R a (abs s').
Proof.
  intros Hwf Hm. unfold under. destruct (ctx_Err ctx) as [e|]; [|by apply Hm].
  destruct (law_ended s e Hwf) as [Hwf0 Ha0]. destruct (Hm _ Hwf0 Ha0) as (a & s' & -> & Hwf' & HR).
  destruct (law_left s s' Hwf') as [Hwf1 Ha1]. exists a, (st_left s s'). by rewrite Ha1.
Qed.

Lemma under_method ctx c s :
  wf s → ok_method c →
  ∃ e s', under ctx (run_method c) s = Some (e, s') ∧ wf s' ∧
    ((∃ msg, e = Some (ErrOther msg) ∧ abs s' = abs s) ∨ (e, abs s') = spec_method c (abs s)).
Proof.
  intros Hwf Hc. apply (under_run ctx _ s (λ e a, (∃ msg, e = Some (ErrOther msg) ∧ a = abs s) ∨
    (e, a) = spec_method c (abs s))); [done|]. intros s0 Hwf0 <-. by apply law_method.
Qed.

(** The store after some methods. *)
Definition after (cs : list method) (s : S) : S :=
  match run_methods cs s with Some (_, s') => s' | None => s end.

Lemma after_wf cs s : wf s → Forall ok_method cs → wf (after cs s).
Proof.
  intros Hwf Hcs. unfold after. revert s Hwf. induction Hcs as [|c cs Hc _ IH]; intros s Hwf; [done|].
  destruct (law_method c s Hwf Hc) as (e & s1 & Hrun & Hwf1 & _).
  rewrite (run_methods_cons _ _ _ _ _ Hrun). specialize (IH s1 Hwf1).
  by destruct (run_methods cs s1) as [[[] ?]|].
Qed.
End lawful.

(** ** Facts about the specification the components share *)

Lemma job_view_idem j : Spec.job_view (Spec.job_view j) = Spec.job_view j.
Proof. done. Qed.

Lemma job_view_ID j : Job.ID (Spec.job_view j) = Job.ID j.
Proof. done. Qed.

Lemma jobLess_view a b : jobLess (Spec.job_view a) (Spec.job_view b) = jobLess a b.
Proof. done. Qed.

Lemma eligible_view q now j : Spec.eligible q now (Spec.job_view j) = Spec.eligible q now j.
Proof. done. Qed.

Lemma update_all_lookup f js m k :
  NoDup (Spec.ids js) →
  Forall (λ j, m !! Job.ID j = Some j) js →
  Spec.update_all f js m !! k = if decide (k ∈ Spec.ids js) then f <$> m !! k else m !! k.
Proof.
  unfold Spec.ids. revert m. induction js as [|j js IH]; intros m Hnd Hm; simpl in *; [done|].
  apply NoDup_cons in Hnd as [Hj Hnd]. apply Forall_cons in Hm as [Hmj Hm].
  rewrite IH; [|done|].
  - destruct (decide (k = Job.ID j)) as [->|Hne].
    + rewrite decide_False by done. rewrite lookup_insert_eq, decide_True by (by left).
      by rewrite Hmj.
    + rewrite lookup_insert_ne by done.
      assert (k ∈ Job.ID j :: (Job.ID <$> js) ↔ k ∈ Job.ID <$> js) as Hiff.
      { rewrite elem_of_cons. split; [intros [?|?]; done | by right]. }
      by repeat case_decide; try tauto.
  - rewrite Forall_forall in *. intros j' Hj'. rewrite lookup_insert_ne; [by apply Hm|].
    intros He. apply Hj. rewrite He. by apply list_elem_of_fmap_2.
Qed.

Lemma elem_of_pending_of q m k j :
  m !! k = Some j → Spec.pending_in q j = true → j ∈ Spec.pending_of q m.
Proof.
  intros Hm Hp. apply list_elem_of_filter. split; [done|].
  apply list_elem_of_fmap. exists (k, j). split; [done|]. by apply elem_of_map_to_list.
Qed.

Lemma keyed_ids m :
  (∀ k j, m !! k = Some j → Job.ID j = k) → Spec.ids (map_to_list m).*2 = (map_to_list m).*1.
Proof.
  intros Hkey. unfold Spec.ids. rewrite <- list_fmap_compose. apply list_fmap_ext. intros i [k j] Hi. simpl.
  apply Hkey, elem_of_map_to_list. by eapply list_elem_of_lookup_2.
Qed.

Lemma keyed_filter_nodup (P : Job.t → Prop) `{!∀ j, Decision (P j)} (m : gmap string Job.t) :
  (∀ k j, m !! k = Some j → Job.ID j = k) → NoDup (Spec.ids (filter P (map_to_list m).*2)).
Proof.
  intros Hkey. apply (sublist_NoDup _ (Spec.ids (map_to_list m).*2)).
  - rewrite keyed_ids by done. apply NoDup_fst_map_to_list.
  - apply fmap_sublist, sublist_filter.
Qed.

Lemma pending_of_nodup q m :
  (∀ k j, m !! k = Some j → Job.ID j = k) → NoDup (Spec.ids (Spec.pending_of q m)).
Proof. apply keyed_filter_nodup. Qed.

Lemma pending_of_elem q m j :
  j ∈ Spec.pending_of q m → Spec.pending_in q j = true ∧ ∃ k, m !! k = Some j.
Proof.
  intros [Hp Hin]%list_elem_of_filter. split; [done|].
  apply list_elem_of_fmap in Hin as ([k j'] & -> & Hin). exists k. by apply elem_of_map_to_list in Hin.
Qed.


(** ** A store inside the scheduler's process

    represents every record and time, looks at no context, reports no
    infrastructure error, grants every lease and recovers nothing: there is no one to share the jobs and
    schedules with, and no one whose jobs to take over. *)
Class LocalStore (S : Type) `{!StoreOps S, !LawfulStore S} : Prop := {
  local_ok_job : ∀ j, ok_job j;
  local_ok_spec : ∀ r, ok_spec r;
  local_ok_time : ∀ t, ok_time t;
  local_ended : ∀ s e, st_ended e s = s;
  local_left : ∀ s s', st_left s s' = s';
  local_Save : ∀ s j, wf s →
    ∃ s', st_Save j s = Some (None, s') ∧ wf s' ∧ abs s' = (Spec.save j (abs s)).2;
  local_Ack : ∀ s id, wf s →
    ∃ s', st_Ack id s = Some ((Spec.ack id (abs s)).1, s') ∧ wf s' ∧
          abs s' = (Spec.ack id (abs s)).2;
  local_Fail : ∀ s id msg t, wf s →
    ∃ s', st_Fail id msg t s = Some ((Spec.fail id msg t (abs s)).1, s') ∧ wf s' ∧
          abs s' = (Spec.fail id msg t (abs s)).2;
  local_Cancel : ∀ s id, wf s →
    ∃ s', st_Cancel id s = Some ((Spec.cancel id (abs s)).1, s') ∧ wf s' ∧
          abs s' = (Spec.cancel id (abs s)).2;
  local_RecoverStale : ∀ s now, wf s →
    ∃ s', st_RecoverStale now s = Some ((0, None), s') ∧ wf s' ∧ abs s' = abs s;
  local_UpsertRecurring : ∀ s r, wf s →
    ∃ s', st_UpsertRecurring r s = Some (None, s') ∧ wf s' ∧
          abs s' = (Spec.upsert_recurring r (abs s)).2;
  local_ListRecurring : ∀ s, wf s →
    ∃ out s', st_ListRecurring s = Some ((out, None), s') ∧ wf s' ∧ abs s' = abs s ∧
      Spec.rec_view <$> out ≡ₚ (map_to_list (Spec.recurring (abs s))).*2;
  local_AcquireRecurringLease : ∀ s id u w, wf s →
    ∃ s', st_AcquireRecurringLease id u w s = Some ((true, None), s') ∧ wf s' ∧ abs s' = abs s;
  local_UpdateRecurringNextRun : ∀ s id next last, wf s →
    ∃ e s', st_UpdateRecurringNextRun id next last s = Some (e, s') ∧ wf s' ∧
      abs s' = (Spec.update_next_run id next last (abs s)).2
}.

(** A call on it does not depend on its context. *)
Lemma under_local {S A} `{!StoreOps S, !LawfulStore S, !LocalStore S} ctx (m : GoM S A) s :
  under ctx m s = m s.
Proof.
  unfold under. destruct (ctx_Err ctx) as [e|]; [|done]. rewrite local_ended.
  destruct (m s) as [[a s']|]; [|done]. by rewrite local_left.
Qed.
