(* ===== verification/Durable.v ===== *)
(** What a store shared by several processes promises a job, call by call: no
    method but the three that end a job takes one away, none but the claim,
    the recovery and the ends touches a job that is claimed, and a claim takes
    pending jobs only. Unlike [LawfulStore] the promise has no condition on
    the values passed, and it is about what a call has done if it
    returned, whatever it returned: a call whose reply is lost keeps it too
    ([LostReplies]). It is what [Cluster] is proved against. *)

From S2P Require Import Prelude ListLib Types StoreApi.
Local Open Scope Z_scope.

Section relations.
Implicit Types (m : gmap string Job.t).

(** Nothing but the job [id] changes. *)
Definition others (id : string) m m' : Prop := ∀ k, k ≠ id → m' !! k = m !! k.

(** Every job is still there. *)
Definition stays m m' : Prop := ∀ k, is_Some (m !! k) → is_Some (m' !! k).

(** A job that is not pending is as it was. *)
Definition settled m m' : Prop :=
  ∀ k v, m !! k = Some v → Job.State v ≠ StatePending → m' !! k = Some v.

#[export] Instance stays_preorder : PreOrder stays.
Proof. split; [by intros m k|]. intros m1 m2 m3 H1 H2 k Hk. auto. Qed.

#[export] Instance settled_preorder : PreOrder settled.
Proof. split; [by intros m k v|]. intros m1 m2 m3 H1 H2 k v Hv Hs. auto. Qed.

Lemma others_stays id m m' : others id m m' → (is_Some (m !! id) → is_Some (m' !! id)) → stays m m'.
Proof.
  intros Ho Hid k Hk. destruct (decide (k = id)) as [->|Hne]; [auto|]. by rewrite Ho.
Qed.
End relations.

Class DurableStore (S : Type) `{!StoreOps S} : Type := {
  dur_wf : S → Prop;
  stored : S → gmap string Job.t;
  (** The lock of a job is over, as the recovery judges it. *)
  lapsed : S → Z → Job.t → bool;
  dur_ended : ∀ s e, dur_wf s → dur_wf (st_ended e s) ∧ stored (st_ended e s) = stored s ∧
    lapsed (st_ended e s) = lapsed s;
  dur_left : ∀ s s', dur_wf s' → dur_wf (st_left s s') ∧ stored (st_left s s') = stored s';
  dur_Save : ∀ s j e s', dur_wf s → st_Save j s = Some (e, s') →
    dur_wf s' ∧ others (Job.ID j) (stored s) (stored s') ∧ stays (stored s) (stored s');
  dur_ClaimDue : ∀ s q now n w u out e s', dur_wf s → makeable n →
    st_ClaimDue q now n w u s = Some ((out, e), s') →
    dur_wf s' ∧ stays (stored s) (stored s') ∧ settled (stored s) (stored s') ∧
    ∀ j, j ∈ out → ∃ v, stored s !! Job.ID j = Some v ∧ Job.State v = StatePending;
  dur_Ack : ∀ s id e s', dur_wf s → st_Ack id s = Some (e, s') →
    dur_wf s' ∧ others id (stored s) (stored s');
  dur_Fail : ∀ s id msg t e s', dur_wf s → st_Fail id msg t s = Some (e, s') →
    dur_wf s' ∧ others id (stored s) (stored s') ∧
    ∀ v, stored s !! id = Some v → stored s' !! id = None → Spec.exhausted v = true;
  dur_Cancel : ∀ s id e s', dur_wf s → st_Cancel id s = Some (e, s') →
    dur_wf s' ∧ others id (stored s) (stored s') ∧ settled (stored s) (stored s');
  dur_Reschedule : ∀ s id t e s', dur_wf s → st_Reschedule id t s = Some (e, s') →
    dur_wf s' ∧ stays (stored s) (stored s') ∧ settled (stored s) (stored s');
  dur_Heartbeat : ∀ s w now e s', dur_wf s → st_Heartbeat w now s = Some (e, s') →
    dur_wf s' ∧ stored s' = stored s;
  dur_RecoverStale : ∀ s now r s', dur_wf s → st_RecoverStale now s = Some (r, s') →
    dur_wf s' ∧ ∀ k v, stored s !! k = Some v →
      stored s' !! k = Some v ∨
      (Job.State v = StateClaimed ∧ lapsed s now v = true ∧
       stored s' !! k = Some (Spec.release_job v));
  dur_UpsertRecurring : ∀ s r e s', dur_wf s → st_UpsertRecurring r s = Some (e, s') →
    dur_wf s' ∧ stored s' = stored s;
  dur_ListRecurring : ∀ s r s', dur_wf s → st_ListRecurring s = Some (r, s') →
    dur_wf s' ∧ stored s' = stored s;
  dur_AcquireRecurringLease : ∀ s id u w r s', dur_wf s →
    st_AcquireRecurringLease id u w s = Some (r, s') → dur_wf s' ∧ stored s' = stored s;
  dur_UpdateRecurringNextRun : ∀ s id next last e s', dur_wf s →
    st_UpdateRecurringNextRun id next last s = Some (e, s') → dur_wf s' ∧ stored s' = stored s
}.

(** What is called with a context that has ended fails, and leaves the jobs as they
    were: [database/sql], [pgx] and [go-redis] look at [ctx.Err()] before they
    send anything. The goroutines call these methods. *)
Section ended.
Context {S : Type} `{!StoreOps S, !DurableStore S}.

Definition refused {A} (e : string) (m : GoM S A) (failed : A → Prop) : Prop :=
  ∀ s, ∃ r s', under (mkContext (Some e)) m s = Some (r, s') ∧ stored s' = stored s ∧ failed r.

Definition failure (r : option error) : Prop := ∃ msg, r = Some (ErrOther msg).
End ended.

Class HeedsContext (S : Type) `{!StoreOps S, !DurableStore S} : Type := {
  heeds_Save : ∀ e j, refused e (st_Save j) failure;
  heeds_ClaimDue : ∀ e q now n w u,
    refused e (st_ClaimDue q now n w u) (λ r, r.1 = [] ∧ failure r.2);
  heeds_Ack : ∀ e id, refused e (st_Ack id) failure;
  heeds_Fail : ∀ e id m t, refused e (st_Fail id m t) failure;
  heeds_Heartbeat : ∀ e w now, refused e (st_Heartbeat w now) (λ _, True);
  heeds_RecoverStale : ∀ e now, refused e (st_RecoverStale now) (λ r, r.1 = 0 ∧ failure r.2);
  heeds_ListRecurring : ∀ e, refused e st_ListRecurring (λ r, failure r.2);
  heeds_AcquireRecurringLease : ∀ e id u w,
    refused e (st_AcquireRecurringLease id u w) (λ r, r.1 = false ∧ failure r.2);
  heeds_UpdateRecurringNextRun : ∀ e id next last,
    refused e (st_UpdateRecurringNextRun id next last) failure
}.

(** *** What the operations of the abstract store do to the jobs *)

Section specs.

Lemma spec_settled (id : string) (sp : Spec.t) (r : option error * Spec.t) :
  (match Spec.jobs sp !! id with
   | Some j => Job.State j = StatePending ∨ r.2 = sp
   | None => r.2 = sp
   end) → others id (Spec.jobs sp) (Spec.jobs r.2) → settled (Spec.jobs sp) (Spec.jobs r.2).
Proof.
  intros Hr Ho k v Hv Hs. destruct (decide (k = id)) as [->|Hne]; [|by rewrite Ho].
  rewrite Hv in Hr. by destruct Hr as [?| ->].
Qed.

Lemma spec_cancel_others id sp : others id (Spec.jobs sp) (Spec.jobs (Spec.cancel id sp).2).
Proof.
  intros k Hk. unfold Spec.cancel, Spec.refuse, Spec.done_with. repeat case_match; try done. simpl.
  by rewrite lookup_delete_ne.
Qed.

Lemma spec_cancel_settled id sp : settled (Spec.jobs sp) (Spec.jobs (Spec.cancel id sp).2).
Proof.
  apply (spec_settled id); [|apply spec_cancel_others]. unfold Spec.cancel, Spec.refuse.
  destruct (Spec.jobs sp !! id) as [v|]; [|done].
  destruct (Z.eqb_spec (Job.State v) StatePending); [by left|by right].
Qed.

Lemma spec_reschedule_others id t sp :
  others id (Spec.jobs sp) (Spec.jobs (Spec.reschedule id t sp).2).
Proof.
  intros k Hk. unfold Spec.reschedule, Spec.refuse, Spec.done_with. repeat case_match; try done. simpl.
  by rewrite lookup_insert_ne.
Qed.

Lemma spec_reschedule_settled id t sp :
  stays (Spec.jobs sp) (Spec.jobs (Spec.reschedule id t sp).2) ∧
  settled (Spec.jobs sp) (Spec.jobs (Spec.reschedule id t sp).2).
Proof.
  split.
  - apply (others_stays id); [apply spec_reschedule_others|].
    unfold Spec.reschedule, Spec.refuse, Spec.done_with.
    destruct (Spec.jobs sp !! id) as [v|] eqn:Hv; [|by intros []].
    destruct (Job.State v =? StatePending); simpl; [|by rewrite Hv].
    intros _. rewrite lookup_insert_eq. by eexists.
  - apply (spec_settled id); [|apply spec_reschedule_others]. unfold Spec.reschedule, Spec.refuse.
    destruct (Spec.jobs sp !! id) as [v|]; [|done].
    destruct (Z.eqb_spec (Job.State v) StatePending); [by left|by right].
Qed.

Lemma spec_ack_others id sp : others id (Spec.jobs sp) (Spec.jobs (Spec.ack id sp).2).
Proof.
  intros k Hk. unfold Spec.ack, Spec.refuse, Spec.done_with. repeat case_match; try done. simpl.
  by rewrite lookup_delete_ne.
Qed.

Lemma spec_fail_others id msg t sp :
  others id (Spec.jobs sp) (Spec.jobs (Spec.fail id msg t sp).2) ∧
  ∀ v, Spec.jobs sp !! id = Some v → Spec.jobs (Spec.fail id msg t sp).2 !! id = None →
    Spec.exhausted v = true.
Proof.
  unfold Spec.fail, Spec.refuse, Spec.done_with. split.
  - intros k Hk. repeat case_match; try done; simpl; [by rewrite lookup_delete_ne|by rewrite lookup_insert_ne].
  - intros v Hv. rewrite Hv. destruct (Job.State v =? StateClaimed); simpl; [|congruence].
    destruct (Spec.exhausted v); [done|]. simpl. by rewrite lookup_insert_eq.
Qed.

(** Claiming pending jobs of the store leaves the jobs that are there, and what
    is not pending, alone. *)
Lemma claim_all_settled m js w u :
  NoDup (Spec.ids js) →
  (∀ j, j ∈ js → m !! Job.ID j = Some j ∧ Job.State j = StatePending) →
  stays m (Spec.claim_all w u js m) ∧ settled m (Spec.claim_all w u js m).
Proof.
  intros Hnd Hel. unfold Spec.claim_all.
  assert (Hl : ∀ k, Spec.update_all (Spec.claim_job w u) js m !! k =
    if decide (k ∈ Spec.ids js) then Spec.claim_job w u <$> m !! k else m !! k).
  { intros k. apply update_all_lookup; [done|]. apply Forall_forall. intros j Hj. by apply Hel. }
  split.
  - intros k [v Hv]. rewrite Hl, Hv. case_decide; by eexists.
  - intros k v Hv Hs. rewrite Hl. case_decide as Hin; [|done]. exfalso. apply Hs.
    apply list_elem_of_fmap in Hin as (j & -> & Hj). destruct (Hel j Hj) as [Hm He]. congruence.
Qed.

Lemma spec_claim_settled q now n m js w u :
  Spec.claim_ok q now n m js →
  stays m (Spec.claim_all w u js m) ∧ settled m (Spec.claim_all w u js m).
Proof.
  intros [Hnd Hel _ _ _]. rewrite Forall_forall in Hel. apply claim_all_settled; [done|].
  intros j Hj. destruct (Hel j Hj) as [Hm He]. split; [done|]. unfold Spec.eligible, Spec.pending_in in He.
  rewrite !andb_true_iff, Z.eqb_eq in He. tauto.
Qed.

Lemma spec_claimed_pending q now n m js out w u (j : Job.t) :
  Spec.claim_ok q now n m js → Spec.job_view <$> out = Spec.claim_job w u <$> js → j ∈ out →
  ∃ v, m !! Job.ID j = Some v ∧ Job.State v = StatePending.
Proof.
  intros [_ Hel _ _ _] Hout Hj. rewrite Forall_forall in Hel.
  apply (list_elem_of_fmap_2 Spec.job_view) in Hj. rewrite Hout in Hj.
  apply list_elem_of_fmap in Hj as (v & Hv & Hj). destruct (Hel v Hj) as [Hm He]. exists v.
  assert (Job.ID j = Job.ID v) as -> by exact (f_equal Job.ID Hv). split; [done|].
  unfold Spec.eligible, Spec.pending_in in He. rewrite !andb_true_iff, Z.eqb_eq in He. tauto.
Qed.
End specs.

(** *** A store inside the process keeps the promise: it never recovers a job *)

#[export] Instance local_durable {S : Type} `{!StoreOps S, !LawfulStore S, !LocalStore S} :
  DurableStore S.
Proof.
  refine {| dur_wf := wf; stored s := Spec.jobs (abs s); lapsed _ _ _ := false |}.
  - intros s e Hwf. rewrite local_ended. done.
  - intros s s' Hwf. rewrite local_left. done.
  - intros s j e s' Hwf Hr. destruct (local_Save s j Hwf) as (s1 & Hr1 & Hwf1 & Ha). simplify_eq. rewrite Ha.
    split; [done|]. assert (Ho : others (Job.ID j) (Spec.jobs (abs s)) (Spec.jobs (Spec.save j (abs s)).2)).
    { intros k Hk. simpl. by rewrite lookup_insert_ne. }
    split; [done|]. apply (others_stays (Job.ID j)); [done|]. intros _. simpl. rewrite lookup_insert_eq. by eexists.
  - intros s q now n w u out e s' Hwf Hn Hr.
    destruct (law_ClaimDue s q now n w u Hwf Hn (local_ok_time _) (local_ok_time _))
      as (out' & e' & s1 & Hr1 & Hwf1 & Hres). simplify_eq. split; [done|].
    destruct Hres as [(msg & -> & _ & ->)|(js & _ & Hok & Hout & ->)].
    + split; [done|]. split; [done|]. by intros j ?%elem_of_nil.
    + destruct (spec_claim_settled q now n _ js w u Hok) as [H1 H2]. split; [done|]. split; [done|].
      intros j Hj. by eapply spec_claimed_pending.
  - intros s id e s' Hwf Hr. destruct (local_Ack s id Hwf) as (s1 & Hr1 & Hwf1 & Ha). simplify_eq. rewrite Ha.
    split; [done|]. apply spec_ack_others.
  - intros s id msg t e s' Hwf Hr. destruct (local_Fail s id msg t Hwf) as (s1 & Hr1 & Hwf1 & Ha).
    simplify_eq. rewrite Ha. split; [done|]. apply spec_fail_others.
  - intros s id e s' Hwf Hr. destruct (local_Cancel s id Hwf) as (s1 & Hr1 & Hwf1 & Ha). simplify_eq. rewrite Ha.
    split; [done|]. split; [apply spec_cancel_others|apply spec_cancel_settled].
  - intros s id t e s' Hwf Hr. destruct (law_Reschedule s id t Hwf (local_ok_time _))
      as (e' & s1 & Hr1 & Hwf1 & Hres). simplify_eq. split; [done|].
    destruct Hres as [(msg & _ & ->)|Hres]; [done|].
    replace (abs s') with (Spec.reschedule id t (abs s)).2 by (by rewrite <- Hres).
    apply spec_reschedule_settled.
  - intros s w now e s' Hwf Hr. destruct (law_Heartbeat s w now Hwf) as (e' & s1 & Hr1 & Hwf1 & Ha).
    simplify_eq. by rewrite Ha.
  - intros s now r s' Hwf Hr. destruct (local_RecoverStale s now Hwf) as (s1 & Hr1 & Hwf1 & Ha).
    simplify_eq. rewrite Ha. split; [done|]. by left.
  - intros s r e s' Hwf Hr. destruct (local_UpsertRecurring s r Hwf) as (s1 & Hr1 & Hwf1 & Ha).
    simplify_eq. by rewrite Ha.
  - intros s r s' Hwf Hr. destruct (local_ListRecurring s Hwf) as (out & s1 & Hr1 & Hwf1 & Ha & _).
    simplify_eq. by rewrite Ha.
  - intros s id u w r s' Hwf Hr.
    destruct (local_AcquireRecurringLease s id u w Hwf) as (s1 & Hr1 & Hwf1 & Ha). simplify_eq. by rewrite Ha.
  - intros s id next last e s' Hwf Hr.
    destruct (local_UpdateRecurringNextRun s id next last Hwf) as (e' & s1 & Hr1 & Hwf1 & Ha).
    simplify_eq. by rewrite Ha.
Defined.
