(* ===== verification/MemStore.v ===== *)
(** The in-memory store ([src/memstore/memstore.go]).

    [byID] and the queue heaps hold pointers to the same [entry] objects, and
    the code relies on that sharing: a claim writes the job's state through the
    heap's pointer, [Swap] keeps each entry's [index] current so that [Cancel]
    can find it later. The model keeps the objects in a memory [mem] and the
    pointers as locations. Every method holds the mutex from start to end, so
    each is one atomic step. *)

From S2P Require Import Prelude ListLib Types ContainerHeap StoreApi.
Local Open Scope Z_scope.
Local Open Scope go_scope.

(** ** State *)

Record entry : Type := mkEntry { job : Job.t; index : Z }.

Definition set_job (j : Job.t) (e : entry) : entry := mkEntry j (index e).
Definition set_index (i : Z) (e : entry) : entry := mkEntry (job e) i.

Record Store : Type := mkStore {
  byID : gmap string nat;
  queues : gmap string (list nat);
  recurring : gmap string RecurringSpec.t;
  mem : gmap nat entry;
  next_loc : nat
}.

Definition with_byID (m : gmap string nat) (s : Store) : Store :=
  mkStore m (queues s) (recurring s) (mem s) (next_loc s).
Definition with_recurring (m : gmap string RecurringSpec.t) (s : Store) : Store :=
  mkStore (byID s) (queues s) m (mem s) (next_loc s).
Definition with_mem (m : gmap nat entry) (s : Store) : Store :=
  mkStore (byID s) (queues s) (recurring s) m (next_loc s).

Definition New : Store := mkStore ∅ ∅ ∅ ∅ 0.

(** [&entry{...}]. *)
Definition alloc (e : entry) : GoM Store nat :=
  λ s, Some (next_loc s, mkStore (byID s) (queues s) (recurring s)
                                 (<[next_loc s := e]> (mem s)) (S (next_loc s))).

(** Reading and writing through a pointer; a dangling one would panic. *)
Definition load (l : nat) : GoM Store entry := λ s, glift (mem s !! l) s.
Definition store_job (l : nat) (f : Job.t → Job.t) : GoM Store unit :=
  let! e := load l in gmodify (λ s, with_mem (<[l := set_job (f (job e)) e]> (mem s)) s).

(** ** The queue heap: [heap.Interface] over pointers *)

(** The object memory and the [items] of one [queueHeap]. *)
Abbreviation queueHeap := (gmap nat entry * list nat)%type (only parsing).

Definition Len (q : queueHeap) : nat := length q.2.

Definition Less (q : queueHeap) (i j : nat) : option bool :=
  match q.2 !! i, q.2 !! j with
  | Some a, Some b =>
      match q.1 !! a, q.1 !! b with
      | Some ea, Some eb => Some (jobLess (job ea) (job eb))
      | _, _ => None
      end
  | _, _ => None
  end.

(** [items[k].index = k], for the [k] given. *)
Definition reindex (k : nat) (q : queueHeap) : option queueHeap :=
  match q.2 !! k with
  | Some l => match q.1 !! l with
              | Some e => Some (<[l := set_index (Z.of_nat k) e]> q.1, q.2)
              | None => None
              end
  | None => None
  end.

Definition Swap (q : queueHeap) (i j : nat) : option queueHeap :=
  match swap_at q.2 i j with
  | Some items' => match reindex i (q.1, items') with Some q' => reindex j q' | None => None end
  | None => None
  end.

Definition Push_entry (q : queueHeap) (l : nat) : option queueHeap :=
  match q.1 !! l with
  | Some e => Some (<[l := set_index (Z.of_nat (length q.2)) e]> q.1, q.2 ++ [l])
  | None => None
  end.

Definition Pop_entry (q : queueHeap) : option (nat * queueHeap) :=
  let n := length q.2 in
  match last q.2 with
  | Some l => match q.1 !! l with
              | Some e => Some (l, (<[l := set_index (-1) e]> q.1, take (n - 1) q.2))
              | None => None
              end
  | None => None
  end.

#[export] Instance queueHeap_iface : HeapIface queueHeap nat := {
  hLen := Len; hLess := Less; hSwap := Swap; hPush := Push_entry; hPop := Pop_entry
}.

(** [s.heap(queue)], created empty when absent; [on_heap] runs a heap routine
    on it and writes memory and items back. *)
Definition heap_of (queue : string) (s : Store) : list nat := default [] (queues s !! queue).

Definition on_heap {A} (queue : string) (f : queueHeap → option (A * queueHeap)) : GoM Store A :=
  λ s, match f (mem s, heap_of queue s) with
       | Some (a, (m', items')) =>
           Some (a, mkStore (byID s) (<[queue := items']> (queues s)) (recurring s) m' (next_loc s))
       | None => None
       end.

Definition lift_heap (f : queueHeap → option queueHeap) (q : queueHeap)
    : option (unit * queueHeap) :=
  match f q with Some q' => Some (tt, q') | None => None end.

Definition heap_Push (queue : string) (l : nat) : GoM Store unit :=
  on_heap queue (lift_heap (λ q, Push q l)).
Definition heap_Pop (queue : string) : GoM Store nat := on_heap queue Pop.
Definition heap_Remove (queue : string) (i : Z) : GoM Store nat :=
  on_heap queue (λ q, Remove q (Z.to_nat i)).
Definition heap_Fix (queue : string) (i : Z) : GoM Store unit :=
  on_heap queue (lift_heap (λ q, Fix q (Z.to_nat i))).

(** ** Methods *)

Definition Save (j : Job.t) : GoM Store (option error) :=
  let j := if Job.State j =? 0 then Job.set_State StatePending j else j in
  let! e := alloc (mkEntry j (-1)) in
  let! s := gget in
  do! (match byID s !! Job.ID j with
       | Some existing =>
           let! old := load existing in
           if 0 <=? index old
           then do! heap_Remove (Job.Queue (job old)) (index old) in gret tt
           else gret tt
       | None => gret tt
       end) in
  do! gmodify (λ s, with_byID (<[Job.ID j := e]> (byID s)) s) in
  do! (if Job.State j =? StatePending then heap_Push (Job.Queue j) e else gret tt) in
  gret None.

(** What a claim writes into the job. *)
Definition claimed (now : Z) (workerID : string) (lockUntil : Z) (j : Job.t) : Job.t :=
  Job.set_UpdatedAt now (Job.set_LockedUntil lockUntil (Job.set_LockedBy workerID
    (Job.set_State StateClaimed j))).

(** The claiming loop, at most [fuel] more jobs. Each turn takes a job off the
    heap, so the length of the heap bounds the turns. *)
Fixpoint claim_loop (fuel : nat) (queue : string) (now n : Z) (workerID : string)
    (lockUntil : Z) (out : list Job.t) : GoM Store (list Job.t) :=
  match fuel with
  | O => gret out
  | S fuel =>
      let! s := gget in
      match heap_of queue s with
      | [] => gret out
      | top :: _ =>
          if Z.of_nat (length out) <? n then
            let! e := load top in
            if Time.After (Job.RunAt (job e)) now then gret out
            else
              do! heap_Pop queue in
              do! store_job top (claimed now workerID lockUntil) in
              let! e' := load top in
              claim_loop fuel queue now n workerID lockUntil (out ++ [job e'])
          else gret out
      end
  end.

(** [make([]gs.Job, 0, n)] panics for a negative capacity. *)
Definition ClaimDue (queue : string) (now n : Z) (workerID : string) (lockUntil : Z)
    : GoM Store (list Job.t * option error) :=
  let! s := gget in
  match queues s !! queue with
  | None => gret ([], None)
  | Some items =>
      if negb (bool_decide (makeable n)) then glift None
      else
        let! out := claim_loop (length items) queue now n workerID lockUntil [] in
        gret (stable_sort jobLess out, None)
  end.

Definition Ack (id : string) : GoM Store (option error) :=
  let! s := gget in
  match byID s !! id with
  | None => gret (Some ErrJobNotFound)
  | Some l =>
      let! e := load l in
      if negb (Job.State (job e) =? StateClaimed) then gret (Some ErrJobNotFound)
      else
        do! store_job l (Job.set_State StateSucceeded) in
        do! gmodify (λ s, with_byID (delete id (byID s)) s) in
        gret None
  end.

Definition Fail (id errMsg : string) (nextAttemptAt : Z) : GoM Store (option error) :=
  let! s := gget in
  match byID s !! id with
  | None => gret (Some ErrJobNotFound)
  | Some l =>
      let! e := load l in
      if negb (Job.State (job e) =? StateClaimed) then gret (Some ErrJobNotFound)
      else
        do! store_job l (λ j, Job.set_LastError errMsg (Job.set_Attempt (wrap64 (Job.Attempt j + 1)) j)) in
        let! e := load l in
        if (0 <? Job.MaxAttempts (job e)) && (Job.MaxAttempts (job e) <=? Job.Attempt (job e)) then
          do! store_job l (Job.set_State StateFailed) in
          do! gmodify (λ s, with_byID (delete id (byID s)) s) in
          gret None
        else
          do! store_job l (λ j, Job.set_LockedUntil Time.zero (Job.set_LockedBy ""
                 (Job.set_RunAt nextAttemptAt (Job.set_State StatePending j)))) in
          do! heap_Push (Job.Queue (job e)) l in
          gret None
  end.

Definition Cancel (id : string) : GoM Store (option error) :=
  let! s := gget in
  match byID s !! id with
  | None => gret (Some ErrJobNotFound)
  | Some l =>
      let! e := load l in
      if negb (Job.State (job e) =? StatePending) then gret (Some ErrJobNotPending)
      else
        do! (if 0 <=? index e
             then do! heap_Remove (Job.Queue (job e)) (index e) in gret tt
             else gret tt) in
        do! gmodify (λ s, with_byID (delete id (byID s)) s) in
        gret None
  end.

Definition Reschedule (id : string) (newTime : Z) : GoM Store (option error) :=
  let! s := gget in
  match byID s !! id with
  | None => gret (Some ErrJobNotFound)
  | Some l =>
      let! e := load l in
      if negb (Job.State (job e) =? StatePending) then gret (Some ErrJobNotPending)
      else
        do! store_job l (Job.set_RunAt newTime) in
        do! (if 0 <=? index e then heap_Fix (Job.Queue (job e)) (index e) else gret tt) in
        gret None
  end.

Definition UpsertRecurring (spec : RecurringSpec.t) : GoM Store (option error) :=
  do! gmodify (λ s, with_recurring (<[RecurringSpec.ID spec := spec]> (recurring s)) s) in
  gret None.

(** A Go map is ranged over in an unspecified order: here, that of
    [map_to_list]; the theorems speak of the list up to permutation. *)
Definition ListRecurring : GoM Store (list RecurringSpec.t * option error) :=
  let! s := gget in gret ((map_to_list (recurring s)).*2, None).

Definition DeleteRecurring (id : string) : GoM Store (option error) :=
  do! gmodify (λ s, with_recurring (delete id (recurring s)) s) in gret None.

Definition AcquireRecurringLease (_ : string) (_ : Z) (_ : string)
    : GoM Store (bool * option error) := gret (true, None).

Definition UpdateRecurringNextRun (id : string) (nextRunAt lastFireAt : Z)
    : GoM Store (option error) :=
  let! s := gget in
  match recurring s !! id with
  | Some r =>
      let r := RecurringSpec.set_LastFireAt lastFireAt (RecurringSpec.set_NextRunAt nextRunAt r) in
      do! gmodify (λ s, with_recurring (<[id := r]> (recurring s)) s) in
      gret None
  | None => gret None
  end.

Definition Heartbeat (_ : string) (_ : Z) : GoM Store (option error) := gret None.

Definition RecoverStale (_ : Z) : GoM Store (Z * option error) := gret (0, None).

Definition QueueSize (queue : string) : GoM Store (Z * option error) :=
  let! s := gget in
  match queues s !! queue with
  | None => gret (0, None)
  | Some items => gret (Z.of_nat (length items), None)
  end.

#[export] Instance memstore_ops : StoreOps Store := {
  st_ended _ s := s; st_left _ s := s;
  st_Save := Save; st_ClaimDue := ClaimDue; st_Ack := Ack; st_Fail := Fail;
  st_Cancel := Cancel; st_Reschedule := Reschedule; st_Heartbeat := Heartbeat;
  st_RecoverStale := RecoverStale; st_UpsertRecurring := UpsertRecurring;
  st_ListRecurring := ListRecurring; st_DeleteRecurring := DeleteRecurring;
  st_AcquireRecurringLease := AcquireRecurringLease;
  st_UpdateRecurringNextRun := UpdateRecurringNextRun; st_QueueSize := QueueSize
}.
