(* ===== verification/MemStoreFacts.v ===== *)
(** Invariant and correctness of the in-memory store ([MemStore]): the queue
    heap satisfies the laws of [container/heap]; every method keeps the
    well-formedness of the shared object graph and never panics; the store
    implements the contract of [StoreApi]. *)

From S2P Require Import Prelude ListLib Types ContainerHeap StoreApi MemStore.
Local Open Scope Z_scope.
Local Open Scope go_scope.

(** ** The queue heap obeys [heap.Interface] *)

Definition job_at (m : gmap nat entry) (l : nat) : Job.t := from_option job Job.zero (m !! l).

Definition entry_less (m : gmap nat entry) (a b : nat) : bool := jobLess (job_at m a) (job_at m b).

(** Each item knows its position. *)
Definition indexed (m : gmap nat entry) (items : list nat) : Prop :=
  ∀ i l, items !! i = Some l → ∃ e, m !! l = Some e ∧ index e = Z.of_nat i.

(** [m] differs from [m0] in the indices of [items] only. *)
Definition same_jobs (m0 m : gmap nat entry) : Prop := ∀ l, job <$> m !! l = job <$> m0 !! l.

Definition queue_inv (m0 : gmap nat entry) (q : queueHeap) : Prop :=
  same_jobs m0 q.1 ∧ indexed q.1 q.2 ∧ ∀ l, l ∉ q.2 → q.1 !! l = m0 !! l.

Lemma indexed_nodup m items : indexed m items → NoDup items.
Proof.
  intros Hi. apply NoDup_alt. intros i j l H1 H2.
  destruct (Hi i l H1) as (e & He & Hei), (Hi j l H2) as (e' & He' & Hej).
  simplify_eq. lia.
Qed.

Lemma same_jobs_refl m : same_jobs m m.
Proof. done. Qed.

Lemma same_jobs_trans m0 m1 m2 : same_jobs m0 m1 → same_jobs m1 m2 → same_jobs m0 m2.
Proof. intros H1 H2 l. by rewrite H2, H1. Qed.

Lemma same_jobs_index m l e i : m !! l = Some e → same_jobs m (<[l := set_index i e]> m).
Proof.
  intros He l'. destruct (decide (l' = l)) as [->|].
  - by rewrite lookup_insert_eq, He.
  - by rewrite lookup_insert_ne.
Qed.

Lemma same_jobs_at m0 m l : same_jobs m0 m → job_at m l = job_at m0 l.
Proof.
  intros H. specialize (H l). unfold job_at.
  destruct (m !! l), (m0 !! l); simpl in *; congruence.
Qed.

Lemma same_jobs_Some m0 m l e :
  same_jobs m0 m → m !! l = Some e → ∃ e0, m0 !! l = Some e0 ∧ job e0 = job e.
Proof.
  intros H He. specialize (H l). rewrite He in H. destruct (m0 !! l) as [e0|]; [|done].
  exists e0. simpl in H. by simplify_eq.
Qed.

Lemma job_at_Some m l e : m !! l = Some e → job_at m l = job e.
Proof. unfold job_at. by intros ->. Qed.

(** Writing the position of one item, when the others are right. *)
Lemma reindex_spec m items k l :
  items !! k = Some l → is_Some (m !! l) →
  ∃ e, m !! l = Some e ∧ reindex k (m, items) = Some (<[l := set_index (Z.of_nat k) e]> m, items).
Proof. intros Hk [e He]. exists e. unfold reindex. simpl. by rewrite Hk, He. Qed.

Lemma Swap_spec m0 q i j items' :
  queue_inv m0 q → swap_at q.2 i j = Some items' →
  ∃ q', Swap q i j = Some q' ∧ queue_inv m0 q' ∧ q'.2 = items'.
Proof.
  destruct q as [m items]. intros (Hj & Hix & Hout) Hs. simpl in *.
  pose proof (indexed_nodup _ _ Hix) as Hnd.
  assert (Hlk := swap_at_lookup items items' i j). specialize (λ k, Hlk k Hs).
  assert (is_Some (items !! i)) as [a Ha] by (unfold swap_at in Hs; destruct (items !! i); eauto; done).
  assert (is_Some (items !! j)) as [b Hb]
    by (unfold swap_at in Hs; rewrite Ha in Hs; destruct (items !! j); eauto; done).
  destruct (Hix i a Ha) as (ea & Hea & _), (Hix j b Hb) as (eb & Heb & _).
  assert (Hi' : items' !! i = Some b) by (by rewrite Hlk, decide_True).
  assert (Hj' : items' !! j = Some a) by (rewrite Hlk; case_decide; [congruence|by rewrite decide_True]).
  unfold Swap. simpl. rewrite Hs.
  destruct (reindex_spec m items' i b Hi' ltac:(eauto)) as (eb' & Heb' & ->). simplify_eq.
  destruct (reindex_spec (<[b:=set_index (Z.of_nat i) eb]> m) items' j a Hj') as (ea' & Hea' & ->).
  { rewrite lookup_insert. case_decide; eauto. }
  eexists. split; [done|]. simpl.
  assert (Hsame : same_jobs m (<[a:=set_index (Z.of_nat j) ea']> (<[b:=set_index (Z.of_nat i) eb]> m))).
  { eapply same_jobs_trans; [by eapply (same_jobs_index m b eb (Z.of_nat i)) | by apply same_jobs_index]. }
  split; [split; [|split]|done].
  - by eapply same_jobs_trans.
  - intros k l Hk. simpl in *. destruct (decide (l = a)) as [->|Hla].
    { rewrite lookup_insert_eq. eexists. split; [done|]. simpl.
      assert (k = j) as ->; [|done].
      rewrite Hlk in Hk. repeat case_decide; subst; try done; simplify_eq.
      - by eapply NoDup_lookup.
      - exfalso. eauto using NoDup_lookup. }
    rewrite lookup_insert_ne by done. destruct (decide (l = b)) as [->|Hlb].
    { rewrite lookup_insert_eq. eexists. split; [done|]. simpl.
      assert (k = i) as ->; [|done].
      rewrite Hlk in Hk. repeat case_decide; subst; try done; simplify_eq.
      exfalso. eauto using NoDup_lookup. }
    rewrite lookup_insert_ne by done. rewrite Hlk in Hk. repeat case_decide; simplify_eq.
    by apply Hix.
  - intros l Hl. simpl in *. rewrite (swap_at_perm _ _ _ _ Hs) in Hl.
    rewrite !lookup_insert_ne; [by apply Hout|..]; intros ->; apply Hl;
      eauto using list_elem_of_lookup_2.
Qed.

#[export] Instance queueHeap_laws m0 : HeapLaws (entry_less m0) snd (queue_inv m0).
Proof.
  split.
  - apply (strict_weak_preimage jobLess (job_at m0)), _.
  - by intros [m items] _.
  - intros [m items] i j a b (Hj & Hix & _) Ha Hb. simpl in *.
    destruct (Hix i a Ha) as (ea & Hea & _), (Hix j b Hb) as (eb & Heb & _).
    unfold hLess, queueHeap_iface, Less, entry_less. simpl. rewrite Ha, Hb, Hea, Heb.
    by rewrite <- !(same_jobs_at m0 m) by done; rewrite (job_at_Some m a ea), (job_at_Some m b eb).
  - intros q i j l' Hinv Hs. by apply Swap_spec.
Qed.

(** ** One heap call, as its caller sees it

    [heap_ok m items]: positions right and heap order, the state a queue is in
    between two method calls. *)
Definition heap_ok (m : gmap nat entry) (items : list nat) : Prop :=
  indexed m items ∧ heap_ordered (entry_less m) items.

Lemma entry_less_same m0 m a b : same_jobs m0 m → entry_less m a b = entry_less m0 a b.
Proof. intros H. unfold entry_less. by rewrite !(same_jobs_at m0 m). Qed.

Lemma heap_upto_ext m m' items n :
  (∀ l, l ∈ items → job_at m' l = job_at m l) →
  heap_upto (entry_less m) items n → heap_upto (entry_less m') items n.
Proof.
  intros Heq Hh k Hk a b Ha Hb. unfold le_of, entry_less.
  rewrite !Heq by eauto using list_elem_of_lookup_2. by eapply (Hh k).
Qed.

Lemma heap_upto_same m m' items n :
  same_jobs m m' → heap_upto (entry_less m) items n → heap_upto (entry_less m') items n.
Proof. intros Hs. apply heap_upto_ext. intros l _. by apply same_jobs_at. Qed.

Lemma queue_inv_refl m items : indexed m items → queue_inv m (m, items).
Proof. by repeat split. Qed.

Lemma Push_ok m items l e :
  heap_ok m items → m !! l = Some e → l ∉ items →
  ∃ m' items', Push (m, items) l = Some (m', items') ∧ items' ≡ₚ l :: items ∧
    heap_ok m' items' ∧ same_jobs m m' ∧ ∀ l', l' ∉ items' → m' !! l' = m !! l'.
Proof.
  intros [Hix Hh] He Hl.
  set (m1 := <[l := set_index (Z.of_nat (length items)) e]> m).
  assert (Hs1 : same_jobs m m1) by by apply same_jobs_index.
  assert (Hinv : queue_inv m1 (m1, items ++ [l])).
  { apply queue_inv_refl. intros i x Hx. apply lookup_app_Some in Hx as [Hx|[Hge Hx]].
    - unfold m1. rewrite lookup_insert_ne by (intros ->; eauto using list_elem_of_lookup_2). by apply Hix.
    - apply list_lookup_singleton_Some in Hx as [Hi <-]. unfold m1. rewrite lookup_insert_eq.
      eexists. split; [done|]. simpl. lia. }
  edestruct (Push_spec (entry_less m1) snd (queue_inv m1) (m, items) (m1, items ++ [l]) l)
    as ([m' items'] & HP & ((Hj & Hi' & Ho) & Hp & _) & Hh').
  - unfold hPush, queueHeap_iface, Push_entry. simpl. by rewrite He.
  - done.
  - done.
  - by eapply heap_upto_same.
  - simpl in *. exists m', items'. split; [done|].
    assert (Hp' : items' ≡ₚ l :: items) by (rewrite Hp; by rewrite <- Permutation_cons_append).
    split; [done|]. split; [split|split].
    + done.
    + by eapply heap_upto_same.
    + by eapply same_jobs_trans.
    + intros l' Hl'. rewrite Ho by done. unfold m1. rewrite lookup_insert_ne; [done|].
      intros ->. apply Hl'. rewrite Hp'. by left.
Qed.

Lemma Fix_ok m m1 items i l e e1 :
  heap_ok m items → items !! i = Some l → m !! l = Some e →
  m1 = <[l := e1]> m → index e1 = index e →
  ∃ m' items', Fix (m1, items) i = Some (m', items') ∧ items' ≡ₚ items ∧
    heap_ok m' items' ∧ same_jobs m1 m' ∧ ∀ l', l' ∉ items → m' !! l' = m1 !! l'.
Proof.
  intros [Hix Hh] Hi He -> Hie. set (m1 := <[l := e1]> m).
  pose proof (indexed_nodup _ _ Hix) as Hnd.
  assert (Hinv : queue_inv m1 (m1, items)).
  { apply queue_inv_refl. intros k x Hx. destruct (Hix k x Hx) as (ex & Hex & Hk).
    unfold m1. destruct (decide (x = l)) as [->|]; [|rewrite lookup_insert_ne; eauto].
    rewrite lookup_insert_eq. eexists. split; [done|]. simplify_eq. lia. }
  (* the order of the other items is unchanged: compare keys by position *)
  assert (Hbut : heap_but (entry_less m1) items (length items) i).
  { assert (Hkeep : ∀ k x, k ≠ i → items !! k = Some x → job_at m1 x = job_at m x).
    { intros k x Hk Hx. unfold job_at, m1. rewrite lookup_insert_ne; [done|].
      intros ->. apply Hk. by eapply NoDup_lookup. }
    split.
    - intros k Hk Hki Hpi a b Ha Hb. unfold le_of, entry_less.
      rewrite (Hkeep k b), (Hkeep (parent k) a) by done. by eapply Hh.
    - intros k Hk Hi0 Hpk a b Ha Hb. pose proof (parent_lt k ltac:(lia)). pose proof (parent_lt i Hi0).
      unfold le_of, entry_less. rewrite (Hkeep k b), (Hkeep (parent i) a) by (done || lia).
      eapply (sw_ntrans (lt := jobLess) _ (job_at m l)).
      + eapply (Hh i); [|done..]. apply lookup_lt_Some in Hi. lia.
      + eapply (Hh k); [lia| |done]. by rewrite Hpk. }
  apply lookup_lt_Some in Hi as Hlt.
  destruct (down_or_up_spec (entry_less m1) snd (queue_inv m1) (m1, items) i (length items))
    as ([m' items'] & HF & Hr & Hh').
  - done.
  - exact Hbut.
  - simpl. lia.
  - destruct Hr as ((Hj & Hi' & Ho) & Hp & _). simpl in *. exists m', items'.
    split; [done|]. split; [done|]. split; [split|split].
    + done.
    + unfold heap_ordered. rewrite (Permutation_length Hp). by eapply heap_upto_same.
    + done.
    + intros l' Hl'. apply Ho. by rewrite Hp.
Qed.

(** Taking an element out: [Remove] at its position, [Pop] at the root. *)
Lemma take_out_ok m items m1 items1 l n :
  heap_ok m items → n = (length items - 1)%nat →
  queue_inv m (m1, items1) → items1 ≡ₚ items → items1 !! n = Some l →
  heap_upto (entry_less m) items1 n →
  ∃ m' items' e, Pop_entry (m1, items1) = Some (l, (m', items')) ∧ items ≡ₚ l :: items' ∧
    heap_ok m' items' ∧ same_jobs m m' ∧ m' !! l = Some e ∧ index e = -1 ∧
    ∀ l', l' ∉ items → m' !! l' = m !! l'.
Proof.
  intros _ -> (Hj & Hix & Ho) Hp Hn Hh. simpl in *.
  pose proof (Permutation_length Hp) as Hlen. rewrite <- Hlen in *.
  destruct (Hix _ _ Hn) as (e & He & _). pose proof (indexed_nodup _ _ Hix) as Hnd.
  set (m' := <[l := set_index (-1) e]> m1). set (items' := take (length items1 - 1) items1).
  assert (Hsplit : items1 = items' ++ [l]).
  { unfold items'. rewrite <- (take_drop (length items1 - 1) items1) at 1. f_equal.
    apply lookup_lt_Some in Hn as Hlt. rewrite (drop_S _ l) by done.
    by rewrite drop_ge by lia. }
  assert (Hs : same_jobs m1 m') by by apply same_jobs_index.
  assert (Hl : l ∉ items').
  { rewrite Hsplit in Hnd. apply NoDup_app in Hnd as (_ & Hd & _). intros Hin. apply (Hd l Hin). by left. }
  exists m', items', (set_index (-1) e). split.
  { unfold Pop_entry. simpl. rewrite last_lookup, <- Nat.sub_1_r, Hn, He. done. }
  split; [by rewrite <- Hp, Hsplit at 1; rewrite <- Permutation_cons_append|].
  split; [split|split; [|split; [|split]]].
  - intros k x Hk. unfold m'. rewrite lookup_insert_ne by (intros ->; eauto using list_elem_of_lookup_2).
    apply Hix. rewrite Hsplit. by apply lookup_app_l_Some.
  - apply (heap_upto_same m); [by eapply same_jobs_trans|]. unfold items'. by apply heap_upto_take.
  - by eapply same_jobs_trans.
  - unfold m'. by rewrite lookup_insert_eq.
  - done.
  - intros l' Hl'. unfold m'. rewrite lookup_insert_ne; [apply Ho; by rewrite Hp|].
    intros ->. apply Hl'. rewrite <- Hp. eauto using list_elem_of_lookup_2.
Qed.

Lemma Remove_ok m items i l :
  heap_ok m items → items !! i = Some l →
  ∃ m' items' e, Remove (m, items) i = Some (l, (m', items')) ∧ items ≡ₚ l :: items' ∧
    heap_ok m' items' ∧ same_jobs m m' ∧ m' !! l = Some e ∧ index e = -1 ∧
    ∀ l', l' ∉ items → m' !! l' = m !! l'.
Proof.
  intros [Hix Hh] Hi.
  destruct (Remove_prepare_spec (entry_less m) snd (queue_inv m) (m, items) i l)
    as ([m1 items1] & HR & Hinv & Hp & Hl & Hh1); [by apply queue_inv_refl|done|done|].
  unfold Remove. rewrite HR. by eapply take_out_ok.
Qed.

Lemma Pop_ok m items l :
  heap_ok m items → items !! 0%nat = Some l →
  ∃ m' items' e, Pop (m, items) = Some (l, (m', items')) ∧ items ≡ₚ l :: items' ∧
    heap_ok m' items' ∧ same_jobs m m' ∧ m' !! l = Some e ∧ index e = -1 ∧
    ∀ l', l' ∉ items → m' !! l' = m !! l'.
Proof.
  intros [Hix Hh] Hi.
  destruct (Pop_prepare_spec (entry_less m) snd (queue_inv m) (m, items) l)
    as ([m1 items1] & HR & Hinv & Hp & Hl & Hh1); [by apply queue_inv_refl|done|done|].
  unfold Pop. rewrite HR. by eapply take_out_ok.
Qed.

(** ** The object graph

    [wf_but x s]: every job the store knows is in the heap of its queue when
    pending and in none otherwise, apart from the object [x], which a method
    in progress has taken out; [mem_wf s] holds between method calls. *)
Record wf_but (x : option nat) (s : Store) : Prop := {
  wfb_id : ∀ id l, byID s !! id = Some l → ∃ e, mem s !! l = Some e ∧ Job.ID (job e) = id;
  wfb_item : ∀ q its l, queues s !! q = Some its → l ∈ its →
    Some l ≠ x ∧ ∃ e, mem s !! l = Some e ∧ Job.Queue (job e) = q ∧
      Job.State (job e) = StatePending ∧ byID s !! Job.ID (job e) = Some l;
  wfb_queued : ∀ id l e, byID s !! id = Some l → Some l ≠ x → mem s !! l = Some e →
    Job.State (job e) = StatePending → l ∈ heap_of (Job.Queue (job e)) s;
  wfb_idle : ∀ id l e, byID s !! id = Some l → Some l ≠ x → mem s !! l = Some e →
    Job.State (job e) ≠ StatePending → index e = -1;
  wfb_heap : ∀ q its, queues s !! q = Some its → heap_ok (mem s) its;
  wfb_next : ∀ l, (next_loc s ≤ l)%nat → mem s !! l = None
}.

Definition mem_wf (s : Store) : Prop := wf_but None s.

Lemma heap_of_ok x s q : wf_but x s → heap_ok (mem s) (heap_of q s).
Proof.
  intros Hwf. unfold heap_of. destruct (queues s !! q) as [its|] eqn:E; simpl.
  - by eapply wfb_heap.
  - split; [by intros i l ?|intros k Hk a b Ha; done].
Qed.

Lemma heap_of_item x s q l :
  wf_but x s → l ∈ heap_of q s →
  Some l ≠ x ∧ ∃ e, mem s !! l = Some e ∧ Job.Queue (job e) = q ∧
    Job.State (job e) = StatePending ∧ byID s !! Job.ID (job e) = Some l.
Proof.
  intros Hwf. unfold heap_of. destruct (queues s !! q) as [its|] eqn:E; simpl.
  - by eapply wfb_item.
  - by intros ?%elem_of_nil.
Qed.

(** An item's index is its position. *)
Lemma wf_index_pos x s q l e :
  wf_but x s → l ∈ heap_of q s → mem s !! l = Some e →
  0 ≤ index e ∧ heap_of q s !! Z.to_nat (index e) = Some l.
Proof.
  intros Hwf [i Hi]%list_elem_of_lookup He.
  destruct (heap_of_ok x s q Hwf) as [Hix _]. destruct (Hix i l Hi) as (e' & He' & Hei).
  simplify_eq. rewrite Hei, Nat2Z.id. split; [lia|done].
Qed.

(** ** Writing back a queue *)
Definition put_queue (q : string) (m' : gmap nat entry) (items' : list nat) (s : Store) : Store :=
  mkStore (byID s) (<[q := items']> (queues s)) (recurring s) m' (next_loc s).

Lemma heap_of_put q q' m' items' s :
  heap_of q' (put_queue q m' items' s) = if decide (q = q') then items' else heap_of q' s.
Proof.
  unfold heap_of, put_queue. simpl. rewrite lookup_insert. by case_decide.
Qed.

(** Objects keep their jobs and, outside the queue written, their indices. *)
Lemma heap_ok_frame m m' its :
  heap_ok m its → same_jobs m m' → (∀ l, l ∈ its → m' !! l = m !! l) → heap_ok m' its.
Proof.
  intros [Hix Hh] Hs Heq. split.
  - intros i l Hi. rewrite Heq by eauto using list_elem_of_lookup_2. by apply Hix.
  - by eapply heap_upto_same.
Qed.

Section put_queue.
  Context (x x' : option nat) (s : Store) (q : string) (m' : gmap nat entry) (items' : list nat).
  Context (Hwf : wf_but x s) (Hok : heap_ok m' items') (Hs : same_jobs (mem s) m').
  Context (Hout : ∀ l, l ∉ heap_of q s → l ∉ items' → m' !! l = mem s !! l).

Lemma put_same_job l e : m' !! l = Some e → ∃ e0, mem s !! l = Some e0 ∧ job e0 = job e.
Proof. by apply same_jobs_Some. Qed.

Lemma put_same_job' l e0 : mem s !! l = Some e0 → ∃ e, m' !! l = Some e ∧ job e = job e0.
Proof.
  intros He. specialize (Hs l). rewrite He in Hs. destruct (m' !! l) as [e|]; [|done].
  exists e. simpl in Hs. by simplify_eq.
Qed.

(** Items of one queue are not in another. *)
Lemma other_queue q' its l :
  queues s !! q' = Some its → q' ≠ q → l ∈ its → l ∉ heap_of q s.
Proof.
  intros Hq Hne Hl Hl'. destruct (wfb_item _ _ Hwf q' its l Hq Hl) as (_ & e & He & Hqe & _).
  destruct (heap_of_item _ _ _ _ Hwf Hl') as (_ & e' & He' & Hqe' & _). congruence.
Qed.

(** The one lemma the heap calls below rest on. *)
Lemma put_queue_wf :
  (∀ l, l ∈ items' → Some l ≠ x' ∧ ∃ e, mem s !! l = Some e ∧ Job.Queue (job e) = q ∧
      Job.State (job e) = StatePending ∧ byID s !! Job.ID (job e) = Some l) →
  (∀ id l e, byID s !! id = Some l → Some l ≠ x' → mem s !! l = Some e →
      Job.State (job e) = StatePending → Job.Queue (job e) = q → l ∈ items') →
  (∀ l, Some l = x → Some l ≠ x' → l ∈ items') →
  (∀ q' its l, queues s !! q' = Some its → q' ≠ q → l ∈ its → Some l ≠ x') →
  wf_but x' (put_queue q m' items' s).
Proof.
  intros Hitems Hq Hx Hx'. split; simpl.
  - intros id l Hid. destruct (wfb_id _ _ Hwf id l Hid) as (e & He & <-).
    destruct (put_same_job' l e He) as (e' & He' & <-). eauto.
  - intros q' its l Hq' Hl. apply lookup_insert_Some in Hq' as [[<- <-]|[Hne Hq']].
    + destruct (Hitems l Hl) as (Hlx & e & He & H1 & H2 & H3). split; [done|].
      destruct (put_same_job' l e He) as (e' & He' & Hj). exists e'. by rewrite Hj.
    + split; [by eapply Hx'|].
      destruct (wfb_item _ _ Hwf q' its l Hq' Hl) as (_ & e & He & H1 & H2 & H3).
      destruct (put_same_job' l e He) as (e' & He' & Hj). exists e'. by rewrite Hj.
  - intros id l e' Hid Hlx He' Hp. destruct (put_same_job l e' He') as (e & He & Hj).
    rewrite <- Hj in *. rewrite (heap_of_put q). case_decide as Hd; [by eapply Hq|].
    eapply wfb_queued; [done|done| |done|done]. intros Hxl.
    pose proof (Hx l Hxl Hlx) as Hin. destruct (Hitems l Hin) as (_ & e2 & He2 & Hq2 & _). congruence.
  - intros id l e' Hid Hlx He' Hp. destruct (put_same_job l e' He') as (e & He & Hj).
    assert (Hni : l ∉ items').
    { intros Hin. destruct (Hitems l Hin) as (_ & e2 & He2 & _ & Hp2 & _). congruence. }
    rewrite Hout in He'.
    + rewrite <- Hj in Hp. eapply wfb_idle; [done|done| |done|congruence]. intros Hxl. by apply Hni, Hx.
    + intros Hin. destruct (heap_of_item _ _ _ _ Hwf Hin) as (_ & e2 & He2 & _ & Hp2 & _). congruence.
    + done.
  - intros q' its Hq'. apply lookup_insert_Some in Hq' as [[<- <-]|[Hne Hq']]; [done|].
    apply (heap_ok_frame (mem s)); [by eapply wfb_heap|done|].
    intros l Hl. apply Hout; [by eapply other_queue|].
    intros Hin. destruct (Hitems l Hin) as (_ & e2 & He2 & Hq2 & _).
    destruct (wfb_item _ _ Hwf q' its l Hq' Hl) as (_ & e & He & Hqe & _). congruence.
  - intros l Hl. pose proof (wfb_next _ _ Hwf l Hl) as Hn. specialize (Hs l). rewrite Hn in Hs.
    by destruct (m' !! l).
Qed.
End put_queue.

(** ** Heap calls on the object graph *)

(** Everything but heap positions is as it was. *)
Definition same_world (s s' : Store) : Prop :=
  byID s' = byID s ∧ recurring s' = recurring s ∧ same_jobs (mem s) (mem s') ∧
  next_loc s' = next_loc s.

Lemma same_world_job s s' l e :
  same_world s s' → mem s !! l = Some e → ∃ e', mem s' !! l = Some e' ∧ job e' = job e.
Proof.
  intros (_ & _ & Hs & _) He. specialize (Hs l). rewrite He in Hs.
  destruct (mem s' !! l) as [e'|]; [|done]. exists e'. simpl in Hs. by simplify_eq.
Qed.

(** A pending object is put into the heap of its queue. *)
Lemma enqueue_wf s l e :
  wf_but (Some l) s → byID s !! Job.ID (job e) = Some l → mem s !! l = Some e →
  Job.State (job e) = StatePending →
  ∃ s', heap_Push (Job.Queue (job e)) l s = Some (tt, s') ∧ mem_wf s' ∧ same_world s s'.
Proof.
  intros Hwf Hid He Hp. set (q := Job.Queue (job e)).
  assert (Hl : l ∉ heap_of q s).
  { intros Hin. by destruct (heap_of_item _ _ _ _ Hwf Hin) as [? _]. }
  destruct (Push_ok (mem s) (heap_of q s) l e) as (m' & its' & HP & Hperm & Hok & Hsj & Ho);
    [by eapply heap_of_ok|done|done|].
  exists (put_queue q m' its' s). split; [|split; [|done]].
  { unfold heap_Push, on_heap, lift_heap. cbv beta. by rewrite HP. }
  apply (put_queue_wf (Some l)); [done|done|done|..].
  - intros l' _ Hl'. by apply Ho.
  - intros l' Hl'. rewrite Hperm in Hl'. split; [done|].
    apply elem_of_cons in Hl' as [->|Hl']; [eauto|]. by eapply heap_of_item.
  - intros id l' e' Hid' _ He' Hp' Hq'. rewrite Hperm. apply elem_of_cons.
    destruct (decide (l' = l)) as [->|Hne]; [by left|right]. rewrite <- Hq'.
    eapply wfb_queued; [done|done|congruence|done|done].
  - intros l' [= ->] _. rewrite Hperm. by left.
  - done.
Qed.

(** Taking a pending object out, by either heap call. *)
Lemma taken_out_wf s q l its' m' e :
  mem_wf s → l ∈ heap_of q s → heap_of q s ≡ₚ l :: its' → heap_ok m' its' →
  same_jobs (mem s) m' → m' !! l = Some e →
  (∀ l', l' ∉ heap_of q s → m' !! l' = mem s !! l') →
  wf_but (Some l) (put_queue q m' its' s) ∧ same_world s (put_queue q m' its' s).
Proof.
  intros Hwf Hl Hperm Hok Hsj He Ho. split; [|done].
  assert (Hnd : NoDup (l :: its')).
  { rewrite <- Hperm. by eapply indexed_nodup, heap_of_ok. }
  apply NoDup_cons in Hnd as [Hni Hnd].
  apply (put_queue_wf None); [done|done|done|..].
  - intros l' Hl' _. by apply Ho.
  - intros l' Hl'. split; [by intros [= ->]|].
    eapply heap_of_item; [done|]. rewrite Hperm. by right.
  - intros id l' e' Hid' Hne He' Hp' Hq'.
    assert (Hin : l' ∈ heap_of q s) by (rewrite <- Hq'; by eapply wfb_queued).
    rewrite Hperm in Hin. apply elem_of_cons in Hin as [->|]; done.
  - done.
  - intros q' its l' Hq' Hne Hl' [= ->]. by eapply other_queue.
Qed.

Lemma dequeue_wf s l e :
  mem_wf s → byID s !! Job.ID (job e) = Some l → mem s !! l = Some e →
  Job.State (job e) = StatePending →
  0 ≤ index e ∧ ∃ s' e', heap_Remove (Job.Queue (job e)) (index e) s = Some (l, s') ∧
    wf_but (Some l) s' ∧ same_world s s' ∧
    mem s' !! l = Some e' ∧ index e' = -1 ∧
    heap_of (Job.Queue (job e)) s ≡ₚ l :: heap_of (Job.Queue (job e)) s' ∧
    (∀ l', l' ∉ heap_of (Job.Queue (job e)) s → mem s' !! l' = mem s !! l') ∧
    (∀ its, <[Job.Queue (job e) := its]> (queues s') = <[Job.Queue (job e) := its]> (queues s)).
Proof.
  intros Hwf Hid He Hp. set (q := Job.Queue (job e)).
  assert (Hl : l ∈ heap_of q s) by by eapply wfb_queued.
  destruct (wf_index_pos _ _ _ _ _ Hwf Hl He) as [Hi0 Hi]. split; [done|].
  destruct (Remove_ok (mem s) (heap_of q s) (Z.to_nat (index e)) l)
    as (m' & its' & e' & HR & Hperm & Hok & Hsj & He' & Hie & Ho); [by eapply heap_of_ok|done|].
  destruct (taken_out_wf s q l its' m' e') as [Hwf' Hsw]; [done..|].
  exists (put_queue q m' its' s), e'. split.
  { unfold heap_Remove, on_heap. cbv beta. by rewrite HR. }
  split; [done|]. split; [done|]. split; [done|]. split; [done|].
  rewrite heap_of_put, decide_True by done. split; [done|]. split; [done|].
  intros its. simpl. by rewrite insert_insert_eq.
Qed.

Lemma pop_wf s q l rest :
  mem_wf s → heap_of q s = l :: rest →
  ∃ s' e', heap_Pop q s = Some (l, s') ∧ wf_but (Some l) s' ∧ same_world s s' ∧
    mem s' !! l = Some e' ∧ index e' = -1 ∧ heap_of q s ≡ₚ l :: heap_of q s' ∧
    is_Some (queues s' !! q).
Proof.
  intros Hwf Hq.
  destruct (Pop_ok (mem s) (heap_of q s) l)
    as (m' & its' & e' & HR & Hperm & Hok & Hsj & He' & Hie & Ho);
    [by eapply heap_of_ok|by rewrite Hq|].
  destruct (taken_out_wf s q l its' m' e') as [Hwf' Hsw]; [done|rewrite Hq; by left|done..|].
  exists (put_queue q m' its' s), e'. split.
  { unfold heap_Pop, on_heap. cbv beta. by rewrite HR. }
  split; [done|]. split; [done|]. split; [done|]. split; [done|].
  rewrite heap_of_put, decide_True by done. split; [done|]. simpl. rewrite lookup_insert_eq. eauto.
Qed.

(** ** Writes outside the heaps *)

Lemma set_entry_wf s l e j' :
  wf_but (Some l) s → mem s !! l = Some e → Job.ID j' = Job.ID (job e) →
  wf_but (Some l) (with_mem (<[l := set_job j' e]> (mem s)) s).
Proof.
  intros Hwf He HID.
  assert (Hne : ∀ q its l', queues s !! q = Some its → l' ∈ its → l' ≠ l).
  { intros q its l' Hq Hl' ->. by destruct (wfb_item _ _ Hwf q its l Hq Hl'). }
  split; simpl.
  - intros id l' Hid. destruct (wfb_id _ _ Hwf id l' Hid) as (e' & He' & Hi).
    destruct (decide (l' = l)) as [->|]; [|rewrite lookup_insert_ne; eauto].
    rewrite lookup_insert_eq. eexists. split; [done|]. simpl. congruence.
  - intros q its l' Hq Hl'. rewrite lookup_insert_ne by (symmetry; eauto). by eapply wfb_item.
  - intros id l' e' Hid Hlx. rewrite lookup_insert_ne by congruence. by eapply wfb_queued.
  - intros id l' e' Hid Hlx. rewrite lookup_insert_ne by congruence. by eapply wfb_idle.
  - intros q its Hq. destruct (wfb_heap _ _ Hwf q its Hq) as [Hix Hh]. split.
    + intros i l' Hi. rewrite lookup_insert_ne; [by apply Hix|].
      symmetry. eauto using list_elem_of_lookup_2.
    + apply (heap_upto_ext (mem s)); [|done]. intros l' Hl'. unfold job_at.
      rewrite lookup_insert_ne; [done|]. symmetry. eauto.
  - intros l' Hl'. pose proof (wfb_next _ _ Hwf l' Hl') as Hn.
    rewrite lookup_insert_ne by congruence. done.
Qed.

Lemma close_idle s l e :
  wf_but (Some l) s → mem s !! l = Some e → Job.State (job e) ≠ StatePending → index e = -1 →
  mem_wf s.
Proof.
  intros Hwf He Hp Hi. split.
  - apply Hwf.
  - intros q its l' Hq Hl'. split; [done|]. by eapply wfb_item.
  - intros id l' e' Hid _ He' Hp'. destruct (decide (l' = l)) as [->|]; [congruence|].
    eapply wfb_queued; [done|done|congruence|done|done].
  - intros id l' e' Hid _ He' Hp'. destruct (decide (l' = l)) as [->|]; [congruence|].
    eapply wfb_idle; [done|done|congruence|done|done].
  - apply Hwf.
  - apply Hwf.
Qed.

Lemma open_idle s id l e :
  mem_wf s → byID s !! id = Some l → mem s !! l = Some e → Job.State (job e) ≠ StatePending →
  wf_but (Some l) s ∧ index e = -1.
Proof.
  intros Hwf Hid He Hp. split; [|by eapply wfb_idle]. split.
  - apply Hwf.
  - intros q its l' Hq Hl'. destruct (wfb_item _ _ Hwf q its l' Hq Hl') as (_ & e' & He' & H1 & H2 & H3).
    split; [intros [= ->]; congruence|]. eauto.
  - intros id' l' e' Hid' _. by eapply wfb_queued.
  - intros id' l' e' Hid' _. by eapply wfb_idle.
  - apply Hwf.
  - apply Hwf.
Qed.

Lemma forget_wf s id l :
  wf_but (Some l) s → byID s !! id = Some l → mem_wf (with_byID (delete id (byID s)) s).
Proof.
  intros Hwf Hid. split; simpl.
  - intros id' l' [_ Hid']%lookup_delete_Some. by eapply wfb_id.
  - intros q its l' Hq Hl'. split; [done|].
    destruct (wfb_item _ _ Hwf q its l' Hq Hl') as (Hne & e & He & H1 & H2 & H3).
    exists e. rewrite lookup_delete_ne by congruence. done.
  - intros id' l' e [Hne Hid']%lookup_delete_Some _ He Hp.
    eapply (wfb_queued _ _ Hwf id'); [done| |done|done]. intros [= ->].
    destruct (wfb_id _ _ Hwf id l Hid) as (e1 & He1 & <-).
    destruct (wfb_id _ _ Hwf id' l Hid') as (e2 & He2 & <-). congruence.
  - intros id' l' e [Hne Hid']%lookup_delete_Some _ He Hp.
    eapply (wfb_idle _ _ Hwf id'); [done| |done|done]. intros [= ->].
    destruct (wfb_id _ _ Hwf id l Hid) as (e1 & He1 & <-).
    destruct (wfb_id _ _ Hwf id' l Hid') as (e2 & He2 & <-). congruence.
  - apply Hwf.
  - apply Hwf.
Qed.

(** A fresh object is made the one [byID] knows; the one it replaces is in no
    heap (any more). *)
Lemma bind_wf x s l e :
  wf_but x s → mem s !! l = Some e →
  (∀ id, byID s !! id ≠ Some l) → (∀ q, l ∉ heap_of q s) →
  (∀ l0 q, byID s !! Job.ID (job e) = Some l0 → l0 ∉ heap_of q s) →
  (x = None ∨ x = byID s !! Job.ID (job e)) →
  wf_but (Some l) (with_byID (<[Job.ID (job e) := l]> (byID s)) s).
Proof.
  intros Hwf He Hfresh Hnh Hold Hx. set (id := Job.ID (job e)) in *.
  assert (Hin : ∀ q its l', queues s !! q = Some its → l' ∈ its → l' ∈ heap_of q s).
  { intros q its l' Hq. unfold heap_of. by rewrite Hq. }
  assert (Hxne : ∀ id' l', id' ≠ id → byID s !! id' = Some l' → Some l' ≠ x).
  { intros id' l' Hne Hid' Hlx. destruct Hx as [->| ->]; [done|].
    destruct (wfb_id _ _ Hwf id' l' Hid') as (e1 & He1 & <-).
    destruct (wfb_id _ _ Hwf id l' (eq_sym Hlx)) as (e2 & He2 & ?). congruence. }
  split; simpl.
  - intros id' l' Hid'. apply lookup_insert_Some in Hid' as [[<- <-]|[_ Hid']]; [by exists e|].
    by eapply wfb_id.
  - intros q its l' Hq Hl'. split; [intros [= ->]; by eapply (Hnh q), Hin|].
    destruct (wfb_item _ _ Hwf q its l' Hq Hl') as (_ & e' & He' & H1 & H2 & H3).
    exists e'. rewrite lookup_insert_ne; [done|]. intros Hid. rewrite <- Hid in H3.
    by eapply (Hold l' q), Hin.
  - intros id' l' e' Hid' Hlx He' Hp.
    apply lookup_insert_Some in Hid' as [[<- <-]|[Hne Hid']]; [done|].
    eapply (wfb_queued _ _ Hwf id'); eauto.
  - intros id' l' e' Hid' Hlx He' Hp.
    apply lookup_insert_Some in Hid' as [[<- <-]|[Hne Hid']]; [done|].
    eapply (wfb_idle _ _ Hwf id'); eauto.
  - apply Hwf.
  - apply Hwf.
Qed.

Lemma alloc_wf s e :
  mem_wf s →
  let l := next_loc s in
  let s1 := mkStore (byID s) (queues s) (recurring s) (<[l := e]> (mem s)) (S l) in
  mem_wf s1 ∧ (∀ id, byID s !! id ≠ Some l) ∧ (∀ q, l ∉ heap_of q s1).
Proof.
  intros Hwf l s1. pose proof (wfb_next _ _ Hwf l ltac:(unfold l; lia)) as Hn.
  assert (Hid : ∀ id l', byID s !! id = Some l' → l' ≠ l).
  { intros id l' Hid ->. destruct (wfb_id _ _ Hwf id l Hid) as (e' & He' & _). congruence. }
  assert (Hit : ∀ q its l', queues s !! q = Some its → l' ∈ its → l' ≠ l).
  { intros q its l' Hq Hl' ->. destruct (wfb_item _ _ Hwf q its l Hq Hl') as (_ & e' & He' & _). congruence. }
  split; [|split].
  - split; simpl.
    + intros id l' Hid'. rewrite lookup_insert_ne by (symmetry; eauto). by eapply wfb_id.
    + intros q its l' Hq Hl'. rewrite lookup_insert_ne by (symmetry; eauto). by eapply wfb_item.
    + intros id l' e' Hid' _. rewrite lookup_insert_ne by (symmetry; eauto). by eapply wfb_queued.
    + intros id l' e' Hid' _. rewrite lookup_insert_ne by (symmetry; eauto). by eapply wfb_idle.
    + intros q its Hq. destruct (wfb_heap _ _ Hwf q its Hq) as [Hix Hh]. split.
      * intros i l' Hi. rewrite lookup_insert_ne; [by apply Hix|].
        symmetry. eauto using list_elem_of_lookup_2.
      * apply (heap_upto_ext (mem s)); [|done]. intros l' Hl'. unfold job_at.
        rewrite lookup_insert_ne; [done|]. symmetry. eauto.
    + intros l' Hl'. rewrite lookup_insert_ne by (unfold l in *; lia). apply (wfb_next _ _ Hwf). lia.
  - intros id Hid'. by eapply Hid.
  - intros q Hin. unfold heap_of in Hin. simpl in Hin.
    destruct (queues s !! q) as [its|] eqn:Hq; simpl in Hin; [by eapply Hit|].
    by apply elem_of_nil in Hin.
Qed.

(** ** What a state stands for *)

Definition jobs_of (s : Store) : gmap string Job.t := omap (λ l, job <$> mem s !! l) (byID s).

Definition raw (s : Store) : Spec.t := Spec.mk (jobs_of s) (recurring s).

Definition view_of (s : Spec.t) : Spec.t :=
  Spec.mk (Spec.job_view <$> Spec.jobs s) (Spec.rec_view <$> Spec.recurring s).

Lemma jobs_of_lookup s id : jobs_of s !! id = byID s !! id ≫= λ l, job <$> mem s !! l.
Proof. unfold jobs_of. by rewrite lookup_omap. Qed.

Lemma jobs_of_None x s id : wf_but x s → byID s !! id = None → jobs_of s !! id = None.
Proof. intros _ H. by rewrite jobs_of_lookup, H. Qed.

Lemma jobs_of_Some s id l e :
  byID s !! id = Some l → mem s !! l = Some e → jobs_of s !! id = Some (job e).
Proof. intros H1 H2. rewrite jobs_of_lookup, H1. simpl. by rewrite H2. Qed.

Lemma jobs_of_inv x s id j :
  wf_but x s → jobs_of s !! id = Some j →
  ∃ l e, byID s !! id = Some l ∧ mem s !! l = Some e ∧ job e = j ∧ Job.ID j = id.
Proof.
  intros Hwf. rewrite jobs_of_lookup. destruct (byID s !! id) as [l|] eqn:Hid; [|done]. simpl.
  destruct (wfb_id _ _ Hwf id l Hid) as (e & He & Hi). rewrite He. simpl. intros [= <-]. eauto 10.
Qed.

Lemma jobs_of_key x s id j : wf_but x s → jobs_of s !! id = Some j → Job.ID j = id.
Proof. intros Hwf H. by destruct (jobs_of_inv x s id j Hwf H) as (? & ? & ? & ? & ? & ?). Qed.

Lemma same_world_jobs s s' : same_world s s' → jobs_of s' = jobs_of s.
Proof.
  intros (Hb & _ & Hs & _). apply map_eq. intros id. rewrite !jobs_of_lookup, Hb.
  destruct (byID s !! id); simpl; [apply Hs|done].
Qed.

Lemma same_world_raw s s' : same_world s s' → raw s' = raw s.
Proof. intros H. unfold raw. rewrite (same_world_jobs s s' H). by destruct H as (_ & -> & _). Qed.

Lemma jobs_of_forget s id : jobs_of (with_byID (delete id (byID s)) s) = delete id (jobs_of s).
Proof.
  apply map_eq. intros id'. destruct (decide (id' = id)) as [->|Hne].
  - rewrite jobs_of_lookup. simpl. by rewrite !lookup_delete_eq.
  - rewrite jobs_of_lookup. simpl. rewrite !lookup_delete_ne by done. by rewrite jobs_of_lookup.
Qed.

Lemma jobs_of_write x s l e j' :
  wf_but x s → byID s !! Job.ID (job e) = Some l → mem s !! l = Some e →
  jobs_of (with_mem (<[l := set_job j' e]> (mem s)) s) = <[Job.ID (job e) := j']> (jobs_of s).
Proof.
  intros Hwf Hid He. apply map_eq. intros id'. rewrite jobs_of_lookup. simpl.
  destruct (decide (id' = Job.ID (job e))) as [->|Hne].
  - rewrite Hid. simpl. by rewrite !lookup_insert_eq.
  - rewrite lookup_insert_ne by done. rewrite jobs_of_lookup.
    destruct (byID s !! id') as [l'|] eqn:Hid'; simpl; [|done].
    rewrite lookup_insert_ne; [done|]. intros ->.
    destruct (wfb_id _ _ Hwf id' l' Hid') as (e' & He' & ?). congruence.
Qed.

Lemma jobs_of_bind s l e :
  mem s !! l = Some e →
  jobs_of (with_byID (<[Job.ID (job e) := l]> (byID s)) s) = <[Job.ID (job e) := job e]> (jobs_of s).
Proof.
  intros He. apply map_eq. intros id'. rewrite jobs_of_lookup. simpl.
  destruct (decide (id' = Job.ID (job e))) as [->|Hne].
  - rewrite !lookup_insert_eq. simpl. by rewrite He.
  - rewrite !lookup_insert_ne by done. by rewrite jobs_of_lookup.
Qed.

Lemma load_run l s e : mem s !! l = Some e → load l s = Some (e, s).
Proof. intros H. unfold load, glift. by rewrite H. Qed.

Lemma store_job_run l f s e :
  mem s !! l = Some e →
  store_job l f s = Some (tt, with_mem (<[l := set_job (f (job e)) e]> (mem s)) s).
Proof. intros H. unfold store_job, gbind. by rewrite (load_run l s e H). Qed.

(** The object behind a known id. *)
Lemma known s id l :
  mem_wf s → byID s !! id = Some l →
  ∃ e, mem s !! l = Some e ∧ Job.ID (job e) = id ∧ jobs_of s !! id = Some (job e).
Proof.
  intros Hwf Hid. destruct (wfb_id _ _ Hwf id l Hid) as (e & He & Hi).
  exists e. split; [done|]. split; [done|]. by eapply jobs_of_Some.
Qed.

(** ** Methods *)

Lemma Ack_run s id :
  mem_wf s →
  ∃ e s', Ack id s = Some (e, s') ∧ mem_wf s' ∧ (e, raw s') = Spec.ack id (raw s).
Proof.
  intros Hwf. unfold Ack, Spec.ack. gorun. simpl.
  destruct (byID s !! id) as [l|] eqn:Hid.
  2:{ rewrite (jobs_of_None None) by done. eauto. }
  destruct (known s id l Hwf Hid) as (e & He & HID & ->). rewrite (load_run l s e He).
  destruct (Z.eqb_spec (Job.State (job e)) StateClaimed) as [Hc|Hc]; cbn [negb].
  2:{ eauto. }
  rewrite (store_job_run l _ s e He).
  destruct (open_idle s id l e Hwf Hid He) as [Hwf1 Hi]; [by rewrite Hc|].
  set (j1 := Job.set_State StateSucceeded (job e)).
  set (s1 := with_mem (<[l:=set_job j1 e]> (mem s)) s).
  eexists None, _. split; [done|].
  assert (Hwf2 : wf_but (Some l) s1) by by apply set_entry_wf.
  split; [by eapply forget_wf|].
  unfold Spec.done_with, Spec.set_jobs, raw. f_equal. f_equal.
  change (delete id (byID s)) with (delete id (byID s1)). rewrite (jobs_of_forget s1 id).
  unfold s1. subst id. rewrite (jobs_of_write None) by done. by rewrite delete_insert_eq.
Qed.

Lemma Cancel_run s id :
  mem_wf s →
  ∃ e s', Cancel id s = Some (e, s') ∧ mem_wf s' ∧ (e, raw s') = Spec.cancel id (raw s).
Proof.
  intros Hwf. unfold Cancel, Spec.cancel. gorun. simpl.
  destruct (byID s !! id) as [l|] eqn:Hid.
  2:{ rewrite (jobs_of_None None) by done. eauto. }
  destruct (known s id l Hwf Hid) as (e & He & HID & ->). rewrite (load_run l s e He).
  destruct (Z.eqb_spec (Job.State (job e)) StatePending) as [Hp|Hp]; cbn [negb]; [|eauto].
  subst id. destruct (dequeue_wf s l e Hwf Hid He Hp) as (Hi & s1 & e1 & Hrm & Hwf1 & Hsw & _).
  destruct (Z.leb_spec 0 (index e)); [|lia]. rewrite Hrm.
  eexists None, _. split; [done|]. split.
  - eapply forget_wf; [done|]. by destruct Hsw as (-> & _).
  - unfold Spec.done_with, Spec.set_jobs, raw. f_equal. f_equal.
    + rewrite jobs_of_forget. by rewrite (same_world_jobs s s1 Hsw).
    + exact (proj1 (proj2 Hsw)).
Qed.

Lemma Fail_run s id msg t :
  mem_wf s →
  ∃ e s', Fail id msg t s = Some (e, s') ∧ mem_wf s' ∧ (e, raw s') = Spec.fail id msg t (raw s).
Proof.
  intros Hwf. unfold Fail, Spec.fail, Spec.exhausted. gorun. simpl.
  destruct (byID s !! id) as [l|] eqn:Hid.
  2:{ rewrite (jobs_of_None None) by done. eauto. }
  destruct (known s id l Hwf Hid) as (e & He & HID & ->). rewrite (load_run l s e He).
  destruct (Z.eqb_spec (Job.State (job e)) StateClaimed) as [Hc|Hc]; cbn [negb].
  2:{ eauto. }
  rewrite (store_job_run l _ s e He). cbn beta.
  destruct (open_idle s id l e Hwf Hid He) as [Hwf1 Hi]; [by rewrite Hc|].
  set (j1 := Job.set_LastError msg _). set (e1 := set_job j1 e).
  set (s1 := with_mem (<[l:=e1]> (mem s)) s).
  assert (Hwf2 : wf_but (Some l) s1) by by apply set_entry_wf.
  assert (He1 : mem s1 !! l = Some e1) by apply lookup_insert_eq.
  assert (Hid1 : byID s1 !! Job.ID (job e1) = Some l) by (subst id; done).
  assert (Hj1 : jobs_of s1 = <[id := j1]> (jobs_of s)) by (subst id; by apply (jobs_of_write None)).
  rewrite (load_run l s1 e1 He1).
  change (Job.MaxAttempts (job e1)) with (Job.MaxAttempts (job e)).
  change (Job.Attempt (job e1)) with (wrap64 (Job.Attempt (job e) + 1)).
  destruct ((0 <? Job.MaxAttempts (job e)) && (Job.MaxAttempts (job e) <=? _)) eqn:Hx.
  - rewrite (store_job_run l _ s1 e1 He1). set (s2 := with_mem _ s1).
    assert (Hwf3 : wf_but (Some l) s2) by by apply set_entry_wf.
    eexists None, _. split; [done|]. split; [by eapply forget_wf|].
    unfold Spec.done_with, Spec.set_jobs, raw. f_equal. f_equal.
    rewrite (jobs_of_forget s2 id). unfold s2. rewrite (jobs_of_write (Some l)) by done.
    rewrite Hj1. subst id. by rewrite !delete_insert_eq.
  - rewrite (store_job_run l _ s1 e1 He1). set (s2 := with_mem _ s1).
    set (e2 := set_job (Spec.retry_job msg t (job e)) e).
    assert (Hs2 : s2 = with_mem (<[l := e2]> (mem s1)) s1) by done.
    assert (He2 : mem s2 !! l = Some e2) by apply lookup_insert_eq.
    assert (Hwf3 : wf_but (Some l) s2) by by apply set_entry_wf.
    destruct (enqueue_wf s2 l e2) as (s3 & HP & Hwf4 & Hsw); [done|by subst id|done|done|].
    change (Job.Queue (job e1)) with (Job.Queue (job e2)). rewrite HP.
    eexists None, _. split; [done|]. split; [done|].
    rewrite (same_world_raw s2 s3 Hsw). unfold Spec.done_with, Spec.set_jobs, raw.
    f_equal. f_equal. rewrite Hs2.
    change e2 with (set_job (Spec.retry_job msg t (job e)) e1).
    rewrite (jobs_of_write (Some l)) by done. rewrite Hj1. subst id. by rewrite insert_insert_eq.
Qed.

(** [heap.Fix] after a write to a queued job: as far as the object graph goes,
    taking the object out, writing it, and putting it back. *)
Lemma fix_wf s l e j1 :
  mem_wf s → byID s !! Job.ID (job e) = Some l → mem s !! l = Some e →
  Job.State (job e) = StatePending →
  Job.ID j1 = Job.ID (job e) → Job.Queue j1 = Job.Queue (job e) → Job.State j1 = StatePending →
  let s1 := with_mem (<[l := set_job j1 e]> (mem s)) s in
  0 ≤ index e ∧
  ∃ s', heap_Fix (Job.Queue (job e)) (index e) s1 = Some (tt, s') ∧ mem_wf s' ∧ same_world s1 s'.
Proof.
  intros Hwf Hid He Hp HI1 HQ1 HS1 s1. set (q := Job.Queue (job e)) in *.
  destruct (dequeue_wf s l e Hwf Hid He Hp)
    as (Hi & sv & ev & _ & Hwfv & Hsw & Hev & Hiev & Hperm & Ho & Hqs). fold q in Hperm, Ho, Hqs.
  split; [done|]. assert (Hin : l ∈ heap_of q s) by (rewrite Hperm; by left).
  destruct (wf_index_pos _ _ _ _ _ Hwf Hin He) as [_ Hpos].
  destruct (Fix_ok (mem s) (mem s1) (heap_of q s) (Z.to_nat (index e)) l e (set_job j1 e))
    as (m' & its' & HF & Hp' & Hok & Hsj & Ho'); [by eapply heap_of_ok|done|done|done|done|].
  set (sv1 := with_mem (<[l := set_job j1 ev]> (mem sv)) sv).
  assert (Hjev : job ev = job e).
  { destruct (same_world_job s sv l e Hsw He) as (? & ? & ?). congruence. }
  assert (Hwfv1 : wf_but (Some l) sv1) by (apply set_entry_wf; [done|done|by rewrite Hjev]).
  assert (Hput : put_queue q m' its' s1 = put_queue q m' its' sv1).
  { unfold put_queue, sv1, s1. simpl. destruct Hsw as (-> & -> & _ & ->). by rewrite Hqs. }
  assert (Hsv1 : same_jobs (mem s1) (mem sv1)).
  { intros l'. unfold s1, sv1. simpl. destruct (decide (l' = l)) as [->|Hne].
    - by rewrite !lookup_insert_eq.
    - rewrite !lookup_insert_ne by done. apply Hsw. }
  exists (put_queue q m' its' s1). split; [|split; [|done]].
  { unfold heap_Fix, on_heap, lift_heap. cbv beta.
    change (heap_of q s1) with (heap_of q s). by rewrite HF. }
  rewrite Hput. apply (put_queue_wf (Some l)); [done|done| | |..].
  - intros l'. by rewrite Hsj, <- Hsv1.
  - intros l' Hn1 Hn2. rewrite Ho' by (by rewrite <- Hp').
    rewrite Hp', Hperm in Hn2. apply not_elem_of_cons in Hn2 as [Hne Hn2].
    unfold s1, sv1. simpl. rewrite !lookup_insert_ne by done. symmetry. apply Ho.
    rewrite Hperm. by apply not_elem_of_cons.
  - intros l' Hl'. split; [done|]. rewrite Hp', Hperm in Hl'.
    apply elem_of_cons in Hl' as [->|Hl']; [|by eapply (heap_of_item (Some l))].
    exists (set_job j1 ev). unfold sv1. simpl. rewrite lookup_insert_eq.
    do 3 (split; [done|]). rewrite HI1. destruct Hsw as (-> & _). done.
  - intros id' l' e' Hid' _ He' Hp2 Hq2. rewrite Hp', Hperm. apply elem_of_cons.
    destruct (decide (l' = l)) as [->|Hne]; [by left|right]. rewrite <- Hq2.
    eapply (wfb_queued _ _ Hwfv1); [done|congruence|done|done].
  - intros l' [= ->] _. by rewrite Hp'.
  - done.
Qed.

Lemma Reschedule_run s id t :
  mem_wf s →
  ∃ e s', Reschedule id t s = Some (e, s') ∧ mem_wf s' ∧
          (e, raw s') = Spec.reschedule id t (raw s).
Proof.
  intros Hwf. unfold Reschedule, Spec.reschedule. gorun. simpl.
  destruct (byID s !! id) as [l|] eqn:Hid.
  2:{ rewrite (jobs_of_None None) by done. eauto. }
  destruct (known s id l Hwf Hid) as (e & He & HID & ->). rewrite (load_run l s e He).
  destruct (Z.eqb_spec (Job.State (job e)) StatePending) as [Hp|Hp]; cbn [negb]; [|eauto].
  rewrite (store_job_run l _ s e He). cbn beta. subst id.
  destruct (fix_wf s l e (Job.set_RunAt t (job e)) Hwf Hid He Hp)
    as (Hi & s' & HF & Hwf' & Hsw); [done..|].
  destruct (Z.leb_spec 0 (index e)); [|lia]. rewrite HF.
  exists None, s'. split; [done|]. split; [done|].
  rewrite (same_world_raw _ _ Hsw). unfold Spec.done_with, Spec.set_jobs, raw.
  f_equal. f_equal. by apply (jobs_of_write None).
Qed.

(** The object [Save] replaces, if any, leaves its heap. *)
Definition retire (existing : option nat) : GoM Store unit :=
  match existing with
  | Some existing =>
      let! old := load existing in
      if 0 <=? index old
      then do! heap_Remove (Job.Queue (job old)) (index old) in gret tt
      else gret tt
  | None => gret tt
  end.

Lemma retire_wf s id :
  mem_wf s →
  ∃ s' x, retire (byID s !! id) s = Some (tt, s') ∧ wf_but x s' ∧ same_world s s' ∧
    (x = None ∨ x = byID s !! id) ∧
    (∀ l0 q, byID s !! id = Some l0 → l0 ∉ heap_of q s') ∧
    (∀ l q, l ∈ heap_of q s' → l ∈ heap_of q s) ∧
    (∀ l, (∀ q, l ∉ heap_of q s) → mem s' !! l = mem s !! l).
Proof.
  intros Hwf. destruct (byID s !! id) as [l|] eqn:Hid; simpl.
  2:{ exists s, None. do 4 (split; [by eauto|]). by split. }
  destruct (known s id l Hwf Hid) as (e & He & HID & _). gorun. rewrite (load_run l s e He).
  destruct (decide (Job.State (job e) = StatePending)) as [Hp|Hp].
  - subst id. destruct (dequeue_wf s l e Hwf Hid He Hp)
      as (Hi & s' & e' & Hrm & Hwf' & Hsw & He' & Hie' & Hperm & Ho & Hqs).
    destruct (Z.leb_spec 0 (index e)); [|lia]. rewrite Hrm.
    exists s', (Some l). do 4 (split; [by eauto|]). split; [|split].
    + intros l0 q [= ->] Hin. by destruct (heap_of_item _ _ _ _ Hwf' Hin) as [? _].
    + intros l' q Hin. destruct (heap_of_item _ _ _ _ Hwf' Hin) as (Hne & e1 & He1 & Hq1 & Hp1 & Hb1).
      destruct Hsw as (Hb & _ & Hsj & _). rewrite Hb in Hb1.
      destruct (same_jobs_Some _ _ _ _ Hsj He1) as (e0 & He0 & Hj0). rewrite <- Hq1, <- Hj0.
      rewrite <- Hj0 in *. eapply wfb_queued; [exact Hwf|done..].
    + intros l' Hl'. by apply Ho.
  - destruct (open_idle s id l e Hwf Hid He Hp) as [Hwf1 Hi].
    rewrite Hi. simpl. exists s, None. do 4 (split; [by eauto|]). split; [|done].
    intros l0 q [= <-] Hin. by destruct (heap_of_item _ _ _ _ Hwf1 Hin) as [? _].
Qed.

Lemma normal_state j : (if Job.State j =? 0 then Job.set_State StatePending j else j) = j.
Proof. destruct (Z.eqb_spec (Job.State j) 0); [destruct j; simpl in *; by subst|done]. Qed.

Lemma Save_run s j :
  mem_wf s →
  ∃ s', Save j s = Some (None, s') ∧ mem_wf s' ∧
    raw s' = Spec.mk (<[Job.ID j := j]> (jobs_of s)) (recurring s).
Proof.
  intros Hwf. unfold Save. rewrite normal_state. cbv zeta. gorun. unfold alloc.
  set (l := next_loc s). set (e := mkEntry j (-1)).
  destruct (alloc_wf s e Hwf) as (Hwf1 & Hfr & Hnh). fold l in Hwf1, Hfr, Hnh.
  set (s1 := mkStore _ _ _ _ _) in *.
  assert (He1 : mem s1 !! l = Some e) by apply lookup_insert_eq.
  assert (Hj1 : jobs_of s1 = jobs_of s).
  { apply map_eq. intros id. rewrite !jobs_of_lookup. simpl.
    destruct (byID s !! id) as [l'|] eqn:Hid; simpl; [|done].
    rewrite lookup_insert_ne; [done|]. intros <-. by apply (Hfr id). }
  change (byID s1 !! Job.ID j) with (byID s1 !! Job.ID (job e)).
  destruct (retire_wf s1 (Job.ID (job e)) Hwf1)
    as (s2 & x & Hret & Hwf2 & Hsw & Hx & Hold & Hsub & Hkeep).
  unfold retire in Hret. unfold gbind, gret in Hret. rewrite Hret.
  assert (He2 : mem s2 !! l = Some e) by (rewrite Hkeep; done).
  pose proof Hsw as (Hb2 & Hr2 & _). pose proof (same_world_jobs _ _ Hsw) as Hj2.
  destruct (bind_wf x s2 l e) as [Hw1 Hw2 Hw3 Hw4 Hw5 Hw6]; [done|done|..].
  { intros id. rewrite Hb2. apply Hfr. }
  { intros q Hin. by eapply Hnh, Hsub. }
  { intros l0 q. rewrite Hb2. apply Hold. }
  { by rewrite Hb2. }
  change (<[Job.ID j:=l]> (byID s2)) with (<[Job.ID (job e):=l]> (byID s2)).
  set (s3 := with_byID _ s2) in *.
  assert (Hwf3 : wf_but (Some l) s3) by (by split).
  assert (Hraw3 : raw s3 = Spec.mk (<[Job.ID j := j]> (jobs_of s)) (recurring s)).
  { unfold raw. f_equal; [|done]. unfold s3. rewrite (jobs_of_bind s2 l e He2).
    by rewrite Hj2, Hj1. }
  destruct (Z.eqb_spec (Job.State j) StatePending) as [Hp|Hp].
  - destruct (enqueue_wf s3 l e Hwf3) as (s4 & HP & Hwf4 & Hsw4);
      [unfold s3; simpl; by rewrite lookup_insert_eq|done|done|].
    change (Job.Queue (job e)) with (Job.Queue j) in HP. rewrite HP.
    exists s4. split; [done|]. split; [done|]. by rewrite (same_world_raw _ _ Hsw4).
  - exists s3. split; [done|]. split; [|done]. by eapply (close_idle s3 l e).
Qed.

(** ** Claiming *)

Definition due (now : Z) (j : Job.t) : bool := negb (Time.After (Job.RunAt j) now).

(** The jobs of a queue's heap are the pending jobs of the queue. *)
Definition heap_jobs (q : string) (s : Store) : list Job.t := job_at (mem s) <$> heap_of q s.

Lemma heap_jobs_pending s q : mem_wf s → heap_jobs q s ≡ₚ Spec.pending_of q (jobs_of s).
Proof.
  intros Hwf. unfold heap_jobs.
  assert (Hit : ∀ l, l ∈ heap_of q s → ∃ e, mem s !! l = Some e ∧ job_at (mem s) l = job e ∧
    Job.Queue (job e) = q ∧ Job.State (job e) = StatePending ∧ byID s !! Job.ID (job e) = Some l).
  { intros l Hl. destruct (heap_of_item _ _ _ _ Hwf Hl) as (_ & e & He & H1 & H2 & H3).
    exists e. split; [done|]. split; [by apply job_at_Some|]. done. }
  apply NoDup_Permutation.
  - apply (NoDup_fmap_1 Job.ID). rewrite <- list_fmap_compose.
    apply NoDup_fmap_2_strong; [|by eapply indexed_nodup, heap_of_ok].
    intros x y Hx Hy Heq. simpl in Heq. destruct (Hit x Hx) as (ex & _ & Hjx & _ & _ & Hbx).
    destruct (Hit y Hy) as (ey & _ & Hjy & _ & _ & Hby). congruence.
  - eapply (NoDup_fmap_1 Job.ID), pending_of_nodup. intros k j. by eapply jobs_of_key.
  - intros j. rewrite list_elem_of_fmap. split.
    + intros (l & -> & Hl). destruct (Hit l Hl) as (e & He & -> & Hq & Hp & Hb).
      apply (elem_of_pending_of _ _ (Job.ID (job e))); [by eapply jobs_of_Some|].
      unfold Spec.pending_in. by rewrite Hq, Hp, bool_decide_eq_true_2.
    + intros Hj. apply pending_of_elem in Hj as [Hp [k Hk]].
      destruct (jobs_of_inv None s k j Hwf Hk) as (l & e & Hid & He & <- & _).
      unfold Spec.pending_in in Hp. breflect. apply bool_decide_eq_true in H.
      exists l. split; [by rewrite (job_at_Some _ _ e)|]. rewrite <- H. by eapply wfb_queued.
Qed.

(** The root of the heap is the least of its jobs. *)
Lemma heap_root_least s q l rest j :
  mem_wf s → heap_of q s = l :: rest → j ∈ heap_jobs q s → le_of jobLess (job_at (mem s) l) j.
Proof.
  intros Hwf Hq (l' & -> & Hl')%list_elem_of_fmap.
  destruct (heap_of_ok _ _ q Hwf) as [_ Hh]. apply list_elem_of_lookup in Hl' as [k Hk].
  eapply (heap_upto_root (entry_less (mem s)) (heap_of q s) (length (heap_of q s)) k);
    [done|done|by eapply lookup_lt_Some| |exact Hk]. by rewrite Hq.
Qed.

(** A claim order of the heap that starts at its root. *)
Lemma heap_sorted_from_root s q l rest :
  mem_wf s → heap_of q s = l :: rest →
  ∃ srt, job_at (mem s) l :: srt ≡ₚ heap_jobs q s ∧
         StronglySorted (le_of jobLess) (job_at (mem s) l :: srt).
Proof.
  intros Hwf Hq. exists (stable_sort jobLess (job_at (mem s) <$> rest)). split.
  - rewrite (stable_sort_perm jobLess). unfold heap_jobs. by rewrite Hq.
  - constructor; [apply stable_sort_sorted, _|].
    rewrite (stable_sort_perm jobLess). apply Forall_forall. intros j Hj.
    eapply heap_root_least; [done|done|]. unfold heap_jobs. rewrite Hq. by right.
Qed.

(** One claim: what [heap.Pop] and the writes after it amount to. *)
Lemma claim_turn s q l rest e now w u :
  mem_wf s → heap_of q s = l :: rest → mem s !! l = Some e →
  ∃ s1 e1 s2, heap_Pop q s = Some (l, s1) ∧
    store_job l (claimed now w u) s1 = Some (tt, s2) ∧
    mem s2 !! l = Some e1 ∧ job e1 = claimed now w u (job e) ∧
    mem_wf s2 ∧ recurring s2 = recurring s ∧
    jobs_of s2 = <[Job.ID (job e) := claimed now w u (job e)]> (jobs_of s) ∧
    heap_jobs q s ≡ₚ job e :: heap_jobs q s2 ∧
    length (heap_of q s) = S (length (heap_of q s2)).
Proof.
  intros Hwf Hq He.
  destruct (pop_wf s q l rest Hwf Hq) as (s1 & e' & HP & Hwf1 & Hsw & He' & Hi & Hperm & _).
  destruct (same_world_job s s1 l e Hsw He) as (e2 & He2 & Hj1).
  assert (e2 = e') as -> by congruence.
  set (s2 := with_mem (<[l := set_job (claimed now w u (job e')) e']> (mem s1)) s1).
  assert (Hin : l ∈ heap_of q s) by (rewrite Hq; by left).
  destruct (heap_of_item _ _ _ _ Hwf Hin) as (_ & e0 & He0 & _ & _ & Hb).
  assert (e0 = e) as -> by congruence.
  assert (Hb1 : byID s1 !! Job.ID (job e') = Some l) by (destruct Hsw as (-> & _); by rewrite Hj1).
  assert (Hwf2 : wf_but (Some l) s2) by by apply set_entry_wf.
  assert (Hnd : NoDup (l :: heap_of q s1)).
  { rewrite <- Hperm. by eapply indexed_nodup, heap_of_ok. }
  apply NoDup_cons in Hnd as [Hni _].
  exists s1, (set_job (claimed now w u (job e')) e'), s2. split; [done|].
  split; [by apply store_job_run|]. split; [apply lookup_insert_eq|].
  split; [simpl; by rewrite Hj1|].
  split; [eapply close_idle; [done|apply lookup_insert_eq|done|done]|].
  split; [apply Hsw|]. split.
  { unfold s2. rewrite (jobs_of_write (Some l)) by done. rewrite Hj1.
    by rewrite (same_world_jobs s s1). }
  split; [|by rewrite (Permutation_length Hperm)].
  assert (Hrest : heap_jobs q s2 = job_at (mem s) <$> heap_of q s1).
  { unfold heap_jobs. change (heap_of q s2) with (heap_of q s1). apply list_fmap_ext.
    intros i l' Hl'. rewrite <- (same_jobs_at (mem s) (mem s1) l') by apply Hsw.
    unfold job_at, s2. simpl. rewrite lookup_insert_ne; [done|].
    intros Heq. apply Hni. rewrite Heq. by eapply list_elem_of_lookup_2. }
  rewrite Hrest. unfold heap_jobs. rewrite Hperm. simpl. by rewrite (job_at_Some _ _ e).
Qed.

Lemma claim_loop_run fuel q now n w u : ∀ s out,
  mem_wf s → (length (heap_of q s) ≤ fuel)%nat →
  ∃ srt s', let js := take (Z.to_nat (n - Z.of_nat (length out))) (take_while (due now) srt) in
    claim_loop fuel q now n w u out s = Some (out ++ (claimed now w u <$> js), s') ∧
    srt ≡ₚ heap_jobs q s ∧ StronglySorted (le_of jobLess) srt ∧
    mem_wf s' ∧ recurring s' = recurring s ∧
    jobs_of s' = Spec.update_all (claimed now w u) js (jobs_of s).
Proof.
  induction fuel as [|fuel IH]; intros s out Hwf Hlen; cbn [claim_loop].
  { assert (heap_of q s = []) as Hq by (destruct (heap_of q s); simpl in *; [done|lia]).
    exists [], s. simpl. rewrite take_nil, app_nil_r. unfold heap_jobs. rewrite Hq.
    do 2 (split; [done|]). by split; [constructor|]. }
  gorun. destruct (heap_of q s) as [|l rest] eqn:Hq.
  { exists [], s. simpl. rewrite take_nil, app_nil_r. unfold heap_jobs. rewrite Hq.
    do 2 (split; [done|]). by split; [constructor|]. }
  destruct (heap_sorted_from_root s q l rest Hwf Hq) as (srt & Hperm & Hs).
  assert (Hin : l ∈ heap_of q s) by (rewrite Hq; by left).
  destruct (heap_of_item _ _ _ _ Hwf Hin) as (_ & e & He & _).
  rewrite (job_at_Some _ _ e He) in Hperm, Hs.
  destruct (Z.ltb_spec (Z.of_nat (length out)) n) as [Hn|Hn].
  2:{ exists (job e :: srt), s. cbv zeta.
      replace (Z.to_nat (n - Z.of_nat (length out))) with 0%nat by lia.
      simpl. rewrite app_nil_r. done. }
  rewrite (load_run l s e He).
  destruct (Time.After (Job.RunAt (job e)) now) eqn:Hdue.
  { exists (job e :: srt), s. cbv zeta.
    assert (Htw : take_while (due now) (job e :: srt) = []).
    { simpl. unfold due at 1. by rewrite Hdue. }
    rewrite Htw, take_nil. simpl. rewrite app_nil_r. done. }
  destruct (claim_turn s q l rest e now w u Hwf Hq He)
    as (s1 & e1 & s2 & -> & -> & He1 & Hje1 & Hwf2 & Hr2 & Hj2 & Hp2 & Hl2).
  rewrite (load_run l s2 e1 He1), Hje1.
  destruct (IH s2 (out ++ [claimed now w u (job e)]) Hwf2) as (srt' & s' & Hrun & Hperm' & Hs' & Hwf' & Hr' & Hj').
  { rewrite Hq in Hl2. simpl in *. lia. }
  exists (job e :: srt'), s'. cbv zeta in *. rewrite Hrun.
  assert (Hk : Z.to_nat (n - Z.of_nat (length out)) =
    S (Z.to_nat (n - Z.of_nat (length (out ++ [claimed now w u (job e)]))))).
  { rewrite length_app. simpl. lia. }
  assert (Htw : take_while (due now) (job e :: srt') = job e :: take_while (due now) srt').
  { simpl. unfold due at 1. by rewrite Hdue. }
  rewrite Hk, Htw. simpl. rewrite <- app_assoc. split; [done|].
  split; [by rewrite Hp2, Hperm'|]. split.
  { constructor; [done|]. apply StronglySorted_inv in Hs as [_ Hall].
    assert (Hpp : srt' ≡ₚ srt) by (apply (Permutation_cons_inv (a := job e)); by rewrite Hperm, Hp2, Hperm').
    by rewrite Hpp. }
  split; [done|]. split; [congruence|]. by rewrite Hj', Hj2.
Qed.

(** The jobs a claim takes, out of the pending jobs in claim order: those
    before the first that is not due, [n] at most. *)
Definition due_prefix (now n : Z) (srt : list Job.t) : list Job.t :=
  take (Z.to_nat n) (take_while (due now) srt).

Lemma due_prefix_take now n srt : ∃ k, due_prefix now n srt = take k srt.
Proof.
  unfold due_prefix. destruct (take_while_prefix (due now) srt) as [k ->].
  exists (min (Z.to_nat n) k). by rewrite take_take.
Qed.

Lemma due_prefix_due now n srt : Forall (λ j, due now j = true) (due_prefix now n srt).
Proof. apply Forall_take, take_while_forall. Qed.

Lemma ClaimDue_run s q now n w u :
  mem_wf s → makeable n →
  ∃ srt s', srt ≡ₚ Spec.pending_of q (jobs_of s) ∧ StronglySorted (le_of jobLess) srt ∧
    ClaimDue q now n w u s = Some ((claimed now w u <$> due_prefix now n srt, None), s') ∧
    mem_wf s' ∧ recurring s' = recurring s ∧
    jobs_of s' = Spec.update_all (claimed now w u) (due_prefix now n srt) (jobs_of s).
Proof.
  intros Hwf Hn. unfold ClaimDue. gorun. destruct (queues s !! q) as [items|] eqn:Hq.
  - rewrite bool_decide_eq_true_2 by done. cbn [negb]. apply makeable_nonneg in Hn.
    assert (Hitems : heap_of q s = items) by (unfold heap_of; by rewrite Hq).
    destruct (claim_loop_run (length items) q now n w u s [] Hwf) as (srt & s' & Hrun & Hp & Hs & Hwf' & Hr & Hj).
    { by rewrite Hitems. }
    cbv zeta in *. simpl in Hrun, Hj. rewrite Z.sub_0_r in Hrun, Hj. rewrite Hrun.
    exists srt, s'. split; [by rewrite Hp, heap_jobs_pending|]. split; [done|].
    split; [|done]. do 3 f_equal. apply stable_sort_id.
    apply (sorted_fmap (le_of jobLess)); [done|]. unfold due_prefix.
    destruct (due_prefix_take now n srt) as [k Hk]. unfold due_prefix in Hk. rewrite Hk.
    by apply sorted_take.
  - exists [], s. split; [|split; [constructor|]].
    { rewrite <- heap_jobs_pending by done. unfold heap_jobs, heap_of. by rewrite Hq. }
    unfold due_prefix. simpl. by rewrite take_nil.
Qed.

Lemma QueueSize_run s q :
  mem_wf s → QueueSize q s = Some ((Z.of_nat (length (Spec.pending_of q (jobs_of s))), None), s).
Proof.
  intros Hwf. rewrite <- heap_jobs_pending by done. unfold heap_jobs. rewrite length_fmap.
  unfold QueueSize, heap_of. gorun. by destruct (queues s !! q).
Qed.

(** Schedules are kept apart from jobs. *)
Lemma with_recurring_wf s m : mem_wf s → mem_wf (with_recurring m s).
Proof. intros Hwf. split; apply Hwf. Qed.

Lemma New_wf : mem_wf New.
Proof. by split. Qed.

(** ** The contract, through the view *)

Definition mem_abs (s : Store) : Spec.t := view_of (raw s).

(** The specification's operations commute with the view: on each branch the
    result is the same map operation. *)
Ltac view_commutes s id :=
  intros Heq; destruct s as [js rs]; unfold view_of in *; simpl in *; revert Heq;
  rewrite ?lookup_fmap; destruct (js !! id) as [j|]; simpl; [|by intros [= -> ->]];
  try change (Spec.exhausted (Spec.job_view j)) with (Spec.exhausted j);
  repeat case_match; intros [= -> ->]; try done;
  unfold Spec.done_with, Spec.set_jobs; simpl; by rewrite ?fmap_delete, ?fmap_insert.

Lemma view_ack id s e s' :
  (e, s') = Spec.ack id s → (e, view_of s') = Spec.ack id (view_of s).
Proof. unfold Spec.ack. view_commutes s id. Qed.

Lemma view_cancel id s e s' :
  (e, s') = Spec.cancel id s → (e, view_of s') = Spec.cancel id (view_of s).
Proof. unfold Spec.cancel. view_commutes s id. Qed.

Lemma view_reschedule id t s e s' :
  (e, s') = Spec.reschedule id t s → (e, view_of s') = Spec.reschedule id t (view_of s).
Proof. unfold Spec.reschedule. view_commutes s id. Qed.

Lemma view_fail id msg t s e s' :
  (e, s') = Spec.fail id msg t s → (e, view_of s') = Spec.fail id msg t (view_of s).
Proof. unfold Spec.fail. view_commutes s id. Qed.

Lemma view_update_all f g js m :
  (∀ j, Spec.job_view (f j) = g (Spec.job_view j)) →
  Spec.job_view <$> Spec.update_all f js m =
  Spec.update_all g (Spec.job_view <$> js) (Spec.job_view <$> m).
Proof.
  intros Hfg. unfold Spec.update_all. revert m. induction js as [|j js IH]; intros m; simpl; [done|].
  rewrite IH. by rewrite fmap_insert, Hfg.
Qed.

Lemma pending_of_view q m :
  Spec.pending_of q (Spec.job_view <$> m) ≡ₚ Spec.job_view <$> Spec.pending_of q m.
Proof.
  unfold Spec.pending_of. rewrite map_to_list_fmap.
  induction (map_to_list m) as [|[k j] l IH]; simpl; [done|].
  rewrite !filter_cons. change (Spec.pending_in q (Spec.job_view j)) with (Spec.pending_in q j).
  case_decide; simpl; by rewrite ?IH.
Qed.

(** A due prefix of the claim order is a correct answer. *)
Lemma due_prefix_ok s q now n srt :
  mem_wf s → 0 ≤ n → srt ≡ₚ Spec.pending_of q (jobs_of s) → StronglySorted (le_of jobLess) srt →
  Spec.claim_ok q now n (Spec.jobs (mem_abs s)) (Spec.job_view <$> due_prefix now n srt).
Proof.
  intros Hwf Hn Hp Hs. destruct (due_prefix_take now n srt) as [k Hk].
  assert (Hids : ∀ js, Spec.ids (Spec.job_view <$> js) = Spec.ids js).
  { intros js. unfold Spec.ids. by rewrite <- list_fmap_compose. }
  assert (Hin : ∀ j, j ∈ srt → Spec.pending_in q j = true ∧ jobs_of s !! Job.ID j = Some j).
  { intros j Hj. rewrite Hp in Hj. apply pending_of_elem in Hj as [H1 [k' H2]].
    split; [done|]. by rewrite (jobs_of_key None s k' j Hwf H2). }
  assert (Hsub : ∀ j, j ∈ due_prefix now n srt → j ∈ srt).
  { intros j. rewrite Hk. apply subseteq_take. }
  split.
  - rewrite Hids. apply (sublist_NoDup _ (Spec.ids srt)).
    + unfold Spec.ids. rewrite Hp. apply pending_of_nodup. intros ??. by eapply jobs_of_key.
    + unfold Spec.ids. apply fmap_sublist. rewrite Hk. apply sublist_take.
  - apply Forall_fmap, Forall_forall. intros j Hj. simpl.
    destruct (Hin j (Hsub j Hj)) as [H1 H2]. split; [by rewrite lookup_fmap, H2|].
    unfold Spec.eligible. apply andb_true_iff. split; [done|].
    pose proof (due_prefix_due now n srt) as Hd. rewrite Forall_forall in Hd. exact (Hd j Hj).
  - rewrite length_fmap. unfold due_prefix. rewrite length_take. lia.
  - apply (sorted_fmap (le_of jobLess)); [done|]. rewrite Hk. by apply sorted_take.
  - intros k' j Hkj Helig Hnot. simpl in Hkj. rewrite lookup_fmap in Hkj.
    destruct (jobs_of s !! k') as [j0|] eqn:Hj0; [|done]. injection Hkj as <-.
    apply Forall_fmap. rewrite Hk in *. change (Forall (λ c, le_of jobLess c j0) (take k srt)).
    apply sorted_prefix_best; [done| |].
    + rewrite Hp. eapply elem_of_pending_of; [done|]. unfold Spec.eligible in Helig. by breflect.
    + intros Hin'. apply Hnot. by apply list_elem_of_fmap_2.
Qed.

(** ** The in-memory store keeps the contract of [StoreApi]

    without conditions on the records and times it is given, and without ever
    reporting an infrastructure error. *)

Lemma mem_law_key s k j :
  mem_wf s → Spec.jobs (mem_abs s) !! k = Some j → Job.ID j = k ∧ Spec.job_view j = j.
Proof.
  intros Hwf. simpl. rewrite lookup_fmap. destruct (jobs_of s !! k) as [j0|] eqn:Hj; [|done].
  intros [= <-]. split; [|done]. exact (jobs_of_key None s k j0 Hwf Hj).
Qed.

Lemma mem_law_ClaimDue s q now n w u :
  mem_wf s → makeable n → True → True →
  ∃ out e s', ClaimDue q now n w u s = Some ((out, e), s') ∧ mem_wf s' ∧
    ((∃ msg, out = [] ∧ e = Some (ErrOther msg) ∧ mem_abs s' = mem_abs s) ∨
     (∃ js, e = None ∧ Spec.claim_ok q now n (Spec.jobs (mem_abs s)) js ∧
        Spec.job_view <$> out = Spec.claim_job w u <$> js ∧
        mem_abs s' = Spec.set_jobs (Spec.claim_all w u js (Spec.jobs (mem_abs s))) (mem_abs s))).
Proof.
  intros Hwf Hn _ _. destruct (ClaimDue_run s q now n w u Hwf Hn)
    as (srt & s' & Hp & Hs & Hrun & Hwf' & Hr & Hj).
  eexists _, None, s'. split; [done|]. split; [done|]. right.
  exists (Spec.job_view <$> due_prefix now n srt).
  split; [done|]. split; [by apply due_prefix_ok; [|apply makeable_nonneg|..]|]. split.
  - rewrite <- !list_fmap_compose. by apply list_fmap_ext.
  - unfold mem_abs, view_of, raw, Spec.set_jobs. simpl. rewrite Hj, Hr. f_equal.
    by apply view_update_all.
Qed.

Lemma mem_law_Save : ∀ s j, mem_wf s → True →
    ∃ e s', Save j s = Some (e, s') ∧ mem_wf s' ∧
      ((∃ msg, e = Some (ErrOther msg) ∧ mem_abs s' = mem_abs s) ∨ (e, mem_abs s') = Spec.save j (mem_abs s)).
Proof.
  intros s j Hwf _. destruct (Save_run s j Hwf) as (s' & Hrun & Hwf' & Hraw).
  exists None, s'. split; [done|]. split; [done|]. right.
  unfold mem_abs. rewrite Hraw. unfold Spec.save, Spec.done_with, Spec.set_jobs, view_of.
  simpl. by rewrite fmap_insert.
Qed.

Lemma mem_law_Ack : ∀ s id, mem_wf s →
    ∃ e s', Ack id s = Some (e, s') ∧ mem_wf s' ∧
      ((∃ msg, e = Some (ErrOther msg) ∧ mem_abs s' = mem_abs s) ∨ (e, mem_abs s') = Spec.ack id (mem_abs s)).
Proof.
  intros s id Hwf. destruct (Ack_run s id Hwf) as (e & s' & Hrun & Hwf' & Heq).
  exists e, s'. split; [done|]. split; [done|]. right. by apply view_ack.
Qed.

Lemma mem_law_Fail : ∀ s id msg t, mem_wf s → True →
    ∃ e s', Fail id msg t s = Some (e, s') ∧ mem_wf s' ∧
      ((∃ m, e = Some (ErrOther m) ∧ mem_abs s' = mem_abs s) ∨ (e, mem_abs s') = Spec.fail id msg t (mem_abs s)).
Proof.
  intros s id msg t Hwf _. destruct (Fail_run s id msg t Hwf) as (e & s' & Hrun & Hwf' & Heq).
  exists e, s'. split; [done|]. split; [done|]. right. by apply view_fail.
Qed.

Lemma mem_law_Cancel : ∀ s id, mem_wf s →
    ∃ e s', Cancel id s = Some (e, s') ∧ mem_wf s' ∧
      ((∃ msg, e = Some (ErrOther msg) ∧ mem_abs s' = mem_abs s) ∨ (e, mem_abs s') = Spec.cancel id (mem_abs s)).
Proof.
  intros s id Hwf. destruct (Cancel_run s id Hwf) as (e & s' & Hrun & Hwf' & Heq).
  exists e, s'. split; [done|]. split; [done|]. right. by apply view_cancel.
Qed.

Lemma mem_law_Reschedule : ∀ s id t, mem_wf s → True →
    ∃ e s', Reschedule id t s = Some (e, s') ∧ mem_wf s' ∧
      ((∃ msg, e = Some (ErrOther msg) ∧ mem_abs s' = mem_abs s) ∨
       (e, mem_abs s') = Spec.reschedule id t (mem_abs s)).
Proof.
  intros s id t Hwf _. destruct (Reschedule_run s id t Hwf) as (e & s' & Hrun & Hwf' & Heq).
  exists e, s'. split; [done|]. split; [done|]. right. by apply view_reschedule.
Qed.

Lemma mem_law_Heartbeat : ∀ s w now, mem_wf s →
    ∃ e s', Heartbeat w now s = Some (e, s') ∧ mem_wf s' ∧ mem_abs s' = mem_abs s.
Proof.
  intros s w now Hwf. by exists None, s.
Qed.

Lemma mem_law_RecoverStale : ∀ s now, mem_wf s → True →
    ∃ n e s', RecoverStale now s = Some ((n, e), s') ∧ mem_wf s' ∧
      ((∃ msg, n = 0 ∧ e = Some (ErrOther msg) ∧ mem_abs s' = mem_abs s) ∨
       (e = None ∧ Spec.recovered (Spec.jobs (mem_abs s)) (Spec.jobs (mem_abs s')) n ∧
        Spec.recurring (mem_abs s') = Spec.recurring (mem_abs s))).
Proof.
  intros s now Hwf _. exists 0, None, s. split; [done|]. split; [done|]. right.
  split; [done|]. split; [|done]. exists []. split; [constructor|]. split; [done|].
  split; [by intros k ?%elem_of_nil|done].
Qed.

Lemma mem_law_UpsertRecurring : ∀ s r, mem_wf s → True →
    ∃ e s', UpsertRecurring r s = Some (e, s') ∧ mem_wf s' ∧
      ((∃ msg, e = Some (ErrOther msg) ∧ mem_abs s' = mem_abs s) ∨
       (e, mem_abs s') = Spec.upsert_recurring r (mem_abs s)).
Proof.
  intros s r Hwf _. eexists None, _. split; [done|]. split; [by apply with_recurring_wf|]. right.
  unfold mem_abs, view_of, raw, Spec.upsert_recurring, Spec.done_with, Spec.set_recurring.
  simpl. by rewrite fmap_insert.
Qed.

Lemma mem_law_ListRecurring : ∀ s, mem_wf s →
    ∃ out e s', ListRecurring s = Some ((out, e), s') ∧ mem_wf s' ∧ mem_abs s' = mem_abs s ∧
      ((∃ msg, e = Some (ErrOther msg)) ∨
       (e = None ∧ Spec.rec_view <$> out ≡ₚ (map_to_list (Spec.recurring (mem_abs s))).*2)).
Proof.
  intros s Hwf. eexists _, None, s. split; [done|]. split; [done|]. split; [done|]. right.
  split; [done|]. simpl. rewrite map_to_list_fmap.
  induction (map_to_list (recurring s)) as [|[k r] l IH]; simpl; by rewrite ?IH.
Qed.

Lemma mem_law_DeleteRecurring : ∀ s id, mem_wf s →
    ∃ e s', DeleteRecurring id s = Some (e, s') ∧ mem_wf s' ∧
      ((∃ msg, e = Some (ErrOther msg) ∧ mem_abs s' = mem_abs s) ∨
       (e, mem_abs s') = Spec.delete_recurring id (mem_abs s)).
Proof.
  intros s id Hwf. eexists None, _. split; [done|]. split; [by apply with_recurring_wf|]. right.
  unfold mem_abs, view_of, raw, Spec.delete_recurring, Spec.done_with, Spec.set_recurring.
  simpl. by rewrite fmap_delete.
Qed.

Lemma mem_law_AcquireRecurringLease : ∀ s id u w, mem_wf s → True →
    ∃ b e s', AcquireRecurringLease id u w s = Some ((b, e), s') ∧ mem_wf s' ∧ mem_abs s' = mem_abs s.
Proof.
  intros s id u w Hwf _. by exists true, None, s.
Qed.

Lemma mem_law_UpdateRecurringNextRun : ∀ s id next last, mem_wf s → True → True →
    ∃ e s', UpdateRecurringNextRun id next last s = Some (e, s') ∧ mem_wf s' ∧
      ((∃ msg, e = Some (ErrOther msg) ∧ mem_abs s' = mem_abs s) ∨
       (e, mem_abs s') = Spec.update_next_run id next last (mem_abs s)).
Proof.
  intros s id next last Hwf _ _. exists None.
  unfold UpdateRecurringNextRun. gorun.
  destruct (recurring s !! id) as [r|] eqn:Hr.
  + eexists. split; [done|]. split; [by apply with_recurring_wf|]. right.
    unfold mem_abs, view_of, raw, Spec.update_next_run, Spec.done_with, Spec.set_recurring.
    simpl. do 2 f_equal. apply map_eq. intros k.
    destruct (decide (k = id)) as [->|Hne].
    * by rewrite lookup_alter_eq, !lookup_fmap, lookup_insert_eq, Hr.
    * by rewrite lookup_alter_ne, !lookup_fmap, lookup_insert_ne by done.
  + exists s. split; [done|]. split; [done|]. right.
    unfold Spec.update_next_run, Spec.done_with, Spec.set_recurring.
    f_equal. unfold mem_abs, view_of, raw. simpl. f_equal. apply map_eq. intros k.
    destruct (decide (k = id)) as [->|Hne].
    * by rewrite lookup_alter_eq, lookup_fmap, Hr.
    * by rewrite lookup_alter_ne.
Qed.

Lemma mem_law_QueueSize : ∀ s q, mem_wf s →
    ∃ n e s', QueueSize q s = Some ((n, e), s') ∧ mem_wf s' ∧ mem_abs s' = mem_abs s ∧
      ((∃ msg, n = 0 ∧ e = Some (ErrOther msg)) ∨ (e = None ∧ n = Spec.queue_size q (mem_abs s))).
Proof.
  intros s q Hwf. eexists _, None, s. split; [by apply QueueSize_run|].
  split; [done|]. split; [done|]. right. split; [done|].
  unfold Spec.queue_size. simpl. by rewrite pending_of_view, length_fmap.
Qed.

#[export] Instance memstore_lawful : LawfulStore Store := {
  wf := mem_wf; abs := mem_abs;
  ok_job := λ _, True; ok_spec := λ _, True; ok_time := λ _, True;
  law_ended s _ Hwf := conj Hwf eq_refl;
  law_left _ s' Hwf := conj Hwf eq_refl;
  law_key := mem_law_key;
  law_Save := mem_law_Save;
  law_Ack := mem_law_Ack;
  law_Fail := mem_law_Fail;
  law_Cancel := mem_law_Cancel;
  law_Reschedule := mem_law_Reschedule;
  law_ClaimDue := mem_law_ClaimDue;
  law_Heartbeat := mem_law_Heartbeat;
  law_RecoverStale := mem_law_RecoverStale;
  law_UpsertRecurring := mem_law_UpsertRecurring;
  law_ListRecurring := mem_law_ListRecurring;
  law_DeleteRecurring := mem_law_DeleteRecurring;
  law_AcquireRecurringLease := mem_law_AcquireRecurringLease;
  law_UpdateRecurringNextRun := mem_law_UpdateRecurringNextRun;
  law_QueueSize := mem_law_QueueSize
}.
