(* ===== verification/MemStoreProps.v ===== *)
(** What the in-memory store guarantees: no panic in any sequence of calls,
    refinement of the abstract store, the exact answer of [ClaimDue], and the
    two sides of its completeness. *)

From S2P Require Import Prelude ListLib Types ContainerHeap StoreApi MemStore MemStoreFacts.
Local Open Scope Z_scope.

(** ** Sequences of calls *)

(** [ClaimDue] allocates a slice of capacity [n]. *)
Definition claims_makeable (o : op) : Prop :=
  match o with OClaim _ _ n _ _ => makeable n | _ => True end.

#[export] Instance claims_makeable_dec o : Decision (claims_makeable o).
Proof. destruct o; apply _. Defined.

(** The state a sequence of calls leads to, from an empty store. *)
Definition after_calls (os : list op) : Store :=
  match run_ops os New with Some (_, s) => s | None => New end.

Lemma run_method_refines c s :
  mem_wf s →
  ∃ e s', run_method c s = Some (e, s') ∧ mem_wf s' ∧ (e, mem_abs s') = spec_method c (mem_abs s).
Proof.
  intros Hwf. destruct c as [j|id|id msg t|id|id t|r|id|id nxt lst]; simpl.
  - destruct (Save_run s j Hwf) as (s' & Hrun & Hwf' & Hraw).
    exists None, s'. split; [done|]. split; [done|]. unfold mem_abs. rewrite Hraw.
    unfold Spec.save, Spec.done_with, Spec.set_jobs, view_of. simpl. by rewrite fmap_insert.
  - destruct (Ack_run s id Hwf) as (e & s' & Hrun & Hwf' & Hv).
    exists e, s'. split; [done|]. split; [done|]. by apply view_ack.
  - destruct (Fail_run s id msg t Hwf) as (e & s' & Hrun & Hwf' & Hv).
    exists e, s'. split; [done|]. split; [done|]. by apply view_fail.
  - destruct (Cancel_run s id Hwf) as (e & s' & Hrun & Hwf' & Hv).
    exists e, s'. split; [done|]. split; [done|]. by apply view_cancel.
  - destruct (Reschedule_run s id t Hwf) as (e & s' & Hrun & Hwf' & Hv).
    exists e, s'. split; [done|]. split; [done|]. by apply view_reschedule.
  - destruct (mem_law_UpsertRecurring s r Hwf I) as (e & s' & Hrun & ? & [(m & -> & _)|?]);
      [unfold UpsertRecurring, gbind, gmodify, gret in Hrun; congruence|eauto].
  - destruct (mem_law_DeleteRecurring s id Hwf) as (e & s' & Hrun & ? & [(m & -> & _)|?]);
      [unfold DeleteRecurring, gbind, gmodify, gret in Hrun; congruence|eauto].
  - destruct (mem_law_UpdateRecurringNextRun s id nxt lst Hwf I I)
      as (e & s' & Hrun & ? & [(m & -> & _)|?]); [|eauto].
    unfold UpdateRecurringNextRun, gbind, gget, gmodify, gret in Hrun. case_match; congruence.
Qed.

#[export] Instance memstore_local : LocalStore Store.
Proof.
  split; [done|done|done|done|done|..].
  - intros s j Hwf. destruct (run_method_refines (MSave j) s Hwf) as (e & s' & Hrun & Hwf' & He).
    simpl in He, Hrun. assert (e = None) as -> by exact (f_equal fst He).
    exists s'. change (abs s) with (mem_abs s). rewrite <- He. done.
  - intros s id Hwf. destruct (run_method_refines (MAck id) s Hwf) as (e & s' & Hrun & Hwf' & He).
    exists s'. simpl in He, Hrun. change (abs s) with (mem_abs s). rewrite <- He. done.
  - intros s id msg t Hwf.
    destruct (run_method_refines (MFail id msg t) s Hwf) as (e & s' & Hrun & Hwf' & He).
    exists s'. simpl in He, Hrun. change (abs s) with (mem_abs s). rewrite <- He. done.
  - intros s id Hwf. destruct (run_method_refines (MCancel id) s Hwf) as (e & s' & Hrun & Hwf' & He).
    exists s'. simpl in He, Hrun. change (abs s) with (mem_abs s). rewrite <- He. done.
  - intros s now Hwf. by exists s.
  - intros s r Hwf. destruct (run_method_refines (MUpsertRecurring r) s Hwf)
      as (e & s' & Hrun & Hwf' & He).
    simpl in He, Hrun. assert (e = None) as -> by exact (f_equal fst He).
    exists s'. change (abs s) with (mem_abs s). rewrite <- He. done.
  - intros s Hwf. destruct (mem_law_ListRecurring s Hwf) as (out & e & s' & Hrun & Hwf' & Ha & He).
    exists out, s'. pose proof Hrun as Hrun'. unfold ListRecurring, gbind, gget, gret in Hrun'.
    assert (e = None) as -> by congruence.
    split; [done|]. split; [done|]. split; [done|]. by destruct He as [(? & ?)|[_ ?]].
  - intros s id u w Hwf. by exists s.
  - intros s id nxt lst Hwf.
    destruct (run_method_refines (MUpdateRecurringNextRun id nxt lst) s Hwf)
      as (e & s' & Hrun & Hwf' & He).
    exists e, s'. simpl in He, Hrun. change (abs s) with (mem_abs s). rewrite <- He. done.
Qed.

Lemma op_runs o s : claims_makeable o → mem_wf s → ∃ s', run_op o s = Some (tt, s') ∧ mem_wf s'.
Proof.
  intros Ho Hwf. destruct o as [c|q now n w u|w now|now| |id u w|q]; simpl in *; unfold gbind, gret.
  - destruct (run_method_refines c s Hwf) as (e & s' & -> & Hwf' & _). eauto.
  - destruct (ClaimDue_run s q now n w u Hwf Ho) as (srt & s' & _ & _ & -> & Hwf' & _). eauto.
  - eauto.
  - eauto.
  - eauto.
  - eauto.
  - rewrite QueueSize_run by done. eauto.
Qed.

(** Otherwise it panics, if there is a heap to claim from. *)
Lemma claim_panics q now n w u s :
  ¬ makeable n → run_op (OClaim q now n w u) s = None ↔ is_Some (queues s !! q).
Proof.
  intros Hn. simpl. unfold gbind, ClaimDue, gbind, gget. destruct (queues s !! q) as [items|].
  - rewrite bool_decide_eq_false_2 by done. split; [by eexists|done].
  - split; [done|by intros []].
Qed.

Lemma calls_or_panic os s :
  mem_wf s →
  (∃ s', run_ops os s = Some (tt, s') ∧ mem_wf s') ∨
  ∃ os1 q now n w u os2 s1, os = os1 ++ OClaim q now n w u :: os2 ∧
    run_ops os1 s = Some (tt, s1) ∧ mem_wf s1 ∧ is_Some (queues s1 !! q) ∧ ¬ makeable n ∧
    run_ops os s = None.
Proof.
  revert s. induction os as [|o os IH]; intros s Hwf; [left; by exists s|].
  assert (Hcons : ∀ os, run_ops (o :: os) s = gbind (run_op o) (λ _, run_ops os) s) by done.
  destruct (run_op o s) as [[[] s1]|] eqn:Ho.
  - assert (Hwf1 : mem_wf s1).
    { destruct (decide (claims_makeable o)) as [Hm|Hm].
      - destruct (op_runs o s Hm Hwf) as (s2 & Hrun & ?). congruence.
      - destruct o as [|q now n w u| | | | |]; try done. cbn in Hm, Ho. revert Ho.
        unfold gbind, ClaimDue, gbind, gget. destruct (queues s !! q); [by rewrite bool_decide_eq_false_2|].
        by intros [= <-]. }
    rewrite Hcons. unfold gbind. rewrite Ho.
    destruct (IH s1 Hwf1) as [?|(os1 & q & now & n & w & u & os2 & s2 & -> & Hr & Hrest)]; [by left|right].
    exists (o :: os1), q, now, n, w, u, os2, s2. split; [done|]. split; [|done].
    unfold run_ops in *. simpl. unfold gbind. by rewrite Ho.
  - right. destruct (decide (claims_makeable o)) as [Hm|Hm].
    { destruct (op_runs o s Hm Hwf) as (s2 & Hrun & _). congruence. }
    destruct o as [|q now n w u| | | | |]; try done. exists [], q, now, n, w, u, os, s.
    split; [done|]. split; [done|]. split; [done|]. split; [by eapply claim_panics|]. split; [done|].
    rewrite Hcons. unfold gbind. by rewrite Ho.
Qed.

Lemma calls_wf os s :
  Forall claims_makeable os → mem_wf s → ∃ s', run_ops os s = Some (tt, s') ∧ mem_wf s'.
Proof.
  intros Hos. revert s. induction Hos as [|o os Ho Hos IH]; intros s Hwf; simpl.
  - unfold run_ops, gret. simpl. eauto.
  - destruct (op_runs o s Ho Hwf) as (s1 & Hrun & Hwf1). unfold run_ops. simpl. unfold gbind at 1.
    rewrite Hrun. by apply IH.
Qed.

Lemma after_calls_wf os : Forall claims_makeable os → mem_wf (after_calls os).
Proof.
  intros Hos. unfold after_calls. destruct (calls_wf os New Hos New_wf) as (s' & -> & Hwf). done.
Qed.

(** ** What stops a claim *)

(** Whether a job is due is decided by [RunAt] alone among jobs of equal
    priority: the first job not due has only such jobs behind it. *)
Lemma take_while_due_all now p srt :
  StronglySorted (le_of jobLess) srt → Forall (λ j, Job.Priority j = p) srt →
  ∀ j, j ∈ srt → due now j = true → j ∈ take_while (due now) srt.
Proof.
  intros Hs Hp. induction Hs as [|x srt Hs IH Hx]; intros j Hj Hd; [by apply elem_of_nil in Hj|].
  apply Forall_cons in Hp as [Hpx Hp]. simpl. destruct (due now x) eqn:Hdx.
  - apply elem_of_cons in Hj as [->|Hj]; apply elem_of_cons; [by left|right; by apply IH].
  - exfalso. apply elem_of_cons in Hj as [->|Hj]; [congruence|].
    rewrite Forall_forall in Hx, Hp. pose proof (Hx j Hj) as Hle. unfold le_of in Hle.
    apply jobLess_false in Hle. pose proof (Hp j Hj). unfold due, Time.After in *. breflect. lia.
Qed.

(** The first job of a claim order blocks the queue when it is not due. *)
Lemma due_prefix_blocked now n srt j :
  StronglySorted (le_of jobLess) srt → j ∈ srt → due now j = false →
  (∀ x, x ∈ srt → due now x = true → jobLess j x = true) → due_prefix now n srt = [].
Proof.
  intros Hs Hj Hd Hb. unfold due_prefix. destruct srt as [|x srt]; [by destruct (Z.to_nat n)|].
  simpl. destruct (due now x) eqn:Hdx; [|by destruct (Z.to_nat n)].
  apply StronglySorted_inv in Hs as [_ Hx]. exfalso.
  assert (Hjx : jobLess j x = true) by (apply Hb; [by left|done]).
  apply elem_of_cons in Hj as [->|Hj]; [congruence|].
  rewrite Forall_forall in Hx. pose proof (Hx j Hj) as Hle. unfold le_of in Hle. congruence.
Qed.

(** ** A store to try the theorems on *)

Definition demo_job (id : string) (p t : Z) : Job.t :=
  Job.set_MaxAttempts 3 (Job.set_RunAt t (Job.set_Priority p (Job.set_Queue "default"
    {| Job.ID := id; Job.Name := "job"; Job.Queue := ""; Job.Priority := 0; Job.Payload := [];
       Job.CodecName := ""; Job.RunAt := 0; Job.Attempt := 0; Job.MaxAttempts := 0;
       Job.State := StatePending; Job.Delivery := 0; Job.Timeout := 0; Job.LockedBy := "";
       Job.LockedUntil := Time.zero; Job.LastError := ""; Job.RecurringID := "";
       Job.CreatedAt := 0; Job.UpdatedAt := Time.zero; Job.catchup := false |}))).

Definition demo_calls : list op :=
  [OMethod (MSave (demo_job "a" PriorityNormal 10)); OMethod (MSave (demo_job "b" PriorityNormal 5));
   OMethod (MSave (demo_job "c" PriorityNormal 90)); OMethod (MSave (demo_job "d" PriorityNormal 7));
   OClaim "default" 6 1 "w" 100; OMethod (MReschedule "a" 3); OMethod (MCancel "d");
   OMethod (MSave (demo_job "a" PriorityNormal 4))].

Lemma demo_calls_ok : Forall claims_makeable demo_calls.
Proof. repeat constructor; by simpl. Qed.

(** A negative number, or too large a one, panics on a queue with a job, and does
    not on one nobody has saved a job in. *)
Example memstore_claim_panics :
  run_ops [OMethod (MSave (demo_job "a" PriorityNormal 10)); OClaim "default" 20 (-1) "w" 100] New = None ∧
  run_ops [OMethod (MSave (demo_job "a" PriorityNormal 10)); OClaim "default" 20 (2 ^ 41) "w" 100] New = None ∧
  is_Some (run_ops [OClaim "default" 20 (-1) "w" 100] New).
Proof. split; [vm_compute; reflexivity|]. split; [vm_compute; reflexivity|]. vm_compute. by eexists. Qed.

(** All the jobs of a concrete store, by computation. *)
Lemma jobs_forallb (P : Job.t → bool) s k j :
  forallb P ((map_to_list (jobs_of s)).*2) = true → jobs_of s !! k = Some j → P j = true.
Proof.
  intros Hall%Is_true_true Hk. rewrite forallb_True in Hall. rewrite Forall_forall in Hall.
  apply Is_true_true, Hall, list_elem_of_fmap.
  exists (k, j). split; [done|]. by apply elem_of_map_to_list.
Qed.

(** ** Properties *)

(** C14: the only call to the in-memory store that panics is a [ClaimDue], on a
    queue that has had a job, for a number of jobs that no slice can be made for
    (a negative one, or one beyond the address space): whatever the sequence of
    calls, either all of them return, or all do up to such a claim. No heap
    index is ever out of range and no pointer dangles, and each call leaves the
    object graph well formed: every pending job sits in the heap of its queue at
    the index it records, and every heap is ordered. *)
Theorem memstore_no_panic (os : list op) :
  (∃ s, run_ops os New = Some (tt, s) ∧ mem_wf s) ∨
  ∃ os1 q now n w u os2 s, os = os1 ++ OClaim q now n w u :: os2 ∧
    run_ops os1 New = Some (tt, s) ∧ mem_wf s ∧ is_Some (queues s !! q) ∧ ¬ makeable n ∧
    run_ops os New = None.
Proof. apply calls_or_panic, New_wf. Qed.

(** C15: [Save], [Ack], [Fail], [Cancel], [Reschedule] and the recurring methods
    refine the abstract store on every branch: from a well-formed state each
    returns the error the specification names (or none) and moves to a
    well-formed state that stands for the specification's next state. *)
Theorem memstore_refines (c : method) (s : Store) :
  mem_wf s →
  ∃ e s', run_method c s = Some (e, s') ∧ mem_wf s' ∧ (e, mem_abs s') = spec_method c (mem_abs s).
Proof. apply run_method_refines. Qed.

Lemma memstore_refines_witness :
  let s := after_calls demo_calls in
  ∃ e s', run_method (MFail "b" "boom" 50) s = Some (e, s') ∧ mem_wf s' ∧
          (e, mem_abs s') = spec_method (MFail "b" "boom" 50) (mem_abs s).
Proof.
  apply (memstore_refines (MFail "b" "boom" 50) (after_calls demo_calls)).
  apply after_calls_wf, demo_calls_ok.
Defined.

(** C16: [ClaimDue] returns exactly the due jobs that precede the first job not
    yet due in the claim order of the queue's pending jobs (priority, then
    [RunAt]), [n] at most, marked claimed by the worker until [lockUntil], and
    writes back those jobs and nothing else. *)
Theorem memstore_claim_exact (s : Store) (q : string) (now n : Z) (w : string) (u : Z) :
  mem_wf s → makeable n →
  ∃ srt s', srt ≡ₚ Spec.pending_of q (jobs_of s) ∧ StronglySorted (le_of jobLess) srt ∧
    let js := take (Z.to_nat n) (take_while (λ j, Job.RunAt j <=? now) srt) in
    ClaimDue q now n w u s = Some ((claimed now w u <$> js, None), s') ∧
    mem_wf s' ∧ recurring s' = recurring s ∧
    jobs_of s' = Spec.update_all (claimed now w u) js (jobs_of s).
Proof.
  intros Hwf Hn. destruct (ClaimDue_run s q now n w u Hwf Hn) as (srt & s' & Hp & Hs & Hrest).
  exists srt, s'. split; [done|]. split; [done|]. cbv zeta.
  assert (Hd : ∀ l, take_while (λ j, Job.RunAt j <=? now) l = take_while (due now) l).
  { induction l as [|j l IH]; simpl; [done|]. unfold due at 1, Time.After.
    rewrite Z.leb_antisym, IH. done. }
  rewrite Hd. exact Hrest.
Qed.

Lemma memstore_claim_exact_witness :
  let s := after_calls demo_calls in
  ∃ srt s', srt ≡ₚ Spec.pending_of "default" (jobs_of s) ∧ StronglySorted (le_of jobLess) srt ∧
    let js := take (Z.to_nat 2) (take_while (λ j, Job.RunAt j <=? 20) srt) in
    ClaimDue "default" 20 2 "w2" 200 s = Some ((claimed 20 "w2" 200 <$> js, None), s') ∧
    mem_wf s' ∧ recurring s' = recurring s ∧
    jobs_of s' = Spec.update_all (claimed 20 "w2" 200) js (jobs_of s).
Proof.
  apply (memstore_claim_exact (after_calls demo_calls) "default" 20 2 "w2" 200).
  - apply after_calls_wf, demo_calls_ok.
  - by apply (bool_decide_unpack _).
Defined.

(** head-of-line blocking. When a pending job of the queue is not due and
    precedes (by a higher priority, say) every due one, [ClaimDue] returns
    nothing and changes nothing, however many jobs are due. *)
Theorem memstore_claim_blocked (s : Store) (q : string) (now n : Z) (w : string) (u : Z)
    (k : string) (j : Job.t) :
  mem_wf s → makeable n → jobs_of s !! k = Some j → Spec.pending_in q j = true →
  now < Job.RunAt j →
  (∀ k' x, jobs_of s !! k' = Some x → Spec.eligible q now x = true → jobLess j x = true) →
  ∃ s', ClaimDue q now n w u s = Some (([], None), s') ∧ mem_wf s' ∧ raw s' = raw s.
Proof.
  intros Hwf Hn Hk Hp Hlate Hb.
  destruct (ClaimDue_run s q now n w u Hwf Hn) as (srt & s' & Hperm & Hs & Hrun & Hwf' & Hr & Hj).
  assert (Hnil : due_prefix now n srt = []).
  { apply (due_prefix_blocked now n srt j); [done| | |].
    - rewrite Hperm. by eapply elem_of_pending_of.
    - unfold due, Time.After. apply negb_false_iff, Z.ltb_lt. lia.
    - intros x Hx Hdx. rewrite Hperm in Hx. apply pending_of_elem in Hx as [Hpx [k' Hk']].
      apply (Hb k' x Hk'). unfold Spec.eligible. apply andb_true_iff. done. }
  rewrite Hnil in Hrun, Hj. exists s'. split; [done|]. split; [done|].
  unfold raw. by rewrite Hr, Hj.
Qed.

(** A job of high priority scheduled for later, and one due now. *)
Definition blocked_calls : list op :=
  [OMethod (MSave (demo_job "later" PriorityHigh 1000)); OMethod (MSave (demo_job "now" PriorityLow 1))].

Lemma memstore_claim_blocked_witness :
  let s := after_calls blocked_calls in
  Spec.eligible "default" 50 (demo_job "now" PriorityLow 1) = true ∧
  jobs_of s !! "now" = Some (demo_job "now" PriorityLow 1) ∧
  ∃ s', ClaimDue "default" 50 10 "w" 80 s = Some (([], None), s') ∧ mem_wf s' ∧ raw s' = raw s.
Proof.
  split; [reflexivity|]. split; [vm_compute; reflexivity|].
  apply (memstore_claim_blocked (after_calls blocked_calls) "default" 50 10 "w" 80 "later"
           (demo_job "later" PriorityHigh 1000)).
  - apply after_calls_wf. repeat constructor; by simpl.
  - by apply (bool_decide_unpack _).
  - vm_compute; reflexivity.
  - reflexivity.
  - reflexivity.
  - intros k' x Hk' He.
    assert (Hx : implb (Spec.eligible "default" 50 x) (jobLess (demo_job "later" PriorityHigh 1000) x) = true).
    { revert Hk'. apply (jobs_forallb (λ x, implb (Spec.eligible "default" 50 x)
        (jobLess (demo_job "later" PriorityHigh 1000) x))). vm_compute; reflexivity. }
    by rewrite He in Hx.
Defined.

(** Where the pending jobs of the queue share one priority, a claim that
    returns fewer than [n] jobs leaves no due job behind: blocking is the only
    way [ClaimDue] can fall short. *)
Theorem memstore_claim_complete (s : Store) (q : string) (now n : Z) (w : string) (u p : Z) :
  mem_wf s → makeable n →
  (∀ k j, jobs_of s !! k = Some j → Spec.pending_in q j = true → Job.Priority j = p) →
  ∃ js s', ClaimDue q now n w u s = Some ((claimed now w u <$> js, None), s') ∧
    Spec.claim_complete q now n (jobs_of s) js.
Proof.
  intros Hwf Hn Hp.
  destruct (ClaimDue_run s q now n w u Hwf Hn) as (srt & s' & Hperm & Hs & Hrun & _).
  exists (due_prefix now n srt), s'. split; [done|]. intros Hshort k j Hk He.
  assert (Hpj : Spec.pending_in q j = true ∧ due now j = true) by exact (proj1 (andb_true_iff _ _) He).
  destruct Hpj as [Hpj Hd].
  assert (Hin : j ∈ take_while (due now) srt).
  { apply (take_while_due_all now p); [done| | |done].
    - apply Forall_forall. intros x Hx. rewrite Hperm in Hx.
      apply pending_of_elem in Hx as [Hpx [k' Hk']]. by apply (Hp k').
    - rewrite Hperm. by eapply elem_of_pending_of. }
  apply makeable_nonneg in Hn. unfold due_prefix in *. rewrite length_take in Hshort. by rewrite take_ge by lia.
Qed.

Lemma memstore_claim_complete_witness :
  let s := after_calls demo_calls in
  ∃ js s', ClaimDue "default" 20 9 "w" 80 s = Some ((claimed 20 "w" 80 <$> js, None), s') ∧
    Spec.claim_complete "default" 20 9 (jobs_of s) js.
Proof.
  apply (memstore_claim_complete (after_calls demo_calls) "default" 20 9 "w" 80 PriorityNormal).
  - apply after_calls_wf. repeat constructor; by simpl.
  - by apply (bool_decide_unpack _).
  - intros k j Hk _. apply Z.eqb_eq. revert Hk.
    apply (jobs_forallb (λ j, Job.Priority j =? PriorityNormal)). vm_compute; reflexivity.
Defined.
