(* ===== verification/World.v ===== *)
(** What the scheduler's goroutines act on: the store, the user's hooks, the
    structured log, the clock and the identifier generator ([src/hooks.go],
    [src/log.go], [src/clock.go]).

    A [World] is the state a goroutine's step reads and changes. The clock is
    the [clock] given to the scheduler: its readings in order, the [n]-th call
    of [Now] returning the [n]-th. Identifiers come from [google/uuid] the same
    way. Log records are kept as data, in the order written. Hooks are the
    user's functions over a state of the user's choice; they are assumed to
    return. *)

From S2P Require Import Prelude ListLib Types StoreApi.
Local Open Scope Z_scope.
Local Open Scope go_scope.

(** [err.Error()]. *)
Definition Error (e : error) : string :=
  match e with
  | ErrJobNotFound => "goschedule: job not found"
  | ErrJobNotPending => "goschedule: job no longer pending"
  | ErrOther msg => msg
  end.

(** ** Structured logging ([log/slog]) *)

Inductive level : Type := Debug | Info | Warn | LError.

Inductive attr : Type :=
  | AString (key value : string)
  | AInt (key : string) (value : Z)
  | ATime (key : string) (value : Z)
  | ADuration (key : string) (value : Z)
  | AAny (key : string) (value : error).

Record log_record : Type := mkLog {
  log_level : level;
  log_msg : string;
  log_attrs : list attr
}.

(** ** Hooks *)

(** The functions a user may install, each optional, over the user's state. *)
Record Hooks (H : Type) : Type := mkHooks {
  OnEnqueue : option (string → string → string → H → H);
  OnStart : option (string → string → string → Z → H → H);
  OnSuccess : option (string → string → string → Z → Z → H → H);
  OnFailure : option (string → string → string → Z → error → H → H);
  OnRetry : option (string → string → string → Z → error → Z → H → H)
}.
Arguments mkHooks {H}.
Arguments OnEnqueue {H}.
Arguments OnStart {H}.
Arguments OnSuccess {H}.
Arguments OnFailure {H}.
Arguments OnRetry {H}.

(** [Hooks{}]. *)
Definition no_hooks {H} : Hooks H := mkHooks None None None None None.

(** ** The world *)

Record World (S H : Type) : Type := mkWorld {
  w_store : S;
  w_hooks : H;
  w_log : list log_record;
  w_reads : nat;
  w_uuids : nat
}.
Arguments mkWorld {S H}.
Arguments w_store {S H}.
Arguments w_hooks {S H}.
Arguments w_log {S H}.
Arguments w_reads {S H}.
Arguments w_uuids {S H}.

Section world.
Context {S H : Type}.
Implicit Types w : World S H.

Definition with_store (s : S) w : World S H :=
  mkWorld s (w_hooks w) (w_log w) (w_reads w) (w_uuids w).
Definition with_hooks (h : H) w : World S H :=
  mkWorld (w_store w) h (w_log w) (w_reads w) (w_uuids w).
Definition with_log (l : list log_record) w : World S H :=
  mkWorld (w_store w) (w_hooks w) l (w_reads w) (w_uuids w).
Definition with_reads (n : nat) w : World S H :=
  mkWorld (w_store w) (w_hooks w) (w_log w) n (w_uuids w).
Definition with_uuids (n : nat) w : World S H :=
  mkWorld (w_store w) (w_hooks w) (w_log w) (w_reads w) n.

(** A routine over the store, run on the world's. *)
Definition at_store {A} (m : GoM S A) : GoM (World S H) A :=
  λ w, match m (w_store w) with
       | Some (a, s') => Some (a, with_store s' w)
       | None => None
       end.

(** A store method, called with the context [ctx]. *)
Definition on_store `{!StoreOps S} {A} (ctx : context) (m : GoM S A) : GoM (World S H) A :=
  at_store (under ctx m).

Lemma on_store_local `{!StoreOps S, !LawfulStore S, !LocalStore S} {A} ctx (m : GoM S A) w :
  on_store ctx m w = at_store m w.
Proof. unfold on_store, at_store. by rewrite under_local. Qed.

(** [clock.Now()]. *)
Definition Now (clock : nat → Z) : GoM (World S H) Z :=
  λ w, Some (clock (w_reads w), with_reads (Datatypes.S (w_reads w)) w).

(** [uuid.NewString()]. *)
Definition NewString (uuid : nat → string) : GoM (World S H) string :=
  λ w, Some (uuid (w_uuids w), with_uuids (Datatypes.S (w_uuids w)) w).

Definition write_log (l : level) (msg : string) (attrs : list attr) : GoM (World S H) unit :=
  gmodify (λ w, with_log (w_log w ++ [mkLog l msg attrs]) w).

Definition call_hook (f : option (H → H)) : GoM (World S H) unit :=
  match f with
  | Some f => gmodify (λ w, with_hooks (f (w_hooks w)) w)
  | None => gret tt
  end.

(** *** [src/hooks.go] *)

Definition fireEnqueue (h : Hooks H) (id name queue : string) : GoM (World S H) unit :=
  call_hook ((λ f, f id name queue) <$> OnEnqueue h).
Definition fireStart (h : Hooks H) (id name queue : string) (attempt : Z)
    : GoM (World S H) unit :=
  call_hook ((λ f, f id name queue attempt) <$> OnStart h).
Definition fireSuccess (h : Hooks H) (id name queue : string) (attempt d : Z)
    : GoM (World S H) unit :=
  call_hook ((λ f, f id name queue attempt d) <$> OnSuccess h).
Definition fireFailure (h : Hooks H) (id name queue : string) (attempt : Z) (err : error)
    : GoM (World S H) unit :=
  call_hook ((λ f, f id name queue attempt err) <$> OnFailure h).
Definition fireRetry (h : Hooks H) (id name queue : string) (attempt : Z) (err : error)
    (nextAt : Z) : GoM (World S H) unit :=
  call_hook ((λ f, f id name queue attempt err nextAt) <$> OnRetry h).

(** *** [src/log.go] *)

Definition logEnqueue (id name queue : string) (runAt : Z) : GoM (World S H) unit :=
  write_log Debug "goschedule: enqueued"
    [AString "id" id; AString "name" name; AString "queue" queue; ATime "run_at" runAt].
Definition logStart (id name queue : string) (attempt : Z) : GoM (World S H) unit :=
  write_log Debug "goschedule: starting"
    [AString "id" id; AString "name" name; AString "queue" queue; AInt "attempt" attempt].
Definition logSuccess (id name queue : string) (attempt d : Z) : GoM (World S H) unit :=
  write_log Info "goschedule: succeeded"
    [AString "id" id; AString "name" name; AString "queue" queue; AInt "attempt" attempt;
     ADuration "duration" d].
Definition logFailure (id name queue : string) (attempt : Z) (err : error)
    : GoM (World S H) unit :=
  write_log LError "goschedule: failed"
    [AString "id" id; AString "name" name; AString "queue" queue; AInt "attempt" attempt;
     AAny "err" err].
Definition logRetry (id name queue : string) (attempt : Z) (err : error) (nextAt : Z)
    : GoM (World S H) unit :=
  write_log Warn "goschedule: retrying"
    [AString "id" id; AString "name" name; AString "queue" queue; AInt "attempt" attempt;
     ATime "next_at" nextAt; AAny "err" err].

(** ** Routines that leave the store alone *)

(** [m] returns without touching the store, the clock or the identifiers. *)
Definition quiet {A} (m : GoM (World S H) A) (a : A) : Prop :=
  ∀ w, ∃ w', m w = Some (a, w') ∧ w_store w' = w_store w ∧ w_reads w' = w_reads w ∧
             w_uuids w' = w_uuids w.

Lemma quiet_ret {A} (a : A) : quiet (gret a) a.
Proof. intros w. by exists w. Qed.

Lemma quiet_bind {A B} (m : GoM (World S H) A) a (k : A → GoM (World S H) B) b :
  quiet m a → quiet (k a) b → quiet (gbind m k) b.
Proof.
  intros Hm Hk w. destruct (Hm w) as (w1 & H1 & Hs1 & Hr1 & Hu1).
  destruct (Hk w1) as (w2 & H2 & Hs2 & Hr2 & Hu2).
  exists w2. unfold gbind. rewrite H1, H2. repeat split; congruence.
Qed.

Lemma quiet_log l msg attrs : quiet (write_log l msg attrs) tt.
Proof. intros w. eexists. split; [reflexivity|]. done. Qed.

Lemma quiet_hook f : quiet (call_hook f) tt.
Proof. intros w. destruct f; eexists; (split; [reflexivity|]; done). Qed.
End world.

#[export] Hint Resolve quiet_ret quiet_bind quiet_log quiet_hook : goschedule.
