(* ===== verification/Recurring.v ===== *)
(** Recurring schedules ([src/recurring.go], the runner): when a schedule fires
    next, which fires a tick produces, and what the tick writes to the store.

    [cron.ParseStandard] is the parser of [robfig/cron]; it is the parameter
    [ParseStandard], which yields a schedule's [Next] function or the text of a
    parse error. *)

From S2P Require Import Prelude ListLib Types StoreApi World.
Local Open Scope Z_scope.
Local Open Scope go_scope.

Record recurringRunner : Type := mkRunner { workerID : string; leaseEvery : Z }.

(** [maxCatchup]. *)
Definition maxCatchup : nat := 1000.

Section schedule.
Context {St H : Type}.
Variable ParseStandard : string → (Z → Z) + string.

(** [r.advance]: the activation after [from]. *)
Definition advance (spec : RecurringSpec.t) (from : Z) : GoM (World St H) Z :=
  if 0 <? RecurringSpec.Every spec then gret (Time.Add from (RecurringSpec.Every spec))
  else if negb (String.eqb (RecurringSpec.Cron spec) "") then
    match ParseStandard (RecurringSpec.Cron spec) with
    | inr msg =>
        do! write_log LError "goschedule: re-parse cron failed"
              [AString "expr" (RecurringSpec.Cron spec); AAny "err" (ErrOther msg)] in
        gret (Time.Add from Hour)
    | inl next => gret (next from)
    end
  else gret (Time.Add from Hour).

(** The loop of [r.computeFires], [i] turns left. *)
Fixpoint catchup_loop (i : nat) (spec : RecurringSpec.t) (now at_ : Z) (fires : list Z)
    : GoM (World St H) (list Z) :=
  match i with
  | O => gret fires
  | S i =>
      let! next := advance spec at_ in
      if negb (Time.After next at_) then gret fires
      else if Time.After next now then gret fires
      else catchup_loop i spec now next (fires ++ [next])
  end.

Definition computeFires (spec : RecurringSpec.t) (now : Z) : GoM (World St H) (list Z) :=
  let fires := [RecurringSpec.NextRunAt spec] in
  if negb (RecurringSpec.Catchup spec) then gret fires
  else catchup_loop maxCatchup spec now (RecurringSpec.NextRunAt spec) fires.

(** The loop of [r.nextAfter]. Nothing in the code bounds it: [None] when it
    has not stopped after [fuel] turns. *)
Fixpoint nextAfter_loop (fuel : nat) (spec : RecurringSpec.t) (now next : Z)
    : GoM (World St H) Z :=
  if Time.After next now then gret next
  else match fuel with
       | O => glift None
       | S fuel => let! next := advance spec next in nextAfter_loop fuel spec now next
       end.

Definition nextAfter (fuel : nat) (spec : RecurringSpec.t) (now : Z) : GoM (World St H) Z :=
  let! next := advance spec (RecurringSpec.NextRunAt spec) in
  nextAfter_loop fuel spec now next.

(** The job of one fire. *)
Definition fire_job (spec : RecurringSpec.t) (now fireAt : Z) (id : string) : Job.t :=
  {| Job.ID := id; Job.Name := RecurringSpec.Name spec; Job.Queue := RecurringSpec.Queue spec;
     Job.Priority := RecurringSpec.Priority spec; Job.Payload := RecurringSpec.Payload spec;
     Job.CodecName := RecurringSpec.CodecName spec; Job.RunAt := fireAt; Job.Attempt := 0;
     Job.MaxAttempts := RecurringSpec.MaxAttempts spec; Job.State := StatePending;
     Job.Delivery := RecurringSpec.Delivery spec; Job.Timeout := RecurringSpec.Timeout spec;
     Job.LockedBy := ""; Job.LockedUntil := Time.zero; Job.LastError := "";
     Job.RecurringID := RecurringSpec.ID spec; Job.CreatedAt := now;
     Job.UpdatedAt := Time.zero; Job.catchup := false |}.

End schedule.

Section runner.
Context {St H : Type} `{!StoreOps St}.
Variable ParseStandard : string → (Z → Z) + string.
Variable uuid : nat → string.

Definition save_fire (ctx : context) (spec : RecurringSpec.t) (now fireAt : Z) : GoM (World St H) unit :=
  let! id := NewString uuid in
  let! err := on_store ctx (st_Save (fire_job spec now fireAt id)) in
  match err with
  | Some e => write_log LError "goschedule: recurring save failed"
                [AString "spec" (RecurringSpec.ID spec); AAny "err" e]
  | None => gret tt
  end.

(** One turn of the loop over the listed schedules. *)
Definition run_spec (ctx : context) (fuel : nat) (r : recurringRunner) (now : Z) (spec : RecurringSpec.t)
    : GoM (World St H) unit :=
  if Time.After (RecurringSpec.NextRunAt spec) now then gret tt
  else
    let! lease := on_store ctx (st_AcquireRecurringLease (RecurringSpec.ID spec)
                              (Time.Add now (leaseEvery r)) (workerID r)) in
    match lease with
    | (true, None) =>
        let! fires := computeFires ParseStandard spec now in
        do! gfor fires (save_fire ctx spec now) in
        let! next := nextAfter ParseStandard fuel spec now in
        let! _ := on_store ctx (st_UpdateRecurringNextRun (RecurringSpec.ID spec) next now) in
        gret tt
    | _ => gret tt
    end.

(** One turn of [r.run] after the timer has fired. *)
Definition tick (ctx : context) (fuel : nat) (clock : nat → Z) (r : recurringRunner) : GoM (World St H) unit :=
  let! now := Now clock in
  let! listed := on_store ctx st_ListRecurring in
  match listed with
  | (_, Some err) => write_log LError "goschedule: recurring list failed" [AAny "err" err]
  | (specs, None) => gfor specs (run_spec ctx fuel r now)
  end.

End runner.

Section facts.
Context {St H : Type}.
Variable ParseStandard : string → (Z → Z) + string.
Local Abbreviation advance := (advance (St := St) (H := H) ParseStandard).
Local Abbreviation catchup_loop := (catchup_loop (St := St) (H := H) ParseStandard).
Local Abbreviation computeFires := (computeFires (St := St) (H := H) ParseStandard).
Local Abbreviation nextAfter_loop := (nextAfter_loop (St := St) (H := H) ParseStandard).
Local Abbreviation nextAfter := (nextAfter (St := St) (H := H) ParseStandard).

(** ** The instants of a schedule *)

(** What [advance] computes, without its log record. *)
Definition step (spec : RecurringSpec.t) (from : Z) : Z :=
  if 0 <? RecurringSpec.Every spec then from + RecurringSpec.Every spec
  else if negb (String.eqb (RecurringSpec.Cron spec) "") then
    match ParseStandard (RecurringSpec.Cron spec) with
    | inr _ => from + Hour
    | inl next => next from
    end
  else from + Hour.

(** The [i]-th instant of a schedule, counted from its recorded next run. *)
Definition instant (spec : RecurringSpec.t) (i : nat) : Z :=
  Nat.iter i (step spec) (RecurringSpec.NextRunAt spec).

(** A schedule that always has a later activation. *)
Definition progressing (spec : RecurringSpec.t) : Prop := ∀ t, t < step spec t.

Lemma instant_S spec i : instant spec (S i) = step spec (instant spec i).
Proof. done. Qed.

Lemma progressing_every spec : 0 < RecurringSpec.Every spec → progressing spec.
Proof. intros He t. unfold step. destruct (Z.ltb_spec 0 (RecurringSpec.Every spec)); lia. Qed.

Lemma instant_every spec i :
  0 < RecurringSpec.Every spec →
  instant spec i = RecurringSpec.NextRunAt spec + Z.of_nat i * RecurringSpec.Every spec.
Proof.
  intros He. induction i as [|i IH]; [unfold instant; simpl; lia|].
  rewrite instant_S, IH. unfold step. destruct (Z.ltb_spec 0 (RecurringSpec.Every spec)); lia.
Qed.

Lemma instant_lt spec i j : progressing spec → (i < j)%nat → instant spec i < instant spec j.
Proof.
  intros Hp. induction 1 as [|j _ IH]; rewrite instant_S; [apply Hp|].
  etrans; [exact IH|apply Hp].
Qed.

Lemma instant_ge spec i :
  progressing spec → RecurringSpec.NextRunAt spec + Z.of_nat i ≤ instant spec i.
Proof.
  intros Hp. induction i as [|i IH]; [unfold instant; simpl; lia|].
  rewrite instant_S. specialize (Hp (instant spec i)). lia.
Qed.

(** The first instant beyond [now]. *)
Definition first_after (spec : RecurringSpec.t) (now : Z) (k : nat) : Prop :=
  now < instant spec k ∧ ∀ i, (i < k)%nat → instant spec i ≤ now.

Lemma first_after_exists spec now : progressing spec → ∃ k, first_after spec now k.
Proof.
  intros Hp.
  assert (Hex : ∀ n, (∃ k, first_after spec now k) ∨ ∀ i, (i < n)%nat → instant spec i ≤ now).
  { induction n as [|n [?|IH]]; [right; lia|by left|].
    destruct (Z_lt_le_dec now (instant spec n)); [left; by exists n|].
    right. intros i Hi. destruct (decide (i = n)) as [->|]; [done|apply IH; lia]. }
  destruct (Hex (S (Z.to_nat (now - RecurringSpec.NextRunAt spec + 1)))) as [?|Hle]; [done|].
  specialize (Hle (Z.to_nat (now - RecurringSpec.NextRunAt spec + 1)) ltac:(lia)).
  pose proof (instant_ge spec (Z.to_nat (now - RecurringSpec.NextRunAt spec + 1)) Hp). lia.
Qed.

Lemma first_after_pos spec now k :
  RecurringSpec.NextRunAt spec ≤ now → first_after spec now k → (0 < k)%nat.
Proof. intros Hd [Hk _]. destruct k; [|lia]. unfold instant in Hk. simpl in Hk. lia. Qed.

Lemma first_after_every spec now k :
  0 < RecurringSpec.Every spec → RecurringSpec.NextRunAt spec ≤ now → first_after spec now k →
  Z.of_nat k = (now - RecurringSpec.NextRunAt spec) / RecurringSpec.Every spec + 1.
Proof.
  intros He Hd Hf. pose proof (first_after_pos _ _ _ Hd Hf) as Hk.
  destruct Hf as [Hgt Hle]. specialize (Hle (k - 1)%nat ltac:(lia)).
  rewrite instant_every in Hgt, Hle by done.
  assert ((now - RecurringSpec.NextRunAt spec) / RecurringSpec.Every spec = Z.of_nat k - 1);
    [|lia]. symmetry. apply (Z.div_unique_pos _ _ _
      (now - RecurringSpec.NextRunAt spec - (Z.of_nat k - 1) * RecurringSpec.Every spec)); nia.
Qed.

(** ** The routines, run *)

Lemma advance_quiet spec t : quiet (advance spec t) (step spec t).
Proof.
  unfold advance, step, Time.Add. repeat case_match; eauto with goschedule.
Qed.

Lemma catchup_loop_quiet i spec now k : ∀ n fires,
  progressing spec → first_after spec now k → (n < k)%nat →
  quiet (catchup_loop i spec now (instant spec n) fires)
        (fires ++ (instant spec <$> seq (S n) (min i (k - S n)))).
Proof.
  induction i as [|i IH]; intros n fires Hp Hf Hn; cbn [catchup_loop].
  { simpl. rewrite app_nil_r. apply quiet_ret. }
  eapply quiet_bind; [apply advance_quiet|]. rewrite <- instant_S.
  assert (Hadv : Time.After (instant spec (S n)) (instant spec n) = true).
  { apply Z.ltb_lt, instant_lt; [done|lia]. }
  rewrite Hadv. cbn [negb]. destruct Hf as [Hgt Hle]. destruct (decide (S n = k)) as [<-|Hne].
  - assert (Hlate : Time.After (instant spec (S n)) now = true) by by apply Z.ltb_lt.
    rewrite Hlate, Nat.sub_diag, Nat.min_0_r. simpl. rewrite app_nil_r. apply quiet_ret.
  - assert (Hdue : Time.After (instant spec (S n)) now = false).
    { apply Z.ltb_ge, Hle. lia. }
    rewrite Hdue. replace (min (S i) (k - S n)) with (S (min i (k - S (S n)))) by lia.
    assert (Happ : ∀ l, fires ++ instant spec (S n) :: l = (fires ++ [instant spec (S n)]) ++ l)
      by (intros l; by rewrite <- app_assoc).
    cbn [seq fmap list_fmap]. rewrite (Happ (_ <$> seq (S (S n)) _)).
    apply IH; [done|by split|lia].
Qed.

Lemma nextAfter_loop_quiet spec now k : ∀ fuel n,
  first_after spec now k → (n ≤ k)%nat → (k - n ≤ fuel)%nat →
  quiet (nextAfter_loop fuel spec now (instant spec n)) (instant spec k).
Proof.
  induction fuel as [|fuel IH]; intros n Hf Hn Hfuel.
  - assert (n = k) as -> by lia. simpl. destruct Hf as [Hgt _].
    assert (Hlate : Time.After (instant spec k) now = true) by by apply Z.ltb_lt.
    rewrite Hlate. apply quiet_ret.
  - cbn [nextAfter_loop]. destruct (decide (n = k)) as [->|Hne].
    + destruct Hf as [Hgt _].
      assert (Hlate : Time.After (instant spec k) now = true) by by apply Z.ltb_lt.
      rewrite Hlate. apply quiet_ret.
    + assert (Hdue : Time.After (instant spec n) now = false).
      { apply Z.ltb_ge. apply Hf. lia. }
      rewrite Hdue. eapply quiet_bind; [apply advance_quiet|]. rewrite <- instant_S.
      apply IH; [done|lia|lia].
Qed.

(** The fires of a tick: the recorded next run, and with catch-up every later
    instant up to [now], 1000 at most. *)
Definition fires_of (spec : RecurringSpec.t) (k : nat) : list Z :=
  instant spec <$> seq 0 (if RecurringSpec.Catchup spec then min k (S maxCatchup) else 1).

Lemma computeFires_quiet spec now k :
  progressing spec → RecurringSpec.NextRunAt spec ≤ now → first_after spec now k →
  quiet (computeFires spec now) (fires_of spec k).
Proof.
  intros Hp Hd Hf. pose proof (first_after_pos _ _ _ Hd Hf) as Hk. unfold computeFires, fires_of.
  destruct (RecurringSpec.Catchup spec); cbn [negb]; [|apply quiet_ret].
  replace (min k (S maxCatchup)) with (S (min maxCatchup (k - 1))) by lia.
  cbn [seq fmap list_fmap]. change (RecurringSpec.NextRunAt spec) with (instant spec 0) at 1.
  by apply (catchup_loop_quiet _ _ _ k 0 [instant spec 0]).
Qed.

Lemma nextAfter_quiet fuel spec now k :
  RecurringSpec.NextRunAt spec ≤ now → first_after spec now k → (k ≤ fuel)%nat →
  quiet (nextAfter fuel spec now) (instant spec k).
Proof.
  intros Hd Hf Hfuel. pose proof (first_after_pos _ _ _ Hd Hf) as Hk. unfold nextAfter.
  eapply quiet_bind; [apply advance_quiet|].
  change (step spec (RecurringSpec.NextRunAt spec)) with (instant spec 1).
  apply nextAfter_loop_quiet; [done|lia|lia].
Qed.

Lemma nextAfter_loop_some fuel spec now : ∀ next (w : World St H) t w',
  nextAfter_loop fuel spec now next w = Some (t, w') →
  w_store w' = w_store w ∧ w_uuids w' = w_uuids w.
Proof.
  induction fuel as [|fuel IH]; intros next w t w'; cbn [nextAfter_loop];
    destruct (Time.After next now); try (intros [= <- <-]; done); try done.
  destruct (advance_quiet spec next w) as (w1 & Hrun & Hs & _ & Hu).
  unfold gbind. rewrite Hrun. intros Hn. apply IH in Hn as [-> ->]. done.
Qed.

Lemma nextAfter_some fuel spec now (w : World St H) t w' :
  nextAfter fuel spec now w = Some (t, w') →
  w_store w' = w_store w ∧ w_uuids w' = w_uuids w.
Proof.
  unfold nextAfter, gbind.
  destruct (advance_quiet spec (RecurringSpec.NextRunAt spec) w)
    as (w1 & -> & Hs & _ & Hu).
  intros Hn. apply nextAfter_loop_some in Hn as [-> ->]. done.
Qed.

Lemma nextAfter_loop_stuck spec now : ∀ fuel n w,
  (∀ i, instant spec i ≤ now) → nextAfter_loop fuel spec now (instant spec n) w = None.
Proof.
  induction fuel as [|fuel IH]; intros n w Hle; cbn [nextAfter_loop];
    (assert (Hdue : Time.After (instant spec n) now = false) by by apply Z.ltb_ge); rewrite Hdue;
    [done|].
  destruct (advance_quiet spec (instant spec n) w) as (w' & Hrun & _).
  unfold gbind. rewrite Hrun. rewrite <- instant_S. by apply IH.
Qed.
End facts.
