(* ===== verification/RecurringProps.v ===== *)
(** What the recurring runner guarantees: the fires of a tick and the next run
    it records, when the search for the next run never ends, and the effect of
    a tick on the store. *)

From S2P Require Import Prelude ListLib Types StoreApi World Recurring.
From S2P Require Import ContainerHeap MemStore MemStoreFacts MemStoreProps.
Local Open Scope Z_scope.
Local Open Scope go_scope.

Section runner.
Context {St H : Type} `{!StoreOps St, !LawfulStore St, !LocalStore St}.
Variable ParseStandard : string → (Z → Z) + string.
Variable uuid : nat → string.
Local Abbreviation progressing := (progressing ParseStandard).
Local Abbreviation instant := (instant ParseStandard).
Local Abbreviation first_after := (first_after ParseStandard).
Local Abbreviation fires_of := (fires_of ParseStandard).

(** The jobs of a list of fires, with identifiers from the [n]-th on. *)
Fixpoint fire_jobs (spec : RecurringSpec.t) (now : Z) (n : nat) (fires : list Z) : list Job.t :=
  match fires with
  | [] => []
  | t :: fires => fire_job spec now t (uuid n) :: fire_jobs spec now (S n) fires
  end.

Definition save_all (js : list Job.t) (s : Spec.t) : Spec.t :=
  foldl (λ s j, (Spec.save j s).2) s js.

Lemma save_fires_run ctx spec now fires : ∀ w : World St H,
  wf (w_store w) →
  ∃ w', gfor fires (save_fire uuid ctx spec now) w = Some (tt, w') ∧ wf (w_store w') ∧
        abs (w_store w') = save_all (fire_jobs spec now (w_uuids w) fires) (abs (w_store w)) ∧
        w_uuids w' = (w_uuids w + length fires)%nat ∧ w_reads w' = w_reads w.
Proof.
  induction fires as [|t fires IH]; intros w Hwf; simpl.
  { exists w. unfold gret. split_and!; first [done|lia]. }
  destruct (local_Save (w_store w) (fire_job spec now t (uuid (w_uuids w))) Hwf)
    as (s' & Hs & Hwf' & Ha).
  destruct (IH (with_store s' (with_uuids (S (w_uuids w)) w)) Hwf')
    as (w' & Hrun & Hwf'' & Ha' & Hu & Hr).
  exists w'. unfold gbind at 1. unfold save_fire, NewString, gbind at 1 2. cbn.
  rewrite on_store_local. unfold at_store. cbn. rewrite Hs. cbn. split; [exact Hrun|]. split; [done|].
  split; [|split; [simpl in Hu; lia|done]]. rewrite Ha'. cbn. by rewrite Ha.
Qed.

Lemma save_all_recurring js s : Spec.recurring (save_all js s) = Spec.recurring s.
Proof. unfold save_all. revert s. induction js as [|j js IH]; intros s; simpl; [done|by rewrite IH]. Qed.

(** ** What the fires leave in the store *)

Lemma fire_jobs_ids spec now fires : ∀ n,
  Spec.ids (fire_jobs spec now n fires) = uuid <$> seq n (length fires).
Proof. induction fires as [|t fires IH]; intros n; simpl; [done|]. by rewrite IH. Qed.

Lemma fire_jobs_at spec now fires t : ∀ n,
  t ∈ fires → ∃ i, (n ≤ i < n + length fires)%nat ∧
    fire_job spec now t (uuid i) ∈ fire_jobs spec now n fires.
Proof.
  induction fires as [|t' fires IH]; intros n; simpl; [by rewrite elem_of_nil|].
  rewrite elem_of_cons. intros [->|Hin]; [exists n; split; [lia|by left]|].
  destruct (IH (S n) Hin) as (i & Hi & Hj). exists i. split; [lia|by right].
Qed.

Lemma save_all_other js k : ∀ s,
  k ∉ Spec.ids js → Spec.jobs (save_all js s) !! k = Spec.jobs s !! k.
Proof.
  unfold save_all. induction js as [|j js IH]; intros s; [done|].
  unfold Spec.ids. rewrite fmap_cons, not_elem_of_cons. intros [Hne Hk]. simpl.
  rewrite IH by done. simpl. by rewrite lookup_insert_ne.
Qed.

Lemma save_all_saved js j : ∀ s,
  NoDup (Spec.ids js) → j ∈ js → Spec.jobs (save_all js s) !! Job.ID j = Some (Spec.job_view j).
Proof.
  induction js as [|j' js IH]; intros s; [by rewrite elem_of_nil|].
  unfold Spec.ids. rewrite fmap_cons, NoDup_cons, elem_of_cons. intros [Hni Hnd] [->|Hj].
  - change (save_all (j' :: js) s) with (save_all js (Spec.save j' s).2).
    rewrite save_all_other by done. simpl. by rewrite lookup_insert_eq.
  - by apply IH.
Qed.

(** The fires of a turn are in the store after it, under identifiers of the turn. *)
Lemma turn_fires `{!Inj (=) (=) uuid} spec now n fires t id next last s :
  t ∈ fires →
  ∃ i, (n ≤ i < n + length fires)%nat ∧
    Spec.jobs (Spec.update_next_run id next last (save_all (fire_jobs spec now n fires) s)).2
      !! uuid i = Some (Spec.job_view (fire_job spec now t (uuid i))).
Proof.
  intros Ht. destruct (fire_jobs_at spec now fires t n Ht) as (i & Hi & Hj).
  exists i. split; [done|]. simpl. refine (save_all_saved _ (fire_job spec now t (uuid i)) s _ Hj).
  rewrite fire_jobs_ids. apply NoDup_fmap_2; [apply _|apply NoDup_seq].
Qed.

Lemma fires_of_mono spec k1 k2 t : (k1 ≤ k2)%nat → t ∈ fires_of spec k1 → t ∈ fires_of spec k2.
Proof.
  intros Hk. unfold Recurring.fires_of. rewrite !list_elem_of_fmap. intros (i & -> & Hi).
  exists i. split; [done|]. apply elem_of_seq in Hi. apply elem_of_seq.
  destruct (RecurringSpec.Catchup spec); lia.
Qed.

(** One schedule of a tick, on a store inside the process. *)
Lemma run_spec_run ctx fuel r now spec k (w : World St H) :
  wf (w_store w) → RecurringSpec.NextRunAt spec ≤ now → progressing spec →
  first_after spec now k → (k ≤ fuel)%nat →
  ∃ w', run_spec ParseStandard uuid ctx fuel r now spec w = Some (tt, w') ∧ wf (w_store w') ∧
    w_uuids w' = (w_uuids w + length (fires_of spec k))%nat ∧
    abs (w_store w') =
      (Spec.update_next_run (RecurringSpec.ID spec) (instant spec k) now
        (save_all (fire_jobs spec now (w_uuids w) (fires_of spec k)) (abs (w_store w)))).2.
Proof.
  intros Hwf Hd Hp Hf Hfuel. unfold run_spec.
  assert (Hdue : Time.After (RecurringSpec.NextRunAt spec) now = false) by by apply Z.ltb_ge.
  rewrite Hdue. unfold gbind at 1. rewrite on_store_local. unfold at_store at 1.
  destruct (local_AcquireRecurringLease (w_store w) (RecurringSpec.ID spec)
              (Time.Add now (leaseEvery r)) (workerID r) Hwf) as (s1 & -> & Hwf1 & Ha1).
  cbv beta iota. unfold gbind at 1.
  destruct (computeFires_quiet (St := St) (H := H) ParseStandard spec now k Hp Hd Hf
              (with_store s1 w)) as (w2 & -> & Hs2 & _ & Hu2).
  cbv beta iota. unfold gbind at 1.
  destruct (save_fires_run ctx spec now (fires_of spec k) w2) as (w3 & -> & Hwf3 & Ha3 & Hu3 & _);
    [by rewrite Hs2|].
  cbv beta iota. unfold gbind at 1.
  destruct (nextAfter_quiet (St := St) (H := H) ParseStandard fuel spec now k Hd Hf Hfuel w3)
    as (w4 & -> & Hs4 & _ & Hu4).
  cbv beta iota. unfold gbind at 1. rewrite on_store_local. unfold at_store at 1.
  destruct (local_UpdateRecurringNextRun (w_store w4) (RecurringSpec.ID spec) (instant spec k) now)
    as (e & s5 & -> & Hwf5 & Ha5); [by rewrite Hs4|].
  eexists. split; [reflexivity|]. cbn. split; [done|].
  split; [rewrite Hu4, Hu3, Hu2; done|].
  rewrite Ha5, Hs4, Ha3, Hu2, Hs2. cbn. by rewrite Ha1.
Qed.
(** A schedule the tick finds due is moved beyond [now], and one it finds ahead
    is left alone. *)
Lemma run_spec_moves ctx fuel r now spec (w : World St H) :
  wf (w_store w) → progressing spec → (∃ k, first_after spec now k ∧ (k ≤ fuel)%nat) →
  ∃ w', run_spec ParseStandard uuid ctx fuel r now spec w = Some (tt, w') ∧ wf (w_store w') ∧
    ∀ id, let old := Spec.recurring (abs (w_store w)) !! id in
          let new := Spec.recurring (abs (w_store w')) !! id in
      if decide (id = RecurringSpec.ID spec ∧ RecurringSpec.NextRunAt spec ≤ now)
      then ∃ t, now < t ∧
             new = (λ o, RecurringSpec.set_LastFireAt now (RecurringSpec.set_NextRunAt t o)) <$> old
      else new = old.
Proof.
  intros Hwf Hp (k & Hf & Hk). destruct (Z_le_gt_dec (RecurringSpec.NextRunAt spec) now) as [Hd|Hd].
  - destruct (run_spec_run ctx fuel r now spec k w Hwf Hd Hp Hf Hk) as (w' & Hrun & Hwf' & _ & Ha).
    exists w'. split; [done|]. split; [done|]. intros id. cbv zeta. rewrite Ha.
    unfold Spec.update_next_run, Spec.done_with, Spec.set_recurring. simpl.
    rewrite save_all_recurring. case_decide as Hc.
    + destruct Hc as [-> _]. exists (instant spec k). split; [apply Hf|]. by rewrite lookup_alter_eq.
    + rewrite lookup_alter_ne; [done|]. intros Hid. apply Hc. by split.
  - exists w. split; [|split; [done|]].
    + unfold run_spec. assert (Hl : Time.After (RecurringSpec.NextRunAt spec) now = true).
      { apply Z.ltb_lt. lia. }
      by rewrite Hl.
    + intros id. cbv zeta. rewrite decide_False; [done|]. lia.
Qed.

Lemma run_specs_move ctx fuel r now specs : ∀ w : World St H,
  wf (w_store w) →
  (∀ spec, spec ∈ specs → progressing spec ∧ ∃ k, first_after spec now k ∧ (k ≤ fuel)%nat) →
  ∃ w', gfor specs (run_spec ParseStandard uuid ctx fuel r now) w = Some (tt, w') ∧ wf (w_store w') ∧
    ∀ id o, Spec.recurring (abs (w_store w')) !! id = Some o →
      now < RecurringSpec.NextRunAt o ∨
      (Spec.recurring (abs (w_store w)) !! id = Some o ∧
       ∀ spec, spec ∈ specs → RecurringSpec.ID spec = id → now < RecurringSpec.NextRunAt spec).
Proof.
  induction specs as [|spec specs IH]; intros w Hwf Hall.
  { exists w. split; [done|]. split; [done|]. intros id o Ho. right. split; [done|].
    intros spec Hin. by apply elem_of_nil in Hin. }
  destruct (Hall spec ltac:(by left)) as [Hp Hk].
  destruct (run_spec_moves ctx fuel r now spec w Hwf Hp Hk) as (w1 & Hrun1 & Hwf1 & Hmove).
  destruct (IH w1 Hwf1) as (w' & Hrun & Hwf' & Hres). { intros x Hx. apply Hall. by right. }
  exists w'. simpl. unfold gbind. rewrite Hrun1. split; [done|]. split; [done|].
  intros id o Ho. destruct (Hres id o Ho) as [?|[Ho1 Hrest]]; [by left|].
  specialize (Hmove id). cbv zeta in Hmove. case_decide as Hc.
  - left. destruct Hmove as (t & Ht & Hnew). rewrite Ho1 in Hnew.
    destruct (Spec.recurring (abs (w_store w)) !! id); [|done]. injection Hnew as ->. done.
  - right. split; [by rewrite <- Hmove|]. intros x [->|Hx]%elem_of_cons Hid; [|by apply Hrest].
    destruct (Z_lt_le_dec now (RecurringSpec.NextRunAt spec)); [done|]. exfalso. apply Hc. by split.
Qed.

Lemma fuel_enough now (specs : list RecurringSpec.t) :
  (∀ spec, spec ∈ specs → progressing spec) →
  ∃ fuel0, ∀ fuel, (fuel0 ≤ fuel)%nat →
    ∀ spec, spec ∈ specs → ∃ k, first_after spec now k ∧ (k ≤ fuel)%nat.
Proof using Type.
  clear uuid.
  induction specs as [|spec specs IH]; intros Hp.
  { exists O. intros fuel _ spec Hin. by apply elem_of_nil in Hin. }
  destruct IH as [f0 Hf0]. { intros x Hx. apply Hp. by right. }
  destruct (first_after_exists ParseStandard spec now) as [k Hk]. { apply Hp. by left. }
  exists (max k f0). intros fuel Hfuel x [->|Hx]%elem_of_cons.
  - exists k. split; [done|lia].
  - apply (Hf0 fuel); [lia|done].
Qed.

(** Cron schedules without activations. *)
Lemma nextAfter_stuck (spec : RecurringSpec.t) (next : Z → Z) (now : Z) (fuel : nat)
    (w : World St H) :
  RecurringSpec.Every spec ≤ 0 → RecurringSpec.Cron spec ≠ "" →
  ParseStandard (RecurringSpec.Cron spec) = inl next → (∀ t, next t = Time.zero) →
  Time.zero ≤ now → nextAfter ParseStandard fuel spec now w = None.
Proof using Type.
  clear uuid.
  intros He Hc Hparse Hnext Hnow. unfold nextAfter, gbind.
  destruct (advance_quiet (St := St) (H := H) ParseStandard spec (RecurringSpec.NextRunAt spec) w)
    as (w' & -> & _).
  assert (Hs : ∀ t, step ParseStandard spec t = Time.zero).
  { intros t. unfold step. destruct (Z.ltb_spec 0 (RecurringSpec.Every spec)); [lia|].
    rewrite (proj2 (String.eqb_neq _ _) Hc), Hparse. simpl. apply Hnext. }
  rewrite Hs. set (spec0 := RecurringSpec.set_NextRunAt Time.zero spec).
  assert (Hz : ∀ f v n x, nextAfter_loop (St := St) (H := H) ParseStandard f spec v n x =
                          nextAfter_loop ParseStandard f spec0 v n x).
  { induction f as [|f IH]; intros v n x; cbn [nextAfter_loop]; [done|].
    destruct (Time.After n v); [done|]. unfold gbind.
    change (advance ParseStandard spec0 n x) with (advance (St := St) (H := H) ParseStandard spec n x).
    destruct (advance ParseStandard spec n x) as [[t x']|]; [apply IH|done]. }
  rewrite Hz. apply (nextAfter_loop_stuck ParseStandard spec0 now fuel 0).
  intros i. destruct i as [|i]; [done|]. rewrite instant_S.
  change (step ParseStandard spec0) with (step ParseStandard spec). by rewrite Hs.
Qed.

(** The fires of any schedule, degenerate ones included, are computed. *)
Lemma catchup_loop_total i spec now : ∀ at_ fires,
  ∃ res, quiet (catchup_loop (St := St) (H := H) ParseStandard i spec now at_ fires) res.
Proof using Type.
  clear uuid.
  induction i as [|i IH]; intros at_ fires; cbn [catchup_loop]; [eexists; apply quiet_ret|].
  set (next := step ParseStandard spec at_).
  assert (Hk : ∃ res, quiet (S := St) (H := H)
    (if negb (Time.After next at_) then gret fires
     else if Time.After next now then gret fires
     else catchup_loop ParseStandard i spec now next (fires ++ [next])) res).
  { repeat case_match; eauto using quiet_ret. }
  destruct Hk as [res Hk]. exists res. eapply quiet_bind; [apply advance_quiet|exact Hk].
Qed.

Lemma computeFires_total spec now :
  ∃ res, quiet (computeFires (St := St) (H := H) ParseStandard spec now) res.
Proof using Type.
  clear uuid.
  unfold computeFires. destruct (negb _); [eexists; apply quiet_ret|apply catchup_loop_total].
Qed.

(** A tick never gets past such a schedule. *)
Lemma run_spec_stuck ctx fuel r now spec next (w : World St H) :
  wf (w_store w) → RecurringSpec.NextRunAt spec ≤ now →
  RecurringSpec.Every spec ≤ 0 → RecurringSpec.Cron spec ≠ "" →
  ParseStandard (RecurringSpec.Cron spec) = inl next → (∀ t, next t = Time.zero) →
  Time.zero ≤ now → run_spec ParseStandard uuid ctx fuel r now spec w = None.
Proof.
  intros Hwf Hd He Hc Hparse Hnext Hnow. unfold run_spec.
  assert (Hdue : Time.After (RecurringSpec.NextRunAt spec) now = false) by by apply Z.ltb_ge.
  rewrite Hdue. unfold gbind at 1. rewrite on_store_local. unfold at_store at 1.
  destruct (local_AcquireRecurringLease (w_store w) (RecurringSpec.ID spec)
              (Time.Add now (leaseEvery r)) (workerID r) Hwf) as (s1 & -> & Hwf1 & _).
  cbv beta iota. unfold gbind at 1.
  destruct (computeFires_total spec now) as [fires Hf].
  destruct (Hf (with_store s1 w)) as (w2 & -> & Hs2 & _).
  cbv beta iota. unfold gbind at 1.
  destruct (save_fires_run ctx spec now fires w2) as (w3 & -> & _); [by rewrite Hs2|].
  cbv beta iota. unfold gbind at 1. by rewrite (nextAfter_stuck spec next).
Qed.
End runner.

(** ** Properties *)

Section properties.
Context {St H : Type} `{!StoreOps St, !LawfulStore St, !LocalStore St}.

(** C33: for a schedule that is due and has a later activation after each one, a tick
    with catch-up fires the recorded
    next run and every later instant up to [now], 1001 at most, each once and
    in order; without catch-up it fires the recorded next run only. The next
    run recorded is the first instant beyond [now], found within as many turns
    as there are instants: so the fires of successive ticks follow one another
    without a gap or a repetition as long as no more than 1001 are missed. *)
Theorem recurring_fires_exact (parse : string → (Z → Z) + string) (spec : RecurringSpec.t)
    (now : Z) :
  progressing parse spec → RecurringSpec.NextRunAt spec ≤ now →
  ∃ k, (0 < k)%nat ∧ now < instant parse spec k ∧
    (∀ i, (i < k)%nat → instant parse spec i ≤ now) ∧
    quiet (computeFires (St := St) (H := H) parse spec now)
      (instant parse spec <$> seq 0 (if RecurringSpec.Catchup spec then min k 1001 else 1)) ∧
    ∀ fuel, (k ≤ fuel)%nat →
      quiet (nextAfter (St := St) (H := H) parse fuel spec now) (instant parse spec k).
Proof.
  intros Hp Hd. destruct (first_after_exists parse spec now Hp) as [k Hf]. exists k.
  split; [by eapply first_after_pos|]. split; [apply Hf|]. split; [apply Hf|].
  split; [by apply computeFires_quiet|]. intros fuel Hfuel. by apply nextAfter_quiet.
Qed.

(** an interval schedule does not drift. Its next run is the scheduled one
    plus a whole number of intervals, the least that is beyond [now], whatever
    the delay between the schedule and the tick. *)
Theorem every_no_drift (parse : string → (Z → Z) + string) (spec : RecurringSpec.t) (now : Z)
    (fuel : nat) :
  0 < RecurringSpec.Every spec → RecurringSpec.NextRunAt spec ≤ now →
  (now - RecurringSpec.NextRunAt spec) / RecurringSpec.Every spec + 1 ≤ Z.of_nat fuel →
  quiet (nextAfter (St := St) (H := H) parse fuel spec now)
    (RecurringSpec.NextRunAt spec +
     ((now - RecurringSpec.NextRunAt spec) / RecurringSpec.Every spec + 1) *
     RecurringSpec.Every spec).
Proof.
  intros He Hd Hfuel. pose proof (progressing_every parse spec He) as Hp.
  destruct (first_after_exists parse spec now Hp) as [k Hf].
  pose proof (first_after_every parse spec now k He Hd Hf) as Hk.
  rewrite <- Hk in *. rewrite <- (instant_every parse spec k He).
  apply nextAfter_quiet; [done|done|lia].
Qed.

(** A schedule whose instants never pass [now] makes the search for the
    next run endless: it has not stopped after any number of turns. Such is a
    cron expression without activations (the 30th of February), for which the
    library's [Next] answers the zero time. *)
Theorem nextAfter_diverges (parse : string → (Z → Z) + string) (spec : RecurringSpec.t)
    (next : Z → Z) (now : Z) (fuel : nat) (w : World St H) :
  RecurringSpec.Every spec ≤ 0 → RecurringSpec.Cron spec ≠ "" →
  parse (RecurringSpec.Cron spec) = inl next → (∀ t, next t = Time.zero) →
  Time.zero ≤ now → nextAfter parse fuel spec now w = None.
Proof. intros. by eapply nextAfter_stuck. Qed.

(** with catch-up, what is missed beyond 1001 instants is dropped: those
    instants are due, no tick fires them (the next run recorded is beyond
    them), and no error is reported. *)
Theorem recurring_catchup_drops (parse : string → (Z → Z) + string) (spec : RecurringSpec.t)
    (now : Z) (i fuel : nat) (w : World St H) :
  progressing parse spec → RecurringSpec.Catchup spec = true → (1001 ≤ i ≤ fuel)%nat →
  instant parse spec i ≤ now → now < instant parse spec fuel →
  ∃ fires next w', computeFires parse spec now w = Some (fires, w') ∧ length fires = 1001%nat ∧
    (instant parse spec i ∉ fires) ∧
    quiet (nextAfter (St := St) (H := H) parse fuel spec now) next ∧ instant parse spec i < next.
Proof.
  intros Hp Hc Hi Hdue Hfuel. destruct (first_after_exists parse spec now Hp) as [k Hf].
  assert (Hle : ∀ a b, (a ≤ b)%nat → instant parse spec a ≤ instant parse spec b).
  { intros a b Hab. destruct (decide (a = b)) as [->|]; [done|].
    pose proof (instant_lt parse spec a b Hp ltac:(lia)). lia. }
  assert (Hik : (i < k)%nat).
  { destruct (decide (i < k)%nat); [done|]. pose proof (Hle k i ltac:(lia)). destruct Hf. lia. }
  assert (Hkf : (k ≤ fuel)%nat).
  { destruct (decide (k ≤ fuel)%nat); [done|]. destruct Hf as [_ Hf]. specialize (Hf fuel). lia. }
  assert (Hd : RecurringSpec.NextRunAt spec ≤ now).
  { pose proof (Hle 0%nat i ltac:(lia)) as H0. unfold instant at 1 in H0. simpl in H0. lia. }
  destruct (computeFires_quiet (St := St) (H := H) parse spec now k Hp Hd Hf w) as (w' & Hrun & _).
  exists (fires_of parse spec k), (instant parse spec k), w'.
  split; [done|]. unfold fires_of. rewrite Hc. replace (min k (S maxCatchup)) with 1001%nat by (unfold maxCatchup; lia).
  split; [by rewrite length_fmap, length_seq|]. split.
  - intros (n & Heq & Hn)%list_elem_of_fmap. apply elem_of_seq in Hn.
    pose proof (instant_lt parse spec n i Hp ltac:(lia)). lia.
  - split; [by apply nextAfter_quiet|]. by apply instant_lt.
Qed.

(** The lease does not fence a stale listing. Two runners that have both listed a
    due schedule fire it twice when the second is granted the lease too, as a
    store inside the process always does, and the others once the lease of
    the first has ended: every instant the first turn fires is then in the
    store under two identifiers, for the turn acts on the schedule as listed and
    does not read it again. *)
Theorem stale_listing_refires (parse : string → (Z → Z) + string) (uuid : nat → string) (ctx : context)
    (fuel k1 k2 : nat) (r1 r2 : recurringRunner) (now1 now2 t : Z) (spec : RecurringSpec.t)
    (w : World St H) :
  Inj (=) (=) uuid → wf (w_store w) → progressing parse spec →
  RecurringSpec.NextRunAt spec ≤ now1 → now1 ≤ now2 →
  first_after parse spec now1 k1 → first_after parse spec now2 k2 → (k2 ≤ fuel)%nat →
  t ∈ fires_of parse spec k1 →
  ∃ w1 w2 i1 i2,
    run_spec parse uuid ctx fuel r1 now1 spec w = Some (tt, w1) ∧
    run_spec parse uuid ctx fuel r2 now2 spec w1 = Some (tt, w2) ∧
    uuid i1 ≠ uuid i2 ∧
    Spec.jobs (abs (w_store w2)) !! uuid i1 = Some (Spec.job_view (fire_job spec now1 t (uuid i1))) ∧
    Spec.jobs (abs (w_store w2)) !! uuid i2 = Some (Spec.job_view (fire_job spec now2 t (uuid i2))).
Proof.
  intros Hinj Hwf Hp Hd Hle Hf1 Hf2 Hfuel Ht.
  assert (Hk : (k1 ≤ k2)%nat).
  { destruct (decide (k1 ≤ k2)%nat) as [|Hn]; [done|]. pose proof (proj2 Hf1 k2 ltac:(lia)).
    pose proof (proj1 Hf2). lia. }
  destruct (run_spec_run parse uuid ctx fuel r1 now1 spec k1 w) as (w1 & Hr1 & Hwf1 & Hu1 & Ha1);
    [done..|lia|].
  destruct (run_spec_run parse uuid ctx fuel r2 now2 spec k2 w1) as (w2 & Hr2 & _ & _ & Ha2);
    [done|lia|done..|].
  destruct (turn_fires uuid spec now1 (w_uuids w) (fires_of parse spec k1) t (RecurringSpec.ID spec)
    (instant parse spec k1) now1 (abs (w_store w)) Ht) as (i1 & Hi1 & Hj1).
  destruct (turn_fires uuid spec now2 (w_uuids w1) (fires_of parse spec k2) t (RecurringSpec.ID spec)
    (instant parse spec k2) now2 (abs (w_store w1))) as (i2 & Hi2 & Hj2).
  { by eapply fires_of_mono. }
  exists w1, w2, i1, i2. split; [done|]. split; [done|].
  assert (Hne : i1 ≠ i2) by lia. split; [by intros ?%(inj uuid)|]. rewrite Ha2. split; [|done].
  simpl. rewrite save_all_other, Ha1; [done|]. rewrite fire_jobs_ids.
  intros (i & He & Hi)%list_elem_of_fmap. apply (inj uuid) in He. apply elem_of_seq in Hi. lia.
Qed.

(** C34: on a store inside the process whose schedules all have a later activation
    after each one, a tick of the runner ends, reports no panic, and leaves
    every schedule with a next run ahead of the reading it took, so that no later
    tick fires the same instants. (It may drop instants, [recurring_catchup_drops],
    and does not end for a schedule without a later activation,
    [nextAfter_diverges].) *)
Theorem tick_advances_all (parse : string → (Z → Z) + string) (uuid : nat → string) (ctx : context)
    (clock : nat → Z) (r : recurringRunner) (w : World St H) :
  wf (w_store w) →
  (∀ id o, Spec.recurring (abs (w_store w)) !! id = Some o →
     RecurringSpec.ID o = id ∧ progressing parse o) →
  ∃ fuel0, ∀ fuel, (fuel0 ≤ fuel)%nat →
    ∃ w', tick parse uuid ctx fuel clock r w = Some (tt, w') ∧ wf (w_store w') ∧
      ∀ id o, Spec.recurring (abs (w_store w')) !! id = Some o →
        clock (w_reads w) < RecurringSpec.NextRunAt o.
Proof.
  intros Hwf Hkey. set (now := clock (w_reads w)).
  destruct (local_ListRecurring (w_store w) Hwf) as (specs & s' & Hlist & Hwf' & Ha & Hperm).
  assert (Hin : ∀ spec, spec ∈ specs → ∃ id, Spec.recurring (abs (w_store w)) !! id = Some (Spec.rec_view spec)).
  { intros spec Hspec. apply (list_elem_of_fmap_2 Spec.rec_view) in Hspec. rewrite Hperm in Hspec.
    apply list_elem_of_fmap in Hspec as ([id o] & -> & Hspec). exists id.
    by apply elem_of_map_to_list in Hspec. }
  destruct (fuel_enough parse now specs) as [fuel0 Hfuel0].
  { intros spec Hspec. destruct (Hin spec Hspec) as [id Hid]. exact (proj2 (Hkey id _ Hid)). }
  exists fuel0. intros fuel Hfuel. unfold tick, Now, gbind. cbn. rewrite on_store_local. unfold at_store. cbn. rewrite Hlist.
  destruct (run_specs_move (H := H) parse uuid ctx fuel r now specs
              (with_store s' (with_reads (S (w_reads w)) w))) as (w' & Hrun & Hwf'' & Hres).
  { done. }
  { intros spec Hspec. split; [|by apply (Hfuel0 fuel)].
    destruct (Hin spec Hspec) as [id Hid]. exact (proj2 (Hkey id _ Hid)). }
  exists w'. split; [exact Hrun|]. split; [done|]. intros id o Ho.
  destruct (Hres id o Ho) as [?|[Ho' Hrest]]; [done|]. cbn in Ho'. rewrite Ha in Ho'.
  destruct (Hkey id o Ho') as [Hid _].
  assert (Hv : o ∈ Spec.rec_view <$> specs).
  { rewrite Hperm. apply list_elem_of_fmap. exists (id, o). split; [done|].
    by apply elem_of_map_to_list. }
  apply list_elem_of_fmap in Hv as (spec & -> & Hspec). exact (Hrest spec Hspec Hid).
Qed.
End properties.

(** ** The properties on concrete schedules *)

(** A parser for the witnesses: the expression for the 30th of February never
    fires, any other fires at the hour. *)
Definition demo_parse (expr : string) : (Z → Z) + string :=
  if String.eqb expr "" then inr "empty spec string"
  else if String.eqb expr "0 0 30 2 *" then inl (λ _, Time.zero)
  else inl (λ t, (t / Hour + 1) * Hour).

Definition demo_spec (id cron : string) (every next : Z) : RecurringSpec.t :=
  {| RecurringSpec.ID := id; RecurringSpec.Name := "tick"; RecurringSpec.Queue := "default";
     RecurringSpec.Priority := PriorityNormal; RecurringSpec.Payload := [];
     RecurringSpec.CodecName := ""; RecurringSpec.Delivery := 0; RecurringSpec.Timeout := 0;
     RecurringSpec.MaxAttempts := 3; RecurringSpec.Cron := cron; RecurringSpec.Every := every;
     RecurringSpec.Catchup := true; RecurringSpec.LeaseUntil := Time.zero;
     RecurringSpec.LeasedBy := ""; RecurringSpec.NextRunAt := next;
     RecurringSpec.LastFireAt := Time.zero |}.

Definition demo_specs : Store :=
  with_recurring {["h" := demo_spec "h" "0 * * * *" 0 0; "e" := demo_spec "e" "" 7 20]} New.

Definition demo_world (s : Store) : World Store unit := mkWorld s tt [] 0 0.

Fixpoint demo_uuid (n : nat) : string :=
  match n with O => "u" | S n => "x" +:+ demo_uuid n end.

Lemma demo_hourly : progressing demo_parse (demo_spec "h" "0 * * * *" 0 0).
Proof.
  intros t. change (t < (t / Hour + 1) * Hour). unfold Hour, Minute, Second.
  change (60 * (60 * 10 ^ 9)) with 3600000000000. Z.div_mod_to_equations. lia.
Qed.

Lemma recurring_fires_exact_witness :
  ∃ k, (0 < k)%nat ∧ 3 * Hour < instant demo_parse (demo_spec "h" "0 * * * *" 0 0) k ∧
    (∀ i, (i < k)%nat → instant demo_parse (demo_spec "h" "0 * * * *" 0 0) i ≤ 3 * Hour) ∧
    quiet (computeFires (St := Store) (H := unit) demo_parse (demo_spec "h" "0 * * * *" 0 0) (3 * Hour))
      (instant demo_parse (demo_spec "h" "0 * * * *" 0 0) <$> seq 0 (min k 1001)) ∧
    ∀ fuel, (k ≤ fuel)%nat →
      quiet (nextAfter (St := Store) (H := unit) demo_parse fuel (demo_spec "h" "0 * * * *" 0 0) (3 * Hour))
        (instant demo_parse (demo_spec "h" "0 * * * *" 0 0) k).
Proof.
  apply (recurring_fires_exact (St := Store) (H := unit) demo_parse
           (demo_spec "h" "0 * * * *" 0 0) (3 * Hour)).
  - apply demo_hourly.
  - by vm_compute.
Defined.

Lemma every_no_drift_witness :
  quiet (nextAfter (St := Store) (H := unit) demo_parse 20 (demo_spec "e" "" 7 20) 100) 104.
Proof. apply (every_no_drift (St := Store) (H := unit) demo_parse (demo_spec "e" "" 7 20) 100 20); by vm_compute. Defined.

Lemma nextAfter_diverges_witness :
  nextAfter (St := Store) (H := unit) demo_parse 5000 (demo_spec "f" "0 0 30 2 *" 0 Time.zero) 0
    (demo_world New) = None.
Proof.
  apply (nextAfter_diverges (St := Store) (H := unit) demo_parse
           (demo_spec "f" "0 0 30 2 *" 0 Time.zero) (λ _, Time.zero)); try done; by vm_compute.
Defined.

Lemma recurring_catchup_drops_witness :
  ∃ fires next w',
    computeFires (St := Store) (H := unit) demo_parse (demo_spec "e" "" 1 0) 2000 (demo_world New)
      = Some (fires, w') ∧ length fires = 1001%nat ∧
    (instant demo_parse (demo_spec "e" "" 1 0) 1500 ∉ fires) ∧
    quiet (nextAfter (St := Store) (H := unit) demo_parse 2001 (demo_spec "e" "" 1 0) 2000) next ∧
    instant demo_parse (demo_spec "e" "" 1 0) 1500 < next.
Proof.
  apply (recurring_catchup_drops demo_parse (demo_spec "e" "" 1 0) 2000 1500 2001 (demo_world New)).
  - by apply progressing_every.
  - reflexivity.
  - lia.
  - rewrite instant_every by done. by vm_compute.
  - rewrite instant_every by done. by vm_compute.
Defined.

Lemma tick_advances_all_witness :
  ∃ fuel0, ∀ fuel, (fuel0 ≤ fuel)%nat →
    ∃ w', tick demo_parse demo_uuid Background fuel (λ _, 100)
            (mkRunner "w" 1000) (demo_world demo_specs) = Some (tt, w') ∧ wf (w_store w') ∧
      ∀ id o, Spec.recurring (abs (w_store w')) !! id = Some o → 100 < RecurringSpec.NextRunAt o.
Proof.
  apply (tick_advances_all (H := unit) demo_parse
           demo_uuid Background (λ _, 100) (mkRunner "w" 1000)
           (demo_world demo_specs)).
  - apply with_recurring_wf, New_wf.
  - intros id o Ho. apply elem_of_map_to_list in Ho.
    change (map_to_list (Spec.recurring (abs (w_store (demo_world demo_specs)))))
      with [("e", Spec.rec_view (demo_spec "e" "" 7 20)); ("h", Spec.rec_view (demo_spec "h" "0 * * * *" 0 0))] in Ho.
    rewrite !elem_of_cons, elem_of_nil in Ho. destruct Ho as [[= -> ->]|[[= -> ->]|[]]].
    + split; [done|]. by apply progressing_every.
    + split; [done|]. apply demo_hourly.
Defined.

Lemma demo_uuid_inj : Inj (=) (=) demo_uuid.
Proof.
  intros n. induction n as [|n IH]; intros [|m] Hnm; simpl in *; try done.
  f_equal. apply IH. by injection Hnm.
Qed.

Lemma stale_listing_refires_witness :
  ∃ w1 w2 i1 i2,
    run_spec demo_parse demo_uuid Background 5 (mkRunner "a" 1000) 115 (demo_spec "e" "" 70 40)
      (demo_world New) = Some (tt, w1) ∧
    run_spec demo_parse demo_uuid Background 5 (mkRunner "b" 1000) 130 (demo_spec "e" "" 70 40) w1 = Some (tt, w2) ∧
    demo_uuid i1 ≠ demo_uuid i2 ∧
    Spec.jobs (abs (w_store w2)) !! demo_uuid i1 =
      Some (Spec.job_view (fire_job (demo_spec "e" "" 70 40) 115 40 (demo_uuid i1))) ∧
    Spec.jobs (abs (w_store w2)) !! demo_uuid i2 =
      Some (Spec.job_view (fire_job (demo_spec "e" "" 70 40) 130 40 (demo_uuid i2))).
Proof.
  assert (Hfirst : ∀ now, 115 ≤ now ≤ 130 → first_after demo_parse (demo_spec "e" "" 70 40) now 2).
  { intros now Hnow. split; [change (now < 180); lia|]. intros [|[|i]] Hi; [change (40 ≤ now)|change (110 ≤ now)|]; lia. }
  apply (stale_listing_refires (H := unit) demo_parse demo_uuid Background 5 2 2 (mkRunner "a" 1000) (mkRunner "b" 1000)
           115 130 40 (demo_spec "e" "" 70 40) (demo_world New)).
  - apply demo_uuid_inj.
  - apply New_wf.
  - by apply progressing_every.
  - by vm_compute.
  - lia.
  - apply Hfirst. lia.
  - apply Hfirst. lia.
  - lia.
  - by left.
Defined.
