(* ===== verification/Scheduler.v ===== *)
(** The scheduler object and its public methods ([src/scheduler.go], the API
    of [src/recurring.go]): options, construction, registration, one-shot and
    recurring dispatch, cancellation. The goroutines [Start] boots are in
    [Worker], [Recurring] and [System].

    [uuid] is [google/uuid]'s generator, [ParseStandard] the parser of
    [robfig/cron]. *)

From S2P Require Import Prelude ListLib Types Backoff StoreApi World Recurring.
Local Open Scope Z_scope.
Local Open Scope go_scope.

(** ** Handlers *)

(** The value of a [panic], as [toString] tells it: a string, an error, or
    anything else with the text [fmt.Sprintf] gives it. *)
Inductive panic_value : Type :=
  | PString (s : string)
  | PError (e : error)
  | POther (formatted : string).

(** What a handler's run ends with: its result, or a panic with the stack trace
    taken when it is recovered. *)
Inductive outcome : Type :=
  | HReturn (err : option error)
  | HPanic (v : panic_value) (stack : string).

(** A handler is called with the deadline of its context, if it has one, and
    the payload. While it runs, it and the other goroutines change the world
    in any way. *)
Definition Handler (St H : Type) : Type :=
  option Z → list Byte.byte → World St H → outcome * World St H.

(** ** The object *)

(** [store] tells whether one was given: its state is the world's. The logger
    is the world's log. *)
Record Scheduler (St H : Type) : Type := mkScheduler {
  handlers : gmap string (Handler St H);
  store : bool;
  queues : gmap string Z;
  workerID : string;
  heartbeatInterval : Z;
  visibilityTimeout : Z;
  shutdownGrace : Z;
  hooks : Hooks H;
  clock : nat → Z;
  defaultBackoff : BackoffStrategy;
  pollInterval : Z
}.
Arguments mkScheduler {St H}.
Arguments handlers {St H}.
Arguments store {St H}.
Arguments queues {St H}.
Arguments workerID {St H}.
Arguments heartbeatInterval {St H}.
Arguments visibilityTimeout {St H}.
Arguments shutdownGrace {St H}.
Arguments hooks {St H}.
Arguments clock {St H}.
Arguments defaultBackoff {St H}.
Arguments pollInterval {St H}.

(** Errors of the public methods: the ones [fmt.Errorf] and [errors.New] build,
    with what they quote, and those passed on from the store. *)
Inductive api_error : Type :=
  | NoHandler (name : string)
  | UnknownQueue (queue : string)
  | EveryNotPositive
  | ParseCron (expr msg : string)
  | EncodeError (codec msg : string)
  | StoreError (e : error)
  | StoreRequired
  | QueueRequired.

(** ** Job options *)

Definition JobOption : Type := Job.t → Job.t.

Definition WithQueue (name : string) : JobOption := Job.set_Queue name.
Definition WithPriority (p : Z) : JobOption := Job.set_Priority p.
Definition WithMaxAttempts (n : Z) : JobOption := Job.set_MaxAttempts n.
Definition WithTimeout (d : Z) : JobOption := Job.set_Timeout d.
Definition withCodec (name : string) : JobOption := Job.set_CodecName name.
Definition WithCatchup (c : bool) : JobOption := Job.set_catchup c.

(** [for _, opt := range opts { opt(&j) }]. *)
Definition apply_options (opts : list JobOption) (j : Job.t) : Job.t :=
  foldl (λ j opt, opt j) j opts.

(** ** Construction *)

Section construction.
Context {St H : Type}.

Definition SchedulerOption : Type := Scheduler St H → Scheduler St H.

Definition WithStore : SchedulerOption := λ s,
  mkScheduler (handlers s) true (queues s) (workerID s) (heartbeatInterval s)
    (visibilityTimeout s) (shutdownGrace s) (hooks s) (clock s) (defaultBackoff s)
    (pollInterval s).
(** The map is copied. *)
Definition WithQueues (m : gmap string Z) : SchedulerOption := λ s,
  mkScheduler (handlers s) (store s) (map_fold (λ k v acc, <[k := v]> acc) ∅ m) (workerID s)
    (heartbeatInterval s) (visibilityTimeout s) (shutdownGrace s) (hooks s) (clock s)
    (defaultBackoff s) (pollInterval s).
Definition WithWorkerID (id : string) : SchedulerOption := λ s,
  mkScheduler (handlers s) (store s) (queues s) id (heartbeatInterval s)
    (visibilityTimeout s) (shutdownGrace s) (hooks s) (clock s) (defaultBackoff s)
    (pollInterval s).
Definition WithHeartbeatInterval (d : Z) : SchedulerOption := λ s,
  mkScheduler (handlers s) (store s) (queues s) (workerID s) d
    (visibilityTimeout s) (shutdownGrace s) (hooks s) (clock s) (defaultBackoff s)
    (pollInterval s).
Definition WithVisibilityTimeout (d : Z) : SchedulerOption := λ s,
  mkScheduler (handlers s) (store s) (queues s) (workerID s) (heartbeatInterval s) d
    (shutdownGrace s) (hooks s) (clock s) (defaultBackoff s) (pollInterval s).
Definition WithShutdownGrace (d : Z) : SchedulerOption := λ s,
  mkScheduler (handlers s) (store s) (queues s) (workerID s) (heartbeatInterval s)
    (visibilityTimeout s) d (hooks s) (clock s) (defaultBackoff s) (pollInterval s).
Definition WithHooks (h : Hooks H) : SchedulerOption := λ s,
  mkScheduler (handlers s) (store s) (queues s) (workerID s) (heartbeatInterval s)
    (visibilityTimeout s) (shutdownGrace s) h (clock s) (defaultBackoff s) (pollInterval s).
Definition WithClock (c : nat → Z) : SchedulerOption := λ s,
  mkScheduler (handlers s) (store s) (queues s) (workerID s) (heartbeatInterval s)
    (visibilityTimeout s) (shutdownGrace s) (hooks s) c (defaultBackoff s) (pollInterval s).
Definition WithDefaultBackoff (b : BackoffStrategy) : SchedulerOption := λ s,
  mkScheduler (handlers s) (store s) (queues s) (workerID s) (heartbeatInterval s)
    (visibilityTimeout s) (shutdownGrace s) (hooks s) (clock s) b (pollInterval s).
Definition WithPollInterval (d : Z) : SchedulerOption := λ s,
  mkScheduler (handlers s) (store s) (queues s) (workerID s) (heartbeatInterval s)
    (visibilityTimeout s) (shutdownGrace s) (hooks s) (clock s) (defaultBackoff s) d.

(** The scheduler before the options are applied: [numCPU] is
    [runtime.NumCPU()], [id] a fresh identifier, [realClock] the readings of
    the machine's clock. *)
Definition default_scheduler (numCPU : Z) (id : string) (realClock : nat → Z)
    : Scheduler St H :=
  mkScheduler ∅ false {["default" := numCPU]} id (10 * Second) (5 * Minute) (30 * Second)
    no_hooks realClock DefaultBackoff (1 * Second).

Definition NewScheduler (uuid : nat → string) (numCPU : Z) (realClock : nat → Z)
    (opts : list SchedulerOption) : GoM (World St H) (option (Scheduler St H) * option api_error) :=
  let! id := NewString uuid in
  let s := foldl (λ s opt, opt s) (default_scheduler numCPU id realClock) opts in
  if negb (store s) then gret (None, Some StoreRequired)
  else if (size (queues s) =? 0)%nat then gret (None, Some QueueRequired)
  else gret (Some s, None).

(** ** Registration *)

Definition Register (name : string) (h : Handler St H) (s : Scheduler St H) : Scheduler St H :=
  mkScheduler (<[name := h]> (handlers s)) (store s) (queues s) (workerID s)
    (heartbeatInterval s) (visibilityTimeout s) (shutdownGrace s) (hooks s) (clock s)
    (defaultBackoff s) (pollInterval s).

Definition IsRegistered (s : Scheduler St H) (name : string) : bool :=
  bool_decide (is_Some (handlers s !! name)).

Definition handler (s : Scheduler St H) (name : string) : option (Handler St H) :=
  handlers s !! name.
End construction.

(** ** Dispatch *)

Section dispatch.
Context {St H : Type} `{!StoreOps St}.
Variable uuid : nat → string.
Variable ParseStandard : string → (Z → Z) + string.
Implicit Types s : Scheduler St H.

(** The job [At] builds, before its options. *)
Definition new_job (id name : string) (payload : list Byte.byte) (t created : Z) : Job.t :=
  {| Job.ID := id; Job.Name := name; Job.Queue := "default"; Job.Priority := PriorityNormal;
     Job.Payload := payload; Job.CodecName := ""; Job.RunAt := t; Job.Attempt := 0;
     Job.MaxAttempts := 3; Job.State := StatePending; Job.Delivery := 0; Job.Timeout := 0;
     Job.LockedBy := ""; Job.LockedUntil := Time.zero; Job.LastError := "";
     Job.RecurringID := ""; Job.CreatedAt := created; Job.UpdatedAt := Time.zero;
     Job.catchup := false |}.

Definition At s (t : Z) (name : string) (payload : list Byte.byte) (opts : list JobOption)
    : GoM (World St H) (string * option api_error) :=
  match handler s name with
  | None => gret ("", Some (NoHandler name))
  | Some _ =>
      let! id := NewString uuid in
      let! created := World.Now (clock s) in
      let j := apply_options opts (new_job id name payload t created) in
      match queues s !! Job.Queue j with
      | None => gret ("", Some (UnknownQueue (Job.Queue j)))
      | Some _ =>
          let! err := on_store Background (st_Save j) in
          match err with
          | Some e => gret ("", Some (StoreError e))
          | None =>
              do! fireEnqueue (hooks s) (Job.ID j) (Job.Name j) (Job.Queue j) in
              do! logEnqueue (Job.ID j) (Job.Name j) (Job.Queue j) (Job.RunAt j) in
              gret (Job.ID j, None)
          end
      end
  end.

Definition Now s (name : string) (payload : list Byte.byte) (opts : list JobOption)
    : GoM (World St H) (string * option api_error) :=
  let! t := World.Now (clock s) in At s t name payload opts.

Definition After s (d : Z) (name : string) (payload : list Byte.byte) (opts : list JobOption)
    : GoM (World St H) (string * option api_error) :=
  let! t := World.Now (clock s) in At s (Time.Add t d) name payload opts.

Definition Cancel (id : string) : GoM (World St H) (option error) := on_store Background (st_Cancel id).

Definition Reschedule (id : string) (newTime : Z) : GoM (World St H) (option error) :=
  on_store Background (st_Reschedule id newTime).

(** ** Recurring dispatch *)

(** [Job{Queue: "default", Priority: PriorityNormal, MaxAttempts: 3}]. *)
Definition spec_defaults : Job.t :=
  Job.set_MaxAttempts 3 (Job.set_Priority PriorityNormal (Job.set_Queue "default" Job.zero)).

Definition buildRecurringSpec (name : string) (payload : list Byte.byte) (opts : list JobOption)
    : GoM (World St H) RecurringSpec.t :=
  let tmp := apply_options opts spec_defaults in
  let! id := NewString uuid in
  gret {| RecurringSpec.ID := id; RecurringSpec.Name := name;
          RecurringSpec.Queue := Job.Queue tmp; RecurringSpec.Priority := Job.Priority tmp;
          RecurringSpec.Payload := payload; RecurringSpec.CodecName := Job.CodecName tmp;
          RecurringSpec.Delivery := 0; RecurringSpec.Timeout := Job.Timeout tmp;
          RecurringSpec.MaxAttempts := Job.MaxAttempts tmp; RecurringSpec.Cron := "";
          RecurringSpec.Every := 0; RecurringSpec.Catchup := Job.catchup tmp;
          RecurringSpec.LeaseUntil := Time.zero; RecurringSpec.LeasedBy := "";
          RecurringSpec.NextRunAt := Time.zero; RecurringSpec.LastFireAt := Time.zero |}.

(** The end [Every] and [Cron] share. *)
Definition upsert_and_announce s (spec : RecurringSpec.t)
    : GoM (World St H) (string * option api_error) :=
  let! err := on_store Background (st_UpsertRecurring spec) in
  match err with
  | Some e => gret ("", Some (StoreError e))
  | None =>
      do! fireEnqueue (hooks s) (RecurringSpec.ID spec) (RecurringSpec.Name spec)
            (RecurringSpec.Queue spec) in
      do! logEnqueue (RecurringSpec.ID spec) (RecurringSpec.Name spec)
            (RecurringSpec.Queue spec) (RecurringSpec.NextRunAt spec) in
      gret (RecurringSpec.ID spec, None)
  end.

Definition Every s (d : Z) (name : string) (payload : list Byte.byte) (opts : list JobOption)
    : GoM (World St H) (string * option api_error) :=
  match handler s name with
  | None => gret ("", Some (NoHandler name))
  | Some _ =>
      if d <=? 0 then gret ("", Some EveryNotPositive)
      else
        let! spec := buildRecurringSpec name payload opts in
        let! now := World.Now (clock s) in
        upsert_and_announce s
          (RecurringSpec.set_NextRunAt (Time.Add now d) (RecurringSpec.set_Every d spec))
  end.

Definition Cron s (expr name : string) (payload : list Byte.byte) (opts : list JobOption)
    : GoM (World St H) (string * option api_error) :=
  match handler s name with
  | None => gret ("", Some (NoHandler name))
  | Some _ =>
      match ParseStandard expr with
      | inr msg => gret ("", Some (ParseCron expr msg))
      | inl next =>
          let! spec := buildRecurringSpec name payload opts in
          let! now := World.Now (clock s) in
          upsert_and_announce s
            (RecurringSpec.set_NextRunAt (next now) (RecurringSpec.set_Cron expr spec))
      end
  end.
End dispatch.
