(* ===== verification/Worker.v ===== *)
(** The goroutines' bodies: executing one job ([src/worker.go]), one turn of a
    dispatcher ([src/dispatcher.go]) and of the janitor ([src/janitor.go]).

    The loops around them, which [select] between the context's end and a timer
    or a channel, are the steps of [System]. *)

From S2P Require Import Prelude ListLib Types Backoff StoreApi World Scheduler.
Local Open Scope Z_scope.
Local Open Scope go_scope.

(** [toString]. *)
Definition toString (v : panic_value) : string :=
  match v with
  | PString s => s
  | PError e => Error e
  | POther formatted => formatted
  end.

Definition newline : string := String (Ascii.ascii_of_nat 10) EmptyString.

(** [panicError.Error]. *)
Definition panicError_Error (r : panic_value) (stack : string) : string :=
  "panic in handler: " +:+ toString r +:+ newline +:+ stack.

Section worker.
Context {St H : Type} `{!StoreOps St}.
Implicit Types s : Scheduler St H.

(** [safeInvoke]: a panic comes back as an error. *)
Definition safeInvoke (timeout : option Z) (h : Handler St H) (payload : list Byte.byte)
    : GoM (World St H) (option error) :=
  λ w, let (o, w') := h timeout payload w in
       match o with
       | HReturn err => Some (err, w')
       | HPanic v stack => Some (Some (ErrOther (panicError_Error v stack)), w')
       end.

(** What [executeOne] does of a handler's error. *)
Definition handle_error (ctx : context) s (j : Job.t) (attempt : Z) (err : error) : GoM (World St H) unit :=
  let maxAttempts := if Job.MaxAttempts j <=? 0 then 3 else Job.MaxAttempts j in
  if maxAttempts <=? attempt then
    let! now := World.Now (clock s) in
    let! failErr := on_store ctx (st_Fail (Job.ID j) (Error err) (Time.Add now Hour)) in
    do! (match failErr with
         | Some e => write_log LError "goschedule: fail (terminal) error" [AAny "err" e]
         | None => gret tt
         end) in
    do! fireFailure (hooks s) (Job.ID j) (Job.Name j) (Job.Queue j) attempt err in
    logFailure (Job.ID j) (Job.Name j) (Job.Queue j) attempt err
  else
    let delay := defaultBackoff s attempt in
    let! now := World.Now (clock s) in
    let nextAt := Time.Add now delay in
    let! failErr := on_store ctx (st_Fail (Job.ID j) (Error err) nextAt) in
    match failErr with
    | Some e => write_log LError "goschedule: fail (retry) error" [AAny "err" e]
    | None =>
        do! fireRetry (hooks s) (Job.ID j) (Job.Name j) (Job.Queue j) attempt err nextAt in
        logRetry (Job.ID j) (Job.Name j) (Job.Queue j) attempt err nextAt
    end.

(** What it does of a success. *)
Definition handle_success (ctx : context) s (j : Job.t) (attempt dur : Z) : GoM (World St H) unit :=
  let! ackErr := on_store ctx (st_Ack (Job.ID j)) in
  do! (match ackErr with
       | Some e => write_log LError "goschedule: ack failed" [AString "id" (Job.ID j); AAny "err" e]
       | None => gret tt
       end) in
  do! fireSuccess (hooks s) (Job.ID j) (Job.Name j) (Job.Queue j) attempt dur in
  logSuccess (Job.ID j) (Job.Name j) (Job.Queue j) attempt dur.

Definition executeOne (parent : context) s (j : Job.t) : GoM (World St H) unit :=
  match handler s (Job.Name j) with
  | None =>
      let! now := World.Now (clock s) in
      let! _ := on_store parent (st_Fail (Job.ID j) ("no handler registered for " +:+ Job.Name j)
                            (Time.Add now Hour)) in
      let attempt := wrap64 (Job.Attempt j + 1) in
      do! fireFailure (hooks s) (Job.ID j) (Job.Name j) (Job.Queue j) attempt
            (ErrOther "no handler") in
      logFailure (Job.ID j) (Job.Name j) (Job.Queue j) attempt (ErrOther "no handler")
  | Some h =>
      let timeout := if 0 <? Job.Timeout j then Some (Job.Timeout j) else None in
      let attempt := wrap64 (Job.Attempt j + 1) in
      do! fireStart (hooks s) (Job.ID j) (Job.Name j) (Job.Queue j) attempt in
      do! logStart (Job.ID j) (Job.Name j) (Job.Queue j) attempt in
      let! start := World.Now (clock s) in
      let! err := safeInvoke timeout h (Job.Payload j) in
      let! stop := World.Now (clock s) in
      let dur := Time.Sub stop start in
      match err with
      | None => handle_success parent s j attempt dur
      | Some err => handle_error parent s j attempt err
      end
  end.

(** ** Dispatcher *)

Record dispatcher : Type := mkDispatcher {
  d_queue : string;
  d_batchSize : Z;
  d_pollEvery : Z;
  d_visibility : Z;
  d_workerID : string
}.

(** The dispatcher [Start] makes for a queue. *)
Definition dispatcher_for s (queue : string) (concurrency : Z) : dispatcher :=
  mkDispatcher queue concurrency (pollInterval s) (visibilityTimeout s) (workerID s).

(** One turn, up to the jobs it goes on to send; [cancelled] is whether the
    context has ended by the time of the claim's answer. *)
Definition dispatcher_claim (ctx : context) (clk : nat → Z) (d : dispatcher) (cancelled : bool)
    : GoM (World St H) (list Job.t) :=
  let! now := World.Now clk in
  let! r := on_store ctx (st_ClaimDue (d_queue d) now (d_batchSize d) (d_workerID d)
                        (Time.Add now (d_visibility d))) in
  let (jobs, err) := r in
  do! (match err with
       | Some e => if cancelled then gret tt
                   else write_log LError "goschedule: dispatcher claim failed"
                          [AString "queue" (d_queue d); AAny "err" e]
       | None => gret tt
       end) in
  gret jobs.

(** ** Janitor *)

Definition janitor_tick (ctx : context) (clk : nat → Z) (workerID : string) : GoM (World St H) unit :=
  let! now := World.Now clk in
  let! err := on_store ctx (st_Heartbeat workerID now) in
  do! (match err with
       | Some e => write_log LError "goschedule: heartbeat failed" [AAny "err" e]
       | None => gret tt
       end) in
  let! r := on_store ctx (st_RecoverStale now) in
  match r with
  | (_, Some e) => write_log LError "goschedule: recover stale failed" [AAny "err" e]
  | (recovered, None) =>
      if 0 <? recovered
      then write_log Info "goschedule: recovered stale jobs" [AInt "count" recovered]
      else gret tt
  end.
End worker.
