(* ===== verification/WorkerProps.v ===== *)
(** What executing a job guarantees: the store's record of the job and the hook
    that fires agree on every branch, a store error never loses the job, and
    where the two sides disagree. *)

From S2P Require Import Prelude ListLib Types Backoff StoreApi World Scheduler Worker.
From S2P Require Import ContainerHeap MemStore MemStoreFacts MemStoreProps.
Local Open Scope Z_scope.
Local Open Scope go_scope.

(** ** Hook calls as events *)

Inductive event : Type :=
  | EvEnqueue (id name queue : string)
  | EvStart (id name queue : string) (attempt : Z)
  | EvSuccess (id name queue : string) (attempt d : Z)
  | EvFailure (id name queue : string) (attempt : Z) (err : error)
  | EvRetry (id name queue : string) (attempt : Z) (err : error) (nextAt : Z).

(** What the event's hook makes of the user's state. *)
Definition apply_event {H} (h : Hooks H) (e : event) (x : H) : H :=
  match e with
  | EvEnqueue id n q => match OnEnqueue h with Some f => f id n q x | None => x end
  | EvStart id n q a => match OnStart h with Some f => f id n q a x | None => x end
  | EvSuccess id n q a d => match OnSuccess h with Some f => f id n q a d x | None => x end
  | EvFailure id n q a err => match OnFailure h with Some f => f id n q a err x | None => x end
  | EvRetry id n q a err t => match OnRetry h with Some f => f id n q a err t x | None => x end
  end.

(** Hooks that write the events down. *)
Definition recording : Hooks (list event) := {|
  OnEnqueue := Some (λ id n q l, l ++ [EvEnqueue id n q]);
  OnStart := Some (λ id n q a l, l ++ [EvStart id n q a]);
  OnSuccess := Some (λ id n q a d l, l ++ [EvSuccess id n q a d]);
  OnFailure := Some (λ id n q a err l, l ++ [EvFailure id n q a err]);
  OnRetry := Some (λ id n q a err t l, l ++ [EvRetry id n q a err t])
|}.

(** The error [safeInvoke] reports. *)
Definition outcome_error (o : outcome) : option error :=
  match o with
  | HReturn err => err
  | HPanic v stack => Some (ErrOther (panicError_Error v stack))
  end.

Section worker.
Context {St H : Type} `{!StoreOps St, !LawfulStore St}.
Implicit Types s : Scheduler St H.
Implicit Types w : World St H.

Definition event_of (j : Job.t) (f : string → string → string → event) : event :=
  f (Job.ID j) (Job.Name j) (Job.Queue j).

(** A job's context is cancelled by its timeout, when it has one. *)
Definition timeout_of (j : Job.t) : option Z :=
  if 0 <? Job.Timeout j then Some (Job.Timeout j) else None.

(** The world in which the handler of [j] starts. *)
Definition started s (j : Job.t) w : World St H :=
  let attempt := wrap64 (Job.Attempt j + 1) in
  match (do! fireStart (hooks s) (Job.ID j) (Job.Name j) (Job.Queue j) attempt in
         do! logStart (Job.ID j) (Job.Name j) (Job.Queue j) attempt in
         World.Now (clock s)) w with
  | Some (_, w') => w'
  | None => w
  end.

Lemma started_facts s j w :
  w_store (started s j w) = w_store w ∧
  w_hooks (started s j w) =
    apply_event (hooks s) (event_of j (λ i n q, EvStart i n q (wrap64 (Job.Attempt j + 1))))
      (w_hooks w) ∧
  w_reads (started s j w) = S (w_reads w).
Proof. unfold started, fireStart, event_of, gbind. simpl. by destruct (OnStart (hooks s)). Qed.

(** [executeOne], up to the handler's return. *)
Lemma executeOne_runs ctx s j (h : Handler St H) w o w2 :
  handlers s !! Job.Name j = Some h →
  h (timeout_of j) (Job.Payload j) (started s j w) = (o, w2) →
  ∃ dur, executeOne ctx s j w =
    let w3 := with_reads (S (w_reads w2)) w2 in
    match outcome_error o with
    | None => handle_success ctx s j (wrap64 (Job.Attempt j + 1)) dur w3
    | Some err => handle_error ctx s j (wrap64 (Job.Attempt j + 1)) err w3
    end.
Proof.
  intros Hh Ho. exists (Time.Sub (clock s (w_reads w2)) (clock s (w_reads w))).
  unfold executeOne, handler. rewrite Hh. unfold started, gbind, fireStart, safeInvoke, timeout_of in *.
  destruct (OnStart (hooks s)); cbn in *; rewrite Ho; by destruct o as [[]|].
Qed.
(** ** The two ends, on a store that may fail *)

Lemma handle_success_run ctx s j attempt dur w :
  wf (w_store w) →
  ∃ e st w', under ctx (st_Ack (Job.ID j)) (w_store w) = Some (e, st) ∧
    handle_success ctx s j attempt dur w = Some (tt, w') ∧ w_store w' = st ∧ wf st ∧ w_uuids w' = w_uuids w ∧
    w_hooks w' =
      apply_event (hooks s) (event_of j (λ i n q, EvSuccess i n q attempt dur)) (w_hooks w) ∧
    ((∃ msg, e = Some (ErrOther msg) ∧ abs st = abs (w_store w)) ∨
     (e, abs st) = Spec.ack (Job.ID j) (abs (w_store w))).
Proof.
  intros Hwf. destruct (under_method ctx (MAck (Job.ID j)) (w_store w) Hwf I) as (e & st & Hrun & Hwf' & Hres).
  cbn [run_method spec_method] in Hrun, Hres.
  unfold handle_success, gbind, on_store, at_store, fireSuccess, event_of. rewrite Hrun.
  destruct e, (OnSuccess (hooks s)) eqn:Hh; do 3 eexists; (split; [reflexivity|]);
    (split; [reflexivity|]); cbn; rewrite ?Hh; done.
Qed.

(** The delay and the hook of a failed attempt, as the worker chooses them. *)
Definition worker_terminal (j : Job.t) (attempt : Z) : bool :=
  (if Job.MaxAttempts j <=? 0 then 3 else Job.MaxAttempts j) <=? attempt.

Definition next_attempt_at s (j : Job.t) (attempt now : Z) : Z :=
  now + (if worker_terminal j attempt then Hour else defaultBackoff s attempt).

Lemma next_attempt_ok s j attempt n :
  (∀ n d, d = Hour ∨ (∃ a, d = defaultBackoff s a) → ok_time (clock s n + d)) →
  ok_time (next_attempt_at s j attempt (clock s n)).
Proof. intros Hok. apply Hok. destruct (worker_terminal j attempt); eauto. Qed.

Definition failure_event s (j : Job.t) (attempt now : Z) (err : error) : event :=
  if worker_terminal j attempt then event_of j (λ i n q, EvFailure i n q attempt err)
  else event_of j (λ i n q, EvRetry i n q attempt err (next_attempt_at s j attempt now)).

Lemma handle_error_run ctx s j attempt err w :
  let now := clock s (w_reads w) in
  wf (w_store w) → ok_time (next_attempt_at s j attempt now) →
  ∃ e st w', under ctx (st_Fail (Job.ID j) (Error err) (next_attempt_at s j attempt now)) (w_store w) =
               Some (e, st) ∧
    handle_error ctx s j attempt err w = Some (tt, w') ∧ w_store w' = st ∧ wf st ∧ w_uuids w' = w_uuids w ∧
    w_hooks w' = (if worker_terminal j attempt || bool_decide (e = None)
                  then apply_event (hooks s) (failure_event s j attempt now err) (w_hooks w)
                  else w_hooks w) ∧
    ((∃ msg, e = Some (ErrOther msg) ∧ abs st = abs (w_store w)) ∨
     (e, abs st) = Spec.fail (Job.ID j) (Error err) (next_attempt_at s j attempt now)
                     (abs (w_store w))).
Proof.
  intros now Hwf Hok.
  destruct (under_method ctx (MFail (Job.ID j) (Error err) _) (w_store w) Hwf Hok)
    as (e & st & Hrun & Hwf' & Hres). cbn [run_method spec_method] in Hrun, Hres.
  exists e, st. unfold handle_error, failure_event, next_attempt_at, worker_terminal in *.
  destruct ((if Job.MaxAttempts j <=? 0 then 3 else Job.MaxAttempts j) <=? attempt);
    unfold gbind, on_store, at_store, World.Now, Time.Add, fireFailure, fireRetry, event_of; cbn;
    fold now; rewrite Hrun.
  - destruct e, (OnFailure (hooks s)) eqn:Hh; eexists; (split; [reflexivity|]);
      (split; [reflexivity|]); cbn; rewrite ?Hh; done.
  - destruct e, (OnRetry (hooks s)) eqn:Hh; eexists; (split; [reflexivity|]);
      (split; [reflexivity|]); cbn; rewrite ?Hh; done.
Qed.

Lemma no_handler_run ctx s j w :
  let now := clock s (w_reads w) in
  handlers s !! Job.Name j = None → wf (w_store w) → ok_time (now + Hour) →
  ∃ e st w', under ctx (st_Fail (Job.ID j) ("no handler registered for " +:+ Job.Name j) (now + Hour))
               (w_store w) = Some (e, st) ∧
    executeOne ctx s j w = Some (tt, w') ∧ w_store w' = st ∧ wf st ∧ w_uuids w' = w_uuids w ∧
    w_hooks w' = apply_event (hooks s)
      (event_of j (λ i n q, EvFailure i n q (wrap64 (Job.Attempt j + 1)) (ErrOther "no handler")))
      (w_hooks w) ∧
    ((∃ msg, e = Some (ErrOther msg) ∧ abs st = abs (w_store w)) ∨
     (e, abs st) = Spec.fail (Job.ID j) ("no handler registered for " +:+ Job.Name j) (now + Hour)
                     (abs (w_store w))).
Proof.
  intros now Hh Hwf Hok.
  destruct (under_method ctx (MFail (Job.ID j) ("no handler registered for " +:+ Job.Name j) (now + Hour))
    (w_store w) Hwf Hok) as (e & st & Hrun & Hwf' & Hres). cbn [run_method spec_method] in Hrun, Hres.
  exists e, st. unfold executeOne, handler. rewrite Hh.
  unfold gbind, on_store, at_store, World.Now, Time.Add, fireFailure, event_of. cbn. fold now. rewrite Hrun.
  destruct (OnFailure (hooks s)) eqn:Hf; eexists; (split; [reflexivity|]);
    (split; [reflexivity|]); cbn; rewrite ?Hf; done.
Qed.

(** The store's decision: what [Fail] makes of the job it holds. *)
Lemma spec_fail_claimed id msg t sp v :
  Spec.jobs sp !! id = Some v → Job.State v = StateClaimed →
  Spec.fail id msg t sp = (None, Spec.set_jobs
    (if Spec.exhausted v then delete id (Spec.jobs sp)
     else <[id := Spec.retry_job msg t v]> (Spec.jobs sp)) sp).
Proof.
  intros Hv Hc. unfold Spec.fail, Spec.done_with. rewrite Hv, Hc. simpl. by destruct (Spec.exhausted v).
Qed.

Lemma spec_ack_claimed id sp v :
  Spec.jobs sp !! id = Some v → Job.State v = StateClaimed →
  Spec.ack id sp = (None, Spec.set_jobs (delete id (Spec.jobs sp)) sp).
Proof. intros Hv Hc. unfold Spec.ack, Spec.done_with. by rewrite Hv, Hc. Qed.

(** For a job with a positive bound, worker and store decide alike. *)
Lemma decisions_agree (j v : Job.t) :
  0 < Job.MaxAttempts j → Job.MaxAttempts v = Job.MaxAttempts j →
  Job.Attempt v = Job.Attempt j →
  Spec.exhausted v = worker_terminal j (wrap64 (Job.Attempt j + 1)).
Proof.
  intros Hm Hmv Ha. unfold Spec.exhausted, worker_terminal. rewrite Hmv, Ha.
  destruct (Z.ltb_spec 0 (Job.MaxAttempts j)); [|lia].
  destruct (Z.leb_spec (Job.MaxAttempts j) 0); [lia|done].
Qed.
(** A claimed job of positive bound, on a store inside the process. *)
Lemma execute_claimed `{!LocalStore St} (ctx : context) (s : Scheduler St H) (j v : Job.t) (h : Handler St H)
    (w w2 : World St H) (o : outcome) :
  handlers s !! Job.Name j = Some h →
  h (timeout_of j) (Job.Payload j) (started s j w) = (o, w2) →
  wf (w_store w2) → Spec.jobs (abs (w_store w2)) !! Job.ID j = Some v →
  Job.State v = StateClaimed → Job.Attempt v = Job.Attempt j →
  Job.MaxAttempts v = Job.MaxAttempts j → 0 < Job.MaxAttempts j →
  let attempt := wrap64 (Job.Attempt j + 1) in
  let nextAt := clock s (S (w_reads w2)) + defaultBackoff s attempt in
  let jobs := Spec.jobs (abs (w_store w2)) in
  ∃ dur w', executeOne ctx s j w = Some (tt, w') ∧ wf (w_store w') ∧
    let jobs' := Spec.jobs (abs (w_store w')) in
    let fired e := w_hooks w' = apply_event (hooks s) (event_of j e) (w_hooks w2) in
    match outcome_error o with
    | None => jobs' = delete (Job.ID j) jobs ∧ fired (λ i n q, EvSuccess i n q attempt dur)
    | Some err =>
        if Job.MaxAttempts j <=? attempt
        then jobs' = delete (Job.ID j) jobs ∧ fired (λ i n q, EvFailure i n q attempt err)
        else jobs' = <[Job.ID j := Spec.retry_job (Error err) nextAt v]> jobs ∧
             fired (λ i n q, EvRetry i n q attempt err nextAt)
    end.
Proof.
  intros Hh Ho Hwf Hv Hc Ha Hm Hpos attempt nextAt jobs.
  destruct (executeOne_runs ctx s j h w o w2 Hh Ho) as [dur Hrun]. exists dur.
  set (w3 := with_reads (S (w_reads w2)) w2) in Hrun. rewrite Hrun.
  destruct (outcome_error o) as [err|].
  - destruct (handle_error_run ctx s j attempt err w3 Hwf (local_ok_time _))
      as (e & st & w' & Hst & Hhe & Hs' & Hwf' & _ & Hhook & _).
    destruct (local_Fail (w_store w2) (Job.ID j) (Error err)
                (next_attempt_at s j attempt (clock s (w_reads w3))) Hwf) as (st' & Hst' & _ & Habs).
    rewrite (spec_fail_claimed _ _ _ _ v Hv Hc) in Hst', Habs. simpl in Hst'.
    unfold w3 in *; cbn [w_store w_reads w_hooks with_reads] in *.
    rewrite under_local in Hst. assert (e = None ∧ st' = st) as [-> ->] by (split; congruence).
    exists w'. split; [done|]. split; [congruence|]. rewrite Hhook, Hs', Habs.
    rewrite (decisions_agree j v Hpos Hm Ha). fold attempt. rewrite orb_true_r.
    unfold failure_event, next_attempt_at, worker_terminal.
    destruct (Z.leb_spec (Job.MaxAttempts j) 0); [lia|].
    by destruct (Job.MaxAttempts j <=? attempt).
  - destruct (handle_success_run ctx s j attempt dur w3 Hwf)
      as (e & st & w' & Hst & Hhe & Hs' & Hwf' & _ & Hhook & _).
    destruct (local_Ack (w_store w2) (Job.ID j) Hwf) as (st' & Hst' & _ & Habs).
    rewrite (spec_ack_claimed _ _ v Hv Hc) in Hst', Habs. simpl in Hst'.
    unfold w3 in *; cbn [w_store w_reads w_hooks with_reads] in *.
    rewrite under_local in Hst. assert (st' = st) as -> by congruence.
    exists w'. split; [done|]. split; [congruence|]. by rewrite Hs', Habs.
Qed.
End worker.

(** ** Properties *)

Section properties.
Context {St H : Type} `{!StoreOps St, !LawfulStore St}.

(** C30: executing a job with a registered handler and a [MaxAttempts] above zero,
    that a store inside the process (one that does not fail) holds as claimed
    when the handler ends: after a success the job leaves the store and
    [OnSuccess] fires;
    after a failure (an error or a panic of the handler) with attempts left it
    is pending again, one attempt counted, at the clock's time plus the backoff
    delay, and [OnRetry] fires with that time; after the last attempt it leaves
    the store and [OnFailure] fires. The worker's decision and the store's are
    the same, whatever the handler did meanwhile to other jobs.
    ([worker_unbounded_disagrees] and [worker_no_handler] are about the other
    jobs.) *)
Theorem worker_outcome `{!LocalStore St} (ctx : context) (s : Scheduler St H) (j v : Job.t) (h : Handler St H)
    (w w2 : World St H) (o : outcome) :
  handlers s !! Job.Name j = Some h →
  h (timeout_of j) (Job.Payload j) (started s j w) = (o, w2) →
  wf (w_store w2) → Spec.jobs (abs (w_store w2)) !! Job.ID j = Some v →
  Job.State v = StateClaimed → Job.Attempt v = Job.Attempt j →
  Job.MaxAttempts v = Job.MaxAttempts j → 0 < Job.MaxAttempts j →
  let attempt := wrap64 (Job.Attempt j + 1) in
  let nextAt := clock s (S (w_reads w2)) + defaultBackoff s attempt in
  let jobs := Spec.jobs (abs (w_store w2)) in
  ∃ dur w', executeOne ctx s j w = Some (tt, w') ∧ wf (w_store w') ∧
    let jobs' := Spec.jobs (abs (w_store w')) in
    let fired e := w_hooks w' = apply_event (hooks s) (event_of j e) (w_hooks w2) in
    match outcome_error o with
    | None => jobs' = delete (Job.ID j) jobs ∧ fired (λ i n q, EvSuccess i n q attempt dur)
    | Some err =>
        if Job.MaxAttempts j <=? attempt
        then jobs' = delete (Job.ID j) jobs ∧ fired (λ i n q, EvFailure i n q attempt err)
        else jobs' = <[Job.ID j := Spec.retry_job (Error err) nextAt v]> jobs ∧
             fired (λ i n q, EvRetry i n q attempt err nextAt)
    end.
Proof. apply execute_claimed. Qed.

(** C31: on any lawful store, failures of the store included, executing a job
    returns without a panic (where the store can represent the times of the
    retries), and all it does to the stored jobs after the
    handler is nothing, one acknowledgement or one failure of that very job:
    a store error never loses it. *)
Theorem worker_robust (ctx : context) (s : Scheduler St H) (j : Job.t) (w : World St H) :
  (∀ n d, d = Hour ∨ (∃ a, d = defaultBackoff s a) → ok_time (clock s n + d)) →
  (∀ h w2 o, handlers s !! Job.Name j = Some h →
     h (timeout_of j) (Job.Payload j) (started s j w) = (o, w2) → wf (w_store w2)) →
  wf (w_store w) →
  ∃ w1 w', executeOne ctx s j w = Some (tt, w') ∧ wf (w_store w') ∧
    (w1 = match handlers s !! Job.Name j with
          | Some h => (h (timeout_of j) (Job.Payload j) (started s j w)).2
          | None => w
          end) ∧
    (abs (w_store w') = abs (w_store w1) ∨
     abs (w_store w') = (Spec.ack (Job.ID j) (abs (w_store w1))).2 ∨
     ∃ msg t, abs (w_store w') = (Spec.fail (Job.ID j) msg t (abs (w_store w1))).2).
Proof.
  intros Hok Hwfh Hwf. destruct (handlers s !! Job.Name j) as [h|] eqn:Hh.
  - destruct (h (timeout_of j) (Job.Payload j) (started s j w)) as [o w2] eqn:Ho.
    specialize (Hwfh h w2 o eq_refl Ho).
    destruct (executeOne_runs ctx s j h w o w2 Hh Ho) as [dur ->]. exists w2. cbv zeta.
    destruct (outcome_error o) as [err|].
    + destruct (handle_error_run ctx s j (wrap64 (Job.Attempt j + 1)) err
        (with_reads (S (w_reads w2)) w2) Hwfh (next_attempt_ok s j _ _ Hok)) as (e & st & w' & _ & Hr & <- & Hwf' & _ & _ & Hres).
      exists w'. split; [done|]. split; [done|]. split; [done|].
      destruct Hres as [(msg & _ & Hs)|Hs]; [by left|right; right].
      eexists _, _. exact (f_equal snd Hs).
    + destruct (handle_success_run ctx s j (wrap64 (Job.Attempt j + 1)) dur
        (with_reads (S (w_reads w2)) w2) Hwfh) as (e & st & w' & _ & Hr & <- & Hwf' & _ & _ & Hres).
      exists w'. split; [done|]. split; [done|]. split; [done|].
      destruct Hres as [(msg & _ & Hs)|Hs]; [by left|right; left]. exact (f_equal snd Hs).
  - destruct (no_handler_run ctx s j w Hh Hwf (Hok _ Hour (or_introl eq_refl))) as (e & st & w' & _ & Hr & <- & Hwf' & _ & _ & Hres).
    exists w, w'. split; [done|]. split; [done|]. split; [done|].
    destruct Hres as [(msg & _ & Hs)|Hs]; [by left|right; right]. eexists _, _. exact (f_equal snd Hs).
Qed.

(** where [MaxAttempts] is not positive the two sides disagree: from the
    third failed attempt on the worker reports a terminal failure ([OnFailure]
    fires), while the store, for which the bound is "unlimited", has put the
    job back, to run again in an hour. *)
Theorem worker_unbounded_disagrees `{!LocalStore St} (ctx : context) (s : Scheduler St H) (j v : Job.t)
    (h : Handler St H) (w w2 : World St H) (o : outcome) (err : error) :
  handlers s !! Job.Name j = Some h →
  h (timeout_of j) (Job.Payload j) (started s j w) = (o, w2) → outcome_error o = Some err →
  wf (w_store w2) → Spec.jobs (abs (w_store w2)) !! Job.ID j = Some v →
  Job.State v = StateClaimed → Job.MaxAttempts v ≤ 0 → Job.MaxAttempts j ≤ 0 →
  2 ≤ Job.Attempt j < max_int64 →
  ∃ w', executeOne ctx s j w = Some (tt, w') ∧
    w_hooks w' = apply_event (hooks s)
      (event_of j (λ i n q, EvFailure i n q (Job.Attempt j + 1) err)) (w_hooks w2) ∧
    Spec.jobs (abs (w_store w')) !! Job.ID j =
      Some (Spec.retry_job (Error err) (clock s (S (w_reads w2)) + Hour) v).
Proof.
  intros Hh Ho He Hwf Hv Hc Hmv Hmj Ha.
  destruct (executeOne_runs ctx s j h w o w2 Hh Ho) as [dur Hrun]. rewrite He in Hrun.
  assert (Hw : wrap64 (Job.Attempt j + 1) = Job.Attempt j + 1).
  { apply wrap64_id. int64_lia. }
  rewrite Hw in Hrun. set (w3 := with_reads (S (w_reads w2)) w2) in Hrun.
  destruct (handle_error_run ctx s j (Job.Attempt j + 1) err w3 Hwf (local_ok_time _))
    as (e & st & w' & Hst & Hhe & Hs' & Hwf' & _ & Hhook & _).
  destruct (local_Fail (w_store w2) (Job.ID j) (Error err)
    (next_attempt_at s j (Job.Attempt j + 1) (clock s (w_reads w3))) Hwf) as (st' & Hst' & _ & Habs).
  assert (Hexh : Spec.exhausted v = false).
  { unfold Spec.exhausted. destruct (Z.ltb_spec 0 (Job.MaxAttempts v)); [lia|done]. }
  rewrite (spec_fail_claimed _ _ _ _ v Hv Hc), Hexh in Habs.
  unfold w3 in *; cbn [w_store w_reads w_hooks with_reads] in *.
  rewrite under_local in Hst. assert (st' = st) as -> by congruence.
  assert (Hterm : worker_terminal j (Job.Attempt j + 1) = true).
  { unfold worker_terminal. destruct (Z.leb_spec (Job.MaxAttempts j) 0); [|lia].
    apply Z.leb_le. lia. }
  unfold failure_event, next_attempt_at in *. rewrite Hterm in *.
  exists w'. split; [by rewrite Hrun|]. split; [done|]. rewrite Hs', Habs. simpl.
  apply lookup_insert_eq.
Qed.

(** a job without a registered handler fires [OnFailure] with no [OnStart]
    before it, the handler never runs, and as long as it has attempts left the
    store keeps it, to be tried again in an hour. *)
Theorem worker_no_handler `{!LocalStore St} (ctx : context) (s : Scheduler St H) (j v : Job.t) (w : World St H) :
  handlers s !! Job.Name j = None → wf (w_store w) →
  Spec.jobs (abs (w_store w)) !! Job.ID j = Some v → Job.State v = StateClaimed →
  Spec.exhausted v = false →
  ∃ w', executeOne ctx s j w = Some (tt, w') ∧
    w_hooks w' = apply_event (hooks s)
      (event_of j (λ i n q, EvFailure i n q (wrap64 (Job.Attempt j + 1)) (ErrOther "no handler")))
      (w_hooks w) ∧
    Spec.jobs (abs (w_store w')) !! Job.ID j =
      Some (Spec.retry_job ("no handler registered for " +:+ Job.Name j)
              (clock s (w_reads w) + Hour) v).
Proof.
  intros Hh Hwf Hv Hc Hexh.
  destruct (no_handler_run ctx s j w Hh Hwf (local_ok_time _))
    as (e & st & w' & Hst & Hr & Hs & _ & _ & Hhook & _).
  exists w'. split; [done|]. split; [done|]. rewrite Hs.
  destruct (local_Fail (w_store w) (Job.ID j) ("no handler registered for " +:+ Job.Name j)
    (clock s (w_reads w) + Hour) Hwf) as (st' & Hst' & _ & Habs).
  rewrite (spec_fail_claimed _ _ _ _ v Hv Hc), Hexh in Habs.
  rewrite under_local in Hst. assert (st' = st) as -> by congruence. rewrite Habs. simpl. apply lookup_insert_eq.
Qed.
End properties.

(** ** The properties on a concrete scheduler *)

Definition panicking : Handler Store (list event) :=
  λ _ _ w, (HPanic (PString "boom") "goroutine 7", w).
Definition failing : Handler Store (list event) := λ _ _ w, (HReturn (Some (ErrOther "no")), w).

Definition demo_scheduler : Scheduler Store (list event) :=
  Register "job" panicking (Register "other" failing
    (WithHooks recording (default_scheduler 4 "w" (λ n, 1000 + Z.of_nat n)))).

Definition demo_claimed (max attempt : Z) : Job.t :=
  claimed 6 "w" 100 (Job.set_Attempt attempt (Job.set_MaxAttempts max (demo_job "b" PriorityNormal 5))).

(** A store holding that job, claimed. *)
Definition demo_store (max attempt : Z) : Store :=
  after_calls [OMethod (MSave (Job.set_Attempt attempt (Job.set_MaxAttempts max (demo_job "b" PriorityNormal 5))));
               OMethod (MSave (demo_job "c" PriorityNormal 90)); OClaim "default" 6 1 "w" 100].

Definition demo_exec_world (s : Store) : World Store (list event) := mkWorld s [] [] 0 0.

Lemma demo_store_wf max attempt : mem_wf (demo_store max attempt).
Proof. apply after_calls_wf. repeat constructor; by simpl. Qed.

Lemma worker_outcome_witness :
  let w := demo_exec_world (demo_store 3 0) in
  let w2 := started demo_scheduler (demo_claimed 3 0) w in
  let err := ErrOther (panicError_Error (PString "boom") "goroutine 7") in
  ∃ w', executeOne Background demo_scheduler (demo_claimed 3 0) w = Some (tt, w') ∧ mem_wf (w_store w') ∧
    (Spec.jobs (mem_abs (w_store w')) =
       <["b" := Spec.retry_job (Error err) (1002 + DefaultBackoff 1)
                 (Spec.job_view (demo_claimed 3 0))]> (Spec.jobs (mem_abs (w_store w2))) ∧
     w_hooks w' = apply_event recording (EvRetry "b" "job" "default" 1 err (1002 + DefaultBackoff 1))
                    (w_hooks w2)).
Proof.
  cbv zeta.
  destruct (worker_outcome Background demo_scheduler (demo_claimed 3 0) (Spec.job_view (demo_claimed 3 0)) panicking
    (demo_exec_world (demo_store 3 0))
    (started demo_scheduler (demo_claimed 3 0) (demo_exec_world (demo_store 3 0)))
    (HPanic (PString "boom") "goroutine 7")) as (dur & w' & Hrun & Hwf & Hres).
  - reflexivity.
  - reflexivity.
  - apply (demo_store_wf 3 0).
  - vm_compute; reflexivity.
  - vm_compute; reflexivity.
  - vm_compute; reflexivity.
  - vm_compute; reflexivity.
  - vm_compute; reflexivity.
  - exists w'. split; [exact Hrun|]. split; [exact Hwf|]. exact Hres.
Defined.

Lemma worker_robust_witness :
  let w := demo_exec_world (demo_store 3 0) in
  ∃ w1 w', executeOne Background demo_scheduler (demo_claimed 3 0) w = Some (tt, w') ∧ wf (w_store w') ∧
    (w1 = match handlers demo_scheduler !! Job.Name (demo_claimed 3 0) with
          | Some h => (h (timeout_of (demo_claimed 3 0)) (Job.Payload (demo_claimed 3 0)) (started demo_scheduler (demo_claimed 3 0) w)).2
          | None => w
          end) ∧
    (abs (w_store w') = abs (w_store w1) ∨
     abs (w_store w') = (Spec.ack (Job.ID (demo_claimed 3 0)) (abs (w_store w1))).2 ∨
     ∃ msg t, abs (w_store w') = (Spec.fail (Job.ID (demo_claimed 3 0)) msg t (abs (w_store w1))).2).
Proof.
  apply (worker_robust Background demo_scheduler (demo_claimed 3 0) (demo_exec_world (demo_store 3 0))).
  - intros n d _. exact I.
  - intros h w2 o Hh Ho. assert (h = panicking) as ->.
    { vm_compute in Hh. injection Hh as <-. reflexivity. }
    injection Ho as _ <-. apply (demo_store_wf 3 0).
  - apply (demo_store_wf 3 0).
Defined.

Lemma worker_unbounded_disagrees_witness :
  let w := demo_exec_world (demo_store 0 2) in
  let w2 := started demo_scheduler (demo_claimed 0 2) w in
  let err := ErrOther (panicError_Error (PString "boom") "goroutine 7") in
  ∃ w', executeOne Background demo_scheduler (demo_claimed 0 2) w = Some (tt, w') ∧
    w_hooks w' = apply_event recording (EvFailure "b" "job" "default" 3 err) (w_hooks w2) ∧
    Spec.jobs (mem_abs (w_store w')) !! "b" =
      Some (Spec.retry_job (Error err) (1002 + Hour) (Spec.job_view (demo_claimed 0 2))).
Proof.
  cbv zeta. destruct (worker_unbounded_disagrees Background demo_scheduler (demo_claimed 0 2)
    (Spec.job_view (demo_claimed 0 2)) panicking (demo_exec_world (demo_store 0 2))
    (started demo_scheduler (demo_claimed 0 2) (demo_exec_world (demo_store 0 2)))
    (HPanic (PString "boom") "goroutine 7")
    (ErrOther (panicError_Error (PString "boom") "goroutine 7")))
    as (w' & Hrun & Hhook & Hjob).
  - reflexivity.
  - reflexivity.
  - reflexivity.
  - apply (demo_store_wf 0 2).
  - vm_compute; reflexivity.
  - vm_compute; reflexivity.
  - by vm_compute.
  - by vm_compute.
  - by vm_compute.
  - exists w'. split; [exact Hrun|]. split; [exact Hhook|exact Hjob].
Defined.

Definition no_handlers : Scheduler Store (list event) :=
  WithHooks recording (default_scheduler 4 "w" (λ n, 1000 + Z.of_nat n)).

Lemma worker_no_handler_witness :
  let w := demo_exec_world (demo_store 3 0) in
  ∃ w', executeOne Background no_handlers (demo_claimed 3 0) w = Some (tt, w') ∧
    w_hooks w' = [EvFailure "b" "job" "default" 1 (ErrOther "no handler")] ∧
    Spec.jobs (mem_abs (w_store w')) !! "b" =
      Some (Spec.retry_job "no handler registered for job" (1000 + Hour)
              (Spec.job_view (demo_claimed 3 0))).
Proof.
  cbv zeta. destruct (worker_no_handler Background no_handlers (demo_claimed 3 0) (Spec.job_view (demo_claimed 3 0))
           (demo_exec_world (demo_store 3 0))) as (w' & Hrun & Hhook & Hjob).
  - reflexivity.
  - apply (demo_store_wf 3 0).
  - vm_compute; reflexivity.
  - vm_compute; reflexivity.
  - vm_compute; reflexivity.
  - exists w'. split; [exact Hrun|]. split; [exact Hhook|exact Hjob].
Defined.
