(* ===== verification/SchedulerProps.v ===== *)
(** What the public methods guarantee: construction, dispatch on every branch,
    cancelling what was dispatched, and what recurring dispatch lets through. *)

From S2P Require Import Prelude ListLib Types Backoff StoreApi ContainerHeap MemStore MemStoreFacts.
From S2P Require Import MemStoreProps World Recurring RecurringProps Scheduler Worker WorkerProps.
Local Open Scope Z_scope.
Local Open Scope go_scope.

(** The built-in options, with an [int] where they take one. They keep the
    identity and the state of a job. *)
Inductive builtin : JobOption → Prop :=
  | builtin_queue q : builtin (WithQueue q)
  | builtin_priority p : builtin (WithPriority p)
  | builtin_attempts n : in_int64 n → builtin (WithMaxAttempts n)
  | builtin_timeout d : builtin (WithTimeout d)
  | builtin_codec c : builtin (withCodec c)
  | builtin_catchup b : builtin (WithCatchup b).

Lemma builtin_keeps opts j :
  Forall builtin opts →
  Job.ID (apply_options opts j) = Job.ID j ∧ Job.State (apply_options opts j) = Job.State j ∧
  Job.Name (apply_options opts j) = Job.Name j ∧ Job.RunAt (apply_options opts j) = Job.RunAt j ∧
  Job.Attempt (apply_options opts j) = Job.Attempt j.
Proof.
  unfold apply_options. intros Hopts. revert j. induction Hopts as [|opt opts Ho _ IH]; intros j; simpl.
  - done.
  - destruct (IH (opt j)) as (-> & -> & -> & -> & ->). by destruct Ho.
Qed.

Lemma builtin_attempts_int opts j :
  Forall builtin opts → in_int64 (Job.MaxAttempts j) →
  in_int64 (Job.MaxAttempts (apply_options opts j)).
Proof.
  unfold apply_options. intros Hopts. revert j. induction Hopts as [|opt opts Ho _ IH]; intros j Hj; simpl.
  - done.
  - apply IH. by destruct Ho.
Qed.

Section scheduler.
Context {St H : Type} `{!StoreOps St, !LawfulStore St}.
Implicit Types s : Scheduler St H.
Implicit Types w : World St H.

(** The job a dispatch builds. *)
Definition dispatched (uuid : nat → string) s w (t : Z) (name : string)
    (payload : list Byte.byte) (opts : list JobOption) : Job.t :=
  apply_options opts (new_job (uuid (w_uuids w)) name payload t (clock s (w_reads w))).

Lemma At_run uuid s t name payload opts w :
  wf (w_store w) → ok_job (dispatched uuid s w t name payload opts) →
  let j := dispatched uuid s w t name payload opts in
  ∃ id err w', At uuid s t name payload opts w = Some ((id, err), w') ∧ wf (w_store w') ∧
    (w_uuids w ≤ w_uuids w' ≤ S (w_uuids w))%nat ∧
    (err = None → w_uuids w' = S (w_uuids w)) ∧
    match err with
    | Some e =>
        id = "" ∧ abs (w_store w') = abs (w_store w) ∧ w_hooks w' = w_hooks w ∧
        ((e = NoHandler name ∧ handlers s !! name = None) ∨
         (e = UnknownQueue (Job.Queue j) ∧ is_Some (handlers s !! name) ∧
          queues s !! Job.Queue j = None) ∨
         (∃ m, e = StoreError (ErrOther m)))
    | None =>
        id = Job.ID j ∧ is_Some (handlers s !! name) ∧ is_Some (queues s !! Job.Queue j) ∧
        abs (w_store w') = (Spec.save j (abs (w_store w))).2 ∧
        w_hooks w' = apply_event (hooks s) (event_of j EvEnqueue) (w_hooks w)
    end.
Proof.
  intros Hwf Hok j. unfold At, handler. destruct (handlers s !! name) as [h|] eqn:Hh.
  2:{ eexists _, _, w. split; [reflexivity|]. split; [done|]. split; [lia|].
      split; [done|]. repeat (split; [done|]). by left. }
  unfold gbind, NewString, World.Now. cbn. fold (dispatched uuid s w t name payload opts). fold j.
  destruct (queues s !! Job.Queue j) as [c|] eqn:Hq.
  2:{ eexists _, _, _. split; [reflexivity|]. cbn. split; [done|]. split; [lia|].
      repeat (split; [done|]).
      right; left. by repeat split. }
  unfold on_store, at_store, under. cbn. destruct (law_Save (w_store w) j Hwf Hok) as (e & st & -> & Hwf' & Hres).
  destruct Hres as [(m & -> & Ha)|Hres].
  - eexists _, _, _. split; [reflexivity|]. cbn. split; [done|]. split; [lia|].
    split; [done|]. split; [done|]. split; [done|]. split; [done|]. right; right. by exists m.
  - assert (e = None) as -> by exact (f_equal fst Hres). unfold fireEnqueue, event_of.
    destruct (OnEnqueue (hooks s)) eqn:Hho; eexists _, _, _; (split; [reflexivity|]); cbn;
      rewrite ?Hho; (split; [done|]); (split; [lia|]); (split; [done|]); (split; [done|]);
      (split; [by eexists|]);
      (split; [by eexists|]); (split; [exact (f_equal snd Hres)|done]).
Qed.

(** Of [Every] and [Cron]: the schedule they store, once it is built. *)
Lemma upsert_run `{!LocalStore St} s (spec : RecurringSpec.t) w :
  wf (w_store w) →
  ∃ w', upsert_and_announce s spec w = Some ((RecurringSpec.ID spec, None), w') ∧
    wf (w_store w') ∧ abs (w_store w') = (Spec.upsert_recurring spec (abs (w_store w))).2 ∧
    w_reads w' = w_reads w ∧ w_uuids w' = w_uuids w.
Proof.
  intros Hwf. destruct (local_UpsertRecurring (w_store w) spec Hwf) as (st & Hr & Hwf' & Ha).
  unfold upsert_and_announce, gbind, on_store, at_store, under, fireEnqueue. cbn. rewrite Hr.
  destruct (OnEnqueue (hooks s)); eexists; (split; [reflexivity|]); cbn; done.
Qed.
End scheduler.

(** ** Properties *)

Section properties.
Context {St H : Type} `{!StoreOps St, !LawfulStore St}.

(** C35: [At] on every branch, the failing store included: without a handler, for
    an unknown queue or when the store reports an error it returns that error
    and no identifier, stores nothing and fires no hook; otherwise the job it
    built from its arguments and options is stored, [OnEnqueue] fires once and
    the job's identifier is returned. *)
Theorem At_outcome (uuid : nat → string) (s : Scheduler St H) (t : Z) (name : string)
    (payload : list Byte.byte) (opts : list JobOption) (w : World St H) :
  wf (w_store w) → ok_job (dispatched uuid s w t name payload opts) →
  let j := dispatched uuid s w t name payload opts in
  ∃ id err w', At uuid s t name payload opts w = Some ((id, err), w') ∧ wf (w_store w') ∧
    match err with
    | Some e =>
        id = "" ∧ abs (w_store w') = abs (w_store w) ∧ w_hooks w' = w_hooks w ∧
        ((e = NoHandler name ∧ handlers s !! name = None) ∨
         (e = UnknownQueue (Job.Queue j) ∧ is_Some (handlers s !! name) ∧
          queues s !! Job.Queue j = None) ∨
         (∃ m, e = StoreError (ErrOther m)))
    | None =>
        id = Job.ID j ∧ is_Some (handlers s !! name) ∧ is_Some (queues s !! Job.Queue j) ∧
        abs (w_store w') = (Spec.save j (abs (w_store w))).2 ∧
        w_hooks w' = apply_event (hooks s) (event_of j EvEnqueue) (w_hooks w)
    end.
Proof.
  intros Hwf Hok. destruct (At_run uuid s t name payload opts w Hwf Hok)
    as (id & err & w' & Hrun & Hwf' & _ & _ & Hres). by exists id, err, w'.
Qed.

(** dispatching and cancelling is a round trip: a job scheduled under a
    fresh identifier, at any time and with any built-in options, can be
    cancelled by the identifier returned, and the store is as before. *)
Theorem At_Cancel_roundtrip `{!LocalStore St} (uuid : nat → string) (s : Scheduler St H) (t : Z)
    (name : string) (payload : list Byte.byte) (opts : list JobOption) (id : string)
    (w w1 : World St H) :
  wf (w_store w) → Forall builtin opts →
  Spec.jobs (abs (w_store w)) !! uuid (w_uuids w) = None →
  At uuid s t name payload opts w = Some ((id, None), w1) →
  ∃ w2, Cancel id w1 = Some (None, w2) ∧ wf (w_store w2) ∧ abs (w_store w2) = abs (w_store w).
Proof.
  intros Hwf Hopts Hfresh Hat.
  destruct (At_run uuid s t name payload opts w Hwf (local_ok_job _)) as (id' & err & w' & Hrun & Hwf' & _ & _ & Hres).
  rewrite Hat in Hrun. injection Hrun as <- <- <-. destruct Hres as (-> & _ & _ & Habs & _).
  destruct (builtin_keeps opts (new_job (uuid (w_uuids w)) name payload t (clock s (w_reads w))) Hopts)
    as (Hid & Hst & _). fold (dispatched uuid s w t name payload opts) in Hid, Hst.
  set (j := dispatched uuid s w t name payload opts) in *. simpl in Hid, Hst.
  destruct (local_Cancel (w_store w1) (Job.ID j) Hwf') as (st & Hc & Hwf'' & Ha).
  unfold Cancel, on_store, at_store, under. cbn. rewrite Hc, Habs. unfold Spec.cancel, Spec.done_with, Spec.save. simpl.
  rewrite lookup_insert_eq. simpl. rewrite Hst. simpl. eexists. split; [reflexivity|].
  split; [done|]. cbn. rewrite Ha, Habs. unfold Spec.cancel, Spec.done_with, Spec.save. simpl.
  rewrite lookup_insert_eq. simpl. rewrite Hst. simpl. unfold Spec.set_jobs. simpl.
  rewrite delete_insert_id by by rewrite Hid. by destruct (abs (w_store w)).
Qed.

(** [Every] does not check the queue as [At] does. For a queue the
    scheduler does not have, [At] refuses with [UnknownQueue] and stores
    nothing; [Every] with the same arguments succeeds and stores a schedule
    whose jobs go to that queue, which no dispatcher serves. *)
Theorem Every_accepts_unknown_queue `{!LocalStore St} (uuid : nat → string) (s : Scheduler St H)
    (d t : Z) (name queue : string) (payload : list Byte.byte) (w : World St H) :
  wf (w_store w) → is_Some (handlers s !! name) → queues s !! queue = None → 0 < d →
  (∃ w1, At uuid s t name payload [WithQueue queue] w = Some (("", Some (UnknownQueue queue)), w1) ∧
         abs (w_store w1) = abs (w_store w)) ∧
  ∃ id spec w2, Every uuid s d name payload [WithQueue queue] w = Some ((id, None), w2) ∧
    Spec.recurring (abs (w_store w2)) !! id = Some (Spec.rec_view spec) ∧
    RecurringSpec.Queue spec = queue.
Proof.
  intros Hwf [h Hh] Hq Hd. split.
  - unfold At, handler. rewrite Hh. unfold gbind, NewString, World.Now. cbn. rewrite Hq.
    eexists. by split.
  - unfold Every, handler. rewrite Hh. destruct (Z.leb_spec d 0); [lia|].
    unfold gbind, buildRecurringSpec, NewString, gbind, World.Now, gret. cbn [w_uuids w_reads with_uuids].
    match goal with |- context [upsert_and_announce s ?sp ?w1] =>
      destruct (upsert_run s sp w1 Hwf) as (w2 & Hr & _ & Ha & _); exists (uuid (w_uuids w)), sp, w2 end.
    split; [exact Hr|]. split; [|done]. rewrite Ha. apply lookup_insert_eq.
Qed.

(** [Cron] accepts an expression that never fires (the library parses the
    30th of February), and the recurring runner's next tick never ends: no
    schedule of the process fires again. *)
Theorem Cron_without_activation_hangs `{!LocalStore St} (uuid : nat → string)
    (parse : string → (Z → Z) + string) (next : Z → Z) (s : Scheduler St H) (expr name : string)
    (payload : list Byte.byte) (w : World St H) :
  wf (w_store w) → is_Some (handlers s !! name) → expr ≠ "" → parse expr = inl next →
  (∀ t, next t = Time.zero) → (∀ n, Time.zero ≤ clock s n) →
  Spec.recurring (abs (w_store w)) = ∅ →
  ∃ id w', Cron uuid parse s expr name payload [] w = Some ((id, None), w') ∧
    ∀ ctx fuel r, tick parse uuid ctx fuel (clock s) r w' = None.
Proof.
  intros Hwf [h Hh] He Hparse Hnext Hclk Hempty.
  unfold Cron, handler. rewrite Hh, Hparse.
  unfold gbind, buildRecurringSpec, NewString, gbind, World.Now, gret. cbn [w_uuids w_reads with_uuids].
  match goal with |- context [upsert_and_announce s ?sp ?w1] =>
    set (spec := sp); destruct (upsert_run s spec w1 Hwf) as (w2 & Hr & Hwf2 & Ha & _ & _) end.
  exists (uuid (w_uuids w)), w2. split; [exact Hr|]. intros ctx fuel r.
  unfold tick, World.Now, gbind. cbn. rewrite on_store_local. unfold at_store. cbn.
  destruct (local_ListRecurring (w_store w2) Hwf2) as (out & st & -> & Hwf3 & _ & Hperm).
  cbn in Ha. rewrite Ha in Hperm. cbn in Hperm. rewrite Hempty, insert_empty, map_to_list_singleton in Hperm.
  apply Permutation_singleton_r in Hperm. destruct out as [|sp [|]]; [done| |done].
  injection Hperm as Hid _ _ _ _ _ _ _ Hcron Hevery _ Hnra _. cbn [gfor]. unfold gbind.
  rewrite (run_spec_stuck parse uuid ctx fuel r _ sp next); [done|done| | | |congruence|done|apply Hclk].
  - rewrite Hnra. cbn. rewrite Hnext. apply Hclk.
  - rewrite Hevery. cbn. lia.
  - rewrite Hcron. done.
Qed.
End properties.

(** ** The properties on a concrete scheduler *)

Definition empty_world : World Store (list event) := mkWorld New [] [] 0 0.

Lemma At_outcome_witness :
  let opts := [WithPriority PriorityHigh; WithQueue "default"] in
  let j := dispatched demo_uuid demo_scheduler empty_world 50 "job" [] opts in
  ∃ id err w', At demo_uuid demo_scheduler 50 "job" [] opts empty_world = Some ((id, err), w') ∧
    wf (w_store w') ∧
    match err with
    | Some e =>
        id = "" ∧ abs (w_store w') = abs (w_store empty_world) ∧ w_hooks w' = w_hooks empty_world ∧
        ((e = NoHandler "job" ∧ handlers demo_scheduler !! "job" = None) ∨
         (e = UnknownQueue (Job.Queue j) ∧ is_Some (handlers demo_scheduler !! "job") ∧
          queues demo_scheduler !! Job.Queue j = None) ∨
         (∃ m, e = StoreError (ErrOther m)))
    | None =>
        id = Job.ID j ∧ is_Some (handlers demo_scheduler !! "job") ∧
        is_Some (queues demo_scheduler !! Job.Queue j) ∧
        abs (w_store w') = (Spec.save j (abs (w_store empty_world))).2 ∧
        w_hooks w' = apply_event (hooks demo_scheduler) (event_of j EvEnqueue) (w_hooks empty_world)
    end.
Proof.
  apply (At_outcome demo_uuid demo_scheduler 50 "job" []
           [WithPriority PriorityHigh; WithQueue "default"] empty_world).
  - apply New_wf.
  - exact I.
Defined.

Lemma At_Cancel_roundtrip_witness :
  ∃ w1, At demo_uuid demo_scheduler 50 "job" [] [WithPriority PriorityHigh] empty_world
          = Some (("u", None), w1) ∧
    ∃ w2, Cancel "u" w1 = Some (None, w2) ∧ wf (w_store w2) ∧
          abs (w_store w2) = abs (w_store empty_world).
Proof.
  destruct (At demo_uuid demo_scheduler 50 "job" [] [WithPriority PriorityHigh] empty_world)
    as [[r w1]|] eqn:Hat; [|vm_compute in Hat; discriminate].
  assert (r = ("u", None)) as -> by (vm_compute in Hat; injection Hat as <- _; reflexivity).
  exists w1. split; [reflexivity|].
  apply (At_Cancel_roundtrip demo_uuid demo_scheduler 50 "job" [] [WithPriority PriorityHigh] "u"
           empty_world w1).
  - apply New_wf.
  - repeat constructor.
  - reflexivity.
  - exact Hat.
Defined.

Lemma Every_accepts_unknown_queue_witness :
  (∃ w1, At demo_uuid demo_scheduler 9 "job" [] [WithQueue "nope"] empty_world =
           Some (("", Some (UnknownQueue "nope")), w1) ∧
         abs (w_store w1) = abs (w_store empty_world)) ∧
  ∃ id spec w2, Every demo_uuid demo_scheduler 7 "job" [] [WithQueue "nope"] empty_world =
      Some ((id, None), w2) ∧
    Spec.recurring (abs (w_store w2)) !! id = Some (Spec.rec_view spec) ∧
    RecurringSpec.Queue spec = "nope".
Proof.
  apply (Every_accepts_unknown_queue demo_uuid demo_scheduler 7 9 "job" "nope" [] empty_world).
  - apply New_wf.
  - exists panicking. reflexivity.
  - reflexivity.
  - reflexivity.
Defined.

Lemma Cron_without_activation_hangs_witness :
  ∃ id w', Cron demo_uuid demo_parse demo_scheduler "0 0 30 2 *" "job" [] [] empty_world =
      Some ((id, None), w') ∧
    ∀ ctx fuel r, tick demo_parse demo_uuid ctx fuel (clock demo_scheduler) r w' = None.
Proof.
  apply (Cron_without_activation_hangs demo_uuid demo_parse (λ _, Time.zero) demo_scheduler
           "0 0 30 2 *" "job" [] empty_world).
  - apply New_wf.
  - exists panicking. reflexivity.
  - discriminate.
  - reflexivity.
  - reflexivity.
  - intros n. unfold Time.zero. simpl. lia.
  - reflexivity.
Defined.
