(* ===== verification/Ledger.v ===== *)
(** The invariant behind "no job runs twice at once, and none more than its
    attempts": over the abstract store alone, what each operation keeps.

    [fl] are the jobs in flight in the process, from their claim to the end of
    their execution, [run] the identifiers of those whose handler is running,
    [led] the ledger of the executions started (identifier, attempt number,
    bound), [n] the number of identifiers generated. *)

From S2P Require Import Prelude ListLib Types StoreApi.
Local Open Scope Z_scope.

(** A ledger entry of a bounded job agrees with the job the store still has. *)
Definition entry_ok (sp : Spec.t) (run : list string) (e : string * Z * Z) : Prop :=
  let '(id, a, m) := e in
  0 < m → 1 ≤ a ≤ m ∧
    ∀ v, Spec.jobs sp !! id = Some v → Job.MaxAttempts v = m ∧
      (a ≤ Job.Attempt v ∨ (a = Job.Attempt v + 1 ∧ id ∈ run)).

(** The entries of bounded jobs, without their bounds. *)
Definition bounded (led : list (string * Z * Z)) : list (string * Z) :=
  (filter (λ e, 0 < e.2) led).*1.

Record ledger (uuid : nat → string) (sp : Spec.t) (fl : list Job.t) (run : list string)
    (led : list (string * Z * Z)) (n : nat) : Prop := {
  led_key : ∀ k v, Spec.jobs sp !! k = Some v → Job.ID v = k;
  led_nodup : NoDup (Spec.ids fl);
  led_flight : ∀ j, j ∈ fl → ∃ v, Spec.jobs sp !! Job.ID j = Some v ∧
    Job.State v = StateClaimed ∧ Job.Attempt v = Job.Attempt j ∧
    Job.MaxAttempts v = Job.MaxAttempts j;
  led_claimed : ∀ k v, Spec.jobs sp !! k = Some v → Job.State v = StateClaimed →
    k ∈ Spec.ids fl;
  led_run : run ⊆ Spec.ids fl;
  led_fresh : ∀ k, (is_Some (Spec.jobs sp !! k) ∨ k ∈ (led.*1).*1) →
    ∃ i, (i < n)%nat ∧ k = uuid i;
  led_attempts : ∀ k v, Spec.jobs sp !! k = Some v → in_int64 (Job.MaxAttempts v) ∧
    (0 < Job.MaxAttempts v → 0 ≤ Job.Attempt v < Job.MaxAttempts v);
  led_specs : ∀ k r, Spec.recurring sp !! k = Some r → in_int64 (RecurringSpec.MaxAttempts r);
  led_entries : ∀ e, e ∈ led → entry_ok sp run e;
  led_once : NoDup (bounded led)
}.

#[export] Instance ids_proper : Proper ((≡ₚ) ==> (≡ₚ)) Spec.ids.
Proof. intros l l' Hl. unfold Spec.ids. by rewrite Hl. Qed.

Section ledger.
Context (uuid : nat → string) `{!Inj (=) (=) uuid}.
Implicit Types sp : Spec.t.
Local Abbreviation ledger := (ledger uuid).

Lemma ledger_perm sp fl fl' run run' led n :
  ledger sp fl run led n → fl ≡ₚ fl' → (∀ k, k ∈ run' ↔ k ∈ run) → ledger sp fl' run' led n.
Proof.
  intros [] Hfl Hrun. split; try done.
  - by rewrite <- Hfl.
  - intros j. rewrite <- Hfl. apply led_flight0.
  - intros k v. rewrite <- Hfl. apply led_claimed0.
  - intros k. rewrite Hrun, <- Hfl. apply led_run0.
  - intros [[id a] m] He Hm. destruct (led_entries0 _ He Hm) as [Ha Hv]. split; [done|].
    intros v Hj. destruct (Hv v Hj) as [H1 H2]. split; [done|]. by rewrite Hrun.
Qed.

Lemma ledger_more sp fl run led n n' :
  ledger sp fl run led n → (n ≤ n')%nat → ledger sp fl run led n'.
Proof.
  intros [] Hn. split; try done. intros k Hk. destruct (led_fresh0 k Hk) as (i & Hi & ->).
  exists i. split; [lia|done].
Qed.

(** Only the schedules change. *)
Lemma ledger_recurring sp rs fl run led n :
  ledger sp fl run led n → (∀ k r, rs !! k = Some r → in_int64 (RecurringSpec.MaxAttempts r)) →
  ledger (Spec.set_recurring rs sp) fl run led n.
Proof. intros [] Hrs. by split. Qed.

(** A job in flight is bound to the store's copy; nothing else is. *)
Lemma ledger_pending_not_in_flight sp fl run led n k v :
  ledger sp fl run led n → Spec.jobs sp !! k = Some v → Job.State v ≠ StateClaimed →
  k ∉ Spec.ids fl.
Proof.
  intros HL Hv Hs Hin. unfold Spec.ids in Hin. apply list_elem_of_fmap in Hin as (j & -> & Hj).
  destruct (led_flight _ _ _ _ _ _ HL j Hj) as (v' & Hv' & Hc & _). congruence.
Qed.

(** *** Scheduling, cancelling, rescheduling *)

Lemma ledger_save sp fl run led n j :
  ledger sp fl run led n → Job.ID j = uuid n → Job.State j = StatePending → Job.Attempt j = 0 →
  in_int64 (Job.MaxAttempts j) → ledger (Spec.save j sp).2 fl run led (S n).
Proof.
  intros HL Hid Hst Hat Hint.
  assert (Hnew : Spec.jobs sp !! Job.ID j = None ∧ Job.ID j ∉ (led.*1).*1).
  { assert (Hf : ¬ (is_Some (Spec.jobs sp !! Job.ID j) ∨ Job.ID j ∈ (led.*1).*1)).
    { intros Hk. destruct (led_fresh _ _ _ _ _ _ HL _ Hk) as (i & Hi & He).
      rewrite Hid in He. apply (inj uuid) in He. lia. }
    split; [|tauto]. apply eq_None_not_Some. tauto. }
  destruct Hnew as [Hnew Hled].
  assert (Hfl : Job.ID j ∉ Spec.ids fl).
  { intros Hin. unfold Spec.ids in Hin. apply list_elem_of_fmap in Hin as (j' & He & Hj').
    destruct (led_flight _ _ _ _ _ _ HL j' Hj') as (v & Hv & _). congruence. }
  destruct HL. split; try done; simpl.
  - intros k v. rewrite lookup_insert_Some. intros [[<- <-]|[_ Hv]]; [done|by apply led_key0].
  - intros j' Hj'. destruct (led_flight0 j' Hj') as (v & Hv & Hrest). exists v.
    split; [|done]. rewrite lookup_insert_ne; [done|]. intros He. congruence.
  - intros k v. rewrite lookup_insert_Some. intros [[<- <-]|[_ Hv]]; [|by apply led_claimed0].
    intros Hc. change (Job.State j = StateClaimed) in Hc. rewrite Hst in Hc. done.
  - intros k Hk. destruct (decide (k = Job.ID j)) as [->|Hne].
    + exists n. split; [lia|done].
    + rewrite lookup_insert_ne in Hk by done. destruct (led_fresh0 k Hk) as (i & Hi & ->).
      exists i. split; [lia|done].
  - intros k v. rewrite lookup_insert_Some. intros [[<- <-]|[_ Hv]]; [|by eapply led_attempts0].
    simpl. rewrite Hat. split; [done|lia].
  - intros [[id a] m] He Hm. destruct (led_entries0 _ He Hm) as [Ha Hv]. split; [done|].
    intros v. simpl. rewrite lookup_insert_ne; [apply Hv|]. intros Heq. apply Hled. rewrite Heq.
    apply list_elem_of_fmap. exists (id, a). split; [done|]. apply list_elem_of_fmap.
    by exists (id, a, m).
Qed.

(** Removing a job that is not in flight. *)
Lemma ledger_delete sp fl run led n k :
  ledger sp fl run led n → k ∉ Spec.ids fl →
  ledger (Spec.set_jobs (delete k (Spec.jobs sp)) sp) fl run led n.
Proof.
  intros HL Hk. destruct HL. split; try done; simpl.
  - intros k' v. rewrite lookup_delete_Some. intros [_ Hv]. by apply led_key0.
  - intros j Hj. destruct (led_flight0 j Hj) as (v & Hv & Hrest). exists v.
    split; [|done]. rewrite lookup_delete_ne; [done|]. intros ->. apply Hk.
    unfold Spec.ids. by apply list_elem_of_fmap_2.
  - intros k' v. rewrite lookup_delete_Some. intros [_ Hv]. by apply led_claimed0.
  - intros k' [[v Hv]|Hin]; [|by apply led_fresh0; right].
    rewrite lookup_delete_Some in Hv. apply led_fresh0. left. exists v. tauto.
  - intros k' v. rewrite lookup_delete_Some. intros [_ Hv]. by eapply led_attempts0.
  - intros [[id a] m] He Hm. destruct (led_entries0 _ He Hm) as [Ha Hv]. split; [done|].
    intros v. simpl. rewrite lookup_delete_Some. intros [_ Hj]. by apply Hv.
Qed.

Lemma ledger_cancel sp fl run led n id :
  ledger sp fl run led n → ledger (Spec.cancel id sp).2 fl run led n.
Proof.
  intros HL. unfold Spec.cancel, Spec.refuse, Spec.done_with.
  destruct (Spec.jobs sp !! id) as [v|] eqn:Hv; [|done].
  destruct (Z.eqb_spec (Job.State v) StatePending) as [Hp|]; [|done].
  apply ledger_delete; [done|]. eapply ledger_pending_not_in_flight; [done|done|]. by rewrite Hp.
Qed.

(** Rewriting a job, keeping what the ledger speaks of. *)
Lemma ledger_update sp fl run led n k v v' :
  ledger sp fl run led n → Spec.jobs sp !! k = Some v →
  Job.ID v' = Job.ID v → Job.State v' = Job.State v → Job.Attempt v' = Job.Attempt v →
  Job.MaxAttempts v' = Job.MaxAttempts v →
  ledger (Spec.set_jobs (<[k := v']> (Spec.jobs sp)) sp) fl run led n.
Proof.
  intros HL Hk Hid Hst Ha Hm.
  assert (Hlook : ∀ k' x, <[k := v']> (Spec.jobs sp) !! k' = Some x →
    ∃ y, Spec.jobs sp !! k' = Some y ∧ Job.ID x = Job.ID y ∧ Job.State x = Job.State y ∧
         Job.Attempt x = Job.Attempt y ∧ Job.MaxAttempts x = Job.MaxAttempts y).
  { intros k' x. rewrite lookup_insert_Some. intros [[<- <-]|[_ Hx]]; [by exists v|by exists x]. }
  destruct HL. split; try done; simpl.
  - intros k' x Hx. destruct (Hlook k' x Hx) as (y & Hy & -> & _). by apply led_key0.
  - intros j Hj. destruct (led_flight0 j Hj) as (y & Hy & Hc & Hay & Hmy).
    destruct (decide (Job.ID j = k)) as [<-|Hne].
    + assert (y = v) as -> by congruence. exists v'. rewrite lookup_insert_eq.
      split; [done|]. rewrite Hst, Ha, Hm. done.
    + exists y. by rewrite lookup_insert_ne.
  - intros k' x Hx. destruct (Hlook k' x Hx) as (y & Hy & _ & -> & _). by apply led_claimed0.
  - intros k' [[x Hx]|Hin]; [|by apply led_fresh0; right].
    destruct (Hlook k' x Hx) as (y & Hy & _). apply led_fresh0. left. by exists y.
  - intros k' x Hx. destruct (Hlook k' x Hx) as (y & Hy & _ & _ & -> & ->). by eapply led_attempts0.
  - intros [[id a] m] He Hpos. destruct (led_entries0 _ He Hpos) as [Hr Hv]. split; [done|].
    simpl. intros x Hx. destruct (Hlook id x Hx) as (y & Hy & _ & _ & -> & ->). by apply Hv.
Qed.

Lemma ledger_reschedule sp fl run led n id t :
  ledger sp fl run led n → ledger (Spec.reschedule id t sp).2 fl run led n.
Proof.
  intros HL. unfold Spec.reschedule, Spec.refuse, Spec.done_with.
  destruct (Spec.jobs sp !! id) as [v|] eqn:Hv; [|done].
  destruct (Job.State v =? StatePending); [|done]. by apply (ledger_update _ _ _ _ _ _ v).
Qed.

(** *** Claiming *)

Lemma ledger_claim sp fl run led n q now c js out w u :
  ledger sp fl run led n → Spec.claim_ok q now c (Spec.jobs sp) js →
  Spec.job_view <$> out = Spec.claim_job w u <$> js →
  ledger (Spec.set_jobs (Spec.claim_all w u js (Spec.jobs sp)) sp) (out ++ fl) run led n.
Proof.
  intros HL Hok Hout.
  assert (Hids : Spec.ids out = Spec.ids js).
  { apply (f_equal (fmap Job.ID)) in Hout. rewrite <- !list_fmap_compose in Hout. done. }
  assert (Hjs : Forall (λ j, Spec.jobs sp !! Job.ID j = Some j) js).
  { eapply Forall_impl; [apply (Spec.claim_eligible _ _ _ _ _ Hok)|]. by intros j [? _]. }
  assert (Helig : ∀ j, j ∈ js → Spec.jobs sp !! Job.ID j = Some j ∧ Job.State j = StatePending).
  { intros j Hj. pose proof (Spec.claim_eligible _ _ _ _ _ Hok) as Hel.
    rewrite Forall_forall in Hel. destruct (Hel j Hj) as [Hl He]. split; [done|].
    unfold Spec.eligible, Spec.pending_in in He. by breflect. }
  assert (Hdisj : ∀ k, k ∈ Spec.ids js → k ∉ Spec.ids fl).
  { intros k Hk. unfold Spec.ids in Hk. apply list_elem_of_fmap in Hk as (j & -> & Hj).
    destruct (Helig j Hj) as [Hl Hs]. eapply ledger_pending_not_in_flight; [done|done|].
    by rewrite Hs. }
  assert (Hlook : ∀ k, Spec.claim_all w u js (Spec.jobs sp) !! k =
    if decide (k ∈ Spec.ids js) then Spec.claim_job w u <$> Spec.jobs sp !! k
    else Spec.jobs sp !! k).
  { intros k. apply update_all_lookup; [apply Hok|done]. }
  assert (Hinv : ∀ k v, Spec.claim_all w u js (Spec.jobs sp) !! k = Some v →
    ∃ v0, Spec.jobs sp !! k = Some v0 ∧ Job.ID v = Job.ID v0 ∧ Job.Attempt v = Job.Attempt v0 ∧
          Job.MaxAttempts v = Job.MaxAttempts v0 ∧
          (Job.State v = StateClaimed → k ∈ Spec.ids js ∨ Job.State v0 = StateClaimed)).
  { intros k v. rewrite Hlook. case_decide as Hk; [|intros Hv; exists v; tauto].
    destruct (Spec.jobs sp !! k) as [v0|]; [|done]. intros [= <-]. exists v0. repeat split; tauto. }
  pose proof HL as HL0. destruct HL0. split; simpl; try done.
  - intros k v Hv. destruct (Hinv k v Hv) as (v0 & Hv0 & -> & _). by apply led_key0.
  - unfold Spec.ids in *. rewrite fmap_app, Hids. apply NoDup_app.
    split; [apply Hok|]. split; [|done]. intros k Hk. by apply Hdisj.
  - intros j [Hj|Hj]%elem_of_app.
    + assert (Hjv : Spec.job_view j ∈ Spec.claim_job w u <$> js)
        by (rewrite <- Hout; by apply list_elem_of_fmap_2).
      apply list_elem_of_fmap in Hjv as (j0 & Heq & Hj0). destruct (Helig j0 Hj0) as [Hl _].
      assert (Hid : Job.ID j = Job.ID j0) by exact (f_equal Job.ID Heq).
      exists (Spec.claim_job w u j0). rewrite Hlook, Hid, Hl, decide_True.
      * split; [done|]. split; [done|]. split; symmetry;
          [exact (f_equal Job.Attempt Heq)|exact (f_equal Job.MaxAttempts Heq)].
      * unfold Spec.ids. by apply list_elem_of_fmap_2.
    + destruct (led_flight0 j Hj) as (v & Hv & Hrest). exists v. rewrite Hlook, decide_False; [done|].
      intros Hk. apply (Hdisj _ Hk). unfold Spec.ids. by apply list_elem_of_fmap_2.
  - intros k v Hv Hc. destruct (Hinv k v Hv) as (v0 & Hv0 & _ & _ & _ & Hst).
    unfold Spec.ids. rewrite fmap_app. apply elem_of_app. fold (Spec.ids out). rewrite Hids.
    destruct (Hst Hc) as [?|?]; [by left|right; by eapply led_claimed0].
  - intros k Hk. unfold Spec.ids. rewrite fmap_app. apply elem_of_app. right. by apply led_run0.
  - intros k [[v Hv]|Hk]; [|by apply led_fresh0; right].
    destruct (Hinv k v Hv) as (v0 & Hv0 & _). apply led_fresh0. left. by exists v0.
  - intros k v Hv. destruct (Hinv k v Hv) as (v0 & Hv0 & _ & -> & -> & _). by eapply led_attempts0.
  - intros [[id a] m] He Hpos. destruct (led_entries0 _ He Hpos) as [Hr Hv]. split; [done|].
    simpl. intros v Hx. destruct (Hinv id v Hx) as (v0 & Hv0 & _ & -> & -> & _). by apply Hv.
Qed.

(** *** Starting an execution *)

Lemma ledger_start sp fl run led n j :
  ledger sp fl run led n → j ∈ fl → Job.ID j ∉ run →
  ledger sp fl (Job.ID j :: run) ((Job.ID j, wrap64 (Job.Attempt j + 1), Job.MaxAttempts j) :: led) n.
Proof.
  intros HL Hj Hnr. destruct (led_flight _ _ _ _ _ _ HL j Hj) as (v & Hv & Hc & Ha & Hm).
  destruct (led_attempts _ _ _ _ _ _ HL _ v Hv) as [Hint Hatt].
  assert (Hw : 0 < Job.MaxAttempts j → wrap64 (Job.Attempt j + 1) = Job.Attempt v + 1 ∧
    0 ≤ Job.Attempt v < Job.MaxAttempts v).
  { intros Hpos. rewrite <- Hm in Hpos. specialize (Hatt Hpos). split; [|done].
    rewrite <- Ha. apply wrap64_id. revert Hint Hatt Hpos. clear. int64_lia. }
  assert (Hjf : Job.ID j ∈ Spec.ids fl) by (unfold Spec.ids; by apply list_elem_of_fmap_2).
  pose proof HL as HL0. destruct HL0. split; try done.
  - intros k [->|Hk]%elem_of_cons; [done|by apply led_run0].
  - intros k [Hk|Hk]; [by apply led_fresh0; left|]. simpl in Hk.
    apply elem_of_cons in Hk as [->|Hk]; [|by apply led_fresh0; right].
    apply led_fresh0. left. by exists v.
  - intros e [->|He]%elem_of_cons.
    + intros Hpos. destruct (Hw Hpos) as [-> Hr]. split; [lia|]. intros v' Hv'.
      assert (v' = v) as -> by congruence. split; [done|]. right. split; [done|by left].
    + destruct e as [[id a] m]. intros Hpos. destruct (led_entries0 _ He Hpos) as [Hr Hx].
      split; [done|]. intros x Hxx. destruct (Hx x Hxx) as [? [?|[? ?]]]; (split; [done|]);
        [by left|right]. split; [done|by right].
  - unfold bounded in *. rewrite filter_cons. case_decide as Hpos; [|done]. simpl.
    apply NoDup_cons. split; [|done]. intros Hin. simpl in Hpos. destruct (Hw Hpos) as [Hwa Hr].
    apply list_elem_of_fmap in Hin as ([[id a] m] & [= Hid Hat] & Hin).
    apply list_elem_of_filter in Hin as [Hm' Hin]. simpl in Hm'.
    destruct (led_entries0 _ Hin Hm') as [_ Hx]. subst id.
    destruct (Hx v Hv) as [_ [?|[_ ?]]]; [lia|done].
Qed.

(** *** The end of an execution: the job leaves the flight *)

(** What the store keeps of a job that ended: nothing, or the job pending with
    one more attempt counted and attempts left. *)
Definition ended (v : Job.t) (o : option Job.t) : Prop :=
  ∀ v', o = Some v' → Job.ID v' = Job.ID v ∧ Job.State v' = StatePending ∧
    Job.Attempt v' = wrap64 (Job.Attempt v + 1) ∧ Job.MaxAttempts v' = Job.MaxAttempts v ∧
    Spec.exhausted v = false.

Lemma ledger_end sp fl run run' led n j v o :
  ledger sp (j :: fl) run led n → Spec.jobs sp !! Job.ID j = Some v → ended v o →
  (∀ k, k ∈ run' ↔ k ∈ run ∧ k ≠ Job.ID j) →
  ledger (Spec.set_jobs (partial_alter (λ _, o) (Job.ID j) (Spec.jobs sp)) sp) fl run' led n.
Proof.
  intros HL Hv Hend Hrun. pose proof (led_nodup _ _ _ _ _ _ HL) as Hnd.
  apply NoDup_cons in Hnd as [Hjn Hnd].
  destruct (led_attempts _ _ _ _ _ _ HL _ v Hv) as [Hint Hatt].
  set (m' := partial_alter (λ _, o) (Job.ID j) (Spec.jobs sp)).
  assert (Hlook : ∀ k x, m' !! k = Some x →
    (k ≠ Job.ID j ∧ Spec.jobs sp !! k = Some x) ∨ (k = Job.ID j ∧ o = Some x)).
  { intros k x. unfold m'. destruct (decide (k = Job.ID j)) as [->|Hne].
    - rewrite lookup_partial_alter_eq. by right.
    - rewrite lookup_partial_alter_ne by done. by left. }
  assert (Hother : ∀ k, k ≠ Job.ID j → m' !! k = Spec.jobs sp !! k).
  { intros k Hne. unfold m'. by rewrite lookup_partial_alter_ne. }
  assert (Hwrap : ∀ v', o = Some v' → 0 < Job.MaxAttempts v →
    Job.Attempt v' = Job.Attempt v + 1 ∧ Job.Attempt v + 1 < Job.MaxAttempts v).
  { intros v' Ho Hpos. destruct (Hend v' Ho) as (_ & _ & Ha & _ & Hex). specialize (Hatt Hpos).
    assert (Hw : wrap64 (Job.Attempt v + 1) = Job.Attempt v + 1).
    { apply wrap64_id. revert Hint Hatt. clear. int64_lia. }
    split; [congruence|]. unfold Spec.exhausted in Hex. rewrite Hw in Hex.
    destruct (Z.ltb_spec 0 (Job.MaxAttempts v)); [|lia]. simpl in Hex. by apply Z.leb_gt in Hex. }
  pose proof HL as HL0. destruct HL0. split; try done.
  - intros k x Hx. destruct (Hlook k x Hx) as [[_ Hs]|[-> Ho]]; [by apply led_key0|].
    destruct (Hend x Ho) as (-> & _). by apply led_key0.
  - intros j' Hj'. destruct (led_flight0 j') as (x & Hx & Hrest); [by right|]. exists x.
    split; [|done]. simpl. rewrite Hother; [done|]. intros Heq. apply Hjn. rewrite <- Heq.
    unfold Spec.ids. by apply list_elem_of_fmap_2.
  - intros k x Hx Hc. destruct (Hlook k x Hx) as [[Hne Hs]|[-> Ho]].
    + pose proof (led_claimed0 k x Hs Hc) as Hk. apply elem_of_cons in Hk as [?|?]; [done|done].
    + destruct (Hend x Ho) as (_ & Hs & _). rewrite Hs in Hc. done.
  - intros k Hk. apply Hrun in Hk as [Hk Hne]. apply led_run0 in Hk.
    by apply elem_of_cons in Hk as [?|?].
  - intros k [[x Hx]|Hk]; [|by apply led_fresh0; right]. apply led_fresh0. left.
    destruct (Hlook k x Hx) as [[_ Hs]|[-> _]]; [by exists x|by exists v].
  - intros k x Hx. destruct (Hlook k x Hx) as [[_ Hs]|[-> Ho]]; [by eapply led_attempts0|].
    destruct (Hend x Ho) as (_ & _ & _ & Hm & _). rewrite Hm. split; [done|]. intros Hpos.
    destruct (Hwrap x Ho Hpos) as [-> ?]. specialize (Hatt Hpos). lia.
  - intros [[id a] m] He Hpos. destruct (led_entries0 _ He Hpos) as [Hr Hx]. split; [done|].
    intros x Hxx. destruct (Hlook id x Hxx) as [[Hne Hs]|[-> Ho]].
    + destruct (Hx x Hs) as [? [?|[? ?]]]; (split; [done|]); [by left|right].
      split; [done|]. by apply Hrun.
    + destruct (Hx v Hv) as [Hm Hor]. destruct (Hend x Ho) as (_ & _ & _ & Hmx & _).
      split; [congruence|]. left. destruct (Hwrap x Ho) as [-> _]; [lia|]. destruct Hor as [?|[? _]]; lia.
Qed.

Lemma ledger_ack sp fl run run' led n j :
  ledger sp (j :: fl) run led n → (∀ k, k ∈ run' ↔ k ∈ run ∧ k ≠ Job.ID j) →
  ledger (Spec.ack (Job.ID j) sp).2 fl run' led n.
Proof.
  intros HL Hrun. destruct (led_flight _ _ _ _ _ _ HL j ltac:(by left)) as (v & Hv & Hc & _).
  unfold Spec.ack, Spec.done_with. rewrite Hv, Hc. simpl.
  apply (ledger_end _ _ _ _ _ _ _ v None HL Hv); [|done]. by intros v' [=].
Qed.

Lemma ledger_fail sp fl run run' led n j msg t :
  ledger sp (j :: fl) run led n → (∀ k, k ∈ run' ↔ k ∈ run ∧ k ≠ Job.ID j) →
  ledger (Spec.fail (Job.ID j) msg t sp).2 fl run' led n.
Proof.
  intros HL Hrun. destruct (led_flight _ _ _ _ _ _ HL j ltac:(by left)) as (v & Hv & Hc & _).
  unfold Spec.fail, Spec.done_with. rewrite Hv, Hc. simpl. destruct (Spec.exhausted v) eqn:Hex; simpl.
  - apply (ledger_end _ _ _ _ _ _ _ v None HL Hv); [|done]. by intros v' [=].
  - apply (ledger_end _ _ _ _ _ _ _ v (Some (Spec.retry_job msg t v)) HL Hv); [|done].
    by intros v' [= <-].
Qed.
End ledger.
