(* ===== verification/Turns.v ===== *)
(** The turns of the janitor ([src/janitor.go] [run]) and of the recurring runner
    ([src/recurring.go] [run]) as goroutines take them: call by call. Both call
    the store several times in a turn, and what the other goroutines do in
    between is theirs to do; so where a turn stands is a value, and one step
    goes from one call of the store to the next, with the clock readings, log
    records and identifiers that belong to it. [turns_equivalent] is that a turn
    taken alone is [Worker.janitor_tick], or [Recurring.tick]. *)

From S2P Require Import Prelude ListLib Types StoreApi World Recurring Scheduler Worker.
Local Open Scope Z_scope.
Local Open Scope go_scope.

(** Where the runner is: at its timer; at the head of the loop over the listed
    schedules, with those still to come; in the loop over a schedule's fires,
    whose lease it has acquired. *)
Inductive runner_state : Type :=
  | AtTimer
  | AtSpecs (now : Z) (specs : list RecurringSpec.t)
  | AtFires (now : Z) (spec : RecurringSpec.t) (fires : list Z) (specs : list RecurringSpec.t).

(** [janitor_at] is the reading of the janitor between [Heartbeat] and
    [RecoverStale]. *)
Record turns : Type := mkTurns { janitor_at : option Z; runner_at : runner_state }.

(** Both at their timers. *)
Definition no_turns : turns := mkTurns None AtTimer.

(** The schedules the runner still has in hand. *)
Definition in_hand (st : runner_state) : list RecurringSpec.t :=
  match st with
  | AtTimer => []
  | AtSpecs _ specs => specs
  | AtFires _ spec _ specs => spec :: specs
  end.

Section turns.
Context {St H : Type} `{!StoreOps St}.
Variable parse : string → (Z → Z) + string.
Variable uuid : nat → string.
Implicit Types w : World St H.

(** [ctx] is the context [Start] has been given, as the calls of a step meet it. *)
Implicit Types ctx : context.

(** ** Janitor *)

(** To the end of the call of [Heartbeat], or to the end of the turn. *)
Definition janitor_resume ctx (clk : nat → Z) (workerID : string) (st : option Z)
    : GoM (World St H) (option Z) :=
  match st with
  | None =>
      let! now := World.Now clk in
      let! err := on_store ctx (st_Heartbeat workerID now) in
      do! (match err with
           | Some e => write_log LError "goschedule: heartbeat failed" [AAny "err" e]
           | None => gret tt
           end) in
      gret (Some now)
  | Some now =>
      let! r := on_store ctx (st_RecoverStale now) in
      do! (match r with
           | (_, Some e) => write_log LError "goschedule: recover stale failed" [AAny "err" e]
           | (recovered, None) =>
               if 0 <? recovered
               then write_log Info "goschedule: recovered stale jobs" [AInt "count" recovered]
               else gret tt
           end) in
      gret None
  end.

(** ** Recurring runner *)

Definition runner_resume ctx (fuel : nat) (clk : nat → Z) (r : recurringRunner) (st : runner_state)
    : GoM (World St H) runner_state :=
  match st with
  | AtTimer =>
      let! now := World.Now clk in
      let! listed := on_store ctx st_ListRecurring in
      match listed with
      | (_, Some err) =>
          do! write_log LError "goschedule: recurring list failed" [AAny "err" err] in
          gret AtTimer
      | (specs, None) => gret (AtSpecs now specs)
      end
  | AtSpecs now [] => gret AtTimer
  | AtSpecs now (spec :: specs) =>
      if Time.After (RecurringSpec.NextRunAt spec) now then gret (AtSpecs now specs)
      else
        let! lease := on_store ctx (st_AcquireRecurringLease (RecurringSpec.ID spec)
                                  (Time.Add now (leaseEvery r)) (Recurring.workerID r)) in
        match lease with
        | (true, None) =>
            let! fires := computeFires parse spec now in
            gret (AtFires now spec fires specs)
        | _ => gret (AtSpecs now specs)
        end
  | AtFires now spec (fireAt :: fires) specs =>
      do! save_fire uuid ctx spec now fireAt in
      gret (AtFires now spec fires specs)
  | AtFires now spec [] specs =>
      let! next := nextAfter parse fuel spec now in
      let! _ := on_store ctx (st_UpdateRecurringNextRun (RecurringSpec.ID spec) next now) in
      gret (AtSpecs now specs)
  end.

(** ** A turn taken alone *)

(** The runner's steps in the middle of a turn, nobody else moving. *)
Definition runner_alone ctx (fuel : nat) (clk : nat → Z) (r : recurringRunner)
    (x y : runner_state * World St H) : Prop :=
  x.1 ≠ AtTimer ∧ runner_resume ctx fuel clk r x.1 x.2 = Some y.

(** What the code has still to do of the turn. *)
Definition rest_of ctx (fuel : nat) (r : recurringRunner) (st : runner_state) : GoM (World St H) unit :=
  match st with
  | AtTimer => gret tt
  | AtSpecs now specs => gfor specs (run_spec parse uuid ctx fuel r now)
  | AtFires now spec fires specs =>
      do! gfor fires (save_fire uuid ctx spec now) in
      let! next := nextAfter parse fuel spec now in
      let! _ := on_store ctx (st_UpdateRecurringNextRun (RecurringSpec.ID spec) next now) in
      gfor specs (run_spec parse uuid ctx fuel r now)
  end.

Lemma tick_split ctx fuel clk r w :
  tick parse uuid ctx fuel clk r w = gbind (runner_resume ctx fuel clk r AtTimer) (rest_of ctx fuel r) w.
Proof.
  unfold tick. cbn [runner_resume]. rewrite gbind_assoc. apply gbind_ext. intros now w1.
  rewrite gbind_assoc. by apply gbind_ext; intros [specs [err|]] w2.
Qed.

Lemma rest_split ctx fuel clk r st w :
  st ≠ AtTimer → rest_of ctx fuel r st w = gbind (runner_resume ctx fuel clk r st) (rest_of ctx fuel r) w.
Proof.
  intros Hst. destruct st as [|now [|spec specs]|now spec [|t fires] specs]; [done|done| | |].
  - cbn [rest_of runner_resume gfor]. unfold run_spec at 1.
    destruct (Time.After (RecurringSpec.NextRunAt spec) now); [done|].
    rewrite !gbind_assoc. apply gbind_ext. intros [[] [e|]] w1; try done.
    rewrite !gbind_assoc. apply gbind_ext. intros fires w2.
    change (gbind (gret (AtFires now spec fires specs)) (rest_of ctx fuel r) w2)
      with (rest_of ctx fuel r (AtFires now spec fires specs) w2). cbn [rest_of].
    rewrite !gbind_assoc. apply gbind_ext. intros [] w3. rewrite !gbind_assoc. apply gbind_ext.
    intros next w4. by rewrite !gbind_assoc.
  - cbn [rest_of runner_resume gfor]. rewrite !gbind_assoc. unfold gbind at 1. cbn.
    apply gbind_ext. intros next w1. by rewrite !gbind_assoc.
  - cbn [rest_of runner_resume gfor]. by rewrite !gbind_assoc.
Qed.

(** A run alone from the middle of a turn to its end does what is left of it. *)
Lemma alone_rest ctx fuel clk r x y :
  rtc (runner_alone ctx fuel clk r) x y → rest_of ctx fuel r x.1 x.2 = rest_of ctx fuel r y.1 y.2.
Proof.
  induction 1 as [|x [st w] z [Hst Hr] _ IH]; [done|]. rewrite <- IH.
  rewrite (rest_split ctx fuel clk r x.1 x.2 Hst). unfold gbind. by rewrite Hr.
Qed.

Lemma alone_step ctx fuel clk r st w st' w' z :
  st ≠ AtTimer → runner_resume ctx fuel clk r st w = Some (st', w') →
  rtc (runner_alone ctx fuel clk r) (st', w') z → rtc (runner_alone ctx fuel clk r) (st, w) z.
Proof. intros Hst Hr. by apply rtc_l. Qed.

Lemma rest_fires ctx fuel clk r now spec specs w' :
  (∀ w, rest_of ctx fuel r (AtSpecs now specs) w = Some (tt, w') →
     rtc (runner_alone ctx fuel clk r) (AtSpecs now specs, w) (AtTimer, w')) →
  ∀ fires w, rest_of ctx fuel r (AtFires now spec fires specs) w = Some (tt, w') →
    rtc (runner_alone ctx fuel clk r) (AtFires now spec fires specs, w) (AtTimer, w').
Proof.
  intros Hspecs fires. induction fires as [|t fires IH]; intros w;
    (rewrite (rest_split ctx fuel clk) by done); unfold gbind at 1;
    destruct (runner_resume ctx fuel clk r _ w) as [[st w1]|] eqn:Hr; try done; intros Hrest;
    eapply alone_step; try exact Hr; try done.
  - assert (st = AtSpecs now specs) as ->; [|by apply Hspecs].
    revert Hr. cbn [runner_resume]. unfold gbind, gret.
    destruct (nextAfter _ _ _ _ w) as [[next w2]|]; [|done].
    destruct (on_store _ _ w2) as [[e w3]|]; [|done]. by intros [= <- _].
  - assert (st = AtFires now spec fires specs) as ->; [|by apply IH].
    revert Hr. cbn [runner_resume]. unfold gbind at 1, gret.
    destruct (save_fire uuid ctx spec now t w) as [[[] w2]|]; [|done]. by intros [= <- _].
Qed.

Lemma rest_specs ctx fuel clk r now w' : ∀ specs w,
  rest_of ctx fuel r (AtSpecs now specs) w = Some (tt, w') →
  rtc (runner_alone ctx fuel clk r) (AtSpecs now specs, w) (AtTimer, w').
Proof.
  intros specs. induction specs as [|spec specs IH]; intros w;
    (rewrite (rest_split ctx fuel clk) by done); unfold gbind at 1;
    destruct (runner_resume ctx fuel clk r _ w) as [[st w1]|] eqn:Hr; try done; intros Hrest;
    eapply alone_step; try exact Hr; try done.
  - revert Hr Hrest. by intros [= <- <-] [= <-].
  - assert (Hst : st = AtSpecs now specs ∨ ∃ fires, st = AtFires now spec fires specs).
    { revert Hr. cbn [runner_resume]. destruct (Time.After _ now); [intros [= <- _]; by left|].
      unfold gbind at 1. destruct (on_store _ _ w) as [[[[] [e|]] w2]|]; try done;
        try (intros [= <- _]; by left).
      unfold gbind at 1. destruct (computeFires parse spec now w2) as [[fires w3]|]; [|done].
      intros [= <- _]. right. by exists fires. }
    destruct Hst as [->|[fires ->]]; [by apply IH|]. by apply rest_fires.
Qed.

(** The turns equal the code's functions: the janitor's two steps in a row are
    [janitor_tick], and the runner's, from its timer until it is back there, are
    [tick]. *)
Theorem turns_equivalent ctx (fuel : nat) (clk : nat → Z) (wid : string) (r : recurringRunner) w :
  gbind (janitor_resume ctx clk wid None) (janitor_resume ctx clk wid) w =
    gbind (janitor_tick ctx clk wid) (λ _, gret None) w ∧
  ∀ w', tick parse uuid ctx fuel clk r w = Some (tt, w') ↔
    ∃ st w1, runner_resume ctx fuel clk r AtTimer w = Some (st, w1) ∧
      rtc (runner_alone ctx fuel clk r) (st, w1) (AtTimer, w').
Proof.
  split.
  - cbn [janitor_resume]. unfold janitor_tick. rewrite !gbind_assoc. apply gbind_ext.
    intros now w1. rewrite !gbind_assoc. apply gbind_ext. intros err w2.
    rewrite !gbind_assoc. apply gbind_ext. intros [] w3.
    change (gbind (gret (Some now)) (janitor_resume ctx clk wid) w3)
      with (janitor_resume ctx clk wid (Some now) w3). cbn [janitor_resume].
    rewrite !gbind_assoc. by apply gbind_ext; intros [n [e|]] w4.
  - intros w'. rewrite tick_split. unfold gbind at 1. split.
    + destruct (runner_resume ctx fuel clk r AtTimer w) as [[st w1]|] eqn:Hr; [|done]. intros Hrest.
      exists st, w1. split; [done|]. cbn [runner_resume] in Hr. unfold gbind, World.Now in Hr.
      destruct (on_store ctx st_ListRecurring _) as [[[specs [e|]] w2]|]; [| |done].
      * injection Hr as <- <-. by injection Hrest as <-.
      * injection Hr as <- <-. by apply rest_specs.
    + intros (st & w1 & -> & Halone). exact (alone_rest _ _ _ _ _ _ Halone).
Qed.
End turns.
