(* ===== verification/System.v ===== *)
(** The running scheduler ([src/scheduler.go] [Start], [src/dispatcher.go],
    [src/worker.go]): dispatchers, worker pools, janitor and recurring runner
    as interleaved steps over one world.

    Each queue has a lane: the batch its dispatcher has claimed and not yet
    sent, the channel (as long as its capacity allows), and the jobs its workers
    are running. A step is what one goroutine does without waiting: a
    dispatcher's claim, one send, a worker's receive up to the start of the
    handler, the rest of [executeOne] after the handler (whatever it
    returned), a call of the public API, and of the janitor and the runner, whose
    turns call the store several times, one call of the turn ([Turns]). Between
    the start and the end of a handler, and between two calls of a turn, any
    other steps may happen. A step is
    labelled with the goroutine that takes it and with whether the context is
    cancelled; which goroutines are left to take one after the cancellation is
    the matter of [Shutdown]. *)

From S2P Require Import Prelude ListLib Types Backoff StoreApi World Recurring Scheduler Worker.
From S2P Require Import MemStoreProps RecurringProps WorkerProps SchedulerProps Ledger Turns.
Local Open Scope Z_scope.
Local Open Scope go_scope.

Record lane : Type := mkLane {
  batch : list Job.t;
  chan : list Job.t;
  running : list (Job.t * Z)
}.

Definition empty_lane : lane := mkLane [] [] [].

(** The dispatcher sends the first job of its batch. *)
Definition send (x : lane) (j : Job.t) (rest : list Job.t) : lane :=
  mkLane rest (chan x ++ [j]) (running x).

(** A worker receives the first job of the channel, and starts its handler at
    the given reading of the clock, or is done with it at once. *)
Definition receive (x : lane) (j : Job.t) (rest : list Job.t) (start : option Z) : lane :=
  mkLane (batch x) rest
    (match start with Some t => running x ++ [(j, t)] | None => running x end).

(** The jobs of a lane. *)
Definition lane_jobs (x : lane) : list Job.t := batch x ++ chan x ++ (running x).*1.
Definition lane_running (x : lane) : list string := Spec.ids (running x).*1.

(** What a function says of every lane, together. *)
Definition collect {A} (f : lane → list A) (ls : gmap string lane) : list A :=
  map_fold (λ _ x acc, f x ++ acc) [] ls.

(** Who takes a step: the goroutines of [Start], a worker by whether it waits at
    its channel or runs a handler, and the callers of the public API. *)
Inductive actor : Type :=
  | Dispatcher (q : string)
  | IdleWorker (q : string)
  | BusyWorker (q : string)
  | JanitorLoop
  | RunnerLoop
  | Caller.

Section system.
Context {St H : Type} `{!StoreOps St}.
Variable uuid : nat → string.
Variable ParseStandard : string → (Z → Z) + string.
Variable s : Scheduler St H.

(** [sys_led] records the executions started: identifier, attempt, bound;
    [sys_turns] where the janitor's and the runner's turns stand. *)
Record Sys : Type := mkSys {
  sys_world : World St H;
  sys_lanes : gmap string lane;
  sys_led : list (string * Z * Z);
  sys_turns : turns
}.

(** [Start]: a dispatcher, a channel and a worker pool per queue. *)
Definition Start (w : World St H) : Sys := mkSys w ((λ _, empty_lane) <$> queues s) [] no_turns.

(** The context given to [Start], before its cancellation or after it: the
    goroutines pass it to every method of the store they call. *)
Definition start_ctx (ctx_done : bool) : context :=
  mkContext (if ctx_done then Some "context canceled" else None).

(** [executeOne] after the handler: [start] is the reading taken before it. *)
Definition finish_job (parent : context) (j : Job.t) (start : Z) (o : outcome) : GoM (World St H) unit :=
  let attempt := wrap64 (Job.Attempt j + 1) in
  let! stop := World.Now (clock s) in
  match outcome_error o with
  | None => handle_success parent s j attempt (Time.Sub stop start)
  | Some err => handle_error parent s j attempt err
  end.

Inductive step (ctx_done : bool) | : actor → Sys → Sys → Prop :=
  | step_claim w ls led tn q c x jobs w' :
      queues s !! q = Some c → ls !! q = Some x → batch x = [] →
      dispatcher_claim (start_ctx ctx_done) (clock s) (dispatcher_for s q c) ctx_done w = Some (jobs, w') →
      step (Dispatcher q) (mkSys w ls led tn)
           (mkSys w' (<[q := mkLane jobs (chan x) (running x)]> ls) led tn)
  | step_send w ls led tn q c x j rest :
      queues s !! q = Some c → ls !! q = Some x → batch x = j :: rest →
      Z.of_nat (length (chan x)) < c →
      step (Dispatcher q) (mkSys w ls led tn)
           (mkSys w (<[q := send x j rest]> ls) led tn)
  | step_start w ls led tn q c x j rest h :
      queues s !! q = Some c → ls !! q = Some x → chan x = j :: rest →
      Z.of_nat (length (running x)) < c → handlers s !! Job.Name j = Some h →
      step (IdleWorker q) (mkSys w ls led tn)
           (mkSys (started s j w)
              (<[q := receive x j rest (Some (clock s (w_reads w)))]> ls)
              ((Job.ID j, wrap64 (Job.Attempt j + 1), Job.MaxAttempts j) :: led) tn)
  | step_no_handler w ls led tn q c x j rest w' :
      queues s !! q = Some c → ls !! q = Some x → chan x = j :: rest →
      Z.of_nat (length (running x)) < c → handlers s !! Job.Name j = None →
      executeOne (start_ctx ctx_done) s j w = Some (tt, w') →
      step (IdleWorker q) (mkSys w ls led tn) (mkSys w' (<[q := receive x j rest None]> ls) led tn)
  | step_finish w ls led tn q x j start r1 r2 o w' :
      ls !! q = Some x → running x = r1 ++ (j, start) :: r2 →
      finish_job (start_ctx ctx_done) j start o w = Some (tt, w') →
      step (BusyWorker q) (mkSys w ls led tn)
           (mkSys w' (<[q := mkLane (batch x) (chan x) (r1 ++ r2)]> ls) led tn)
  | step_janitor w ls led tn st w' :
      janitor_resume (start_ctx ctx_done) (clock s) (workerID s) (janitor_at tn) w = Some (st, w') →
      step JanitorLoop (mkSys w ls led tn) (mkSys w' ls led (mkTurns st (runner_at tn)))
  | step_runner w ls led tn fuel st w' :
      runner_resume ParseStandard uuid (start_ctx ctx_done) fuel (clock s) (mkRunner (workerID s) (pollInterval s))
        (runner_at tn) w = Some (st, w') →
      step RunnerLoop (mkSys w ls led tn) (mkSys w' ls led (mkTurns (janitor_at tn) st))
  | step_at w ls led tn t name payload opts r w' :
      Forall builtin opts → At uuid s t name payload opts w = Some (r, w') →
      step Caller (mkSys w ls led tn) (mkSys w' ls led tn)
  | step_cancel w ls led tn id e w' :
      Scheduler.Cancel id w = Some (e, w') → step Caller (mkSys w ls led tn) (mkSys w' ls led tn)
  | step_reschedule w ls led tn id t e w' :
      Scheduler.Reschedule id t w = Some (e, w') → step Caller (mkSys w ls led tn) (mkSys w' ls led tn)
  | step_every w ls led tn d name payload opts r w' :
      Forall builtin opts → Every uuid s d name payload opts w = Some (r, w') →
      step Caller (mkSys w ls led tn) (mkSys w' ls led tn)
  | step_cron w ls led tn expr name payload opts r w' :
      Forall builtin opts → Cron uuid ParseStandard s expr name payload opts w = Some (r, w') →
      step Caller (mkSys w ls led tn) (mkSys w' ls led tn)
  (** [Scheduler.Now] and [After] read the clock before they go on as [At]. *)
  | step_read w ls led tn :
      step Caller (mkSys w ls led tn) (mkSys (with_reads (S (w_reads w)) w) ls led tn).

(** A step of anybody, before the cancellation or after it. *)
Definition some_step (σ σ' : Sys) : Prop := ∃ ctx_done a, step ctx_done a σ σ'.

(** A step of one of the scheduler's goroutines. *)
Definition goroutine_step (σ σ' : Sys) : Prop := ∃ ctx_done a, a ≠ Caller ∧ step ctx_done a σ σ'.

(** The states reached from a start. *)
Definition reachable (w : World St H) : Sys → Prop := rtc some_step (Start w).
End system.
Arguments mkSys {St H}.
Arguments sys_world {St H}.
Arguments sys_lanes {St H}.
Arguments sys_led {St H}.
Arguments sys_turns {St H}.

(** [executeOne] is a start, the handler, and [finish_job]. *)
Lemma executeOne_split {St H} `{!StoreOps St} (ctx : context) (s : Scheduler St H) j (h : Handler St H) w :
  handlers s !! Job.Name j = Some h →
  executeOne ctx s j w =
    let (o, w2) := h (timeout_of j) (Job.Payload j) (started s j w) in
    finish_job s ctx j (clock s (w_reads w)) o w2.
Proof.
  intros Hh. unfold executeOne, handler. rewrite Hh.
  unfold started, gbind, fireStart, safeInvoke, timeout_of, finish_job, gbind in *.
  destruct (OnStart (hooks s)); cbn; (destruct (h _ _ _) as [[[]|] w2]; done).
Qed.

(** ** Lanes *)

Section lanes.
Context {A : Type} (f : lane → list A).

Lemma collect_delete ls q x :
  ls !! q = Some x → collect f ls ≡ₚ f x ++ collect f (delete q ls).
Proof.
  intros Hq. unfold collect. apply (map_fold_delete (≡ₚ) (λ _ x acc, f x ++ acc)); [| |done].
  - intros _ z l l' Hl. by rewrite Hl.
  - intros. by rewrite !app_assoc, (Permutation_app_comm (f _)).
Qed.

Lemma collect_insert ls q y :
  collect f (<[q := y]> ls) ≡ₚ f y ++ collect f (delete q ls).
Proof.
  rewrite (collect_delete _ q y) by apply lookup_insert_eq. by rewrite delete_insert_eq.
Qed.

Lemma collect_empty (m : gmap string Z) : f empty_lane = [] → collect f ((λ _, empty_lane) <$> m) ≡ₚ [].
Proof.
  intros Hf. induction m as [|q c m Hq IH] using map_ind; [done|].
  rewrite fmap_insert, collect_insert, Hf. rewrite delete_id; [done|]. by rewrite lookup_fmap, Hq.
Qed.

Lemma elem_of_collect ls q x a : ls !! q = Some x → a ∈ f x → a ∈ collect f ls.
Proof. intros Hq Ha. rewrite (collect_delete ls q x Hq). apply elem_of_app. by left. Qed.
End lanes.
