(* ===== verification/SystemProps.v ===== *)
(** What holds in every state the running scheduler reaches, on a store inside
    the process: no job is ever in two places, none is executed twice at once or
    more often than its bound, none is lost between claim and completion, and
    the lanes stay within their capacity. *)

From S2P Require Import Prelude ListLib Types Backoff StoreApi ContainerHeap MemStore MemStoreFacts.
From S2P Require Import MemStoreProps World Recurring RecurringProps Scheduler Worker WorkerProps.
From S2P Require Import SchedulerProps Ledger Turns System.
Local Open Scope Z_scope.
Local Open Scope go_scope.

Section invariant.
Context {St H : Type} `{!StoreOps St, !LawfulStore St, !LocalStore St}.
Context (uuid : nat → string) `{!Inj (=) (=) uuid}.
Variable parse : string → (Z → Z) + string.
Variable s : Scheduler St H.
Implicit Types w : World St H.

(** The world's part of the invariant, for given jobs in flight. *)
Definition world_ok w (fl : list Job.t) (run : list string) (led : list (string * Z * Z)) : Prop :=
  wf (w_store w) ∧ ledger uuid (abs (w_store w)) fl run led (w_uuids w).

(** ** The goroutines' routines *)

Lemma claim_ok_world ctx ctx_done w w' fl run led (d : dispatcher) jobs :
  makeable (d_batchSize d) → world_ok w fl run led →
  dispatcher_claim ctx (clock s) d ctx_done w = Some (jobs, w') →
  world_ok w' (jobs ++ fl) run led ∧ Z.of_nat (length jobs) ≤ d_batchSize d.
Proof.
  intros Hn [Hwf HL]. unfold dispatcher_claim, gbind, World.Now. cbn. rewrite on_store_local. unfold at_store. cbn.
  destruct (law_ClaimDue (w_store w) (d_queue d) (clock s (w_reads w)) (d_batchSize d) (d_workerID d)
    (Time.Add (clock s (w_reads w)) (d_visibility d)) Hwf Hn (local_ok_time _) (local_ok_time _))
    as (out & e & st & -> & Hwf' & Hres).
  destruct Hres as [(msg & -> & -> & Ha)|(js & -> & Hok & Hout & Ha)]; cbn.
  - apply makeable_nonneg in Hn.
    destruct ctx_done; intros [= <- <-]; (split; [|done]); (split; [done|]); cbn; by rewrite Ha.
  - intros [= <- <-]. split; [split; [done|]|].
    + cbn. rewrite Ha. by eapply ledger_claim.
    + replace (length out) with (length js); [apply Hok|].
      by rewrite <- (length_fmap Spec.job_view out), Hout, length_fmap.
Qed.

(** The stored jobs after an execution's end. *)
Definition ended_as (j : Job.t) (sp sp' : Spec.t) : Prop :=
  sp' = (Spec.ack (Job.ID j) sp).2 ∨ ∃ msg t, sp' = (Spec.fail (Job.ID j) msg t sp).2.

Lemma finish_run ctx j start o w w' :
  wf (w_store w) → finish_job s ctx j start o w = Some (tt, w') →
  wf (w_store w') ∧ w_uuids w' = w_uuids w ∧
  ended_as j (abs (w_store w)) (abs (w_store w')).
Proof.
  intros Hwf. unfold finish_job, gbind, World.Now. cbn.
  set (w3 := with_reads (S (w_reads w)) w). destruct (outcome_error o) as [err|].
  - destruct (handle_error_run ctx s j (wrap64 (Job.Attempt j + 1)) err w3 Hwf (local_ok_time _))
      as (e & st & w4 & Hst & -> & <- & Hwf' & Hu & _).
    intros [= <-]. split; [done|]. split; [done|]. right.
    destruct (local_Fail (w_store w3) (Job.ID j) (Error err)
      (next_attempt_at s j (wrap64 (Job.Attempt j + 1)) (clock s (w_reads w3))) Hwf)
      as (st' & Hst' & _ & Ha).
    rewrite under_local in Hst. assert (st' = w_store w4) as -> by congruence. eexists _, _. exact Ha.
  - destruct (handle_success_run ctx s j (wrap64 (Job.Attempt j + 1))
      (Time.Sub (clock s (w_reads w)) start) w3 Hwf) as (e & st & w4 & Hst & -> & <- & Hwf' & Hu & _).
    intros [= <-]. split; [done|]. split; [done|]. left.
    destruct (local_Ack (w_store w3) (Job.ID j) Hwf) as (st' & Hst' & _ & Ha).
    rewrite under_local in Hst. assert (st' = w_store w4) as -> by congruence. exact Ha.
Qed.

Lemma no_handler_ends ctx j w w' :
  handlers s !! Job.Name j = None → wf (w_store w) → executeOne ctx s j w = Some (tt, w') →
  wf (w_store w') ∧ w_uuids w' = w_uuids w ∧
  ended_as j (abs (w_store w)) (abs (w_store w')).
Proof.
  intros Hh Hwf. destruct (no_handler_run ctx s j w Hh Hwf (local_ok_time _))
    as (e & st & w4 & Hst & -> & <- & Hwf' & Hu & _).
  intros [= <-]. split; [done|]. split; [done|]. right.
  destruct (local_Fail (w_store w) (Job.ID j) ("no handler registered for " +:+ Job.Name j)
    (clock s (w_reads w) + Hour) Hwf) as (st' & Hst' & _ & Ha).
  rewrite under_local in Hst. assert (st' = w_store w4) as -> by congruence. eexists _, _. exact Ha.
Qed.

Lemma ended_ok j w w' fl run run' led :
  world_ok w (j :: fl) run led → wf (w_store w') → w_uuids w' = w_uuids w →
  ended_as j (abs (w_store w)) (abs (w_store w')) →
  (∀ k, k ∈ run' ↔ k ∈ run ∧ k ≠ Job.ID j) → world_ok w' fl run' led.
Proof.
  intros [_ HL] Hwf' Hu [Ha|(msg & t & Ha)] Hrun; (split; [done|]); rewrite Ha, Hu.
  - by eapply ledger_ack.
  - by eapply ledger_fail.
Qed.

Lemma janitor_ok ctx w tn st w' fl run led :
  world_ok w fl run led → janitor_resume ctx (clock s) (workerID s) tn w = Some (st, w') →
  world_ok w' fl run led.
Proof.
  intros [Hwf HL]. unfold janitor_resume, gbind, World.Now. destruct tn as [now|]; cbn; rewrite on_store_local; unfold at_store.
  - destruct (local_RecoverStale (w_store w) now Hwf) as (st2 & -> & Hwf2 & Ha2).
    intros [= _ <-]. split; [done|]. cbn. by rewrite Ha2.
  - cbn. destruct (law_Heartbeat (w_store w) (workerID s) (clock s (w_reads w)) Hwf)
      as (e & st1 & -> & Hwf1 & Ha1).
    destruct e; intros [= _ <-]; (split; [done|]); cbn; by rewrite Ha1.
Qed.

(** ** The recurring runner *)

Lemma ledger_save_all spec now fires : ∀ sp n fl run led,
  ledger uuid sp fl run led n → in_int64 (RecurringSpec.MaxAttempts spec) →
  ledger uuid (save_all (fire_jobs uuid spec now n fires) sp) fl run led (n + length fires).
Proof using Inj0.
  induction fires as [|t fires IH]; intros sp n fl run led HL Hm; simpl.
  { by rewrite Nat.add_0_r. }
  rewrite Nat.add_succ_r, <- Nat.add_succ_l. apply IH; [|done]. by apply ledger_save.
Qed.

Lemma ledger_update_next_run sp fl run led n id next last :
  ledger uuid sp fl run led n →
  ledger uuid (Spec.update_next_run id next last sp).2 fl run led n.
Proof.
  intros HL. apply ledger_recurring; [done|]. intros k r. rewrite lookup_alter_Some.
  intros [(-> & r0 & Hr0 & ->)|[_ Hr]].
  - exact (led_specs _ _ _ _ _ _ HL _ r0 Hr0).
  - exact (led_specs _ _ _ _ _ _ HL k r Hr).
Qed.

Lemma save_fire_ok ctx spec now t w w' fl run led :
  world_ok w fl run led → in_int64 (RecurringSpec.MaxAttempts spec) →
  save_fire uuid ctx spec now t w = Some (tt, w') → world_ok w' fl run led.
Proof using All.
  intros [Hwf HL] Hm Hrun.
  destruct (save_fires_run uuid ctx spec now [t] w Hwf) as (w1 & Hrun1 & Hwf1 & Ha1 & Hu1 & _).
  cbn [gfor] in Hrun1. unfold gbind, gret in Hrun1. rewrite Hrun in Hrun1. injection Hrun1 as ->.
  split; [done|]. rewrite Ha1, Hu1. by apply (ledger_save_all spec now [t]).
Qed.

(** Of the schedules in hand the attempts are a Go [int]. *)
Definition in_hand_ok (st : runner_state) : Prop :=
  Forall (λ spec, in_int64 (RecurringSpec.MaxAttempts spec)) (in_hand st).

Lemma listed_ok w fl run led specs st :
  world_ok w fl run led → st_ListRecurring (w_store w) = Some ((specs, None), st) →
  Forall (λ spec, in_int64 (RecurringSpec.MaxAttempts spec)) specs.
Proof using All.
  intros [Hwf HL] Hrun. destruct (local_ListRecurring (w_store w) Hwf) as (l & st' & Heq & _ & _ & Hperm).
  rewrite Hrun in Heq. injection Heq as <- <-. apply Forall_forall. intros spec Hin.
  apply (list_elem_of_fmap_2 Spec.rec_view) in Hin. rewrite Hperm in Hin.
  apply list_elem_of_fmap in Hin as ([k r0] & Heq & Hin). apply elem_of_map_to_list in Hin.
  pose proof (led_specs _ _ _ _ _ _ HL k r0 Hin) as Hi. simpl in Heq. by rewrite <- Heq in Hi.
Qed.

(** One call of a turn of the runner. *)
Lemma runner_ok ctx fuel r tn st w w' fl run led :
  world_ok w fl run led → in_hand_ok tn →
  runner_resume parse uuid ctx fuel (clock s) r tn w = Some (st, w') →
  world_ok w' fl run led ∧ in_hand_ok st.
Proof using All.
  intros Hok Hm. pose proof Hok as [Hwf HL]. destruct tn as [|now [|spec specs]|now spec [|t fires] specs];
    cbn [runner_resume]; unfold in_hand_ok in *; cbn [in_hand] in Hm.
  - unfold gbind at 1 2, World.Now. cbn. rewrite on_store_local. unfold at_store. cbn.
    destruct (local_ListRecurring (w_store w) Hwf) as (specs & s1 & Hl & Hwf1 & Ha1 & _). rewrite Hl.
    intros [= <- <-]. split; [|by eapply listed_ok]. split; [done|]. cbn. by rewrite Ha1.
  - by intros [= <- <-].
  - apply Forall_cons in Hm as [Hm Hms].
    destruct (Time.After (RecurringSpec.NextRunAt spec) now); [by intros [= <- <-]|].
    unfold gbind at 1. rewrite on_store_local. unfold at_store at 1.
    destruct (local_AcquireRecurringLease (w_store w) (RecurringSpec.ID spec)
                (Time.Add now (leaseEvery r)) (Recurring.workerID r) Hwf) as (s1 & -> & Hwf1 & Ha1).
    cbv beta iota. unfold gbind at 1.
    destruct (computeFires_total (St := St) (H := H) parse spec now) as [fires Hf].
    destruct (Hf (with_store s1 w)) as (w2 & -> & Hs2 & _ & Hu2).
    intros [= <- <-]. split; [|by constructor]. unfold world_ok. rewrite Hs2, Hu2. cbn. by rewrite Ha1.
  - apply Forall_cons in Hm as [_ Hms]. unfold gbind at 1.
    destruct (nextAfter parse fuel spec now w) as [[next w4]|] eqn:Hn; [|done].
    apply nextAfter_some in Hn as [Hs4 Hu4]. unfold gbind at 1. rewrite on_store_local. unfold at_store at 1.
    destruct (local_UpdateRecurringNextRun (w_store w4) (RecurringSpec.ID spec) next now)
      as (e & s5 & -> & Hwf5 & Ha5); [by rewrite Hs4|].
    intros [= <- <-]. split; [|done]. split; [done|]. cbn. rewrite Ha5, Hs4, Hu4.
    by apply ledger_update_next_run.
  - unfold gbind at 1. destruct (save_fire uuid ctx spec now t w) as [[[] w1]|] eqn:Hs; [|done].
    intros [= <- <-]. split; [|done]. apply Forall_cons in Hm as [Hm _]. by eapply save_fire_ok.
Qed.

(** ** The public API *)

Lemma At_ok t name payload opts r w w' fl run led :
  world_ok w fl run led → Forall builtin opts →
  At uuid s t name payload opts w = Some (r, w') → world_ok w' fl run led.
Proof using All.
  intros [Hwf HL] Hopts Hat.
  destruct (At_run uuid s t name payload opts w Hwf (local_ok_job _))
    as (id & err & w1 & Hrun & Hwf' & Hu & Hnone & Hres).
  rewrite Hat in Hrun. injection Hrun as -> ->. split; [done|]. destruct err as [e|].
  - destruct Hres as (_ & -> & _). eapply ledger_more; [done|lia].
  - destruct Hres as (_ & _ & _ & -> & _). rewrite (Hnone eq_refl).
    set (j0 := new_job (uuid (w_uuids w)) name payload t (clock s (w_reads w))).
    destruct (builtin_keeps opts j0 Hopts) as (Hid & Hst & _ & _ & Hat0).
    apply (ledger_save uuid); try done.
    apply builtin_attempts_int; [done|]. split; [by vm_compute|by vm_compute].
Qed.

Lemma Cancel_ok id e w w' fl run led :
  world_ok w fl run led → Scheduler.Cancel id w = Some (e, w') → world_ok w' fl run led.
Proof using All.
  intros [Hwf HL]. unfold Scheduler.Cancel, on_store, at_store, under. cbn.
  destruct (local_Cancel (w_store w) id Hwf) as (st & -> & Hwf' & Ha).
  intros [= _ <-]. split; [done|]. cbn. rewrite Ha. by apply ledger_cancel.
Qed.

Lemma Reschedule_ok id t e w w' fl run led :
  world_ok w fl run led → Scheduler.Reschedule id t w = Some (e, w') → world_ok w' fl run led.
Proof using All.
  intros [Hwf HL]. unfold Scheduler.Reschedule, on_store, at_store, under. cbn.
  destruct (law_Reschedule (w_store w) id t Hwf (local_ok_time _)) as (e' & st & -> & Hwf' & Hres).
  intros [= -> <-]. split; [done|]. cbn. destruct Hres as [(m & _ & ->)|Hr]; [done|].
  replace (abs st) with (Spec.reschedule id t (abs (w_store w))).2 by (by rewrite <- Hr).
  by apply ledger_reschedule.
Qed.

Lemma upsert_ok (spec : RecurringSpec.t) r w w' fl run led :
  world_ok w fl run led → in_int64 (RecurringSpec.MaxAttempts spec) →
  upsert_and_announce s spec w = Some (r, w') → world_ok w' fl run led.
Proof using All.
  intros [Hwf HL] Hm Hrun. destruct (upsert_run s spec w Hwf) as (w1 & Hrun1 & Hwf1 & Ha & _ & Hu).
  rewrite Hrun in Hrun1. injection Hrun1 as -> ->. split; [done|]. rewrite Ha, Hu.
  apply ledger_recurring; [done|]. intros k x. rewrite lookup_insert_Some.
  intros [[_ <-]|[_ Hx]]; [exact Hm|exact (led_specs _ _ _ _ _ _ HL k x Hx)].
Qed.

(** Generating an identifier and reading the clock. *)
Lemma tick_world_ok w n m fl run led :
  world_ok w fl run led → (w_uuids w ≤ m)%nat →
  world_ok (with_reads n (with_uuids m w)) fl run led.
Proof using All. intros [Hwf HL] Hm. split; [done|]. cbn. by eapply ledger_more. Qed.

Lemma spec_defaults_int opts :
  Forall builtin opts → in_int64 (Job.MaxAttempts (apply_options opts spec_defaults)).
Proof using Type. intros Hopts. apply builtin_attempts_int; [done|]. split; by vm_compute. Qed.

Lemma Every_ok d name payload opts r w w' fl run led :
  world_ok w fl run led → Forall builtin opts →
  Every uuid s d name payload opts w = Some (r, w') → world_ok w' fl run led.
Proof using All.
  intros Hok Hopts. unfold Every. destruct (handler s name); [|by intros [= _ <-]].
  destruct (d <=? 0); [by intros [= _ <-]|].
  unfold gbind, buildRecurringSpec, NewString, gbind, World.Now, gret. cbn [w_uuids w_reads with_uuids].
  apply upsert_ok; [|by apply spec_defaults_int]. apply (tick_world_ok w (S (w_reads w))); [done|lia].
Qed.

Lemma Cron_ok expr name payload opts r w w' fl run led :
  world_ok w fl run led → Forall builtin opts →
  Cron uuid parse s expr name payload opts w = Some (r, w') → world_ok w' fl run led.
Proof using All.
  intros Hok Hopts. unfold Cron. destruct (handler s name); [|by intros [= _ <-]].
  destruct (parse expr); [|by intros [= _ <-]].
  unfold gbind, buildRecurringSpec, NewString, gbind, World.Now, gret. cbn [w_uuids w_reads with_uuids].
  apply upsert_ok; [|by apply spec_defaults_int]. apply (tick_world_ok w (S (w_reads w))); [done|lia].
Qed.

Lemma started_ok j w fl run led :
  world_ok w fl run led → world_ok (started s j w) fl run led.
Proof using All.
  intros [Hwf HL]. destruct (started_facts s j w) as (Hst & _ & _). unfold world_ok. rewrite Hst.
  split; [done|]. eapply ledger_more; [done|]. unfold started, fireStart, gbind. simpl.
  by destruct (OnStart (hooks s)).
Qed.

(** ** The whole *)

(** A lane within the capacity its queue has. *)
Definition lane_ok (c : Z) (x : lane) : Prop :=
  Z.of_nat (length (batch x)) ≤ c ∧ Z.of_nat (length (chan x)) ≤ c ∧
  Z.of_nat (length (running x)) ≤ c.

Definition invariant (σ : Sys (St := St) (H := H)) : Prop :=
  world_ok (sys_world σ) (collect lane_jobs (sys_lanes σ)) (collect lane_running (sys_lanes σ))
    (sys_led σ) ∧
  (∀ q x, sys_lanes σ !! q = Some x → ∃ c, queues s !! q = Some c ∧ lane_ok c x) ∧
  in_hand_ok (runner_at (sys_turns σ)).

(** A step that changes one lane. *)
Lemma lane_step w ls led tn q c x y led' w' :
  invariant (mkSys w ls led tn) → ls !! q = Some x → queues s !! q = Some c → lane_ok c y →
  (∀ fl run, world_ok w (lane_jobs x ++ fl) (lane_running x ++ run) led →
     NoDup (Spec.ids (lane_jobs x ++ fl)) → run ⊆ Spec.ids fl →
     world_ok w' (lane_jobs y ++ fl) (lane_running y ++ run) led') →
  invariant (mkSys w' (<[q := y]> ls) led' tn).
Proof using All.
  intros (Hok & Hcap & Hturns) Hx Hc Hy Hw. simpl in *. split; [|split; [|exact Hturns]]; simpl.
  - pose proof (collect_delete lane_jobs ls q x Hx) as Hj.
    pose proof (collect_delete lane_running ls q x Hx) as Hr.
    assert (Hok' : world_ok w (lane_jobs x ++ collect lane_jobs (delete q ls))
                     (lane_running x ++ collect lane_running (delete q ls)) led).
    { split; [apply Hok|]. eapply ledger_perm; [apply Hok|done|]. intros k. by rewrite Hr. }
    assert (Hsub : collect lane_running (delete q ls) ⊆ Spec.ids (collect lane_jobs (delete q ls))).
    { generalize (delete q ls). intros m. induction m as [|k z m Hk IH] using map_ind; [done|].
      intros i. unfold Spec.ids in *. rewrite !collect_insert, fmap_app, !elem_of_app, !delete_id by done.
      intros [Hi|Hi]; [left|right; by apply IH]. unfold lane_running, lane_jobs in *.
      rewrite !fmap_app, !elem_of_app. by right; right. }
    specialize (Hw _ _ Hok' (led_nodup _ _ _ _ _ _ (proj2 Hok')) Hsub).
    split; [apply Hw|]. eapply ledger_perm; [apply Hw|by rewrite collect_insert|].
    intros k. by rewrite collect_insert.
  - intros q' z. rewrite lookup_insert_Some. intros [[<- <-]|[_ Hz]]; [by exists c|by apply Hcap].
Qed.
(** A job apart from the others: its identifier is none of theirs. *)
Lemma apart (j : Job.t) l rest :
  NoDup (Spec.ids l) → l ≡ₚ j :: rest → Job.ID j ∉ Spec.ids rest.
Proof using Type. intros Hnd Hl. rewrite Hl in Hnd. by apply NoDup_cons in Hnd as [? _]. Qed.

Lemma ids_app (l l' : list Job.t) : Spec.ids (l ++ l') = Spec.ids l ++ Spec.ids l'.
Proof using Type. apply fmap_app. Qed.

Lemma world_ok_perm w fl fl' run run' led :
  world_ok w fl run led → fl ≡ₚ fl' → (∀ k, k ∈ run' ↔ k ∈ run) → world_ok w fl' run' led.
Proof using All. intros [? ?] Hfl Hrun. split; [done|]. by eapply ledger_perm. Qed.

Lemma claim_step ctx ctx_done w ls led tn q c x jobs w' :
  makeable c → invariant (mkSys w ls led tn) → queues s !! q = Some c → ls !! q = Some x → batch x = [] →
  dispatcher_claim ctx (clock s) (dispatcher_for s q c) ctx_done w = Some (jobs, w') →
  invariant (mkSys w' (<[q := mkLane jobs (chan x) (running x)]> ls) led tn).
Proof using All.
  intros Hc Hinv Hq Hx Hb Hrun. pose proof (proj1 (proj2 Hinv) q x Hx) as (c' & Hq' & _ & Hlc & Hlr).
  assert (c' = c) as -> by congruence.
  assert (Hlen : Z.of_nat (length jobs) ≤ c).
  { exact (proj2 (claim_ok_world ctx ctx_done w w' _ _ _ (dispatcher_for s q c) jobs Hc (proj1 Hinv) Hrun)). }
  eapply lane_step; [done|done|done|done|]. intros fl run Hok _ _.
  unfold lane_jobs in *. rewrite Hb in Hok. simpl in *. rewrite <- app_assoc.
  exact (proj1 (claim_ok_world ctx ctx_done w w' _ _ _ (dispatcher_for s q c) jobs Hc Hok Hrun)).
Qed.

Lemma send_step w ls led tn q c x j rest :
  invariant (mkSys w ls led tn) → queues s !! q = Some c → ls !! q = Some x → batch x = j :: rest →
  Z.of_nat (length (chan x)) < c →
  invariant (mkSys w (<[q := mkLane rest (chan x ++ [j]) (running x)]> ls) led tn).
Proof using All.
  intros Hinv Hq Hx Hb Hlt. pose proof (proj1 (proj2 Hinv) q x Hx) as (c' & Hq' & Hlb & Hlc & Hlr).
  assert (c' = c) as -> by congruence.
  eapply lane_step; [done|done|done| |].
  - unfold lane_ok. simpl. rewrite length_app. rewrite Hb in Hlb. simpl in *. lia.
  - intros fl run Hok _ _. eapply world_ok_perm; [done| |done]. unfold lane_jobs. rewrite Hb. simpl.
    rewrite <- !app_assoc. simpl. rewrite !Permutation_middle. do 2 f_equiv.
Qed.

(** The first job of a channel, apart from the rest. *)
Lemma chan_apart x j rest fl run :
  chan x = j :: rest → NoDup (Spec.ids (lane_jobs x ++ fl)) → run ⊆ Spec.ids fl →
  lane_jobs x ++ fl ≡ₚ j :: (batch x ++ rest ++ (running x).*1) ++ fl ∧
  Job.ID j ∉ lane_running x ++ run.
Proof using Type.
  intros Hc Hnd Hsub.
  assert (Hp : lane_jobs x ++ fl ≡ₚ j :: (batch x ++ rest ++ (running x).*1) ++ fl).
  { unfold lane_jobs. rewrite Hc. simpl. by rewrite <- Permutation_middle. }
  split; [done|]. pose proof (apart j _ _ Hnd Hp) as Hap.
  rewrite !ids_app, !elem_of_app in Hap. unfold lane_running. rewrite elem_of_app.
  intros [Hk|Hk]; [tauto|]. apply Hsub in Hk. tauto.
Qed.

Lemma start_step w ls led tn q c x j rest h :
  invariant (mkSys w ls led tn) → queues s !! q = Some c → ls !! q = Some x → chan x = j :: rest →
  Z.of_nat (length (running x)) < c → handlers s !! Job.Name j = Some h →
  invariant (mkSys (started s j w)
    (<[q := mkLane (batch x) rest (running x ++ [(j, clock s (w_reads w))])]> ls)
    ((Job.ID j, wrap64 (Job.Attempt j + 1), Job.MaxAttempts j) :: led) tn).
Proof using All.
  intros Hinv Hq Hx Hch Hlt Hh. pose proof (proj1 (proj2 Hinv) q x Hx) as (c' & Hq' & Hlb & Hlc & Hlr).
  assert (c' = c) as -> by congruence.
  eapply lane_step; [done|done|done| |].
  - unfold lane_ok. simpl. rewrite length_app. rewrite Hch in Hlc. simpl in *. lia.
  - intros fl run Hok Hnd Hsub. destruct (chan_apart x j rest fl run Hch Hnd Hsub) as [Hp Hnr].
    apply (started_ok j) in Hok. destruct Hok as [Hwf HL].
    apply (ledger_start _ _ _ _ _ _ j) in HL; [|rewrite Hp; by left|done].
    assert (Hok : world_ok (started s j w) (lane_jobs x ++ fl) (Job.ID j :: lane_running x ++ run)
      ((Job.ID j, wrap64 (Job.Attempt j + 1), Job.MaxAttempts j) :: led)) by done.
    eapply world_ok_perm; [done| |].
    + rewrite Hp. unfold lane_jobs. simpl. rewrite fmap_app. simpl.
      rewrite <- !app_assoc. simpl. by rewrite !Permutation_middle.
    + intros k. unfold lane_running. simpl. rewrite fmap_app, ids_app. simpl.
      rewrite elem_of_cons, !elem_of_app, elem_of_cons, elem_of_nil. tauto.
Qed.

Lemma no_handler_step ctx w ls led tn q c x j rest w' :
  invariant (mkSys w ls led tn) → queues s !! q = Some c → ls !! q = Some x → chan x = j :: rest →
  handlers s !! Job.Name j = None → executeOne ctx s j w = Some (tt, w') →
  invariant (mkSys w' (<[q := mkLane (batch x) rest (running x)]> ls) led tn).
Proof using All.
  intros Hinv Hq Hx Hch Hh Hrun. pose proof (proj1 (proj2 Hinv) q x Hx) as (c' & Hq' & Hlb & Hlc & Hlr).
  assert (c' = c) as -> by congruence.
  destruct (no_handler_ends ctx j w w' Hh (proj1 (proj1 Hinv)) Hrun) as (Hwf' & Hu & Hend).
  eapply lane_step; [done|done|done| |].
  - unfold lane_ok. simpl. rewrite Hch in Hlc. simpl in *. lia.
  - intros fl run Hok Hnd Hsub. destruct (chan_apart x j rest fl run Hch Hnd Hsub) as [Hp Hnr].
    eapply (ended_ok j w); [|done|done|done|].
    + eapply world_ok_perm; [done|exact Hp|done].
    + intros k. unfold lane_running in *. simpl. split; [|by intros [? _]].
      intros Hk. split; [done|]. by intros ->.
Qed.

Lemma finish_step ctx w ls led tn q x j start r1 r2 o w' :
  invariant (mkSys w ls led tn) → ls !! q = Some x → running x = r1 ++ (j, start) :: r2 →
  finish_job s ctx j start o w = Some (tt, w') →
  invariant (mkSys w' (<[q := mkLane (batch x) (chan x) (r1 ++ r2)]> ls) led tn).
Proof using All.
  intros Hinv Hx Hr Hrun. pose proof (proj1 (proj2 Hinv) q x Hx) as (c & Hq & Hlb & Hlc & Hlr).
  destruct (finish_run ctx j start o w w' (proj1 (proj1 Hinv)) Hrun) as (Hwf' & Hu & Hend).
  eapply lane_step; [done|done|done| |].
  - unfold lane_ok. simpl. rewrite length_app. rewrite Hr, length_app in Hlr. simpl in *. lia.
  - intros fl run Hok Hnd Hsub.
    assert (Hp : lane_jobs x ++ fl ≡ₚ j :: (batch x ++ chan x ++ (r1 ++ r2).*1) ++ fl).
    { unfold lane_jobs. rewrite Hr, !fmap_app. simpl. by rewrite <- !Permutation_middle. }
    pose proof (apart j _ _ Hnd Hp) as Hap. rewrite !ids_app, !elem_of_app in Hap.
    eapply (ended_ok j w); [|done|done|done|].
    + eapply world_ok_perm; [done|exact Hp|done].
    + intros k. unfold lane_running. cbn [running]. rewrite Hr, !fmap_app, fmap_cons, !ids_app.
      change (Spec.ids ((j, start).1 :: r2.*1)) with (Job.ID j :: Spec.ids r2.*1).
      rewrite !elem_of_app, elem_of_cons. rewrite !fmap_app, !ids_app, !elem_of_app in Hap. split.
      * intros Hk. split; [tauto|]. intros ->. destruct Hk as [?|Hk]; [tauto|].
        apply Hsub in Hk. tauto.
      * tauto.
Qed.

Hypothesis capacities : ∀ q c, queues s !! q = Some c → makeable c.

Lemma step_keeps ctx_done a σ σ' : invariant σ → step uuid parse s ctx_done a σ σ' → invariant σ'.
Proof using All.
  intros Hinv Hstep. destruct Hstep.
  - by eapply claim_step; [eapply capacities|..].
  - by eapply send_step.
  - by eapply start_step.
  - by eapply no_handler_step.
  - by eapply finish_step.
  - split; [eapply janitor_ok; [apply Hinv|done]|apply Hinv].
  - destruct Hinv as (Hok & Hcap & Hturns).
    eapply runner_ok in H0 as [? ?]; [|exact Hok|exact Hturns]. done.
  - split; [eapply At_ok; [apply Hinv|done|done]|apply Hinv].
  - split; [eapply Cancel_ok; [apply Hinv|done]|apply Hinv].
  - split; [eapply Reschedule_ok; [apply Hinv|done]|apply Hinv].
  - split; [eapply Every_ok; [apply Hinv|done|done]|apply Hinv].
  - split; [eapply Cron_ok; [apply Hinv|done|done]|apply Hinv].
  - split; [|apply Hinv]. destruct w. by apply tick_world_ok; [apply Hinv|].
Qed.

(** A world to start in: nothing stored yet. *)
Definition fresh_world w : Prop := wf (w_store w) ∧ abs (w_store w) = Spec.mk ∅ ∅.

Lemma start_invariant w : fresh_world w → invariant (Start s w).
Proof using All.
  intros [Hwf Ha]. split; simpl.
  - split; [done|]. rewrite Ha.
    eapply ledger_perm with (fl := []) (run := []);
      [|by rewrite collect_empty|intros k; by rewrite collect_empty].
    split; simpl; try done.
    + constructor.
    + intros j Hj. by apply elem_of_nil in Hj.
    + intros k [[v Hv]|Hk]; [done|by apply elem_of_nil in Hk].
    + intros e He. by apply elem_of_nil in He.
    + constructor.
  - split; [|by constructor]. intros q x. rewrite lookup_fmap_Some. intros (c & <- & Hq).
    exists c. split; [done|]. apply capacities, makeable_nonneg in Hq. split_and!; simpl; lia.
Qed.

Lemma reachable_invariant w σ : fresh_world w → reachable uuid parse s w σ → invariant σ.
Proof using All.
  intros Hw Hr. unfold reachable in Hr. remember (Start s w) as σ0 eqn:H0.
  assert (Hinv : invariant σ0) by (subst; by apply start_invariant). clear H0.
  induction Hr as [|? ? ? (? & ? & Hstep) _ IH]; [done|]. apply IH. by eapply step_keeps.
Qed.
End invariant.

(** ** A run to try the theorems on *)

Definition demo_sys : Scheduler MemStore.Store (list event) := demo_scheduler.
Definition demo_start : World MemStore.Store (list event) := empty_world.

Lemma demo_capacities q c : queues demo_sys !! q = Some c → makeable c.
Proof.
  change (queues demo_sys) with ({["default" := 4]} : gmap string Z).
  rewrite lookup_singleton_Some. intros [_ <-]. by apply (bool_decide_unpack _).
Qed.

Lemma demo_fresh : fresh_world demo_start.
Proof. split; [apply MemStoreFacts.New_wf|reflexivity]. Qed.

(** One job scheduled, claimed, sent to a worker and started. *)
Lemma demo_reachable :
  ∃ σ, reachable demo_uuid demo_parse demo_sys demo_start σ ∧
       collect lane_running (sys_lanes σ) = ["u"] ∧ sys_led σ = [("u", 1, 3)].
Proof.
  eexists. split; [|split].
  - eapply rtc_l.
    { exists false. eexists. eapply (step_at _ _ _ _ _ _ _ _ 50 "job" [] [WithPriority PriorityHigh]).
      - repeat constructor.
      - vm_compute; reflexivity. }
    eapply rtc_l.
    { exists false. eexists. eapply (step_claim _ _ _ _ _ _ _ _ "default" 4 empty_lane); [reflexivity|reflexivity|reflexivity|].
      vm_compute; reflexivity. }
    eapply rtc_l.
    { exists false. eexists. eapply (step_send _ _ _ _ _ _ _ _ "default" 4); [reflexivity|apply lookup_insert_eq|reflexivity|done]. }
    eapply rtc_l.
    { exists false. eexists. eapply (step_start _ _ _ _ _ _ _ _ "default" 4);
        [reflexivity|apply lookup_insert_eq|reflexivity|done|reflexivity]. }
    apply rtc_refl.
  - vm_compute; reflexivity.
  - vm_compute; reflexivity.
Qed.

(** ** Properties *)

(** They are about one scheduler on a store inside its process, which is what
    [LocalStore] says: it serves no other process, reports no infrastructure
    error, looks at no context and takes no claim back. The in-memory store is one;
    a database is not, and there a job that outlives its lock is claimed again
    ([ClusterProps.cluster_double_run]), a claim whose reply is lost is in no lane
    ([LostReplies.lost_claim_recovered]), and a recovered attempt is counted again.
    The store is empty at the start, identifiers are unique, capacities are ones
    [make] accepts, and options are the library's own. *)

(** C1: no double execution. On a store inside the process, empty at the start:
    in every state the one scheduler running on it reaches, whatever the interleaving of dispatchers, workers, janitor, recurring
    runner and API calls, an identifier is in flight at most once (in one
    batch, one channel or one worker), and every job in flight is claimed in
    the store with the attempt number it is run under. *)
Theorem no_double_execution {St H : Type} `{!StoreOps St, !LawfulStore St, !LocalStore St}
    (uuid : nat → string) (parse : string → (Z → Z) + string) (s : Scheduler St H) (w : World St H) (σ : Sys) :
  Inj (=) (=) uuid → (∀ q c, queues s !! q = Some c → makeable c) → fresh_world w →
  reachable uuid parse s w σ →
  NoDup (Spec.ids (collect lane_jobs (sys_lanes σ))) ∧
  ∀ j, j ∈ collect lane_jobs (sys_lanes σ) →
    ∃ v, Spec.jobs (abs (w_store (sys_world σ))) !! Job.ID j = Some v ∧
      Job.State v = StateClaimed ∧ Job.Attempt v = Job.Attempt j.
Proof.
  intros Hu Hc Hw Hr. destruct (reachable_invariant uuid parse s Hc w σ Hw Hr) as [[_ HL] _].
  split; [apply HL|]. intros j Hj. destruct (led_flight _ _ _ _ _ _ HL j Hj) as (v & ? & ? & ? & _).
  by exists v.
Qed.

(** C2: no job is lost. On a store inside the process, empty at the start: in
    every state the one scheduler running on it reaches, each claimed job of the store
    is in flight: in a dispatcher's batch, in a channel or with a worker. *)
Theorem no_job_lost {St H : Type} `{!StoreOps St, !LawfulStore St, !LocalStore St}
    (uuid : nat → string) (parse : string → (Z → Z) + string) (s : Scheduler St H) (w : World St H) (σ : Sys) (k : string) (v : Job.t) :
  Inj (=) (=) uuid → (∀ q c, queues s !! q = Some c → makeable c) → fresh_world w →
  reachable uuid parse s w σ →
  Spec.jobs (abs (w_store (sys_world σ))) !! k = Some v → Job.State v = StateClaimed →
  k ∈ Spec.ids (collect lane_jobs (sys_lanes σ)).
Proof.
  intros Hu Hc Hw Hr. destruct (reachable_invariant uuid parse s Hc w σ Hw Hr) as [[_ HL] _].
  apply HL.
Qed.

(** C3: bounded attempts. On a store inside the process, empty at the start: over
    a whole run of the one scheduler on it, the executions started of jobs with
    a positive [MaxAttempts] carry attempt numbers from 1 to that bound, and
    none twice for a job: a handler is called [MaxAttempts] times at most. *)
Theorem attempts_bounded {St H : Type} `{!StoreOps St, !LawfulStore St, !LocalStore St}
    (uuid : nat → string) (parse : string → (Z → Z) + string) (s : Scheduler St H) (w : World St H) (σ : Sys) :
  Inj (=) (=) uuid → (∀ q c, queues s !! q = Some c → makeable c) → fresh_world w →
  reachable uuid parse s w σ →
  NoDup (bounded (sys_led σ)) ∧
  ∀ id a m, (id, a, m) ∈ sys_led σ → 0 < m → 1 ≤ a ≤ m.
Proof.
  intros Hu Hc Hw Hr. destruct (reachable_invariant uuid parse s Hc w σ Hw Hr) as [[_ HL] _].
  split; [apply HL|]. intros id a m Hin Hm.
  exact (proj1 (led_entries _ _ _ _ _ _ HL (id, a, m) Hin Hm)).
Qed.

(** back-pressure. In every reachable state a queue of concurrency [c] has
    at most [c] jobs with its workers, [c] in its channel and [c] in its
    dispatcher's hands: no more than [3 c] are claimed ahead of execution. *)
Theorem lanes_bounded {St H : Type} `{!StoreOps St, !LawfulStore St, !LocalStore St}
    (uuid : nat → string) (parse : string → (Z → Z) + string) (s : Scheduler St H) (w : World St H) (σ : Sys) (q : string) (x : lane) :
  Inj (=) (=) uuid → (∀ q c, queues s !! q = Some c → makeable c) → fresh_world w →
  reachable uuid parse s w σ → sys_lanes σ !! q = Some x →
  ∃ c, queues s !! q = Some c ∧ Z.of_nat (length (running x)) ≤ c ∧
    Z.of_nat (length (chan x)) ≤ c ∧ Z.of_nat (length (lane_jobs x)) ≤ 3 * c.
Proof.
  intros Hu Hc Hw Hr Hx. destruct (reachable_invariant uuid parse s Hc w σ Hw Hr) as (_ & Hcap & _).
  destruct (Hcap q x Hx) as (c & Hq & Hb & Hch & Hrun). exists c. split; [done|].
  split; [done|]. split; [done|]. unfold lane_jobs. rewrite !length_app, length_fmap. lia.
Qed.
Lemma no_double_execution_witness :
  ∃ σ, reachable demo_uuid demo_parse demo_sys demo_start σ ∧
    collect lane_running (sys_lanes σ) = ["u"] ∧
    NoDup (Spec.ids (collect lane_jobs (sys_lanes σ))) ∧
    ∀ j, j ∈ collect lane_jobs (sys_lanes σ) →
      ∃ v, Spec.jobs (abs (w_store (sys_world σ))) !! Job.ID j = Some v ∧
        Job.State v = StateClaimed ∧ Job.Attempt v = Job.Attempt j.
Proof.
  destruct demo_reachable as (σ & Hr & Hn & _). exists σ. split; [exact Hr|]. split; [exact Hn|].
  apply (no_double_execution demo_uuid demo_parse demo_sys demo_start σ).
  - apply demo_uuid_inj.
  - apply demo_capacities.
  - apply demo_fresh.
  - exact Hr.
Defined.

Lemma no_job_lost_witness :
  ∃ σ, reachable demo_uuid demo_parse demo_sys demo_start σ ∧
    collect lane_running (sys_lanes σ) = ["u"] ∧
    ∀ k v, Spec.jobs (abs (w_store (sys_world σ))) !! k = Some v → Job.State v = StateClaimed →
      k ∈ Spec.ids (collect lane_jobs (sys_lanes σ)).
Proof.
  destruct demo_reachable as (σ & Hr & Hn & _). exists σ. split; [exact Hr|]. split; [exact Hn|].
  intros k v. apply (no_job_lost demo_uuid demo_parse demo_sys demo_start σ).
  - apply demo_uuid_inj.
  - apply demo_capacities.
  - apply demo_fresh.
  - exact Hr.
Defined.

Lemma attempts_bounded_witness :
  ∃ σ, reachable demo_uuid demo_parse demo_sys demo_start σ ∧ sys_led σ = [("u", 1, 3)] ∧
    NoDup (bounded (sys_led σ)) ∧ ∀ id a m, (id, a, m) ∈ sys_led σ → 0 < m → 1 ≤ a ≤ m.
Proof.
  destruct demo_reachable as (σ & Hr & _ & Hl). exists σ. split; [exact Hr|]. split; [exact Hl|].
  apply (attempts_bounded demo_uuid demo_parse demo_sys demo_start σ).
  - apply demo_uuid_inj.
  - apply demo_capacities.
  - apply demo_fresh.
  - exact Hr.
Defined.

Lemma lanes_bounded_witness :
  ∃ σ x, reachable demo_uuid demo_parse demo_sys demo_start σ ∧
    sys_lanes σ !! "default" = Some x ∧
    ∃ c, queues demo_sys !! "default" = Some c ∧ Z.of_nat (length (running x)) ≤ c ∧
      Z.of_nat (length (chan x)) ≤ c ∧ Z.of_nat (length (lane_jobs x)) ≤ 3 * c.
Proof.
  exists (Start demo_sys demo_start), empty_lane. split; [apply rtc_refl|]. split; [reflexivity|].
  apply (lanes_bounded demo_uuid demo_parse demo_sys demo_start (Start demo_sys demo_start) "default").
  - apply demo_uuid_inj.
  - apply demo_capacities.
  - apply demo_fresh.
  - apply rtc_refl.
  - reflexivity.
Defined.
