(* ===== verification/TurnsProps.v ===== *)
(** How the janitor's and the runner's turns go on, on a store inside the
    process: both come to their end if nobody else moves, unless the runner has
    in hand a schedule without a later activation; then it never makes another
    step, whatever the other goroutines do. *)

From S2P Require Import Prelude ListLib Types StoreApi MemStoreProps World Recurring RecurringProps.
From S2P Require Import Scheduler Worker Ledger Turns System.
Local Open Scope Z_scope.
Local Open Scope go_scope.

Section ends.
Context {St H : Type} `{!StoreOps St, !LawfulStore St, !LocalStore St}.
Variable uuid : nat → string.
Variable parse : string → (Z → Z) + string.
Variable s : Scheduler St H.
Implicit Types w : World St H.
Local Abbreviation step := (step uuid parse s).

(** The runner is stuck: each activation of the schedule, however far it
    searches, is in the past. *)
Definition hung (st : runner_state) : Prop :=
  ∃ now spec specs, st = AtFires now spec [] specs ∧ ∀ i, instant parse spec i ≤ now.

(** The search for the next run ends if the activations go on. *)
Lemma nextAfter_total spec now :
  progressing parse spec → ∃ fuel t, quiet (nextAfter (St := St) (H := H) parse fuel spec now) t.
Proof using Type.
  intros Hp. destruct (Z_lt_le_dec now (RecurringSpec.NextRunAt spec)) as [Hlt|Hle].
  - exists O, (instant parse spec 1). unfold nextAfter. eapply quiet_bind; [apply advance_quiet|].
    change (Recurring.step parse spec (RecurringSpec.NextRunAt spec)) with (instant parse spec 1). cbn [nextAfter_loop].
    replace (Time.After (instant parse spec 1) now) with true; [apply quiet_ret|].
    symmetry. apply Z.ltb_lt. etrans; [exact Hlt|]. by apply (instant_lt parse spec 0 1); [|lia].
  - destruct (first_after_exists parse spec now Hp) as [k Hk]. exists k, (instant parse spec k).
    by apply nextAfter_quiet.
Qed.

(** The call of a turn that is not stuck. *)
Lemma fires_done ctx r now spec specs w :
  wf (w_store w) → progressing parse spec →
  ∃ fuel w', runner_resume parse uuid ctx fuel (clock s) r (AtFires now spec [] specs) w =
    Some (AtSpecs now specs, w') ∧ wf (w_store w').
Proof using All.
  intros Hwf Hp. destruct (nextAfter_total spec now Hp) as (fuel & t & Hq). exists fuel.
  destruct (Hq w) as (w1 & Hr & Hs & _). cbn [runner_resume]. unfold gbind at 1. rewrite Hr.
  unfold gbind at 1. rewrite on_store_local. unfold at_store at 1.
  destruct (local_UpdateRecurringNextRun (w_store w1) (RecurringSpec.ID spec) t now)
    as (e & s5 & -> & Hwf5 & _); [by rewrite Hs|]. by eexists.
Qed.

Lemma fire_saved ctx fuel r now spec t fires specs w :
  wf (w_store w) →
  ∃ w', runner_resume parse uuid ctx fuel (clock s) r (AtFires now spec (t :: fires) specs) w =
    Some (AtFires now spec fires specs, w') ∧ wf (w_store w').
Proof using All.
  intros Hwf. destruct (save_fires_run uuid ctx spec now [t] w Hwf) as (w1 & Hrun & Hwf1 & _).
  cbn [gfor] in Hrun. unfold gbind, gret in Hrun. cbn [runner_resume]. unfold gbind.
  destruct (save_fire uuid ctx spec now t w) as [[[] w2]|]; [|done]. injection Hrun as ->. by exists w1.
Qed.

Lemma spec_taken ctx fuel r now spec specs w :
  wf (w_store w) →
  ∃ st w', runner_resume parse uuid ctx fuel (clock s) r (AtSpecs now (spec :: specs)) w = Some (st, w') ∧
    wf (w_store w') ∧ (st = AtSpecs now specs ∨ ∃ fires, st = AtFires now spec fires specs).
Proof using All.
  intros Hwf. cbn [runner_resume].
  destruct (Time.After _ now); [do 2 eexists; split; [reflexivity|]; split; [done|by left]|].
  unfold gbind at 1. rewrite on_store_local. unfold at_store at 1.
  destruct (local_AcquireRecurringLease (w_store w) (RecurringSpec.ID spec)
              (Time.Add now (leaseEvery r)) (Recurring.workerID r) Hwf) as (s1 & -> & Hwf1 & _).
  cbv beta iota. unfold gbind at 1.
  destruct (computeFires_total (St := St) (H := H) parse spec now) as [fires Hf].
  destruct (Hf (with_store s1 w)) as (w2 & -> & Hs2 & _).
  do 2 eexists. split; [reflexivity|]. split; [by rewrite Hs2|]. right. by eexists.
Qed.

(** *** Turns come to their end *)

Section turn.
Variable d : bool.
Variable ls : gmap string lane.
Variable led : list (string * Z * Z).
Local Abbreviation runs_to jn st st' :=
  (λ w w', wf (w_store w') ∧ rtc (step d RunnerLoop) (mkSys w ls led (mkTurns jn st))
                               (mkSys w' ls led (mkTurns jn st'))).

Lemma runs_to_trans jn st1 st2 st3 fuel w1 w2 w3 :
  runner_resume parse uuid (start_ctx d) fuel (clock s) (mkRunner (workerID s) (pollInterval s)) st1 w1 = Some (st2, w2) →
  runs_to jn st2 st3 w2 w3 → runs_to jn st1 st3 w1 w3.
Proof using Type.
  intros Hr [Hwf Hrtc]. split; [done|]. eapply rtc_l; [|exact Hrtc].
  exact (step_runner uuid parse s d w1 ls led (mkTurns jn st1) fuel st2 w2 Hr).
Qed.

Lemma fires_end jn now spec specs : progressing parse spec → ∀ fires w,
  wf (w_store w) → ∃ w', runs_to jn (AtFires now spec fires specs) (AtSpecs now specs) w w'.
Proof using All.
  intros Hp fires. induction fires as [|t fires IH]; intros w Hwf.
  - destruct (fires_done (start_ctx d) (mkRunner (workerID s) (pollInterval s)) now spec specs w Hwf Hp)
      as (fuel & w1 & Hr & Hwf1). exists w1. eapply runs_to_trans; [exact Hr|]. split; [done|apply rtc_refl].
  - destruct (fire_saved (start_ctx d) 0 (mkRunner (workerID s) (pollInterval s)) now spec t fires specs w Hwf)
      as (w1 & Hr & Hwf1). destruct (IH w1 Hwf1) as [w2 H2]. exists w2. by eapply runs_to_trans.
Qed.

Lemma specs_end jn now specs : Forall (progressing parse) specs → ∀ w,
  wf (w_store w) → ∃ w', runs_to jn (AtSpecs now specs) AtTimer w w'.
Proof using All.
  induction 1 as [|spec specs Hp _ IH]; intros w Hwf.
  - exists w. apply (runs_to_trans _ _ AtTimer _ 0 _ w); [done|]. split; [done|apply rtc_refl].
  - destruct (spec_taken (start_ctx d) 0 (mkRunner (workerID s) (pollInterval s)) now spec specs w Hwf)
      as (st & w1 & Hr & Hwf1 & [->|[fires ->]]).
    + destruct (IH w1 Hwf1) as [w2 H2]. exists w2. by eapply runs_to_trans.
    + destruct (fires_end jn now spec specs Hp fires w1 Hwf1) as (w2 & Hwf2 & H2).
      destruct (IH w2 Hwf2) as (w3 & Hwf3 & H3). exists w3. eapply runs_to_trans; [exact Hr|].
      split; [done|]. by etrans.
Qed.

Lemma runner_ends jn st w :
  Forall (progressing parse) (in_hand st) → wf (w_store w) → ∃ w', runs_to jn st AtTimer w w'.
Proof using All.
  intros Hp Hwf. destruct st as [|now specs|now spec fires specs]; cbn in Hp.
  - exists w. split; [done|apply rtc_refl].
  - by apply specs_end.
  - apply Forall_cons in Hp as [Hp Hps].
    destruct (fires_end jn now spec specs Hp fires w Hwf) as (w2 & Hwf2 & H2).
    destruct (specs_end jn now specs Hps w2 Hwf2) as (w3 & Hwf3 & H3). exists w3. split; [done|]. by etrans.
Qed.

Lemma janitor_ends jn st w :
  wf (w_store w) → ∃ w', wf (w_store w') ∧
    rtc (step d JanitorLoop) (mkSys w ls led (mkTurns jn st)) (mkSys w' ls led (mkTurns None st)).
Proof using All.
  intros Hwf. destruct jn as [now|]; [|exists w; split; [done|apply rtc_refl]].
  destruct (local_RecoverStale (w_store w) now Hwf) as (st2 & Hr & Hwf2 & _).
  assert (Hj : ∃ w', janitor_resume (start_ctx d) (clock s) (workerID s) (Some now) w = Some (None, w') ∧
                     wf (w_store w')).
  { cbn [janitor_resume]. unfold gbind. rewrite on_store_local. unfold at_store. rewrite Hr.
    by destruct (0 <? _); eexists. }
  destruct Hj as (w' & Hj & Hwf'). exists w'. split; [done|]. apply rtc_once.
  exact (step_janitor uuid parse s d w ls led (mkTurns (Some now) st) None w' Hj).
Qed.
End turn.

(** *** A turn that does not *)

Lemma hung_stuck ctx fuel clk r st w : hung st → runner_resume parse uuid ctx fuel clk r st w = None.
Proof using Type.
  intros (now & spec & specs & -> & Hle). cbn [runner_resume]. unfold nextAfter. rewrite gbind_assoc.
  unfold gbind at 1.
  destruct (advance_quiet (St := St) (H := H) parse spec (RecurringSpec.NextRunAt spec) w) as (w1 & -> & _).
  unfold gbind. pose proof (nextAfter_loop_stuck (St := St) (H := H) parse spec now fuel 1 w1 Hle) as Hn.
  change (instant parse spec 1) with (Recurring.step parse spec (RecurringSpec.NextRunAt spec)) in Hn.
  by rewrite Hn.
Qed.

Lemma hung_step d a σ σ' :
  hung (runner_at (sys_turns σ)) → step d a σ σ' →
  a ≠ RunnerLoop ∧ runner_at (sys_turns σ') = runner_at (sys_turns σ).
Proof using Type.
  intros Hh Hs. destruct Hs; try done. exfalso. cbn in Hh. rewrite hung_stuck in *; done.
Qed.
End ends.

Section coarse.
Context {St H : Type} `{!StoreOps St}.
Variable uuid : nat → string.
Variable parse : string → (Z → Z) + string.
Variable s : Scheduler St H.

(** The turns in one go are runs of the system. *)
Lemma tick_runs d (w w' : World St H) ls led jn fuel :
  tick parse uuid (start_ctx d) fuel (clock s) (mkRunner (workerID s) (pollInterval s)) w = Some (tt, w') →
  rtc (step uuid parse s d RunnerLoop) (mkSys w ls led (mkTurns jn AtTimer))
    (mkSys w' ls led (mkTurns jn AtTimer)).
Proof.
  intros Ht. apply (turns_equivalent parse uuid (start_ctx d) fuel (clock s) (workerID s)) in Ht
    as (st & w1 & Hr & Halone).
  eapply rtc_l; [by eapply (step_runner uuid parse s d w ls led (mkTurns jn AtTimer))|].
  cbn [janitor_at]. clear Hr. remember (st, w1) as x eqn:Hx. remember (AtTimer, w') as y eqn:Hy.
  revert st w1 Hx. induction Halone as [x|x [st2 w2] z [_ Hr] _ IH]; intros st w1 ->.
  - injection Hy as -> ->. apply rtc_refl.
  - eapply rtc_l; [by eapply (step_runner uuid parse s d w1 ls led (mkTurns jn st))|].
    by apply IH.
Qed.
End coarse.
