(* ===== verification/Contents.v ===== *)
(** What the goroutines run is what was dispatched. Claims, retries, schedules and
    their fires copy jobs around; on a store inside the process none of them
    changes the handler's name, the codec or the payload, and none makes up a job:
    whatever is true of those of all the jobs and schedules stored at one time is
    true of every job the goroutines claim, send, run and store from then on. *)

From S2P Require Import Prelude ListLib Types StoreApi MemStoreProps World Recurring RecurringProps.
From S2P Require Import Scheduler Worker WorkerProps SchedulerProps Ledger Turns System SystemProps.
Local Open Scope Z_scope.
Local Open Scope go_scope.

Section contents.
(** A property of a handler's name, a codec's name and a payload. *)
Variable P : string → string → list Byte.byte → Prop.

Definition job_from (j : Job.t) : Prop := P (Job.Name j) (Job.CodecName j) (Job.Payload j).
Definition spec_from (r : RecurringSpec.t) : Prop :=
  P (RecurringSpec.Name r) (RecurringSpec.CodecName r) (RecurringSpec.Payload r).

Definition stored_from (sp : Spec.t) : Prop :=
  map_Forall (λ _ j, job_from j) (Spec.jobs sp) ∧ map_Forall (λ _ r, spec_from r) (Spec.recurring sp).

Lemma stored_ack id sp : stored_from sp → stored_from (Spec.ack id sp).2.
Proof.
  intros [Hj Hr]. unfold Spec.ack, Spec.refuse, Spec.done_with. repeat case_match; try done.
  split; [by apply map_Forall_delete|done].
Qed.

Lemma stored_fail id msg t sp : stored_from sp → stored_from (Spec.fail id msg t sp).2.
Proof.
  intros [Hj Hr]. unfold Spec.fail, Spec.refuse, Spec.done_with.
  destruct (Spec.jobs sp !! id) as [v|] eqn:Hv; [|done]. repeat case_match; try done;
    (split; [|done]); cbn; [by apply map_Forall_delete|].
  apply map_Forall_insert_2; [|done]. exact (Hj id v Hv).
Qed.

Lemma stored_save j sp : job_from j → stored_from sp → stored_from (Spec.save j sp).2.
Proof. intros Hj [? ?]. split; [by apply map_Forall_insert_2|done]. Qed.

Lemma stored_update id next last sp :
  stored_from sp → stored_from (Spec.update_next_run id next last sp).2.
Proof.
  intros [Hj Hr]. split; [done|]. intros k r. cbn. rewrite lookup_alter_Some.
  intros [(-> & r0 & Hr0 & ->)|[_ Hk]]; [exact (Hr _ _ Hr0)|exact (Hr k r Hk)].
Qed.

Lemma stored_claim q now n js w u sp :
  Spec.claim_ok q now n (Spec.jobs sp) js → stored_from sp →
  stored_from (Spec.set_jobs (Spec.claim_all w u js (Spec.jobs sp)) sp) ∧ Forall job_from js.
Proof.
  intros [Hnd Hel _ _ _] [Hj Hr]. rewrite Forall_forall in Hel.
  assert (Hjs : ∀ j, j ∈ js → Spec.jobs sp !! Job.ID j = Some j) by (intros j Hin; by apply Hel).
  split; [split; [|done]|].
  - intros k v. cbn. unfold Spec.claim_all. rewrite update_all_lookup by (try done; by apply Forall_forall).
    case_decide; [|apply Hj]. destruct (Spec.jobs sp !! k) as [v0|] eqn:Hv; [|done].
    intros [= <-]. exact (Hj k v0 Hv).
  - apply Forall_forall. intros j Hin. exact (Hj _ _ (Hjs j Hin)).
Qed.

Context {St H : Type} `{!StoreOps St, !LawfulStore St, !LocalStore St}.
Context (uuid : nat → string) (parse : string → (Z → Z) + string) (s : Scheduler St H).
Implicit Types (w : World St H) (σ : @Sys St H).

Record carries σ : Prop := {
  carries_wf : wf (w_store (sys_world σ));
  carries_store : stored_from (abs (w_store (sys_world σ)));
  carries_lanes : map_Forall (λ _ x, ∀ j, j ∈ lane_jobs x → job_from j) (sys_lanes σ);
  carries_hand : ∀ r, r ∈ in_hand (runner_at (sys_turns σ)) → spec_from r
}.

(** A step that changes one lane, adding the jobs [new]. *)
Lemma carries_lane w w' ls led led' tn q x y new :
  carries (mkSys w ls led tn) → ls !! q = Some x → wf (w_store w') → stored_from (abs (w_store w')) →
  (∀ j, j ∈ lane_jobs y → j ∈ new ∨ j ∈ lane_jobs x) → Forall job_from new →
  carries (mkSys w' (<[q := y]> ls) led' tn).
Proof.
  intros [_ _ Hl Hh] Hx Hwf Hst Hy Hnew. split; try done. cbn in *. apply map_Forall_insert_2; [|done].
  intros j Hj. destruct (Hy j Hj) as [?|?]; [by eapply Forall_forall|by eapply Hl].
Qed.

Lemma stored_ended j sp sp' : ended_as j sp sp' → stored_from sp → stored_from sp'.
Proof. intros [-> |(msg & t & ->)]; [apply stored_ack|apply stored_fail]. Qed.

Lemma carries_claim ctx w ctx_done d jobs w' :
  makeable (d_batchSize d) → wf (w_store w) → stored_from (abs (w_store w)) →
  dispatcher_claim ctx (clock s) d ctx_done w = Some (jobs, w') →
  wf (w_store w') ∧ stored_from (abs (w_store w')) ∧ Forall job_from jobs.
Proof using All.
  intros Hn Hwf Hst. unfold dispatcher_claim, gbind, World.Now. cbn. rewrite on_store_local. unfold at_store. cbn.
  destruct (law_ClaimDue (w_store w) (d_queue d) (clock s (w_reads w)) (d_batchSize d) (d_workerID d)
    (Time.Add (clock s (w_reads w)) (d_visibility d)) Hwf Hn (local_ok_time _) (local_ok_time _))
    as (out & e & st & -> & Hwf' & Hres).
  destruct Hres as [(msg & -> & -> & Ha)|(js & -> & Hok & Hout & Ha)]; cbn.
  - apply makeable_nonneg in Hn. destruct ctx_done; intros [= <- <-]; cbn; by rewrite Ha.
  - destruct (stored_claim _ _ _ _ (d_workerID d) (Time.Add (clock s (w_reads w)) (d_visibility d)) _ Hok Hst)
      as [Hst' Hjs]. intros [= <- <-]. cbn. rewrite Ha. split; [done|]. split; [done|].
    apply Forall_forall. intros j Hj. apply (list_elem_of_fmap_2 Spec.job_view) in Hj.
    rewrite Hout in Hj. apply list_elem_of_fmap in Hj as (v & Heq & Hv).
    rewrite Forall_forall in Hjs. specialize (Hjs v Hv). unfold job_from.
    by rewrite (f_equal Job.Name Heq : Job.Name j = Job.Name v),
      (f_equal Job.CodecName Heq : Job.CodecName j = Job.CodecName v),
      (f_equal Job.Payload Heq : Job.Payload j = Job.Payload v).
Qed.

Lemma carries_runner ctx fuel r tn st w w' :
  wf (w_store w) → stored_from (abs (w_store w)) → (∀ r, r ∈ in_hand tn → spec_from r) →
  runner_resume parse uuid ctx fuel (clock s) r tn w = Some (st, w') →
  wf (w_store w') ∧ stored_from (abs (w_store w')) ∧ ∀ r, r ∈ in_hand st → spec_from r.
Proof using All.
  intros Hwf Hst Hh. destruct tn as [|now [|spec specs]|now spec [|t fires] specs];
    cbn [runner_resume]; cbn [in_hand] in Hh.
  - unfold gbind at 1 2, World.Now. cbn. rewrite on_store_local. unfold at_store. cbn.
    destruct (local_ListRecurring (w_store w) Hwf) as (specs & s1 & -> & Hwf1 & Ha1 & Hperm).
    intros [= <- <-]. cbn. rewrite Ha1. split; [done|]. split; [done|]. intros spec Hin.
    apply (list_elem_of_fmap_2 Spec.rec_view) in Hin. rewrite Hperm in Hin.
    apply list_elem_of_fmap in Hin as ([k r0] & Heq & Hin). apply elem_of_map_to_list in Hin.
    pose proof (proj2 Hst k r0 Hin) as Hr. cbn in Heq. by rewrite <- Heq in Hr.
  - by intros [= <- <-].
  - destruct (Time.After (RecurringSpec.NextRunAt spec) now).
    { intros [= <- <-]. split; [done|]. split; [done|]. intros r' Hr'. apply Hh. by right. }
    unfold gbind at 1. rewrite on_store_local. unfold at_store at 1.
    destruct (local_AcquireRecurringLease (w_store w) (RecurringSpec.ID spec)
                (Time.Add now (leaseEvery r)) (Recurring.workerID r) Hwf) as (s1 & -> & Hwf1 & Ha1).
    cbv beta iota. unfold gbind at 1.
    destruct (computeFires_total (St := St) (H := H) parse spec now) as [fires Hf].
    destruct (Hf (with_store s1 w)) as (w2 & -> & Hs2 & _).
    intros [= <- <-]. rewrite Hs2. cbn. by rewrite Ha1.
  - unfold gbind at 1.
    destruct (nextAfter parse fuel spec now w) as [[next w4]|] eqn:Hn; [|done].
    apply nextAfter_some in Hn as [Hs4 _]. unfold gbind at 1. rewrite on_store_local. unfold at_store at 1.
    destruct (local_UpdateRecurringNextRun (w_store w4) (RecurringSpec.ID spec) next now)
      as (e & s5 & -> & Hwf5 & Ha5); [by rewrite Hs4|].
    intros [= <- <-]. cbn. rewrite Ha5, Hs4. split; [done|]. split; [by apply stored_update|].
    intros r' Hr'. apply Hh. by right.
  - unfold gbind at 1. destruct (save_fire uuid ctx spec now t w) as [[[] w1]|] eqn:Hs; [|done].
    intros [= <- <-]. destruct (save_fires_run uuid ctx spec now [t] w Hwf) as (w2 & Hrun & Hwf2 & Ha2 & _).
    cbn [gfor] in Hrun. unfold gbind, gret in Hrun. rewrite Hs in Hrun. injection Hrun as ->.
    split; [done|]. split; [|done]. rewrite Ha2. apply stored_save; [|done]. apply (Hh spec). by left.
Qed.

Hypothesis capacities : ∀ q c, queues s !! q = Some c → makeable c.

Lemma carries_step d a σ σ' :
  carries σ → a ≠ Caller → step uuid parse s d a σ σ' → carries σ'.
Proof using All.
  intros Hc Ha Hs. pose proof Hc as [Hwf Hst Hl Hh]. destruct Hs; cbn in Hwf, Hst, Hh |- *; try done.
  - destruct (carries_claim (start_ctx d) w d (dispatcher_for s q c) jobs w') as (Hwf' & Hst' & Hjs); try done.
    { by eapply capacities. }
    eapply (carries_lane w); [done|done|done|done| |exact Hjs]. intros j. unfold lane_jobs. cbn.
    rewrite !elem_of_app. tauto.
  - eapply (carries_lane w _ _ _ _ _ _ x _ []); try done. intros j'. unfold lane_jobs, send. cbn.
    rewrite H2, !elem_of_app, !elem_of_cons, elem_of_nil. tauto.
  - destruct (started_facts s j w) as (Hw & _ & _).
    eapply (carries_lane w _ _ _ _ _ _ x _ []); rewrite ?Hw; try done. intros j'.
    unfold lane_jobs, receive. cbn.
    rewrite H2, fmap_app, !elem_of_app. cbn. rewrite !elem_of_cons, elem_of_nil. tauto.
  - destruct (no_handler_ends s (start_ctx d) j w w' H4 Hwf H5) as (Hwf' & _ & Hend).
    eapply (carries_lane w _ _ _ _ _ _ x _ []); try done; [by eapply stored_ended|]. intros j'.
    unfold lane_jobs, receive. cbn. rewrite H2, !elem_of_app, !elem_of_cons. tauto.
  - destruct (finish_run s (start_ctx d) j start o w w' Hwf H2) as (Hwf' & _ & Hend).
    eapply (carries_lane w _ _ _ _ _ _ x _ []); try done; [by eapply stored_ended|]. intros j'.
    unfold lane_jobs. cbn. rewrite H1, !fmap_app, !elem_of_app. cbn. rewrite elem_of_cons. tauto.
  - revert H0. unfold janitor_resume, gbind, World.Now. destruct (janitor_at tn) as [now|]; cbn; rewrite on_store_local; unfold at_store; cbn.
    + destruct (local_RecoverStale (w_store w) now Hwf) as (st2 & -> & Hwf2 & Ha2).
      intros [= _ <-]. split; cbn; by rewrite ?Ha2.
    + destruct (law_Heartbeat (w_store w) (workerID s) (clock s (w_reads w)) Hwf)
        as (e & st1 & -> & Hwf1 & Ha1).
      destruct e; intros [= _ <-]; split; cbn; by rewrite ?Ha1.
  - destruct (carries_runner _ _ _ _ _ _ _ Hwf Hst Hh H0) as (? & ? & ?). by split.
Qed.

(** What is true of the name, codec and payload of all that is stored is true of
    every job in flight and in the store after any steps of the goroutines. *)
Lemma contents_kept σ σ' : carries σ → rtc (goroutine_step uuid parse s) σ σ' → carries σ'.
Proof using All.
  intros Hc Hr. induction Hr as [|σ σ1 σ' (d & a & Ha & Hs) _ IH]; [done|].
  apply IH. by eapply carries_step.
Qed.
End contents.
