(* ===== verification/Shutdown.v ===== *)
(** The end of a run ([src/scheduler.go] [Start] from the cancellation on, and
    the [ctx.Done] cases of [src/dispatcher.go], [src/worker.go],
    [src/janitor.go], [src/recurring.go]).

    A [Run] is the running scheduler of [System] with the goroutines that are
    left. Its steps are those of [System] by a goroutine that is left; the
    cancellation; a goroutine leaving its loop; the return of [Start]. Once the
    context is cancelled a goroutine at its [select] may leave, and may also take
    another turn, for Go picks any case that is ready. [Start] waits for
    the goroutines its [WaitGroup] counts, or for the grace period to end, which
    may happen at any time after the cancellation. *)

From S2P Require Import Prelude ListLib Types StoreApi MemStore MemStoreFacts MemStoreProps World.
From S2P Require Import Recurring Scheduler.
From S2P Require Import RecurringProps Worker WorkerProps SchedulerProps Ledger Turns System SystemProps TurnsProps.
Local Open Scope Z_scope.
Local Open Scope go_scope.

Section run.
Context {St H : Type} `{!StoreOps St}.
Variable uuid : nat → string.
Variable parse : string → (Z → Z) + string.
Variable s : Scheduler St H.
Local Abbreviation Sys := (@Sys St H).

(** [dispatchers] are the queues whose dispatcher is left, [workers] how many
    workers of a queue are. *)
Record Run : Type := mkRun {
  run_sys : Sys;
  cancelled : bool;
  dispatchers : gset string;
  workers : gmap string Z;
  runner_on : bool;
  janitor_on : bool;
  returned : bool
}.

Definition with_sys (σ : Sys) (r : Run) : Run :=
  mkRun σ (cancelled r) (dispatchers r) (workers r) (runner_on r) (janitor_on r) (returned r).
Definition with_dispatchers (ds : gset string) (r : Run) : Run :=
  mkRun (run_sys r) (cancelled r) ds (workers r) (runner_on r) (janitor_on r) (returned r).
Definition with_workers (ws : gmap string Z) (r : Run) : Run :=
  mkRun (run_sys r) (cancelled r) (dispatchers r) ws (runner_on r) (janitor_on r) (returned r).

(** [Start]: a dispatcher and as many workers as its concurrency per queue, a
    runner, a janitor. *)
Definition Launch (w : World St H) : Run :=
  mkRun (Start s w) false (dom (queues s)) (queues s) true true false.

(** The cancellation of the context given to [Start]. *)
Definition cancel_ctx (r : Run) : Run :=
  mkRun (run_sys r) true (dispatchers r) (workers r) (runner_on r) (janitor_on r) (returned r).

(** Some worker of the queue is not running a handler. *)
Definition has_idle (q : string) (r : Run) : bool :=
  match sys_lanes (run_sys r) !! q, workers r !! q with
  | Some x, Some n => Z.of_nat (length (running x)) <? n
  | _, _ => false
  end.

(** Who is left to take a step. A handler that runs has its worker. *)
Definition may_step (a : actor) (r : Run) : bool :=
  match a with
  | Dispatcher q => bool_decide (q ∈ dispatchers r)
  | IdleWorker q => has_idle q r
  | JanitorLoop => janitor_on r
  | RunnerLoop => runner_on r
  | BusyWorker _ | Caller => true
  end.

(** At a [select] with a [ctx.Done] case: the janitor and the runner only
    between two turns. *)
Definition at_select (a : actor) (r : Run) : bool :=
  match a with
  | JanitorLoop => match janitor_at (sys_turns (run_sys r)) with None => true | Some _ => false end
  | RunnerLoop => match runner_at (sys_turns (run_sys r)) with AtTimer => true | _ => false end
  | _ => true
  end.

(** [case <-ctx.Done(): return], of the goroutines that have it. *)
Definition leave (a : actor) (r : Run) : option Run :=
  if cancelled r && may_step a r && at_select a r then
    match a with
    | Dispatcher q => Some (with_dispatchers (dispatchers r ∖ {[q]}) r)
    | IdleWorker q => Some (with_workers (alter Z.pred q (workers r)) r)
    | JanitorLoop =>
        Some (mkRun (run_sys r) true (dispatchers r) (workers r) (runner_on r) false (returned r))
    | RunnerLoop =>
        Some (mkRun (run_sys r) true (dispatchers r) (workers r) false (janitor_on r) (returned r))
    | BusyWorker _ | Caller => None
    end
  else None.

(** The counter of [Start]'s [WaitGroup]: [wg.Add(1)] for a dispatcher, the runner
    and the janitor. *)
Definition wg (r : Run) : Z :=
  Z.of_nat (size (dispatchers r)) + Z.b2z (runner_on r) + Z.b2z (janitor_on r).

(** The two ways out of [Start]'s last [select]: [doneCh] is closed when the
    counter is zero, [timer] says that the grace period is over. *)
Definition Start_return (timer : bool) (r : Run) : option Run :=
  if cancelled r && ((wg r =? 0) || timer) then
    Some (mkRun (run_sys r) true (dispatchers r) (workers r) (runner_on r) (janitor_on r) true)
  else None.

Inductive run_step : Run → Run → Prop :=
  | run_turn r a σ' :
      may_step a r = true → step uuid parse s (cancelled r) a (run_sys r) σ' →
      run_step r (with_sys σ' r)
  | run_cancel r : run_step r (cancel_ctx r)
  | run_leave r a r' : leave a r = Some r' → run_step r r'
  | run_return r timer r' : Start_return timer r = Some r' → run_step r r'.

(** The states of a run of [Start]. *)
Definition runs (w : World St H) : Run → Prop := rtc run_step (Launch w).

(** All goroutines are gone. *)
Definition stopped (r : Run) : Prop :=
  wg r = 0 ∧ ∀ q n, workers r !! q = Some n → n = 0.
End run.
Arguments mkRun {St H}.
Arguments run_sys {St H}.
Arguments cancelled {St H}.
Arguments dispatchers {St H}.
Arguments workers {St H}.
Arguments runner_on {St H}.
Arguments janitor_on {St H}.
Arguments returned {St H}.

(** The jobs a lane has claimed and not begun. *)
Definition waiting (x : lane) : list Job.t := batch x ++ chan x.

(** The identifiers a store has claimed. *)
Definition claimed_in (sp : Spec.t) (k : string) : Prop :=
  ∃ v, Spec.jobs sp !! k = Some v ∧ Job.State v = StateClaimed.

(** The abstract store of a run. *)
Definition store_of {St H} `{!StoreOps St, !LawfulStore St} (r : Run (St := St) (H := H)) : Spec.t :=
  abs (w_store (sys_world (run_sys r))).

(** ** Leaving *)

Section leaving.
Context {St H : Type} `{!StoreOps St}.
Variable uuid : nat → string.
Variable parse : string → (Z → Z) + string.
Variable s : Scheduler St H.
Local Abbreviation run_step := (run_step uuid parse s).
Implicit Types r : @Run St H.

Lemma leaves_step r a r' r'' : leave a r = Some r' → rtc run_step r' r'' → rtc run_step r r''.
Proof. intros Hl. apply rtc_l. by eapply run_leave. Qed.

Lemma dispatchers_leave r : cancelled r = true → rtc run_step r (with_dispatchers ∅ r).
Proof.
  remember (dispatchers r) as X eqn:HX. revert r HX.
  induction X as [|q X Hq IH] using set_ind_L; intros r HX Hc.
  - destruct r. simpl in *. subst. apply rtc_refl.
  - apply (leaves_step r (Dispatcher q) (with_dispatchers X r)).
    + unfold leave. simpl. rewrite Hc, <- HX, bool_decide_true by (apply elem_of_union_l, elem_of_singleton; done).
      simpl. do 2 f_equal. rewrite difference_union_distr_l_L, difference_diag_L, (left_id_L ∅ (∪)).
      by apply difference_disjoint_L, disjoint_singleton_r.
    + by apply (IH (with_dispatchers X r)).
Qed.

Definition quiet_loops r : @Run St H :=
  mkRun (run_sys r) true ∅ (workers r) false false (returned r).

(** The janitor and the runner are between two turns, or gone. *)
Definition between_turns r : Prop :=
  (janitor_on r = true → janitor_at (sys_turns (run_sys r)) = None) ∧
  (runner_on r = true → runner_at (sys_turns (run_sys r)) = AtTimer).

Lemma loops_leave r : cancelled r = true → between_turns r → rtc run_step r (quiet_loops r).
Proof.
  intros Hc [Hja Hru]. etrans; [by apply dispatchers_leave|].
  destruct r as [σ cd ds ws ru ja re]. simpl in Hc, Hja, Hru. subst cd.
  unfold with_dispatchers, quiet_loops. cbn [run_sys cancelled workers runner_on janitor_on returned].
  assert (Hr : rtc run_step (mkRun σ true ∅ ws ru ja re) (mkRun σ true ∅ ws false ja re)).
  { destruct ru; [|apply rtc_refl]. apply rtc_once. apply (run_leave _ _ _ _ RunnerLoop).
    unfold leave. cbn. by rewrite Hru. }
  etrans; [exact Hr|]. destruct ja; [|apply rtc_refl]. apply rtc_once.
  apply (run_leave _ _ _ _ JanitorLoop). unfold leave. cbn. by rewrite Hja.
Qed.

(** The steps of a goroutine that is left, whatever the lanes. *)
Lemma loop_runs r d a σ :
  d = cancelled r → (a = JanitorLoop ∨ a = RunnerLoop) → may_step a r = true →
  rtc (step uuid parse s d a) (run_sys r) σ → rtc run_step r (with_sys σ r).
Proof.
  intros Hd Ha Hmay Hr. remember (run_sys r) as σ0 eqn:H0. revert r Hd H0 Hmay.
  induction Hr as [σ|σ σ1 σ2 Hs _ IH]; intros r Hd -> Hmay.
  - destruct r. apply rtc_refl.
  - eapply rtc_l; [apply (run_turn _ _ _ _ a); [done|by rewrite <- Hd]|].
    apply (IH (with_sys σ1 r)); [done..|]. by destruct Ha as [-> | ->].
Qed.

(** The workers of a queue without running handlers leave one by one. *)
Lemma queue_leaves r q x n :
  cancelled r = true → sys_lanes (run_sys r) !! q = Some x → running x = [] →
  workers r !! q = Some n → 0 ≤ n →
  rtc run_step r (with_workers (<[q := 0]> (workers r)) r).
Proof.
  intros Hc Hx Hrun Hn Hpos. revert r Hc Hx Hn. revert n Hpos.
  refine (natlike_ind _ _ _); [|intros n Hpos IH]; intros r Hc Hx Hn.
  - rewrite insert_id by done. destruct r. apply rtc_refl.
  - apply (leaves_step r (IdleWorker q) (with_workers (<[q := n]> (workers r)) r)).
    + unfold leave, may_step, has_idle. rewrite Hc, Hx, Hn, Hrun.
      destruct (Z.ltb_spec (Z.of_nat (length (@nil (Job.t * Z)))) (Z.succ n)); [|simpl in *; lia].
      simpl. do 2 f_equal. apply map_eq. intros k. destruct (decide (k = q)) as [->|Hne].
      * rewrite lookup_alter_eq, lookup_insert_eq, Hn. simpl. f_equal. lia.
      * by rewrite lookup_alter_ne, lookup_insert_ne.
    + pose proof (IH (with_workers (<[q := n]> (workers r)) r)) as IH'. simpl in IH'.
      rewrite insert_insert_eq in IH'. apply IH'; [done|done|apply lookup_insert_eq].
Qed.

Definition idle_all r : Prop :=
  ∀ q n, workers r !! q = Some n →
    0 ≤ n ∧ ∃ x, sys_lanes (run_sys r) !! q = Some x ∧ running x = [].

Lemma workers_leave r :
  cancelled r = true → idle_all r → rtc run_step r (with_workers ((λ _, 0) <$> workers r) r).
Proof.
  intros Hc Hidle.
  assert (Hgen : ∀ m r, cancelled r = true → idle_all r → m ⊆ workers r →
    rtc run_step r (with_workers (((λ _, 0) <$> m) ∪ workers r) r)).
  { clear r Hc Hidle. intros m. induction m as [|q n m Hq IH] using map_ind; intros r Hc Hidle Hsub.
    - rewrite fmap_empty, (left_id_L ∅ (∪)). destruct r. apply rtc_refl.
    - assert (Hn : workers r !! q = Some n) by (eapply lookup_weaken; [apply lookup_insert_eq|done]).
      destruct (Hidle q n Hn) as (Hpos & x & Hx & Hrun).
      etrans; [by eapply queue_leaves|].
      pose proof (IH (with_workers (<[q := 0]> (workers r)) r)) as IH'. simpl in IH'.
      rewrite <- insert_union_r in IH' by (by rewrite lookup_fmap, Hq).
      rewrite fmap_insert, <- insert_union_l. apply IH'; [done| |].
      + intros k z. simpl. rewrite lookup_insert_Some. intros [[<- <-]|[_ Hz]]; [|by apply Hidle].
        split; [lia|by exists x].
      + apply insert_subseteq_r; [done|]. etrans; [apply insert_subseteq; done|done]. }
  pose proof (Hgen (workers r) r Hc Hidle (reflexivity _)) as Hrtc.
  replace (((λ _, 0) <$> workers r) ∪ workers r) with ((λ _ : Z, 0) <$> workers r) in Hrtc; [done|].
  apply map_eq. intros k. rewrite lookup_union, lookup_fmap. by destruct (workers r !! k).
Qed.
End leaving.

Section facts.
Context {St H : Type} `{!StoreOps St, !LawfulStore St, !LocalStore St}.
Context (uuid : nat → string) `{!Inj (=) (=) uuid}.
Variable parse : string → (Z → Z) + string.
Variable s : Scheduler St H.
Hypothesis capacities : ∀ q c, queues s !! q = Some c → makeable c.
Local Abbreviation Run := (@Run St H).
Local Abbreviation run_step := (run_step uuid parse s).
Local Abbreviation runs := (runs uuid parse s).
Local Abbreviation step := (step uuid parse s).
Implicit Types r : Run.
Implicit Types σ : @Sys St H.

(** ** What steps do to the lanes *)

(** A step changes one lane at most; only an idle worker adds to the handlers
    that run, and one at a time. *)
Lemma step_lanes d a σ σ' :
  step d a σ σ' →
  sys_lanes σ' = sys_lanes σ ∨
  ∃ q x y, sys_lanes σ !! q = Some x ∧ sys_lanes σ' = <[q := y]> (sys_lanes σ) ∧
    (length (running y) ≤ length (running x) ∨
     a = IdleWorker q ∧ length (running y) ≤ S (length (running x)))%nat.
Proof using Type.
  intros Hs. destruct Hs as [| |w ls led tn q c x j rest h| |? ? ? ? ? ? ? ? r1 r2 ? ? ? Hr| | | | | | | |];
    simpl; try (by left); right.
  1,2: do 3 eexists; split; [done|]; split; [reflexivity|]; left; simpl; lia.
  - exists q, x. eexists. split; [done|]. split; [reflexivity|]. right. simpl. rewrite length_app.
    simpl. split; [done|lia].
  - do 3 eexists. split; [done|]. split; [reflexivity|]. left. simpl. lia.
  - do 3 eexists. split; [done|]. split; [reflexivity|]. left. simpl. rewrite Hr, !length_app.
    simpl. lia.
Qed.

(** ** The invariant of a run *)

(** The workers left of a queue: at least as many as handlers that run. *)
Definition staffed r (q : string) (x : lane) : Prop :=
  ∃ c n, queues s !! q = Some c ∧ workers r !! q = Some n ∧
    Z.of_nat (length (running x)) ≤ n ≤ c.

Record run_ok r : Prop := {
  ok_sys : invariant uuid s (run_sys r);
  ok_lanes : dom (sys_lanes (run_sys r)) = dom (workers r);
  ok_staff : ∀ q x, sys_lanes (run_sys r) !! q = Some x → staffed r q x;
  ok_before : cancelled r = false → dispatchers r = dom (queues s) ∧ workers r = queues s ∧
    runner_on r = true ∧ janitor_on r = true ∧ returned r = false
}.

Lemma launch_ok w : fresh_world w → run_ok (Launch s w).
Proof using All.
  intros Hw. split; simpl.
  - by apply start_invariant.
  - apply dom_fmap_L.
  - intros q x. rewrite lookup_fmap_Some. intros (c & <- & Hq). exists c, c.
    pose proof (makeable_nonneg c (capacities q c Hq)). simpl. split_and!; [done|done|lia|lia].
  - done.
Qed.

Lemma turn_ok r a σ' :
  run_ok r → may_step a r = true → step (cancelled r) a (run_sys r) σ' → run_ok (with_sys σ' r).
Proof using All.
  intros [Hinv Hdom Hst Hbef] Hmay Hs. pose proof (step_keeps uuid parse s capacities _ _ _ _ Hinv Hs) as Hinv'.
  destruct (step_lanes _ _ _ _ Hs) as [Heq|(q & x & y & Hx & Heq & Hrun)].
  { split; simpl; rewrite ?Heq; done. }
  split; simpl; rewrite ?Heq; [done| | |done].
  - by rewrite dom_insert_lookup_L.
  - intros k z. rewrite lookup_insert_Some. intros [[<- <-]|[_ Hz]]; [|by apply Hst].
    destruct (Hst q x Hx) as (c & n & Hq & Hn & Hle). exists c, n. split; [done|]. split; [done|].
    destruct Hrun as [Hrun|[-> Hrun]]; [lia|].
    simpl in Hmay. unfold has_idle in Hmay. rewrite Hx, Hn in Hmay. apply Z.ltb_lt in Hmay. lia.
Qed.

Lemma leave_ok r a r' : run_ok r → leave a r = Some r' → run_ok r'.
Proof using All.
  intros [Hinv Hdom Hst _] Hl. unfold leave in Hl. destruct (cancelled r) eqn:Hc; [|done].
  destruct (may_step a r) eqn:Hmay; [|done]. simpl in Hl.
  destruct (at_select a r); [|done].
  destruct a as [q|q| | | |]; simplify_eq/=; (split; simpl; [done| | |by rewrite ?Hc]);
    rewrite ?dom_alter_L; try done.
  intros k z Hz. destruct (Hst k z Hz) as (c & n & Hq & Hn & Hle). unfold staffed. simpl.
  destruct (decide (k = q)) as [->|Hne].
  - exists c, (Z.pred n). rewrite lookup_alter_eq, Hn.
    unfold has_idle in Hmay. rewrite Hz, Hn in Hmay. apply Z.ltb_lt in Hmay. split_and!; [done|done|lia|lia].
  - exists c, n. by rewrite lookup_alter_ne.
Qed.

Lemma run_step_ok r r' : run_ok r → run_step r r' → run_ok r'.
Proof using All.
  intros Hok Hstep. destruct Hstep as [r a σ' Hmay Hs|r|r a r' Hl|r timer r' Hret].
  - by eapply turn_ok.
  - destruct Hok. by split.
  - by eapply leave_ok.
  - unfold Start_return in Hret. destruct (cancelled r && _); [|done].
    injection Hret as <-. destruct Hok. by split.
Qed.

Lemma run_steps_ok r r' : run_ok r → rtc run_step r r' → run_ok r'.
Proof using All. intros Hok Hr. induction Hr; eauto using run_step_ok. Qed.

Lemma runs_ok w r : fresh_world w → runs w r → run_ok r.
Proof using All. intros Hw. apply run_steps_ok. by apply launch_ok. Qed.

(** The identifiers in flight are those claimed. *)
Lemma claimed_in_flight r k :
  run_ok r → claimed_in (store_of r) k ↔ k ∈ Spec.ids (collect lane_jobs (sys_lanes (run_sys r))).
Proof using Type.
  intros [[[_ HL] _] _ _ _]. unfold claimed_in, store_of. split.
  - intros (v & Hv & Hc). by apply (led_claimed _ _ _ _ _ _ HL k v).
  - unfold Spec.ids. rewrite list_elem_of_fmap. intros (j & -> & Hj).
    destruct (led_flight _ _ _ _ _ _ HL j Hj) as (v & Hv & Hc & _). by exists v.
Qed.

(** ** Handlers that run come to their end *)

Lemma finish_total ctx j start o w :
  wf (w_store w) → ∃ w', finish_job s ctx j start o w = Some (tt, w').
Proof using LawfulStore0 LocalStore0.
  intros Hwf. unfold finish_job, gbind, World.Now.
  set (w1 := with_reads (S (w_reads w)) w). destruct (outcome_error o) as [err|].
  - destruct (handle_error_run ctx s j (wrap64 (Job.Attempt j + 1)) err w1 Hwf (local_ok_time _))
      as (_ & _ & w' & _ & Hrun & _). by exists w'.
  - destruct (handle_success_run ctx s j (wrap64 (Job.Attempt j + 1))
      (Time.Sub (clock s (w_reads w)) start) w1 Hwf) as (_ & _ & w' & _ & Hrun & _). by exists w'.
Qed.

(** A lane once its handlers have ended. *)
Definition quiet (x : lane) : lane := mkLane (batch x) (chan x) [].

Lemma handlers_finish r :
  run_ok r →
  ∃ σ, rtc run_step r (with_sys σ r) ∧ sys_lanes σ = quiet <$> sys_lanes (run_sys r) ∧
    sys_led σ = sys_led (run_sys r) ∧ sys_turns σ = sys_turns (run_sys r).
Proof using All.
  remember (length (collect running (sys_lanes (run_sys r)))) as n eqn:Hn. revert r Hn.
  induction n as [n IH] using lt_wf_ind. intros r Hn Hok.
  destruct (decide (map_Forall (λ _ x, running x = []) (sys_lanes (run_sys r)))) as [Hall|Hex].
  - exists (run_sys r). split; [destruct r; apply rtc_refl|]. split; [|done].
    rewrite <- (map_fmap_id (sys_lanes (run_sys r))) at 1. apply map_fmap_ext.
    intros q x Hx. specialize (Hall q x Hx). destruct x as [b c ru]. simpl in *. by subst ru.
  - apply map_not_Forall in Hex as (q & x & Hx & Hru); [|apply _].
    destruct (running x) as [|[j start] r2] eqn:Hrun; [done|].
    pose proof (proj1 (proj1 (ok_sys _ Hok))) as Hwf.
    destruct (run_sys r) as [w ls led tn] eqn:Hσ. simpl in *.
    destruct (finish_total (start_ctx (cancelled r)) j start (HReturn None) w Hwf) as (w' & Hfin).
    set (σ1 := mkSys w' (<[q := mkLane (batch x) (chan x) r2]> ls) led tn).
    assert (Hstep : run_step r (with_sys σ1 r)).
    { apply (run_turn _ _ _ _ (BusyWorker q) σ1); [done|]. rewrite Hσ.
      by eapply (step_finish _ _ _ _ _ _ _ _ _ _ _ _ []). }
    assert (Hlt : (length (collect running (sys_lanes σ1)) < n)%nat).
    { subst n. simpl. rewrite collect_insert, (collect_delete running ls q x Hx), Hrun. simpl.
      rewrite !length_app. simpl. lia. }
    destruct (IH _ Hlt (with_sys σ1 r) eq_refl (run_step_ok _ _ Hok Hstep))
      as (σ & Hrtc & Hls & Hrest).
    exists σ. split; [by eapply rtc_l|]. split; [|done]. rewrite Hls. simpl.
    rewrite fmap_insert. apply insert_id. by rewrite lookup_fmap, Hx.
Qed.

(** ** Turns come to their end *)

Lemma turns_finish r :
  run_ok r → Forall (progressing parse) (in_hand (runner_at (sys_turns (run_sys r)))) →
  ∃ σ, rtc run_step r (with_sys σ r) ∧ between_turns (with_sys σ r) ∧
    sys_lanes σ = sys_lanes (run_sys r) ∧ sys_led σ = sys_led (run_sys r).
Proof using All.
  intros Hok Hp. pose proof (proj1 (proj1 (ok_sys _ Hok))) as Hwf.
  destruct r as [[w ls led [jn st]] cd ds ws ru ja re]. cbn in Hp, Hwf.
  set (r := mkRun _ cd ds ws ru ja re).
  assert (Hj : ∃ w1 jn1, wf (w_store w1) ∧ (ja = true → jn1 = None) ∧
    rtc run_step r (with_sys (mkSys w1 ls led (mkTurns jn1 st)) r)).
  { destruct ja; [|exists w, jn; split; [done|]; split; [done|apply rtc_refl]].
    destruct (janitor_ends uuid parse s cd ls led jn st w Hwf) as (w1 & Hwf1 & Hr).
    exists w1, None. split; [done|]. split; [done|].
    by apply (loop_runs uuid parse s r cd JanitorLoop); [|left| |]. }
  destruct Hj as (w1 & jn1 & Hwf1 & Hjn & Hr1).
  assert (Hr : ∃ w2 st2, (ru = true → st2 = AtTimer) ∧
    rtc run_step (with_sys (mkSys w1 ls led (mkTurns jn1 st)) r)
      (with_sys (mkSys w2 ls led (mkTurns jn1 st2)) r)).
  { destruct ru; [|exists w1, st; split; [done|apply rtc_refl]].
    destruct (runner_ends uuid parse s cd ls led jn1 st w1 Hp Hwf1) as (w2 & _ & Hr).
    exists w2, AtTimer. split; [done|].
    by apply (loop_runs uuid parse s (with_sys (mkSys w1 ls led (mkTurns jn1 st)) r) cd RunnerLoop); [|right| |]. }
  destruct Hr as (w2 & st2 & Hst & Hr2). eexists. split; [by etrans|]. by split.
Qed.

(** ** Callers leave claimed jobs alone *)

(** What is claimed stays as it is. *)
Definition kept (sp sp' : Spec.t) : Prop :=
  ∀ k v, Spec.jobs sp !! k = Some v → Job.State v = StateClaimed → Spec.jobs sp' !! k = Some v.

Lemma kept_cancel id sp : kept sp (Spec.cancel id sp).2.
Proof using Type.
  intros k v Hv Hc. unfold Spec.cancel, Spec.refuse, Spec.done_with.
  destruct (Spec.jobs sp !! id) as [x|] eqn:Hx; [|done].
  destruct (Z.eqb_spec (Job.State x) StatePending) as [Hp|]; [|done]. simpl.
  rewrite lookup_delete_ne; [done|]. intros ->. simplify_eq. rewrite Hc in Hp. done.
Qed.

Lemma kept_reschedule id t sp : kept sp (Spec.reschedule id t sp).2.
Proof using Type.
  intros k v Hv Hc. unfold Spec.reschedule, Spec.refuse, Spec.done_with.
  destruct (Spec.jobs sp !! id) as [x|] eqn:Hx; [|done].
  destruct (Z.eqb_spec (Job.State x) StatePending) as [Hp|]; [|done]. simpl.
  rewrite lookup_insert_ne; [done|]. intros ->. simplify_eq. rewrite Hc in Hp. done.
Qed.

Lemma kept_save j sp : Spec.jobs sp !! Job.ID j = None → kept sp (Spec.save j sp).2.
Proof using Type. intros Hj k v Hv _. simpl. rewrite lookup_insert_ne; [done|]. congruence. Qed.

Lemma fresh_uuid sp fl run led n :
  ledger uuid sp fl run led n → Spec.jobs sp !! uuid n = None.
Proof using Inj0.
  intros HL. apply eq_None_not_Some. intros Hk.
  destruct (led_fresh _ _ _ _ _ _ HL _ (or_introl Hk)) as (i & Hi & He). apply (inj uuid) in He. lia.
Qed.

Lemma kept_At t name payload opts res w w' fl run led :
  world_ok uuid w fl run led → Forall builtin opts →
  At uuid s t name payload opts w = Some (res, w') →
  kept (abs (w_store w)) (abs (w_store w')).
Proof using All.
  intros [Hwf HL] Hopts Hat.
  destruct (At_run uuid s t name payload opts w Hwf (local_ok_job _))
    as (id & err & w1 & Hrun & _ & _ & _ & Hres).
  rewrite Hat in Hrun. injection Hrun as -> ->. destruct err as [e|].
  - destruct Hres as (_ & -> & _). by intros k v.
  - destruct Hres as (_ & _ & _ & -> & _). apply kept_save.
    unfold dispatched. rewrite (proj1 (builtin_keeps opts _ Hopts)). simpl.
    by apply (fresh_uuid _ _ _ _ _ HL).
Qed.

Lemma kept_upsert (spec : RecurringSpec.t) res w w' :
  wf (w_store w) → upsert_and_announce s spec w = Some (res, w') →
  kept (abs (w_store w)) (abs (w_store w')).
Proof using All.
  intros Hwf Hrun. destruct (upsert_run s spec w Hwf) as (w1 & Hrun1 & _ & Ha & _).
  rewrite Hrun in Hrun1. injection Hrun1 as _ ->. rewrite Ha. by intros k v.
Qed.

Lemma caller_keeps d σ σ' :
  invariant uuid s σ → step d Caller σ σ' →
  sys_lanes σ' = sys_lanes σ ∧ sys_led σ' = sys_led σ ∧
  kept (abs (w_store (sys_world σ))) (abs (w_store (sys_world σ'))).
Proof using All.
  intros [Hok _] Hs. pose proof (proj1 Hok) as Hwf.
  inversion Hs as [| | | | | | |w ? ? ? ? ? ? ? ? w' Hopts Hrun|w ? ? ? id ? w' Hrun|w ? ? ? id t ? w' Hrun
    |w ? ? ? ? ? ? ? ? w' _ Hrun|w ? ? ? ? ? ? ? ? w' _ Hrun|]; subst;
    (split; [done|]); (split; [done|]); simpl in *.
  - by eapply kept_At.
  - unfold Scheduler.Cancel, on_store, at_store, under in Hrun. cbn in Hrun.
    destruct (local_Cancel (w_store w) id Hwf) as (st & Hst & _ & Ha). rewrite Hst in Hrun.
    injection Hrun as _ <-. simpl. rewrite Ha. apply kept_cancel.
  - unfold Scheduler.Reschedule, on_store, at_store, under in Hrun. cbn in Hrun.
    destruct (law_Reschedule (w_store w) id t Hwf (local_ok_time _)) as (e' & st & Hst & _ & Hres).
    rewrite Hst in Hrun. injection Hrun as _ <-. simpl.
    destruct Hres as [(m & _ & ->)|Hr]; [by intros k v|].
    replace (abs st) with (Spec.reschedule id t (abs (w_store w))).2 by (by rewrite <- Hr).
    apply kept_reschedule.
  - revert Hrun. unfold Every. destruct (handler s _); [|by intros [= _ <-] k v].
    destruct (_ <=? 0); [by intros [= _ <-] k v|].
    unfold gbind, buildRecurringSpec, NewString, gbind, World.Now, gret. intros Hup.
    eapply kept_upsert in Hup; [exact Hup|exact Hwf].
  - revert Hrun. unfold Cron. destruct (handler s _); [|by intros [= _ <-] k v].
    destruct (parse _); [|by intros [= _ <-] k v].
    unfold gbind, buildRecurringSpec, NewString, gbind, World.Now, gret. intros Hup.
    eapply kept_upsert in Hup; [exact Hup|exact Hwf].
  - by intros k v.
Qed.

(** ** When all goroutines are gone *)

Lemma stopped_actor r a :
  stopped r → may_step a r = true → a = Caller ∨ ∃ q, a = BusyWorker q.
Proof using All.
  intros [Hwg Hws] Hmay. unfold wg in Hwg.
  assert (Hds : size (dispatchers r) = 0%nat) by (destruct (runner_on r), (janitor_on r); simpl in *; lia).
  destruct a as [q|q|q| | |]; simpl in Hmay; [| |by right; exists q| | |by left].
  - apply bool_decide_eq_true in Hmay. apply size_empty_inv in Hds. by apply Hds in Hmay.
  - unfold has_idle in Hmay. destruct (sys_lanes (run_sys r) !! q) as [x|]; [|done].
    destruct (workers r !! q) as [n|] eqn:Hn; [|done]. rewrite (Hws q n Hn) in Hmay.
    apply Z.ltb_lt in Hmay. lia.
  - rewrite Hmay in Hwg. simpl in Hwg. destruct (runner_on r); simpl in Hwg; lia.
  - rewrite Hmay in Hwg. simpl in Hwg. destruct (janitor_on r); simpl in Hwg; lia.
Qed.

Lemma stopped_turn r a σ' :
  run_ok r → stopped r → may_step a r = true → step (cancelled r) a (run_sys r) σ' →
  sys_led σ' = sys_led (run_sys r) ∧ kept (store_of r) (store_of (with_sys σ' r)).
Proof using All.
  intros Hok Hst Hmay Hs. destruct (stopped_actor r a Hst Hmay) as [->|[q ->]].
  - by apply (caller_keeps _ _ _ (ok_sys _ Hok)) in Hs as (_ & ? & ?).
  - pose proof (ok_staff _ Hok q) as Hstaff. destruct r as [[w ls led tn] cd ds ws ro jo re].
    inversion Hs as [| | | |? ? ? ? ? x j start r1 r2 o w' Hx Hr| | | | | | | |]. subst. simpl in *.
    destruct (Hstaff x Hx) as (c & n & _ & Hn & Hle & _).
    rewrite (proj2 Hst q n Hn), Hr, length_app in Hle. simpl in Hle. lia.
Qed.

Lemma stopped_step r r' :
  run_ok r → stopped r → run_step r r' →
  stopped r' ∧ sys_led (run_sys r') = sys_led (run_sys r) ∧ kept (store_of r) (store_of r').
Proof using All.
  intros Hok Hst Hstep. destruct Hstep as [r a σ' Hmay Hs|r|r a r' Hl|r timer r' Hret].
  - split; [exact Hst|]. by eapply stopped_turn.
  - split; [exact Hst|]. split; [done|]. by intros k v.
  - unfold leave in Hl. destruct (cancelled r); [|done]. destruct (may_step a r) eqn:Hmay; [|done].
    destruct (at_select a r); [|done]. by destruct (stopped_actor r a Hst Hmay) as [->|[q ->]].
  - unfold Start_return in Hret. destruct (cancelled r && _); [|done]. injection Hret as <-.
    split; [exact Hst|]. split; [done|]. by intros k v.
Qed.

(** Everybody leaves, and [Start] returns. *)
Definition all_gone (σ : Sys) r : Run :=
  mkRun σ true ∅ ((λ _, 0) <$> workers r) false false true.

Lemma quiesce r :
  run_ok r → cancelled r = true →
  Forall (progressing parse) (in_hand (runner_at (sys_turns (run_sys r)))) →
  ∃ σ, rtc run_step r (all_gone σ r) ∧ sys_lanes σ = quiet <$> sys_lanes (run_sys r) ∧
    sys_led σ = sys_led (run_sys r).
Proof using All.
  intros Hok Hc Hp. destruct (handlers_finish r Hok) as (σ1 & Hrtc1 & Hls1 & Hled1 & Htn1).
  assert (Hok1 : run_ok (with_sys σ1 r)) by by eapply run_steps_ok.
  destruct (turns_finish (with_sys σ1 r) Hok1) as (σ & Hrtc & Hbt & Hls & Hled); [cbn; by rewrite Htn1|].
  cbn in Hls, Hled. rewrite Hls1 in Hls. rewrite Hled1 in Hled.
  exists σ. split; [|done]. etrans; [exact Hrtc1|]. etrans; [exact Hrtc|].
  etrans; [by apply loops_leave|]. etrans; [apply workers_leave; [done|]|].
  - intros q n Hn. simpl in *. apply elem_of_dom_2 in Hn as Hd. rewrite <- (ok_lanes _ Hok) in Hd.
    apply elem_of_dom in Hd as [x Hx]. destruct (ok_staff _ Hok q x Hx) as (c & n' & _ & Hn' & Hle).
    assert (n' = n) as -> by congruence. split; [lia|]. exists (quiet x).
    by rewrite Hls, lookup_fmap, Hx.
  - apply rtc_once. by apply (run_return _ _ _ _ false).
Qed.

Lemma waiting_quiet (ls : gmap string lane) :
  collect lane_jobs (quiet <$> ls) ≡ₚ collect waiting ls.
Proof using Type.
  induction ls as [|q x ls Hq IH] using map_ind; [done|].
  rewrite fmap_insert, !collect_insert, !delete_id by (rewrite ?lookup_fmap, ?Hq; done).
  rewrite IH. unfold lane_jobs, quiet, waiting. simpl. by rewrite app_nil_r.
Qed.
End facts.

(** ** Properties *)

(** [LocalStore], where it is asked for, is a store inside the process: it reports
    no infrastructure error, takes no claim back and looks at no context, so that
    what ends during the shutdown is still recorded. On a database it is not
    ([Cancelled]). *)

(** C4: Safety through shutdown, on a store inside the process. Whenever the context is cancelled, whichever
    goroutines leave and in whatever order, an identifier is in flight at most
    once, the claimed jobs of the store are those in flight, no handler is
    left without its worker, queues keep to their capacity, and before the
    cancellation nobody leaves and [Start] does not return. *)
Theorem shutdown_safe {St H : Type} `{!StoreOps St, !LawfulStore St, !LocalStore St}
    (uuid : nat → string) (parse : string → (Z → Z) + string) (s : Scheduler St H) (w : World St H) (r : Run) :
  Inj (=) (=) uuid → (∀ q c, queues s !! q = Some c → makeable c) → fresh_world w →
  runs uuid parse s w r →
  let ls := sys_lanes (run_sys r) in
  NoDup (Spec.ids (collect lane_jobs ls)) ∧
  (∀ k, claimed_in (store_of r) k ↔ k ∈ Spec.ids (collect lane_jobs ls)) ∧
  (∀ q x, ls !! q = Some x → ∃ c n, queues s !! q = Some c ∧ workers r !! q = Some n ∧
     Z.of_nat (length (running x)) ≤ n ≤ c ∧ Z.of_nat (length (chan x)) ≤ c ∧
     Z.of_nat (length (batch x)) ≤ c) ∧
  (cancelled r = false → dispatchers r = dom (queues s) ∧ workers r = queues s ∧
     runner_on r = true ∧ janitor_on r = true ∧ returned r = false).
Proof.
  intros Hu Hc Hw Hr ls. pose proof (runs_ok uuid parse s Hc w r Hw Hr) as Hok.
  split; [apply (led_nodup _ _ _ _ _ _ (proj2 (proj1 (ok_sys _ _ _ Hok))))|].
  split; [intros k; by eapply claimed_in_flight|]. split; [|by eapply ok_before].
  intros q x Hx. destruct (ok_staff _ _ _ Hok q x Hx) as (c & n & Hq & Hn & Hle).
  destruct (proj1 (proj2 (ok_sys _ _ _ Hok)) q x Hx) as (c' & Hq' & Hb & Hch & _).
  assert (c' = c) as -> by congruence. by exists c, n.
Qed.

(** C5: [Start] does not wait for handlers. On a store inside the process, from every state reached after the
    cancellation, if the schedules the recurring runner has in hand have
    later activations, [Start] can return by the counter of its [WaitGroup],
    without the grace period's end, while every handler that was running still
    is and every worker is left. *)
Theorem start_returns_early {St H : Type} `{!StoreOps St, !LawfulStore St, !LocalStore St}
    (uuid : nat → string) (parse : string → (Z → Z) + string) (s : Scheduler St H) (w : World St H) (r : Run) :
  Inj (=) (=) uuid → (∀ q c, queues s !! q = Some c → makeable c) → fresh_world w →
  runs uuid parse s w r → cancelled r = true →
  Forall (progressing parse) (in_hand (runner_at (sys_turns (run_sys r)))) →
  ∃ r0 r', rtc (run_step uuid parse s) r r0 ∧ Start_return false r0 = Some r' ∧
    returned r' = true ∧ sys_lanes (run_sys r') = sys_lanes (run_sys r) ∧
    sys_led (run_sys r') = sys_led (run_sys r) ∧ workers r' = workers r.
Proof.
  intros Hu Hc Hw Hr Hcan Hp. pose proof (runs_ok uuid parse s Hc w r Hw Hr) as Hok.
  destruct (turns_finish uuid parse s Hc r Hok Hp) as (σ & Hrtc & Hbt & Hls & Hled).
  exists (quiet_loops (with_sys σ r)). eexists.
  split; [etrans; [exact Hrtc|by apply loops_leave]|]. split; [reflexivity|]. done.
Qed.

(** C8: A schedule without a later activation holds [Start] back: once the runner
    searches for its next run it never comes back to its [select], so no schedule
    fires any more, and after the cancellation [Start] returns only
    when the grace period is over, whatever the other goroutines do. *)
Theorem shutdown_hangs {St H : Type} `{!StoreOps St}
    (uuid : nat → string) (parse : string → (Z → Z) + string) (s : Scheduler St H) (r r' : Run) :
  runner_on r = true → hung parse (runner_at (sys_turns (run_sys r))) →
  rtc (run_step uuid parse s) r r' →
  runner_on r' = true ∧ hung parse (runner_at (sys_turns (run_sys r'))) ∧
  Start_return false r' = None ∧
  ∀ d σ', ¬ step uuid parse s d RunnerLoop (run_sys r') σ'.
Proof.
  intros Hon Hh Hrtc. assert (Hend : runner_on r' = true ∧ hung parse (runner_at (sys_turns (run_sys r')))).
  { induction Hrtc as [|r0 r1 r2 Hstep _ IH]; [done|].
    destruct Hstep as [r a σ' Hmay Hs|r|r a r' Hl|r timer r' Hret].
    - destruct (hung_step uuid parse s _ a _ _ Hh Hs) as [_ Heq]. apply IH; [done|]. cbn. by rewrite Heq.
    - by apply IH.
    - unfold leave in Hl. destruct (_ && _) eqn:Hg; [|done]. apply andb_true_iff in Hg as [_ Hsel].
      destruct a; simplify_eq/=; try (by apply IH).
      destruct Hh as (? & ? & ? & Heq & _). by rewrite Heq in Hsel.
    - unfold Start_return in Hret. destruct (cancelled r && _); [|done]. injection Hret as <-. by apply IH. }
  destruct Hend as [Hon' Hh']. split; [done|]. split; [done|]. split.
  - unfold Start_return, wg. rewrite Hon'.
    destruct (Z.eqb_spec (Z.of_nat (size (dispatchers r')) + Z.b2z true + Z.b2z (janitor_on r')) 0) as [Hz|_].
    + destruct (janitor_on r'); cbn in Hz; lia.
    + by rewrite andb_false_r.
  - intros d σ' Hs. by apply (hung_step uuid parse s) in Hs as [? _].
Qed.

(** C6: Shutdown can end, and what it leaves. On a store inside the process, from
    every state reached after the cancellation in which the schedules the
    recurring runner has in hand have later activations, all goroutines can leave,
    once the handlers that run have returned, and [Start] return; then the claimed jobs of the store are those
    that were in a dispatcher's batch or a channel and never begun. *)
Theorem shutdown_settles {St H : Type} `{!StoreOps St, !LawfulStore St, !LocalStore St}
    (uuid : nat → string) (parse : string → (Z → Z) + string) (s : Scheduler St H) (w : World St H) (r : Run) :
  Inj (=) (=) uuid → (∀ q c, queues s !! q = Some c → makeable c) → fresh_world w →
  runs uuid parse s w r → cancelled r = true →
  Forall (progressing parse) (in_hand (runner_at (sys_turns (run_sys r)))) →
  ∃ r', rtc (run_step uuid parse s) r r' ∧ stopped r' ∧ returned r' = true ∧
    sys_led (run_sys r') = sys_led (run_sys r) ∧
    ∀ k, claimed_in (store_of r') k ↔ k ∈ Spec.ids (collect waiting (sys_lanes (run_sys r))).
Proof.
  intros Hu Hc Hw Hr Hcan Hp. pose proof (runs_ok uuid parse s Hc w r Hw Hr) as Hok.
  destruct (quiesce uuid parse s Hc r Hok Hcan Hp) as (σ & Hrtc & Hls & Hled).
  exists (all_gone σ r). split; [exact Hrtc|]. split; [|split; [done|split; [done|]]].
  - split; [done|]. intros q n. simpl. rewrite lookup_fmap_Some. by intros (? & <- & _).
  - intros k. assert (Hok' : run_ok uuid s (all_gone σ r)).
    { apply (runs_ok uuid parse s Hc w); [done|]. exact (transitivity (R := rtc _) Hr Hrtc). }
    rewrite (claimed_in_flight uuid s _ k Hok'). simpl. by rewrite Hls, waiting_quiet.
Qed.

(** C7: What shutdown leaves claimed is stranded, on a store inside the process: once
    all goroutines are gone no execution begins, and a claimed job stays as it
    is, whatever the callers of the API do. *)
Theorem shutdown_strands {St H : Type} `{!StoreOps St, !LawfulStore St, !LocalStore St}
    (uuid : nat → string) (parse : string → (Z → Z) + string) (s : Scheduler St H) (w : World St H) (r r' : Run) :
  Inj (=) (=) uuid → (∀ q c, queues s !! q = Some c → makeable c) → fresh_world w →
  runs uuid parse s w r → stopped r → rtc (run_step uuid parse s) r r' →
  stopped r' ∧ sys_led (run_sys r') = sys_led (run_sys r) ∧
  ∀ k v, Spec.jobs (store_of r) !! k = Some v → Job.State v = StateClaimed →
    Spec.jobs (store_of r') !! k = Some v.
Proof.
  intros Hu Hc Hw Hr Hst Hrtc. pose proof (runs_ok uuid parse s Hc w r Hw Hr) as Hok. clear Hr.
  induction Hrtc as [|r0 r1 r2 Hstep _ IH]; [done|].
  destruct (stopped_step uuid parse s Hc r0 r1 Hok Hst Hstep) as (Hst1 & Hled1 & Hk1).
  destruct (IH Hst1 (run_step_ok uuid parse s Hc _ _ Hok Hstep)) as (Hst2 & Hled2 & Hk2).
  split; [done|]. split; [congruence|]. intros k v Hv Hcl. apply Hk2; [by apply Hk1|done].
Qed.
(** ** A run to try the theorems on *)

(** Two jobs scheduled and claimed, one sent to a worker that starts its handler,
    a schedule the runner has just listed, the janitor between its two calls,
    and the context cancelled. *)
Lemma demo_runs :
  ∃ r, runs demo_uuid demo_parse demo_sys demo_start r ∧ cancelled r = true ∧
       collect lane_running (sys_lanes (run_sys r)) = ["u"] ∧
       Spec.ids (collect waiting (sys_lanes (run_sys r))) = ["xu"] ∧
       RecurringSpec.Every <$> in_hand (runner_at (sys_turns (run_sys r))) = [7] ∧
       is_Some (janitor_at (sys_turns (run_sys r))).
Proof.
  eexists. split; [|split; [|split; [|split; [|split]]]].
  - eapply rtc_l.
    { eapply (run_turn _ _ _ _ Caller); [reflexivity|].
      eapply (step_at _ _ _ _ _ _ _ _ 50 "job" [] [WithPriority PriorityHigh]).
      - repeat constructor.
      - vm_compute; reflexivity. }
    eapply rtc_l.
    { eapply (run_turn _ _ _ _ Caller); [reflexivity|].
      eapply (step_at _ _ _ _ _ _ _ _ 50 "job" [] [WithPriority PriorityHigh]).
      - repeat constructor.
      - vm_compute; reflexivity. }
    eapply rtc_l.
    { eapply (run_turn _ _ _ _ (Dispatcher "default")); [reflexivity|].
      eapply (step_claim _ _ _ _ _ _ _ _ "default" 4 empty_lane); [reflexivity|reflexivity|reflexivity|].
      vm_compute; reflexivity. }
    eapply rtc_l.
    { eapply (run_turn _ _ _ _ (Dispatcher "default")); [reflexivity|].
      eapply (step_send _ _ _ _ _ _ _ _ "default" 4); [reflexivity|apply lookup_insert_eq|reflexivity|done]. }
    eapply rtc_l.
    { eapply (run_turn _ _ _ _ (IdleWorker "default")); [reflexivity|].
      eapply (step_start _ _ _ _ _ _ _ _ "default" 4);
        [reflexivity|apply lookup_insert_eq|reflexivity|done|reflexivity]. }
    eapply rtc_l.
    { eapply (run_turn _ _ _ _ Caller); [reflexivity|].
      eapply (step_every _ _ _ _ _ _ _ _ 7 "job" [] []); [constructor|vm_compute; reflexivity]. }
    eapply rtc_l.
    { eapply (run_turn _ _ _ _ RunnerLoop); [reflexivity|].
      eapply (step_runner _ _ _ _ _ _ _ _ 0); vm_compute; reflexivity. }
    eapply rtc_l.
    { eapply (run_turn _ _ _ _ JanitorLoop); [reflexivity|].
      eapply step_janitor; vm_compute; reflexivity. }
    apply rtc_once. apply run_cancel.
  - reflexivity.
  - vm_compute; reflexivity.
  - vm_compute; reflexivity.
  - vm_compute; reflexivity.
  - by eexists.
Qed.

Lemma every_progress (specs : list RecurringSpec.t) n :
  0 < n → RecurringSpec.Every <$> specs = [n] → Forall (progressing demo_parse) specs.
Proof.
  intros Hn. destruct specs as [|spec [|]]; try done. intros [= He]. repeat constructor.
  apply progressing_every. lia.
Qed.

Lemma shutdown_safe_witness :
  ∃ r, runs demo_uuid demo_parse demo_sys demo_start r ∧ cancelled r = true ∧
    collect lane_running (sys_lanes (run_sys r)) = ["u"] ∧
    NoDup (Spec.ids (collect lane_jobs (sys_lanes (run_sys r)))) ∧
    ∀ k, claimed_in (store_of r) k ↔ k ∈ Spec.ids (collect lane_jobs (sys_lanes (run_sys r))).
Proof.
  destruct demo_runs as (r & Hr & Hc & Hrun & _). exists r. split; [exact Hr|].
  split; [exact Hc|]. split; [exact Hrun|].
  destruct (shutdown_safe demo_uuid demo_parse demo_sys demo_start r
    demo_uuid_inj demo_capacities demo_fresh Hr) as (Hnodup & Hclaimed & _).
  split; [exact Hnodup|exact Hclaimed].
Defined.

Lemma start_returns_early_witness :
  ∃ r, runs demo_uuid demo_parse demo_sys demo_start r ∧
    collect lane_running (sys_lanes (run_sys r)) = ["u"] ∧
    ∃ r0 r', rtc (run_step demo_uuid demo_parse demo_sys) r r0 ∧ Start_return false r0 = Some r' ∧
      returned r' = true ∧ sys_lanes (run_sys r') = sys_lanes (run_sys r) ∧
      sys_led (run_sys r') = sys_led (run_sys r) ∧ workers r' = workers r.
Proof.
  destruct demo_runs as (r & Hr & Hc & Hrun & _ & Hev & _). exists r. split; [exact Hr|].
  split; [exact Hrun|]. apply (start_returns_early demo_uuid demo_parse demo_sys demo_start r).
  - apply demo_uuid_inj.
  - apply demo_capacities.
  - apply demo_fresh.
  - exact Hr.
  - exact Hc.
  - apply (every_progress _ 7); [done|exact Hev].
Defined.

Lemma shutdown_settles_witness :
  ∃ r, runs demo_uuid demo_parse demo_sys demo_start r ∧
    Spec.ids (collect waiting (sys_lanes (run_sys r))) = ["xu"] ∧
    ∃ r', rtc (run_step demo_uuid demo_parse demo_sys) r r' ∧ stopped r' ∧ returned r' = true ∧
      sys_led (run_sys r') = sys_led (run_sys r) ∧
      ∀ k, claimed_in (store_of r') k ↔ k ∈ Spec.ids (collect waiting (sys_lanes (run_sys r))).
Proof.
  destruct demo_runs as (r & Hr & Hc & _ & Hw & Hev & _). exists r. split; [exact Hr|]. split; [exact Hw|].
  apply (shutdown_settles demo_uuid demo_parse demo_sys demo_start r).
  - apply demo_uuid_inj.
  - apply demo_capacities.
  - apply demo_fresh.
  - exact Hr.
  - exact Hc.
  - apply (every_progress _ 7); [done|exact Hev].
Defined.

(** A stopped run with a job stranded in it. *)
Lemma demo_stopped :
  ∃ r, runs demo_uuid demo_parse demo_sys demo_start r ∧ stopped r ∧ claimed_in (store_of r) "xu".
Proof.
  destruct demo_runs as (r & Hr & Hc & _ & Hw & Hev & _).
  pose proof (runs_ok demo_uuid (Inj0 := demo_uuid_inj) demo_parse demo_sys demo_capacities
    demo_start r demo_fresh Hr) as Hok.
  destruct (quiesce demo_uuid (Inj0 := demo_uuid_inj) demo_parse demo_sys demo_capacities r Hok Hc
    (every_progress _ 7 ltac:(done) Hev))
    as (σ & Hrtc & Hls & _).
  assert (Hr' : runs demo_uuid demo_parse demo_sys demo_start (all_gone σ r)).
  { exact (transitivity (R := rtc _) Hr Hrtc). }
  exists (all_gone σ r). split; [exact Hr'|]. split.
  - split; [done|]. intros q n. simpl. rewrite lookup_fmap_Some. by intros (? & <- & _).
  - pose proof (runs_ok demo_uuid (Inj0 := demo_uuid_inj) demo_parse demo_sys demo_capacities
      demo_start _ demo_fresh Hr') as Hok'.
    rewrite (claimed_in_flight demo_uuid demo_sys _ "xu" Hok'). simpl.
    rewrite Hls, waiting_quiet, Hw. by left.
Qed.

Lemma shutdown_strands_witness :
  ∃ r v, runs demo_uuid demo_parse demo_sys demo_start r ∧ stopped r ∧
    Spec.jobs (store_of r) !! "xu" = Some v ∧ Job.State v = StateClaimed ∧
    ∀ r', rtc (run_step demo_uuid demo_parse demo_sys) r r' →
      Spec.jobs (store_of r') !! "xu" = Some v.
Proof.
  destruct demo_stopped as (r & Hr & Hst & v & Hv & Hc). exists r, v. split; [exact Hr|].
  split; [exact Hst|]. split; [exact Hv|]. split; [exact Hc|]. intros r' Hrtc.
  apply (shutdown_strands demo_uuid demo_parse demo_sys demo_start r r').
  - apply demo_uuid_inj.
  - apply demo_capacities.
  - apply demo_fresh.
  - exact Hr.
  - exact Hst.
  - exact Hrtc.
  - exact Hv.
  - exact Hc.
Defined.

(** The runner searches for the next run of a schedule for the 30th of February
    when the context is cancelled. *)
Lemma demo_hung :
  ∃ r, runs demo_uuid demo_parse demo_sys demo_start r ∧ cancelled r = true ∧ runner_on r = true ∧
       hung demo_parse (runner_at (sys_turns (run_sys r))).
Proof.
  eexists. split; [|split; [|split]].
  - eapply rtc_l.
    { eapply (run_turn _ _ _ _ Caller); [reflexivity|].
      eapply (step_cron _ _ _ _ _ _ _ _ "0 0 30 2 *" "job" [] []); [constructor|vm_compute; reflexivity]. }
    eapply rtc_l.
    { eapply (run_turn _ _ _ _ RunnerLoop); [reflexivity|].
      eapply (step_runner _ _ _ _ _ _ _ _ 0); vm_compute; reflexivity. }
    eapply rtc_l.
    { eapply (run_turn _ _ _ _ RunnerLoop); [reflexivity|].
      eapply (step_runner _ _ _ _ _ _ _ _ 0); vm_compute; reflexivity. }
    eapply rtc_l.
    { eapply (run_turn _ _ _ _ RunnerLoop); [reflexivity|].
      eapply (step_runner _ _ _ _ _ _ _ _ 0); vm_compute; reflexivity. }
    apply rtc_once. apply run_cancel.
  - reflexivity.
  - reflexivity.
  - do 3 eexists. split; [reflexivity|]. intros [|i]; vm_compute; discriminate.
Qed.

Lemma shutdown_hangs_witness :
  ∃ r, runs demo_uuid demo_parse demo_sys demo_start r ∧ cancelled r = true ∧
    ∀ r', rtc (run_step demo_uuid demo_parse demo_sys) r r' → Start_return false r' = None.
Proof.
  destruct demo_hung as (r & Hr & Hc & Hon & Hh). exists r. split; [exact Hr|]. split; [exact Hc|].
  intros r' Hrtc. apply (shutdown_hangs demo_uuid demo_parse demo_sys r r').
  - exact Hon.
  - exact Hh.
  - exact Hrtc.
Defined.
