(* ===== verification/ExampleMain.v ===== *)
(** The example program ([src/cmd/example/main.go]): a scheduler over the
    in-memory store, three dispatches, and [Start] until an interrupt or three
    seconds have passed.

    [setup] is [main] up to [Start]; from there it is a run of [Shutdown], whose
    cancellation is the interrupt or the end of the three seconds. The state of
    the user's functions is the lines the handler has printed. *)

From S2P Require Import Prelude ListLib Types StoreApi MemStore MemStoreFacts MemStoreProps.
From S2P Require Import World Recurring RecurringProps.
From S2P Require Import Scheduler Worker WorkerProps SchedulerProps Ledger Turns System SystemProps Contents.
From S2P Require Import Shutdown.
Local Open Scope Z_scope.
Local Open Scope go_scope.

(** [[]byte(text)] and [%s]. *)
Definition bytes (text : string) : list Byte.byte := Stdlib.Strings.String.list_byte_of_string text.
Definition text (payload : list Byte.byte) : string := Stdlib.Strings.String.string_of_list_byte payload.

(** What [hello] prints: [fmt.Printf("hello: %s\n", payload)]. *)
Definition line (payload : list Byte.byte) : string := "hello: " +:+ text payload +:+ newline.

Definition hello : Handler MemStore.Store (list string) := λ _ payload w,
  (HReturn None, with_hooks (w_hooks w ++ [line payload]) w).

(** A dispatch without options on a store inside the process. *)
Lemma At_local {St H} `{!StoreOps St, !LawfulStore St, !LocalStore St} (uuid : nat → string)
    (s : Scheduler St H) t name payload (w : World St H) :
  wf (w_store w) → is_Some (handlers s !! name) → is_Some (queues s !! "default") → hooks s = no_hooks →
  ∃ w', At uuid s t name payload [] w = Some ((uuid (w_uuids w), None), w') ∧ wf (w_store w') ∧
    abs (w_store w') = (Spec.save (new_job (uuid (w_uuids w)) name payload t (clock s (w_reads w)))
                          (abs (w_store w))).2 ∧
    w_reads w' = S (w_reads w) ∧ w_uuids w' = S (w_uuids w) ∧ w_hooks w' = w_hooks w.
Proof.
  intros Hwf [h Hh] [c Hc] Hno. unfold At, handler. rewrite Hh.
  unfold gbind, NewString, World.Now, on_store, at_store, under, fireEnqueue. cbn. rewrite Hc, Hno.
  destruct (local_Save (w_store w) (new_job (uuid (w_uuids w)) name payload t (clock s (w_reads w))) Hwf)
    as (st & Hs & Hwf' & Ha). cbn [w_store with_reads with_uuids]. rewrite Hs. by eexists.
Qed.

Section main.
Variable uuid : nat → string.
Variable parse : string → (Z → Z) + string.
Variable numCPU : Z.
Variable realClock : nat → Z.

(** [main] up to [Start]: the scheduler, or the error it prints before it
    exits. The results of the dispatches are discarded. *)
Definition setup : GoM (World MemStore.Store (list string))
    (option (Scheduler MemStore.Store (list string)) * option api_error) :=
  let! r := NewScheduler uuid numCPU realClock [WithStore; WithPollInterval (50 * Millisecond)] in
  match r with
  | (_, Some err) => gret (None, Some err)
  | (None, None) => gret (None, None)
  | (Some sched, None) =>
      let sched := Register "hello" hello sched in
      do! Scheduler.Now uuid sched "hello" (bytes "now") [] in
      do! Scheduler.After uuid sched (500 * Millisecond) "hello" (bytes "after 500ms") [] in
      do! Scheduler.Every uuid sched (700 * Millisecond) "hello" (bytes "every 700ms") [] in
      gret (Some sched, None)
  end.

(** The process as it begins. *)
Definition main_world : World MemStore.Store (list string) := mkWorld MemStore.New [] [] 0 0.

(** The states of [main] once it has called [Start]: the interrupt or the end of
    the three seconds cancels the context, at any time. *)
Definition main (r : @Run MemStore.Store (list string)) : Prop :=
  ∃ s w1, setup main_world = Some ((Some s, None), w1) ∧ rtc (run_step uuid parse s) (Launch s w1) r.

(** The scheduler [main] starts. *)
Definition main_scheduler : Scheduler MemStore.Store (list string) :=
  Register "hello" hello
    (WithPollInterval (50 * Millisecond) (WithStore (default_scheduler numCPU (uuid 0) realClock))).

Definition now_job : Job.t := new_job (uuid 1) "hello" (bytes "now") (realClock 0) (realClock 1).
Definition later_job : Job.t :=
  new_job (uuid 2) "hello" (bytes "after 500ms") (Time.Add (realClock 2) (500 * Millisecond)) (realClock 3).
Definition every_spec : RecurringSpec.t :=
  {| RecurringSpec.ID := uuid 3; RecurringSpec.Name := "hello"; RecurringSpec.Queue := "default";
     RecurringSpec.Priority := PriorityNormal; RecurringSpec.Payload := bytes "every 700ms";
     RecurringSpec.CodecName := ""; RecurringSpec.Delivery := 0; RecurringSpec.Timeout := 0;
     RecurringSpec.MaxAttempts := 3; RecurringSpec.Cron := ""; RecurringSpec.Every := 700 * Millisecond;
     RecurringSpec.Catchup := false; RecurringSpec.LeaseUntil := Time.zero; RecurringSpec.LeasedBy := "";
     RecurringSpec.NextRunAt := Time.Add (realClock 4) (700 * Millisecond);
     RecurringSpec.LastFireAt := Time.zero |}.

(** The contents of the store when [Start] is called. *)
Definition dispatched_store : Spec.t :=
  Spec.mk (<[uuid 2 := Spec.job_view later_job]> {[uuid 1 := Spec.job_view now_job]})
    {[uuid 3 := Spec.rec_view every_spec]}.

(** A caller's steps before [Start], seen as steps of the run. *)
Lemma call_runs (s : Scheduler MemStore.Store (list string)) w w' :
  (∀ ls led tn, step uuid parse s false Caller (mkSys w ls led tn) (mkSys w' ls led tn)) →
  rtc (run_step uuid parse s) (Launch s w) (Launch s w').
Proof.
  intros Hs. apply rtc_once. apply (run_turn uuid parse s (Launch s w) Caller (Start s w')); [done|].
  apply Hs.
Qed.

(** [main] is set up: no dispatch is refused, the store has the two jobs, due
    at once and in half a second, and the schedule, due in 0.7 seconds, and the
    calls are steps of a run that began with an empty store. *)
Lemma setup_run :
  ∃ w1, setup main_world = Some ((Some main_scheduler, None), w1) ∧ wf (w_store w1) ∧
    abs (w_store w1) = dispatched_store ∧
    ∃ w0, fresh_world w0 ∧ runs uuid parse main_scheduler w0 (Launch main_scheduler w1).
Proof.
  set (w0 := with_uuids 1 main_world). assert (Hwf0 : wf (w_store w0)) by apply New_wf.
  destruct (At_local uuid main_scheduler (realClock 0) "hello" (bytes "now") (with_reads 1 w0)
    Hwf0 ltac:(by eexists) ltac:(by eexists) eq_refl)
    as (w1 & Hr1 & Hwf1 & Ha1 & Hn1 & Hu1 & Hh1).
  destruct (At_local uuid main_scheduler (Time.Add (realClock (w_reads w1)) (500 * Millisecond)) "hello"
    (bytes "after 500ms") (with_reads (S (w_reads w1)) w1) Hwf1 ltac:(by eexists) ltac:(by eexists) eq_refl) as (w2 & Hr2 & Hwf2 & Ha2 & Hn2 & Hu2 & Hh2).
  cbn in Hn1, Hu1, Hn2, Hu2. cbn [w_store w_uuids w_reads with_reads with_uuids] in Ha1, Ha2.
  destruct (upsert_run main_scheduler every_spec
    (with_reads (S (w_reads w2)) (with_uuids (S (w_uuids w2)) w2)) Hwf2) as (w3 & Hr3 & Hwf3 & Ha3 & _).
  assert (He : Scheduler.Every uuid main_scheduler (700 * Millisecond) "hello" (bytes "every 700ms") [] w2 =
               Some ((uuid 3, None), w3)).
  { unfold Scheduler.Every, handler. cbn [handlers main_scheduler Register]. rewrite lookup_insert_eq.
    change (700 * Millisecond <=? 0) with false. cbv beta iota.
    unfold buildRecurringSpec, gbind, NewString, World.Now, gret. cbn.
    cbn in Hr3. rewrite Hn2, Hn1, Hu2, Hu1 in *. exact Hr3. }
  assert (Hnow : Scheduler.Now uuid main_scheduler "hello" (bytes "now") [] w0 =
                 Some ((uuid 1, None), w1)) by exact Hr1.
  assert (Hafter : Scheduler.After uuid main_scheduler (500 * Millisecond) "hello" (bytes "after 500ms") [] w1 =
                   Some ((uuid (w_uuids w1), None), w2)) by exact Hr2.
  exists w3. split; [|split; [done|split]].
  - unfold setup, gbind at 1.
    change (NewScheduler uuid numCPU realClock _ main_world)
      with (Some (Some (WithPollInterval (50 * Millisecond)
              (WithStore (default_scheduler (St := MemStore.Store) (H := list string) numCPU (uuid 0) realClock))),
              @None api_error, w0)).
    cbv beta iota zeta. fold main_scheduler. unfold gbind. by rewrite Hnow, Hafter, He.
  - cbn [w_store with_reads with_uuids] in Ha3. rewrite Ha3, Ha2, Ha1, Hu1, Hn1. reflexivity.
  - exists w0. split; [split; [done|reflexivity]|]. unfold runs.
    etrans; [apply (call_runs main_scheduler w0 (with_reads 1 w0)); intros; apply step_read|].
    etrans; [apply (call_runs main_scheduler _ w1); intros; by eapply step_at|].
    etrans; [apply (call_runs main_scheduler w1 (with_reads (S (w_reads w1)) w1)); intros; apply step_read|].
    etrans; [apply (call_runs main_scheduler _ w2); intros; by eapply step_at|].
    apply (call_runs main_scheduler w2 w3). intros. by eapply step_every.
Qed.

(** ** What is printed *)

(** The name, codec and payload of what [main] dispatches. *)
Definition greeting (name codec : string) (payload : list Byte.byte) : Prop :=
  name = "hello" ∧ codec = "" ∧
  payload ∈ bytes <$> ["now"; "after 500ms"; "every 700ms"].

Lemma setup_carries w1 :
  wf (w_store w1) → abs (w_store w1) = dispatched_store →
  carries greeting (Start main_scheduler w1).
Proof.
  assert (Hin : ∀ t, t ∈ ["now"; "after 500ms"; "every 700ms"] → greeting "hello" "" (bytes t)).
  { intros t Ht. split; [done|]. split; [done|]. by apply list_elem_of_fmap_2. }
  intros Hwf Ha. split; cbn [sys_world sys_lanes sys_turns Start]; [done| | |].
  - rewrite Ha. split; cbn; [apply map_Forall_insert_2|].
    + apply (Hin "after 500ms"). right; by left.
    + apply map_Forall_singleton. apply (Hin "now"). by left.
    + apply map_Forall_singleton. apply (Hin "every 700ms"). right; right; by left.
  - intros q x. rewrite lookup_fmap_Some. intros (n & <- & _) j Hj. by apply elem_of_nil in Hj.
  - intros r Hr. by apply elem_of_nil in Hr.
Qed.

(** The lines of the program. *)
Definition lines : list string := line ∘ bytes <$> ["now"; "after 500ms"; "every 700ms"].
End main.

Lemma ready_inj {A B E} {a a' : A} {b b' : B} :
  Some ((Some a, @None E), b) = Some ((Some a', None), b') → a = a' ∧ b = b'.
Proof. by intros [= -> ->]. Qed.

(** C36: The example program: its set-up ends without an error, leaving in the
    store two jobs, due at once and in half a second, and a schedule, due in 0.7
    seconds; its runs are runs of a scheduler that began with an empty store, so
    all that holds of those holds of it; and whatever its scheduler's goroutines do from then on, each handler
    they run prints one of three lines, and nothing else. *)
Theorem main_prints (uuid : nat → string) (parse : string → (Z → Z) + string) (numCPU : Z)
    (realClock : nat → Z) :
  makeable numCPU →
  ∃ s w1, setup uuid numCPU realClock main_world = Some ((Some s, None), w1) ∧
    abs (w_store w1) = dispatched_store uuid realClock ∧
    (∀ r, main uuid parse numCPU realClock r → ∃ w0, fresh_world w0 ∧ runs uuid parse s w0 r) ∧
    ∀ σ q x j start, rtc (goroutine_step uuid parse s) (Start s w1) σ →
      sys_lanes σ !! q = Some x → (j, start) ∈ running x →
      ∃ h l, handlers s !! Job.Name j = Some h ∧ l ∈ lines ∧
        ∀ timeout w, h timeout (Job.Payload j) w = (HReturn None, with_hooks (w_hooks w ++ [l]) w).
Proof.
  intros Hcpu. destruct (setup_run uuid parse numCPU realClock) as (w1 & Hs & Hwf & Ha & Hw0).
  exists (main_scheduler uuid numCPU realClock), w1. split; [done|]. split; [done|]. split.
  { intros r (s & w2 & Hs2 & Hr). destruct (ready_inj (eq_trans (eq_sym Hs) Hs2)) as [<- <-].
    destruct Hw0 as (w0 & Hf & Hr0). exists w0. split; [done|]. exact (transitivity (R := rtc _) Hr0 Hr). }
  intros σ q x j start Hrtc Hx Hj.
  assert (Hcap : ∀ q c, queues (main_scheduler uuid numCPU realClock) !! q = Some c → makeable c).
  { intros q' c. change (queues _) with ({["default" := numCPU]} : gmap string Z).
    rewrite lookup_singleton_Some. by intros [_ <-]. }
  pose proof (contents_kept greeting uuid parse _ Hcap _ σ
    (setup_carries uuid numCPU realClock w1 Hwf Ha) Hrtc) as Hc.
  assert (Hin : j ∈ lane_jobs x).
  { apply elem_of_app; right; apply elem_of_app; right. by apply (list_elem_of_fmap_2 fst) in Hj. }
  destruct (carries_lanes _ _ Hc q x Hx j Hin) as (Hn & _ & Hp).
  exists hello, (line (Job.Payload j)). rewrite Hn. split; [reflexivity|]. split; [|done].
  unfold lines. rewrite list_fmap_compose. by apply list_elem_of_fmap_2.
Qed.

(** A machine with four cores whose clock goes a second on at every reading. *)
Definition demo_clock (n : nat) : Z := Z.of_nat n * Second.

Definition demo_main : GoM (World MemStore.Store (list string)) unit :=
  let! r := setup RecurringProps.demo_uuid 4 demo_clock in
  match r with
  | (Some s, None) =>
      let serve :=
        let! jobs := dispatcher_claim (start_ctx false) (Scheduler.clock s) (dispatcher_for s "default" 4) false in
        gfor jobs (executeOne (start_ctx false) s) in
      do! serve in
      do! tick RecurringProps.demo_parse RecurringProps.demo_uuid (start_ctx false) 100 (Scheduler.clock s)
            (mkRunner (workerID s) (pollInterval s)) in
      serve
  | _ => gret tt
  end.

(** Claimed, run, the schedule fired and run: the three lines. *)
Example main_demo : (λ r, w_hooks r.2) <$> demo_main main_world = Some lines.
Proof. vm_compute. reflexivity. Qed.

Definition demo_ready : World MemStore.Store (list string) :=
  match setup RecurringProps.demo_uuid 4 demo_clock main_world with Some (_, w) => w | None => main_world end.

Lemma demo_setup :
  setup RecurringProps.demo_uuid 4 demo_clock main_world =
    Some ((Some (main_scheduler RecurringProps.demo_uuid 4 demo_clock), None), demo_ready).
Proof.
  destruct (setup_run RecurringProps.demo_uuid RecurringProps.demo_parse 4 demo_clock) as (w1 & Hs & _).
  unfold demo_ready. by rewrite Hs.
Qed.

(** The first job runs. *)
Lemma demo_hello :
  ∃ σ x, rtc (goroutine_step RecurringProps.demo_uuid RecurringProps.demo_parse
                (main_scheduler RecurringProps.demo_uuid 4 demo_clock))
           (Start (main_scheduler RecurringProps.demo_uuid 4 demo_clock) demo_ready) σ ∧
    sys_lanes σ !! "default" = Some x ∧ lane_running x = ["xu"].
Proof.
  eexists _, _. split.
  - eapply rtc_l.
    { exists false, (Dispatcher "default"). split; [discriminate|].
      eapply (step_claim _ _ _ _ _ _ _ _ "default" 4 empty_lane); [reflexivity|reflexivity|reflexivity|].
      vm_compute; reflexivity. }
    eapply rtc_l.
    { exists false, (Dispatcher "default"). split; [discriminate|].
      eapply (step_send _ _ _ _ _ _ _ _ "default" 4); [reflexivity|apply lookup_insert_eq|reflexivity|done]. }
    apply rtc_once. exists false, (IdleWorker "default"). split; [discriminate|].
    eapply (step_start _ _ _ _ _ _ _ _ "default" 4);
      [reflexivity|apply lookup_insert_eq|reflexivity|done|reflexivity].
  - split; [apply lookup_insert_eq|]. vm_compute; reflexivity.
Qed.

Lemma main_prints_witness :
  ∃ s w1, setup RecurringProps.demo_uuid 4 demo_clock main_world = Some ((Some s, None), w1) ∧
    ∃ σ x, rtc (goroutine_step RecurringProps.demo_uuid RecurringProps.demo_parse s) (Start s w1) σ ∧
      sys_lanes σ !! "default" = Some x ∧ lane_running x = ["xu"] ∧
      ∀ j start, (j, start) ∈ running x →
      ∃ h l, handlers s !! Job.Name j = Some h ∧ l ∈ lines ∧
        ∀ timeout w, h timeout (Job.Payload j) w = (HReturn None, with_hooks (w_hooks w ++ [l]) w).
Proof.
  destruct (main_prints RecurringProps.demo_uuid RecurringProps.demo_parse 4 demo_clock)
    as (s & w1 & Hs & _ & _ & Hall); [by apply (bool_decide_unpack _)|].
  exists s, w1. split; [exact Hs|]. destruct (ready_inj (eq_trans (eq_sym demo_setup) Hs)) as [<- <-].
  destruct demo_hello as (σ & x & Hrtc & Hx & Hrun). exists σ, x. split; [exact Hrtc|].
  split; [exact Hx|]. split; [exact Hrun|]. intros j start Hj. exact (Hall σ "default" x j start Hrtc Hx Hj).
Defined.
