(* ===== verification/Conformance.v ===== *)
(** The conformance suite every backend runs ([src/storetest/storetest.go]),
    as executable scenarios over the [Store] interface, and that the in-memory
    store passes it.

    A scenario is run on a fresh store; [time i] is the [i]-th reading of
    [time.Now] in it, and its result tells whether no check failed. *)

From S2P Require Import Prelude ListLib Types StoreApi ContainerHeap MemStore MemStoreFacts.
From S2P Require Import MemStoreProps.
Local Open Scope Z_scope.
Local Open Scope go_scope.

Definition mkJob (id queue : string) (runAt p : Z) : Job.t :=
  Job.set_MaxAttempts 3 (Job.set_Priority p (Job.set_State StatePending (Job.set_RunAt runAt
    (Job.set_Queue queue
      {| Job.ID := id; Job.Name := ""; Job.Queue := ""; Job.Priority := 0; Job.Payload := [];
         Job.CodecName := ""; Job.RunAt := 0; Job.Attempt := 0; Job.MaxAttempts := 0;
         Job.State := 0; Job.Delivery := 0; Job.Timeout := 0; Job.LockedBy := "";
         Job.LockedUntil := Time.zero; Job.LastError := ""; Job.RecurringID := "";
         Job.CreatedAt := Time.zero; Job.UpdatedAt := Time.zero; Job.catchup := false |})))).

(** [err != nil]. *)
Definition failed (err : option error) : bool := match err with Some _ => true | None => false end.
Definition is_err (err : option error) (e : error) : bool := bool_decide (err = Some e).

Section suite.
Context {St : Type} `{!StoreOps St}.

(** A scenario: the readings of the clock in, whether it passed out. *)
Definition scenario : Type := (nat → Z) → GoM St bool.

Definition testSaveAndClaim : scenario := λ time,
  let now := time 0%nat in
  let! err := st_Save (mkJob "a" "default" now PriorityNormal) in
  if failed err then gret false else
  let! r := st_ClaimDue "default" now 10 "w" (Time.Add now Minute) in
  if failed r.2 then gret false else
  gret (bool_decide (Job.ID <$> r.1 = ["a"])).

Definition testClaimRespectsRunAt : scenario := λ time,
  let now := time 0%nat in
  do! st_Save (mkJob "future" "default" (Time.Add now Hour) PriorityNormal) in
  let! r := st_ClaimDue "default" now 10 "w" (Time.Add now Minute) in
  gret (length r.1 =? 0)%nat.

Definition testClaimOrdersByPriority : scenario := λ time,
  let now := time 0%nat in
  do! st_Save (mkJob "low" "default" (Time.Add now (-2 * Second)) PriorityLow) in
  do! st_Save (mkJob "crit" "default" (Time.Add now (-1 * Second)) PriorityCritical) in
  let! r := st_ClaimDue "default" now 10 "w" (Time.Add now Minute) in
  gret (match r.1 with j :: _ => String.eqb (Job.ID j) "crit" | [] => false end).

Definition testAck : scenario := λ time,
  let now := time 0%nat in
  do! st_Save (mkJob "j" "default" now PriorityNormal) in
  do! st_ClaimDue "default" now 1 "w" (Time.Add now Minute) in
  let! err := st_Ack "j" in
  if failed err then gret false else
  let! r := st_ClaimDue "default" (Time.Add now Hour) 10 "w" (Time.Add (Time.Add now Hour) Minute) in
  gret (length r.1 =? 0)%nat.

Definition testFailRetries : scenario := λ time,
  let now := time 0%nat in
  do! st_Save (mkJob "j" "default" now PriorityNormal) in
  do! st_ClaimDue "default" now 1 "w" (Time.Add now Minute) in
  let next := Time.Add now (2 * Second) in
  do! st_Fail "j" "boom" next in
  let! r := st_ClaimDue "default" (Time.Add next Millisecond) 1 "w" (Time.Add next Minute) in
  gret (match r.1 with
        | [j] => (Job.Attempt j =? 1) && String.eqb (Job.LastError j) "boom"
        | _ => false
        end).

Definition testFailExhausts : scenario := λ time,
  let now := time 0%nat in
  do! st_Save (Job.set_MaxAttempts 1 (mkJob "j" "default" now PriorityNormal)) in
  do! st_ClaimDue "default" now 1 "w" (Time.Add now Minute) in
  do! st_Fail "j" "boom" (Time.Add now Second) in
  let! r := st_ClaimDue "default" (Time.Add now Hour) 1 "w" (Time.Add (Time.Add now Hour) Minute) in
  gret (length r.1 =? 0)%nat.

Definition testCancelPending : scenario := λ time,
  do! st_Save (mkJob "j" "default" (time 0%nat) PriorityNormal) in
  let! err := st_Cancel "j" in
  gret (negb (failed err)).

Definition testCancelClaimedRejected : scenario := λ time,
  let now := time 0%nat in
  do! st_Save (mkJob "j" "default" now PriorityNormal) in
  do! st_ClaimDue "default" now 1 "w" (Time.Add now Minute) in
  let! err := st_Cancel "j" in
  gret (is_err err ErrJobNotPending).

Definition testReschedule : scenario := λ time,
  let now := time 0%nat in
  do! st_Save (mkJob "j" "default" (Time.Add now Hour) PriorityNormal) in
  let! err := st_Reschedule "j" now in
  if failed err then gret false else
  let! r := st_ClaimDue "default" now 10 "w" (Time.Add now Minute) in
  gret (length r.1 =? 1)%nat.

Definition r1_spec : RecurringSpec.t :=
  {| RecurringSpec.ID := "r1"; RecurringSpec.Name := "tick"; RecurringSpec.Queue := "default";
     RecurringSpec.Priority := 0; RecurringSpec.Payload := []; RecurringSpec.CodecName := "";
     RecurringSpec.Delivery := 0; RecurringSpec.Timeout := 0; RecurringSpec.MaxAttempts := 0;
     RecurringSpec.Cron := ""; RecurringSpec.Every := Second; RecurringSpec.Catchup := false;
     RecurringSpec.LeaseUntil := Time.zero; RecurringSpec.LeasedBy := "";
     RecurringSpec.NextRunAt := Time.zero; RecurringSpec.LastFireAt := Time.zero |}.

Definition testRecurringCRUD : scenario := λ _,
  do! st_UpsertRecurring r1_spec in
  let! l1 := st_ListRecurring in
  if negb (length l1.1 =? 1)%nat then gret false else
  do! st_DeleteRecurring "r1" in
  let! l2 := st_ListRecurring in
  gret (length l2.1 =? 0)%nat.

Definition testRecurringLease : scenario := λ time,
  let! r := st_AcquireRecurringLease "r1" (Time.Add (time 0%nat) Minute) "w1" in
  if failed r.2 then gret false else gret r.1.

Definition testQueueSize : scenario := λ time,
  let now := time 0%nat in
  do! st_Save (mkJob "a" "default" now PriorityNormal) in
  do! st_Save (mkJob "b" "default" now PriorityNormal) in
  let! r := st_QueueSize "default" in
  if failed r.2 then gret false else gret (r.1 =? 2).

Definition testMissingJobErrors : scenario := λ time,
  let! e1 := st_Ack "missing" in
  let! e2 := st_Fail "missing" "x" (time 0%nat) in
  let! e3 := st_Cancel "missing" in
  let! e4 := st_Reschedule "missing" (time 1%nat) in
  gret (is_err e1 ErrJobNotFound && is_err e2 ErrJobNotFound && is_err e3 ErrJobNotFound &&
        is_err e4 ErrJobNotFound).

(** [Run]: the scenarios by name. *)
Definition Run : list (string * scenario) :=
  [("SaveAndClaim", testSaveAndClaim); ("ClaimRespectsRunAt", testClaimRespectsRunAt);
   ("ClaimOrdersByPriority", testClaimOrdersByPriority); ("Ack", testAck);
   ("FailRetries", testFailRetries); ("FailExhausts", testFailExhausts);
   ("CancelPending", testCancelPending); ("CancelClaimedRejected", testCancelClaimedRejected);
   ("Reschedule", testReschedule); ("RecurringCRUD", testRecurringCRUD);
   ("AcquireRecurringLeaseAtLeastOnce", testRecurringLease); ("QueueSize", testQueueSize);
   ("MissingJobErrors", testMissingJobErrors)].

(** A scenario passes from a fresh store. *)
Definition passes (new : St) (time : nat → Z) (t : scenario) : Prop :=
  ∃ s', t time new = Some (true, s').
End suite.

(** ** The in-memory store *)

Local Arguments Time.Add : simpl never.

(** What is known of a store in the course of a scenario: its jobs. *)
Definition holds (s : Store) (m : gmap string Job.t) : Prop := mem_wf s ∧ jobs_of s = m.

Lemma holds_New : holds New ∅.
Proof. split; [apply New_wf|reflexivity]. Qed.

Lemma Save_holds s m j : holds s m → ∃ s', Save j s = Some (None, s') ∧ holds s' (<[Job.ID j := j]> m).
Proof.
  intros [Hwf <-]. destruct (Save_run s j Hwf) as (s' & Hrun & Hwf' & Hraw). exists s'.
  split; [done|]. split; [done|]. exact (f_equal Spec.jobs Hraw).
Qed.

(** A claim on a queue with one pending job. *)
Lemma Claim_holds s m q now n w u j :
  holds s m → 0 < n → makeable n → Spec.pending_of q m = [j] →
  ∃ s', ClaimDue q now n w u s =
          Some ((if due now j then [claimed now w u j] else [], None), s') ∧
        holds s' (if due now j then <[Job.ID j := claimed now w u j]> m else m).
Proof.
  intros [Hwf <-] Hn Hmk Hp.
  destruct (ClaimDue_run s q now n w u Hwf Hmk) as (srt & s' & Hperm & _ & Hrun & Hwf' & _ & Hj).
  rewrite Hp in Hperm. apply Permutation_singleton_r in Hperm as ->.
  exists s'. rewrite Hrun. unfold holds. rewrite Hj. unfold due_prefix. simpl.
  rewrite take_ge by (destruct (due now j); simpl; lia). by destruct (due now j).
Qed.

Lemma Claim_none s m q now n w u :
  holds s m → 0 < n → makeable n → Spec.pending_of q m = [] →
  ∃ s', ClaimDue q now n w u s = Some (([], None), s') ∧ holds s' m.
Proof.
  intros [Hwf <-] Hn Hmk Hp.
  destruct (ClaimDue_run s q now n w u Hwf Hmk) as (srt & s' & Hperm & _ & Hrun & Hwf' & _ & Hj).
  rewrite Hp in Hperm. symmetry in Hperm. apply Permutation_nil in Hperm as ->.
  exists s'. rewrite Hrun. unfold holds. rewrite Hj. unfold due_prefix. by destruct (Z.to_nat n).
Qed.

(** The other methods, by the abstract store (schedules aside). *)
Definition on_jobs (m : gmap string Job.t) : Spec.t := Spec.mk m ∅.

Lemma Ack_holds s m id :
  holds s m → ∃ s', Ack id s = Some ((Spec.ack id (on_jobs m)).1, s') ∧
                    holds s' (Spec.jobs (Spec.ack id (on_jobs m)).2).
Proof.
  intros [Hwf <-]. destruct (Ack_run s id Hwf) as (e & s' & Hrun & Hwf' & He). exists s'.
  rewrite Hrun. unfold holds. change (jobs_of s') with (Spec.jobs (e, raw s').2). rewrite He.
  replace e with (Spec.ack id (raw s)).1 by (by rewrite <- He). unfold Spec.ack. simpl.
  by repeat case_match.
Qed.

Lemma Fail_holds s m id msg t :
  holds s m → ∃ s', Fail id msg t s = Some ((Spec.fail id msg t (on_jobs m)).1, s') ∧
                    holds s' (Spec.jobs (Spec.fail id msg t (on_jobs m)).2).
Proof.
  intros [Hwf <-]. destruct (Fail_run s id msg t Hwf) as (e & s' & Hrun & Hwf' & He). exists s'.
  rewrite Hrun. unfold holds. change (jobs_of s') with (Spec.jobs (e, raw s').2). rewrite He.
  replace e with (Spec.fail id msg t (raw s)).1 by (by rewrite <- He). unfold Spec.fail. simpl.
  by repeat case_match.
Qed.

Lemma Cancel_holds s m id :
  holds s m → ∃ s', Cancel id s = Some ((Spec.cancel id (on_jobs m)).1, s') ∧
                    holds s' (Spec.jobs (Spec.cancel id (on_jobs m)).2).
Proof.
  intros [Hwf <-]. destruct (Cancel_run s id Hwf) as (e & s' & Hrun & Hwf' & He). exists s'.
  rewrite Hrun. unfold holds. change (jobs_of s') with (Spec.jobs (e, raw s').2). rewrite He.
  replace e with (Spec.cancel id (raw s)).1 by (by rewrite <- He). unfold Spec.cancel. simpl.
  by repeat case_match.
Qed.

Lemma Reschedule_holds s m id t :
  holds s m → ∃ s', Reschedule id t s = Some ((Spec.reschedule id t (on_jobs m)).1, s') ∧
                    holds s' (Spec.jobs (Spec.reschedule id t (on_jobs m)).2).
Proof.
  intros [Hwf <-]. destruct (Reschedule_run s id t Hwf) as (e & s' & Hrun & Hwf' & He). exists s'.
  rewrite Hrun. unfold holds. change (jobs_of s') with (Spec.jobs (e, raw s').2). rewrite He.
  replace e with (Spec.reschedule id t (raw s)).1 by (by rewrite <- He). unfold Spec.reschedule. simpl.
  by repeat case_match.
Qed.

(** One call of a scenario: run it by its lemma, name the store it leaves. *)
Ltac call lem := unfold gbind at 1; simpl;
  lazymatch goal with
  | Hs : holds ?s _ |- context [match _ ?s with _ => _ end] =>
      let s' := fresh "s" in let H' := fresh "Hs" in
      destruct lem as (s' & -> & H'); clear Hs; cbv beta iota
  end.

Lemma due_at t id q p : due t (mkJob id q t p) = true.
Proof. unfold due, Time.After. simpl. by rewrite Z.ltb_irrefl. Qed.

Lemma due_later t d id q p : 0 < d → due t (mkJob id q (Time.Add t d) p) = false.
Proof. intros Hd. unfold due, Time.After, Time.Add. simpl. apply negb_false_iff, Z.ltb_lt. lia. Qed.

(** The pending jobs of small stores. *)
Lemma pending_one id j :
  Job.Queue j = "default" → Job.State j = StatePending →
  Spec.pending_of "default" (<[id := j]> ∅) = [j].
Proof.
  intros Hq Hs. unfold Spec.pending_of. rewrite insert_empty, map_to_list_singleton. simpl.
  rewrite filter_cons. unfold Spec.pending_in. rewrite Hq, Hs. done.
Qed.

Lemma pending_two lo cr :
  Job.Queue lo = "default" → Job.State lo = StatePending →
  Job.Queue cr = "default" → Job.State cr = StatePending → Job.ID lo ≠ Job.ID cr →
  Spec.pending_of "default" (<[Job.ID cr := cr]> (<[Job.ID lo := lo]> ∅)) ≡ₚ [cr; lo].
Proof.
  intros Hql Hsl Hqc Hsc Hne. unfold Spec.pending_of.
  rewrite map_to_list_insert by by rewrite insert_empty, lookup_singleton_ne.
  rewrite insert_empty, map_to_list_singleton. simpl. rewrite !filter_cons. unfold Spec.pending_in.
  rewrite Hql, Hsl, Hqc, Hsc. done.
Qed.

(** The abstract store with one job. *)
Lemma ack_one j :
  Job.State j = StateClaimed → Spec.ack (Job.ID j) (on_jobs {[Job.ID j := j]}) = (None, on_jobs ∅).
Proof.
  intros Hc. unfold Spec.ack. simpl. rewrite lookup_singleton_eq, Hc. simpl.
  unfold Spec.done_with, Spec.set_jobs. simpl. by rewrite delete_singleton_eq.
Qed.

Lemma fail_one j msg t :
  Job.State j = StateClaimed →
  Spec.fail (Job.ID j) msg t (on_jobs {[Job.ID j := j]}) =
    (None, on_jobs (if Spec.exhausted j then ∅ else {[Job.ID j := Spec.retry_job msg t j]})).
Proof.
  intros Hc. unfold Spec.fail. simpl. rewrite lookup_singleton_eq, Hc. simpl.
  unfold Spec.done_with, Spec.set_jobs. simpl. rewrite delete_singleton_eq, insert_singleton_eq.
  by destruct (Spec.exhausted j).
Qed.

Lemma reschedule_one j t :
  Job.State j = StatePending →
  Spec.reschedule (Job.ID j) t (on_jobs {[Job.ID j := j]}) =
    (None, on_jobs {[Job.ID j := Job.set_RunAt t j]}).
Proof.
  intros Hp. unfold Spec.reschedule. simpl. rewrite lookup_singleton_eq, Hp. simpl.
  unfold Spec.done_with, Spec.set_jobs. simpl. by rewrite insert_singleton_eq.
Qed.

(** A saved job, claimed as soon as it is due. *)
Lemma save_and_claim now n max :
  0 < n → makeable n →
  let j := Job.set_MaxAttempts max (mkJob "j" "default" now PriorityNormal) in
  ∃ s1 s2, Save j New = Some (None, s1) ∧
    ClaimDue "default" now n "w" (Time.Add now Minute) s1 =
      Some (([claimed now "w" (Time.Add now Minute) j], None), s2) ∧
    holds s2 {["j" := claimed now "w" (Time.Add now Minute) j]}.
Proof.
  intros Hn Hmk j. destruct (Save_holds New ∅ j holds_New) as (s1 & Hsave & Hs1).
  destruct (Claim_holds s1 _ "default" now n "w" (Time.Add now Minute) j Hs1 Hn Hmk) as (s2 & Hclaim & Hs2).
  { by apply pending_one. }
  exists s1, s2. split; [done|]. change (due now j) with (due now (mkJob "j" "default" now PriorityNormal)) in *.
  rewrite due_at in Hclaim, Hs2. split; [done|]. simpl in Hs2. by rewrite insert_insert_eq in Hs2.
Qed.

Section memstore.
Variable time : nat → Z.
Local Abbreviation now := (time 0%nat).
Local Abbreviation passes := (passes New time).

Lemma passes_SaveAndClaim : passes testSaveAndClaim.
Proof.
  unfold passes, Conformance.passes, testSaveAndClaim, gbind. simpl.
  destruct (Save_holds New ∅ (mkJob "a" "default" now PriorityNormal) holds_New) as (s1 & -> & Hs1).
  destruct (Claim_holds s1 _ "default" now 10 "w" (Time.Add now Minute)
    (mkJob "a" "default" now PriorityNormal) Hs1) as (s2 & Hc & _); [done..|by apply pending_one|].
  simpl. rewrite Hc, due_at. by exists s2.
Qed.

Lemma passes_ClaimRespectsRunAt : passes testClaimRespectsRunAt.
Proof.
  unfold passes, Conformance.passes, testClaimRespectsRunAt, gbind. simpl.
  set (j := mkJob "future" "default" (Time.Add now Hour) PriorityNormal).
  destruct (Save_holds New ∅ j holds_New) as (s1 & -> & Hs1).
  destruct (Claim_holds s1 _ "default" now 10 "w" (Time.Add now Minute) j Hs1) as (s2 & Hc & _);
    [done..|by apply pending_one|].
  simpl. rewrite Hc. unfold j. rewrite due_later by done. by exists s2.
Qed.

Lemma passes_ClaimOrdersByPriority : passes testClaimOrdersByPriority.
Proof.
  unfold passes, Conformance.passes, testClaimOrdersByPriority, gbind. simpl.
  set (lo := mkJob "low" "default" _ PriorityLow). set (cr := mkJob "crit" "default" _ PriorityCritical).
  destruct (Save_holds New ∅ lo holds_New) as (s1 & -> & Hs1).
  destruct (Save_holds s1 _ cr Hs1) as (s2 & -> & [Hwf Hj]).
  destruct (ClaimDue_run s2 "default" now 10 "w" (Time.Add now Minute) Hwf ltac:(done))
    as (srt & s3 & Hperm & Hsort & Hrun & _).
  assert (Hp : Spec.pending_of "default" (jobs_of s2) ≡ₚ [cr; lo]) by (rewrite Hj; by apply pending_two).
  rewrite Hp in Hperm. symmetry in Hperm. apply Permutation_length_2_inv in Hperm.
  assert (srt = [cr; lo]) as ->.
  { destruct Hperm as [->| ->]; [done|]. exfalso. apply StronglySorted_inv in Hsort as [_ Hle].
    apply Forall_cons in Hle as [Hle _]. by vm_compute in Hle. }
  simpl. rewrite Hrun. unfold due_prefix. simpl.
  assert (Hd : due now cr = true).
  { unfold due, Time.After, cr, Time.Add, Second. simpl. apply negb_true_iff, Z.ltb_ge. lia. }
  rewrite Hd. simpl. by exists s3.
Qed.

Lemma passes_Ack : passes testAck.
Proof.
  unfold passes, Conformance.passes, testAck, gbind. simpl.
  destruct (save_and_claim now 1 3) as (s1 & s2 & Hs & Hc & Hs2); [done..|]. simpl in *.
  change (mkJob "j" "default" now PriorityNormal)
    with (Job.set_MaxAttempts 3 (mkJob "j" "default" now PriorityNormal)).
  rewrite Hs, Hc. destruct (Ack_holds s2 _ "j" Hs2) as (s3 & -> & Hs3).
  pose proof (ack_one (claimed now "w" (Time.Add now Minute)
    (Job.set_MaxAttempts 3 (mkJob "j" "default" now PriorityNormal))) eq_refl) as Hack.
  simpl in Hack. rewrite Hack in Hs3 |- *. simpl.
  destruct (Claim_none s3 _ "default" (Time.Add now Hour) 10 "w"
    (Time.Add (Time.Add now Hour) Minute) Hs3) as (s4 & -> & _); [done..|].
  by exists s4.
Qed.

Lemma passes_FailRetries : passes testFailRetries.
Proof.
  unfold passes, Conformance.passes, testFailRetries, gbind. simpl.
  destruct (save_and_claim now 1 3) as (s1 & s2 & Hs & Hc & Hs2); [done..|]. simpl in *.
  change (mkJob "j" "default" now PriorityNormal)
    with (Job.set_MaxAttempts 3 (mkJob "j" "default" now PriorityNormal)).
  rewrite Hs, Hc. set (next := Time.Add now (2 * Second)).
  destruct (Fail_holds s2 _ "j" "boom" next Hs2) as (s3 & -> & Hs3).
  pose proof (fail_one (claimed now "w" (Time.Add now Minute)
    (Job.set_MaxAttempts 3 (mkJob "j" "default" now PriorityNormal))) "boom" next eq_refl) as Hfail.
  simpl in Hfail. rewrite Hfail in Hs3. simpl in Hs3.
  set (j1 := Spec.retry_job "boom" next (claimed now "w" (Time.Add now Minute)
    (Job.set_MaxAttempts 3 (mkJob "j" "default" now PriorityNormal)))).
  assert (Hs3' : holds s3 {["j" := j1]}) by exact Hs3. clear Hs3.
  destruct (Claim_holds s3 _ "default" (Time.Add next Millisecond) 1 "w" (Time.Add next Minute) j1 Hs3')
    as (s4 & -> & _); [done..|by rewrite <- insert_empty; apply pending_one|].
  assert (Hd : due (Time.Add next Millisecond) j1 = true).
  { unfold due, Time.After, Time.Add, Millisecond. simpl. apply negb_true_iff, Z.ltb_ge. lia. }
  rewrite Hd. by exists s4.
Qed.

Lemma passes_FailExhausts : passes testFailExhausts.
Proof.
  unfold passes, Conformance.passes, testFailExhausts, gbind. simpl.
  destruct (save_and_claim now 1 1) as (s1 & s2 & Hs & Hc & Hs2); [done..|]. simpl in *.
  rewrite Hs, Hc. destruct (Fail_holds s2 _ "j" "boom" (Time.Add now Second) Hs2) as (s3 & -> & Hs3).
  pose proof (fail_one (claimed now "w" (Time.Add now Minute)
    (Job.set_MaxAttempts 1 (mkJob "j" "default" now PriorityNormal))) "boom" (Time.Add now Second) eq_refl) as Hfail.
  simpl in Hfail. rewrite Hfail in Hs3. simpl in Hs3.
  destruct (Claim_none s3 _ "default" (Time.Add now Hour) 1 "w"
    (Time.Add (Time.Add now Hour) Minute) Hs3) as (s4 & -> & _); [done..|].
  by exists s4.
Qed.

Lemma passes_CancelPending : passes testCancelPending.
Proof.
  unfold passes, Conformance.passes, testCancelPending, gbind. simpl.
  destruct (Save_holds New ∅ (mkJob "j" "default" now PriorityNormal) holds_New) as (s1 & -> & Hs1).
  destruct (Cancel_holds s1 _ "j" Hs1) as (s2 & -> & _). by exists s2.
Qed.

Lemma passes_CancelClaimedRejected : passes testCancelClaimedRejected.
Proof.
  unfold passes, Conformance.passes, testCancelClaimedRejected, gbind. simpl.
  destruct (save_and_claim now 1 3) as (s1 & s2 & Hs & Hc & Hs2); [done..|]. simpl in *.
  change (mkJob "j" "default" now PriorityNormal)
    with (Job.set_MaxAttempts 3 (mkJob "j" "default" now PriorityNormal)).
  rewrite Hs, Hc. destruct (Cancel_holds s2 _ "j" Hs2) as (s3 & -> & _). by exists s3.
Qed.

Lemma passes_Reschedule : passes testReschedule.
Proof.
  unfold passes, Conformance.passes, testReschedule, gbind. simpl.
  set (j := mkJob "j" "default" (Time.Add now Hour) PriorityNormal).
  destruct (Save_holds New ∅ j holds_New) as (s1 & -> & Hs1).
  destruct (Reschedule_holds s1 _ "j" now Hs1) as (s2 & -> & Hs2).
  rewrite insert_empty in Hs2 |- *. pose proof (reschedule_one j now eq_refl) as Hre.
  simpl in Hre, Hs2 |- *. rewrite Hre in Hs2 |- *. simpl in Hs2 |- *.
  assert (Hs2' : holds s2 {["j" := mkJob "j" "default" now PriorityNormal]}) by exact Hs2. clear Hs2.
  destruct (Claim_holds s2 _ "default" now 10 "w" (Time.Add now Minute)
    (mkJob "j" "default" now PriorityNormal) Hs2') as (s3 & -> & _); [done..|by rewrite <- insert_empty; apply pending_one|].
  rewrite due_at. by exists s3.
Qed.

Lemma passes_QueueSize : passes testQueueSize.
Proof.
  unfold passes, Conformance.passes, testQueueSize, gbind. simpl.
  destruct (Save_holds New ∅ (mkJob "a" "default" now PriorityNormal) holds_New) as (s1 & -> & Hs1).
  destruct (Save_holds s1 _ (mkJob "b" "default" now PriorityNormal) Hs1) as (s2 & -> & [Hwf Hj]).
  rewrite (QueueSize_run s2 "default" Hwf), Hj. by exists s2.
Qed.
End memstore.

(** ** Property *)

(** C32: the in-memory store passes every scenario of the conformance suite
    (saving, claiming when due and by priority, acknowledging, retrying,
    exhausting, cancelling, rescheduling, recurring schedules, queue size,
    errors for unknown jobs), whatever the clock reads. *)
Theorem memstore_conforms (time : nat → Z) :
  Forall (λ t : string * scenario, passes New time t.2) Run.
Proof.
  repeat (apply Forall_cons; split); [..|apply Forall_nil; done].
  - apply passes_SaveAndClaim.
  - apply passes_ClaimRespectsRunAt.
  - apply passes_ClaimOrdersByPriority.
  - apply passes_Ack.
  - apply passes_FailRetries.
  - apply passes_FailExhausts.
  - apply passes_CancelPending.
  - apply passes_CancelClaimedRejected.
  - apply passes_Reschedule.
  - eexists. reflexivity.
  - eexists. reflexivity.
  - apply passes_QueueSize.
  - eexists. reflexivity.
Qed.
