(* ===== verification/Sql.v ===== *)
(** Tables with a text primary key, as the SQL backends use them: a table is a
    map from key to row, and the statements they run are an upsert, an update
    and a delete of the rows a [WHERE] clause selects, a count, and a selection
    with [ORDER BY] and [LIMIT]. The order in which the engine visits rows is
    the parameter [scan]. *)

From S2P Require Import Prelude ListLib.

(** *** The rows of a table *)

Lemma values_fmap {A B} (f : A → B) (m : gmap string A) :
  (map_to_list (f <$> m)).*2 ≡ₚ f <$> (map_to_list m).*2.
Proof.
  rewrite map_to_list_fmap. rewrite <- !list_fmap_compose. by apply reflexive_eq, list_fmap_ext.
Qed.

Lemma elem_of_values {A} (m : gmap string A) x :
  x ∈ (map_to_list m).*2 ↔ ∃ k, m !! k = Some x.
Proof.
  rewrite list_elem_of_fmap. split.
  - intros ([k x'] & -> & H). exists k. by apply elem_of_map_to_list.
  - intros [k H]. exists (k, x). split; [done|]. by apply elem_of_map_to_list.
Qed.

Section table.
Context {Row : Type}.
Implicit Types (m : gmap string Row) (P : Row → bool).

(** [UPDATE ... SET f WHERE P]. *)
Definition update_where P (f : Row → Row) m : gmap string Row :=
  (λ r, if P r then f r else r) <$> m.

(** [DELETE ... WHERE P]. *)
Definition delete_where P m : gmap string Row := filter (λ kr, P kr.2 = false) m.

(** [COUNT( * ) ... WHERE P], and the rows an update or a delete affects. *)
Definition count_where P m : nat := length (filter (λ r, P r = true) (map_to_list m).*2).

(** [SELECT ... WHERE P ORDER BY lt LIMIT n]; a negative limit is none. *)
Definition select_where (scan : gmap string Row → list Row) P (lt : Row → Row → bool) (n : Z) m
    : list Row :=
  let rows := stable_sort lt (filter (λ r, P r = true) (scan m)) in
  if (n <? 0)%Z then rows else take (Z.to_nat n) rows.

(** [INSERT ... ON CONFLICT(key) DO UPDATE]: [merge] says what the update takes
    of the row that is there and of the one inserted. *)
Definition upsert (key : string) (merge : Row → Row → Row) (new : Row) m : gmap string Row :=
  <[key := match m !! key with Some old => merge old new | None => new end]> m.

(** An engine visits each row once. *)
Definition scans (scan : gmap string Row → list Row) : Prop := ∀ m, scan m ≡ₚ (map_to_list m).*2.

(** *** Statements on one key *)

Variable key : Row → string.

Definition keyed m : Prop := ∀ k r, m !! k = Some r → key r = k.

(** [WHERE id = ? AND P]. *)
Definition by_key (k : string) P (r : Row) : bool := bool_decide (key r = k) && P r.

Lemma delete_where_none P m : (∀ k r, m !! k = Some r → P r = false) → delete_where P m = m.
Proof. intros H. apply map_filter_id. intros k r Hr. by apply (H k). Qed.

Lemma update_where_none P f m : (∀ k r, m !! k = Some r → P r = false) → update_where P f m = m.
Proof.
  intros H. apply map_eq. intros k. unfold update_where. rewrite lookup_fmap.
  destruct (m !! k) as [r|] eqn:Hr; [|done]. simpl. by rewrite (H k r Hr).
Qed.

Lemma count_where_none P m : (∀ k r, m !! k = Some r → P r = false) → count_where P m = 0.
Proof.
  intros H. unfold count_where.
  assert (Hall : Forall (λ r, P r ≠ true) (map_to_list m).*2).
  { apply Forall_forall. intros r Hr. apply list_elem_of_fmap in Hr as ([k r'] & -> & Hr).
    apply elem_of_map_to_list in Hr. simpl. by rewrite (H k r' Hr). }
  induction Hall as [|r l Hr _ IH]; [done|]. by rewrite filter_cons_False.
Qed.

Lemma delete_where_key k P m r :
  keyed m → m !! k = Some r → P r = true → delete_where (by_key k P) m = delete k m.
Proof.
  intros Hkey Hr HP. apply map_eq. intros k'. unfold delete_where.
  destruct (decide (k' = k)) as [->|Hne].
  - rewrite lookup_delete_eq. apply map_lookup_filter_None. right. intros r' Hr'.
    assert (r' = r) as -> by congruence. simpl. unfold by_key.
    rewrite bool_decide_eq_true_2 by (by apply Hkey). by rewrite HP.
  - rewrite lookup_delete_ne by done. apply option_eq. intros r'. rewrite map_lookup_filter_Some.
    split; [by intros [? _]|]. intros Hr'. split; [done|]. simpl. unfold by_key.
    rewrite (Hkey k' r' Hr'). by rewrite bool_decide_eq_false_2.
Qed.

Lemma update_where_key k P f m r :
  keyed m → m !! k = Some r → P r = true → update_where (by_key k P) f m = <[k := f r]> m.
Proof.
  intros Hkey Hr HP. apply map_eq. intros k'. unfold update_where. rewrite lookup_fmap.
  destruct (decide (k' = k)) as [->|Hne].
  - rewrite lookup_insert_eq, Hr. simpl. unfold by_key.
    rewrite bool_decide_eq_true_2 by (by apply Hkey). by rewrite HP.
  - rewrite lookup_insert_ne by done. destruct (m !! k') as [r'|] eqn:Hr'; [|done]. simpl.
    unfold by_key. rewrite (Hkey k' r' Hr'). by rewrite bool_decide_eq_false_2.
Qed.

Lemma count_where_key k P m r :
  keyed m → m !! k = Some r → P r = true → count_where (by_key k P) m = 1.
Proof.
  intros Hkey Hr HP. unfold count_where.
  rewrite <- (insert_delete_id m k r Hr), map_to_list_insert by apply lookup_delete_eq.
  simpl. rewrite filter_cons_True by (unfold by_key; rewrite bool_decide_eq_true_2 by (by apply Hkey); by rewrite HP).
  simpl. f_equal. apply (count_where_none (by_key k P) (delete k m)).
  intros k' r'. rewrite lookup_delete_Some. intros [Hne Hr']. unfold by_key.
  rewrite (Hkey k' r' Hr'). by rewrite bool_decide_eq_false_2.
Qed.

(** The row a statement on one key works on. *)
Definition row_at (k : string) P m : option Row :=
  match m !! k with Some r => if P r then Some r else None | None => None end.

Lemma row_at_none k P m :
  keyed m → row_at k P m = None → ∀ k' r, m !! k' = Some r → by_key k P r = false.
Proof.
  unfold row_at, by_key. intros Hkey Hn k' r Hr. case_bool_decide as Hk; [|done].
  assert (k' = k) as -> by (by rewrite <- (Hkey k' r Hr)). rewrite Hr in Hn. destruct (P r); [done|reflexivity].
Qed.

Lemma row_at_some k P m r : row_at k P m = Some r ↔ m !! k = Some r ∧ P r = true.
Proof.
  unfold row_at. destruct (m !! k) as [r'|]; [|split; [done|by intros [? _]]].
  destruct (P r') eqn:HP; split; intros H.
  - by injection H as ->.
  - by destruct H as [[= ->] _].
  - done.
  - destruct H as [[= ->] ?]. congruence.
Qed.

Lemma delete_by_key k P m :
  keyed m → delete_where (by_key k P) m =
    match row_at k P m with Some _ => delete k m | None => m end.
Proof.
  intros Hkey. destruct (row_at k P m) as [r|] eqn:Hr.
  - apply row_at_some in Hr as [Hr HP]. by eapply delete_where_key.
  - by apply delete_where_none, row_at_none.
Qed.

Lemma update_by_key k P f m :
  keyed m →
  update_where (by_key k P) f m =
    match row_at k P m with Some r => <[k := f r]> m | None => m end.
Proof.
  intros Hkey. destruct (row_at k P m) as [r|] eqn:Hr.
  - apply row_at_some in Hr as [Hr HP]. by eapply update_where_key.
  - by apply update_where_none, row_at_none.
Qed.

Lemma count_by_key k P m :
  keyed m → count_where (by_key k P) m =
    match row_at k P m with Some _ => 1 | None => 0 end.
Proof.
  intros Hkey. destruct (row_at k P m) as [r|] eqn:Hr.
  - apply row_at_some in Hr as [Hr HP]. by eapply count_where_key.
  - by apply count_where_none, row_at_none.
Qed.

(** [QueryRow] on a key. *)
Lemma query_by_key (scan : gmap string Row → list Row) k P m :
  keyed m → scans scan → head (filter (λ r, by_key k P r = true) (scan m)) = row_at k P m.
Proof.
  intros Hkey Hscan. pose proof (count_by_key k P m Hkey) as Hc. unfold count_where in Hc.
  rewrite <- (Hscan m) in Hc. set (l := filter _ (scan m)) in *.
  destruct l as [|r l'] eqn:Hl; [by destruct (row_at k P m)|]. simpl.
  assert (Hr : r ∈ l) by (rewrite Hl; left). unfold l in Hr.
  apply list_elem_of_filter in Hr as [HP Hr]. rewrite (Hscan m) in Hr.
  apply list_elem_of_fmap in Hr as ([k' r'] & Heq & Hr). simpl in Heq. subst r'.
  apply elem_of_map_to_list in Hr. symmetry. apply row_at_some. unfold by_key in HP.
  apply andb_true_iff in HP as [Hk HP]. apply bool_decide_eq_true_1 in Hk.
  by rewrite <- Hk, (Hkey k' r Hr).
Qed.

Lemma keyed_insert k r m : keyed m → key r = k → keyed (<[k := r]> m).
Proof.
  intros Hkey Hr k' r' H. apply lookup_insert_Some in H as [[<- <-]|[_ H]]; [done|by apply Hkey].
Qed.

Lemma keyed_delete k m : keyed m → keyed (delete k m).
Proof. intros Hkey k' r' H. apply lookup_delete_Some in H as [_ H]. by apply Hkey. Qed.

Lemma update_where_lookup P f m k :
  update_where P f m !! k = (λ r, if P r then f r else r) <$> m !! k.
Proof. apply lookup_fmap. Qed.

Lemma keyed_update P f m : keyed m → (∀ r, key (f r) = key r) → keyed (update_where P f m).
Proof.
  intros Hkey Hf k r. rewrite update_where_lookup. destruct (m !! k) as [r'|] eqn:Hr; [|done].
  intros [= <-]. destruct (P r'); rewrite ?Hf; by apply Hkey.
Qed.
End table.

