(* ===== verification/SqlEngine.v ===== *)
(** What the SQL backends share: the rows of their tables
    ([src/store/sqlite/migrations.go], [src/store/postgres/migrations.go]) and
    a database as [database/sql] and [pgx] present one. A statement or
    a commit may fail with an error of the server, which then changes nothing;
    statements between [Begin] and [Commit] are undone by [Rollback]. *)

From S2P Require Import Prelude ListLib Types Sql.

(** ** Rows *)

Module JobRow.
(** A row of the table [jobs]: the columns of the schema, in its order. *)
Record t : Set := mk {
  id : string;
  queue : string;
  name : string;
  payload : list Byte.byte;
  codec_name : string;
  priority : Z;
  run_at : Z;
  attempt : Z;
  max_attempts : Z;
  state : Z;
  timeout_ns : Z;
  locked_by : string;
  locked_until : Z;
  last_error : string;
  recurring_id : string;
  created_at : Z;
  updated_at : Z
}.

(** [SET column = v]. *)
Definition set_run_at (v : Z) (x : t) : t :=
  {| id := id x; queue := queue x; name := name x; payload := payload x;
     codec_name := codec_name x; priority := priority x; run_at := v; attempt := attempt x;
     max_attempts := max_attempts x; state := state x; timeout_ns := timeout_ns x;
     locked_by := locked_by x; locked_until := locked_until x; last_error := last_error x;
     recurring_id := recurring_id x; created_at := created_at x; updated_at := updated_at x |}.
Definition set_attempt (v : Z) (x : t) : t :=
  {| id := id x; queue := queue x; name := name x; payload := payload x;
     codec_name := codec_name x; priority := priority x; run_at := run_at x; attempt := v;
     max_attempts := max_attempts x; state := state x; timeout_ns := timeout_ns x;
     locked_by := locked_by x; locked_until := locked_until x; last_error := last_error x;
     recurring_id := recurring_id x; created_at := created_at x; updated_at := updated_at x |}.
Definition set_state (v : Z) (x : t) : t :=
  {| id := id x; queue := queue x; name := name x; payload := payload x;
     codec_name := codec_name x; priority := priority x; run_at := run_at x;
     attempt := attempt x; max_attempts := max_attempts x; state := v;
     timeout_ns := timeout_ns x; locked_by := locked_by x; locked_until := locked_until x;
     last_error := last_error x; recurring_id := recurring_id x; created_at := created_at x;
     updated_at := updated_at x |}.
Definition set_locked_by (v : string) (x : t) : t :=
  {| id := id x; queue := queue x; name := name x; payload := payload x;
     codec_name := codec_name x; priority := priority x; run_at := run_at x;
     attempt := attempt x; max_attempts := max_attempts x; state := state x;
     timeout_ns := timeout_ns x; locked_by := v; locked_until := locked_until x;
     last_error := last_error x; recurring_id := recurring_id x; created_at := created_at x;
     updated_at := updated_at x |}.
Definition set_locked_until (v : Z) (x : t) : t :=
  {| id := id x; queue := queue x; name := name x; payload := payload x;
     codec_name := codec_name x; priority := priority x; run_at := run_at x;
     attempt := attempt x; max_attempts := max_attempts x; state := state x;
     timeout_ns := timeout_ns x; locked_by := locked_by x; locked_until := v;
     last_error := last_error x; recurring_id := recurring_id x; created_at := created_at x;
     updated_at := updated_at x |}.
Definition set_last_error (v : string) (x : t) : t :=
  {| id := id x; queue := queue x; name := name x; payload := payload x;
     codec_name := codec_name x; priority := priority x; run_at := run_at x;
     attempt := attempt x; max_attempts := max_attempts x; state := state x;
     timeout_ns := timeout_ns x; locked_by := locked_by x; locked_until := locked_until x;
     last_error := v; recurring_id := recurring_id x; created_at := created_at x;
     updated_at := updated_at x |}.
Definition set_created_at (v : Z) (x : t) : t :=
  {| id := id x; queue := queue x; name := name x; payload := payload x;
     codec_name := codec_name x; priority := priority x; run_at := run_at x;
     attempt := attempt x; max_attempts := max_attempts x; state := state x;
     timeout_ns := timeout_ns x; locked_by := locked_by x; locked_until := locked_until x;
     last_error := last_error x; recurring_id := recurring_id x; created_at := v;
     updated_at := updated_at x |}.
Definition set_updated_at (v : Z) (x : t) : t :=
  {| id := id x; queue := queue x; name := name x; payload := payload x;
     codec_name := codec_name x; priority := priority x; run_at := run_at x;
     attempt := attempt x; max_attempts := max_attempts x; state := state x;
     timeout_ns := timeout_ns x; locked_by := locked_by x; locked_until := locked_until x;
     last_error := last_error x; recurring_id := recurring_id x; created_at := created_at x;
     updated_at := v |}.
End JobRow.

Module RecRow.
(** A row of the table [recurring]. The column [catchup] is an integer in
    SQLite and a boolean in Postgres. *)
Record t {flag : Set} : Set := mk {
  id : string;
  name : string;
  queue : string;
  payload : list Byte.byte;
  codec_name : string;
  priority : Z;
  timeout_ns : Z;
  max_attempts : Z;
  cron : string;
  every_ns : Z;
  catchup : flag;
  next_run_at : Z;
  last_fire_at : Z;
  lease_until : Z;
  leased_by : string
}.
Arguments t : clear implicits.

(** [SET column = v]. *)
Definition set_next_run_at {flag : Set} (v : Z) (x : t flag) : t flag :=
  {| id := id x; name := name x; queue := queue x; payload := payload x;
     codec_name := codec_name x; priority := priority x; timeout_ns := timeout_ns x;
     max_attempts := max_attempts x; cron := cron x; every_ns := every_ns x;
     catchup := catchup x; next_run_at := v; last_fire_at := last_fire_at x;
     lease_until := lease_until x; leased_by := leased_by x |}.
Definition set_last_fire_at {flag : Set} (v : Z) (x : t flag) : t flag :=
  {| id := id x; name := name x; queue := queue x; payload := payload x;
     codec_name := codec_name x; priority := priority x; timeout_ns := timeout_ns x;
     max_attempts := max_attempts x; cron := cron x; every_ns := every_ns x;
     catchup := catchup x; next_run_at := next_run_at x; last_fire_at := v;
     lease_until := lease_until x; leased_by := leased_by x |}.
Definition set_lease_until {flag : Set} (v : Z) (x : t flag) : t flag :=
  {| id := id x; name := name x; queue := queue x; payload := payload x;
     codec_name := codec_name x; priority := priority x; timeout_ns := timeout_ns x;
     max_attempts := max_attempts x; cron := cron x; every_ns := every_ns x;
     catchup := catchup x; next_run_at := next_run_at x; last_fire_at := last_fire_at x;
     lease_until := v; leased_by := leased_by x |}.
Definition set_leased_by {flag : Set} (v : string) (x : t flag) : t flag :=
  {| id := id x; name := name x; queue := queue x; payload := payload x;
     codec_name := codec_name x; priority := priority x; timeout_ns := timeout_ns x;
     max_attempts := max_attempts x; cron := cron x; every_ns := every_ns x;
     catchup := catchup x; next_run_at := next_run_at x; last_fire_at := last_fire_at x;
     lease_until := lease_until x; leased_by := v |}.
End RecRow.

(** ** The database

    [faults] says which calls fail, by their number, and with what message;
    [clock] is the process's clock ([time.Now]) and [server_now] the server's,
    at each call. [scan] is the order in which the engine visits the rows of a
    table. [tx] holds the tables as they were when the transaction that is open
    began. One method runs at a time. *)
Record Engine (T : Type) : Type := mkEngine {
  tables : T;
  tx : option T;
  faults : nat → option string;
  calls : nat;
  clock : nat → Z;
  reads : nat;
  server_now : nat → Z;
  scan : ∀ Row : Set, gmap string Row → list Row
}.
Arguments mkEngine {T}.
Arguments tables {T}.
Arguments tx {T}.
Arguments faults {T}.
Arguments calls {T}.
Arguments clock {T}.
Arguments reads {T}.
Arguments server_now {T}.
Arguments scan {T} e {Row}.

Section engine.
Context {T : Type}.
Implicit Types (s : Engine T) (t : T).

Definition set_tables t (o : option T) s : Engine T :=
  mkEngine t o (faults s) (calls s) (clock s) (reads s) (server_now s) (@scan _ s).

Definition with_faults (F : nat → option string) s : Engine T :=
  mkEngine (tables s) (tx s) F (calls s) (clock s) (reads s) (server_now s) (@scan _ s).

(** The database as a method finds it whose context has ended with the error
    [msg] ([database/sql] and [pgx] look at [ctx.Err()] before they send anything):
    each of its calls fails. And after the method, with the database's own faults. *)
Definition ended_db (msg : string) s : Engine T := with_faults (λ _, Some msg) s.
Definition left_db s s' : Engine T := with_faults (faults s) s'.

(** One more call to the server. *)
Definition called s : Engine T :=
  mkEngine (tables s) (tx s) (faults s) (S (calls s)) (clock s) (reads s) (server_now s) (@scan _ s).

Definition time_Now : GoM (Engine T) Z := λ s,
  Some (clock s (reads s),
        mkEngine (tables s) (tx s) (faults s) (calls s) (clock s) (S (reads s)) (server_now s)
                 (@scan _ s)).

(** A statement: it fails and does nothing, or acts on the tables. [inl] is
    the error. *)
Definition stmt {A} (f : Engine T → A * T) : GoM (Engine T) (string + A) := λ s,
  match faults s (calls s) with
  | Some msg => Some (inl msg, called s)
  | None => Some (inr (f s).1, set_tables (f s).2 (tx s) (called s))
  end.

(** A statement the server may refuse for the values it meets. *)
Definition stmt_may {A} (f : Engine T → string + A * T) : GoM (Engine T) (string + A) := λ s,
  match faults s (calls s) with
  | Some msg => Some (inl msg, called s)
  | None => match f s with
            | inl msg => Some (inl msg, called s)
            | inr (a, t) => Some (inr a, set_tables t (tx s) (called s))
            end
  end.

(** A statement that only reads. *)
Definition query {A} (f : Engine T → A) : GoM (Engine T) (string + A) :=
  stmt (λ s, (f s, tables s)).

Definition Begin : GoM (Engine T) (string + unit) := λ s,
  match faults s (calls s) with
  | Some msg => Some (inl msg, called s)
  | None => Some (inr tt, set_tables (tables s) (Some (tables s)) (called s))
  end.

(** A commit ends the transaction. One that fails has had no effect: the database
    keeps the tables as they were when the transaction began. *)
Definition Commit : GoM (Engine T) (string + unit) := λ s,
  match faults s (calls s) with
  | Some msg => Some (inl msg, match tx s with
                               | Some t => set_tables t None (called s)
                               | None => called s
                               end)
  | None => Some (inr tt, set_tables (tables s) None (called s))
  end.

(** Undoes the open transaction. After a commit, failed or not, there is none
    ([sql.ErrTxDone]). *)
Definition Rollback : GoM (Engine T) unit := λ s,
  match tx s with
  | Some t => Some (tt, set_tables t None s)
  | None => Some (tt, s)
  end.

(** [defer tx.Rollback()] around the rest of a function. *)
Definition deferring_rollback {A} (body : GoM (Engine T) A) : GoM (Engine T) A :=
  gbind body (λ a, gbind Rollback (λ _, gret a)).

(** No transaction is open, and the engine visits each row once. *)
Definition idle s : Prop := tx s = None ∧ ∀ Row : Set, scans (@scan _ s Row).

End engine.
