(* ===== verification/SqlBackend.v ===== *)
(** The frame of the proofs about an SQL backend: given what its tables must
    satisfy and what they stand for ([SqlTables]), the invariant of the store,
    the two outcomes every method has ([yields]), and the tactics that run a
    method through both outcomes of each of its calls. *)

From S2P Require Import Prelude ListLib Types StoreApi Sql SqlEngine.
Local Open Scope Z_scope.

(** [tables_ok] is the backend's invariant, [tables_abs] the contents the
    tables stand for, [values_ok] that its numbers are in the ranges in which no
    statement refuses them. *)
Class SqlTables (T : Type) : Type := {
  tables_ok : T → Prop;
  tables_abs : T → Spec.t;
  values_ok : T → Prop
}.

Section backend.
Context {T : Type} `{!SqlTables T}.
Implicit Types (s : Engine T) (t : T).

Definition sql_wf s : Prop := idle s ∧ tables_ok (tables s).
Definition sql_abs s : Spec.t := tables_abs (tables s).

(** No call fails, and no value is refused. *)
Definition healthy s : Prop := (∀ n, faults s n = None) ∧ values_ok (tables s).

(** [m] ends in a state of the invariant, and reports an error of the
    database, which changes nothing and does not happen on a healthy
    database, or its answer and the new contents satisfy [good]. *)
Definition yields {A} (m : GoM (Engine T) A) s (bad : A → Prop) (good : A → Spec.t → Prop) : Prop :=
  ∃ a s', m s = Some (a, s') ∧ sql_wf s' ∧
    ((bad a ∧ sql_abs s' = sql_abs s ∧ ¬ healthy s) ∨ good a (sql_abs s')).

Definition infra (e : option error) : Prop := ∃ msg, e = Some (ErrOther msg).

Lemma fault_unhealthy s n msg : faults s n = Some msg → ¬ healthy s.
Proof. intros Hf [Hc _]. by rewrite Hc in Hf. Qed.

Lemma value_unhealthy s : ¬ values_ok (tables s) → ¬ healthy s.
Proof. by intros Hv [_ ?]. Qed.

Lemma wf_tables t t' F F' c c' clk clk' rd rd' sn sn' (sc : ∀ Row : Set, gmap string Row → list Row) :
  sql_wf (mkEngine t None F c clk rd sn sc) → tables_ok t' →
  sql_wf (mkEngine t' None F' c' clk' rd' sn' sc).
Proof. intros [[_ Hscan] _] Ht. by split. Qed.

Lemma sql_with_faults F s :
  sql_wf s → sql_wf (with_faults F s) ∧ sql_abs (with_faults F s) = sql_abs s.
Proof. by intros [[? ?] ?]. Qed.

Lemma yields_law {A} (m : GoM (Engine T) A) s bad good :
  yields m s bad good →
  ∃ a s', m s = Some (a, s') ∧ sql_wf s' ∧ ((bad a ∧ sql_abs s' = sql_abs s) ∨ good a (sql_abs s')).
Proof. intros (a & s' & Hr & Hwf & [(? & ? & _)|?]); exists a, s'; eauto. Qed.

Lemma yields_error (m : GoM (Engine T) (option error)) s good :
  yields m s infra good →
  ∃ e s', m s = Some (e, s') ∧ sql_wf s' ∧
    ((∃ msg, e = Some (ErrOther msg) ∧ sql_abs s' = sql_abs s) ∨ good e (sql_abs s')).
Proof.
  intros (e & s' & Hr & Hwf & [([msg He] & Ha)|Hg])%yields_law; exists e, s';
    (split; [done|]); (split; [done|]); [left; by exists msg|by right].
Qed.
End backend.

(** A database with no open transaction. *)
Abbreviation db t F c clk rd sn sc := (mkEngine t None F c clk rd sn sc).

(** *** Running a method *)

(** Name the parts of an idle database. *)
Ltac sql_start Hwf :=
  let Hok := fresh "Hok" in let Hscan := fresh "Hscan" in
  match type of Hwf with
  | sql_wf ?s => destruct s as [t [?|] F c clk rd sn sc]; [by destruct Hwf as [[? _] _]|];
                 pose proof (proj2 Hwf) as Hok; pose proof (proj2 (proj1 Hwf)) as Hscan;
                 cbn in Hok, Hscan
  end.

(** A branch that ends with an error and the tables as they were. *)
Ltac sql_error Hwf :=
  do 2 eexists; split; [reflexivity|];
  split; [exact (wf_tables _ _ _ _ _ _ _ _ _ _ _ _ _ Hwf (proj2 Hwf))|];
  left; split; [first [by eexists | by split; [|eexists]]|]; split; [reflexivity|].

Ltac sql_fault Hwf := sql_error Hwf; by eapply fault_unhealthy.

(** The next call: both its outcomes. *)
Ltac sql_step :=
  cbn;
  match goal with
  | |- context [match ?F ?n with Some _ => _ | None => _ end] =>
      match type of F with nat → option string => destruct (F n) eqn:? end
  end; cbn.

(** The calls up to the next test, with the branches in which one fails. *)
Ltac sql_run Hwf :=
  unfold yields, deferring_rollback, query, stmt_may, stmt, Begin, Commit, Rollback, time_Now, gbind,
    gret, called, set_tables;
  repeat (sql_step; [sql_fault Hwf|]).

(** A branch that ends with its answer: leaves the invariant of the tables and
    the answer. *)
Ltac sql_done Hwf :=
  do 2 eexists; split; [reflexivity|];
  split; [refine (wf_tables _ _ _ _ _ _ _ _ _ _ _ _ _ Hwf _); cbn|right].

(** ** Data for the witnesses *)

Definition demo_scan (Row : Set) (m : gmap string Row) : list Row := (map_to_list m).*2.

Definition no_faults : nat → option string := λ _, None.

Definition demo_row_job (id : string) (p t : Z) : Job.t :=
  {| Job.ID := id; Job.Name := "n"; Job.Queue := "default"; Job.Priority := p; Job.Payload := [];
     Job.CodecName := ""; Job.RunAt := t; Job.Attempt := 0; Job.MaxAttempts := 3; Job.State := 0;
     Job.Delivery := 0; Job.Timeout := 0; Job.LockedBy := ""; Job.LockedUntil := Time.zero;
     Job.LastError := ""; Job.RecurringID := ""; Job.CreatedAt := 7; Job.UpdatedAt := 7;
     Job.catchup := false |}.

Definition demo_spec (id : string) : RecurringSpec.t :=
  {| RecurringSpec.ID := id; RecurringSpec.Name := "tick"; RecurringSpec.Queue := "default";
     RecurringSpec.Priority := 1; RecurringSpec.Payload := []; RecurringSpec.CodecName := "";
     RecurringSpec.Delivery := 0; RecurringSpec.Timeout := 0; RecurringSpec.MaxAttempts := 3;
     RecurringSpec.Cron := ""; RecurringSpec.Every := Second; RecurringSpec.Catchup := false;
     RecurringSpec.LeaseUntil := Time.zero; RecurringSpec.LeasedBy := "";
     RecurringSpec.NextRunAt := 50; RecurringSpec.LastFireAt := Time.zero |}.
