(* ===== verification/SqlFacts.v ===== *)
(** From rows to jobs: what the statements of the SQL backends do to the jobs
    their rows stand for. [dec] reads a row as the job the contract speaks of;
    each backend supplies its own. *)

From S2P Require Import Prelude ListLib Types StoreApi Sql SqlEngine.
Local Open Scope Z_scope.

Section rows.
Variable dec : JobRow.t → Job.t.
Hypothesis dec_id : ∀ r, Job.ID (dec r) = JobRow.id r.
Implicit Types (m : gmap string JobRow.t) (r : JobRow.t).

Lemma keyed_dec m k j : keyed JobRow.id m → (dec <$> m) !! k = Some j → Job.ID j = k.
Proof. intros Hkey (r & <- & Hr)%lookup_fmap_Some. rewrite dec_id. by apply Hkey. Qed.

Lemma values_ids_nodup m : keyed JobRow.id m → NoDup (JobRow.id <$> (map_to_list m).*2).
Proof.
  intros Hkey. assert (Hid : JobRow.id <$> (map_to_list m).*2 = (map_to_list m).*1).
  { rewrite <- list_fmap_compose. apply list_fmap_ext. intros i [k r] Hi. simpl.
    apply Hkey, elem_of_map_to_list. by eapply list_elem_of_lookup_2. }
  rewrite Hid. apply NoDup_fst_map_to_list.
Qed.

(** *** The selection of [ClaimDue] *)

Section select.
Variables (scan : gmap string JobRow.t → list JobRow.t) (lt : JobRow.t → JobRow.t → bool).
Hypothesis Hscan : scans scan.
Context `{!StrictWeak lt}.

Lemma selected_elem P n m r :
  r ∈ select_where scan P lt n m → ∃ k, m !! k = Some r ∧ P r = true.
Proof.
  unfold select_where. intros Hr.
  assert (Hr' : r ∈ stable_sort lt (filter (λ r, P r = true) (scan m))).
  { destruct (n <? 0); [done|]. by apply elem_of_take in Hr as (i & ? & _); eapply list_elem_of_lookup_2. }
  rewrite (stable_sort_perm lt) in Hr'. apply list_elem_of_filter in Hr' as [HP Hr'].
  rewrite (Hscan m) in Hr'. apply elem_of_values in Hr' as [k Hk]. eauto.
Qed.

Lemma selected_ids_nodup P n m :
  keyed JobRow.id m → NoDup (JobRow.id <$> select_where scan P lt n m).
Proof.
  intros Hkey. unfold select_where. set (srt := stable_sort _ _).
  assert (Hs : NoDup (JobRow.id <$> srt)).
  { unfold srt. rewrite (stable_sort_perm lt), (Hscan m).
    eapply sublist_NoDup; [by apply values_ids_nodup|]. apply fmap_sublist, sublist_filter. }
  destruct (n <? 0); [done|]. eapply sublist_NoDup; [done|]. apply fmap_sublist, sublist_take.
Qed.

Lemma select_where_take P n m :
  0 ≤ n →
  ∃ srt, select_where scan P lt n m = take (Z.to_nat n) srt ∧ StronglySorted (le_of lt) srt ∧
         srt ≡ₚ filter (λ r, P r = true) (map_to_list m).*2.
Proof.
  intros Hn. exists (stable_sort lt (filter (λ r, P r = true) (scan m))). split; [|split].
  - unfold select_where. by destruct (Z.ltb_spec n 0); [lia|].
  - apply stable_sort_sorted, _.
  - by rewrite (stable_sort_perm lt), (Hscan m).
Qed.
End select.

(** The best [n] rows of those a test accepts are a correct claim. *)
Lemma sorted_claim_ok lt P m q now n srt :
  keyed JobRow.id m → 0 ≤ n →
  (∀ k r, m !! k = Some r → P r = Spec.eligible q now (dec r)) →
  (∀ k k' r r', m !! k = Some r → m !! k' = Some r' → lt r r' = jobLess (dec r) (dec r')) →
  StronglySorted (le_of lt) srt → srt ≡ₚ filter (λ r, P r = true) (map_to_list m).*2 →
  let js := dec <$> take (Z.to_nat n) srt in
  Spec.claim_ok q now n (dec <$> m) js ∧ Spec.claim_complete q now n (dec <$> m) js.
Proof.
  intros Hkey Hn HP Hlt Hs Hperm js.
  assert (Hin : ∀ r, r ∈ srt ↔ ∃ k, m !! k = Some r ∧ P r = true).
  { intros r. rewrite Hperm, list_elem_of_filter, elem_of_values.
    split; [intros [? [k ?]]; eauto|intros (k & ? & ?); eauto]. }
  assert (Hids : NoDup (JobRow.id <$> srt)).
  { rewrite Hperm. eapply sublist_NoDup; [by apply values_ids_nodup|]. apply fmap_sublist, sublist_filter. }
  assert (Hsrt : StronglySorted (le_of jobLess) (dec <$> srt)).
  { assert (Hall : Forall (λ r, ∃ k, m !! k = Some r) srt).
    { apply Forall_forall. intros r Hr. apply Hin in Hr as (k & ? & _). eauto. }
    clear -Hs Hall Hlt. induction Hs as [|r l Hs IH Hf]; simpl; [constructor|].
    apply Forall_cons in Hall as [[k Hk] Hall]. constructor; [by apply IH|].
    apply Forall_fmap. rewrite Forall_forall in Hf, Hall |- *. intros r' Hr'. unfold le_of. simpl.
    destruct (Hall r' Hr') as [k' Hk']. rewrite <- (Hlt k' k r' r) by done. by apply Hf. }
  unfold js. rewrite fmap_take. split; [split|].
  - unfold Spec.ids. rewrite <- fmap_take, <- list_fmap_compose.
    rewrite (list_fmap_ext _ JobRow.id) by (intros; apply dec_id).
    eapply sublist_NoDup; [exact Hids|]. apply fmap_sublist, sublist_take.
  - rewrite <- fmap_take. apply Forall_fmap, Forall_forall. intros r Hr. simpl.
    assert (Hr' : r ∈ srt) by (apply elem_of_take in Hr as (i & ? & _); by eapply list_elem_of_lookup_2).
    apply Hin in Hr' as (k & Hk & Hp). rewrite dec_id, (Hkey k r Hk), lookup_fmap, Hk.
    split; [done|]. by rewrite <- (HP k r Hk).
  - rewrite length_take, length_fmap. lia.
  - by apply sorted_take.
  - intros k j Hj He Hnin. apply lookup_fmap_Some in Hj as (r & <- & Hr).
    apply sorted_prefix_best; [done| |done]. apply list_elem_of_fmap_2, Hin. exists k.
    split; [done|]. by rewrite (HP k r Hr).
  - intros Hlen k j Hj He. rewrite length_take in Hlen.
    rewrite take_ge by lia. apply lookup_fmap_Some in Hj as (r & <- & Hr).
    apply list_elem_of_fmap_2, Hin. exists k. split; [done|]. by rewrite (HP k r Hr).
Qed.

Lemma selected_claim_ok scan lt `{!StrictWeak lt} P m q now n :
  scans scan → keyed JobRow.id m → 0 ≤ n →
  (∀ k r, m !! k = Some r → P r = Spec.eligible q now (dec r)) →
  (∀ k k' r r', m !! k = Some r → m !! k' = Some r' → lt r r' = jobLess (dec r) (dec r')) →
  let js := dec <$> select_where scan P lt n m in
  Spec.claim_ok q now n (dec <$> m) js ∧ Spec.claim_complete q now n (dec <$> m) js.
Proof.
  intros Hscan Hkey Hn HP Hlt js. unfold js.
  destruct (select_where_take scan lt Hscan P n m Hn) as (srt & -> & Hs & Hperm).
  by apply (sorted_claim_ok lt P).
Qed.

(** The same jobs in another claim order are as correct an answer. *)
Lemma claim_ok_perm q now n (m : gmap string Job.t) js js' :
  js' ≡ₚ js → StronglySorted (le_of jobLess) js' →
  Spec.claim_ok q now n m js → Spec.claim_ok q now n m js'.
Proof.
  intros Hp Hs [H1 H2 H3 _ H5]. split.
  - unfold Spec.ids. by rewrite Hp.
  - by rewrite Hp.
  - by rewrite Hp.
  - done.
  - intros k j Hj He Hnin. rewrite Hp. apply (H5 k); [done|done|]. by rewrite <- Hp.
Qed.

Lemma claim_complete_perm q now n (m : gmap string Job.t) js js' :
  js' ≡ₚ js → Spec.claim_complete q now n m js → Spec.claim_complete q now n m js'.
Proof. intros Hp Hc Hlen k j Hj He. rewrite Hp. apply (Hc ltac:(by rewrite <- Hp) k j Hj He). Qed.


(** *** Updates *)

(** Updates of several rows, one statement per row. *)
Definition update_each (f : JobRow.t → JobRow.t) (ks : list string) m : gmap string JobRow.t :=
  foldl (λ m k, update_where (by_key JobRow.id k (λ _, true)) f m) m ks.

Lemma update_each_keyed f ks m :
  (∀ r, JobRow.id (f r) = JobRow.id r) → keyed JobRow.id m → keyed JobRow.id (update_each f ks m).
Proof.
  intros Hf. revert m. induction ks as [|k ks IH]; intros m Hkey; [done|]. apply IH. by apply keyed_update.
Qed.

Lemma update_each_dec f g rows m :
  keyed JobRow.id m → (∀ r, JobRow.id (f r) = JobRow.id r) → (∀ r, dec (f r) = g (dec r)) →
  NoDup (JobRow.id <$> rows) → Forall (λ r, m !! JobRow.id r = Some r) rows →
  dec <$> update_each f (JobRow.id <$> rows) m = Spec.update_all g (dec <$> rows) (dec <$> m).
Proof.
  intros Hkey Hf Hg. unfold update_each, Spec.update_all. revert m Hkey.
  induction rows as [|r rows IH]; intros m Hkey Hnd Hm; [done|]. simpl in *.
  apply NoDup_cons in Hnd as [Hni Hnd]. apply Forall_cons in Hm as [Hr Hm].
  rewrite update_by_key by done. unfold row_at at 1. rewrite Hr. simpl.
  rewrite IH; [|apply keyed_insert; [done|by rewrite Hf]|done|].
  - by rewrite fmap_insert, dec_id, Hg.
  - rewrite Forall_forall in *. intros r' Hr'. rewrite lookup_insert_ne; [by apply Hm|].
    intros He. apply Hni. rewrite He. by apply list_elem_of_fmap_2.
Qed.

(** One statement for all of them. *)
Lemma update_in_dec f g rows m :
  keyed JobRow.id m → (∀ r, JobRow.id (f r) = JobRow.id r) → (∀ r, dec (f r) = g (dec r)) →
  NoDup (JobRow.id <$> rows) → Forall (λ r, m !! JobRow.id r = Some r) rows →
  dec <$> update_where (λ r, bool_decide (JobRow.id r ∈ JobRow.id <$> rows)) f m =
  Spec.update_all g (dec <$> rows) (dec <$> m).
Proof.
  intros Hkey Hf Hg Hnd Hm. apply map_eq. intros k.
  assert (Hids : Spec.ids (dec <$> rows) = JobRow.id <$> rows).
  { unfold Spec.ids. rewrite <- list_fmap_compose. apply list_fmap_ext. intros. apply dec_id. }
  rewrite update_all_lookup.
  2: by rewrite Hids.
  2:{ apply Forall_fmap. eapply Forall_impl; [exact Hm|]. intros r Hr. simpl.
      by rewrite dec_id, lookup_fmap, Hr. }
  rewrite Hids, !lookup_fmap, update_where_lookup. destruct (m !! k) as [r|] eqn:Hr; simpl.
  - rewrite (Hkey k r Hr). case_bool_decide; destruct (decide (k ∈ JobRow.id <$> rows)); try done.
    by rewrite Hg.
  - by destruct (decide (k ∈ JobRow.id <$> rows)).
Qed.

Lemma count_where_pairs P m :
  count_where P m = length (filter (λ kr : string * JobRow.t, P kr.2 = true) (map_to_list m)).
Proof.
  unfold count_where. induction (map_to_list m) as [|[k r] l IH]; [done|]. simpl.
  rewrite !filter_cons. simpl. destruct (decide (P r = true)); simpl; by f_equal.
Qed.

(** The rows such a statement returns. *)
Lemma values_nodup m : keyed JobRow.id m → NoDup (map_to_list m).*2.
Proof. intros Hkey. by apply (NoDup_fmap_1 JobRow.id), values_ids_nodup. Qed.

Lemma updated_rows (scan : gmap string JobRow.t → list JobRow.t) f rows m :
  scans scan → keyed JobRow.id m → (∀ r, JobRow.id (f r) = JobRow.id r) →
  NoDup (JobRow.id <$> rows) → Forall (λ r, m !! JobRow.id r = Some r) rows →
  let P r := bool_decide (JobRow.id r ∈ JobRow.id <$> rows) in
  filter (λ r, JobRow.id r ∈ JobRow.id <$> rows) (scan (update_where P f m)) ≡ₚ f <$> rows.
Proof.
  intros Hscan Hkey Hf Hnd Hm P. rewrite (Hscan _).
  assert (Hids : JobRow.id <$> (f <$> rows) = JobRow.id <$> rows).
  { rewrite <- list_fmap_compose. apply list_fmap_ext. intros. apply Hf. }
  apply NoDup_Permutation.
  - apply NoDup_filter, values_nodup. by apply keyed_update.
  - apply (NoDup_fmap_1 JobRow.id). by rewrite Hids.
  - intros x. rewrite list_elem_of_filter, elem_of_values. rewrite Forall_forall in Hm. split.
    + intros [Hx [k Hk]]. rewrite update_where_lookup in Hk. destruct (m !! k) as [r|] eqn:Hr; [|done].
      simpl in Hk. unfold P in Hk. case_bool_decide as Hin.
      * injection Hk as <-. apply list_elem_of_fmap in Hin as (r' & Hid & Hr').
        apply list_elem_of_fmap. exists r. split; [done|].
        assert (r = r') as ->; [|done]. specialize (Hm r' Hr'). rewrite <- Hid, (Hkey k r Hr) in Hm.
        congruence.
      * by injection Hk as <-.
    + intros (r & -> & Hr)%list_elem_of_fmap. rewrite Hf. split; [by apply list_elem_of_fmap_2|].
      exists (JobRow.id r). rewrite update_where_lookup, (Hm r Hr). simpl. unfold P.
      by rewrite bool_decide_eq_true_2 by (by apply list_elem_of_fmap_2).
Qed.

(** [RecoverStale]: the number it reports is that of the jobs put back. *)
Lemma update_recovered P f m :
  (∀ r, P r = true → Job.State (dec r) = StateClaimed) →
  (∀ r, P r = true → dec (f r) = Spec.release_job (dec r)) →
  Spec.recovered (dec <$> m) (dec <$> update_where P f m) (Z.of_nat (count_where P m)).
Proof.
  intros Hst Hf. set (l := filter (λ kr : string * JobRow.t, P kr.2 = true) (map_to_list m)).
  assert (Hin : ∀ k, k ∈ l.*1 ↔ ∃ r, m !! k = Some r ∧ P r = true).
  { intros k. unfold l. rewrite list_elem_of_fmap. split.
    - intros ([k' r] & -> & [HP Hr]%list_elem_of_filter). exists r.
      split; [by apply elem_of_map_to_list|done].
    - intros (r & Hr & HP). exists (k, r). split; [done|]. apply list_elem_of_filter.
      split; [done|]. by apply elem_of_map_to_list. }
  exists l.*1. split; [|split; [|split]].
  - eapply sublist_NoDup; [apply (NoDup_fst_map_to_list m)|]. apply fmap_sublist, sublist_filter.
  - by rewrite length_fmap, count_where_pairs.
  - intros k (r & Hr & HP)%Hin. exists (dec r). rewrite !lookup_fmap, update_where_lookup, Hr. simpl.
    rewrite HP, Hf by done. by rewrite (Hst r HP).
  - intros k Hk. rewrite !lookup_fmap, update_where_lookup. destruct (m !! k) as [r|] eqn:Hr; [|done].
    simpl. destruct (P r) eqn:HP; [|done]. destruct Hk. apply Hin. eauto.
Qed.

Lemma count_queue_size P m q rec :
  (∀ k r, m !! k = Some r → P r = Spec.pending_in q (dec r)) →
  Z.of_nat (count_where P m) = Spec.queue_size q (Spec.mk (dec <$> m) rec).
Proof.
  intros HP. unfold Spec.queue_size, Spec.pending_of, count_where. simpl. f_equal.
  rewrite (values_fmap dec m).
  assert (Hall : Forall (λ r, P r = Spec.pending_in q (dec r)) (map_to_list m).*2).
  { apply Forall_forall. intros r [k Hr]%elem_of_values. by apply (HP k). }
  induction Hall as [|r l Hr _ IH]; [done|]. simpl. destruct (Spec.pending_in q (dec r)) eqn:Hp.
  - rewrite !filter_cons_True by congruence. simpl. by rewrite IH.
  - rewrite !filter_cons_False by congruence. done.
Qed.
End rows.

(** ** The invariant of the two tables

    Rows sit under their identifier, and every job's row satisfies [row_ok]. *)

Section schema.
Context {flag : Set} (row_ok : JobRow.t → Prop).
Implicit Types (m : gmap string JobRow.t) (rm : gmap string (RecRow.t flag)).

Record schema_ok m rm : Prop := {
  ok_keyed : keyed JobRow.id m;
  ok_rec_keyed : keyed RecRow.id rm;
  ok_rows : map_Forall (λ _, row_ok) m
}.

Lemma schema_ok_insert k r m rm :
  schema_ok m rm → row_ok r → JobRow.id r = k → schema_ok (<[k := r]> m) rm.
Proof.
  intros [Hk Hrk Hr] Hrow Hid. split; [by apply keyed_insert|done|]. by apply map_Forall_insert_2.
Qed.

Lemma schema_ok_delete k m rm : schema_ok m rm → schema_ok (delete k m) rm.
Proof. intros [Hk Hrk Hr]. split; [by apply keyed_delete|done|]. by apply map_Forall_delete. Qed.

Lemma schema_ok_update P f m rm :
  schema_ok m rm → (∀ r, JobRow.id (f r) = JobRow.id r) → (∀ r, row_ok r → row_ok (f r)) →
  schema_ok (update_where P f m) rm.
Proof.
  intros [Hk Hrk Hr] Hid Hok. split; [by apply keyed_update|done|].
  intros k r. rewrite update_where_lookup. destruct (m !! k) as [r'|] eqn:Hr'; [|done].
  intros [= <-]. pose proof (Hr k r' Hr'). destruct (P r'); auto.
Qed.

Lemma schema_ok_each f ks m rm :
  schema_ok m rm → (∀ r, JobRow.id (f r) = JobRow.id r) → (∀ r, row_ok r → row_ok (f r)) →
  schema_ok (update_each f ks m) rm.
Proof.
  intros Ht Hid Hok. revert m Ht. induction ks as [|k ks IH]; intros m Ht; [done|].
  apply IH. by apply schema_ok_update.
Qed.

Lemma schema_ok_recurring m rm rm' : schema_ok m rm → keyed RecRow.id rm' → schema_ok m rm'.
Proof. by intros [Hk Hrk Hr] Hm. Qed.

Lemma row_ok_at k r m rm : schema_ok m rm → m !! k = Some r → row_ok r ∧ JobRow.id r = k.
Proof. intros [Hk _ Hok] Hr. split; [by eapply Hok|by apply Hk]. Qed.

Lemma schema_ok_empty : schema_ok ∅ ∅.
Proof. split; [by intros k r|by intros k r|apply map_Forall_empty]. Qed.
End schema.
Arguments ok_keyed {flag row_ok m rm}.
Arguments ok_rec_keyed {flag row_ok m rm}.
Arguments ok_rows {flag row_ok m rm}.
Arguments row_ok_at {flag row_ok k r m rm}.
