(* ===== verification/SqlDurable.v ===== *)
(** What statements on one row do to the jobs that rows stand for, as
    [Durable] speaks of them. *)

From S2P Require Import Prelude ListLib Types StoreApi Durable Sql SqlEngine.
Local Open Scope Z_scope.

Section rows.
Variable dec : JobRow.t → Job.t.
Implicit Types (m : gmap string JobRow.t) (r : JobRow.t).

Lemma rows_insert m k r :
  others k (dec <$> m) (dec <$> <[k := r]> m) ∧ stays (dec <$> m) (dec <$> <[k := r]> m).
Proof.
  assert (Ho : others k (dec <$> m) (dec <$> <[k := r]> m)).
  { intros i Hi. by rewrite !lookup_fmap, lookup_insert_ne. }
  split; [done|]. apply (others_stays k); [done|]. intros _. rewrite lookup_fmap, lookup_insert_eq. by eexists.
Qed.

Lemma rows_delete m k : others k (dec <$> m) (dec <$> delete k m).
Proof. intros i Hi. by rewrite !lookup_fmap, lookup_delete_ne. Qed.

(** A change to one job, which is pending. *)
Lemma others_settled k r m (m' : gmap string Job.t) :
  m !! k = Some r → Job.State (dec r) = StatePending → others k (dec <$> m) m' → settled (dec <$> m) m'.
Proof.
  intros Hr Hp Ho i v Hv Hs. destruct (decide (i = k)) as [->|Hne]; [|by rewrite Ho].
  rewrite lookup_fmap, Hr in Hv. by injection Hv as <-.
Qed.
End rows.
