(* ===== verification/Sqlite.v ===== *)
(** The SQLite store ([src/store/sqlite/store.go]): every method as the SQL
    statements it runs. The pool has one connection ([SetMaxOpenConns(1)]), so
    a transaction runs alone and a method is one step. [Result.RowsAffected]
    never fails with this driver. Integers outside 64 bits stand for the
    floating-point numbers SQLite would store; [Scan] refuses them. *)

From S2P Require Import Prelude ListLib Types StoreApi Sql SqlEngine.
Local Open Scope Z_scope.
Local Open Scope go_scope.

(** ** State *)

Record Tables : Type := mkTables {
  jobs : gmap string JobRow.t;
  recurring : gmap string (RecRow.t Z)
}.

Definition set_jobs (m : gmap string JobRow.t) (t : Tables) : Tables := mkTables m (recurring t).
Definition set_recurring (m : gmap string (RecRow.t Z)) (t : Tables) : Tables :=
  mkTables (jobs t) m.

(** The handle: a database with the two tables of the schema. *)
Definition Store : Type := Engine Tables.

Definition errf (what msg : string) : error := ErrOther (what +:+ msg).

(** *** Times as columns *)
Definition toUnixNano (t : Z) : Z := if Time.IsZero t then 0 else Time.UnixNano t.
Definition fromUnixNano (n : Z) : Z := if n =? 0 then Time.zero else Time.Unix0 n.

(** *** Reading rows: [Scan] into 64-bit variables *)
Definition int64b (x : Z) : bool := (min_int64 <=? x) && (x <=? max_int64).

Definition scanJob (r : JobRow.t) : option Job.t :=
  if forallb int64b [JobRow.priority r; JobRow.attempt r; JobRow.max_attempts r; JobRow.state r;
                     JobRow.run_at r; JobRow.timeout_ns r; JobRow.locked_until r;
                     JobRow.created_at r; JobRow.updated_at r]
  then Some
    {| Job.ID := JobRow.id r; Job.Name := JobRow.name r; Job.Queue := JobRow.queue r;
       Job.Priority := wrap8 (JobRow.priority r); Job.Payload := JobRow.payload r;
       Job.CodecName := JobRow.codec_name r; Job.RunAt := fromUnixNano (JobRow.run_at r);
       Job.Attempt := JobRow.attempt r; Job.MaxAttempts := JobRow.max_attempts r;
       Job.State := wrap8 (JobRow.state r); Job.Delivery := 0;
       Job.Timeout := JobRow.timeout_ns r; Job.LockedBy := JobRow.locked_by r;
       Job.LockedUntil := fromUnixNano (JobRow.locked_until r);
       Job.LastError := JobRow.last_error r; Job.RecurringID := JobRow.recurring_id r;
       Job.CreatedAt := fromUnixNano (JobRow.created_at r);
       Job.UpdatedAt := fromUnixNano (JobRow.updated_at r); Job.catchup := false |}
  else None.

Definition scanRecurring (r : RecRow.t Z) : option RecurringSpec.t :=
  if forallb int64b [RecRow.priority r; RecRow.timeout_ns r; RecRow.max_attempts r;
                     RecRow.every_ns r; RecRow.catchup r; RecRow.next_run_at r;
                     RecRow.last_fire_at r; RecRow.lease_until r]
  then Some
    {| RecurringSpec.ID := RecRow.id r; RecurringSpec.Name := RecRow.name r;
       RecurringSpec.Queue := RecRow.queue r; RecurringSpec.Priority := wrap8 (RecRow.priority r);
       RecurringSpec.Payload := RecRow.payload r; RecurringSpec.CodecName := RecRow.codec_name r;
       RecurringSpec.Delivery := 0; RecurringSpec.Timeout := RecRow.timeout_ns r;
       RecurringSpec.MaxAttempts := RecRow.max_attempts r; RecurringSpec.Cron := RecRow.cron r;
       RecurringSpec.Every := RecRow.every_ns r;
       RecurringSpec.Catchup := negb (RecRow.catchup r =? 0);
       RecurringSpec.LeaseUntil := fromUnixNano (RecRow.lease_until r);
       RecurringSpec.LeasedBy := RecRow.leased_by r;
       RecurringSpec.NextRunAt := fromUnixNano (RecRow.next_run_at r);
       RecurringSpec.LastFireAt := fromUnixNano (RecRow.last_fire_at r) |}
  else None.

(** The message of a failed [Scan]. *)
Definition scan_message : string := "converting driver.Value".

(** ** Jobs *)

(** The row [Save] inserts. *)
Definition save_row (j : Job.t) : JobRow.t :=
  let state := if Job.State j =? 0 then StatePending else Job.State j in
  let maxAttempts := if Job.MaxAttempts j =? 0 then 3 else Job.MaxAttempts j in
  {| JobRow.id := Job.ID j; JobRow.queue := Job.Queue j; JobRow.name := Job.Name j;
     JobRow.payload := Job.Payload j; JobRow.codec_name := Job.CodecName j;
     JobRow.priority := Job.Priority j; JobRow.run_at := toUnixNano (Job.RunAt j);
     JobRow.attempt := Job.Attempt j; JobRow.max_attempts := maxAttempts; JobRow.state := state;
     JobRow.timeout_ns := Job.Timeout j; JobRow.locked_by := Job.LockedBy j;
     JobRow.locked_until := toUnixNano (Job.LockedUntil j); JobRow.last_error := Job.LastError j;
     JobRow.recurring_id := Job.RecurringID j; JobRow.created_at := toUnixNano (Job.CreatedAt j);
     JobRow.updated_at := toUnixNano (Job.UpdatedAt j) |}.

(** [upsertJobSQL]: a conflict keeps [created_at] and takes the other columns. *)
Definition upsertJobSQL (r : JobRow.t) (t : Tables) : Tables :=
  set_jobs (upsert (JobRow.id r) (λ old new, JobRow.set_created_at (JobRow.created_at old) new) r
                   (jobs t)) t.

Definition Save (j : Job.t) : GoM Store (option error) :=
  try! _ := stmt (λ s, (tt, upsertJobSQL (save_row j) (tables s)))
    else (λ m, Some (errf "sqlite save: " m)) in
  gret None.

(** [ORDER BY priority DESC, run_at ASC]. *)
Definition claim_order (a b : JobRow.t) : bool :=
  if negb (JobRow.priority a =? JobRow.priority b) then JobRow.priority b <? JobRow.priority a
  else JobRow.run_at a <? JobRow.run_at b.

Definition claim_where (queue : string) (now : Z) (r : JobRow.t) : bool :=
  bool_decide (JobRow.queue r = queue) && (JobRow.state r =? StatePending) &&
  (JobRow.run_at r <=? now).

Definition claimSelectSQL (queue : string) (now n : Z) (s : Store) : list JobRow.t :=
  select_where (scan s) (claim_where queue now) claim_order n (jobs (tables s)).

(** [WHERE id = ?], and with a test on the state. *)
Definition job_is (k : string) : JobRow.t → bool := by_key JobRow.id k (λ _, true).
Definition job_in (k : string) (state : Z) : JobRow.t → bool :=
  by_key JobRow.id k (λ r, JobRow.state r =? state).

Definition claimUpdateSQL (workerID : string) (lockUntil now : Z) (k : string) (t : Tables) : Tables :=
  set_jobs (update_where (job_is k)
    (λ r, JobRow.set_updated_at now (JobRow.set_locked_until lockUntil
            (JobRow.set_locked_by workerID (JobRow.set_state StateClaimed r)))) (jobs t)) t.

(** What the loop writes into the job it returns. *)
Definition claimed (workerID : string) (lockUntil now : Z) (j : Job.t) : Job.t :=
  Job.set_UpdatedAt now (Job.set_LockedUntil lockUntil (Job.set_LockedBy workerID
    (Job.set_State StateClaimed j))).

(** [for i := range out]. *)
Fixpoint claim_updates (workerID : string) (lockUntil now : Z) (out : list Job.t)
    : GoM Store (string + list Job.t) :=
  match out with
  | [] => gret (inr [])
  | j :: out =>
      try! _ := stmt (λ s, (tt, claimUpdateSQL workerID (toUnixNano lockUntil) (toUnixNano now)
                                  (Job.ID j) (tables s))) else inl in
      try! out := claim_updates workerID lockUntil now out else inl in
      gret (inr (claimed workerID lockUntil now j :: out))
  end.

Definition ClaimDue (queue : string) (now n : Z) (workerID : string) (lockUntil : Z)
    : GoM Store (list Job.t * option error) :=
  try! _ := Begin else (λ m, ([], Some (errf "sqlite claim begin: " m))) in
  deferring_rollback (
    try! rows := query (claimSelectSQL queue (toUnixNano now) n)
      else (λ m, ([], Some (errf "sqlite claim select: " m))) in
    match mapM scanJob rows with
    | None => gret ([], Some (errf "sqlite scan job: " scan_message))
    | Some out =>
        try! _ := query (λ _, tt) else (λ m, ([], Some (errf "sqlite claim iterate: " m))) in
        try! out := claim_updates workerID lockUntil now out
          else (λ m, ([], Some (errf "sqlite claim update: " m))) in
        try! _ := Commit else (λ m, ([], Some (errf "sqlite claim commit: " m))) in
        gret (out, None)
    end).

(** [DELETE FROM jobs WHERE ...], with the number of rows deleted. *)
Definition delete_jobs (P : JobRow.t → bool) (s : Store) : nat * Tables :=
  (count_where P (jobs (tables s)), set_jobs (delete_where P (jobs (tables s))) (tables s)).

Definition ackSQL (k : string) : Store → nat * Tables := delete_jobs (job_in k StateClaimed).

Definition Ack (k : string) : GoM Store (option error) :=
  try! rows := stmt (ackSQL k) else (λ m, Some (errf "sqlite ack: " m)) in
  gret (if (rows =? 0)%nat then Some ErrJobNotFound else None).

(** [QueryRow]: the first row selected, if any. *)
Definition job_row (P : JobRow.t → bool) (s : Store) : option JobRow.t :=
  head (filter (λ r, P r = true) (scan s (jobs (tables s)))).

Definition failRetrySQL (errMsg : string) (at_ now : Z) (k : string) (t : Tables) : Tables :=
  set_jobs (update_where (job_in k StateClaimed)
    (λ r, JobRow.set_updated_at now (JobRow.set_locked_until 0 (JobRow.set_locked_by ""
            (JobRow.set_run_at at_ (JobRow.set_state StatePending
              (JobRow.set_last_error errMsg (JobRow.set_attempt (JobRow.attempt r + 1) r)))))))
    (jobs t)) t.

Definition Fail (k errMsg : string) (nextAttemptAt : Z) : GoM Store (option error) :=
  try! _ := Begin else (λ m, Some (errf "sqlite fail begin: " m)) in
  deferring_rollback (
    try! row := query (job_row (job_in k StateClaimed))
      else (λ m, Some (errf "sqlite fail select: " m)) in
    match row with
    | None => gret (Some ErrJobNotFound)
    | Some r =>
        if negb (int64b (JobRow.attempt r) && int64b (JobRow.max_attempts r))
        then gret (Some (errf "sqlite fail select: " scan_message))
        else
          let nextAttempt := wrap64 (JobRow.attempt r + 1) in
          if (0 <? JobRow.max_attempts r) && (JobRow.max_attempts r <=? nextAttempt) then
            try! _ := stmt (delete_jobs (job_is k)) else (λ m, Some (errf "sqlite fail terminal: " m)) in
            try! _ := Commit else (λ m, Some (errf "sqlite fail commit: " m)) in
            gret None
          else
            let! now := time_Now in
            try! _ := stmt (λ s, (tt, failRetrySQL errMsg (toUnixNano nextAttemptAt) (toUnixNano now)
                                        k (tables s)))
              else (λ m, Some (errf "sqlite fail retry: " m)) in
            try! _ := Commit else (λ m, Some (errf "sqlite fail commit: " m)) in
            gret None
    end).

Definition Cancel (k : string) : GoM Store (option error) :=
  try! _ := Begin else (λ m, Some (errf "sqlite cancel begin: " m)) in
  deferring_rollback (
    try! row := query (job_row (job_is k)) else (λ m, Some (errf "sqlite cancel select: " m)) in
    match row with
    | None => gret (Some ErrJobNotFound)
    | Some r =>
        if negb (int64b (JobRow.state r)) then gret (Some (errf "sqlite cancel select: " scan_message))
        else if negb (wrap8 (JobRow.state r) =? StatePending) then gret (Some ErrJobNotPending)
        else
          try! _ := stmt (delete_jobs (job_is k)) else (λ m, Some (errf "sqlite cancel delete: " m)) in
          try! _ := Commit else (λ m, Some (errf "sqlite cancel commit: " m)) in
          gret None
    end).

Definition rescheduleUpdateSQL (at_ now : Z) (k : string) (t : Tables) : Tables :=
  set_jobs (update_where (job_is k) (λ r, JobRow.set_updated_at now (JobRow.set_run_at at_ r))
                         (jobs t)) t.

Definition Reschedule (k : string) (newTime : Z) : GoM Store (option error) :=
  try! _ := Begin else (λ m, Some (errf "sqlite reschedule begin: " m)) in
  deferring_rollback (
    try! row := query (job_row (job_is k)) else (λ m, Some (errf "sqlite reschedule select: " m)) in
    match row with
    | None => gret (Some ErrJobNotFound)
    | Some r =>
        if negb (int64b (JobRow.state r)) then gret (Some (errf "sqlite reschedule select: " scan_message))
        else if negb (wrap8 (JobRow.state r) =? StatePending) then gret (Some ErrJobNotPending)
        else
          let! now := time_Now in
          try! _ := stmt (λ s, (tt, rescheduleUpdateSQL (toUnixNano newTime) (toUnixNano now) k
                                      (tables s)))
            else (λ m, Some (errf "sqlite reschedule update: " m)) in
          try! _ := Commit else (λ m, Some (errf "sqlite reschedule commit: " m)) in
          gret None
    end).

Definition Heartbeat (_ : string) (_ : Z) : GoM Store (option error) := gret None.

Definition stale (now : Z) (r : JobRow.t) : bool :=
  (JobRow.state r =? StateClaimed) && (0 <? JobRow.locked_until r) && (JobRow.locked_until r <? now).

Definition recoverStaleSQL (now : Z) (s : Store) : nat * Tables :=
  (count_where (stale now) (jobs (tables s)),
   set_jobs (update_where (stale now)
     (λ r, JobRow.set_updated_at now (JobRow.set_locked_until 0 (JobRow.set_locked_by ""
             (JobRow.set_state StatePending r)))) (jobs (tables s))) (tables s)).

Definition RecoverStale (now : Z) : GoM Store (Z * option error) :=
  try! rows := stmt (recoverStaleSQL (toUnixNano now))
    else (λ m, (0, Some (errf "sqlite recover stale: " m))) in
  gret (Z.of_nat rows, None).

Definition queueSizeSQL (queue : string) (s : Store) : nat :=
  count_where (λ r, bool_decide (JobRow.queue r = queue) && (JobRow.state r =? StatePending))
              (jobs (tables s)).

Definition QueueSize (queue : string) : GoM Store (Z * option error) :=
  try! n := query (queueSizeSQL queue) else (λ m, (0, Some (errf "sqlite queue size: " m))) in
  gret (Z.of_nat n, None).

(** ** Recurring schedules *)

Definition recurring_row (r : RecurringSpec.t) : RecRow.t Z :=
  {| RecRow.id := RecurringSpec.ID r; RecRow.name := RecurringSpec.Name r;
     RecRow.queue := RecurringSpec.Queue r; RecRow.payload := RecurringSpec.Payload r;
     RecRow.codec_name := RecurringSpec.CodecName r; RecRow.priority := RecurringSpec.Priority r;
     RecRow.timeout_ns := RecurringSpec.Timeout r;
     RecRow.max_attempts := RecurringSpec.MaxAttempts r; RecRow.cron := RecurringSpec.Cron r;
     RecRow.every_ns := RecurringSpec.Every r;
     RecRow.catchup := if RecurringSpec.Catchup r then 1 else 0;
     RecRow.next_run_at := toUnixNano (RecurringSpec.NextRunAt r);
     RecRow.last_fire_at := toUnixNano (RecurringSpec.LastFireAt r);
     RecRow.lease_until := toUnixNano (RecurringSpec.LeaseUntil r);
     RecRow.leased_by := RecurringSpec.LeasedBy r |}.

(** [upsertRecurringSQL]: a conflict keeps the lease. *)
Definition upsertRecurringSQL (r : RecRow.t Z) (t : Tables) : Tables :=
  set_recurring (upsert (RecRow.id r)
    (λ old new, RecRow.set_leased_by (RecRow.leased_by old)
                  (RecRow.set_lease_until (RecRow.lease_until old) new)) r (recurring t)) t.

Definition UpsertRecurring (r : RecurringSpec.t) : GoM Store (option error) :=
  try! _ := stmt (λ s, (tt, upsertRecurringSQL (recurring_row r) (tables s)))
    else (λ m, Some (errf "sqlite upsert recurring: " m)) in
  gret None.

(** A failed [Scan] returns no schedule; a failed iteration returns the ones
    read so far with the error: here, all of them. *)
Definition ListRecurring : GoM Store (list RecurringSpec.t * option error) :=
  try! rows := query (λ s, scan s (recurring (tables s)))
    else (λ m, ([], Some (errf "sqlite list recurring: " m))) in
  match mapM scanRecurring rows with
  | None => gret ([], Some (errf "sqlite list recurring scan: " scan_message))
  | Some out =>
      try! _ := query (λ _, tt) else (λ m, (out, Some (ErrOther m))) in
      gret (out, None)
  end.

Definition rec_is (k : string) : RecRow.t Z → bool := by_key RecRow.id k (λ _, true).

Definition DeleteRecurring (k : string) : GoM Store (option error) :=
  try! _ := stmt (λ s, (tt, set_recurring (delete_where (rec_is k) (recurring (tables s))) (tables s)))
    else (λ m, Some (errf "sqlite delete recurring: " m)) in
  gret None.

Definition updateRecurringNextRunSQL (next last : Z) (k : string) (t : Tables) : Tables :=
  set_recurring (update_where (rec_is k)
    (λ r, RecRow.set_last_fire_at last (RecRow.set_next_run_at next r)) (recurring t)) t.

Definition UpdateRecurringNextRun (k : string) (nextRunAt lastFireAt : Z) : GoM Store (option error) :=
  try! _ := stmt (λ s, (tt, updateRecurringNextRunSQL (toUnixNano nextRunAt) (toUnixNano lastFireAt) k
                              (tables s)))
    else (λ m, Some (errf "sqlite update recurring next: " m)) in
  gret None.

(** Free, expired, or already ours. *)
Definition leasable (now : Z) (workerID : string) (r : RecRow.t Z) : bool :=
  (RecRow.lease_until r =? 0) || (RecRow.lease_until r <? now) ||
  bool_decide (RecRow.leased_by r = workerID).

Definition acquireLeaseSQL (lease : Z) (workerID : string) (k : string) (now : Z) (s : Store)
    : nat * Tables :=
  let P := by_key RecRow.id k (leasable now workerID) in
  (count_where P (recurring (tables s)),
   set_recurring (update_where P (λ r, RecRow.set_leased_by workerID (RecRow.set_lease_until lease r))
                               (recurring (tables s))) (tables s)).

Definition AcquireRecurringLease (k : string) (leaseUntil : Z) (workerID : string)
    : GoM Store (bool * option error) :=
  let! now := time_Now in
  try! rows := stmt (acquireLeaseSQL (toUnixNano leaseUntil) workerID k (toUnixNano now))
    else (λ m, (false, Some (errf "sqlite acquire lease: " m))) in
  if (0 <? rows)%nat then gret (true, None)
  else
    try! count := query (λ s, count_where (rec_is k) (recurring (tables s)))
      else (λ m, (false, Some (errf "sqlite acquire lease exists: " m))) in
    gret ((count =? 0)%nat, None).

#[export] Instance sqlite_ops : StoreOps Store := {
  st_ended := ended_db; st_left := left_db;
  st_Save := Save; st_ClaimDue := ClaimDue; st_Ack := Ack; st_Fail := Fail;
  st_Cancel := Cancel; st_Reschedule := Reschedule; st_Heartbeat := Heartbeat;
  st_RecoverStale := RecoverStale; st_UpsertRecurring := UpsertRecurring;
  st_ListRecurring := ListRecurring; st_DeleteRecurring := DeleteRecurring;
  st_AcquireRecurringLease := AcquireRecurringLease;
  st_UpdateRecurringNextRun := UpdateRecurringNextRun; st_QueueSize := QueueSize
}.
