(* ===== verification/SqliteFacts.v ===== *)
(** The SQLite store keeps the promise of [StoreApi]: its invariant, what its
    rows stand for, and each method against [Spec], with the errors of the
    database accounted for. *)

From S2P Require Import Prelude ListLib Types StoreApi Sql SqlEngine SqlBackend SqlFacts Sqlite.
Local Open Scope Z_scope.

(** ** What the rows stand for *)

(** Times a column represents: the zero time and those after the epoch. *)
Definition time_ok (t : Z) : Prop := t = Time.zero ∨ 0 < t ≤ max_int64.

Definition row_job (r : JobRow.t) : Job.t :=
  {| Job.ID := JobRow.id r; Job.Name := JobRow.name r; Job.Queue := JobRow.queue r;
     Job.Priority := wrap8 (JobRow.priority r); Job.Payload := JobRow.payload r;
     Job.CodecName := JobRow.codec_name r; Job.RunAt := fromUnixNano (JobRow.run_at r);
     Job.Attempt := wrap64 (JobRow.attempt r); Job.MaxAttempts := JobRow.max_attempts r;
     Job.State := wrap8 (JobRow.state r); Job.Delivery := 0;
     Job.Timeout := JobRow.timeout_ns r; Job.LockedBy := JobRow.locked_by r;
     Job.LockedUntil := fromUnixNano (JobRow.locked_until r);
     Job.LastError := JobRow.last_error r; Job.RecurringID := JobRow.recurring_id r;
     Job.CreatedAt := 0; Job.UpdatedAt := 0; Job.catchup := false |}.

Definition row_spec (r : RecRow.t Z) : RecurringSpec.t :=
  {| RecurringSpec.ID := RecRow.id r; RecurringSpec.Name := RecRow.name r;
     RecurringSpec.Queue := RecRow.queue r; RecurringSpec.Priority := wrap8 (RecRow.priority r);
     RecurringSpec.Payload := RecRow.payload r; RecurringSpec.CodecName := RecRow.codec_name r;
     RecurringSpec.Delivery := 0; RecurringSpec.Timeout := RecRow.timeout_ns r;
     RecurringSpec.MaxAttempts := RecRow.max_attempts r; RecurringSpec.Cron := RecRow.cron r;
     RecurringSpec.Every := RecRow.every_ns r;
     RecurringSpec.Catchup := negb (RecRow.catchup r =? 0);
     RecurringSpec.LeaseUntil := 0; RecurringSpec.LeasedBy := "";
     RecurringSpec.NextRunAt := fromUnixNano (RecRow.next_run_at r);
     RecurringSpec.LastFireAt := fromUnixNano (RecRow.last_fire_at r) |}.

(** ** The invariant *)

Definition row_ok (r : JobRow.t) : Prop :=
  0 ≤ JobRow.priority r < 256 ∧ 0 ≤ JobRow.state r < 256 ∧ 0 ≤ JobRow.run_at r.

Definition rows_ok (t : Tables) : Prop := schema_ok row_ok (jobs t) (recurring t).

(** Every number is one of 64 bits. *)
Definition job_ints (r : JobRow.t) : bool :=
  forallb int64b [JobRow.priority r; JobRow.attempt r; JobRow.max_attempts r; JobRow.state r;
                  JobRow.run_at r; JobRow.timeout_ns r; JobRow.locked_until r;
                  JobRow.created_at r; JobRow.updated_at r].
Definition rec_ints (r : RecRow.t Z) : bool :=
  forallb int64b [RecRow.priority r; RecRow.timeout_ns r; RecRow.max_attempts r;
                  RecRow.every_ns r; RecRow.catchup r; RecRow.next_run_at r;
                  RecRow.last_fire_at r; RecRow.lease_until r].

#[export] Instance sqlite_tables : SqlTables Tables := {
  tables_ok := rows_ok;
  tables_abs t := Spec.mk (row_job <$> jobs t) (row_spec <$> recurring t);
  values_ok t := map_Forall (λ _ r, job_ints r = true) (jobs t) ∧
                 map_Forall (λ _ r, rec_ints r = true) (recurring t)
}.

(** The jobs and schedules whose fields have their Go types, with times the
    columns represent. [Save] would turn [MaxAttempts = 0] into 3. *)
Definition sql_ok_job (j : Job.t) : Prop :=
  time_ok (Job.RunAt j) ∧ time_ok (Job.LockedUntil j) ∧ 0 ≤ Job.Priority j < 256 ∧
  0 ≤ Job.State j < 256 ∧ in_int64 (Job.Attempt j) ∧ Job.MaxAttempts j ≠ 0.
Definition sql_ok_spec (r : RecurringSpec.t) : Prop :=
  time_ok (RecurringSpec.NextRunAt r) ∧ time_ok (RecurringSpec.LastFireAt r) ∧
  0 ≤ RecurringSpec.Priority r < 256.

(** ** Times and numbers *)

Lemma toUnixNano_pos t : time_ok t → t ≠ Time.zero → toUnixNano t = t.
Proof.
  intros Ht Hne. unfold toUnixNano, Time.IsZero, Time.UnixNano. rewrite (proj2 (Z.eqb_neq _ _)) by done.
  apply wrap64_id. destruct Ht as [?|?]; [done|]. int64_lia.
Qed.

Lemma toUnixNano_nonneg t : time_ok t → 0 ≤ toUnixNano t.
Proof.
  intros Ht. destruct (decide (t = Time.zero)) as [->|Hne]; [done|].
  rewrite toUnixNano_pos by done. destruct Ht; [done|lia].
Qed.

Lemma time_roundtrip t : time_ok t → fromUnixNano (toUnixNano t) = t.
Proof.
  intros Ht. destruct (decide (t = Time.zero)) as [->|Hne]; [done|].
  rewrite toUnixNano_pos by done. unfold fromUnixNano. destruct Ht; [done|].
  by rewrite (proj2 (Z.eqb_neq _ _)) by lia.
Qed.

Lemma zero_negative : Time.zero < 0.
Proof. done. Qed.

Lemma fromUnixNano_lt a b : 0 ≤ a → 0 ≤ b → (fromUnixNano a <? fromUnixNano b) = (a <? b).
Proof.
  intros Ha Hb. pose proof zero_negative. unfold fromUnixNano, Time.Unix0.
  apply eq_bool_prop_intro. rewrite !Is_true_true, !Z.ltb_lt.
  destruct (Z.eqb_spec a 0), (Z.eqb_spec b 0); lia.
Qed.

Lemma due_spec n now : 0 ≤ n → time_ok now → (n <=? toUnixNano now) = negb (Time.After (fromUnixNano n) now).
Proof.
  intros Hn Hok. rewrite <- (time_roundtrip now Hok) at 2. unfold Time.After.
  rewrite fromUnixNano_lt by (auto using toUnixNano_nonneg). by rewrite Z.leb_antisym.
Qed.

Lemma int64b_spec x : int64b x = true ↔ in_int64 x.
Proof. unfold int64b, in_int64. rewrite andb_true_iff, !Z.leb_le. done. Qed.

(** ** Rows and jobs *)

Lemma row_job_id r : Job.ID (row_job r) = JobRow.id r.
Proof. done. Qed.

Lemma save_row_job j : sql_ok_job j → row_job (save_row j) = Spec.job_view j.
Proof.
  intros (Hr & Hl & Hp & Hs & Ha & Hm). unfold row_job, save_row, Spec.job_view. cbn.
  rewrite (proj2 (Z.eqb_neq _ _) Hm), !time_roundtrip, (wrap64_id (Job.Attempt j)),
    (wrap8_id (Job.Priority j)) by done.
  f_equal. destruct (Z.eqb_spec (Job.State j) 0) as [->|]; [done|]. by apply wrap8_id.
Qed.

Lemma save_row_ok j : sql_ok_job j → row_ok (save_row j).
Proof.
  intros (Hr & Hl & Hp & Hs & Ha & Hm). split; [done|]. split; [|by apply toUnixNano_nonneg].
  simpl. by destruct (Job.State j =? 0).
Qed.

Lemma recurring_row_spec r : sql_ok_spec r → row_spec (recurring_row r) = Spec.rec_view r.
Proof.
  intros (Hn & Hl & Hp). unfold row_spec, recurring_row, Spec.rec_view. cbn.
  rewrite !time_roundtrip, wrap8_id by done. f_equal. by destruct (RecurringSpec.Catchup r).
Qed.

(** What [Scan] reads is the job the row stands for. *)
Lemma scanJob_view r j : scanJob r = Some j → Spec.job_view j = row_job r ∧ job_ints r = true.
Proof.
  unfold scanJob. fold (job_ints r). destruct (job_ints r) eqn:Hi; [|done]. intros [= <-]. split; [|done].
  unfold job_ints in Hi. cbn in Hi. breflect.
  assert (Ha : wrap64 (JobRow.attempt r) = JobRow.attempt r) by (by apply wrap64_id, int64b_spec).
  unfold row_job, Spec.job_view. cbn. by rewrite Ha.
Qed.

Lemma scanJob_none r : scanJob r = None → job_ints r = false.
Proof. unfold scanJob. fold (job_ints r). by destruct (job_ints r). Qed.

Lemma scanRecurring_view r x :
  scanRecurring r = Some x → Spec.rec_view x = row_spec r.
Proof. unfold scanRecurring. case (forallb _ _); [|done]. by intros [= <-]. Qed.

Lemma scanRecurring_none r : scanRecurring r = None → rec_ints r = false.
Proof. unfold scanRecurring. fold (rec_ints r). by destruct (rec_ints r). Qed.

(** ** Statements and the invariant *)

Lemma claim_where_eligible q now r :
  row_ok r → time_ok now → claim_where q (toUnixNano now) r = Spec.eligible q now (row_job r).
Proof.
  intros (Hp & Hs & Hr) Hnow. unfold claim_where, Spec.eligible, Spec.pending_in. cbn.
  by rewrite due_spec, wrap8_id by done.
Qed.

Lemma claim_order_less r r' :
  row_ok r → row_ok r' → claim_order r r' = jobLess (row_job r) (row_job r').
Proof.
  intros (Hp & Hs & Hr) (Hp' & Hs' & Hr'). unfold claim_order, jobLess, Time.Before. cbn.
  by rewrite !wrap8_id, fromUnixNano_lt by done.
Qed.

#[export] Instance claim_order_strict_weak : StrictWeak claim_order.
Proof.
  assert (Hspec : ∀ a b, claim_order a b = true ↔
    JobRow.priority b < JobRow.priority a ∨
    (JobRow.priority a = JobRow.priority b ∧ JobRow.run_at a < JobRow.run_at b)).
  { intros a b. unfold claim_order.
    destruct (Z.eqb_spec (JobRow.priority a) (JobRow.priority b)); cbn; rewrite Z.ltb_lt; lia. }
  split; intros *; rewrite <- ?not_true_iff_false, ?Hspec; lia.
Qed.

Lemma row_unhealthy s k r : jobs (tables s) !! k = Some r → job_ints r = false → ¬ healthy s.
Proof. intros Hr Hi [_ [Hj _]]. specialize (Hj k r Hr). simpl in Hj. congruence. Qed.

Lemma Ack_yields s k :
  sql_wf s → yields (Ack k) s infra (λ e sp, (e, sp) = Spec.ack k (sql_abs s)).
Proof.
  intros Hwf. sql_start Hwf. unfold Ack, ackSQL, delete_jobs, job_in. sql_run Hwf.
  rewrite count_by_key, delete_by_key by apply Hok.
  unfold row_at, Spec.ack, Spec.done_with, Spec.refuse. cbn. rewrite lookup_fmap.
  destruct (jobs t !! k) as [r|] eqn:Hr; cbn.
  - destruct (row_ok_at Hok Hr) as [(_ & Hs & _) _]. rewrite wrap8_id by done.
    destruct (JobRow.state r =? StateClaimed); cbn.
    + sql_done Hwf; [by apply schema_ok_delete|].
      unfold sql_abs. cbn. by rewrite fmap_delete.
    + sql_done Hwf; by destruct t.
  - sql_done Hwf; by destruct t.
Qed.

Lemma Save_yields s j :
  sql_wf s → sql_ok_job j → yields (Save j) s infra (λ e sp, (e, sp) = Spec.save j (sql_abs s)).
Proof.
  intros Hwf Hj. sql_start Hwf. unfold Save, upsertJobSQL. sql_run Hwf.
  assert (Hrow : ∀ o, row_job (match o with
      Some old => JobRow.set_created_at (JobRow.created_at old) (save_row j) | None => save_row j end)
    = Spec.job_view j).
  { intros [old|]; rewrite <- save_row_job by done; reflexivity. }
  sql_done Hwf; unfold upsert; cbn.
  - apply schema_ok_insert; [done| |]; destruct (jobs t !! Job.ID j); try done;
      pose proof (save_row_ok j Hj) as (? & ? & ?); by split.
  - unfold sql_abs, Spec.save, Spec.done_with, Spec.set_jobs. cbn. by rewrite fmap_insert, Hrow.
Qed.

Lemma job_row_at (s : Store) k P :
  rows_ok (tables s) → (∀ Row : Set, scans (@scan _ s Row)) →
  job_row (by_key JobRow.id k P) s = row_at k P (jobs (tables s)).
Proof. intros Hok Hscan. apply query_by_key; [apply Hok|apply Hscan]. Qed.

Lemma Cancel_yields s k :
  sql_wf s → yields (Cancel k) s infra (λ e sp, (e, sp) = Spec.cancel k (sql_abs s)).
Proof.
  intros Hwf. sql_start Hwf. unfold Cancel, job_is. sql_run Hwf.
  rewrite job_row_at by done. cbn.
  unfold row_at, Spec.cancel, Spec.done_with, Spec.refuse. cbn. rewrite lookup_fmap.
  destruct (jobs t !! k) as [r|] eqn:Hr; cbn; [|sql_done Hwf; by destruct t].
  destruct (row_ok_at Hok Hr) as [(_ & Hs & _) _]. rewrite wrap8_id by done.
  destruct (int64b (JobRow.state r)) eqn:Hi; cbn.
  2:{ exfalso. apply not_true_iff_false in Hi. apply Hi, int64b_spec. int64_lia. }
  destruct (JobRow.state r =? StatePending) eqn:Hp; cbn; [|sql_done Hwf; by destruct t].
  sql_run Hwf. unfold delete_jobs. rewrite delete_by_key by apply Hok. unfold row_at. cbn. rewrite Hr.
  sql_done Hwf; [by apply schema_ok_delete|]. unfold sql_abs. cbn. by rewrite fmap_delete.
Qed.

Lemma Reschedule_yields s k at_ :
  sql_wf s → time_ok at_ →
  yields (Reschedule k at_) s infra (λ e sp, (e, sp) = Spec.reschedule k at_ (sql_abs s)).
Proof.
  intros Hwf Hat. sql_start Hwf. unfold Reschedule, job_is. sql_run Hwf.
  rewrite job_row_at by done. cbn.
  unfold row_at, Spec.reschedule, Spec.done_with, Spec.refuse. cbn. rewrite lookup_fmap.
  destruct (jobs t !! k) as [r|] eqn:Hr; cbn; [|sql_done Hwf; by destruct t].
  destruct (row_ok_at Hok Hr) as [(_ & Hs & _) _]. rewrite wrap8_id by done.
  destruct (int64b (JobRow.state r)) eqn:Hi; cbn.
  2:{ exfalso. apply not_true_iff_false in Hi. apply Hi, int64b_spec. int64_lia. }
  destruct (JobRow.state r =? StatePending) eqn:Hp; cbn; [|sql_done Hwf; by destruct t].
  sql_run Hwf. unfold rescheduleUpdateSQL, job_is. rewrite update_by_key by apply Hok.
  unfold row_at. cbn. rewrite Hr. destruct (row_ok_at Hok Hr) as [(? & ? & ?) Hid].
  sql_done Hwf.
  - apply schema_ok_insert; [done| |done]. split; [done|]. split; [done|]. by apply toUnixNano_nonneg.
  - unfold sql_abs, Spec.set_jobs. cbn. rewrite fmap_insert. unfold row_job at 1. cbn.
    by rewrite time_roundtrip.
Qed.

(** A row [Fail] retries. *)
Lemma retry_row_job r msg at_ now :
  in_int64 (JobRow.attempt r) → time_ok at_ →
  row_job (JobRow.set_updated_at now (JobRow.set_locked_until 0 (JobRow.set_locked_by ""
    (JobRow.set_run_at (toUnixNano at_) (JobRow.set_state StatePending
      (JobRow.set_last_error msg (JobRow.set_attempt (JobRow.attempt r + 1) r))))))) =
  Spec.retry_job msg at_ (row_job r).
Proof.
  intros Ha Hat. unfold row_job, Spec.retry_job. cbn. by rewrite time_roundtrip, (wrap64_id (JobRow.attempt r)).
Qed.

Lemma Fail_yields s k msg at_ :
  sql_wf s → time_ok at_ →
  yields (Fail k msg at_) s infra (λ e sp, (e, sp) = Spec.fail k msg at_ (sql_abs s)).
Proof.
  intros Hwf Hat. sql_start Hwf. unfold Fail, job_in. sql_run Hwf.
  rewrite job_row_at by done. cbn.
  unfold row_at, Spec.fail, Spec.done_with, Spec.refuse. cbn. rewrite lookup_fmap.
  destruct (jobs t !! k) as [r|] eqn:Hr; cbn; [|sql_done Hwf; by destruct t].
  destruct (row_ok_at Hok Hr) as [(Hpr & Hs & Hrun) Hid]. rewrite wrap8_id by done.
  destruct (JobRow.state r =? StateClaimed) eqn:Hc; cbn; [|sql_done Hwf; by destruct t].
  destruct (int64b (JobRow.attempt r)) eqn:Hi; cbn.
  2:{ sql_error Hwf. eapply (row_unhealthy _ k r); [done|].
      unfold job_ints. cbn. rewrite Hi. by rewrite ?andb_false_r. }
  destruct (int64b (JobRow.max_attempts r)) eqn:Hm; cbn.
  2:{ sql_error Hwf. eapply (row_unhealthy _ k r); [done|].
      unfold job_ints. cbn. rewrite Hm. by rewrite ?andb_false_r. }
  apply int64b_spec in Hi. unfold Spec.exhausted. cbn. rewrite (wrap64_id (JobRow.attempt r)) by done.
  destruct (_ && _) eqn:He; cbn; sql_run Hwf.
  - unfold delete_jobs, job_is. rewrite delete_by_key by apply Hok. unfold row_at. cbn. rewrite Hr.
    sql_done Hwf; [by apply schema_ok_delete|]. unfold sql_abs. cbn. by rewrite fmap_delete.
  - unfold failRetrySQL, job_in. rewrite update_by_key by apply Hok. unfold row_at. cbn.
    rewrite Hr, Hc. sql_done Hwf.
    + apply schema_ok_insert; [done| |done]. split; [done|]. split; [done|]. by apply toUnixNano_nonneg.
    + unfold sql_abs, Spec.set_jobs. cbn. by rewrite fmap_insert, retry_row_job.
Qed.

Lemma RecoverStale_yields s now :
  sql_wf s → time_ok now →
  yields (RecoverStale now) s (λ r, r.1 = 0 ∧ infra r.2) (λ r sp, r.2 = None ∧
    Spec.recovered (Spec.jobs (sql_abs s)) (Spec.jobs sp) r.1 ∧
    Spec.recurring sp = Spec.recurring (sql_abs s)).
Proof.
  intros Hwf Hnow. sql_start Hwf. unfold RecoverStale, recoverStaleSQL. sql_run Hwf.
  sql_done Hwf.
  - apply schema_ok_update; [done|done|]. intros r (? & ? & ?). by split.
  - split; [done|]. split; [|done]. apply (update_recovered row_job).
    + intros r Hr. unfold stale in Hr. breflect. cbn. by rewrite H.
    + done.
Qed.

Lemma QueueSize_yields s q :
  sql_wf s →
  yields (QueueSize q) s (λ r, r.1 = 0 ∧ infra r.2)
    (λ r sp, r = (Spec.queue_size q (sql_abs s), None) ∧ sp = sql_abs s).
Proof.
  intros Hwf. sql_start Hwf. unfold QueueSize, queueSizeSQL. sql_run Hwf.
  sql_done Hwf; [done|]. split; [|done]. f_equal. apply count_queue_size. intros k r Hr.
  destruct (row_ok_at Hok Hr) as [(_ & Hs & _) _]. unfold Spec.pending_in. cbn. by rewrite wrap8_id.
Qed.

(** *** [ClaimDue] *)

Definition claim_row (w : string) (u now : Z) (r : JobRow.t) : JobRow.t :=
  JobRow.set_updated_at now (JobRow.set_locked_until u (JobRow.set_locked_by w
    (JobRow.set_state StateClaimed r))).

Lemma claim_row_job w u now r :
  time_ok u → row_job (claim_row w (toUnixNano u) now r) = Spec.claim_job w u (row_job r).
Proof. intros Hu. unfold row_job, Spec.claim_job. cbn. by rewrite time_roundtrip. Qed.

(** The loop of updates: all of them, or an error. *)
Lemma claim_updates_run w u now js s :
  (∃ msg s', claim_updates w u now js s = Some (inl msg, s') ∧ tx s' = tx s ∧
     faults s' = faults s ∧ (@scan _ s' = @scan _ s) ∧ ∃ n, faults s n = Some msg) ∨
  (∃ s', claim_updates w u now js s = Some (inr (claimed w u now <$> js), s') ∧ tx s' = tx s ∧
     faults s' = faults s ∧ (@scan _ s' = @scan _ s) ∧
     tables s' = set_jobs (update_each (claim_row w (toUnixNano u) (toUnixNano now)) (Job.ID <$> js)
                             (jobs (tables s))) (tables s)).
Proof.
  revert s. induction js as [|j js IH]; intros s.
  - right. exists s. repeat (split; [done|]). by destruct s as [[]].
  - cbn. unfold gbind, stmt. destruct (faults s (calls s)) as [msg|] eqn:Hf.
    + left. do 2 eexists. split; [reflexivity|]. repeat (split; [done|]). by exists (calls s).
    + cbn. set (s1 := set_tables _ _ _).
      destruct (IH s1) as [(msg & s' & -> & Ht & Hfs & Hs & Hm)|(s' & -> & Ht & Hfs & Hs & Htab)].
      * left. by exists msg, s'.
      * right. exists s'. repeat (split; [done|]). by rewrite Htab.
Qed.

Lemma scan_jobs_view rows out :
  mapM scanJob rows = Some out →
  Spec.job_view <$> out = row_job <$> rows ∧ Job.ID <$> out = JobRow.id <$> rows.
Proof.
  intros H%mapM_Some. induction H as [|r j rows out Hr H [IH1 IH2]]; [done|].
  apply scanJob_view in Hr as [Hv _]. cbn. rewrite Hv, IH1, IH2.
  assert (Job.ID j = JobRow.id r) as -> by exact (f_equal Job.ID Hv). done.
Qed.

Lemma ClaimDue_yields s q now n w u :
  sql_wf s → time_ok now → time_ok u → 0 ≤ n →
  yields (ClaimDue q now n w u) s (λ r, r.1 = [] ∧ infra r.2)
    (λ r sp, ∃ js, r.2 = None ∧ Spec.claim_ok q now n (Spec.jobs (sql_abs s)) js ∧
       Spec.claim_complete q now n (Spec.jobs (sql_abs s)) js ∧
       Spec.job_view <$> r.1 = Spec.claim_job w u <$> js ∧
       sp = Spec.set_jobs (Spec.claim_all w u js (Spec.jobs (sql_abs s))) (sql_abs s)).
Proof.
  intros Hwf Hnow Hu Hn. sql_start Hwf. unfold ClaimDue. sql_run Hwf.
  unfold claimSelectSQL. cbn.
  set (rows := select_where (sc JobRow.t) (claim_where q (toUnixNano now)) claim_order n (jobs t)).
  assert (Hrows : Forall (λ r, jobs t !! JobRow.id r = Some r) rows).
  { apply Forall_forall. intros r Hr.
    apply (selected_elem _ _ (Hscan _)) in Hr as (k & Hk & _). by rewrite (ok_keyed Hok k r Hk). }
  destruct (mapM scanJob rows) as [out|] eqn:Hout; cbn.
  2:{ sql_error Hwf. apply mapM_None, Exists_exists in Hout as (r & Hr & Hs).
      rewrite Forall_forall in Hrows. eapply row_unhealthy; [exact (Hrows r Hr)|by apply scanJob_none]. }
  sql_step; [sql_fault Hwf|].
  match goal with |- context [claim_updates _ _ _ _ ?s1] =>
    destruct (claim_updates_run w u now out s1)
      as [(msg & [t1 tx1 F1 c1 clk1 rd1 sn1 sc1] & -> & Ht & Hf & Hsc & k & Hk)
         |([t1 tx1 F1 c1 clk1 rd1 sn1 sc1] & -> & Ht & Hf & Hsc & Htab)] end; cbn in *; subst.
  { sql_error Hwf. by eapply fault_unhealthy. }
  cbn. sql_step; [sql_fault Hwf|].
  destruct (scan_jobs_view rows out Hout) as [Hview Hids]. rewrite Hids.
  do 2 eexists. split; [reflexivity|]. split.
  - refine (wf_tables _ _ _ _ _ _ _ _ _ _ _ _ _ Hwf _). apply schema_ok_each; [done|done|].
    intros r (? & ? & ?). by split.
  - right. exists (row_job <$> rows). unfold sql_abs. cbn.
    destruct (selected_claim_ok row_job row_job_id (sc _) claim_order
      (claim_where q (toUnixNano now)) (jobs t) q now n) as [H1 H2]; [apply Hscan|apply Hok|done| | |].
    + intros k r Hr. apply claim_where_eligible; [|done]. exact (proj1 (row_ok_at Hok Hr)).
    + intros k k' r r' Hr Hr'. apply claim_order_less; [exact (proj1 (row_ok_at Hok Hr))|exact (proj1 (row_ok_at Hok Hr'))].
    + split; [done|]. split; [exact H1|]. split; [exact H2|]. split.
      * rewrite <- Hview, <- !list_fmap_compose. done.
      * unfold Spec.set_jobs, Spec.claim_all. cbn. f_equal.
        apply (update_each_dec row_job row_job_id); [apply Hok|done| |by apply selected_ids_nodup, Hok|done].
        intros r. by apply claim_row_job.
Qed.

(** *** Schedules *)

Lemma UpsertRecurring_yields s r :
  sql_wf s → sql_ok_spec r →
  yields (UpsertRecurring r) s infra (λ e sp, (e, sp) = Spec.upsert_recurring r (sql_abs s)).
Proof.
  intros Hwf Hr. sql_start Hwf. unfold UpsertRecurring, upsertRecurringSQL. sql_run Hwf.
  sql_done Hwf; unfold upsert; cbn.
  - eapply schema_ok_recurring; [exact Hok|]. apply keyed_insert; [apply Hok|].
    by destruct (recurring t !! RecurringSpec.ID r).
  - unfold sql_abs, Spec.upsert_recurring, Spec.done_with, Spec.set_recurring. cbn.
    rewrite fmap_insert. do 4 f_equal. rewrite <- recurring_row_spec by done.
    by destruct (recurring t !! RecurringSpec.ID r).
Qed.

Lemma DeleteRecurring_yields s k :
  sql_wf s →
  yields (DeleteRecurring k) s infra (λ e sp, (e, sp) = Spec.delete_recurring k (sql_abs s)).
Proof.
  intros Hwf. sql_start Hwf. unfold DeleteRecurring, rec_is. sql_run Hwf.
  rewrite delete_by_key by apply Hok. unfold row_at, Spec.delete_recurring, Spec.done_with.
  sql_done Hwf; cbn.
  - eapply schema_ok_recurring; [exact Hok|]. destruct (recurring t !! k); [apply keyed_delete|]; apply Hok.
  - unfold sql_abs, Spec.set_recurring. cbn. do 2 f_equal. destruct (recurring t !! k) as [r|] eqn:Hr.
    + by rewrite fmap_delete.
    + rewrite delete_id; [done|]. by rewrite lookup_fmap, Hr.
Qed.

Lemma UpdateRecurringNextRun_yields s k next last :
  sql_wf s → time_ok next → time_ok last →
  yields (UpdateRecurringNextRun k next last) s infra
    (λ e sp, (e, sp) = Spec.update_next_run k next last (sql_abs s)).
Proof.
  intros Hwf Hn Hl. sql_start Hwf.
  unfold UpdateRecurringNextRun, updateRecurringNextRunSQL, rec_is. sql_run Hwf.
  rewrite update_by_key by apply Hok. unfold row_at, Spec.update_next_run, Spec.done_with.
  sql_done Hwf; cbn.
  - eapply schema_ok_recurring; [exact Hok|]. destruct (recurring t !! k) as [r|] eqn:Hr; [|apply Hok].
    apply keyed_insert; [apply Hok|]. exact (ok_rec_keyed Hok k r Hr).
  - unfold sql_abs, Spec.set_recurring. cbn. do 2 f_equal. apply map_eq. intros k'.
    rewrite lookup_fmap. destruct (decide (k' = k)) as [->|Hne].
    + rewrite lookup_alter_eq, lookup_fmap. destruct (recurring t !! k) as [r|] eqn:Hr.
      * rewrite lookup_insert_eq. cbn. unfold row_spec, RecurringSpec.set_LastFireAt,
          RecurringSpec.set_NextRunAt. cbn. by rewrite !time_roundtrip.
      * by rewrite Hr.
    + rewrite lookup_alter_ne, lookup_fmap by done.
      destruct (recurring t !! k); by rewrite ?lookup_insert_ne.
Qed.

Lemma ListRecurring_yields s :
  sql_wf s →
  ∃ out e s', ListRecurring s = Some ((out, e), s') ∧ sql_wf s' ∧ sql_abs s' = sql_abs s ∧
    ((infra e ∧ ¬ healthy s) ∨
     (e = None ∧ Spec.rec_view <$> out ≡ₚ (map_to_list (Spec.recurring (sql_abs s))).*2)).
Proof.
  intros Hwf. sql_start Hwf. unfold ListRecurring, query, stmt, gbind, gret, called, set_tables. cbn.
  assert (Hwf' : ∀ c', sql_wf (db t F c' clk rd sn sc)) by (intros; split; apply Hwf).
  destruct (F c) eqn:Hf; cbn.
  { do 3 eexists. split; [reflexivity|]. split; [apply Hwf'|]. split; [done|]. left.
    split; [by eexists|by eapply fault_unhealthy]. }
  destruct (mapM scanRecurring (sc _ (recurring t))) as [out|] eqn:Hout; cbn.
  2:{ do 3 eexists. split; [reflexivity|]. split; [apply Hwf'|]. split; [done|]. left.
      split; [by eexists|]. intros [_ [_ Hrecs]].
      apply mapM_None, Exists_exists in Hout as (r & Hr & Hs). apply scanRecurring_none in Hs.
      rewrite (Hscan _ (recurring t)), elem_of_values in Hr. destruct Hr as [k Hr].
      specialize (Hrecs k r Hr). simpl in Hrecs. congruence. }
  destruct (F (S c)) eqn:Hf'; cbn; do 3 eexists; (split; [reflexivity|]); (split; [apply Hwf'|]);
    (split; [done|]); [left; split; [by eexists|by eapply fault_unhealthy]|right].
  split; [done|]. unfold sql_abs. cbn. rewrite (values_fmap row_spec (recurring t)), <- (Hscan _ (recurring t)).
  apply mapM_Some in Hout. apply reflexive_eq.
  induction Hout as [|r x rows out Hx _ IH]; [done|]. cbn. by rewrite IH, (scanRecurring_view r x Hx).
Qed.

(** The lease: granted on a schedule that is free, expired or ours already,
    and on one that does not exist; taken rows carry the new lease. *)
Lemma AcquireRecurringLease_run s k u w :
  sql_wf s →
  ∃ b e s', AcquireRecurringLease k u w s = Some ((b, e), s') ∧ sql_wf s' ∧ sql_abs s' = sql_abs s ∧
    ((infra e ∧ b = false ∧ tables s' = tables s ∧ ¬ healthy s) ∨
     (e = None ∧
      let now := toUnixNano (clock s (reads s)) in
      match recurring (tables s) !! k with
      | None => b = true ∧ tables s' = tables s
      | Some r =>
          b = leasable now w r ∧
          recurring (tables s') !! k =
            Some (if b then RecRow.set_leased_by w (RecRow.set_lease_until (toUnixNano u) r) else r)
      end)).
Proof.
  intros Hwf. sql_start Hwf.
  unfold AcquireRecurringLease, acquireLeaseSQL, query, stmt, time_Now, gbind, gret, called, set_tables. cbn.
  set (now := toUnixNano (clk rd)). destruct (F c) eqn:Hf; cbn.
  { do 3 eexists. split; [reflexivity|]. split; [exact (wf_tables _ _ _ _ _ _ _ _ _ _ _ _ _ Hwf Hok)|].
    split; [done|]. left. split; [by eexists|]. split; [done|]. split; [done|by eapply fault_unhealthy]. }
  rewrite count_by_key, update_by_key by apply Hok. unfold row_at.
  destruct (recurring t !! k) as [r|] eqn:Hr; cbn; [destruct (leasable now w r) eqn:Hl; cbn|].
  - do 3 eexists. split; [reflexivity|]. split.
    { refine (wf_tables _ _ _ _ _ _ _ _ _ _ _ _ _ Hwf _). eapply schema_ok_recurring; [exact Hok|].
      apply keyed_insert; [apply Hok|]. exact (ok_rec_keyed Hok k r Hr). }
    split; [|right; split; [done|]; split; [done|]; cbn; by rewrite lookup_insert_eq].
    unfold sql_abs. cbn. f_equal. apply map_eq. intros k'. rewrite !lookup_fmap.
    destruct (decide (k' = k)) as [->|Hne]; [by rewrite lookup_insert_eq, Hr|by rewrite lookup_insert_ne].
  - destruct (F (S c)) eqn:Hf'; cbn; do 3 eexists; (split; [reflexivity|]);
      (split; [refine (wf_tables _ _ _ _ _ _ _ _ _ _ _ _ _ Hwf _); by destruct t|]); (split; [done|]).
    + left. split; [by eexists|]. split; [done|]. split; [by destruct t|by eapply fault_unhealthy].
    + right. unfold rec_is. rewrite count_by_key by apply Hok. unfold row_at. by rewrite Hr.
  - destruct (F (S c)) eqn:Hf'; cbn; do 3 eexists; (split; [reflexivity|]);
      (split; [refine (wf_tables _ _ _ _ _ _ _ _ _ _ _ _ _ Hwf _); by destruct t|]); (split; [done|]).
    + left. split; [by eexists|]. split; [done|]. split; [by destruct t|by eapply fault_unhealthy].
    + right. unfold rec_is. rewrite count_by_key by apply Hok. unfold row_at. rewrite Hr. by destruct t.
Qed.

(** ** The promise *)

#[export] Instance sqlite_lawful : LawfulStore Store.
Proof.
  refine {| wf := sql_wf; abs := sql_abs; ok_job := sql_ok_job; ok_spec := sql_ok_spec;
            ok_time := time_ok |}.
  - intros s e. apply sql_with_faults.
  - intros s s'. apply sql_with_faults.
  - intros s k j [_ Hok] (r & <- & Hr)%lookup_fmap_Some. split; [|done]. cbn. by apply (ok_keyed Hok).
  - intros s j Hwf Hj. exact (yields_error _ _ _ (Save_yields s j Hwf Hj)).
  - intros s k Hwf. exact (yields_error _ _ _ (Ack_yields s k Hwf)).
  - intros s k msg t Hwf Ht. exact (yields_error _ _ _ (Fail_yields s k msg t Hwf Ht)).
  - intros s k Hwf. exact (yields_error _ _ _ (Cancel_yields s k Hwf)).
  - intros s k t Hwf Ht. exact (yields_error _ _ _ (Reschedule_yields s k t Hwf Ht)).
  - intros s q now n w u Hwf Hn%makeable_nonneg Hnow Hu.
    destruct (yields_law _ _ _ _ (ClaimDue_yields s q now n w u Hwf Hnow Hu Hn))
      as ([out e] & s' & Hrun & Hwf' & Hres). exists out, e, s'. split; [done|]. split; [done|].
    destruct Hres as [[[Ho [msg He]] Ha]|(js & He & H1 & _ & H3 & H4)]; [left|right]; cbn in *; eauto 8.
  - intros s w now Hwf. by exists None, s.
  - intros s now Hwf Hnow. destruct (yields_law _ _ _ _ (RecoverStale_yields s now Hwf Hnow))
      as ([n e] & s' & Hrun & Hwf' & Hres). exists n, e, s'. split; [done|]. split; [done|].
    destruct Hres as [[[Hn [msg He]] Ha]|H]; [left; cbn in *; eauto|right; exact H].
  - intros s r Hwf Hr. exact (yields_error _ _ _ (UpsertRecurring_yields s r Hwf Hr)).
  - intros s Hwf. destruct (ListRecurring_yields s Hwf) as (out & e & s' & Hr & Hwf' & Ha & He).
    exists out, e, s'. split; [done|]. split; [done|]. split; [done|].
    destruct He as [[He _]|He]; [by left|by right].
  - intros s k Hwf. exact (yields_error _ _ _ (DeleteRecurring_yields s k Hwf)).
  - intros s k u w Hwf _. destruct (AcquireRecurringLease_run s k u w Hwf) as (b & e & s' & Hr & Hwf' & Ha & _).
    by exists b, e, s'.
  - intros s k next last Hwf Hn Hl. exact (yields_error _ _ _ (UpdateRecurringNextRun_yields s k next last Hwf Hn Hl)).
  - intros s q Hwf. destruct (yields_law _ _ _ _ (QueueSize_yields s q Hwf))
      as ([n e] & s' & Hrun & Hwf' & Hres). exists n, e, s'. split; [done|]. split; [done|].
    destruct Hres as [[[Hn [msg He]] Ha]|[[= -> ->] Ha]]; (split; [done|]); [left; cbn in *; eauto|right; done].
Defined.
