(* ===== verification/SqliteProps.v ===== *)
(** What the SQLite store guarantees: refinement of the abstract store with
    every failure of the database rolled back, complete claims, faithful rows,
    and an exclusive lease. *)

From S2P Require Import Prelude ListLib Types StoreApi Sql SqlEngine SqlBackend SqlFacts Sqlite SqliteFacts.
From S2P Require World Recurring RecurringProps Conformance.
Local Open Scope Z_scope.

(** ** Leases between calls *)

(** The lease columns of a schedule. *)
Definition lease_of (k : string) (s : Store) : option (Z * string) :=
  (λ r, (RecRow.lease_until r, RecRow.leased_by r)) <$> recurring (tables s) !! k.

(** The calls of a method made of one statement. *)
Ltac sql_run_out :=
  unfold stmt, gbind, gret, called, set_tables; cbn;
  match goal with |- context [match ?F ?n with Some _ => _ | None => _ end] => destruct (F n) end; cbn.

(** The schedules are [R], in the open transaction too. *)
Definition schedules (R : gmap string (RecRow.t Z)) (s : Store) : Prop :=
  recurring (tables s) = R ∧ from_option (λ t, recurring t = R) True (tx s).

(** [m] leaves the schedules alone, and reads the clock forwards. *)
Definition spares {A} (m : GoM Store A) : Prop := ∀ s a s',
  m s = Some (a, s') → ∀ R, schedules R s →
  schedules R s' ∧ clock s' = clock s ∧ (reads s ≤ reads s')%nat.

Lemma spares_ret {A} (a : A) : spares (gret a).
Proof. by intros s b s' [= <- <-]. Qed.
Lemma spares_bind {A B} (m : GoM Store A) (k : A → GoM Store B) :
  spares m → (∀ a, spares (k a)) → spares (gbind m k).
Proof.
  intros Hm Hk s b s'. unfold gbind. destruct (m s) as [[a s1]|] eqn:Hr; [|done]. intros Hr' R HR.
  destruct (Hm s a s1 Hr R HR) as (HR1 & Hc1 & Hn1). destruct (Hk a s1 b s' Hr' R HR1) as (? & ? & ?).
  split; [done|]. split; [congruence|lia].
Qed.
Lemma spares_stmt {A} (f : Store → A * Tables) :
  (∀ s, recurring (f s).2 = recurring (tables s)) → spares (stmt f).
Proof.
  intros Hf s a s'. unfold stmt. destruct (faults s (calls s)); intros [= <- <-] R [Ht Hx]; [done|].
  split; [|done]. split; [|done]. cbn. by rewrite Hf.
Qed.
Lemma spares_query {A} (f : Store → A) : spares (query f).
Proof. by apply spares_stmt. Qed.
Lemma spares_Begin : spares Begin.
Proof.
  intros s a s'. unfold Begin. destruct (faults s (calls s)); intros [= <- <-] R [Ht Hx]; [done|].
  split; [|done]. by split.
Qed.
Lemma spares_Commit : spares Commit.
Proof.
  intros s a s'. unfold Commit. destruct (faults s (calls s)); intros [= <- <-] R [Ht Hx].
  - destruct (tx s) eqn:Htx; (split; [|done]); split; cbn; by rewrite ?Htx.
  - split; [|done]. by split.
Qed.
Lemma spares_deferring {A} (m : GoM Store A) : spares m → spares (deferring_rollback m).
Proof.
  intros Hm. apply spares_bind; [done|]. intros a. apply spares_bind; [|intros _; apply spares_ret].
  intros s b s'. unfold Rollback. destruct (tx s) eqn:Htx; intros [= _ <-] R [Ht Hx]; rewrite Htx in Hx.
  - split; [|done]. by split.
  - split; [|done]. split; [done|]. by rewrite Htx.
Qed.
Lemma spares_time : spares time_Now.
Proof. intros s a s' [= _ <-] R HR. split; [exact HR|]. split; [done|]. cbn. lia. Qed.

Create HintDb spares.
#[local] Hint Resolve spares_ret spares_query spares_Begin spares_Commit spares_time : spares.

Ltac spare := repeat first
  [ progress eauto with spares
  | apply spares_deferring
  | apply spares_stmt; by intros
  | apply spares_bind; [|intros ?]
  | case_match ].

Lemma spares_claim_updates w u now js : spares (claim_updates w u now js).
Proof. induction js as [|j js IH]; cbn; spare. Qed.
#[local] Hint Resolve spares_claim_updates : spares.

(** Every call does, but for the three methods on a schedule and the lease. *)
Lemma op_spares o :
  match o with
  | OMethod (MUpsertRecurring _ | MDeleteRecurring _ | MUpdateRecurringNextRun _ _ _) | OLease _ _ _ => True
  | _ => spares (run_op o)
  end.
Proof.
  destruct o as [[]| | | | | |]; try done; cbn; unfold Save, Ack, Fail, Cancel, Reschedule, ClaimDue,
    Heartbeat, RecoverStale, ListRecurring, QueueSize; spare.
Qed.

(** Calls that leave the lease [w] holds alone while it lasts: all but a deletion
    of the schedule, and a request of [w]'s own. *)
Definition not_dropped (k w : string) (o : op) : Prop :=
  match o with
  | OMethod (MDeleteRecurring k') => k' ≠ k
  | OLease k' _ w' => k' = k → w' ≠ w
  | _ => True
  end.

(** From [s] to [s'] the lease [w] has until [u] is kept, if every reading of the
    clock on the way is up to [u]. *)
Definition lease_kept (k w : string) (u : Z) (s s' : Store) : Prop :=
  clock s' = clock s ∧ (reads s ≤ reads s')%nat ∧
  (lease_of k s = Some (u, w) →
   (∀ i, (reads s ≤ i < reads s')%nat → toUnixNano (clock s i) ≤ u) → lease_of k s' = Some (u, w)).

Lemma lease_kept_trans k w u s1 s2 s3 :
  lease_kept k w u s1 s2 → lease_kept k w u s2 s3 → lease_kept k w u s1 s3.
Proof.
  intros (Hc & Hr & Hl) (Hc' & Hr' & Hl'). split; [congruence|]. split; [lia|]. intros Hk Hnow.
  apply Hl'; [apply Hl; [done|]|]; intros i Hi; [|rewrite Hc]; apply Hnow; lia.
Qed.

(** A row that is not granted is as it was. *)
Lemma lease_refused k w u k' w' now (f : RecRow.t Z → RecRow.t Z) (m : gmap string (RecRow.t Z)) :
  keyed RecRow.id m → u ≠ 0 → now ≤ u → (k' = k → w' ≠ w) →
  (λ r, (RecRow.lease_until r, RecRow.leased_by r)) <$> m !! k = Some (u, w) →
  (λ r, (RecRow.lease_until r, RecRow.leased_by r)) <$>
    update_where (by_key RecRow.id k' (leasable now w')) f m !! k = Some (u, w).
Proof.
  intros Hkey Hu Hnow Hw Hk. rewrite update_where_lookup. destruct (m !! k) as [r|] eqn:Hr; [|done].
  cbn in Hk |- *. assert (by_key RecRow.id k' (leasable now w') r = false) as ->; [|done].
  injection Hk as Hu' Hw'. unfold by_key. rewrite (Hkey k r Hr). case_bool_decide as Hkk; [|done]. cbn.
  unfold leasable. rewrite Hu', Hw', (proj2 (Z.eqb_neq _ _) Hu), (proj2 (Z.ltb_ge _ _)) by done.
  apply bool_decide_eq_false_2. intros Heq. by apply Hw.
Qed.

Lemma op_keeps_lease o (s s' : Store) k w u :
  sql_wf s → not_dropped k w o → u ≠ 0 → run_op o s = Some (tt, s') → lease_kept k w u s s'.
Proof.
  intros Hwf Ho Hu. pose proof (ok_rec_keyed (proj2 Hwf)) as Hkey.
  assert (Hspare : spares (run_op o) → run_op o s = Some (tt, s') → lease_kept k w u s s').
  { intros Hm Hr. destruct (Hm s tt s' Hr (recurring (tables s))) as ([Ht _] & ? & ?).
    - split; [done|]. by rewrite (proj1 (proj1 Hwf)).
    - split_and!; [done..|]. unfold lease_of. by rewrite Ht. }
  pose proof (op_spares o) as Hop.
  destruct o as [[]| | | | |k' u' w'|]; try (by apply Hspare); clear Hspare Hop;
    unfold lease_kept, lease_of; destruct s as [t o' F n clk rd sn sc]; assert (o' = None) as -> by apply Hwf;
    cbn in Hkey, Ho |- *.
  - unfold UpsertRecurring, upsertRecurringSQL, upsert. sql_run_out; intros [= <-]; cbn; [done|].
    split_and!; [done..|]. intros Hk _. destruct (decide (k = RecurringSpec.ID r)) as [->|Hne];
      [|by rewrite lookup_insert_ne].
    rewrite lookup_insert_eq. by destruct (recurring t !! RecurringSpec.ID r).
  - unfold DeleteRecurring, rec_is. sql_run_out; intros [= <-]; cbn; [done|]. split_and!; [done..|].
    rewrite delete_by_key by done. case_match; [|done]. by rewrite lookup_delete_ne.
  - unfold UpdateRecurringNextRun, updateRecurringNextRunSQL. sql_run_out; intros [= <-]; cbn; [done|].
    split_and!; [done..|]. rewrite update_where_lookup. destruct (recurring t !! k) as [r|]; [|done]. cbn.
    by destruct (rec_is id r).
  - unfold AcquireRecurringLease, acquireLeaseSQL, query, stmt, time_Now, gbind, gret, called, set_tables. cbn.
    destruct (F n); cbn; [intros [= <-]; cbn; auto|].
    repeat (case_match; simplify_eq/=); intros [= <-]; cbn; (split; [done|]); (split; [lia|]); intros Hk Hnow;
      apply (lease_refused k w u); auto; apply Hnow; lia.
Qed.

Lemma ops_keep_lease os k w u : u ≠ 0 → ∀ s : Store,
  sql_wf s → Forall ok_op os → Forall (not_dropped k w) os →
  ∃ s', run_ops os s = Some (tt, s') ∧ sql_wf s' ∧ lease_kept k w u s s'.
Proof.
  intros Hu. induction os as [|o os IH]; intros s Hwf Hok Hos.
  - exists s. by split_and!.
  - apply Forall_cons in Hok as [Hoko Hok], Hos as [Ho Hos].
    destruct (law_op (LawfulStore0 := sqlite_lawful) o s Hwf Hoko) as (s1 & Hrun & Hwf1).
    destruct (IH s1 Hwf1 Hok Hos) as (s' & Hrun' & Hwf' & Hkept). exists s'. split.
    + change (run_ops (o :: os) s) with (gbind (run_op o) (λ _, run_ops os) s). unfold gbind. by rewrite Hrun.
    + split; [done|]. eapply lease_kept_trans; [|exact Hkept]. by eapply op_keeps_lease.
Qed.

(** What [Save] stores. *)
Lemma run_as_stored c s : run_method (as_stored c) s = run_method c s.
Proof.
  destruct c as [j| | | | | | |]; try done. cbn. unfold Save.
  assert (save_row (stored_job j) = save_row j) as ->; [|done].
  unfold save_row, stored_job. cbn. by destruct (Job.MaxAttempts j =? 0) eqn:Hm; rewrite ?Hm.
Qed.

Lemma method_yields c s :
  sql_wf s → ok_method c →
  yields (run_method c) s infra (λ e sp, (e, sp) = spec_method c (sql_abs s)).
Proof.
  intros Hwf Hc. destruct c; cbn in *.
  - by apply Save_yields.
  - by apply Ack_yields.
  - by apply Fail_yields.
  - by apply Cancel_yields.
  - by apply Reschedule_yields.
  - by apply UpsertRecurring_yields.
  - by apply DeleteRecurring_yields.
  - by apply UpdateRecurringNextRun_yields; try apply Hc.
Qed.

Lemma lease_of_row k s r :
  recurring (tables s) !! k = Some r → lease_of k s = Some (RecRow.lease_until r, RecRow.leased_by r).
Proof. intros Hr. unfold lease_of. by rewrite Hr. Qed.

(** ** A database for the witnesses *)

Definition demo_db (fails : nat → option string) (clk : nat → Z) : Store :=
  mkEngine (mkTables ∅ ∅) None fails 0 clk 0 (λ _, 0) demo_scan.

Lemma demo_db_wf fails clk : sql_wf (demo_db fails clk).
Proof.
  split; [split; [done|by intros Row m]|]. split; [| |apply map_Forall_empty]; intros k r Hr; cbn in Hr;
    by rewrite lookup_empty in Hr.
Qed.

Definition demo_queue : list method :=
  [MSave (demo_row_job "later" PriorityHigh 1000); MSave (demo_row_job "now" PriorityLow 1);
   MUpsertRecurring (demo_spec "r")].

Lemma demo_queue_ok : Forall ok_method demo_queue.
Proof.
  assert (Ht : ∀ t, 0 < t ≤ 1000 → time_ok t) by (intros t Ht; right; int64_lia).
  assert (Hz : time_ok Time.zero) by (by left).
  repeat constructor; cbn; try (by apply Ht); try done; int64_lia.
Qed.

(** Empty databases pass the conformance suite. *)
Example sqlite_conforms :
  forallb (λ t, match t.2 (λ n, 10 ^ 18 + Z.of_nat n) (demo_db no_faults (λ n, 10 ^ 18 + Z.of_nat n)) with
                | Some (true, _) => true
                | _ => false
                end) Conformance.Run = true.
Proof. vm_compute. reflexivity. Qed.

(** Two runners have listed a schedule that is due; the second comes to it when
    the lease of the first, which ends at 200, has ended by the store's clock or
    not. *)
Definition demo_refired (clk : nat → Z) : option (list (string * Z)) :=
  match Recurring.run_spec RecurringProps.demo_parse RecurringProps.demo_uuid Background 5
          (Recurring.mkRunner "a" 100) 100 (demo_spec "r")
          (World.mkWorld (after [MUpsertRecurring (demo_spec "r")] (demo_db no_faults clk))
             tt [] 0 0) with
  | Some (_, w1) =>
      match Recurring.run_spec RecurringProps.demo_parse RecurringProps.demo_uuid Background 5
              (Recurring.mkRunner "b" 100) 110 (demo_spec "r") w1 with
      | Some (_, w2) =>
          Some ((λ kr, (kr.1, JobRow.run_at kr.2)) <$> map_to_list (jobs (tables (World.w_store w2))))
      | None => None
      end
  | None => None
  end.

(** Once it has, the second is granted the lease and fires the instant again. *)
Example sqlite_refires :
  demo_refired (λ n, 150 + 100 * Z.of_nat n) = Some [("u", 50); ("xu", 50)] ∧
  demo_refired (λ n, 150 + Z.of_nat n) = Some [("u", 50)].
Proof. by vm_compute. Qed.

(** ** Properties *)

(** C17: with the values its columns represent (the zero time or one after the epoch,
    a priority and a state of eight bits, attempts of 64), [Save], [Ack], [Fail],
    [Cancel], [Reschedule] and the methods on schedules answer and change the
    contents exactly as the abstract store does, [Save] taking three attempts for
    a [MaxAttempts] of zero; or, which on a healthy database does not happen,
    the method reports an infrastructure error and the contents are as before, the
    statements that ran before it in the transaction included. *)
Theorem sqlite_refines (c : method) (s : Store) :
  sql_wf s → ok_method (as_stored c) →
  ∃ e s', run_method c s = Some (e, s') ∧ sql_wf s' ∧
    ((e, sql_abs s') = spec_method (as_stored c) (sql_abs s) ∨
     ((∃ msg, e = Some (ErrOther msg)) ∧ sql_abs s' = sql_abs s ∧ ¬ healthy s)).
Proof.
  intros Hwf Hc. destruct (method_yields (as_stored c) s Hwf Hc) as (e & s' & Hrun & Hwf' & Hres).
  exists e, s'. rewrite run_as_stored in Hrun. split; [done|]. split; [done|].
  destruct Hres as [(He & Ha & Hh)|Hres]; [right|by left]. by split.
Qed.

(** C18: [ClaimDue] takes pending, due jobs of the queue, the best [n] in claim
    order, and fewer than [n] only when no due job is left; it returns what it
    wrote. When the database fails it returns no job and none is claimed. *)
Theorem sqlite_claim_complete (s : Store) (q : string) (now n : Z) (w : string) (u : Z) :
  sql_wf s → time_ok now → time_ok u → 0 ≤ n →
  ∃ out e s', ClaimDue q now n w u s = Some ((out, e), s') ∧ sql_wf s' ∧
    ((e = None ∧ ∃ js, Spec.claim_ok q now n (Spec.jobs (sql_abs s)) js ∧
        Spec.claim_complete q now n (Spec.jobs (sql_abs s)) js ∧
        Spec.job_view <$> out = Spec.claim_job w u <$> js ∧
        sql_abs s' = Spec.set_jobs (Spec.claim_all w u js (Spec.jobs (sql_abs s))) (sql_abs s)) ∨
     (out = [] ∧ (∃ msg, e = Some (ErrOther msg)) ∧ sql_abs s' = sql_abs s ∧ ¬ healthy s)).
Proof.
  intros Hwf Hnow Hu Hn.
  destruct (ClaimDue_yields s q now n w u Hwf Hnow Hu Hn) as ([out e] & s' & Hrun & Hwf' & Hres).
  exists out, e, s'. split; [done|]. split; [done|]. cbn in Hres.
  destruct Hres as [([Ho He] & Ha & Hh)|(js & He & Hres)]; [by right|]. left. split; [done|]. by exists js.
Qed.

(** a row holds the whole job: what [scanJob] reads from the row [Save]
    wrote is the job saved, field by field, but for the delivery mode and the
    catch-up flag, which have no column, and a [MaxAttempts] of zero, which
    becomes three. *)
Theorem sqlite_row_roundtrip (j : Job.t) :
  time_ok (Job.RunAt j) → time_ok (Job.LockedUntil j) → time_ok (Job.CreatedAt j) →
  time_ok (Job.UpdatedAt j) → 0 ≤ Job.Priority j < 256 → 0 ≤ Job.State j < 256 →
  in_int64 (Job.Attempt j) → in_int64 (Job.MaxAttempts j) → in_int64 (Job.Timeout j) →
  ∃ j', scanJob (save_row j) = Some j' ∧
    j' = Job.set_catchup false (Job.set_MaxAttempts
           (if Job.MaxAttempts j =? 0 then 3 else Job.MaxAttempts j)
           {| Job.ID := Job.ID j; Job.Name := Job.Name j; Job.Queue := Job.Queue j;
              Job.Priority := Job.Priority j; Job.Payload := Job.Payload j;
              Job.CodecName := Job.CodecName j; Job.RunAt := Job.RunAt j;
              Job.Attempt := Job.Attempt j; Job.MaxAttempts := Job.MaxAttempts j;
              Job.State := Job.State j; Job.Delivery := 0; Job.Timeout := Job.Timeout j;
              Job.LockedBy := Job.LockedBy j; Job.LockedUntil := Job.LockedUntil j;
              Job.LastError := Job.LastError j; Job.RecurringID := Job.RecurringID j;
              Job.CreatedAt := Job.CreatedAt j; Job.UpdatedAt := Job.UpdatedAt j;
              Job.catchup := Job.catchup j |}).
Proof.
  intros Hr Hl Hc Hu Hp Hs Ha Hm Ht. unfold scanJob.
  assert (Hi : job_ints (save_row j) = true).
  { assert (Htime : ∀ t, time_ok t → int64b (toUnixNano t) = true).
    { intros t Hok. apply int64b_spec. destruct (decide (t = Time.zero)) as [->|Hne]; [done|].
      rewrite toUnixNano_pos by done. destruct Hok; [done|int64_lia]. }
    unfold job_ints. cbn. rewrite !Htime by done.
    assert (Hst : (if Job.State j =? 0 then StatePending else Job.State j) = Job.State j).
    { by destruct (Z.eqb_spec (Job.State j) 0) as [->|]. }
    rewrite Hst. rewrite !(proj2 (int64b_spec _)) by (try destruct (Job.MaxAttempts j =? 0); done || int64_lia).
    done. }
  fold (job_ints (save_row j)). rewrite Hi. eexists. split; [reflexivity|]. cbn.
  rewrite !time_roundtrip, (wrap8_id (Job.Priority j)) by done. unfold Job.set_catchup, Job.set_MaxAttempts. cbn.
  f_equal. destruct (Z.eqb_spec (Job.State j) 0) as [->|]; [done|by apply wrap8_id].
Qed.

(** C19: the lease of a schedule is exclusive: once a worker has it until some
    time, whatever calls come in between (jobs saved, claimed, recovered, and
    ended, schedules changed, leases requested by other workers), short of a
    deletion of this schedule and another request of the holder's own, no other
    worker gets it while the clock reads up to that time, and the row still
    names the holder. After that time another worker does get it, on a healthy
    database, if none has come before. *)
Theorem sqlite_lease_exclusive (s s1 : Store) (k w1 w2 : string) (u1 u2 : Z) (ops : list op) :
  sql_wf s → is_Some (recurring (tables s) !! k) → w1 ≠ w2 → time_ok u1 → u1 ≠ Time.zero →
  Forall ok_op ops → Forall (not_dropped k w1) ops →
  AcquireRecurringLease k u1 w1 s = Some ((true, None), s1) →
  ∃ s2 b e s3, run_ops ops s1 = Some (tt, s2) ∧
    AcquireRecurringLease k u2 w2 s2 = Some ((b, e), s3) ∧
    ((∀ i, (reads s1 ≤ i ≤ reads s2)%nat → toUnixNano (clock s1 i) ≤ u1) →
       b = false ∧ lease_of k s3 = Some (u1, w1)) ∧
    (lease_of k s2 = Some (u1, w1) → u1 < toUnixNano (clock s1 (reads s2)) → healthy s2 →
       b = true ∧ lease_of k s3 = Some (toUnixNano u2, w2)).
Proof.
  intros Hwf [r Hr] Hw Hu Hu0 Hok Hops Hacq. assert (Hz : u1 ≠ 0) by (destruct Hu; [done|lia]).
  destruct (AcquireRecurringLease_run s k u1 w1 Hwf) as (b1 & e1 & s1' & Hrun & Hwf1 & _ & Hres).
  rewrite Hacq in Hrun. injection Hrun as <- <- <-.
  destruct Hres as [(_ & [=] & _)|[_ Hres]]. rewrite Hr in Hres. destruct Hres as [_ Hrow].
  apply lease_of_row in Hrow as Hl1. cbn in Hl1. rewrite toUnixNano_pos in Hl1 by done.
  destruct (ops_keep_lease ops k w1 u1 Hz s1 Hwf1 Hok Hops) as (s2 & Hcs & Hwf2 & Hclk & Hle & Hkept).
  destruct (AcquireRecurringLease_run s2 k u2 w2 Hwf2) as (b & e & s3 & Hrun & _ & _ & Hres).
  exists s2, b, e, s3. split; [done|]. split; [done|]. rewrite Hclk in Hres. cbv zeta in Hres.
  set (now := toUnixNano (clock s1 (reads s2))) in *.
  assert (Hl : ∀ r2, recurring (tables s2) !! k = Some r2 → lease_of k s2 = Some (u1, w1) →
    leasable now w2 r2 = (u1 <? now) ∧ (RecRow.lease_until r2, RecRow.leased_by r2) = (u1, w1)).
  { intros r2 Hr2. rewrite (lease_of_row k s2 r2 Hr2). intros [= Hu2 Hw2]. split; [|congruence].
    unfold leasable. by rewrite Hu2, Hw2, (bool_decide_eq_false_2 (w1 = w2)), (proj2 (Z.eqb_neq u1 0)), orb_false_r by done. }
  destruct (recurring (tables s2) !! k) as [r2|] eqn:Hr2.
  2:{ split; [intros Hnow|]; unfold lease_of in *; rewrite Hr2 in *; [|done].
      discriminate Hkept; [done|]. intros i Hi. apply Hnow. lia. }
  specialize (Hl r2 eq_refl). split.
  - intros Hnow. destruct Hl as [Hlb Hlr]; [apply Hkept; [done|]; intros i Hi; apply Hnow; lia|].
    rewrite Hlb, (proj2 (Z.ltb_ge u1 now)) in Hres by (apply Hnow; lia).
    destruct Hres as [(_ & -> & Ht & _)|[_ [-> Hrow3]]]; split; try done.
    + rewrite (lease_of_row k s3 r2) by (by rewrite Ht). by rewrite Hlr.
    + rewrite (lease_of_row k s3 r2 Hrow3). by rewrite Hlr.
  - intros Hl2 Hnow Hh. destruct (Hl Hl2) as [Hlb _].
    rewrite Hlb, (proj2 (Z.ltb_lt u1 now)) in Hres by done.
    destruct Hres as [(_ & _ & _ & Hn)|[_ [-> Hrow3]]]; [done|]. split; [done|]. by apply lease_of_row in Hrow3.
Qed.

(** *** Witnesses *)

Definition demo_filled : Store := after demo_queue (demo_db no_faults (λ n, 100 + Z.of_nat n)).

Lemma demo_filled_wf : sql_wf demo_filled.
Proof. exact (after_wf demo_queue _ (demo_db_wf _ _) demo_queue_ok). Qed.

Lemma demo_time_ok t : 0 < t ≤ 1000 → time_ok t.
Proof. intros Ht. right. int64_lia. Qed.

(** The delete of a cancellation fails in the middle of its transaction. *)
Definition demo_failing : Store :=
  after demo_queue (demo_db (λ n, if (n =? 5)%nat then Some "disk I/O error" else None) (λ _, 100)).

Definition demo_unbounded : Job.t := Job.set_MaxAttempts 0 (demo_row_job "new" PriorityLow 1).

Lemma sqlite_refines_witness :
  (∃ e s', run_method (MSave demo_unbounded) demo_filled = Some (e, s') ∧ sql_wf s' ∧
    ((e, sql_abs s') = spec_method (MSave (stored_job demo_unbounded)) (sql_abs demo_filled) ∨
     ((∃ msg, e = Some (ErrOther msg)) ∧ sql_abs s' = sql_abs demo_filled ∧ ¬ healthy demo_filled))) ∧
  (λ r, (r.1, Job.MaxAttempts <$> Spec.jobs (sql_abs r.2) !! "new")) <$>
    run_method (MSave demo_unbounded) demo_filled = Some (None, Some 3) ∧
  (λ r, (r.1, Job.State <$> Spec.jobs (sql_abs r.2) !! "now")) <$> run_method (MCancel "now") demo_failing =
    Some (Some (ErrOther "sqlite cancel delete: disk I/O error"), Some StatePending).
Proof.
  split; [|split].
  - apply (sqlite_refines (MSave demo_unbounded) demo_filled); [apply demo_filled_wf|].
    split_and!; cbn; try (by apply demo_time_ok); try (by left); try done; int64_lia.
  - vm_compute. reflexivity.
  - vm_compute. reflexivity.
Defined.

Lemma sqlite_claim_complete_witness :
  (∃ out e s', ClaimDue "default" 500 10 "w" 900 demo_filled = Some ((out, e), s') ∧ sql_wf s' ∧
    ((e = None ∧ ∃ js, Spec.claim_ok "default" 500 10 (Spec.jobs (sql_abs demo_filled)) js ∧
        Spec.claim_complete "default" 500 10 (Spec.jobs (sql_abs demo_filled)) js ∧
        Spec.job_view <$> out = Spec.claim_job "w" 900 <$> js ∧
        sql_abs s' = Spec.set_jobs (Spec.claim_all "w" 900 js (Spec.jobs (sql_abs demo_filled)))
                                   (sql_abs demo_filled)) ∨
     (out = [] ∧ (∃ msg, e = Some (ErrOther msg)) ∧ sql_abs s' = sql_abs demo_filled ∧
      ¬ healthy demo_filled))) ∧
  (∃ out s', ClaimDue "default" 500 10 "w" 900 demo_filled = Some ((out, None), s') ∧
     Job.ID <$> out = ["now"]).
Proof.
  split.
  - apply (sqlite_claim_complete demo_filled "default" 500 10 "w" 900); [apply demo_filled_wf| | |lia];
      apply demo_time_ok; lia.
  - eexists _, _. split; vm_compute; reflexivity.
Defined.

Lemma sqlite_row_roundtrip_witness :
  ∃ j', scanJob (save_row (demo_row_job "j" PriorityHigh 40)) = Some j' ∧
    j' = demo_row_job "j" PriorityHigh 40.
Proof.
  apply (sqlite_row_roundtrip (demo_row_job "j" PriorityHigh 40)); cbn;
    try (by apply demo_time_ok); try (by left); try done; int64_lia.
Defined.

(** Between the two requests a job is claimed, stale ones are recovered, the schedule
    is saved again, and a third worker asks for the lease. *)
Definition demo_between : list op :=
  [OClaim "default" 500 10 "w3" 900; OMethod (MUpsertRecurring (demo_spec "r")); OLease "r" 400 "w3"; ORecover 600].

Lemma demo_between_ok : Forall ok_op demo_between.
Proof.
  assert (Ht : ∀ t, 0 < t ≤ 1000 → time_ok t) by apply demo_time_ok.
  repeat (apply Forall_cons; split); [..|by apply Forall_nil]; cbn.
  - split; [by apply (bool_decide_unpack _)|]. split; by apply Ht.
  - exact (Forall_inv (Forall_inv_tail (Forall_inv_tail demo_queue_ok))).
  - by apply Ht.
  - by apply Ht.
Qed.

Lemma sqlite_lease_exclusive_witness :
  ∃ s1 s2 b e s3, AcquireRecurringLease "r" 200 "w1" demo_filled = Some ((true, None), s1) ∧
    run_ops demo_between s1 = Some (tt, s2) ∧
    AcquireRecurringLease "r" 300 "w2" s2 = Some ((b, e), s3) ∧ b = false ∧
    lease_of "r" s3 = Some (200, "w1").
Proof.
  set (s1 := match AcquireRecurringLease "r" 200 "w1" demo_filled with Some (_, s) => s | None => demo_filled end).
  assert (Hacq : AcquireRecurringLease "r" 200 "w1" demo_filled = Some ((true, None), s1)) by (vm_compute; reflexivity).
  exists s1. destruct (sqlite_lease_exclusive demo_filled s1 "r" "w1" "w2" 200 300 demo_between)
    as (s2 & b & e & s3 & H1 & H2 & H3 & _).
  - apply demo_filled_wf.
  - vm_compute. by eexists.
  - done.
  - clear. by apply demo_time_ok.
  - clear. done.
  - apply demo_between_ok.
  - by repeat constructor.
  - exact Hacq.
  - exists s2, b, e, s3. split; [exact Hacq|]. split; [exact H1|]. split; [exact H2|].
    apply H3. assert (Hs2 : (reads s2 ≤ 20)%nat).
    { clear - H1. apply Nat.leb_le. vm_compute in H1. injection H1 as <-. vm_compute. reflexivity. }
    intros i [_ Hi]. clear - Hi Hs2. change (clock s1 i) with (100 + Z.of_nat i).
    pose proof zero_negative. rewrite toUnixNano_pos; [lia|right; int64_lia|lia].
Defined.
