(* ===== verification/SqliteDurable.v ===== *)
(** The SQLite store as one that several processes share: what a call has done
    to the rows if it returned, whatever values it was given and whatever
    failed on the way. *)

From S2P Require Import Prelude ListLib Types StoreApi Durable Sql SqlEngine SqlBackend SqlFacts SqlDurable.
From S2P Require Import Sqlite SqliteFacts SqliteProps.
Local Open Scope Z_scope.

(** Rows sit under their identifier, and no transaction is open. *)
Definition rows_wf (s : Store) : Prop := idle s ∧ keyed JobRow.id (jobs (tables s)).

Definition rows (s : Store) : gmap string Job.t := row_job <$> jobs (tables s).

(** [stale], of the job a row stands for. *)
Definition lock_over (now : Z) (v : Job.t) : bool :=
  (0 <? Job.LockedUntil v) && (Job.LockedUntil v <? toUnixNano now).

Lemma lock_over_row now r :
  stale (toUnixNano now) r = true →
  Job.State (row_job r) = StateClaimed ∧ lock_over now (row_job r) = true.
Proof.
  unfold stale, lock_over, fromUnixNano, Time.Unix0. intros Hs. breflect. cbn.
  split; [by rewrite H|]. unfold fromUnixNano, Time.Unix0.
  destruct (Z.eqb_spec (JobRow.locked_until r) 0) as [?|_]; [lia|].
  by rewrite (proj2 (Z.ltb_lt _ _) H1), (proj2 (Z.ltb_lt _ _) H0).
Qed.

Section frames.
Variables (t t' : Tables) (F : nat → option string) (n n' rd rd' : nat) (clk clk' sn sn' : nat → Z).
Variable sc : ∀ Row : Set, gmap string Row → list Row.

Lemma rows_wf_tables :
  rows_wf (db t F n clk rd sn sc) → keyed JobRow.id (jobs t') → rows_wf (db t' F n' clk' rd' sn' sc).
Proof. by intros [[_ Hs] _] Hk. Qed.
End frames.

(** Name the parts of a database with no open transaction. *)
Ltac rows_start Hwf :=
  match type of Hwf with
  | rows_wf ?s => destruct s as [t [?|] F n clk rd sn sc]; [by destruct Hwf as [[? _] _]|];
                 pose proof (proj2 Hwf) as Hkey; pose proof (proj2 (proj1 Hwf)) as Hscan; cbn in Hkey, Hscan
  end.

(** The tables are as they were. *)
Ltac rows_same Hwf := split_and!; [eapply rows_wf_tables; [exact Hwf|exact (proj2 Hwf)]|done..].

Lemma Save_rows s j e s' :
  rows_wf s → Save j s = Some (e, s') →
  rows_wf s' ∧ others (Job.ID j) (rows s) (rows s') ∧ stays (rows s) (rows s').
Proof.
  intros Hwf. rows_start Hwf. unfold Save, upsertJobSQL, upsert. sql_run_out; intros [= _ <-].
  - rows_same Hwf.
  - split; [|apply rows_insert]. eapply rows_wf_tables; [done|]. cbn.
    apply keyed_insert; [done|]. by destruct (jobs t !! Job.ID j).
Qed.

Lemma Ack_rows s k e s' :
  rows_wf s → Ack k s = Some (e, s') → rows_wf s' ∧ others k (rows s) (rows s').
Proof.
  intros Hwf. rows_start Hwf. unfold Ack, ackSQL, delete_jobs, job_in. sql_run_out.
  - intros [= _ <-]. rows_same Hwf.
  - rewrite delete_by_key by done. intros [= _ <-].
    split; [eapply rows_wf_tables; [done|]|]; cbn; case_match; try done;
      [by apply keyed_delete|apply rows_delete].
Qed.

(** Run the calls up to the next test; a branch in which one fails leaves the
    rows as they were. *)
Ltac rows_run Hwf :=
  unfold deferring_rollback, query, stmt, Begin, Commit, Rollback, time_Now, gbind, gret, called, set_tables;
  repeat (sql_step; [intros [= _ <-]; rows_same Hwf|]).

Lemma job_row_keyed (s : Store) k P :
  keyed JobRow.id (jobs (tables s)) → (∀ Row : Set, scans (@scan _ s Row)) →
  job_row (by_key JobRow.id k P) s = row_at k P (jobs (tables s)).
Proof. intros Hkey Hscan. apply query_by_key; [apply Hkey|apply Hscan]. Qed.

Lemma Cancel_rows s k e s' :
  rows_wf s → Cancel k s = Some (e, s') →
  rows_wf s' ∧ others k (rows s) (rows s') ∧ settled (rows s) (rows s').
Proof.
  intros Hwf. rows_start Hwf. unfold Cancel, job_is. rows_run Hwf.
  rewrite job_row_keyed by done. cbn. unfold row_at.
  destruct (jobs t !! k) as [r|] eqn:Hr; cbn; [|intros [= _ <-]; rows_same Hwf].
  destruct (int64b (JobRow.state r)); cbn; [|intros [= _ <-]; rows_same Hwf].
  destruct (Z.eqb_spec (wrap8 (JobRow.state r)) StatePending); cbn; [|intros [= _ <-]; rows_same Hwf].
  rows_run Hwf. unfold delete_jobs. rewrite delete_by_key by done. unfold row_at. rewrite Hr. cbn.
  intros [= _ <-]. split; [|split; [|eapply others_settled; [done..|]]; apply rows_delete].
  eapply rows_wf_tables; [done|]. by apply keyed_delete.
Qed.

Lemma Reschedule_rows s k u e s' :
  rows_wf s → Reschedule k u s = Some (e, s') →
  rows_wf s' ∧ stays (rows s) (rows s') ∧ settled (rows s) (rows s').
Proof.
  intros Hwf. rows_start Hwf. unfold Reschedule, job_is. rows_run Hwf.
  rewrite job_row_keyed by done. cbn. unfold row_at.
  destruct (jobs t !! k) as [r|] eqn:Hr; cbn; [|intros [= _ <-]; rows_same Hwf].
  destruct (int64b (JobRow.state r)); cbn; [|intros [= _ <-]; rows_same Hwf].
  destruct (Z.eqb_spec (wrap8 (JobRow.state r)) StatePending); cbn; [|intros [= _ <-]; rows_same Hwf].
  rows_run Hwf. unfold rescheduleUpdateSQL, job_is. cbn. rewrite update_by_key by done. unfold row_at. rewrite Hr. cbn.
  intros [= _ <-]. split; [|split; [|eapply others_settled; [done..|]]; apply rows_insert].
  eapply rows_wf_tables; [done|]. apply keyed_insert; [done|]. exact (Hkey k r Hr).
Qed.

Lemma Fail_rows s k msg u e s' :
  rows_wf s → Fail k msg u s = Some (e, s') →
  rows_wf s' ∧ others k (rows s) (rows s') ∧
  ∀ v, rows s !! k = Some v → rows s' !! k = None → Spec.exhausted v = true.
Proof.
  intros Hwf. assert (Hsame : ∀ v, rows s !! k = Some v → rows s !! k = None → Spec.exhausted v = true)
    by (intros; congruence).
  rows_start Hwf. unfold Fail, job_in, job_is. rows_run Hwf.
  rewrite job_row_keyed by done. cbn. unfold row_at.
  destruct (jobs t !! k) as [r|] eqn:Hr; cbn; [|intros [= _ <-]; rows_same Hwf].
  destruct (JobRow.state r =? StateClaimed) eqn:Hc; cbn; [|intros [= _ <-]; rows_same Hwf].
  destruct (int64b (JobRow.attempt r)) eqn:Hi; cbn; [|intros [= _ <-]; rows_same Hwf].
  destruct (int64b (JobRow.max_attempts r)); cbn; [|intros [= _ <-]; rows_same Hwf].
  destruct (_ && _) eqn:He; cbn; rows_run Hwf.
  - unfold delete_jobs. cbn. rewrite delete_by_key by done. unfold row_at. rewrite Hr. cbn.
    intros [= _ <-]. split; [|split; [apply rows_delete|]].
    { eapply rows_wf_tables; [done|]. by apply keyed_delete. }
    intros v. unfold rows. cbn. rewrite lookup_fmap, Hr. intros [= <-] _. unfold Spec.exhausted. cbn.
    by rewrite (wrap64_id (JobRow.attempt r)) by (by apply int64b_spec).
  - unfold failRetrySQL, job_in. cbn. rewrite update_by_key by done. unfold row_at. rewrite Hr, Hc. cbn.
    intros [= _ <-]. split; [|split; [apply rows_insert|]].
    { eapply rows_wf_tables; [done|]. apply keyed_insert; [done|]. exact (Hkey k r Hr). }
    intros v _. unfold rows. cbn. by rewrite lookup_fmap, lookup_insert_eq.
Qed.

Lemma RecoverStale_rows s now res s' :
  rows_wf s → RecoverStale now s = Some (res, s') →
  rows_wf s' ∧ ∀ k v, rows s !! k = Some v →
    rows s' !! k = Some v ∨
    (Job.State v = StateClaimed ∧ lock_over now v = true ∧ rows s' !! k = Some (Spec.release_job v)).
Proof.
  intros Hwf. rows_start Hwf. unfold RecoverStale, recoverStaleSQL. sql_run_out; intros [= _ <-].
  { split; [by eapply rows_wf_tables|]. by left. }
  split; [eapply rows_wf_tables; [done|]; by apply keyed_update|].
  intros k v. unfold rows. cbn. rewrite !lookup_fmap, update_where_lookup.
  destruct (jobs t !! k) as [r|]; [|done]. cbn. intros [= <-]. destruct (stale _ r) eqn:Hs; [|by left].
  apply lock_over_row in Hs as [? ?]. by right.
Qed.

(** A statement on schedules. *)
Lemma schedules_rows (t' : Tables) s s' :
  rows_wf s → jobs t' = jobs (tables s) → tables s' = t' → tx s' = None → @scan _ s' = @scan _ s →
  rows_wf s' ∧ rows s' = rows s.
Proof.
  intros [[_ Hscan] Hkey] Hj Ht Htx Hs. unfold rows_wf, rows, idle. rewrite Ht, Hj, Htx, Hs. by split.
Qed.

Ltac rows_schedules Hwf := eapply schedules_rows; [exact Hwf| |reflexivity..]; done.

Lemma UpsertRecurring_rows s r e s' :
  rows_wf s → UpsertRecurring r s = Some (e, s') → rows_wf s' ∧ rows s' = rows s.
Proof.
  intros Hwf. rows_start Hwf. unfold UpsertRecurring. sql_run_out; intros [= _ <-]; rows_schedules Hwf.
Qed.

Lemma UpdateRecurringNextRun_rows s k next last e s' :
  rows_wf s → UpdateRecurringNextRun k next last s = Some (e, s') → rows_wf s' ∧ rows s' = rows s.
Proof.
  intros Hwf. rows_start Hwf. unfold UpdateRecurringNextRun. sql_run_out; intros [= _ <-]; rows_schedules Hwf.
Qed.

Lemma ListRecurring_rows s r s' :
  rows_wf s → ListRecurring s = Some (r, s') → rows_wf s' ∧ rows s' = rows s.
Proof.
  intros Hwf. rows_start Hwf. unfold ListRecurring, query, stmt, gbind, gret, called, set_tables. cbn.
  destruct (F n); cbn; [|destruct (mapM _ _); cbn; [destruct (F (S n)); cbn|]]; intros [= _ <-];
    rows_schedules Hwf.
Qed.

Lemma AcquireRecurringLease_rows s k u w r s' :
  rows_wf s → AcquireRecurringLease k u w s = Some (r, s') → rows_wf s' ∧ rows s' = rows s.
Proof.
  intros Hwf. rows_start Hwf.
  unfold AcquireRecurringLease, acquireLeaseSQL, query, stmt, time_Now, gbind, gret, called, set_tables. cbn.
  destruct (F n); cbn; [|destruct (count_where _ _); cbn; [destruct (F (S n)); cbn|]]; intros [= _ <-];
    rows_schedules Hwf.
Qed.

Lemma update_each_lookup f ks m k :
  keyed JobRow.id m → (∀ r, JobRow.id (f r) = JobRow.id r) →
  (k ∉ ks → update_each f ks m !! k = m !! k) ∧ (is_Some (m !! k) → is_Some (update_each f ks m !! k)).
Proof.
  intros Hkey Hf. revert m Hkey. unfold update_each. induction ks as [|k' ks IH]; intros m Hkey; [done|]. cbn.
  destruct (IH (update_where (by_key JobRow.id k' (λ _, true)) f m)) as [H1 H2]; [by apply keyed_update|]. split.
  - intros [Hne Hni]%not_elem_of_cons. rewrite H1 by done. rewrite update_where_lookup.
    destruct (m !! k) as [r|] eqn:Hr; [|done]. cbn. unfold by_key. rewrite (Hkey k r Hr).
    by rewrite bool_decide_eq_false_2.
  - intros [r Hr]. apply H2. rewrite update_where_lookup, Hr. by eexists.
Qed.

(** The jobs [ClaimDue] has selected. *)
Lemma selected_pending (sc : gmap string JobRow.t → list JobRow.t) q now m (jm : gmap string JobRow.t) (js : list Job.t) k :
  scans sc → keyed JobRow.id jm →
  mapM scanJob (select_where sc (claim_where q now) claim_order m jm) = Some js → k ∈ Job.ID <$> js →
  ∃ r, jm !! k = Some r ∧ JobRow.state r = StatePending.
Proof.
  intros Hscan Hkey Hjs Hk. destruct (scan_jobs_view _ _ Hjs) as [_ Hids]. rewrite Hids in Hk.
  apply list_elem_of_fmap in Hk as (r & -> & Hr).
  apply (selected_elem _ _ Hscan) in Hr as (k & Hr & Hw). exists r. rewrite (Hkey k r Hr). split; [done|].
  unfold claim_where in Hw. by breflect.
Qed.

Lemma ClaimDue_rows s q now m w u out e s' :
  rows_wf s → 0 ≤ m → ClaimDue q now m w u s = Some ((out, e), s') →
  rows_wf s' ∧ stays (rows s) (rows s') ∧ settled (rows s) (rows s') ∧
  ∀ j, j ∈ out → ∃ v, rows s !! Job.ID j = Some v ∧ Job.State v = StatePending.
Proof.
  intros Hwf Hm. assert (Hnone : ∀ j : Job.t, j ∈ [] → ∃ v, rows s !! Job.ID j = Some v ∧
    Job.State v = StatePending) by (by intros j ?%elem_of_nil).
  rows_start Hwf. unfold ClaimDue.
  unfold deferring_rollback, query, stmt, Begin, Commit, Rollback, gbind, gret, called, set_tables.
  sql_step; [intros [= <- _ <-]; rows_same Hwf|]. sql_step; [intros [= <- _ <-]; rows_same Hwf|].
  unfold claimSelectSQL. cbn.
  set (sel := select_where (sc JobRow.t) (claim_where q (toUnixNano now)) claim_order m (jobs t)).
  destruct (mapM scanJob sel) as [js|] eqn:Hjs; cbn; [|intros [= <- _ <-]; rows_same Hwf].
  sql_step; [intros [= <- _ <-]; rows_same Hwf|].
  match goal with |- context [claim_updates _ _ _ _ ?s1] =>
    destruct (claim_updates_run w u now js s1)
      as [(msg & [t1 tx1 F1 c1 clk1 rd1 sn1 sc1] & -> & Ht & Hf & Hsc & _)
         |([t1 tx1 F1 c1 clk1 rd1 sn1 sc1] & -> & Ht & Hf & Hsc & Htab)] end; cbn in *; subst.
  { intros [= <- _ <-]. split_and!; [eapply rows_wf_tables; [exact Hwf|exact Hkey]|done..]. }
  sql_step; [intros [= <- _ <-]; split_and!; [eapply rows_wf_tables; [exact Hwf|exact Hkey]|done..]|].
  intros [= <- _ <-]. clear Hnone.
  set (f := claim_row _ _ _). assert (Hid : ∀ r, JobRow.id (f r) = JobRow.id r) by done.
  assert (Hsel : ∀ k, k ∈ Job.ID <$> js → ∃ r, jobs t !! k = Some r ∧ JobRow.state r = StatePending).
  { intros k. by apply (selected_pending (sc _) q (toUnixNano now) m). }
  unfold rows. cbn. split; [|split; [|split]].
  - eapply rows_wf_tables; [exact Hwf|]. by apply update_each_keyed.
  - intros k. rewrite !lookup_fmap, !fmap_is_Some. by apply update_each_lookup.
  - intros k v Hv Hs. rewrite lookup_fmap in Hv |- *. rewrite (proj1 (update_each_lookup f _ _ k Hkey Hid)); [done|].
    intros (r & Hr & Hp)%Hsel. rewrite Hr in Hv. injection Hv as <-. cbn in Hs. by rewrite Hp in Hs.
  - intros j (j0 & -> & Hj)%list_elem_of_fmap. destruct (Hsel (Job.ID j0)) as (r & Hr & Hp);
      [by apply list_elem_of_fmap_2|]. exists (row_job r). rewrite lookup_fmap. cbn. rewrite Hr, Hp. done.
Qed.

(** ** The promise *)

#[export] Instance sqlite_durable : DurableStore Store.
Proof.
  refine {| dur_wf := rows_wf; stored := rows; lapsed _ := lock_over |}.
  - intros s e Hwf. done.
  - intros s s' Hwf. done.
  - exact Save_rows.
  - intros s q now n w u out e s' Hwf Hn%makeable_nonneg. by apply ClaimDue_rows.
  - exact Ack_rows.
  - exact Fail_rows.
  - intros s k e s' Hwf Hr. by eapply Cancel_rows.
  - exact Reschedule_rows.
  - by intros s w now e s' Hwf [= _ <-].
  - exact RecoverStale_rows.
  - exact UpsertRecurring_rows.
  - exact ListRecurring_rows.
  - exact AcquireRecurringLease_rows.
  - exact UpdateRecurringNextRun_rows.
Defined.

(** Every method begins with a call to the database, [Heartbeat] apart. *)
#[export] Instance sqlite_heeds : HeedsContext Store.
Proof.
  split; intros; intros s; cbn;
    unfold Save, ClaimDue, Ack, Fail, Heartbeat, RecoverStale, ListRecurring, AcquireRecurringLease,
      UpdateRecurringNextRun, query, stmt, Begin, time_Now, gbind, gret; cbn;
    do 2 eexists; (split; [reflexivity|]); unfold failure; eauto.
Qed.

Lemma sql_rows_wf s : sql_wf s → rows_wf s.
Proof. intros [Hidle Hok]. split; [done|apply Hok]. Qed.
