(* ===== verification/Cluster.v ===== *)
(** Several schedulers, each a process of its own, on one store: what
    [Start] of [src/scheduler.go] runs, once per process, with the steps of all
    the processes interleaved ([src/README.md], "multiple Scheduler instances
    against one Store").

    A process is a running scheduler of [System] with its own hooks, log,
    clock and lanes; its store is the one they share, and its identifiers come
    from one source for all, since no two of [google/uuid]'s are equal. A
    step of the cluster is a step of one of them, the crash of one,
    which loses its lanes and leaves its claims in the store, or the start of a
    process. A call to the store is one step; sessions of Postgres that overlap
    inside a call are the matter of [PostgresProps]. *)

From S2P Require Import Prelude ListLib Types StoreApi Durable World Recurring Scheduler Worker.
From S2P Require Import RecurringProps WorkerProps SchedulerProps Turns System.
Local Open Scope Z_scope.
Local Open Scope go_scope.

Section cluster.
Context {St H : Type} `{!StoreOps St}.
Variable uuid : nat → string.
Variable parse : string → (Z → Z) + string.
(** The scheduler of each process. *)
Variable sched : string → Scheduler St H.

(** [ids] is how many identifiers the processes have generated, together. *)
Record Cluster : Type := mkCluster {
  shared : St;
  ids : nat;
  procs : gmap string (@Sys St H)
}.

(** A process at work on the shared store. *)
Definition attach (c : Cluster) (σ : @Sys St H) : @Sys St H :=
  mkSys (with_uuids (ids c) (with_store (shared c) (sys_world σ))) (sys_lanes σ) (sys_led σ)
    (sys_turns σ).

(** The cluster after a process has made a step. *)
Definition update_proc (p : string) (σ : @Sys St H) (c : Cluster) : Cluster :=
  mkCluster (w_store (sys_world σ)) (w_uuids (sys_world σ)) (<[p := σ]> (procs c)).

(** Process [p], in state [σ], goes by a step of its goroutine [a] to [σ']. *)
Definition turn (p : string) (a : actor) (σ σ' : @Sys St H) (c c' : Cluster) : Prop :=
  ∃ ctx_done, procs c !! p = Some σ ∧
    step uuid parse (sched p) ctx_done a (attach c σ) σ' ∧ c' = update_proc p σ' c.

(** The process is gone, with its lanes; the store is as it was. *)
Definition crash (p : string) (c : Cluster) : Cluster :=
  mkCluster (shared c) (ids c) (delete p (procs c)).

(** [Start] in a new process. *)
Definition boot (p : string) (w : World St H) (c : Cluster) : Cluster :=
  mkCluster (shared c) (ids c) (<[p := Start (sched p) w]> (procs c)).

Inductive cluster_step : Cluster → Cluster → Prop :=
  | cluster_turn p a σ σ' c c' : turn p a σ σ' c c' → cluster_step c c'
  | cluster_crash p c : cluster_step c (crash p c)
  | cluster_boot p w c : procs c !! p = None → cluster_step c (boot p w c).
End cluster.
Arguments mkCluster {St H}.
Arguments shared {St H}.
Arguments ids {St H}.
Arguments procs {St H}.

(** ** Calls to the store

    What a method does to the jobs, its call does, whatever the context it is
    given. *)

Section calls.
Context {St H : Type} `{!StoreOps St, !DurableStore St}.
Implicit Types w : World St H.

Lemma on_store_keeps {A} ctx (m : GoM St A) w a w'
    (P : (Z → Job.t → bool) → A → gmap string Job.t → gmap string Job.t → Prop) :
  (∀ s a s', dur_wf s → m s = Some (a, s') → dur_wf s' ∧ P (lapsed s) a (stored s) (stored s')) →
  dur_wf (w_store w) → on_store ctx m w = Some (a, w') →
  dur_wf (w_store w') ∧ P (lapsed (w_store w)) a (stored (w_store w)) (stored (w_store w')) ∧
  w' = with_store (w_store w') w.
Proof.
  intros Hm Hwf. unfold on_store, at_store, under. destruct (ctx_Err ctx) as [e|].
  - destruct (dur_ended (w_store w) e Hwf) as (Hwf0 & Hs0 & Hl0).
    destruct (m _) as [[a' s']|] eqn:Hr; [|done]. intros [= -> <-].
    destruct (Hm _ _ _ Hwf0 Hr) as [Hwf' HP]. rewrite Hs0, Hl0 in HP.
    destruct (dur_left (w_store w) s' Hwf') as [Hwf1 Hs1]. cbn. by rewrite Hs1.
  - destruct (m _) as [[a' s']|] eqn:Hr; [|done]. intros [= -> <-].
    by destruct (Hm _ _ _ Hwf Hr) as [? ?].
Qed.
End calls.

(** ** Routines that leave the jobs alone *)

Section pres.
Context {St H : Type} `{!StoreOps St, !DurableStore St}.
Implicit Types w : World St H.
(** [R] is kept by what does not touch the jobs, and by saving a job under an
    identifier just generated, in the worlds of [Pre]. *)
Variable Pre : World St H → Prop.
Variable R : gmap string Job.t → gmap string Job.t → Prop.
Context `{!PreOrder R}.

Definition pres {A} (m : GoM (World St H) A) : Prop :=
  ∀ w a w', m w = Some (a, w') → dur_wf (w_store w) → Pre w →
    dur_wf (w_store w') ∧ Pre w' ∧ R (stored (w_store w)) (stored (w_store w')).

Hypothesis Pre_store : ∀ st w, Pre w → Pre (with_store st w).
Hypothesis Pre_other : ∀ w w', w_uuids w' = w_uuids w → Pre w → Pre w'.
Hypothesis Pre_uuids : ∀ w, Pre w → Pre (with_uuids (S (w_uuids w)) w).

Lemma pres_ret {A} (a : A) : pres (gret a).
Proof using PreOrder0. intros w a' w' [= <- <-] Hwf Hp. split; [done|]. by split. Qed.

Lemma pres_bind {A B} (m : GoM (World St H) A) (k : A → GoM (World St H) B) :
  pres m → (∀ a, pres (k a)) → pres (gbind m k).
Proof using PreOrder0.
  intros Hm Hk w b w' Hr Hwf Hp. unfold gbind in Hr. destruct (m w) as [[a w1]|] eqn:Hm1; [|done].
  destruct (Hm w a w1 Hm1 Hwf Hp) as (Hwf1 & Hp1 & Hr1).
  destruct (Hk a w1 b w' Hr Hwf1 Hp1) as (? & ? & ?). split; [done|]. split; [done|]. by etrans.
Qed.

Lemma pres_for {A} (xs : list A) (f : A → GoM (World St H) unit) :
  (∀ x, pres (f x)) → pres (gfor xs f).
Proof using PreOrder0.
  intros Hf. induction xs as [|x xs IH]; simpl; [apply pres_ret|]. by apply pres_bind.
Qed.

Lemma pres_fail {A} : pres (glift (None : option A)).
Proof using Type. by intros w a w' Hr. Qed.

Lemma pres_on_store {A} ctx (m : GoM St A) :
  (∀ s a s', dur_wf s → m s = Some (a, s') → dur_wf s' ∧ R (stored s) (stored s')) →
  pres (on_store ctx m).
Proof using Pre_store.
  intros Hm w a w' Hr Hwf Hp.
  destruct (on_store_keeps ctx m w a w' (λ _ _, R) Hm Hwf Hr) as (? & ? & ->). auto.
Qed.

(** A routine that leaves store and identifiers alone. *)
Lemma pres_idle {A} (m : GoM (World St H) A) :
  (∀ w a w', m w = Some (a, w') → w_store w' = w_store w ∧ w_uuids w' = w_uuids w) → pres m.
Proof using PreOrder0 Pre_other.
  intros Hm w a w' Hr Hwf Hp. destruct (Hm w a w' Hr) as [Hs Hu]. rewrite Hs.
  split; [done|]. split; [by apply (Pre_other w)|done].
Qed.

Lemma pres_log l msg attrs : pres (write_log l msg attrs).
Proof using PreOrder0 Pre_other. apply pres_idle. by intros w a w' [= _ <-]. Qed.
Lemma pres_hook f : pres (call_hook f).
Proof using PreOrder0 Pre_other. apply pres_idle. intros w a w'. by destruct f; intros [= _ <-]. Qed.
Lemma pres_now clk : pres (World.Now clk).
Proof using PreOrder0 Pre_other. apply pres_idle. by intros w a w' [= _ <-]. Qed.

(** Store calls on schedules. *)
Lemma pres_schedules {A} ctx (m : GoM St A) :
  (∀ s a s', dur_wf s → m s = Some (a, s') → dur_wf s' ∧ stored s' = stored s) →
  pres (on_store ctx m).
Proof using PreOrder0 Pre_store.
  intros Hm. apply pres_on_store. intros s a s' Hwf Hr. by destruct (Hm s a s' Hwf Hr) as [? ->].
Qed.

(** Generating an identifier and saving a job under it. *)
Variable uuid : nat → string.
Hypothesis R_save : ∀ w m m', Pre w → others (uuid (w_uuids w)) m m' → stays m m' → R m m'.

Lemma pres_fresh {B} (f : string → GoM (World St H) B) :
  (∀ w b w', Pre w → dur_wf (w_store w) →
     f (uuid (w_uuids w)) (with_uuids (S (w_uuids w)) w) = Some (b, w') →
     dur_wf (w_store w') ∧ w_uuids w' = S (w_uuids w) ∧
     others (uuid (w_uuids w)) (stored (w_store w)) (stored (w_store w')) ∧
     stays (stored (w_store w)) (stored (w_store w'))) →
  pres (let! id := NewString uuid in f id).
Proof using Pre_uuids Pre_other R_save.
  intros Hf w b w' Hr Hwf Hp. unfold gbind, NewString in Hr.
  destruct (Hf w b w' Hp Hwf Hr) as (Hwf' & Hu & Ho & Hs). split; [done|]. split.
  - apply (Pre_other (with_uuids (S (w_uuids w)) w)); [done|]. by apply Pre_uuids.
  - by apply (R_save w).
Qed.

(** *** The routines themselves *)

Lemma pres_quiet {A} (m : GoM (World St H) A) a : quiet m a → pres m.
Proof using PreOrder0 Pre_other.
  intros Hq. apply pres_idle. intros w b w' Hr. destruct (Hq w) as (w1 & Hr1 & Hs & _ & Hu).
  rewrite Hr in Hr1. by injection Hr1 as _ ->.
Qed.

(** One save under the identifier [id], and nothing else of the store. *)
Lemma saved_once ctx w w0 j e w1 w' :
  on_store ctx (st_Save j) w0 = Some (e, w1) → w_store w0 = w_store w → w_uuids w0 = S (w_uuids w) →
  dur_wf (w_store w) → w_store w' = w_store w1 →
  w_uuids w' = w_uuids w1 → Job.ID j = uuid (w_uuids w) →
  dur_wf (w_store w') ∧ w_uuids w' = S (w_uuids w) ∧
  others (uuid (w_uuids w)) (stored (w_store w)) (stored (w_store w')) ∧
  stays (stored (w_store w)) (stored (w_store w')).
Proof using Type.
  intros Hs Hw0 Hu0 Hwf -> -> Hid. rewrite <- Hw0 in Hwf |- *. rewrite <- Hid.
  destruct (on_store_keeps ctx (st_Save j) w0 e w1 (λ _ _ m m', others (Job.ID j) m m' ∧ stays m m'))
    as (? & [? ?] & ->); [|done..|done].
  intros s a s' Hs'. by apply dur_Save.
Qed.

Lemma unchanged_once w w' :
  dur_wf (w_store w') → stored (w_store w') = stored (w_store w) → w_uuids w' = S (w_uuids w) →
  dur_wf (w_store w') ∧ w_uuids w' = S (w_uuids w) ∧
  others (uuid (w_uuids w)) (stored (w_store w)) (stored (w_store w')) ∧
  stays (stored (w_store w)) (stored (w_store w')).
Proof using Type. intros ? Hs ?. by rewrite Hs. Qed.

Lemma pres_save_fire ctx spec now t : pres (save_fire uuid ctx spec now t).
Proof using PreOrder0 Pre_other Pre_uuids R_save.
  apply pres_fresh. intros w b w' Hp Hwf. unfold gbind.
  destruct (on_store ctx _ _) as [[e w1]|] eqn:Hs; [|done].
  destruct e; intros [= _ <-]; exact (saved_once _ w _ _ _ w1 _ Hs eq_refl eq_refl Hwf eq_refl eq_refl eq_refl).
Qed.

(** One call of the runner's turn. *)
Lemma pres_runner parse ctx fuel clk r st : pres (runner_resume parse uuid ctx fuel clk r st).
Proof using PreOrder0 Pre_other Pre_store Pre_uuids R_save.
  destruct st as [|now [|spec specs]|now spec [|t fires] specs]; cbn [runner_resume].
  - apply pres_bind; [apply pres_now|]. intros now.
    apply pres_bind; [apply pres_schedules; intros s a s'; apply dur_ListRecurring|].
    intros [specs [e|]]; [|apply pres_ret]. apply pres_bind; [apply pres_log|]. intros _. apply pres_ret.
  - apply pres_ret.
  - destruct (Time.After _ now); [apply pres_ret|].
    apply pres_bind; [apply pres_schedules; intros s a s'; apply dur_AcquireRecurringLease|].
    intros [[] [e|]]; try apply pres_ret. apply pres_bind; [|intros fires; apply pres_ret].
    destruct (computeFires_total (St := St) (H := H) parse spec now) as [res Hq]. by eapply pres_quiet.
  - apply pres_bind; [apply pres_idle; intros w a w'; apply nextAfter_some|]. intros next.
    apply pres_bind; [|intros _; apply pres_ret].
    apply pres_schedules. intros s a s'. apply dur_UpdateRecurringNextRun.
  - apply pres_bind; [apply pres_save_fire|intros _; apply pres_ret].
Qed.

Lemma pres_At s t name payload opts : Forall builtin opts → pres (At uuid s t name payload opts).
Proof using PreOrder0 Pre_other Pre_uuids R_save.
  intros Hopts. unfold At. destruct (handler s name); [|apply pres_ret].
  apply pres_fresh. intros w b w' Hp Hwf. unfold gbind, World.Now. cbn.
  set (j := apply_options opts _).
  assert (Hid : Job.ID j = uuid (w_uuids w)) by exact (proj1 (builtin_keeps opts _ Hopts)).
  destruct (queues s !! Job.Queue j); [|by intros [= _ <-]].
  destruct (on_store Background (st_Save j) _) as [[e w1]|] eqn:Hs; [|done].
  destruct e; [intros [= _ <-]; exact (saved_once _ w _ _ _ w1 _ Hs eq_refl eq_refl Hwf eq_refl eq_refl Hid)|]. unfold fireEnqueue.
  destruct (OnEnqueue (hooks s)); intros [= _ <-]; exact (saved_once _ w _ _ _ w1 _ Hs eq_refl eq_refl Hwf eq_refl eq_refl Hid).
Qed.

Lemma upsert_unchanged s (spec : RecurringSpec.t) w b w' :
  dur_wf (w_store w) → upsert_and_announce s spec w = Some (b, w') →
  dur_wf (w_store w') ∧ stored (w_store w') = stored (w_store w) ∧ w_uuids w' = w_uuids w.
Proof using Type.
  intros Hwf. unfold upsert_and_announce, gbind.
  destruct (on_store Background (st_UpsertRecurring spec) w) as [[e w1]|] eqn:Hs; [|done].
  destruct (on_store_keeps _ _ w e w1 (λ _ _ m m', m' = m) (λ s a s', dur_UpsertRecurring s spec a s') Hwf Hs)
    as (Hwf' & Heq & ->).
  destruct e; [by intros [= _ <-]|]. unfold fireEnqueue.
  destruct (OnEnqueue (hooks s)); by intros [= _ <-].
Qed.

(** What [Every] and [Cron] do once they accept. *)
Lemma pres_schedule s (f : RecurringSpec.t → Z → RecurringSpec.t) name payload opts :
  pres (let! spec := buildRecurringSpec uuid name payload opts in
        let! now := World.Now (clock s) in upsert_and_announce s (f spec now)).
Proof using PreOrder0 Pre_other Pre_uuids.
  intros w b w' Hr Hwf Hp. unfold buildRecurringSpec, gbind, NewString, World.Now, gret in Hr.
  apply upsert_unchanged in Hr as (Hwf' & Hs & Hu); [|exact Hwf]. cbn in Hs, Hu.
  split; [done|]. rewrite Hs. split; [|done].
  apply (Pre_other (with_uuids (S (w_uuids w)) w)); [done|by apply Pre_uuids].
Qed.

Lemma pres_Every s d name payload opts : pres (Every uuid s d name payload opts).
Proof using PreOrder0 Pre_other Pre_uuids.
  unfold Every. destruct (handler s name); [|apply pres_ret].
  destruct (d <=? 0); [apply pres_ret|]. apply (pres_schedule s (λ spec now,
    RecurringSpec.set_NextRunAt (Time.Add now d) (RecurringSpec.set_Every d spec))).
Qed.

Lemma pres_Cron parse s expr name payload opts : pres (Cron uuid parse s expr name payload opts).
Proof using PreOrder0 Pre_other Pre_uuids.
  unfold Cron. destruct (handler s name); [|apply pres_ret].
  destruct (parse expr) as [next|]; [|apply pres_ret]. apply (pres_schedule s (λ spec now,
    RecurringSpec.set_NextRunAt (next now) (RecurringSpec.set_Cron expr spec))).
Qed.
End pres.
