(* ===== verification/Trace.v ===== *)
(** The steps of [System] and [Cluster] as a function: given which goroutine
    moves, and how the handler it ran ended, the state after the move, if the
    move is possible. Every run of the function is one of the relation; the
    examples of the cluster are computed with it. *)

From S2P Require Import Prelude ListLib Types StoreApi World Recurring Scheduler Worker WorkerProps Turns System Cluster.
Local Open Scope Z_scope.
Local Open Scope go_scope.

Inductive move : Type :=
  | Claim (q : string)
  | Send (q : string)
  | Begin (q : string)
  | Finish (q : string) (o : outcome)
  | Tick
  | Fire (fuel : nat)
  | CancelCall (id : string).

Section trace.
Context {St H : Type} `{!StoreOps St}.
Variable uuid : nat → string.
Variable parse : string → (Z → Z) + string.
Implicit Types (s : Scheduler St H) (σ : @Sys St H).

(** The goroutine that moves. *)
Definition mover (m : move) : actor :=
  match m with
  | Claim q | Send q => Dispatcher q
  | Begin q => IdleWorker q
  | Finish q _ => BusyWorker q
  | Tick => JanitorLoop
  | Fire _ => RunnerLoop
  | CancelCall _ => Caller
  end.

Definition exec s (m : move) σ : option (@Sys St H) :=
  let w := sys_world σ in let ls := sys_lanes σ in let led := sys_led σ in
  let tn := sys_turns σ in
  match m with
  | Claim q =>
      match queues s !! q, ls !! q with
      | Some c, Some x =>
          match batch x, dispatcher_claim (start_ctx false) (clock s) (dispatcher_for s q c) false w with
          | [], Some (jobs, w') => Some (mkSys w' (<[q := mkLane jobs (chan x) (running x)]> ls) led tn)
          | _, _ => None
          end
      | _, _ => None
      end
  | Send q =>
      match queues s !! q, ls !! q with
      | Some c, Some x =>
          match batch x with
          | j :: rest =>
              if Z.of_nat (length (chan x)) <? c
              then Some (mkSys w (<[q := send x j rest]> ls) led tn) else None
          | [] => None
          end
      | _, _ => None
      end
  | Begin q =>
      match queues s !! q, ls !! q with
      | Some c, Some x =>
          match chan x with
          | j :: rest =>
              if Z.of_nat (length (running x)) <? c then
                match handlers s !! Job.Name j with
                | Some _ => Some (mkSys (started s j w)
                    (<[q := receive x j rest (Some (clock s (w_reads w)))]> ls)
                    ((Job.ID j, wrap64 (Job.Attempt j + 1), Job.MaxAttempts j) :: led) tn)
                | None =>
                    match executeOne (start_ctx false) s j w with
                    | Some (tt, w') => Some (mkSys w' (<[q := receive x j rest None]> ls) led tn)
                    | None => None
                    end
                end
              else None
          | [] => None
          end
      | _, _ => None
      end
  | Finish q o =>
      match ls !! q with
      | Some x =>
          match running x with
          | (j, start) :: rest =>
              match finish_job s (start_ctx false) j start o w with
              | Some (tt, w') => Some (mkSys w' (<[q := mkLane (batch x) (chan x) rest]> ls) led tn)
              | None => None
              end
          | [] => None
          end
      | None => None
      end
  | Tick =>
      match janitor_resume (start_ctx false) (clock s) (workerID s) (janitor_at tn) w with
      | Some (st, w') => Some (mkSys w' ls led (mkTurns st (runner_at tn)))
      | None => None
      end
  | Fire fuel =>
      match runner_resume parse uuid (start_ctx false) fuel (clock s) (mkRunner (workerID s) (pollInterval s))
              (runner_at tn) w with
      | Some (st, w') => Some (mkSys w' ls led (mkTurns (janitor_at tn) st))
      | None => None
      end
  | CancelCall id =>
      match Scheduler.Cancel id w with
      | Some (_, w') => Some (mkSys w' ls led tn)
      | None => None
      end
  end.

Lemma exec_step s m σ σ' : exec s m σ = Some σ' → step uuid parse s false (mover m) σ σ'.
Proof.
  destruct σ as [w ls led tn], m as [q|q|q|q o| |fuel|id]; cbn [exec mover sys_world sys_lanes sys_led sys_turns].
  - destruct (queues s !! q) as [c|] eqn:Hc, (ls !! q) as [x|] eqn:Hx; try done.
    destruct (batch x) eqn:Hb; [|done]. destruct (dispatcher_claim (start_ctx false) (clock s) (dispatcher_for s q c) false w) as [[js w']|] eqn:Hr; [|done].
    intros [= <-]. by eapply step_claim.
  - destruct (queues s !! q) as [c|] eqn:Hc, (ls !! q) as [x|] eqn:Hx; try done.
    destruct (batch x) as [|j rest] eqn:Hb; [done|]. destruct (Z.ltb_spec (Z.of_nat (length (chan x))) c); [|done].
    intros [= <-]. by eapply step_send.
  - destruct (queues s !! q) as [c|] eqn:Hc, (ls !! q) as [x|] eqn:Hx; try done.
    destruct (chan x) as [|j rest] eqn:Hb; [done|].
    destruct (Z.ltb_spec (Z.of_nat (length (running x))) c); [|done].
    destruct (handlers s !! Job.Name j) eqn:Hh; [intros [= <-]; by eapply step_start|].
    destruct (executeOne (start_ctx false) s j w) as [[[] w']|] eqn:Hr; [|done]. intros [= <-]. by eapply step_no_handler.
  - destruct (ls !! q) as [x|] eqn:Hx; [|done]. destruct (running x) as [|[j start] rest] eqn:Hr; [done|].
    destruct (finish_job s (start_ctx false) j start o w) as [[[] w']|] eqn:Hf; [|done]. intros [= <-].
    by apply (step_finish _ _ _ _ w ls led tn q x j start [] rest o).
  - destruct (janitor_resume (start_ctx false) (clock s) (workerID s) (janitor_at tn) w) as [[st w']|] eqn:Hr; [|done]. intros [= <-]. by apply step_janitor.
  - destruct (runner_resume _ _ _ _ _ _ _ w) as [[st w']|] eqn:Hr; [|done]. intros [= <-].
    by apply (step_runner _ _ _ _ w ls led tn fuel).
  - destruct (Scheduler.Cancel id w) as [[e w']|] eqn:Hr; [|done]. intros [= <-]. by eapply step_cancel.
Qed.

(** *** In a cluster *)

Inductive event_of_cluster : Type :=
  | Move (p : string) (m : move)
  | Crash (p : string)
  | Boot (p : string) (w : World St H).

Variable sched : string → Scheduler St H.

Definition play_one (e : event_of_cluster) (c : @Cluster St H) : option Cluster :=
  match e with
  | Move p m =>
      match procs c !! p with
      | Some σ => match exec (sched p) m (attach c σ) with
                  | Some σ' => Some (update_proc p σ' c)
                  | None => None
                  end
      | None => None
      end
  | Crash p => Some (crash p c)
  | Boot p w => match procs c !! p with None => Some (boot sched p w c) | Some _ => None end
  end.

Fixpoint play (es : list event_of_cluster) (c : @Cluster St H) : option Cluster :=
  match es with
  | [] => Some c
  | e :: es => match play_one e c with Some c' => play es c' | None => None end
  end.

Lemma play_one_step e c c' : play_one e c = Some c' → cluster_step uuid parse sched c c'.
Proof.
  destruct e as [p m|p|p w]; cbn.
  - destruct (procs c !! p) as [σ|] eqn:Hp; [|done]. destruct (exec _ _ _) as [σ'|] eqn:He; [|done].
    intros [= <-]. apply (cluster_turn _ _ _ p (mover m) σ σ'). exists false. split; [done|]. split; [|done].
    by apply exec_step.
  - intros [= <-]. apply cluster_crash.
  - destruct (procs c !! p) eqn:Hp; [done|]. intros [= <-]. by apply cluster_boot.
Qed.

Lemma play_steps es c c' : play es c = Some c' → rtc (cluster_step uuid parse sched) c c'.
Proof.
  revert c. induction es as [|e es IH]; intros c; cbn; [by intros [= ->]|].
  destruct (play_one e c) as [c1|] eqn:He; [|done]. intros Hp.
  eapply rtc_l; [by apply (play_one_step e)|by apply IH].
Qed.
End trace.
Arguments Move {St H}.
Arguments Crash {St H}.
Arguments Boot {St H}.
