(* ===== verification/TwoProcesses.v ===== *)
(** Two processes on one store, for the examples about particular stores: a
    job is dispatched by the first, then the processes move as told. *)

From S2P Require Import Prelude ListLib Types StoreApi Durable World Recurring Scheduler Worker.
From S2P Require Import RecurringProps WorkerProps SchedulerProps Turns System Cluster Trace.
Local Open Scope Z_scope.
Local Open Scope go_scope.

Section two.
Context {St : Type} `{!StoreOps St, !DurableStore St}.
Abbreviation moves := (list (event_of_cluster (St := St) (H := list event))).

(** The clock of [a] stands at [early], that of [b] at [late]; a lock lasts
    [lock]. *)
Definition pair_sched (early late lock : Z) (p : string) : Scheduler St (list event) :=
  Register "n" (λ _ _ w, (HReturn None, w))
    (WithVisibilityTimeout lock (WithHooks recording
      (default_scheduler 4 p (λ _, if bool_decide (p = "a") then early else late)))).

Definition pair_cluster (sched : string → Scheduler St (list event)) (w : World St (list event)) : Cluster :=
  boot sched "b" (with_hooks [] w) (boot sched "a" w (mkCluster (w_store w) (w_uuids w) ∅)).

(** A process claims the next job, passes it on and starts its handler. *)
Definition pair_run (p : string) : moves :=
  [Move p (Claim "default"); Move p (Send "default"); Move p (Begin "default")].

(** A turn of a process's janitor. *)
Definition pair_sweep (p : string) : moves := [Move p Tick; Move p Tick].

(** The jobs of the store with their state, attempts and holder, and the
    events each process has reported. *)
Definition pair_view (c : @Cluster St (list event)) : list (string * Z * Z * string) * list (string * list event) :=
  ((λ kv, (kv.1, Job.State kv.2, Job.Attempt kv.2, Job.LockedBy kv.2)) <$> map_to_list (stored (shared c)),
   (λ pσ, (pσ.1, w_hooks (sys_world pσ.2))) <$> map_to_list (procs c)).

(** What the caller who dispatches a job for the instant [t] is told, and
    where the cluster gets with these moves. *)
Definition pair_play (sched : string → Scheduler St (list event)) (t : Z) (d : St) (es : moves)
    : option ((string * option api_error) * option (list (string * Z * Z * string) * list (string * list event))) :=
  (λ rw, (rw.1, pair_view <$> play demo_uuid demo_parse sched es (pair_cluster sched rw.2)))
    <$> At demo_uuid (sched "a") t "n" [] [] (mkWorld d [] [] 0 0).
End two.
