(* ===== verification/ClusterFacts.v ===== *)
(** The effect of a step of one process on the jobs of a shared store, and of a
    step of the cluster: what takes a job away, and who touches a claim. *)

From S2P Require Import Prelude ListLib Types StoreApi Durable World Recurring Scheduler Worker.
From S2P Require Import RecurringProps WorkerProps SchedulerProps Ledger Turns System Cluster.
Local Open Scope Z_scope.
Local Open Scope go_scope.

(** ** One process *)

(** The job is in one of the lanes of a process. *)
Definition in_flight {St H} (k : string) (σ : @Sys St H) : Prop :=
  ∃ q x j, sys_lanes σ !! q = Some x ∧ j ∈ lane_jobs x ∧ Job.ID j = k.

Section flight.
Context {St H : Type}.
Implicit Types (w : World St H) (ls : gmap string lane) (led : list (string * Z * Z)).

Lemma in_flight_chan w ls led tn q x j :
  ls !! q = Some x → j ∈ chan x → in_flight (Job.ID j) (mkSys w ls led tn).
Proof. intros Hx Hj. exists q, x, j. split; [done|]. split; [|done]. apply elem_of_app. right. apply elem_of_app. by left. Qed.

Lemma in_flight_running w ls led tn q x j start :
  ls !! q = Some x → (j, start) ∈ running x → in_flight (Job.ID j) (mkSys w ls led tn).
Proof.
  intros Hx Hj. exists q, x, j. split; [done|]. split; [|done]. apply elem_of_app; right; apply elem_of_app; right.
  by apply (list_elem_of_fmap_2 fst) in Hj.
Qed.

(** A lane that changes into one with no more jobs. *)
Lemma in_flight_sub k w w' ls led led' tn tn' q x y :
  ls !! q = Some x → lane_jobs y ⊆ lane_jobs x →
  in_flight k (mkSys w' (<[q := y]> ls) led' tn') → in_flight k (mkSys w ls led tn).
Proof.
  intros Hx Hsub (q' & z & j & Hz & Hj & Hid). cbn in Hz.
  apply lookup_insert_Some in Hz as [[<- <-]|[_ Hz]]; [exists q, x, j; auto|by exists q', z, j].
Qed.

(** A lane whose batch is new. *)
Lemma in_flight_insert k w w' ls led led' tn tn' q x jobs :
  ls !! q = Some x → (∀ j, j ∈ jobs → Job.ID j ≠ k) →
  in_flight k (mkSys w' (<[q := mkLane jobs (chan x) (running x)]> ls) led' tn') →
  in_flight k (mkSys w ls led tn).
Proof.
  intros Hx Hnew (q' & z & j & Hz & Hj & Hid). cbn in Hz.
  apply lookup_insert_Some in Hz as [[<- <-]|[_ Hz]]; [|by exists q', z, j].
  exists q, x, j. split; [done|]. split; [|done]. revert Hj. unfold lane_jobs. cbn.
  rewrite !elem_of_app. intros [Hj|?]; [by destruct (Hnew j)|tauto].
Qed.
End flight.

Section process.
Context {St H : Type} `{!StoreOps St, !DurableStore St}.
Variable uuid : nat → string.
Variable parse : string → (Z → Z) + string.
Variable s : Scheduler St H.
Implicit Types (w : World St H) (σ : @Sys St H).

(** What the end of an execution does: to that job alone, and it takes it away
    only if the handler succeeded or the attempts are used up. *)
Definition ends (j : Job.t) (success : Prop) w w' : Prop :=
  dur_wf (w_store w') ∧ w_uuids w' = w_uuids w ∧
  others (Job.ID j) (stored (w_store w)) (stored (w_store w')) ∧
  ∀ v, stored (w_store w) !! Job.ID j = Some v → stored (w_store w') !! Job.ID j = None →
    success ∨ Spec.exhausted v = true.

Lemma on_store_uuids {A} ctx (m : GoM St A) w a w' :
  on_store ctx m w = Some (a, w') → w_uuids w' = w_uuids w.
Proof.
  unfold on_store, at_store. by destruct (under ctx m (w_store w)) as [[a' s']|]; intros [= _ <-].
Qed.

Lemma ends_fail ctx j msg t success w e w1 w' :
  dur_wf (w_store w) → on_store ctx (st_Fail (Job.ID j) msg t) w = Some (e, w1) →
  w_store w' = w_store w1 → w_uuids w' = w_uuids w1 → ends j success w w'.
Proof.
  intros Hwf Hs Hst Hu.
  destruct (on_store_keeps _ _ w e w1 (λ _ _ m m', others (Job.ID j) m m' ∧
    ∀ v, m !! Job.ID j = Some v → m' !! Job.ID j = None → Spec.exhausted v = true)
    (λ st a st', dur_Fail st (Job.ID j) msg t a st') Hwf Hs) as (? & (? & Hex) & _).
  unfold ends. rewrite Hst, Hu, (on_store_uuids _ _ _ _ _ Hs). split_and!; [done..|].
  intros v Hv Hn. right. by apply Hex.
Qed.

(** The same call after a reading of the clock. *)
Lemma ends_later j success n w w' : ends j success (with_reads n w) w' → ends j success w w'.
Proof. done. Qed.

Lemma finish_ends ctx j start o w a w' :
  dur_wf (w_store w) → finish_job s ctx j start o w = Some (a, w') → ends j (o = HReturn None) w w'.
Proof.
  intros Hwf. unfold finish_job, gbind at 1, World.Now. destruct (outcome_error o) as [err|] eqn:Ho.
  - unfold handle_error, gbind, World.Now, fireFailure, fireRetry. cbn.
    destruct (_ <=? _); destruct (on_store ctx _ _) as [[e w1]|] eqn:Hs; try done;
      destruct e; cbn; try destruct (OnFailure (hooks s)); try destruct (OnRetry (hooks s));
      intros [= _ <-]; exact (ends_fail _ j _ _ _ (with_reads _ w) _ w1 _ Hwf Hs eq_refl eq_refl).
  - unfold handle_success, gbind, fireSuccess. destruct (on_store ctx _ _) as [[e w1]|] eqn:Hs; [|done].
    pose proof (on_store_uuids _ _ _ _ _ Hs) as Hu.
    destruct (on_store_keeps _ _ (with_reads (S (w_reads w)) w) e w1 (λ _ _ m m', others (Job.ID j) m m')
      (λ st a st', dur_Ack st (Job.ID j) a st') Hwf Hs) as (Hwf' & Hoth & _).
    assert (Hret : o = HReturn None) by (destruct o as [[]|]; done).
    destruct e; cbn; destruct (OnSuccess (hooks s)); intros [= _ <-]; unfold ends; eauto 6.
Qed.

Lemma refuse_ends ctx j w a w' :
  handlers s !! Job.Name j = None → dur_wf (w_store w) → executeOne ctx s j w = Some (a, w') →
  ends j False w w'.
Proof.
  intros Hh Hwf. unfold executeOne, handler. rewrite Hh. unfold gbind, World.Now, fireFailure. cbn.
  destruct (on_store ctx _ _) as [[e w1]|] eqn:Hs; [|done].
  destruct (OnFailure (hooks s)); intros [= _ <-];
    exact (ends_fail _ j _ _ _ (with_reads _ w) _ w1 _ Hwf Hs eq_refl eq_refl).
Qed.

(** A claim takes pending jobs, and leaves what is not pending alone. *)
Definition takes (jobs : list Job.t) w w' : Prop :=
  dur_wf (w_store w') ∧ w_uuids w' = w_uuids w ∧
  stays (stored (w_store w)) (stored (w_store w')) ∧
  settled (stored (w_store w)) (stored (w_store w')) ∧
  ∀ j, j ∈ jobs → ∃ v, stored (w_store w) !! Job.ID j = Some v ∧ Job.State v = StatePending.

Lemma claim_takes ctx w d ctx_done jobs w' :
  makeable (d_batchSize d) → dur_wf (w_store w) →
  dispatcher_claim ctx (clock s) d ctx_done w = Some (jobs, w') → takes jobs w w'.
Proof.
  intros Hn Hwf. unfold dispatcher_claim, gbind, World.Now. cbn.
  destruct (on_store ctx _ _) as [[[out e] w1]|] eqn:Hs; [|done].
  pose proof (on_store_uuids _ _ _ _ _ Hs) as Hu.
  destruct (on_store_keeps _ _ (with_reads (S (w_reads w)) w) (out, e) w1
    (λ _ a m m', stays m m' ∧ settled m m' ∧
       ∀ j, j ∈ a.1 → ∃ v, m !! Job.ID j = Some v ∧ Job.State v = StatePending)
    (λ st a st' Hwf0, match a with (out, e) => λ Hr, dur_ClaimDue st _ _ _ _ _ out e st' Hwf0 Hn Hr end)
    Hwf Hs) as (? & (? & ? & ?) & _).
  destruct e; [destruct ctx_done|]; intros [= <- <-]; by unfold takes.
Qed.

(** The recovery puts back claimed jobs whose lock has lapsed. *)
Definition releases w (now : Z) w' : Prop :=
  ∀ k v, stored (w_store w) !! k = Some v →
    stored (w_store w') !! k = Some v ∨
    (Job.State v = StateClaimed ∧ lapsed (w_store w) now v = true ∧
     stored (w_store w') !! k = Some (Spec.release_job v)).

Lemma janitor_releases ctx w now a w' :
  dur_wf (w_store w) → janitor_resume ctx (clock s) (workerID s) (Some now) w = Some (a, w') →
  dur_wf (w_store w') ∧ w_uuids w' = w_uuids w ∧ releases w now w'.
Proof.
  intros Hwf. cbn [janitor_resume]. unfold gbind.
  destruct (on_store ctx _ w) as [[r w1]|] eqn:Hs; [|done].
  pose proof (on_store_uuids _ _ _ _ _ Hs) as Hu.
  destruct (on_store_keeps _ _ w r w1 (λ l _ m m', ∀ k v, m !! k = Some v → m' !! k = Some v ∨
      (Job.State v = StateClaimed ∧ l now v = true ∧ m' !! k = Some (Spec.release_job v)))
    (λ st a st', dur_RecoverStale st now a st') Hwf Hs) as (? & Hrel & _).
  destruct r as [n [e|]]; [|destruct (0 <? n)]; intros [= _ <-]; by split_and!.
Qed.

(** Before it there is a heartbeat, which leaves the jobs alone. *)
Lemma janitor_beats ctx w a w' :
  dur_wf (w_store w) → janitor_resume ctx (clock s) (workerID s) None w = Some (a, w') →
  dur_wf (w_store w') ∧ w_uuids w' = w_uuids w ∧ stored (w_store w') = stored (w_store w).
Proof.
  intros Hwf. cbn [janitor_resume]. unfold gbind, World.Now. cbn.
  destruct (on_store ctx _ _) as [[e w1]|] eqn:Hs; [|done].
  pose proof (on_store_uuids _ _ _ _ _ Hs) as Hu.
  destruct (on_store_keeps _ _ (with_reads (S (w_reads w)) w) e w1 (λ _ _ m m', m' = m)
    (λ st a st', dur_Heartbeat st (workerID s) _ a st') Hwf Hs) as (? & ? & _).
  by destruct e; intros [= _ <-].
Qed.

(** *** A step of the process *)

(** [effect R a σ σ'] is what a step of [a] does, [R] being what the runner and
    the calls that schedule do to the jobs. *)
Inductive effect (R : gmap string Job.t → gmap string Job.t → Prop) : actor → Sys → Sys → Prop :=
  | effect_claim w w' ls led led' tn tn' q x jobs :
      ls !! q = Some x → takes jobs w w' →
      effect R (Dispatcher q) (mkSys w ls led tn)
        (mkSys w' (<[q := mkLane jobs (chan x) (running x)]> ls) led' tn')
  | effect_move w w' ls led led' tn tn' a q x y :
      ls !! q = Some x → lane_jobs y ⊆ lane_jobs x → w_store w' = w_store w → w_uuids w' = w_uuids w →
      effect R a (mkSys w ls led tn) (mkSys w' (<[q := y]> ls) led' tn')
  | effect_refuse w w' ls led led' tn tn' q x y j :
      ls !! q = Some x → lane_jobs y ⊆ lane_jobs x → j ∈ chan x →
      handlers s !! Job.Name j = None → ends j False w w' →
      effect R (IdleWorker q) (mkSys w ls led tn) (mkSys w' (<[q := y]> ls) led' tn')
  | effect_finish w w' ls led led' tn tn' q x y j start o :
      ls !! q = Some x → lane_jobs y ⊆ lane_jobs x → (j, start) ∈ running x →
      (∃ b, finish_job s (start_ctx b) j start o w = Some (tt, w')) → ends j (o = HReturn None) w w' →
      effect R (BusyWorker q) (mkSys w ls led tn) (mkSys w' (<[q := y]> ls) led' tn')
  | effect_recover w w' ls led led' tn tn' now :
      janitor_at tn = Some now → dur_wf (w_store w') → w_uuids w' = w_uuids w → releases w now w' →
      effect R JanitorLoop (mkSys w ls led tn) (mkSys w' ls led' tn')
  | effect_cancel w w' ls led led' tn tn' id e :
      Scheduler.Cancel id w = Some (e, w') → dur_wf (w_store w') → w_uuids w' = w_uuids w →
      others id (stored (w_store w)) (stored (w_store w')) →
      settled (stored (w_store w)) (stored (w_store w')) →
      effect R Caller (mkSys w ls led tn) (mkSys w' ls led' tn')
  | effect_move_run w w' ls led led' tn tn' :
      dur_wf (w_store w') → w_uuids w' = w_uuids w →
      stays (stored (w_store w)) (stored (w_store w')) →
      settled (stored (w_store w)) (stored (w_store w')) →
      effect R Caller (mkSys w ls led tn) (mkSys w' ls led' tn')
  | effect_routine w w' ls led led' tn tn' a :
      dur_wf (w_store w') → R (stored (w_store w)) (stored (w_store w')) →
      effect R a (mkSys w ls led tn) (mkSys w' ls led' tn').

Section effects.
Variable Pre : World St H → Prop.
Variable R : gmap string Job.t → gmap string Job.t → Prop.
Context `{!PreOrder R}.
Hypothesis Pre_store : ∀ st w, Pre w → Pre (with_store st w).
Hypothesis Pre_other : ∀ w w', w_uuids w' = w_uuids w → Pre w → Pre w'.
Hypothesis Pre_uuids : ∀ w, Pre w → Pre (with_uuids (S (w_uuids w)) w).
Hypothesis R_save : ∀ w m m', Pre w → others (uuid (w_uuids w)) m m' → stays m m' → R m m'.
Hypothesis capacities : ∀ q c, queues s !! q = Some c → makeable c.

Lemma routine_effect {A} (m : GoM (World St H) A) a w b w' ls led tn tn' :
  pres Pre R m → m w = Some (b, w') → dur_wf (w_store w) → Pre w →
  effect R a (mkSys w ls led tn) (mkSys w' ls led tn') ∧ Pre w'.
Proof using Type.
  intros Hm Hr Hwf Hp. destruct (Hm w b w' Hr Hwf Hp) as (? & ? & ?). split; [|done]. by constructor.
Qed.

Lemma step_effect ctx_done a σ σ' :
  step uuid parse s ctx_done a σ σ' → dur_wf (w_store (sys_world σ)) → Pre (sys_world σ) →
  effect R a σ σ' ∧ Pre (sys_world σ').
Proof using All.
  intros Hstep Hwf Hp. destruct Hstep; cbn in Hwf, Hp |- *.
  - assert (Ht : takes jobs w w').
    { eapply (claim_takes (start_ctx ctx_done) w (dispatcher_for s q c)); [by eapply capacities|done|done]. }
    split; [by apply effect_claim|]. by apply (Pre_other w); [apply Ht|].
  - split; [|done]. eapply effect_move; [done| |done..]. intros i. unfold lane_jobs, send. cbn.
    rewrite H2, !elem_of_app, !elem_of_cons, elem_of_nil. tauto.
  - destruct (started_facts s j w) as (Hst & _ & _).
    assert (Hu : w_uuids (started s j w) = w_uuids w).
    { unfold started, fireStart, gbind. cbn. by destruct (OnStart (hooks s)). }
    split; [|by apply (Pre_other w)]. eapply effect_move; [done| |done..]. intros i.
    unfold lane_jobs, receive. cbn. rewrite H2, fmap_app, !elem_of_app. cbn. rewrite !elem_of_cons, elem_of_nil. tauto.
  - pose proof (refuse_ends _ j w tt w' H4 Hwf H5) as He.
    split; [|by apply (Pre_other w); [apply He|]].
    eapply (effect_refuse _ _ _ _ _ _ _ _ _ x); [done| |rewrite H2; by left|done|done]. intros i. unfold lane_jobs, receive. cbn.
    rewrite H2, !elem_of_app, !elem_of_cons. tauto.
  - pose proof (finish_ends _ j start o w tt w' Hwf H2) as He.
    split; [|by apply (Pre_other w); [apply He|]].
    eapply (effect_finish _ _ _ _ _ _ _ _ _ x _ j start o); [done| |rewrite H1; apply elem_of_app; right; by left|by eexists|done]. intros i. unfold lane_jobs. cbn.
    rewrite H1, !fmap_app, !elem_of_app. cbn. rewrite elem_of_cons. tauto.
  - destruct (janitor_at tn) as [now|] eqn:Hnow.
    + destruct (janitor_releases _ w now st w' Hwf H0) as (? & ? & ?).
      split; [by eapply effect_recover|by apply (Pre_other w)].
    + destruct (janitor_beats _ w st w' Hwf H0) as (? & ? & Heq).
      split; [apply effect_routine; [done|by rewrite Heq]|by apply (Pre_other w)].
  - eapply routine_effect; [|done..]. by eapply pres_runner.
  - eapply routine_effect; [|done..]. by eapply pres_At.
  - pose proof (on_store_uuids _ _ _ _ _ H0) as Hu.
    destruct (on_store_keeps _ _ w e w' (λ _ _ m m', others id m m' ∧ settled m m')
      (λ st a st', dur_Cancel st id a st') Hwf H0) as (? & [? ?] & _).
    split; [by eapply (effect_cancel _ _ _ _ _ _ _ _ id e)|by apply (Pre_other w)].
  - pose proof (on_store_uuids _ _ _ _ _ H0) as Hu.
    destruct (on_store_keeps _ _ w e w' (λ _ _ m m', stays m m' ∧ settled m m')
      (λ st a st', dur_Reschedule st id t a st') Hwf H0) as (? & [? ?] & _).
    split; [by apply effect_move_run|by apply (Pre_other w)].
  - eapply routine_effect; [|done..]. by eapply pres_Every.
  - eapply routine_effect; [|done..]. by eapply pres_Cron.
  - split; [by apply effect_routine|by apply (Pre_other w)].
Qed.
End effects.

Lemma effect_wf R a σ σ' :
  effect R a σ σ' → dur_wf (w_store (sys_world σ)) → dur_wf (w_store (sys_world σ')).
Proof.
  intros Heff Hwf. destruct Heff as [? ? ? ? ? ? ? ? ? ? ? Ht|? ? ? ? ? ? ? ? ? ? ? ? ? Hst|? ? ? ? ? ? ? ? ? ? ? ? ? ? ? He
    |? ? ? ? ? ? ? ? ? ? ? ? ? ? ? ? ? He| | | |]; cbn in *; try done; [apply Ht|by rewrite Hst|apply He..].
Qed.

(** Jobs generated from the [n]-th identifier on do not take [k]. *)
Definition unused (k : string) (n : nat) : Prop := ∀ i, (n ≤ i)%nat → uuid i ≠ k.

Hypothesis capacities : ∀ q c, queues s !! q = Some c → makeable c.

Lemma step_stays ctx_done a σ σ' :
  step uuid parse s ctx_done a σ σ' → dur_wf (w_store (sys_world σ)) → effect stays a σ σ'.
Proof using All.
  intros Hstep Hwf. by refine (proj1 (step_effect (λ _, True) stays _ _ _ _ capacities _ _ _ _ Hstep Hwf I)).
Qed.

Lemma step_same k ctx_done a σ σ' :
  step uuid parse s ctx_done a σ σ' → dur_wf (w_store (sys_world σ)) →
  unused k (w_uuids (sys_world σ)) →
  effect (λ m m', m' !! k = m !! k) a σ σ' ∧ unused k (w_uuids (sys_world σ')).
Proof using All.
  intros Hstep Hwf Hk.
  assert (PreOrder (λ m m' : gmap string Job.t, m' !! k = m !! k)).
  { split; [by intros m|]. intros m1 m2 m3 H1 H2. by rewrite H2. }
  refine (step_effect (λ w, unused k (w_uuids w)) _ _ _ _ _ capacities _ _ _ _ Hstep Hwf Hk).
  - done.
  - by intros w w' ->.
  - intros w Hu i Hi. cbn in Hi. apply Hu. lia.
  - intros w m m' Hu Ho _. apply Ho. intros Heq. by apply (Hu (w_uuids w)).
Qed.

(** *** How a job leaves the store *)

(** A worker ends the execution of [k], or finds no handler for it. *)
Definition completes (k : string) (a : actor) σ σ' : Prop :=
  ∃ q x j, sys_lanes σ !! q = Some x ∧ Job.ID j = k ∧
    ((a = IdleWorker q ∧ j ∈ chan x ∧ handlers s !! Job.Name j = None) ∨
     ∃ start o, a = BusyWorker q ∧ (j, start) ∈ running x ∧
       ∃ b, finish_job s (start_ctx b) j start o (sys_world σ) = Some (tt, sys_world σ')).

Lemma completes_refuse w ls led tn σ' q x j :
  ls !! q = Some x → j ∈ chan x → handlers s !! Job.Name j = None →
  completes (Job.ID j) (IdleWorker q) (mkSys w ls led tn) σ'.
Proof. intros. exists q, x, j. split; [done|]. split; [done|]. by left. Qed.

Lemma completes_finish w w' ls led tn ls' led' tn' q x j start o :
  ls !! q = Some x → (j, start) ∈ running x → (∃ b, finish_job s (start_ctx b) j start o w = Some (tt, w')) →
  completes (Job.ID j) (BusyWorker q) (mkSys w ls led tn) (mkSys w' ls' led' tn').
Proof. intros. exists q, x, j. split; [done|]. split; [done|]. right. by exists start, o. Qed.

Lemma completes_in_flight k a σ σ' : completes k a σ σ' → in_flight k σ.
Proof.
  destruct σ as [w ls led tn]. intros (q & x & j & Hx & <- & [(_ & Hj & _)|(start & o & _ & Hj & _)]).
  - by eapply in_flight_chan.
  - by eapply in_flight_running.
Qed.

(** The job is taken away by the end of a successful execution, by a worker
    that holds it when its attempts are used up, or by a cancellation. *)
Definition removes (k : string) (v : Job.t) (a : actor) σ σ' : Prop :=
  (∃ q x j start, a = BusyWorker q ∧ sys_lanes σ !! q = Some x ∧ (j, start) ∈ running x ∧
     Job.ID j = k ∧ ∃ b, finish_job s (start_ctx b) j start (HReturn None) (sys_world σ) = Some (tt, sys_world σ')) ∨
  (completes k a σ σ' ∧ Spec.exhausted v = true) ∨
  (a = Caller ∧ Job.State v = StatePending ∧
     ∃ e, Scheduler.Cancel k (sys_world σ) = Some (e, sys_world σ')).

Lemma effect_removes k v a σ σ' :
  effect stays a σ σ' → stored (w_store (sys_world σ)) !! k = Some v →
  stored (w_store (sys_world σ')) !! k = None → removes k v a σ σ'.
Proof.
  intros Heff Hv Hn. assert (Hk : is_Some (stored (w_store (sys_world σ)) !! k)) by by eexists.
  assert (Hstays : ¬ stays (stored (w_store (sys_world σ))) (stored (w_store (sys_world σ')))).
  { intros Hs. destruct (Hs k Hk) as [v' Hv']. congruence. }
  destruct Heff as [w w' ls led led' tn tn' q x jobs Hx (_ & _ & ? & _)
    |w w' ls led led' tn tn' a q x y Hx Hsub Hst Hu
    |w w' ls led led' tn tn' q x y j Hx Hsub Hj Hh (_ & _ & Ho & He)
    |w w' ls led led' tn tn' q x y j start o Hx Hsub Hj Hf (_ & _ & Ho & He)
    |w w' ls led led' tn tn' now Hnow _ _ Hrel|w w' ls led led' tn tn' id e Hc _ _ Ho Hset| |]; cbn in *; try done.
  - by rewrite Hst in Hstays.
  - destruct (decide (k = Job.ID j)) as [->|Hne]; [|rewrite Ho in Hn by done; congruence].
    right; left. split; [by eapply completes_refuse|]. by destruct (He v Hv Hn).
  - destruct (decide (k = Job.ID j)) as [->|Hne]; [|rewrite Ho in Hn by done; congruence].
    destruct (He v Hv Hn) as [->|Hex]; [left; by exists q, x, j, start|].
    right; left. split; [exact (completes_finish _ _ _ _ _ _ _ _ _ _ _ _ _ Hx Hj Hf)|done].
  - destruct (Hrel k v Hv) as [?|(_ & _ & ?)]; congruence.
  - destruct (decide (k = id)) as [->|Hne]; [|rewrite Ho in Hn by done; congruence].
    right; right. split; [done|]. split; [|by eexists].
    destruct (decide (Job.State v = StatePending)) as [?|Hp]; [done|]. rewrite (Hset id v Hv Hp) in Hn. done.
Qed.

(** *** Who touches a claimed job *)

Lemma effect_protects k v a σ σ' :
  effect (λ m m', m' !! k = m !! k) a σ σ' →
  stored (w_store (sys_world σ)) !! k = Some v → Job.State v = StateClaimed →
  (stored (w_store (sys_world σ')) !! k = Some v ∧ (in_flight k σ' → in_flight k σ)) ∨
  (a = JanitorLoop ∧ (∃ now, janitor_at (sys_turns σ) = Some now ∧
     lapsed (w_store (sys_world σ)) now v = true) ∧
   stored (w_store (sys_world σ')) !! k = Some (Spec.release_job v)) ∨
  completes k a σ σ'.
Proof.
  intros Heff Hv Hc. assert (Hs : Job.State v ≠ StatePending) by (by rewrite Hc).
  destruct Heff as [w w' ls led led' tn tn' q x jobs Hx (_ & _ & _ & Hset & Hjobs)
    |w w' ls led led' tn tn' a q x y Hx Hsub Hst Hu
    |w w' ls led led' tn tn' q x y j Hx Hsub Hj Hh (_ & _ & Ho & _)
    |w w' ls led led' tn tn' q x y j start o Hx Hsub Hj Hf (_ & _ & Ho & _)
    |w w' ls led led' tn tn' now Hnow _ _ Hrel|w w' ls led led' tn tn' id e _ _ _ _ Hset| |]; cbn in *.
  - left. split; [by apply Hset|]. apply (in_flight_insert _ _ _ _ _ _ _ _ _ x); [done|]. intros j Hj Hid.
    destruct (Hjobs j Hj) as (v' & Hv' & Hp). rewrite Hid in Hv'. congruence.
  - left. rewrite Hst. split; [done|]. by apply (in_flight_sub _ _ _ _ _ _ _ _ _ x).
  - destruct (decide (k = Job.ID j)) as [->|Hne].
    + right; right. by eapply completes_refuse.
    + left. rewrite Ho by done. split; [done|]. by apply (in_flight_sub _ _ _ _ _ _ _ _ _ x).
  - destruct (decide (k = Job.ID j)) as [->|Hne].
    + right; right. exact (completes_finish _ _ _ _ _ _ _ _ _ _ _ _ _ Hx Hj Hf).
    + left. rewrite Ho by done. split; [done|]. by apply (in_flight_sub _ _ _ _ _ _ _ _ _ x).
  - destruct (Hrel k v Hv) as [?|(_ & ? & ?)]; [by left|right; left].
    split; [done|]. split; [by exists now|done].
  - left. split; [by apply Hset|done].
  - left. split; [auto|done].
  - left. split; [congruence|done].
Qed.
End process.

(** ** The cluster *)

Section cluster.
Context {St H : Type} `{!StoreOps St, !DurableStore St}.
Variable uuid : nat → string.
Variable parse : string → (Z → Z) + string.
Variable sched : string → Scheduler St H.
Implicit Types (c : @Cluster St H) (σ : @Sys St H).
Hypothesis capacities : ∀ p q n, queues (sched p) !! q = Some n → makeable n.

Abbreviation go := (rtc (cluster_step uuid parse sched)).
Abbreviation jobs_of c := (stored (shared c)).

Lemma turn_removes p a σ σ' c c' :
  turn uuid parse sched p a σ σ' c c' → dur_wf (shared c) →
  dur_wf (shared c') ∧ ∀ k v, jobs_of c !! k = Some v → jobs_of c' !! k = None →
    removes (sched p) k v a (attach c σ) σ'.
Proof using capacities.
  intros (ctx_done & Hp & Hstep & ->) Hwf.
  pose proof (step_stays uuid parse (sched p) (capacities p) _ _ _ _ Hstep Hwf) as Heff.
  split; [by eapply effect_wf|]. intros k v Hv Hn. by eapply effect_removes.
Qed.

Lemma cluster_step_wf c c' : cluster_step uuid parse sched c c' → dur_wf (shared c) → dur_wf (shared c').
Proof using capacities. intros Hs Hwf. destruct Hs; [|done|done]. by eapply turn_removes. Qed.

Lemma cluster_steps_wf c c' : go c c' → dur_wf (shared c) → dur_wf (shared c').
Proof using capacities.
  intros Hr Hwf. induction Hr as [|c c1 c' Hs _ IH]; [done|]. by apply IH, (cluster_step_wf c).
Qed.

(** *** The claim of a job *)

(** [k] is stored as [v], and in the lanes of no process but [p]. *)
Definition held (p k : string) (v : Job.t) c : Prop :=
  jobs_of c !! k = Some v ∧ ∀ p' σ, procs c !! p' = Some σ → in_flight k σ → p' = p.

(** A worker of [p] ends the execution of [k]. *)
Definition worked (p k : string) c c' : Prop :=
  ∃ a σ σ', turn uuid parse sched p a σ σ' c c' ∧ completes (sched p) k a (attach c σ) σ'.

(** The janitor of some process, by the reading of its turn, meets the lock of [k]
    when it has lapsed, and puts the job back. *)
Definition taken_back (k : string) (v : Job.t) c c' : Prop :=
  ∃ p σ σ' now, turn uuid parse sched p JanitorLoop σ σ' c c' ∧ janitor_at (sys_turns σ) = Some now ∧
    lapsed (shared c) now v = true ∧ jobs_of c' !! k = Some (Spec.release_job v).

Lemma boot_idle p w k : ¬ in_flight k (Start (sched p) w).
Proof using Type.
  intros (q & x & j & Hx & Hj & _). cbn in Hx. apply lookup_fmap_Some in Hx as (n & <- & _).
  by apply elem_of_nil in Hj.
Qed.

Lemma held_turn p k v p' a σ σ' c c' :
  turn uuid parse sched p' a σ σ' c c' → dur_wf (shared c) → Job.State v = StateClaimed →
  unused uuid k (ids c) → held p k v c →
  unused uuid k (ids c') ∧ (held p k v c' ∨ worked p k c c' ∨ taken_back k v c c').
Proof using capacities.
  intros Hturn Hwf Hc Hu [Hv Hh]. destruct Hturn as (ctx_done & Hp & Hstep & ->) eqn:Ht.
  destruct (step_same uuid parse (sched p') (capacities p') k _ _ _ _ Hstep Hwf Hu) as [Heff Hu'].
  split; [exact Hu'|].
  destruct (effect_protects _ k v _ _ _ Heff Hv Hc) as [[Hv' Hin]|[(-> & (now & Hnow & Hlap) & Hv')|Hdone]].
  - left. split; [done|]. intros p2 σ2. cbn. rewrite lookup_insert_Some. intros [[<- <-]|[_ Hp2]] Hk.
    + by apply (Hh p' σ), Hin.
    + by eapply Hh.
  - right; right. exists p', σ, σ', now. split; [by exists ctx_done|done].
  - right; left. exists a, σ, σ'. assert (p' = p) as ->.
    { eapply Hh; [done|]. exact (completes_in_flight _ _ _ _ _ Hdone). }
    split; [by exists ctx_done|done].
Qed.

Lemma held_step p k v c c' :
  cluster_step uuid parse sched c c' → dur_wf (shared c) → Job.State v = StateClaimed →
  unused uuid k (ids c) → held p k v c →
  unused uuid k (ids c') ∧ (held p k v c' ∨ worked p k c c' ∨ taken_back k v c c').
Proof using capacities.
  intros Hstep Hwf Hc Hu Hh. destruct Hstep as [p' a σ σ' c c' Hturn|p' c|p' w c Hp'].
  - by eapply held_turn.
  - split; [done|]. left. destruct Hh as [Hv Hh]. split; [done|]. intros p2 σ. cbn.
    rewrite lookup_delete_Some. intros [_ Hp2]. by apply Hh.
  - split; [done|]. left. destruct Hh as [Hv Hh]. split; [done|]. intros p2 σ. cbn.
    rewrite lookup_insert_Some. intros [[<- <-]|[_ Hp2]] Hk; [by destruct (boot_idle p' w k)|by eapply Hh].
Qed.
End cluster.
