(* ===== verification/ClusterProps.v ===== *)
(** What holds of schedulers that share a store, for every interleaving of
    their goroutines, failing calls, crashes and restarts included: a job
    leaves the store only when it has been executed, has used up its attempts
    or is cancelled; while its lock lasts a claimed job stays with the process
    that claimed it; the claim of a process that is gone is recovered and handed
    out again. And where the protection ends: a process that has lost
    its lock still ends the job under its new holder. *)

From S2P Require Import Prelude ListLib Types StoreApi.
From S2P Require Import Sql SqlEngine SqlBackend SqlFacts Sqlite SqliteFacts SqliteProps.
From S2P Require Import Durable SqliteDurable World Recurring Scheduler Worker.
From S2P Require Import RecurringProps WorkerProps SchedulerProps Turns System Cluster Trace ClusterFacts.
Local Open Scope Z_scope.
Local Open Scope go_scope.

(** ** A cluster for the witnesses

    Two processes on one SQLite database; the clock of the first stands at
    1000, that of the second at [late], and a lock lasts a hundred. *)

Definition demo_process (id : string) (clk : nat → Z) : Scheduler Sqlite.Store (list event) :=
  Register "n" (λ _ _ w, (HReturn None, w))
    (WithVisibilityTimeout 100 (WithHooks recording (default_scheduler 4 id clk))).

Definition demo_sched (late : Z) (p : string) : Scheduler Sqlite.Store (list event) :=
  demo_process p (λ _, if bool_decide (p = "a") then 1000 else late).

(** One job is due; both processes are up. *)
Definition demo_shared : Sqlite.Store :=
  after [MSave (demo_row_job "j" PriorityHigh 50)] (demo_db no_faults (λ _, 7)).

Definition demo_world : World Sqlite.Store (list event) := mkWorld demo_shared [] [] 0 0.

Definition demo_cluster : Cluster :=
  boot (demo_sched 1000) "b" demo_world (boot (demo_sched 1000) "a" demo_world (mkCluster demo_shared 0 ∅)).

Lemma demo_queues late p q n : queues (demo_sched late p) !! q = Some n → makeable n.
Proof.
  change (queues (demo_sched late p)) with ({["default" := 4]} : gmap string Z).
  rewrite lookup_singleton_Some. intros [_ <-]. by apply (bool_decide_unpack _).
Qed.

Lemma demo_shared_wf : sql_wf demo_shared.
Proof.
  refine (after_wf [MSave (demo_row_job "j" PriorityHigh 50)] _ (demo_db_wf _ _) _).
  repeat constructor; cbn; try done; try (right; int64_lia); by left.
Qed.

(** What is left of the job, and where it is running. *)
Definition demo_view (c : @Cluster Sqlite.Store (list event)) : option (Z * Z * string) * list string :=
  ((λ v, (Job.State v, Job.Attempt v, Job.LockedBy v)) <$> stored (shared c) !! "j",
   omap (λ pσ, if bool_decide (collect lane_running (sys_lanes pσ.2) = []) then None else Some pσ.1)
        (map_to_list (procs c))).

Definition demo_run (p : string) : list (event_of_cluster (St := Sqlite.Store) (H := list event)) :=
  [Move p (Claim "default"); Move p (Send "default"); Move p (Begin "default")].

(** [a] runs the job past its lock, its janitor still turning; in the middle of
    that turn [b] recovers the job; it claims it and runs it too. [a] fails, and [b]'s claim is gone. *)
Definition demo_overrun := demo_run "a" ++ [Move "a" Tick; Move "b" Tick; Move "b" Tick; Move "a" Tick] ++ demo_run "b".

Definition demo_late : error := ErrOther "late".

Example cluster_double_run :
  demo_view <$> play demo_uuid demo_parse (demo_sched 2000) (demo_run "a") demo_cluster = Some (Some (1, 0, "a"), ["a"]) ∧
  demo_view <$> play demo_uuid demo_parse (demo_sched 2000) demo_overrun demo_cluster = Some (Some (1, 0, "b"), ["a"; "b"]) ∧
  demo_view <$> play demo_uuid demo_parse (demo_sched 2000) (demo_overrun ++ [Move "a" (Finish "default" (HReturn (Some demo_late)))])
    demo_cluster = Some (Some (0, 1, ""), ["b"]).
Proof. vm_compute. done. Qed.

(** ** Properties *)

Section properties.
Context {St H : Type} `{!StoreOps St, !DurableStore St}.
Context (uuid : nat → string) (parse : string → (Z → Z) + string) (sched : string → Scheduler St H).
Implicit Types c : @Cluster St H.

(** C10: no job is dropped: whatever the processes sharing a store do, crash or
    meet, each call of a method of the store being one step, a job leaves the store
    only by the end of a successful execution, by a worker that holds it when its
    attempts are used up, or by a cancellation while it is pending. (Sessions
    of Postgres that overlap inside a call are not steps of the cluster; there
    a cancellation may also meet a job just claimed, [postgres_cancel_race].) *)
Theorem cluster_at_least_once c c' (k : string) (v : Job.t) :
  (∀ p q n, queues (sched p) !! q = Some n → makeable n) → dur_wf (shared c) →
  rtc (cluster_step uuid parse sched) c c' →
  stored (shared c) !! k = Some v → stored (shared c') !! k = None →
  ∃ p a σ σ' c1 c2 v1, rtc (cluster_step uuid parse sched) c c1 ∧
    turn uuid parse sched p a σ σ' c1 c2 ∧ rtc (cluster_step uuid parse sched) c2 c' ∧
    stored (shared c1) !! k = Some v1 ∧ removes (sched p) k v1 a (attach c1 σ) σ'.
Proof.
  intros Hq Hwf Hr. revert v Hwf. induction Hr as [c|c c1 c' Hstep Hr IH]; intros v Hwf Hv Hn; [congruence|].
  pose proof (cluster_step_wf uuid parse sched Hq c c1 Hstep Hwf) as Hwf1.
  destruct (stored (shared c1) !! k) as [v1|] eqn:Hv1.
  - destruct (IH v1 Hwf1 eq_refl Hn) as (p & a & σ & σ' & d1 & d2 & v2 & H1 & H2).
    exists p, a, σ, σ', d1, d2, v2. split; [by eapply rtc_l|done].
  - destruct Hstep as [p a σ σ' c c1 Hturn| |]; cbn in *; [|congruence..].
    exists p, a, σ, σ', c, c1, v. split; [done|]. split; [done|]. split; [done|]. split; [done|].
    by apply (turn_removes uuid parse sched Hq p a σ σ' c c1 Hturn Hwf).
Qed.

(** C11: a claim is exclusive while its lock lasts: a claimed job that is in the
    lanes of at most one process [p] stays as it is, in the store and in the
    lanes of the others, until a worker of [p] ends its execution, or the janitor
    of some process makes a recovery at whose reading (on Postgres and
    Redis, by the server's clock) the lock of the job has lapsed. Each call of
    a method of the store is one step. *)
Theorem cluster_claim_exclusive c c' (p k : string) (v : Job.t) :
  (∀ p q n, queues (sched p) !! q = Some n → makeable n) → dur_wf (shared c) →
  rtc (cluster_step uuid parse sched) c c' →
  held p k v c → Job.State v = StateClaimed → unused uuid k (ids c) →
  held p k v c' ∨
  ∃ c1 c2, rtc (cluster_step uuid parse sched) c c1 ∧ held p k v c1 ∧
    (worked uuid parse sched p k c1 c2 ∨ taken_back uuid parse sched k v c1 c2) ∧
    rtc (cluster_step uuid parse sched) c2 c'.
Proof.
  intros Hq Hwf Hr. revert Hwf. induction Hr as [c|c c1 c' Hstep Hr IH]; intros Hwf Hh Hs Hu; [by left|].
  pose proof (cluster_step_wf uuid parse sched Hq c c1 Hstep Hwf) as Hwf1.
  destruct (held_step uuid parse sched Hq p k v c c1 Hstep Hwf Hs Hu Hh) as (Hu1 & [Hh1|Hw]).
  - destruct (IH Hwf1 Hh1 Hs Hu1) as [?|(d1 & d2 & H1 & H2)]; [by left|right].
    exists d1, d2. split; [by eapply rtc_l|done].
  - right. by exists c, c1.
Qed.
End properties.

(** *** On SQLite *)

Section sqlite.
Context {H : Type} (uuid : nat → string) (parse : string → (Z → Z) + string).
Context (sched : string → Scheduler Sqlite.Store H).
Implicit Types (c : @Cluster Sqlite.Store H) (σ : @Sys Sqlite.Store H) (w : World Sqlite.Store H).

Lemma int64b_time t : int64b (toUnixNano t) = true.
Proof. apply int64b_spec. unfold toUnixNano, Time.UnixNano. case_match; [done|]. apply wrap64_range. Qed.

Lemma job_ints_release t r :
  job_ints r = true →
  job_ints (JobRow.set_updated_at (toUnixNano t) (JobRow.set_locked_until 0 (JobRow.set_locked_by ""
    (JobRow.set_state StatePending r)))) = true.
Proof.
  unfold job_ints. cbn [forallb]. cbn -[int64b]. rewrite int64b_time, !andb_true_iff. by intros (? & ? & ? & ? & ? & ? & ? & ? & ? & ?).
Qed.

Lemma stale_row now r :
  row_ok r → Job.State (row_job r) = StateClaimed → lock_over now (row_job r) = true →
  stale (toUnixNano now) r = true.
Proof.
  intros (_ & Hst & _) Hs. cbn in Hs. rewrite wrap8_id in Hs by done. unfold stale, lock_over. rewrite Hs.
  cbn. unfold fromUnixNano, Time.Unix0. by destruct (Z.eqb_spec (JobRow.locked_until r) 0).
Qed.

(** The recovery puts back every claimed job whose lock is over. *)
Lemma RecoverStale_healthy (s : Sqlite.Store) now :
  sql_wf s → healthy s → time_ok now →
  ∃ m s', RecoverStale now s = Some ((m, None), s') ∧ sql_wf s' ∧ healthy s' ∧
    ∀ k v, stored s !! k = Some v → Job.State v = StateClaimed → lock_over now v = true →
      stored s' !! k = Some (Spec.release_job v).
Proof.
  intros Hwf [Hf [Hv1 Hv2]] Hnow. sql_start Hwf. cbn in Hf, Hv1, Hv2.
  unfold RecoverStale, recoverStaleSQL, stmt, gbind, gret, called, set_tables. cbn. rewrite Hf. cbn.
  do 2 eexists. split; [reflexivity|]. split; [|split].
  - refine (wf_tables _ _ _ _ _ _ _ _ _ _ _ _ _ Hwf _).
    apply schema_ok_update; [done|done|]. intros r (? & ? & ?). by split.
  - split; [done|]. cbn. split; [|done]. intros k r. rewrite update_where_lookup.
    destruct (jobs t !! k) as [r0|] eqn:Hr; [|done]. cbn. intros [= <-]. specialize (Hv1 k r0 Hr).
    destruct (stale _ r0); [by apply job_ints_release|done].
  - intros k v. cbn. unfold rows. cbn. rewrite !lookup_fmap, update_where_lookup.
    destruct (jobs t !! k) as [r|] eqn:Hr; [|done]. cbn. intros [= <-] Hs Hl.
    rewrite (stale_row now r); [done| |done|done]. exact (proj1 (row_ok_at Hok Hr)).
Qed.

(** A turn of the janitor of a process. *)
Lemma janitor_recovers (s : Scheduler Sqlite.Store H) w :
  sql_wf (w_store w) → healthy (w_store w) → time_ok (clock s (w_reads w)) →
  let now := clock s (w_reads w) in
  ∃ w0 w', janitor_resume (start_ctx false) (clock s) (workerID s) None w = Some (Some now, w0) ∧
    w_store w0 = w_store w ∧ w_uuids w0 = w_uuids w ∧
    janitor_resume (start_ctx false) (clock s) (workerID s) (Some now) w0 = Some (None, w') ∧ sql_wf (w_store w') ∧
    healthy (w_store w') ∧ w_reads w' = S (w_reads w) ∧
    ∀ k v, stored (w_store w) !! k = Some v → Job.State v = StateClaimed →
      lock_over now v = true → stored (w_store w') !! k = Some (Spec.release_job v).
Proof.
  intros Hwf Hh Hnow now. destruct (RecoverStale_healthy (w_store w) _ Hwf Hh Hnow) as (m & st & Hr & Hrest).
  exists (with_reads (S (w_reads w)) w).
  cbn [janitor_resume]. unfold gbind, World.Now, on_store, at_store, under. cbn in Hr |- *. unfold now. rewrite Hr.
  destruct (0 <? m); eexists; (split; [reflexivity|]); destruct Hrest as (? & ? & ?); by split_and!.
Qed.

(** A turn of a dispatcher: every due job of the queue, or as many as it has
    workers. *)
Lemma dispatcher_claims (s : Scheduler Sqlite.Store H) q n w k v :
  sql_wf (w_store w) → healthy (w_store w) → 0 ≤ n →
  time_ok (clock s (w_reads w)) → time_ok (Time.Add (clock s (w_reads w)) (visibilityTimeout s)) →
  stored (w_store w) !! k = Some v → Spec.eligible q (clock s (w_reads w)) v = true → Job.ID v = k →
  ∃ js w', dispatcher_claim (start_ctx false) (clock s) (dispatcher_for s q n) false w = Some (js, w') ∧
    (k ∈ Spec.ids js ∨ Z.of_nat (length js) = n).
Proof.
  intros Hwf Hh Hn Hnow Hu Hv He Hid.
  destruct (ClaimDue_yields (w_store w) q _ n (workerID s) _ Hwf Hnow Hu Hn)
    as ([out e] & st & Hr & _ & [(_ & _ & Hbad)|(js & Herr & Hok & Hall & Hout & _)]); [done|].
  cbn in Herr, Hout. subst e. exists out, (with_store st (with_reads (S (w_reads w)) w)). split.
  { unfold dispatcher_claim, gbind, World.Now, on_store, at_store, under. cbn in Hr |- *. by rewrite Hr. }
  assert (Hids : Spec.ids out = Spec.ids js).
  { unfold Spec.ids. transitivity (Job.ID <$> (Spec.job_view <$> out)); [by rewrite <- list_fmap_compose|].
    by rewrite Hout, <- list_fmap_compose. }
  assert (Hlen : length out = length js) by (by rewrite <- (length_fmap Job.ID out), <- (length_fmap Job.ID js); f_equal).
  rewrite Hids, Hlen. destruct (decide (Z.of_nat (length js) < n)) as [Hlt|Hge].
  - left. rewrite <- Hid. apply list_elem_of_fmap_2. by apply (Hall Hlt k v).
  - right. pose proof (Spec.claim_bound _ _ _ _ _ Hok). lia.
Qed.

Lemma released_eligible now v :
  Job.RunAt v ≤ now → Spec.eligible (Job.Queue v) now (Spec.release_job v) = true.
Proof.
  intros Hr. unfold Spec.eligible, Spec.pending_in, Time.After. cbn.
  rewrite bool_decide_eq_true_2 by done. cbn. by rewrite (proj2 (Z.ltb_ge _ _)).
Qed.

(** C12: on a healthy SQLite database the claim of a process that is gone, or too
    slow, is taken over: once the
    lock of a claimed job has passed on its clock, any process that is up, its
    janitor between two turns, puts the job back by the two calls of the next
    turn, and its dispatcher then claims it, or as many jobs as it has
    workers. *)
Theorem cluster_crash_recovered c (p : string) σ (x : lane) (n : Z) (k : string) (v : Job.t) :
  let s := sched p in let q := Job.Queue v in let i := w_reads (sys_world σ) in
  sql_wf (shared c) → healthy (shared c) → procs c !! p = Some σ →
  queues s !! q = Some n → 0 ≤ n → sys_lanes σ !! q = Some x → batch x = [] →
  time_ok (clock s i) → time_ok (clock s (S i)) →
  time_ok (Time.Add (clock s (S i)) (visibilityTimeout s)) →
  stored (shared c) !! k = Some v → Job.State v = StateClaimed →
  lock_over (clock s i) v = true → Job.RunAt v ≤ clock s (S i) → janitor_at (sys_turns σ) = None →
  ∃ σ0 c0 σ1 c1 σ2 c2 y, turn uuid parse sched p JanitorLoop σ σ0 c c0 ∧
    turn uuid parse sched p JanitorLoop σ0 σ1 c0 c1 ∧
    stored (shared c1) !! k = Some (Spec.release_job v) ∧
    turn uuid parse sched p (Dispatcher q) σ1 σ2 c1 c2 ∧ sys_lanes σ2 !! q = Some y ∧
    (k ∈ Spec.ids (batch y) ∨ Z.of_nat (length (batch y)) = n).
Proof.
  intros s q i Hwf Hh Hp Hq Hn Hx Hb Ht1 Ht2 Ht3 Hv Hs Hl Hdue Hidle.
  set (w := sys_world (attach c σ)).
  destruct (janitor_recovers s w Hwf Hh Ht1)
    as (w0 & w1 & Hr0 & Hst0 & Hu0 & Hr1 & Hwf1 & Hh1 & Hrd & Hrel).
  pose proof (Hrel k v Hv Hs Hl) as Hv1.
  assert (Hid : Job.ID v = k).
  { cbn in Hv. unfold rows in Hv. apply lookup_fmap_Some in Hv as (r & <- & Hr). cbn.
    by apply (ok_keyed (proj2 Hwf) k r). }
  set (turns_at jn := mkTurns jn (runner_at (sys_turns σ))).
  set (σ0 := mkSys w0 (sys_lanes σ) (sys_led σ) (turns_at (Some (clock s i)))).
  set (c0 := update_proc p σ0 c).
  set (σ1 := mkSys w1 (sys_lanes σ) (sys_led σ) (turns_at None)). set (c1 := update_proc p σ1 c0).
  assert (Hw1 : w_reads (sys_world (attach c1 σ1)) = S i) by (cbn; by rewrite Hrd).
  destruct (dispatcher_claims s q n (sys_world (attach c1 σ1)) k (Spec.release_job v))
    as (js & w2 & Hr2 & Hk); rewrite ?Hw1; try done; [by apply released_eligible|].
  exists σ0, c0, σ1, c1,
    (mkSys w2 (<[q := mkLane js (chan x) (running x)]> (sys_lanes σ)) (sys_led σ) (turns_at None)).
  eexists _, _. split; [|split; [|split; [exact Hv1|split; [|split; [apply lookup_insert_eq|exact Hk]]]]].
  - exists false. split; [done|]. split; [|done]. unfold attach.
    apply (step_janitor uuid parse s false _ _ _ (sys_turns σ)). by rewrite Hidle.
  - exists false. split; [apply lookup_insert_eq|]. split; [|done].
    apply (step_janitor uuid parse s false _ _ _ (turns_at (Some (clock s i)))).
    cbn. destruct w0. exact Hr1.
  - exists false. split; [apply lookup_insert_eq|]. split; [|done]. by eapply step_claim.
Qed.

End sqlite.

(** *** Witnesses *)

Definition demo_played (late : Z) (es : list event_of_cluster) : Cluster :=
  match play demo_uuid demo_parse (demo_sched late) es demo_cluster with Some c => c | None => demo_cluster end.

Lemma demo_played_steps late es :
  rtc (cluster_step demo_uuid demo_parse (demo_sched late)) demo_cluster (demo_played late es).
Proof.
  unfold demo_played. destruct (play _ _ _ es _) as [c|] eqn:Hp; [|apply rtc_refl]. by apply (play_steps _ _ _ es).
Qed.

Definition demo_claimed_row : Job.t :=
  match stored (shared (demo_played 1000 (demo_run "a"))) !! "j" with Some v => v | None => Job.zero end.

Lemma demo_played_wf late es : dur_wf (shared (demo_played late es)).
Proof.
  apply (cluster_steps_wf demo_uuid demo_parse (demo_sched late) (demo_queues late) demo_cluster);
    [apply demo_played_steps|exact (sql_rows_wf _ demo_shared_wf)].
Qed.

(** No process but [p] has a job in its lanes. *)
Definition alone (p : string) (c : @Cluster Sqlite.Store (list event)) : bool :=
  forallb (λ pσ, bool_decide (pσ.1 = p) || bool_decide (Spec.ids (collect lane_jobs (sys_lanes pσ.2)) = []))
    (map_to_list (procs c)).

Lemma alone_held p k c p' σ :
  alone p c = true → procs c !! p' = Some σ → in_flight k σ → p' = p.
Proof.
  unfold alone. rewrite forallb_forall. intros Ha Hp (q & x & j & Hx & Hj & Hid).
  assert (Hin : (p', σ) ∈ map_to_list (procs c)) by (by apply elem_of_map_to_list).
  apply list_elem_of_In in Hin. specialize (Ha _ Hin). apply orb_true_iff in Ha as [Ha|Ha];
    apply bool_decide_eq_true_1 in Ha; [done|]. cbn in Ha.
  assert (Hc : Job.ID j ∈ Spec.ids (collect lane_jobs (sys_lanes σ))).
  { by apply list_elem_of_fmap_2, (elem_of_collect _ _ q x). }
  rewrite Ha in Hc. by apply elem_of_nil in Hc.
Qed.

Lemma cluster_at_least_once_witness :
  let c' := demo_played 1000 (demo_run "a" ++ [Move "a" (Finish "default" (HReturn None))]) in
  ∃ v, stored (shared demo_cluster) !! "j" = Some v ∧ stored (shared c') !! "j" = None ∧
  ∃ p a σ σ' c1 c2 v1, rtc (cluster_step demo_uuid demo_parse (demo_sched 1000)) demo_cluster c1 ∧
    turn demo_uuid demo_parse (demo_sched 1000) p a σ σ' c1 c2 ∧
    rtc (cluster_step demo_uuid demo_parse (demo_sched 1000)) c2 c' ∧
    stored (shared c1) !! "j" = Some v1 ∧ removes (demo_sched 1000 p) "j" v1 a (attach c1 σ) σ'.
Proof.
  cbv zeta. eexists. split; [vm_compute; reflexivity|]. split; [vm_compute; reflexivity|].
  eapply (cluster_at_least_once demo_uuid demo_parse (demo_sched 1000)).
  - apply demo_queues.
  - exact (sql_rows_wf _ demo_shared_wf).
  - apply demo_played_steps.
  - vm_compute. reflexivity.
  - vm_compute. reflexivity.
Defined.

Lemma demo_uuid_fresh i : demo_uuid i ≠ "j".
Proof. by destruct i. Qed.

(** [b] turns its janitor: at 1000, while [a]'s lock lasts, and at 2000, when it
    has lapsed. *)
Definition demo_swept (late : Z) : Cluster :=
  match play demo_uuid demo_parse (demo_sched late) [Move "b" Tick; Move "b" Tick] (demo_played late (demo_run "a")) with
  | Some c => c
  | None => demo_played late (demo_run "a")
  end.

Lemma cluster_claim_exclusive_witness :
  let v := demo_claimed_row in let c := demo_played 2000 (demo_run "a") in
  Job.LockedUntil v = 1100 ∧
  stored (shared (demo_swept 1000)) !! "j" = Some v ∧
  (Job.State <$> stored (shared (demo_swept 2000)) !! "j") = Some StatePending ∧ held "a" "j" v c ∧
  ∃ c1 c2, rtc (cluster_step demo_uuid demo_parse (demo_sched 2000)) c c1 ∧ held "a" "j" v c1 ∧
    (worked demo_uuid demo_parse (demo_sched 2000) "a" "j" c1 c2 ∨
     taken_back demo_uuid demo_parse (demo_sched 2000) "j" v c1 c2) ∧
    rtc (cluster_step demo_uuid demo_parse (demo_sched 2000)) c2 (demo_swept 2000).
Proof.
  cbv zeta. set (c := demo_played 2000 (demo_run "a")).
  assert (Hheld : held "a" "j" demo_claimed_row c).
  { split; [vm_compute; reflexivity|]. intros p' σ. apply alone_held. vm_compute. reflexivity. }
  assert (Hp : (Job.State <$> stored (shared (demo_swept 2000)) !! "j") = Some StatePending) by (vm_compute; reflexivity).
  split; [vm_compute; reflexivity|]. split; [vm_compute; reflexivity|]. split; [exact Hp|]. split; [exact Hheld|].
  destruct (cluster_claim_exclusive demo_uuid demo_parse (demo_sched 2000) c (demo_swept 2000) "a" "j" demo_claimed_row)
    as [[Hv _]|Hex]; [..|clear - Hp Hv; rewrite Hv in Hp; vm_compute in Hp; discriminate Hp|exact Hex].
  - apply demo_queues.
  - apply demo_played_wf.
  - unfold demo_swept. fold c. destruct (play _ _ _ _ c) as [d|] eqn:Hd; [|apply rtc_refl].
    by apply (play_steps _ _ _ _ _ _ Hd).
  - exact Hheld.
  - vm_compute. reflexivity.
  - intros i _. apply demo_uuid_fresh.
Defined.

(** [a] is gone after it has claimed the job. *)
Definition demo_orphan : Cluster := demo_played 2000 (demo_run "a" ++ [Crash "a"]).

Definition demo_taken : Sqlite.Store :=
  mkEngine (mkTables {["j" := claim_row "a" 1100 1000 (save_row (demo_row_job "j" PriorityHigh 50))]} ∅)
    None no_faults (calls (shared demo_orphan)) (λ _, 7) 0 (λ _, 0) demo_scan.

Lemma demo_taken_healthy : sql_wf demo_taken ∧ healthy demo_taken.
Proof.
  split; [split; [split; [done|by intros Row m]|]|split; [done|]].
  - apply (schema_ok_insert _ "j"); [apply schema_ok_empty|by vm_compute|done].
  - cbn. split; [by apply map_Forall_singleton|by apply map_Forall_empty].
Qed.

Lemma demo_orphan_store : shared demo_orphan = demo_taken.
Proof. vm_compute. reflexivity. Qed.

Definition demo_taken_row : Job.t :=
  match stored demo_taken !! "j" with Some v => v | None => Job.zero end.

Lemma demo_time_ok' z : 0 < z ≤ 10 ^ 9 → time_ok z.
Proof. intros Hz. right. int64_lia. Qed.

Lemma cluster_crash_recovered_witness :
  procs demo_orphan !! "a" = None ∧
  ∃ σ σ0 c0 σ1 c1 σ2 c2 y, procs demo_orphan !! "b" = Some σ ∧
    turn demo_uuid demo_parse (demo_sched 2000) "b" JanitorLoop σ σ0 demo_orphan c0 ∧
    turn demo_uuid demo_parse (demo_sched 2000) "b" JanitorLoop σ0 σ1 c0 c1 ∧
    stored (shared c1) !! "j" = Some (Spec.release_job demo_taken_row) ∧
    turn demo_uuid demo_parse (demo_sched 2000) "b" (Dispatcher "default") σ1 σ2 c1 c2 ∧
    sys_lanes σ2 !! "default" = Some y ∧
    ("j" ∈ Spec.ids (batch y) ∨ Z.of_nat (length (batch y)) = 4).
Proof.
  split; [vm_compute; reflexivity|].
  exists (Start (demo_sched 1000 "b") demo_world).
  destruct (cluster_crash_recovered demo_uuid demo_parse (demo_sched 2000) demo_orphan "b"
    (Start (demo_sched 1000 "b") demo_world) empty_lane 4 "j" demo_taken_row)
    as (σ0 & c0 & σ1 & c1 & σ2 & c2 & y & Hres).
  - rewrite demo_orphan_store. exact (proj1 demo_taken_healthy).
  - rewrite demo_orphan_store. exact (proj2 demo_taken_healthy).
  - vm_compute. reflexivity.
  - vm_compute. reflexivity.
  - discriminate.
  - vm_compute. reflexivity.
  - reflexivity.
  - apply (demo_time_ok' 2000). done.
  - apply (demo_time_ok' 2000). done.
  - apply (demo_time_ok' 2100). done.
  - rewrite demo_orphan_store. vm_compute. reflexivity.
  - vm_compute. reflexivity.
  - vm_compute. reflexivity.
  - vm_compute. discriminate.
  - reflexivity.
  - exists σ0, c0, σ1, c1, σ2, c2, y. split; [vm_compute; reflexivity|exact Hres].
Defined.



