(* ===== verification/Cancelled.v ===== *)
(** The goroutines after the cancellation of the context given to [Start], on a
    store that heeds it. [src/worker.go], [src/dispatcher.go], [src/janitor.go]
    and [src/recurring.go] pass that context, or one made from it, to every
    method of the store they call (the contexts of [Worker], [Turns] and [System]),
    and a database's driver refuses a call whose context has ended
    ([HeedsContext]). *)

From S2P Require Import Prelude ListLib Types StoreApi.
From S2P Require Import Sql SqlEngine SqlBackend SqlFacts Sqlite SqliteFacts SqliteProps.
From S2P Require Import Durable SqliteDurable World Recurring Scheduler Worker.
From S2P Require Import RecurringProps WorkerProps SchedulerProps Turns System Cluster ClusterFacts.
Local Open Scope Z_scope.
Local Open Scope go_scope.

Section cancelled.
Context {St H : Type} `{!StoreOps St, !DurableStore St, !HeedsContext St}.
Variable uuid : nat → string.
Variable parse : string → (Z → Z) + string.
Variable s : Scheduler St H.
Implicit Types w : World St H.

(** Nothing of the jobs has changed. *)
Definition frozen w w' : Prop := stored (w_store w') = stored (w_store w).

(** A call with the cancelled context. *)
Lemma refused_call {A} e (m : GoM St A) (failed : A → Prop) w :
  refused e m failed →
  ∃ r st, on_store (mkContext (Some e)) m w = Some (r, with_store st w) ∧
    stored st = stored (w_store w) ∧ failed r.
Proof.
  intros Hm. destruct (Hm (w_store w)) as (r & st & Hr & ? & ?). exists r, st.
  unfold on_store, at_store. by rewrite Hr.
Qed.

(** The calls of a routine: each is refused. *)
Ltac refuse H :=
  match goal with |- context [on_store (start_ctx true) ?m ?w] =>
    let r := fresh "r" in let st := fresh "st" in let Hr := fresh "Hr" in
    edestruct (refused_call "context canceled" m) as (r & st & Hr & ? & ?); [apply H|];
    change (mkContext (Some "context canceled")) with (start_ctx true) in Hr; rewrite Hr; clear Hr
  end.

Lemma finish_frozen j start o w :
  ∃ w', finish_job s (start_ctx true) j start o w = Some (tt, w') ∧ frozen w w' ∧
    (o = HReturn None → w_hooks w' = apply_event (hooks s)
       (event_of j (λ i n q, EvSuccess i n q (wrap64 (Job.Attempt j + 1))
                               (Time.Sub (clock s (w_reads w)) start))) (w_hooks w)).
Proof.
  unfold finish_job, gbind at 1, World.Now. destruct (outcome_error o) as [err|] eqn:Ho.
  - unfold handle_error, gbind, World.Now, fireFailure, fireRetry.
    destruct (_ <=? _); refuse (heeds_Fail (S := St)); destruct H1 as [msg ->]; cbn.
    + destruct (OnFailure (hooks s)); eexists; (split; [reflexivity|]); (split; [done|]); by intros ->.
    + eexists; (split; [reflexivity|]); (split; [done|]); by intros ->.
  - unfold handle_success, gbind, fireSuccess, event_of. refuse (heeds_Ack (S := St)).
    destruct H1 as [msg ->]. cbn.
    destruct (OnSuccess (hooks s)) eqn:Hh; eexists; (split; [reflexivity|]); (split; [done|]); cbn; by rewrite ?Hh.
Qed.

Lemma refuse_frozen j w a w' :
  handlers s !! Job.Name j = None → executeOne (start_ctx true) s j w = Some (a, w') → frozen w w'.
Proof.
  intros Hh. unfold executeOne, handler. rewrite Hh. unfold gbind, World.Now, fireFailure.
  refuse (heeds_Fail (S := St)). cbn. destruct (OnFailure (hooks s)); by intros [= _ <-].
Qed.

Lemma claim_frozen d w jobs w' :
  dispatcher_claim (start_ctx true) (clock s) d true w = Some (jobs, w') → jobs = [] ∧ frozen w w'.
Proof.
  unfold dispatcher_claim, gbind, World.Now. refuse (heeds_ClaimDue (S := St)).
  destruct r as [out e], H1 as [[= ->] [msg [= ->]]]. cbn. by intros [= <- <-].
Qed.

Lemma janitor_frozen w jn a w' :
  janitor_resume (start_ctx true) (clock s) (workerID s) jn w = Some (a, w') → frozen w w'.
Proof.
  destruct jn as [now|]; unfold janitor_resume, gbind, World.Now.
  - refuse (heeds_RecoverStale (S := St)). destruct r as [n e], H1 as [[= ->] [msg [= ->]]]. by intros [= _ <-].
  - refuse (heeds_Heartbeat (S := St)). by destruct r; intros [= _ <-].
Qed.

Lemma runner_frozen fuel r tn w a w' :
  runner_resume parse uuid (start_ctx true) fuel (clock s) r tn w = Some (a, w') → frozen w w'.
Proof.
  destruct tn as [|now [|spec specs]|now spec [|t fires] specs]; cbn [runner_resume].
  - unfold gbind, World.Now. refuse (heeds_ListRecurring (S := St)).
    destruct r0 as [out e], H1 as [msg [= ->]]. by intros [= _ <-].
  - by intros [= _ <-].
  - destruct (Time.After _ now); [by intros [= _ <-]|]. unfold gbind.
    refuse (heeds_AcquireRecurringLease (S := St)). destruct r0 as [b e], H1 as [[= ->] [msg [= ->]]].
    by intros [= _ <-].
  - unfold gbind at 1. destruct (nextAfter parse fuel spec now w) as [[next w1]|] eqn:Hn; [|done].
    apply nextAfter_some in Hn as [Hs1 _]. unfold gbind. refuse (heeds_UpdateRecurringNextRun (S := St)).
    intros [= _ <-]. unfold frozen. cbn. by rewrite <- Hs1.
  - unfold save_fire, gbind, NewString. refuse (heeds_Save (S := St)). destruct H1 as [msg ->]. by intros [= _ <-].
Qed.

Lemma step_frozen a σ σ' :
  step uuid parse s true a σ σ' → a ≠ Caller → frozen (sys_world σ) (sys_world σ').
Proof.
  intros Hstep Ha. destruct Hstep; cbn; try done.
  - by eapply claim_frozen.
  - destruct (started_facts s j w) as (Hst & _ & _). unfold frozen. by rewrite Hst.
  - by eapply refuse_frozen.
  - destruct (finish_frozen j start o w) as (w1 & Hr & Hf & _). congruence.
  - by eapply janitor_frozen.
  - by eapply runner_frozen.
Qed.

(** A step of a goroutine after the cancellation. *)
Definition cancelled_step (σ σ' : Sys) : Prop := ∃ a, a ≠ Caller ∧ step uuid parse s true a σ σ'.
End cancelled.

(** ** Properties *)

(** C13: what ends after the cancellation is not recorded, on a store whose driver
    refuses a call with an ended context, as those of SQLite and Postgres do: the
    context the goroutines pass to the store is the one that was cancelled,
    so that no turn of any of them changes a job any more; in particular
    the job of a handler that returns in time, within the grace period, stays
    claimed, and yet [OnSuccess] is called for it. *)
Theorem cancelled_success_lost {St H : Type} `{!StoreOps St, !DurableStore St, !HeedsContext St}
    (uuid : nat → string) (parse : string → (Z → Z) + string) (s : Scheduler St H) (σ σ' : Sys)
    (q : string) (x : lane) (j : Job.t) (start : Z) :
  rtc (cancelled_step uuid parse s) σ σ' → sys_lanes σ' !! q = Some x → (j, start) ∈ running x →
  stored (w_store (sys_world σ')) = stored (w_store (sys_world σ)) ∧
  ∃ w', step uuid parse s true (BusyWorker q) σ' w' ∧
    stored (w_store (sys_world w')) = stored (w_store (sys_world σ)) ∧
    w_hooks (sys_world w') = apply_event (hooks s)
      (event_of j (λ i n q, EvSuccess i n q (wrap64 (Job.Attempt j + 1))
                              (Time.Sub (clock s (w_reads (sys_world σ'))) start)))
      (w_hooks (sys_world σ')).
Proof.
  intros Hr Hx Hj.
  assert (Hf : frozen (sys_world σ) (sys_world σ')).
  { clear Hx Hj. induction Hr as [|σ σ1 σ' (a & Ha & Hstep) _ IH]; [done|]. unfold frozen in *.
    by rewrite IH, (step_frozen uuid parse s a σ σ1 Hstep Ha). }
  split; [done|].
  destruct (finish_frozen s j start (HReturn None) (sys_world σ')) as (w' & Hrun & Hs' & Hh).
  apply list_elem_of_split in Hj as (r1 & r2 & Hj). destruct σ' as [w ls led tn].
  eexists. split; [by eapply step_finish|]. unfold frozen in *. split; [cbn in *; congruence|]. by apply Hh.
Qed.

(** *** Witness *)

(** The job is running when the context is cancelled; the database works. *)
Definition demo_cancelled : @Sys Sqlite.Store (list event) :=
  mkSys (mkWorld (mkEngine (mkTables {["j" := claim_row "a" 1100 1000 (save_row (demo_row_job "j" PriorityHigh 50))]} ∅)
      None no_faults 6 (λ _, 7) 0 (λ _, 0) demo_scan) [] [] 1 0)
    {["default" := mkLane [] [] [(demo_row_job "j" PriorityHigh 50, 1000)]]} [] no_turns.

Definition demo_canceller : Scheduler Sqlite.Store (list event) :=
  WithHooks recording (default_scheduler 4 "a" (λ _, 1050)).

(** Had the context not ended, the job would be acknowledged. *)
Lemma cancelled_success_lost_witness :
  (λ r, stored (w_store r.2) !! "j") <$> finish_job demo_canceller (start_ctx false)
    (demo_row_job "j" PriorityHigh 50) 1000 (HReturn None) (sys_world demo_cancelled) = Some None ∧
  ∃ σ', step RecurringProps.demo_uuid RecurringProps.demo_parse demo_canceller true (BusyWorker "default")
      demo_cancelled σ' ∧
    (Job.State <$> stored (w_store (sys_world σ')) !! "j") = Some StateClaimed ∧
    w_hooks (sys_world σ') = [EvSuccess "j" "n" "default" 1 50].
Proof.
  split; [vm_compute; reflexivity|].
  destruct (cancelled_success_lost RecurringProps.demo_uuid RecurringProps.demo_parse demo_canceller
    demo_cancelled demo_cancelled "default" (mkLane [] [] [(demo_row_job "j" PriorityHigh 50, 1000)])
    (demo_row_job "j" PriorityHigh 50) 1000) as (_ & σ' & Hstep & Hs & Hh).
  - apply rtc_refl.
  - reflexivity.
  - by left.
  - exists σ'. split; [exact Hstep|]. split; [rewrite Hs; vm_compute; reflexivity|]. rewrite Hh. reflexivity.
Defined.
