(* ===== verification/Postgres.v ===== *)
(** The Postgres store ([src/store/postgres/store.go], [listen.go]): every
    method as the SQL statements it runs. Several schedulers share one
    database; a method made of one statement is one step, and [Fail], [Cancel]
    and [Reschedule], which read before they write, are split at that point so
    that other sessions can be put in between ([Fail_from], [Cancel_from],
    [Reschedule_from]). *)

From S2P Require Import Prelude ListLib Types StoreApi Sql SqlEngine.
From Stdlib Require Import Ascii.
Local Open Scope Z_scope.
Local Open Scope go_scope.

(** The driver: the instant a [TIMESTAMPTZ] column holds for a [time.Time] (it
    has a resolution of microseconds). *)
Class PgDriver : Type := { encode_ts : Z → Z }.

Definition errf (what msg : string) : error := ErrOther (what +:+ msg).

(** [INTEGER] columns have 32 bits, [SMALLINT] ones 16. *)
Definition int4b (x : Z) : bool := (- 2 ^ 31 <=? x) && (x <? 2 ^ 31).
Definition int2b (x : Z) : bool := (- 2 ^ 15 <=? x) && (x <? 2 ^ 15).
Definition range_message : string := "integer out of range".

(** ** State *)

(** The tables, and the notifications sent, by channel. *)
Record Tables : Type := mkTables {
  jobs : gmap string JobRow.t;
  recurring : gmap string (RecRow.t bool);
  workers : gmap string Z;
  notices : list string
}.

Definition set_jobs (m : gmap string JobRow.t) (t : Tables) : Tables :=
  mkTables m (recurring t) (workers t) (notices t).
Definition set_recurring (m : gmap string (RecRow.t bool)) (t : Tables) : Tables :=
  mkTables (jobs t) m (workers t) (notices t).
Definition set_workers (m : gmap string Z) (t : Tables) : Tables :=
  mkTables (jobs t) (recurring t) m (notices t).
Definition add_notice (c : string) (t : Tables) : Tables :=
  mkTables (jobs t) (recurring t) (workers t) (notices t ++ [c]).

Definition Store : Type := Engine Tables.

(** [TRUNCATE jobs, recurring, workers]. *)
Definition Truncate : GoM Store (option error) :=
  try! _ := stmt (λ s, (tt, mkTables ∅ ∅ ∅ (notices (tables s))))
    else (λ m, Some (errf "postgres truncate: " m)) in
  gret None.

Section store.
Context `{!PgDriver}.

(** *** Reading rows *)
Definition scanJob (r : JobRow.t) : Job.t :=
  {| Job.ID := JobRow.id r; Job.Name := JobRow.name r; Job.Queue := JobRow.queue r;
     Job.Priority := wrap8 (JobRow.priority r); Job.Payload := JobRow.payload r;
     Job.CodecName := JobRow.codec_name r; Job.RunAt := JobRow.run_at r;
     Job.Attempt := JobRow.attempt r; Job.MaxAttempts := JobRow.max_attempts r;
     Job.State := wrap8 (JobRow.state r); Job.Delivery := 0; Job.Timeout := JobRow.timeout_ns r;
     Job.LockedBy := JobRow.locked_by r; Job.LockedUntil := JobRow.locked_until r;
     Job.LastError := JobRow.last_error r; Job.RecurringID := JobRow.recurring_id r;
     Job.CreatedAt := JobRow.created_at r; Job.UpdatedAt := JobRow.updated_at r;
     Job.catchup := false |}.

Definition scanRecurring (r : RecRow.t bool) : RecurringSpec.t :=
  {| RecurringSpec.ID := RecRow.id r; RecurringSpec.Name := RecRow.name r;
     RecurringSpec.Queue := RecRow.queue r; RecurringSpec.Priority := wrap8 (RecRow.priority r);
     RecurringSpec.Payload := RecRow.payload r; RecurringSpec.CodecName := RecRow.codec_name r;
     RecurringSpec.Delivery := 0; RecurringSpec.Timeout := RecRow.timeout_ns r;
     RecurringSpec.MaxAttempts := RecRow.max_attempts r; RecurringSpec.Cron := RecRow.cron r;
     RecurringSpec.Every := RecRow.every_ns r; RecurringSpec.Catchup := RecRow.catchup r;
     RecurringSpec.LeaseUntil := RecRow.lease_until r;
     RecurringSpec.LeasedBy := RecRow.leased_by r;
     RecurringSpec.NextRunAt := RecRow.next_run_at r;
     RecurringSpec.LastFireAt := RecRow.last_fire_at r |}.

(** ** Jobs *)

Definition save_row (j : Job.t) : JobRow.t :=
  let state := if Job.State j =? 0 then StatePending else Job.State j in
  let maxAttempts := if Job.MaxAttempts j =? 0 then 3 else Job.MaxAttempts j in
  {| JobRow.id := Job.ID j; JobRow.queue := Job.Queue j; JobRow.name := Job.Name j;
     JobRow.payload := Job.Payload j; JobRow.codec_name := Job.CodecName j;
     JobRow.priority := Job.Priority j; JobRow.run_at := encode_ts (Job.RunAt j);
     JobRow.attempt := Job.Attempt j; JobRow.max_attempts := maxAttempts; JobRow.state := state;
     JobRow.timeout_ns := Job.Timeout j; JobRow.locked_by := Job.LockedBy j;
     JobRow.locked_until := encode_ts (Job.LockedUntil j); JobRow.last_error := Job.LastError j;
     JobRow.recurring_id := Job.RecurringID j; JobRow.created_at := encode_ts (Job.CreatedAt j);
     JobRow.updated_at := encode_ts (Job.UpdatedAt j) |}.

(** [upsertJobSQL]: a conflict keeps [created_at] and takes the other columns. *)
Definition upsertJobSQL (r : JobRow.t) (s : Store) : string + unit * Tables :=
  if int2b (JobRow.priority r) && int2b (JobRow.state r) && int4b (JobRow.attempt r) &&
     int4b (JobRow.max_attempts r)
  then inr (tt, set_jobs (upsert (JobRow.id r)
         (λ old new, JobRow.set_created_at (JobRow.created_at old) new) r (jobs (tables s))) (tables s))
  else inl range_message.

Definition notifyChannel (queue : string) : string := "goschedule_" +:+ queue.

(** The notification is sent after the insert; its failure is ignored. *)
Definition Save (j : Job.t) : GoM Store (option error) :=
  try! _ := stmt_may (upsertJobSQL (save_row j)) else (λ m, Some (errf "postgres save: " m)) in
  do! stmt (λ s, (tt, add_notice (notifyChannel (Job.Queue j)) (tables s))) in
  gret None.

(** [sortJobs]: an insertion sort in place. [shift k j js] is the inner loop,
    about to look at position [k - 1]. *)
Fixpoint shift (k : nat) (j : Job.t) (js : list Job.t) : list Job.t :=
  match k with
  | O => <[0%nat := j]> js
  | S k' =>
      match js !! k' with
      | Some x => if jobLess j x then shift k' j (<[k := x]> js) else <[k := j]> js
      | None => js
      end
  end.

Definition sort_turn (js : list Job.t) (i : nat) : list Job.t :=
  match js !! i with Some j => shift i j js | None => js end.

(** [for i := 1; i < len(js); i++]. *)
Definition sortJobs (js : list Job.t) : list Job.t :=
  foldl sort_turn js (seq 1 (length js - 1)).

(** The CTE of [claimDueSQL]; [skipped] are the rows other transactions hold
    locks on ([FOR UPDATE SKIP LOCKED]). *)
Definition claim_where (skipped : gset string) (queue : string) (now : Z) (r : JobRow.t) : bool :=
  bool_decide (JobRow.queue r = queue) && (JobRow.state r =? StatePending) &&
  (JobRow.run_at r <=? now) && bool_decide (JobRow.id r ∉ skipped).

Definition claim_order (a b : JobRow.t) : bool :=
  if negb (JobRow.priority a =? JobRow.priority b) then JobRow.priority b <? JobRow.priority a
  else JobRow.run_at a <? JobRow.run_at b.

Definition due (skipped : gset string) (queue : string) (now n : Z) (s : Store) : list JobRow.t :=
  select_where (scan s) (claim_where skipped queue now) claim_order n (jobs (tables s)).

Definition claim_row (workerID : string) (lockUntil now : Z) (r : JobRow.t) : JobRow.t :=
  JobRow.set_updated_at now (JobRow.set_locked_until lockUntil
    (JobRow.set_locked_by workerID (JobRow.set_state StateClaimed r))).

(** [UPDATE jobs ... FROM due ... RETURNING]: the rows updated come back in the
    order of the engine. *)
Definition claim_update (ids : list string) (workerID : string) (lockUntil now : Z) (s : Store)
    : list JobRow.t * Tables :=
  let m := update_where (λ r, bool_decide (JobRow.id r ∈ ids)) (claim_row workerID lockUntil now)
                        (jobs (tables s)) in
  (filter (λ r, JobRow.id r ∈ ids) (scan s m), set_jobs m (tables s)).

Definition claimDueSQL (skipped : gset string) (queue : string) (now n : Z) (workerID : string)
    (lockUntil : Z) (s : Store) : string + list JobRow.t * Tables :=
  if n <? 0 then inl "LIMIT must not be negative"
  else inr (claim_update (JobRow.id <$> due skipped queue now n s) workerID lockUntil now s).

(** The server reports what goes wrong in the statement while the rows are
    read; the statement is then undone. *)
Definition ClaimDue_skipping (skipped : gset string) (queue : string) (now n : Z) (workerID : string)
    (lockUntil : Z) : GoM Store (list Job.t * option error) :=
  try! _ := query (λ _, tt) else (λ m, ([], Some (errf "postgres claim: " m))) in
  try! rows := stmt_may (claimDueSQL skipped queue (encode_ts now) n workerID (encode_ts lockUntil))
    else (λ m, ([], Some (errf "postgres claim iterate: " m))) in
  gret (sortJobs (scanJob <$> rows), None).

Definition ClaimDue := ClaimDue_skipping ∅.

Definition job_is (k : string) : JobRow.t → bool := by_key JobRow.id k (λ _, true).
Definition job_in (k : string) (state : Z) : JobRow.t → bool :=
  by_key JobRow.id k (λ r, JobRow.state r =? state).

(** [DELETE FROM jobs WHERE ...], with the number of rows deleted. *)
Definition delete_jobs (P : JobRow.t → bool) (s : Store) : nat * Tables :=
  (count_where P (jobs (tables s)), set_jobs (delete_where P (jobs (tables s))) (tables s)).

Definition ackSQL (k : string) : Store → nat * Tables := delete_jobs (job_in k StateClaimed).

Definition Ack (k : string) : GoM Store (option error) :=
  try! rows := stmt (ackSQL k) else (λ m, Some (errf "postgres ack: " m)) in
  gret (if (rows =? 0)%nat then Some ErrJobNotFound else None).

(** [QueryRow]: the first row selected, if any. *)
Definition job_row (P : JobRow.t → bool) (s : Store) : option JobRow.t :=
  head (filter (λ r, P r = true) (scan s (jobs (tables s)))).

(** [attempt + 1] is refused when it leaves the column's range. *)
Definition failRetrySQL (errMsg : string) (at_ now : Z) (k : string) (s : Store)
    : string + unit * Tables :=
  let P := job_in k StateClaimed in
  if forallb (λ r, negb (P r) || int4b (JobRow.attempt r + 1)) (map_to_list (jobs (tables s))).*2
  then inr (tt, set_jobs (update_where P
    (λ r, JobRow.set_updated_at now (JobRow.set_locked_until Time.zero (JobRow.set_locked_by ""
            (JobRow.set_run_at at_ (JobRow.set_state StatePending
              (JobRow.set_last_error errMsg (JobRow.set_attempt (JobRow.attempt r + 1) r)))))))
    (jobs (tables s))) (tables s))
  else inl range_message.

(** [Fail], once its [SELECT] has returned [row]. *)
Definition Fail_from (k errMsg : string) (nextAttemptAt : Z) (row : option JobRow.t)
    : GoM Store (option error) :=
  match row with
  | None => gret (Some ErrJobNotFound)
  | Some r =>
      let nextAttempt := JobRow.attempt r + 1 in
      if (0 <? JobRow.max_attempts r) && (JobRow.max_attempts r <=? nextAttempt) then
        try! _ := stmt (delete_jobs (job_is k)) else (λ m, Some (errf "postgres fail terminal: " m)) in
        try! _ := Commit else (λ m, Some (errf "postgres fail commit: " m)) in
        gret None
      else
        let! now := time_Now in
        try! _ := stmt_may (failRetrySQL errMsg (encode_ts nextAttemptAt) (encode_ts now) k)
          else (λ m, Some (errf "postgres fail retry: " m)) in
        try! _ := Commit else (λ m, Some (errf "postgres fail commit: " m)) in
        gret None
  end.

Definition Fail (k errMsg : string) (nextAttemptAt : Z) : GoM Store (option error) :=
  try! _ := Begin else (λ m, Some (errf "postgres fail begin: " m)) in
  deferring_rollback (
    try! row := query (job_row (job_in k StateClaimed))
      else (λ m, Some (errf "postgres fail select: " m)) in
    Fail_from k errMsg nextAttemptAt row).

(** [Cancel], once its [SELECT] has returned [row]. *)
Definition Cancel_from (k : string) (row : option JobRow.t) : GoM Store (option error) :=
  match row with
  | None => gret (Some ErrJobNotFound)
  | Some r =>
      if negb (wrap8 (JobRow.state r) =? StatePending) then gret (Some ErrJobNotPending)
      else
        try! _ := stmt (delete_jobs (job_is k)) else (λ m, Some (errf "postgres cancel delete: " m)) in
        try! _ := Commit else (λ m, Some (errf "postgres cancel commit: " m)) in
        gret None
  end.

Definition Cancel (k : string) : GoM Store (option error) :=
  try! _ := Begin else (λ m, Some (errf "postgres cancel begin: " m)) in
  deferring_rollback (
    try! row := query (job_row (job_is k)) else (λ m, Some (errf "postgres cancel select: " m)) in
    Cancel_from k row).

Definition rescheduleUpdateSQL (at_ now : Z) (k : string) (t : Tables) : Tables :=
  set_jobs (update_where (job_is k) (λ r, JobRow.set_updated_at now (JobRow.set_run_at at_ r))
                         (jobs t)) t.

(** [Reschedule], once its [SELECT] has returned [row]. *)
Definition Reschedule_from (k : string) (newTime : Z) (row : option JobRow.t)
    : GoM Store (option error) :=
  match row with
  | None => gret (Some ErrJobNotFound)
  | Some r =>
      if negb (wrap8 (JobRow.state r) =? StatePending) then gret (Some ErrJobNotPending)
      else
        let! now := time_Now in
        try! _ := stmt (λ s, (tt, rescheduleUpdateSQL (encode_ts newTime) (encode_ts now) k (tables s)))
          else (λ m, Some (errf "postgres reschedule update: " m)) in
        try! _ := Commit else (λ m, Some (errf "postgres reschedule commit: " m)) in
        gret None
  end.

Definition Reschedule (k : string) (newTime : Z) : GoM Store (option error) :=
  try! _ := Begin else (λ m, Some (errf "postgres reschedule begin: " m)) in
  deferring_rollback (
    try! row := query (job_row (job_is k)) else (λ m, Some (errf "postgres reschedule select: " m)) in
    Reschedule_from k newTime row).

Definition Heartbeat (workerID : string) (now : Z) : GoM Store (option error) :=
  try! _ := stmt (λ s, (tt, set_workers (<[workerID := encode_ts now]> (workers (tables s))) (tables s)))
    else (λ m, Some (errf "postgres heartbeat: " m)) in
  gret None.

(** The server's clock decides what is stale. *)
Definition stale (server : Z) (r : JobRow.t) : bool :=
  (JobRow.state r =? StateClaimed) && (Time.zero <? JobRow.locked_until r) &&
  (JobRow.locked_until r <? server).

Definition recoverStaleSQL (now : Z) (s : Store) : nat * Tables :=
  let P := stale (server_now s (calls s)) in
  (count_where P (jobs (tables s)),
   set_jobs (update_where P
     (λ r, JobRow.set_updated_at now (JobRow.set_locked_until Time.zero (JobRow.set_locked_by ""
             (JobRow.set_state StatePending r)))) (jobs (tables s))) (tables s)).

Definition RecoverStale (now : Z) : GoM Store (Z * option error) :=
  try! rows := stmt (recoverStaleSQL (encode_ts now))
    else (λ m, (0, Some (errf "postgres recover stale: " m))) in
  gret (Z.of_nat rows, None).

Definition queueSizeSQL (queue : string) (s : Store) : nat :=
  count_where (λ r, bool_decide (JobRow.queue r = queue) && (JobRow.state r =? StatePending))
              (jobs (tables s)).

Definition QueueSize (queue : string) : GoM Store (Z * option error) :=
  try! n := query (queueSizeSQL queue) else (λ m, (0, Some (errf "postgres queue size: " m))) in
  gret (Z.of_nat n, None).

(** ** Recurring schedules *)

Definition recurring_row (r : RecurringSpec.t) : RecRow.t bool :=
  {| RecRow.id := RecurringSpec.ID r; RecRow.name := RecurringSpec.Name r;
     RecRow.queue := RecurringSpec.Queue r; RecRow.payload := RecurringSpec.Payload r;
     RecRow.codec_name := RecurringSpec.CodecName r; RecRow.priority := RecurringSpec.Priority r;
     RecRow.timeout_ns := RecurringSpec.Timeout r;
     RecRow.max_attempts := RecurringSpec.MaxAttempts r; RecRow.cron := RecurringSpec.Cron r;
     RecRow.every_ns := RecurringSpec.Every r; RecRow.catchup := RecurringSpec.Catchup r;
     RecRow.next_run_at := encode_ts (RecurringSpec.NextRunAt r);
     RecRow.last_fire_at := encode_ts (RecurringSpec.LastFireAt r);
     RecRow.lease_until := encode_ts (RecurringSpec.LeaseUntil r);
     RecRow.leased_by := RecurringSpec.LeasedBy r |}.

(** [upsertRecurringSQL]: a conflict keeps the lease. *)
Definition upsertRecurringSQL (r : RecRow.t bool) (s : Store) : string + unit * Tables :=
  if int2b (RecRow.priority r) && int4b (RecRow.max_attempts r)
  then inr (tt, set_recurring (upsert (RecRow.id r)
    (λ old new, RecRow.set_leased_by (RecRow.leased_by old)
                  (RecRow.set_lease_until (RecRow.lease_until old) new)) r (recurring (tables s)))
    (tables s))
  else inl range_message.

Definition UpsertRecurring (r : RecurringSpec.t) : GoM Store (option error) :=
  try! _ := stmt_may (upsertRecurringSQL (recurring_row r))
    else (λ m, Some (errf "postgres upsert recurring: " m)) in
  gret None.

(** A failed iteration returns the schedules read so far with the error: here,
    all of them. *)
Definition ListRecurring : GoM Store (list RecurringSpec.t * option error) :=
  try! rows := query (λ s, scan s (recurring (tables s)))
    else (λ m, ([], Some (errf "postgres list recurring: " m))) in
  let out := scanRecurring <$> rows in
  try! _ := query (λ _, tt) else (λ m, (out, Some (ErrOther m))) in
  gret (out, None).

Definition rec_is (k : string) : RecRow.t bool → bool := by_key RecRow.id k (λ _, true).

Definition DeleteRecurring (k : string) : GoM Store (option error) :=
  try! _ := stmt (λ s, (tt, set_recurring (delete_where (rec_is k) (recurring (tables s))) (tables s)))
    else (λ m, Some (errf "postgres delete recurring: " m)) in
  gret None.

Definition updateRecurringNextRunSQL (next last : Z) (k : string) (t : Tables) : Tables :=
  set_recurring (update_where (rec_is k)
    (λ r, RecRow.set_last_fire_at last (RecRow.set_next_run_at next r)) (recurring t)) t.

Definition UpdateRecurringNextRun (k : string) (nextRunAt lastFireAt : Z) : GoM Store (option error) :=
  try! _ := stmt (λ s, (tt, updateRecurringNextRunSQL (encode_ts nextRunAt) (encode_ts lastFireAt) k
                              (tables s)))
    else (λ m, Some (errf "postgres update recurring next: " m)) in
  gret None.

(** Free, expired by the server's clock, or already ours. *)
Definition leasable (server : Z) (workerID : string) (r : RecRow.t bool) : bool :=
  (RecRow.lease_until r =? Time.zero) || (RecRow.lease_until r <? server) ||
  bool_decide (RecRow.leased_by r = workerID).

Definition acquireLeaseSQL (lease : Z) (workerID k : string) (s : Store) : nat * Tables :=
  let P := by_key RecRow.id k (leasable (server_now s (calls s)) workerID) in
  (count_where P (recurring (tables s)),
   set_recurring (update_where P (λ r, RecRow.set_leased_by workerID (RecRow.set_lease_until lease r))
                               (recurring (tables s))) (tables s)).

Definition AcquireRecurringLease (k : string) (leaseUntil : Z) (workerID : string)
    : GoM Store (bool * option error) :=
  try! rows := stmt (acquireLeaseSQL (encode_ts leaseUntil) workerID k)
    else (λ m, (false, Some (errf "postgres acquire lease: " m))) in
  if (0 <? rows)%nat then gret (true, None)
  else
    try! one := query (λ s, head (filter (λ r, rec_is k r = true) (scan s (recurring (tables s)))))
      else (λ m, (false, Some (errf "postgres acquire lease exists: " m))) in
    match one with None => gret (true, None) | Some _ => gret (false, None) end.

#[export] Instance postgres_ops : StoreOps Store := {
  st_ended := ended_db; st_left := left_db;
  st_Save := Save; st_ClaimDue := ClaimDue; st_Ack := Ack; st_Fail := Fail;
  st_Cancel := Cancel; st_Reschedule := Reschedule; st_Heartbeat := Heartbeat;
  st_RecoverStale := RecoverStale; st_UpsertRecurring := UpsertRecurring;
  st_ListRecurring := ListRecurring; st_DeleteRecurring := DeleteRecurring;
  st_AcquireRecurringLease := AcquireRecurringLease;
  st_UpdateRecurringNextRun := UpdateRecurringNextRun; st_QueueSize := QueueSize
}.
End store.

(** ** Listening *)

(** [pgQuoteIdent]: in double quotes, with the quotes inside doubled. *)
Definition quote : ascii := Ascii.ascii_of_nat 34.

Fixpoint quote_body (s : string) : string :=
  match s with
  | EmptyString => EmptyString
  | String c s =>
      if Ascii.eqb c quote then String quote (String quote (quote_body s)) else String c (quote_body s)
  end.

Definition pgQuoteIdent (s : string) : string :=
  String quote (quote_body s +:+ String quote EmptyString).

Definition listen_command (queue : string) : string :=
  "LISTEN " +:+ pgQuoteIdent (notifyChannel queue).

(** The channel of a [Listener]: whether its one slot is taken. The pump sends
    without blocking, so that several notifications leave one signal. *)
Record Listener : Type := mkListener { on : string; signalled : bool }.

Definition Listen (queue : string) : Listener := mkListener (notifyChannel queue) false.

(** A notification arrives; those of other channels are not delivered to this
    connection. *)
Definition pump (l : Listener) (channel : string) : Listener :=
  if String.eqb channel (on l) then mkListener (on l) true else l.

(** [<-l.C]: [None] when it would block. *)
Definition wait_signal (l : Listener) : option Listener :=
  if signalled l then Some (mkListener (on l) false) else None.
