(* ===== verification/PostgresFacts.v ===== *)
(** The Postgres store keeps the promise of [StoreApi], for calls that run one
    after the other: its invariant, what its rows stand for, each method against
    [Spec], and the insertion sort of [ClaimDue]. *)

From S2P Require Import Prelude ListLib Types StoreApi Sql SqlEngine SqlBackend SqlFacts Postgres.
Local Open Scope Z_scope.

(** ** [sortJobs] *)

(** The inner loop: the job goes to its place in the sorted prefix, which grows
    over the slot [j0] at its end. *)
Lemma shift_spec j pre j0 post :
  StronglySorted (le_of jobLess) pre →
  ∃ l, shift (length pre) j (pre ++ j0 :: post) = l ++ post ∧ l ≡ₚ j :: pre ∧
       StronglySorted (le_of jobLess) l.
Proof.
  revert j0 post. induction pre as [|x pre IH] using rev_ind; intros j0 post Hs; simpl.
  - exists [j]. split; [done|]. split; [done|]. repeat constructor.
  - apply StronglySorted_app in Hs as (Hx & Hs & _).
    assert (Hlast : (pre ++ [x]) ++ j0 :: post = pre ++ x :: j0 :: post) by (by rewrite <- app_assoc).
    rewrite length_app, Hlast. simpl. rewrite Nat.add_1_r. simpl.
    rewrite list_lookup_middle by done. destruct (jobLess j x) eqn:Hj.
    + replace (<[S (length pre) := x]> (pre ++ x :: j0 :: post)) with (pre ++ x :: x :: post).
      2:{ rewrite insert_app_r_alt by lia. by replace (S (length pre) - length pre)%nat with 1%nat by lia. }
      destruct (IH x (x :: post) Hs) as (l & -> & Hp & Hl). exists (l ++ [x]).
      split; [by rewrite <- app_assoc|]. split; [by rewrite Hp|].
      apply StronglySorted_app_2; [|done|repeat constructor].
      intros a b Ha ->%list_elem_of_singleton. rewrite Hp in Ha.
      apply elem_of_cons in Ha as [->|Ha]; [by apply (lt_le_of jobLess)|]. by apply Hx; [|left].
    + replace (<[S (length pre) := j]> (pre ++ x :: j0 :: post)) with (pre ++ x :: j :: post).
      2:{ rewrite insert_app_r_alt by lia. by replace (S (length pre) - length pre)%nat with 1%nat by lia. }
      exists (pre ++ [x; j]). split; [by rewrite <- app_assoc|]. split.
      { change [x; j] with ([x] ++ [j]). by rewrite (app_assoc pre), (Permutation_app_comm _ [j]). }
      apply StronglySorted_app_2; [|done|repeat constructor; done].
      intros a b Ha Hb. assert (Hax : le_of jobLess a x) by (by apply Hx; [|left]).
      apply elem_of_cons in Hb as [->|Hb]; [done|]. apply list_elem_of_singleton in Hb as ->. by trans x.
Qed.

(** The outer loop, with a sorted prefix. *)
Lemma sort_turns pre post :
  StronglySorted (le_of jobLess) pre →
  let l := foldl sort_turn (pre ++ post) (seq (length pre) (length post)) in
  l ≡ₚ pre ++ post ∧ StronglySorted (le_of jobLess) l.
Proof.
  revert pre. induction post as [|j post IH]; intros pre Hs; simpl; [by rewrite app_nil_r|].
  unfold sort_turn at 2 4. rewrite list_lookup_middle by done.
  destruct (shift_spec j pre j post Hs) as (l & -> & Hp & Hl).
  assert (Hlen : S (length pre) = length l) by (by rewrite Hp). rewrite Hlen.
  destruct (IH l Hl) as [Hp' Hs']. split; [|done]. rewrite Hp', Hp. simpl. apply Permutation_middle.
Qed.

Lemma sortJobs_spec js : sortJobs js ≡ₚ js ∧ StronglySorted (le_of jobLess) (sortJobs js).
Proof.
  unfold sortJobs. destruct js as [|j js]; [split; [done|constructor]|].
  replace (length (j :: js) - 1)%nat with (length js) by (simpl; lia).
  apply (sort_turns [j] js). repeat constructor.
Qed.

(** ** What the rows stand for *)

Section facts.
Context `{!PgDriver}.

(** Times a column represents. *)
Definition time_ok (t : Z) : Prop := encode_ts t = t.

Definition row_job (r : JobRow.t) : Job.t := Spec.job_view (scanJob r).
Definition row_spec (r : RecRow.t bool) : RecurringSpec.t := Spec.rec_view (scanRecurring r).

(** *** The invariant *)

Definition row_ok (r : JobRow.t) : Prop :=
  0 ≤ JobRow.priority r < 256 ∧ 0 ≤ JobRow.state r < 256 ∧ int4b (JobRow.attempt r) = true.

Definition rows_ok (t : Tables) : Prop := schema_ok row_ok (jobs t) (recurring t).

#[export] Instance postgres_tables : SqlTables Tables := {
  tables_ok := rows_ok;
  tables_abs t := Spec.mk (row_job <$> jobs t) (row_spec <$> recurring t);
  values_ok t := map_Forall (λ _ r, int4b (JobRow.attempt r + 1) = true) (jobs t)
}.

(** The jobs and schedules whose fields fit the columns. [Save] would turn
    [MaxAttempts = 0] into 3. *)
Definition pg_ok_job (j : Job.t) : Prop :=
  time_ok (Job.RunAt j) ∧ time_ok (Job.LockedUntil j) ∧ 0 ≤ Job.Priority j < 256 ∧
  0 ≤ Job.State j < 256 ∧ int4b (Job.Attempt j) = true ∧ int4b (Job.MaxAttempts j) = true ∧
  Job.MaxAttempts j ≠ 0.
Definition pg_ok_spec (r : RecurringSpec.t) : Prop :=
  time_ok (RecurringSpec.NextRunAt r) ∧ time_ok (RecurringSpec.LastFireAt r) ∧
  0 ≤ RecurringSpec.Priority r < 256 ∧ int4b (RecurringSpec.MaxAttempts r) = true.

(** *** Rows and jobs *)

Lemma pg_row_job_id r : Job.ID (row_job r) = JobRow.id r.
Proof. done. Qed.

Lemma int4b_range x : int4b x = true → in_int64 x ∧ in_int64 (x + 1) ∧ - 2 ^ 31 ≤ x < 2 ^ 31.
Proof. unfold int4b. intros [H1%Z.leb_le H2%Z.ltb_lt]%andb_true_iff. int64_lia. Qed.

Lemma small_int2b x : 0 ≤ x < 256 → int2b x = true.
Proof.
  intros Hx. unfold int2b. apply andb_true_iff. split; [apply Z.leb_le|apply Z.ltb_lt]; lia.
Qed.

Lemma pg_normal_state j : (if Job.State j =? 0 then StatePending else Job.State j) = Job.State j.
Proof. by destruct (Z.eqb_spec (Job.State j) 0) as [->|]. Qed.

Lemma pg_save_row_job j : pg_ok_job j → row_job (save_row j) = Spec.job_view j.
Proof.
  intros (Hr & Hl & Hp & Hs & Ha & Hm & Hm0). unfold row_job, save_row, Spec.job_view. cbn.
  by rewrite (proj2 (Z.eqb_neq _ _) Hm0), pg_normal_state, Hr, Hl, !wrap8_id.
Qed.

Lemma pg_save_row_ok j : pg_ok_job j → row_ok (save_row j).
Proof. intros (Hr & Hl & Hp & Hs & Ha & Hm). unfold row_ok. cbn. by rewrite pg_normal_state. Qed.

Lemma pg_recurring_row_spec r : pg_ok_spec r → row_spec (recurring_row r) = Spec.rec_view r.
Proof.
  intros (Hn & Hl & Hp & _). unfold row_spec, recurring_row, Spec.rec_view. cbn. by rewrite Hn, Hl, wrap8_id.
Qed.

Lemma pg_claim_where_eligible skipped q now r :
  row_ok r →
  claim_where skipped q now r = Spec.eligible q now (row_job r) && bool_decide (JobRow.id r ∉ skipped).
Proof.
  intros (Hp & Hs & Hr). unfold claim_where, Spec.eligible, Spec.pending_in, Time.After. cbn.
  by rewrite wrap8_id, Z.leb_antisym.
Qed.

Lemma pg_claim_order_less r r' :
  row_ok r → row_ok r' → claim_order r r' = jobLess (row_job r) (row_job r').
Proof.
  intros (Hp & Hs & Hr) (Hp' & Hs' & Hr'). unfold claim_order, jobLess, Time.Before. cbn.
  by rewrite !wrap8_id.
Qed.

#[export] Instance pg_claim_order_strict_weak : StrictWeak claim_order.
Proof.
  assert (Hspec : ∀ a b, claim_order a b = true ↔
    JobRow.priority b < JobRow.priority a ∨
    (JobRow.priority a = JobRow.priority b ∧ JobRow.run_at a < JobRow.run_at b)).
  { intros a b. unfold claim_order.
    destruct (Z.eqb_spec (JobRow.priority a) (JobRow.priority b)); cbn; rewrite Z.ltb_lt; lia. }
  split; intros *; rewrite <- ?not_true_iff_false, ?Hspec; lia.
Qed.

Lemma pg_job_row_at (s : Store) k P :
  rows_ok (tables s) → (∀ Row : Set, scans (@scan _ s Row)) →
  job_row (by_key JobRow.id k P) s = row_at k P (jobs (tables s)).
Proof. intros Hok Hscan. apply query_by_key; [apply Hok|apply Hscan]. Qed.

(** ** The methods, one after the other *)

Lemma pg_Ack_yields s k :
  sql_wf s → yields (Ack k) s infra (λ e sp, (e, sp) = Spec.ack k (sql_abs s)).
Proof.
  intros Hwf. sql_start Hwf. unfold Ack, ackSQL, delete_jobs, job_in. sql_run Hwf.
  rewrite count_by_key, delete_by_key by apply Hok.
  unfold row_at, Spec.ack, Spec.done_with, Spec.refuse. cbn. rewrite lookup_fmap.
  destruct (jobs t !! k) as [r|] eqn:Hr; cbn.
  - destruct (row_ok_at Hok Hr) as [(_ & Hs & _) _]. rewrite wrap8_id by done.
    destruct (JobRow.state r =? StateClaimed); cbn.
    + sql_done Hwf; [by apply schema_ok_delete|].
      unfold sql_abs. cbn. by rewrite fmap_delete.
    + sql_done Hwf; by destruct t.
  - sql_done Hwf; by destruct t.
Qed.

Lemma pg_Save_yields s j :
  sql_wf s → pg_ok_job j → yields (Save j) s infra (λ e sp, (e, sp) = Spec.save j (sql_abs s)).
Proof.
  intros Hwf Hj. sql_start Hwf. unfold Save, upsertJobSQL.
  assert (Hrange : int2b (Job.Priority j) && int2b (JobRow.state (save_row j)) && int4b (Job.Attempt j) &&
                   int4b (JobRow.max_attempts (save_row j)) = true).
  { destruct Hj as (_ & _ & Hp & Hs & Ha & Hm & Hm0). cbn.
    by rewrite pg_normal_state, (proj2 (Z.eqb_neq _ _) Hm0), !small_int2b, Ha, Hm. }
  assert (Hrow : ∀ o, row_job (match o with
      Some old => JobRow.set_created_at (JobRow.created_at old) (save_row j) | None => save_row j end)
    = Spec.job_view j).
  { intros [old|]; rewrite <- pg_save_row_job by done; reflexivity. }
  assert (Hdone : ∀ c' ns, let t' := mkTables (<[Job.ID j := match jobs t !! Job.ID j with
        Some old => JobRow.set_created_at (JobRow.created_at old) (save_row j) | None => save_row j end]>
        (jobs t)) (recurring t) (workers t) ns in
    sql_wf (db t' F c' clk rd sn sc) ∧
    (None, sql_abs (db t' F c' clk rd sn sc)) = Spec.save j (sql_abs (db t F c clk rd sn sc))).
  { intros c' ns. split.
    - refine (wf_tables _ _ _ _ _ _ _ _ _ _ _ _ _ Hwf _). apply schema_ok_insert; [exact Hok| |];
        destruct (jobs t !! Job.ID j); try done; pose proof (pg_save_row_ok j Hj) as (? & ? & ?); by split.
    - unfold sql_abs, Spec.save, Spec.done_with, Spec.set_jobs. cbn. by rewrite fmap_insert, Hrow. }
  unfold yields, stmt, stmt_may, gbind, gret, called, set_tables. cbn. destruct (F c) eqn:Hf; cbn.
  { sql_fault Hwf. }
  cbn in Hrange. rewrite Hrange. cbn. unfold upsert. cbn.
  destruct (F (S c)); cbn; do 2 eexists; (split; [reflexivity|]); (split; [apply Hdone|]);
    right; apply (Hdone (S (S c))).
Qed.
Lemma pg_Cancel_yields s k :
  sql_wf s → yields (Cancel k) s infra (λ e sp, (e, sp) = Spec.cancel k (sql_abs s)).
Proof.
  intros Hwf. sql_start Hwf. unfold Cancel, job_is. sql_run Hwf.
  rewrite pg_job_row_at by done. cbn.
  unfold row_at, Cancel_from, Spec.cancel, Spec.done_with, Spec.refuse. cbn. rewrite lookup_fmap.
  destruct (jobs t !! k) as [r|] eqn:Hr; cbn; [|sql_done Hwf; by destruct t].
  destruct (row_ok_at Hok Hr) as [(_ & Hs & _) _]. rewrite wrap8_id by done.
  destruct (JobRow.state r =? StatePending) eqn:Hp; cbn; [|sql_done Hwf; by destruct t].
  sql_run Hwf. unfold delete_jobs, job_is. rewrite delete_by_key by apply Hok. unfold row_at. cbn. rewrite Hr.
  sql_done Hwf; [by apply schema_ok_delete|]. unfold sql_abs. cbn. by rewrite fmap_delete.
Qed.

Lemma pg_Reschedule_yields s k at_ :
  sql_wf s → time_ok at_ →
  yields (Reschedule k at_) s infra (λ e sp, (e, sp) = Spec.reschedule k at_ (sql_abs s)).
Proof.
  intros Hwf Hat. sql_start Hwf. unfold Reschedule, job_is. sql_run Hwf.
  rewrite pg_job_row_at by done. cbn.
  unfold row_at, Reschedule_from, Spec.reschedule, Spec.done_with, Spec.refuse. cbn. rewrite lookup_fmap.
  destruct (jobs t !! k) as [r|] eqn:Hr; cbn; [|sql_done Hwf; by destruct t].
  destruct (row_ok_at Hok Hr) as [(? & Hs & ?) Hid]. rewrite wrap8_id by done.
  destruct (JobRow.state r =? StatePending) eqn:Hp; cbn; [|sql_done Hwf; by destruct t].
  sql_run Hwf. unfold rescheduleUpdateSQL, job_is. rewrite update_by_key by apply Hok.
  unfold row_at. cbn. rewrite Hr, Hat. sql_done Hwf.
  - by apply schema_ok_insert.
  - unfold sql_abs, Spec.set_jobs. cbn. by rewrite fmap_insert.
Qed.

(** A row [Fail] retries. *)
Lemma pg_retry_row_job r msg at_ now :
  int4b (JobRow.attempt r) = true →
  row_job (JobRow.set_updated_at now (JobRow.set_locked_until Time.zero (JobRow.set_locked_by ""
    (JobRow.set_run_at at_ (JobRow.set_state StatePending
      (JobRow.set_last_error msg (JobRow.set_attempt (JobRow.attempt r + 1) r))))))) =
  Spec.retry_job msg at_ (row_job r).
Proof.
  intros (_ & Ha & _)%int4b_range. unfold row_job, Spec.retry_job, Spec.job_view. cbn. by rewrite wrap64_id.
Qed.

(** The range check of the retry concerns the row of the job only. *)
Lemma retry_in_range k m r :
  keyed JobRow.id m → m !! k = Some r → JobRow.state r = StateClaimed →
  forallb (λ r, negb (job_in k StateClaimed r) || int4b (JobRow.attempt r + 1)) (map_to_list m).*2 =
  int4b (JobRow.attempt r + 1).
Proof.
  intros Hkey Hr Hc. apply eq_true_iff_eq. rewrite forallb_forall. split.
  - intros Hall. specialize (Hall r). unfold job_in, by_key in Hall.
    rewrite (Hkey k r Hr), bool_decide_eq_true_2, Hc in Hall by done. apply Hall.
    rewrite <- list_elem_of_In. apply elem_of_values. eauto.
  - intros Hi r' Hr'. rewrite <- list_elem_of_In in Hr'. apply elem_of_values in Hr' as [k' Hr'].
    unfold job_in, by_key. rewrite (Hkey k' r' Hr'). case_bool_decide as Hk; [|done]. subst k'.
    assert (r' = r) as -> by congruence. by rewrite Hi, orb_true_r.
Qed.

Lemma pg_Fail_yields s k msg at_ :
  sql_wf s → time_ok at_ →
  yields (Fail k msg at_) s infra (λ e sp, (e, sp) = Spec.fail k msg at_ (sql_abs s)).
Proof.
  intros Hwf Hat. sql_start Hwf. unfold Fail. sql_run Hwf. unfold job_in at 1.
  rewrite pg_job_row_at by done. cbn.
  unfold row_at, Fail_from, Spec.fail, Spec.done_with, Spec.refuse. cbn. rewrite lookup_fmap.
  destruct (jobs t !! k) as [r|] eqn:Hr; cbn; [|sql_done Hwf; by destruct t].
  destruct (row_ok_at Hok Hr) as [(Hpr & Hs & Ha) Hid]. rewrite wrap8_id by done.
  destruct (JobRow.state r =? StateClaimed) eqn:Hc; cbn; [|sql_done Hwf; by destruct t].
  unfold Spec.exhausted. cbn. rewrite (wrap64_id (JobRow.attempt r + 1)) by apply (int4b_range _ Ha).
  destruct (_ && _) eqn:He; cbn.
  - sql_run Hwf. unfold delete_jobs, job_is. rewrite delete_by_key by apply Hok. unfold row_at. cbn. rewrite Hr.
    sql_done Hwf; [by apply schema_ok_delete|]. unfold sql_abs. cbn. by rewrite fmap_delete.
  - unfold failRetrySQL. rewrite Hat.
    assert (Hrange : int4b (JobRow.attempt r + 1) = true ∨ ¬ healthy (db t F c clk rd sn sc)).
    { destruct (int4b (JobRow.attempt r + 1)) eqn:Hi; [by left|right]. apply value_unhealthy.
      intros Hv. specialize (Hv k r Hr). simpl in Hv. congruence. }
    unfold yields, deferring_rollback, stmt_may, Commit, Rollback, time_Now, gbind, gret, called, set_tables.
    sql_step; [sql_fault Hwf|]. rewrite (retry_in_range k (jobs t) r (ok_keyed Hok) Hr (proj1 (Z.eqb_eq _ _) Hc)).
    destruct (int4b (JobRow.attempt r + 1)) eqn:Hi; cbn.
    2:{ sql_error Hwf. by destruct Hrange. }
    sql_step; [sql_fault Hwf|]. unfold job_in. rewrite update_by_key by apply Hok. unfold row_at.
    rewrite Hr, Hc. sql_done Hwf.
    + by apply schema_ok_insert.
    + unfold sql_abs, Spec.set_jobs. cbn. by rewrite fmap_insert, pg_retry_row_job.
Qed.

Lemma pg_RecoverStale_yields s now :
  sql_wf s →
  yields (RecoverStale now) s (λ r, r.1 = 0 ∧ infra r.2) (λ r sp, r.2 = None ∧
    Spec.recovered (Spec.jobs (sql_abs s)) (Spec.jobs sp) r.1 ∧
    Spec.recurring sp = Spec.recurring (sql_abs s)).
Proof.
  intros Hwf. sql_start Hwf. unfold RecoverStale, recoverStaleSQL. sql_run Hwf.
  sql_done Hwf.
  - apply schema_ok_update; [exact Hok|done|]. intros r (? & ? & ?). by split.
  - split; [done|]. split; [|done]. apply (update_recovered row_job).
    + intros r Hr. unfold stale in Hr. apply andb_true_iff in Hr as [[Hc _]%andb_true_iff _].
      apply Z.eqb_eq in Hc. cbn. by rewrite Hc.
    + done.
Qed.

Lemma pg_QueueSize_yields s q :
  sql_wf s →
  yields (QueueSize q) s (λ r, r.1 = 0 ∧ infra r.2)
    (λ r sp, r = (Spec.queue_size q (sql_abs s), None) ∧ sp = sql_abs s).
Proof.
  intros Hwf. sql_start Hwf. unfold QueueSize, queueSizeSQL. sql_run Hwf.
  sql_done Hwf; [done|]. split; [|done]. f_equal. apply count_queue_size. intros k r Hr.
  destruct (row_ok_at Hok Hr) as [(_ & Hs & _) _]. unfold Spec.pending_in. cbn. by rewrite wrap8_id.
Qed.

(** *** [ClaimDue] *)

Lemma permutation_fmap_inv {A B} (f : A → B) l k :
  l ≡ₚ f <$> k → ∃ k', k' ≡ₚ k ∧ l = f <$> k'.
Proof.
  intros Hp. destruct (Permutation_map_inv f k Hp) as (k' & -> & Hk). exists k'. by split.
Qed.

Lemma pg_claim_row_job w u now r : row_job (claim_row w u now r) = Spec.claim_job w u (row_job r).
Proof. done. Qed.

(** What a claim of the rows [rows] returns: those rows as jobs, claimed, in
    claim order. *)
Lemma claimed_jobs (sc : gmap string JobRow.t → list JobRow.t) rows m w u now :
  scans sc → keyed JobRow.id m → NoDup (JobRow.id <$> rows) →
  Forall (λ r, m !! JobRow.id r = Some r) rows →
  let ids := JobRow.id <$> rows in
  let m' := update_where (λ r, bool_decide (JobRow.id r ∈ ids)) (claim_row w u now) m in
  ∃ rows', rows' ≡ₚ rows ∧ StronglySorted (le_of jobLess) (row_job <$> rows') ∧
    Spec.job_view <$> sortJobs (scanJob <$> filter (λ r, JobRow.id r ∈ ids) (sc m')) =
    Spec.claim_job w u <$> (row_job <$> rows').
Proof.
  intros Hsc Hkey Hnd Hm ids m'.
  pose proof (updated_rows sc (claim_row w u now) rows m Hsc Hkey (λ r, eq_refl) Hnd Hm) as Hret.
  simpl in Hret. fold ids m' in Hret. set (ret := filter _ (sc m')) in *.
  destruct (sortJobs_spec (scanJob <$> ret)) as [Hp Hs].
  assert (Hp' : scanJob <$> ret ≡ₚ (scanJob ∘ claim_row w u now) <$> rows)
    by (by rewrite Hret, <- list_fmap_compose).
  apply (Permutation_trans Hp), permutation_fmap_inv in Hp' as (rows' & Hrows & Heq).
  exists rows'. split; [done|]. rewrite Heq in Hs |- *. split; [|by rewrite <- !list_fmap_compose].
  clear -Hs. induction rows' as [|r rows' IH]; simpl in *; [constructor|].
  apply StronglySorted_cons in Hs as [Hf Hs]. constructor; [by apply IH|].
  rewrite Forall_forall in Hf |- *. intros x (r' & -> & Hr')%list_elem_of_fmap.
  apply (Hf (scanJob (claim_row w u now r'))). apply list_elem_of_fmap. by exists r'.
Qed.

(** A claim of the best rows of a table is an answer the contract allows. *)
Lemma claim_rows_ok (sc : gmap string JobRow.t → list JobRow.t) srt m (rm : gmap string (RecRow.t bool)) q now w u n :
  scans sc → schema_ok row_ok m rm → 0 ≤ n →
  StronglySorted (le_of claim_order) srt →
  srt ≡ₚ filter (λ r, claim_where ∅ q now r = true) (map_to_list m).*2 →
  let rows := take (Z.to_nat n) srt in let ids := JobRow.id <$> rows in
  let m' := update_where (λ r, bool_decide (JobRow.id r ∈ ids)) (claim_row w u now) m in
  ∃ js, Spec.claim_ok q now n (row_job <$> m) js ∧ Spec.claim_complete q now n (row_job <$> m) js ∧
    Spec.job_view <$> sortJobs (scanJob <$> filter (λ r, JobRow.id r ∈ ids) (sc m')) =
      Spec.claim_job w u <$> js ∧
    row_job <$> m' = Spec.claim_all w u js (row_job <$> m).
Proof.
  intros Hsc Hok Hn Hs Hp rows ids m'.
  destruct (sorted_claim_ok row_job pg_row_job_id claim_order (claim_where ∅ q now) m q now n srt)
    as [Hclaim Hcomplete]; [apply Hok|done| | |done|done|].
  { intros k r Hr. rewrite pg_claim_where_eligible by exact (proj1 (row_ok_at Hok Hr)).
    by rewrite bool_decide_eq_true_2, andb_true_r by set_solver. }
  { intros k k' r r' Hr Hr'.
    apply pg_claim_order_less; [exact (proj1 (row_ok_at Hok Hr))|exact (proj1 (row_ok_at Hok Hr'))]. }
  fold rows in Hclaim, Hcomplete.
  assert (Hin : Forall (λ r, m !! JobRow.id r = Some r) rows).
  { apply Forall_forall. intros r Hr.
    assert (Hr' : r ∈ srt) by (apply elem_of_take in Hr as (i & ? & _); by eapply list_elem_of_lookup_2).
    rewrite Hp in Hr'. apply list_elem_of_filter in Hr' as [_ Hr']. apply elem_of_values in Hr' as [k Hk].
    by rewrite (ok_keyed Hok k r Hk). }
  assert (Hnd : NoDup ids).
  { destruct Hclaim as [Hnd _ _ _ _]. unfold Spec.ids in Hnd. by rewrite <- list_fmap_compose in Hnd. }
  destruct (claimed_jobs sc rows m w u now Hsc (ok_keyed Hok) Hnd Hin) as (rows' & Hrows & Hsort & Hout).
  assert (Hjs : row_job <$> rows' ≡ₚ row_job <$> rows) by (by rewrite Hrows).
  exists (row_job <$> rows'). split; [by eapply claim_ok_perm|]. split; [by eapply claim_complete_perm|].
  split; [exact Hout|]. unfold Spec.claim_all, m', ids.
  rewrite <- (update_in_dec row_job pg_row_job_id (claim_row w u now)); [|apply Hok|done|done| |].
  - f_equal. apply map_eq. intros k. rewrite !update_where_lookup. destruct (m !! k) as [r|]; [|done]. simpl.
    by rewrite (bool_decide_ext _ (JobRow.id r ∈ JobRow.id <$> rows')) by (by rewrite Hrows).
  - by rewrite Hrows.
  - by rewrite Hrows.
Qed.

Lemma pg_ClaimDue_yields s q now n w u :
  sql_wf s → time_ok now → time_ok u → 0 ≤ n →
  yields (ClaimDue q now n w u) s (λ r, r.1 = [] ∧ infra r.2)
    (λ r sp, ∃ js, r.2 = None ∧ Spec.claim_ok q now n (Spec.jobs (sql_abs s)) js ∧
       Spec.claim_complete q now n (Spec.jobs (sql_abs s)) js ∧
       Spec.job_view <$> r.1 = Spec.claim_job w u <$> js ∧
       sp = Spec.set_jobs (Spec.claim_all w u js (Spec.jobs (sql_abs s))) (sql_abs s)).
Proof.
  intros Hwf Hnow Hu Hn. sql_start Hwf. unfold ClaimDue, ClaimDue_skipping. sql_run Hwf.
  unfold claimDueSQL. rewrite (proj2 (Z.ltb_ge n 0) Hn). unfold claim_update, due. cbn. rewrite Hnow, Hu.
  destruct (select_where_take (sc JobRow.t) claim_order (Hscan _) (claim_where ∅ q now) n (jobs t) Hn)
    as (srt & -> & Hs & Hp).
  destruct (claim_rows_ok (sc JobRow.t) srt (jobs t) (recurring t) q now w u n (Hscan _) Hok Hn Hs Hp)
    as (js & H1 & H2 & H3 & H4).
  sql_done Hwf.
  - apply schema_ok_update; [exact Hok|done|]. intros r (? & ? & ?). by split.
  - exists js. cbn. split; [done|]. split; [exact H1|]. split; [exact H2|]. split; [exact H3|].
    unfold sql_abs, Spec.set_jobs. cbn. by rewrite H4.
Qed.

(** *** Schedules *)

Lemma pg_UpsertRecurring_yields s r :
  sql_wf s → pg_ok_spec r →
  yields (UpsertRecurring r) s infra (λ e sp, (e, sp) = Spec.upsert_recurring r (sql_abs s)).
Proof.
  intros Hwf Hr. sql_start Hwf. unfold UpsertRecurring, upsertRecurringSQL.
  assert (Hrange : int2b (RecurringSpec.Priority r) && int4b (RecurringSpec.MaxAttempts r) = true).
  { destruct Hr as (_ & _ & Hp & Hm). by rewrite small_int2b, Hm. }
  sql_run Hwf. rewrite Hrange. cbn. sql_done Hwf; unfold upsert; cbn.
  - eapply schema_ok_recurring; [exact Hok|]. apply keyed_insert; [apply Hok|].
    by destruct (recurring t !! RecurringSpec.ID r).
  - unfold sql_abs, Spec.upsert_recurring, Spec.done_with, Spec.set_recurring. cbn.
    rewrite fmap_insert. do 4 f_equal. rewrite <- pg_recurring_row_spec by done.
    by destruct (recurring t !! RecurringSpec.ID r).
Qed.

Lemma pg_DeleteRecurring_yields s k :
  sql_wf s →
  yields (DeleteRecurring k) s infra (λ e sp, (e, sp) = Spec.delete_recurring k (sql_abs s)).
Proof.
  intros Hwf. sql_start Hwf. unfold DeleteRecurring, rec_is. sql_run Hwf.
  rewrite delete_by_key by apply Hok. unfold row_at, Spec.delete_recurring, Spec.done_with.
  sql_done Hwf; cbn.
  - eapply schema_ok_recurring; [exact Hok|]. destruct (recurring t !! k); [apply keyed_delete|]; apply Hok.
  - unfold sql_abs, Spec.set_recurring. cbn. do 2 f_equal. destruct (recurring t !! k) as [r|] eqn:Hr.
    + by rewrite fmap_delete.
    + rewrite delete_id; [done|]. by rewrite lookup_fmap, Hr.
Qed.

Lemma pg_UpdateRecurringNextRun_yields s k next last :
  sql_wf s → time_ok next → time_ok last →
  yields (UpdateRecurringNextRun k next last) s infra
    (λ e sp, (e, sp) = Spec.update_next_run k next last (sql_abs s)).
Proof.
  intros Hwf Hn Hl. sql_start Hwf.
  unfold UpdateRecurringNextRun, updateRecurringNextRunSQL, rec_is. sql_run Hwf.
  rewrite Hn, Hl, update_by_key by apply Hok. unfold row_at, Spec.update_next_run, Spec.done_with.
  sql_done Hwf; cbn.
  - eapply schema_ok_recurring; [exact Hok|]. destruct (recurring t !! k) as [r|] eqn:Hr; [|apply Hok].
    apply keyed_insert; [apply Hok|]. exact (ok_rec_keyed Hok k r Hr).
  - unfold sql_abs, Spec.set_recurring. cbn. do 2 f_equal. apply map_eq. intros k'.
    rewrite lookup_fmap. destruct (decide (k' = k)) as [->|Hne].
    + rewrite lookup_alter_eq, lookup_fmap. destruct (recurring t !! k) as [r|] eqn:Hr.
      * by rewrite lookup_insert_eq.
      * by rewrite Hr.
    + rewrite lookup_alter_ne, lookup_fmap by done.
      destruct (recurring t !! k); by rewrite ?lookup_insert_ne.
Qed.

Lemma pg_ListRecurring_yields s :
  sql_wf s →
  ∃ out e s', ListRecurring s = Some ((out, e), s') ∧ sql_wf s' ∧ sql_abs s' = sql_abs s ∧
    ((infra e ∧ ¬ healthy s) ∨
     (e = None ∧ Spec.rec_view <$> out ≡ₚ (map_to_list (Spec.recurring (sql_abs s))).*2)).
Proof.
  intros Hwf. sql_start Hwf. unfold ListRecurring, query, stmt, gbind, gret, called, set_tables. cbn.
  assert (Hwf' : ∀ c', sql_wf (db t F c' clk rd sn sc)) by (intros; split; apply Hwf).
  destruct (F c) eqn:Hf; cbn; [|destruct (F (S c)) eqn:Hf'; cbn]; do 3 eexists;
    (split; [reflexivity|]); (split; [apply Hwf'|]); (split; [done|]);
    [left; split; [by eexists|by eapply fault_unhealthy]..|right].
  split; [done|]. unfold sql_abs. cbn.
  rewrite (values_fmap row_spec (recurring t)), <- (Hscan _ (recurring t)), <- list_fmap_compose. done.
Qed.

(** The lease, judged by the server's clock. *)
Lemma pg_AcquireRecurringLease_run s k u w :
  sql_wf s →
  ∃ b e s', AcquireRecurringLease k u w s = Some ((b, e), s') ∧ sql_wf s' ∧ sql_abs s' = sql_abs s ∧
    ((infra e ∧ b = false ∧ tables s' = tables s ∧ ¬ healthy s) ∨
     (e = None ∧
      match recurring (tables s) !! k with
      | None => b = true ∧ tables s' = tables s
      | Some r =>
          b = leasable (server_now s (calls s)) w r ∧
          recurring (tables s') !! k =
            Some (if b then RecRow.set_leased_by w (RecRow.set_lease_until (encode_ts u) r) else r)
      end)).
Proof.
  intros Hwf. sql_start Hwf.
  assert (Hwf' : ∀ c', sql_wf (db (set_recurring (recurring t) t) F c' clk rd sn sc))
    by (intros; destruct t; split; apply Hwf).
  unfold AcquireRecurringLease, acquireLeaseSQL, query, stmt, gbind, gret, called, set_tables. cbn.
  destruct (F c) eqn:Hf; cbn.
  { do 3 eexists. split; [reflexivity|]. split; [by destruct t; apply Hwf'|].
    split; [done|]. left. split; [by eexists|]. split; [done|]. split; [done|by eapply fault_unhealthy]. }
  rewrite count_by_key, update_by_key by apply Hok. unfold row_at, rec_is.
  destruct (recurring t !! k) as [r|] eqn:Hr; cbn; [destruct (leasable (sn c) w r) eqn:Hl; cbn|].
  - do 3 eexists. split; [reflexivity|]. split.
    { refine (wf_tables _ _ _ _ _ _ _ _ _ _ _ _ _ Hwf _). eapply schema_ok_recurring; [exact Hok|].
      apply keyed_insert; [apply Hok|]. exact (ok_rec_keyed Hok k r Hr). }
    split; [|right; split; [done|]; split; [done|]; cbn; by rewrite lookup_insert_eq].
    unfold sql_abs. cbn. f_equal. apply map_eq. intros k'. rewrite !lookup_fmap.
    destruct (decide (k' = k)) as [->|Hne]; [by rewrite lookup_insert_eq, Hr|by rewrite lookup_insert_ne].
  - rewrite query_by_key by (apply Hok || apply Hscan). unfold row_at. rewrite Hr.
    destruct (F (S c)) eqn:Hf'; cbn; do 3 eexists; (split; [reflexivity|]); (split; [apply Hwf'|]);
      (split; [done|]); [left|right; done].
    split; [by eexists|]. split; [done|]. split; [by destruct t|by eapply fault_unhealthy].
  - rewrite query_by_key by (apply Hok || apply Hscan). unfold row_at. rewrite Hr.
    destruct (F (S c)) eqn:Hf'; cbn; do 3 eexists; (split; [reflexivity|]); (split; [apply Hwf'|]);
      (split; [done|]); [left|right; by destruct t].
    split; [by eexists|]. split; [done|]. split; [by destruct t|by eapply fault_unhealthy].
Qed.

(** ** The promise *)

#[export] Instance postgres_lawful : LawfulStore Store.
Proof.
  refine {| wf := sql_wf; abs := sql_abs; ok_job := pg_ok_job; ok_spec := pg_ok_spec;
            ok_time := time_ok |}.
  - intros s e. apply sql_with_faults.
  - intros s s'. apply sql_with_faults.
  - intros s k j [_ Hok] (r & <- & Hr)%lookup_fmap_Some. split; [|done]. cbn. by apply (ok_keyed Hok).
  - intros s j Hwf Hj. exact (yields_error _ _ _ (pg_Save_yields s j Hwf Hj)).
  - intros s k Hwf. exact (yields_error _ _ _ (pg_Ack_yields s k Hwf)).
  - intros s k msg t Hwf Ht. exact (yields_error _ _ _ (pg_Fail_yields s k msg t Hwf Ht)).
  - intros s k Hwf. exact (yields_error _ _ _ (pg_Cancel_yields s k Hwf)).
  - intros s k t Hwf Ht. exact (yields_error _ _ _ (pg_Reschedule_yields s k t Hwf Ht)).
  - intros s q now n w u Hwf Hn%makeable_nonneg Hnow Hu.
    destruct (yields_law _ _ _ _ (pg_ClaimDue_yields s q now n w u Hwf Hnow Hu Hn))
      as ([out e] & s' & Hrun & Hwf' & Hres). exists out, e, s'. split; [done|]. split; [done|].
    destruct Hres as [[[Ho [msg He]] Ha]|(js & He & H1 & _ & H3 & H4)]; [left|right]; cbn in *; eauto 8.
  - intros s w now Hwf. sql_start Hwf.
    unfold st_Heartbeat, postgres_ops, Heartbeat, stmt, gbind, gret, called, set_tables. cbn.
    destruct (F c); do 2 eexists; (split; [reflexivity|]); (split; [|done]); split; apply Hwf.
  - intros s now Hwf Hnow. destruct (yields_law _ _ _ _ (pg_RecoverStale_yields s now Hwf))
      as ([n e] & s' & Hrun & Hwf' & Hres). exists n, e, s'. split; [done|]. split; [done|].
    destruct Hres as [[[Hn [msg He]] Ha]|Hrec]; [left; cbn in *; eauto|right; exact Hrec].
  - intros s r Hwf Hr. exact (yields_error _ _ _ (pg_UpsertRecurring_yields s r Hwf Hr)).
  - intros s Hwf. destruct (pg_ListRecurring_yields s Hwf) as (out & e & s' & Hr & Hwf' & Ha & He).
    exists out, e, s'. split; [done|]. split; [done|]. split; [done|].
    destruct He as [[He _]|He]; [by left|by right].
  - intros s k Hwf. exact (yields_error _ _ _ (pg_DeleteRecurring_yields s k Hwf)).
  - intros s k u w Hwf _.
    destruct (pg_AcquireRecurringLease_run s k u w Hwf) as (b & e & s' & Hr & Hwf' & Ha & _).
    by exists b, e, s'.
  - intros s k next last Hwf Hn Hl.
    exact (yields_error _ _ _ (pg_UpdateRecurringNextRun_yields s k next last Hwf Hn Hl)).
  - intros s q Hwf. destruct (yields_law _ _ _ _ (pg_QueueSize_yields s q Hwf))
      as ([n e] & s' & Hrun & Hwf' & Hres). exists n, e, s'. split; [done|]. split; [done|].
    destruct Hres as [[[Hn [msg He]] Ha]|[[= -> ->] Ha]]; (split; [done|]); [left; cbn in *; eauto|right; done].
Defined.
End facts.
