(* ===== verification/PostgresProps.v ===== *)
(** What the Postgres store guarantees: refinement of the abstract store for
    calls one after the other, overlapping claims that behave as if one came
    after the other, a lease judged by one clock; and where a cancellation
    races with a claim. *)

From S2P Require Import Prelude ListLib Types StoreApi Sql SqlEngine SqlBackend SqlFacts Postgres.
From S2P Require Import PostgresFacts.
From S2P Require Conformance.
From Stdlib Require Import Ascii.
Local Open Scope Z_scope.

(** ** Two sessions *)

Section sessions.
Context `{!PgDriver}.

(** Two [ClaimDue] statements that overlap: the second selects while the first
    holds the locks of its rows and has not committed, and updates after the
    first has committed. *)
Definition overlapping_claims (qA : string) (nowA nA : Z) (wA : string) (uA : Z)
    (qB : string) (nowB nB : Z) (wB : string) (uB : Z) (s : Store)
    : list Job.t * list Job.t * Store :=
  let idsA := JobRow.id <$> due ∅ qA (encode_ts nowA) nA s in
  let idsB := JobRow.id <$> due (list_to_set idsA) qB (encode_ts nowB) nB s in
  let a := claim_update idsA wA (encode_ts uA) (encode_ts nowA) s in
  let sA := set_tables a.2 (tx s) s in
  let b := claim_update idsB wB (encode_ts uB) (encode_ts nowB) sA in
  (sortJobs (scanJob <$> a.1), sortJobs (scanJob <$> b.1), set_tables b.2 (tx sA) sA).

(** What the second session selects is what it would select after the first
    has committed. *)
Lemma due_behind_locks idsA wA uA nowA q now m rm :
  schema_ok (flag := bool) row_ok m rm →
  let mA := update_where (λ r, bool_decide (JobRow.id r ∈ idsA)) (claim_row wA uA nowA) m in
  filter (λ r, claim_where (list_to_set idsA) q now r = true) (map_to_list m).*2 ≡ₚ
  filter (λ r, claim_where ∅ q now r = true) (map_to_list mA).*2.
Proof.
  intros Hok mA. assert (HkeyA : keyed JobRow.id mA) by (apply keyed_update; [apply Hok|done]).
  assert (Hw : ∀ r, claim_where (list_to_set idsA) q now r = true ↔
                    claim_where ∅ q now r = true ∧ JobRow.id r ∉ idsA).
  { intros r. unfold claim_where. rewrite !andb_true_iff, !bool_decide_eq_true, elem_of_list_to_set.
    assert (JobRow.id r ∉ (∅ : gset string)) by set_solver. tauto. }
  apply NoDup_Permutation; [apply NoDup_filter, values_nodup, Hok|by apply NoDup_filter, values_nodup|].
  intros r. rewrite !list_elem_of_filter, !elem_of_values, Hw. split.
  - intros [[Hc Hn] [k Hk]]. split; [done|]. exists k. unfold mA. rewrite update_where_lookup, Hk. simpl.
    by rewrite bool_decide_eq_false_2.
  - intros [Hc [k Hk]]. unfold mA in Hk. rewrite update_where_lookup in Hk.
    destruct (m !! k) as [r0|] eqn:Hr; [|done]. simpl in Hk. case_bool_decide as Hin.
    + injection Hk as <-. unfold claim_where in Hc. cbn in Hc. by rewrite andb_false_r in Hc.
    + injection Hk as <-. split; [by split|eauto].
Qed.

Lemma claimed_apart q now n m js q' now' n' js' w u :
  Spec.claim_ok q now n m js → Spec.claim_ok q' now' n' (Spec.claim_all w u js m) js' →
  Forall (λ k, k ∉ Spec.ids js) (Spec.ids js').
Proof.
  intros [Hnd Hel _ _ _] [_ Hel' _ _ _]. apply Forall_forall. intros k Hk Hk'.
  unfold Spec.ids in Hk. apply list_elem_of_fmap in Hk as (j' & -> & Hj').
  rewrite Forall_forall in Hel'. destruct (Hel' j' Hj') as [Hm He].
  unfold Spec.claim_all in Hm. rewrite update_all_lookup in Hm; [|done|].
  2:{ eapply Forall_impl; [exact Hel|]. by intros j [? _]. }
  rewrite decide_True in Hm by done. destruct (m !! Job.ID j') as [j|]; [|done]. injection Hm as <-.
  unfold Spec.eligible, Spec.pending_in in He. cbn in He. by rewrite andb_false_r in He.
Qed.
End sessions.

(** ** Quoting *)

(** How Postgres reads a quoted identifier, after the opening quote: a doubled
    quote stands for one, a single one ends it. Returns what follows, too. *)
Fixpoint lex_quoted (s : string) : option (string * string) :=
  match s with
  | EmptyString => None
  | String c s =>
      if Ascii.eqb c quote then
        match s with
        | String c' s' =>
            if Ascii.eqb c' quote then
              match lex_quoted s' with Some (x, rest) => Some (String quote x, rest) | None => None end
            else Some ("", s)
        | EmptyString => Some ("", "")
        end
      else match lex_quoted s with Some (x, rest) => Some (String c x, rest) | None => None end
  end.

(** An identifier at the head of a command. *)
Definition lex_ident (s : string) : option (string * string) :=
  match s with
  | String c s => if Ascii.eqb c quote then lex_quoted s else None
  | EmptyString => None
  end.

Definition starts_quote (s : string) : bool :=
  match s with String c _ => Ascii.eqb c quote | EmptyString => false end.

Lemma string_app_snoc (a rest : string) c : (a +:+ String c "") +:+ rest = a +:+ String c rest.
Proof. induction a as [|x a IH]; [done|]. exact (f_equal (String x) IH). Qed.

Lemma lex_quote_body s rest :
  starts_quote rest = false → lex_quoted (quote_body s +:+ String quote rest) = Some (s, rest).
Proof.
  intros Hr. induction s as [|c s IH].
  - change (lex_quoted (String quote rest) = Some ("", rest)). unfold lex_quoted. rewrite Ascii.eqb_refl.
    destruct rest as [|c rest]; [done|]. unfold starts_quote in Hr. by rewrite Hr.
  - cbn [quote_body]. destruct (Ascii.eqb c quote) eqn:Hc.
    + change (lex_quoted (String quote (String quote (quote_body s +:+ String quote rest))) =
              Some (String c s, rest)).
      cbn [lex_quoted]. rewrite !Ascii.eqb_refl, IH. apply Ascii.eqb_eq in Hc as ->. done.
    + change (lex_quoted (String c (quote_body s +:+ String quote rest)) = Some (String c s, rest)).
      cbn [lex_quoted]. by rewrite Hc, IH.
Qed.

(** ** Properties *)

Section properties.
Context `{!PgDriver}.

(** What [Save] stores, and the times as their columns hold them. *)
Definition as_encoded (c : method) : method :=
  match as_stored c with
  | MSave j => MSave (Job.set_RunAt (encode_ts (Job.RunAt j)) (Job.set_LockedUntil (encode_ts (Job.LockedUntil j)) j))
  | MFail id msg t => MFail id msg (encode_ts t)
  | MReschedule id t => MReschedule id (encode_ts t)
  | MUpsertRecurring r => MUpsertRecurring
      (RecurringSpec.set_NextRunAt (encode_ts (RecurringSpec.NextRunAt r))
        (RecurringSpec.set_LastFireAt (encode_ts (RecurringSpec.LastFireAt r)) r))
  | MUpdateRecurringNextRun id next last => MUpdateRecurringNextRun id (encode_ts next) (encode_ts last)
  | c => c
  end.

(** The call gives the database the same values, if a time once rounded stays as it
    is. *)
Lemma run_as_encoded c s :
  (∀ t, encode_ts (encode_ts t) = encode_ts t) → run_method (as_encoded c) s = run_method c s.
Proof.
  intros He. destruct c as [j| |id msg t| |id t|r| |id next last]; try done; cbn.
  - unfold Save, save_row. cbn. rewrite !He. destruct (Job.MaxAttempts j =? 0) eqn:Hm; cbn; by rewrite ?Hm.
  - unfold Fail, Fail_from. by rewrite He.
  - unfold Reschedule, Reschedule_from. by rewrite He.
  - unfold UpsertRecurring, recurring_row. cbn. by rewrite !He.
  - unfold UpdateRecurringNextRun. by rewrite !He.
Qed.

(** The values the columns hold: a priority and a state of eight bits, attempts
    of 32. *)
Definition fits (c : method) : Prop :=
  match c with
  | MSave j => 0 ≤ Job.Priority j < 256 ∧ 0 ≤ Job.State j < 256 ∧ int4b (Job.Attempt j) = true ∧
               int4b (Job.MaxAttempts j) = true
  | MUpsertRecurring r => 0 ≤ RecurringSpec.Priority r < 256 ∧ int4b (RecurringSpec.MaxAttempts r) = true
  | _ => True
  end.

Lemma fits_ok c : (∀ t, encode_ts (encode_ts t) = encode_ts t) → fits c → ok_method (as_encoded c).
Proof.
  intros He. destruct c as [j| | | | |r| |]; cbn; unfold time_ok; try done.
  - intros (? & ? & ? & ?). unfold pg_ok_job, time_ok, stored_job. cbn. rewrite !He.
    destruct (Z.eqb_spec (Job.MaxAttempts j) 0); split_and!; try done; lia.
  - intros [? ?]. unfold pg_ok_spec, time_ok. cbn. by rewrite !He.
Qed.

(** C20: for calls one after the other, with a driver for which a time once rounded
    stays as it is, the Postgres methods answer and change the contents exactly
    as the abstract store does, given the times as the driver rounds them and,
    by [Save], three attempts for a [MaxAttempts] of zero; or, which on a
    healthy database does not happen, the method reports an infrastructure error
    (a statement or a commit fails, or the server refuses a value) and the
    contents are as before. *)
Theorem postgres_refines (c : method) (s : Store) :
  (∀ t, encode_ts (encode_ts t) = encode_ts t) → sql_wf s → fits c →
  ∃ e s', run_method c s = Some (e, s') ∧ sql_wf s' ∧
    ((e, sql_abs s') = spec_method (as_encoded c) (sql_abs s) ∨
     ((∃ msg, e = Some (ErrOther msg)) ∧ sql_abs s' = sql_abs s ∧ ¬ healthy s)).
Proof.
  intros He Hwf Hc%fits_ok; [|done]. rewrite <- (run_as_encoded c s He). set (c' := as_encoded c) in *.
  assert (Hy : yields (run_method c') s infra (λ e sp, (e, sp) = spec_method c' (sql_abs s))).
  { clearbody c'. destruct c'; cbn in *; [by apply pg_Save_yields|by apply pg_Ack_yields|by apply pg_Fail_yields|
      by apply pg_Cancel_yields|by apply pg_Reschedule_yields|by apply pg_UpsertRecurring_yields|
      by apply pg_DeleteRecurring_yields|by apply pg_UpdateRecurringNextRun_yields; try apply Hc]. }
  destruct Hy as (e & s' & Hrun & Hwf' & [(He' & Ha & Hh)|Hres]); exists e, s';
    (split; [done|]); (split; [done|]); [by right|by left].
Qed.

(** C21: two schedulers that claim at the same moment share no job, and nothing
    is lost between them: the first claims the best due jobs of the contents,
    and the second the best of what the first has left, exactly as if it had
    come after. *)
Theorem postgres_claims_overlap (s : Store) (qA : string) (nowA nA : Z) (wA : string) (uA : Z)
    (qB : string) (nowB nB : Z) (wB : string) (uB : Z) :
  sql_wf s → 0 ≤ nA → 0 ≤ nB → time_ok nowA → time_ok uA → time_ok nowB → time_ok uB →
  ∃ outA outB s' jsA jsB,
    overlapping_claims qA nowA nA wA uA qB nowB nB wB uB s = (outA, outB, s') ∧ sql_wf s' ∧
    let m := Spec.jobs (sql_abs s) in let mA := Spec.claim_all wA uA jsA m in
    Spec.claim_ok qA nowA nA m jsA ∧ Spec.claim_complete qA nowA nA m jsA ∧
    Spec.job_view <$> outA = Spec.claim_job wA uA <$> jsA ∧
    Spec.claim_ok qB nowB nB mA jsB ∧ Spec.claim_complete qB nowB nB mA jsB ∧
    Spec.job_view <$> outB = Spec.claim_job wB uB <$> jsB ∧
    Spec.jobs (sql_abs s') = Spec.claim_all wB uB jsB mA ∧
    Forall (λ k, k ∉ Spec.ids jsA) (Spec.ids jsB).
Proof.
  intros Hwf HnA HnB HtA HuA HtB HuB. sql_start Hwf. unfold overlapping_claims, due. cbn.
  rewrite HtA, HuA, HtB, HuB.
  destruct (select_where_take (sc JobRow.t) claim_order (Hscan _) (claim_where ∅ qA nowA) nA (jobs t) HnA)
    as (srtA & -> & HsA & HpA).
  set (idsA := JobRow.id <$> take (Z.to_nat nA) srtA).
  destruct (claim_rows_ok (sc JobRow.t) srtA (jobs t) (recurring t) qA nowA wA uA nA (Hscan _) Hok HnA HsA HpA)
    as (jsA & H1 & H2 & H3 & H4). fold idsA in H3, H4.
  set (mA := update_where (λ r, bool_decide (JobRow.id r ∈ idsA)) (claim_row wA uA nowA) (jobs t)) in *.
  assert (HokA : schema_ok row_ok mA (recurring t)).
  { apply schema_ok_update; [exact Hok|done|]. intros r (? & ? & ?). by split. }
  destruct (select_where_take (sc JobRow.t) claim_order (Hscan _) (claim_where (list_to_set idsA) qB nowB)
    nB (jobs t) HnB) as (srtB & -> & HsB & HpB).
  rewrite (due_behind_locks idsA wA uA nowA qB nowB (jobs t) (recurring t) Hok) in HpB. fold mA in HpB.
  destruct (claim_rows_ok (sc JobRow.t) srtB mA (recurring t) qB nowB wB uB nB (Hscan _) HokA HnB HsB HpB)
    as (jsB & H5 & H6 & H7 & H8).
  do 3 eexists. exists jsA, jsB. split; [reflexivity|]. split.
  { refine (wf_tables _ _ _ _ _ _ _ _ _ _ _ _ _ Hwf _). cbn.
    apply schema_ok_update; [exact HokA|done|]. intros r (? & ? & ?). by split. }
  rewrite H4 in H5, H6, H8. unfold sql_abs. cbn.
  split; [exact H1|]. split; [exact H2|]. split; [exact H3|]. split; [exact H5|]. split; [exact H6|].
  split; [exact H7|]. split; [exact H8|]. exact (claimed_apart _ _ _ _ _ _ _ _ _ _ _ H1 H5).
Qed.

(** C22: a cancellation that has read the job as pending deletes it even if
    a scheduler claims it in between: the cancellation reports success, the job
    runs all the same, and its worker cannot acknowledge it. *)
Theorem postgres_cancel_race (s s1 : Store) (k : string) (r : JobRow.t) (q : string) (now n : Z)
    (w : string) (u : Z) (out : list Job.t) :
  sql_wf s → (∀ i, faults s i = None) → time_ok now → time_ok u → 0 ≤ n →
  jobs (tables s) !! k = Some r → JobRow.state r = StatePending →
  ClaimDue q now n w u s = Some ((out, None), s1) → k ∈ Job.ID <$> out →
  ∃ s2 s3, Cancel_from k (job_row (job_is k) s) s1 = Some (None, s2) ∧
    Spec.jobs (sql_abs s2) !! k = None ∧
    Ack k s2 = Some (Some ErrJobNotFound, s3).
Proof.
  intros Hwf Hf Hnow Hu Hn Hr Hp Hclaim Hk.
  assert (Hrow : job_row (job_is k) s = Some r).
  { unfold job_is. rewrite pg_job_row_at by apply Hwf. unfold row_at. by rewrite Hr. }
  rewrite Hrow. unfold Cancel_from. rewrite Hp. change (wrap8 StatePending =? StatePending) with true. cbn.
  destruct (pg_ClaimDue_yields s q now n w u Hwf Hnow Hu Hn) as (a & s' & Hrun & Hwf1 & _).
  rewrite Hclaim in Hrun. injection Hrun as <- <-.
  assert (Hf1 : ∀ i, faults s1 i = None).
  { revert Hclaim. unfold ClaimDue, ClaimDue_skipping, query, stmt_may, stmt, gbind, gret, called, set_tables. cbn.
    rewrite Hf. cbn. rewrite Hf. unfold claimDueSQL. rewrite (proj2 (Z.ltb_ge n 0) Hn). cbn. intros Heq. injection Heq as _ <-. exact Hf. }
  sql_start Hwf1. unfold Ack, ackSQL, delete_jobs, job_in, job_is, stmt, Commit, gbind, gret, called, set_tables.
  cbn in *. rewrite ?Hf1. cbn. rewrite ?Hf1. cbn. do 2 eexists. split; [reflexivity|]. cbn.
  rewrite ?Hf1. cbn. set (m' := delete_where _ (jobs t)).
  assert (Hm' : keyed JobRow.id m' ∧ m' !! k = None).
  { unfold m'. rewrite delete_by_key by apply Hok. unfold row_at. destruct (jobs t !! k) eqn:Ht.
    - split; [apply keyed_delete, Hok|apply lookup_delete_eq].
    - split; [apply Hok|done]. }
  destruct Hm' as [Hkey Hgone]. split.
  - unfold sql_abs. cbn. by rewrite lookup_fmap, Hgone.
  - rewrite count_by_key by done. unfold row_at. rewrite Hgone. reflexivity.
Qed.
End properties.

(** the [LISTEN] command names the channel of the queue and nothing else,
    whatever the queue's name: reading the quoted identifier gives the channel
    back and stops at the end of the command. *)
Theorem postgres_listen_quoted (s rest : string) :
  starts_quote rest = false →
  lex_ident (pgQuoteIdent s +:+ rest) = Some (s, rest).
Proof.
  intros Hr. unfold pgQuoteIdent.
  change (lex_ident (String quote ((quote_body s +:+ String quote "") +:+ rest)) = Some (s, rest)).
  unfold lex_ident. rewrite Ascii.eqb_refl, string_app_snoc. by apply lex_quote_body.
Qed.

(** ** A database for the witnesses *)

(** The driver rounds to microseconds. *)
#[local] Instance demo_driver : PgDriver := { encode_ts t := t / 1000 * 1000 }.

Definition demo_pg (fails : nat → option string) (server : nat → Z) : Store :=
  mkEngine (mkTables ∅ ∅ ∅ []) None fails 0 (λ n, 5000 + Z.of_nat n) 0 server demo_scan.

Lemma demo_pg_wf fails server : sql_wf (demo_pg fails server).
Proof. split; [split; [done|by intros Row m]|]. apply schema_ok_empty. Qed.

Definition demo_pg_queue : list method :=
  [MSave (demo_row_job "low" PriorityLow 1000); MSave (demo_row_job "high" PriorityHigh 3000);
   MSave (demo_row_job "mid" PriorityNormal 2000)].

Lemma demo_pg_queue_ok : Forall ok_method demo_pg_queue.
Proof. repeat constructor; cbn; try done; int64_lia. Qed.

Definition demo_pg_store : Store := after demo_pg_queue (demo_pg no_faults (λ _, 10 ^ 12)).

Lemma demo_pg_store_wf : sql_wf demo_pg_store.
Proof. exact (after_wf demo_pg_queue _ (demo_pg_wf _ _) demo_pg_queue_ok). Qed.

(** Empty databases pass the conformance suite. *)
Example postgres_conforms :
  forallb (λ t, match t.2 (λ n, 10 ^ 18 + 1000 * Z.of_nat n) (demo_pg no_faults (λ _, 10 ^ 18)) with
                | Some (true, _) => true
                | _ => false
                end) Conformance.Run = true.
Proof. vm_compute. reflexivity. Qed.

(** A scheduler whose clock is behind the server's by more than the visibility
    timeout sets locks that have expired already: the janitor of another takes
    the job back at once and it is claimed a second time. *)
Example skewed_clock_loses_claims :
  let now := 4000 in let u := now + 30 * Second in
  match (gbind (ClaimDue "default" now 1 "behind" u) (λ c1,
         gbind (RecoverStale (10 ^ 12)) (λ n,
         gbind (ClaimDue "default" (10 ^ 12) 1 "other" (2 * 10 ^ 12)) (λ c2,
         gret (Job.ID <$> c1.1, n.1, Job.ID <$> c2.1))))) demo_pg_store with
  | Some (ids1, n, ids2, _) => ids1 = ["high"] ∧ n = 1 ∧ ids2 = ["high"]
  | None => False
  end.
Proof. vm_compute. repeat split. Qed.

(** *** Witnesses *)

(** A job for an instant that is no whole microsecond, with no bound. *)
Definition demo_odd : Job.t := Job.set_MaxAttempts 0 (demo_row_job "odd" PriorityHigh 1234567).

Lemma postgres_refines_witness :
  (∃ e s', run_method (MSave demo_odd) demo_pg_store = Some (e, s') ∧ sql_wf s' ∧
    ((e, sql_abs s') = spec_method (as_encoded (MSave demo_odd)) (sql_abs demo_pg_store) ∨
     ((∃ msg, e = Some (ErrOther msg)) ∧ sql_abs s' = sql_abs demo_pg_store ∧ ¬ healthy demo_pg_store))) ∧
  (λ r, (r.1, (λ j, (Job.RunAt j, Job.MaxAttempts j)) <$> Spec.jobs (sql_abs r.2) !! "odd")) <$>
    run_method (MSave demo_odd) demo_pg_store = Some (None, Some (1234000, 3)).
Proof.
  split; [|vm_compute; reflexivity].
  apply (postgres_refines (MSave demo_odd) demo_pg_store).
  - intros t. cbn. by rewrite Z.div_mul.
  - apply demo_pg_store_wf.
  - by vm_compute.
Defined.

Lemma postgres_claims_overlap_witness :
  ∃ outA outB s' jsA jsB,
    overlapping_claims "default" 5000 2 "a" 9000 "default" 5000 2 "b" 9000 demo_pg_store = (outA, outB, s') ∧
    Job.ID <$> outA = ["high"; "mid"] ∧ Job.ID <$> outB = ["low"] ∧
    Forall (λ k, k ∉ Spec.ids jsA) (Spec.ids jsB).
Proof.
  destruct (postgres_claims_overlap demo_pg_store "default" 5000 2 "a" 9000 "default" 5000 2 "b" 9000)
    as (outA & outB & s' & jsA & jsB & Hrun & _ & H);
    [apply demo_pg_store_wf|lia|lia|reflexivity|reflexivity|reflexivity|reflexivity|].
  exists outA, outB, s', jsA, jsB. split; [exact Hrun|].
  vm_compute in Hrun. injection Hrun as <- <- _. split; [reflexivity|]. split; [reflexivity|]. apply H.
Defined.

Lemma postgres_cancel_race_witness :
  ∃ r out s1 s2 s3, jobs (tables demo_pg_store) !! "high" = Some r ∧
    ClaimDue "default" 5000 1 "w" 9000 demo_pg_store = Some ((out, None), s1) ∧ Job.ID <$> out = ["high"] ∧
    Cancel_from "high" (job_row (job_is "high") demo_pg_store) s1 = Some (None, s2) ∧
    Spec.jobs (sql_abs s2) !! "high" = None ∧
    Ack "high" s2 = Some (Some ErrJobNotFound, s3).
Proof.
  destruct (jobs (tables demo_pg_store) !! "high") as [r|] eqn:Hr; [|vm_compute in Hr; discriminate].
  destruct (ClaimDue "default" 5000 1 "w" 9000 demo_pg_store) as [[[out [e|]] s1]|] eqn:Hc;
    [vm_compute in Hc; discriminate| |vm_compute in Hc; discriminate].
  assert (Hids : Job.ID <$> out = ["high"]).
  { pose proof Hc as Hc'. vm_compute in Hc'. injection Hc' as <- _. reflexivity. }
  destruct (postgres_cancel_race demo_pg_store s1 "high" r "default" 5000 1 "w" 9000 out)
    as (s2 & s3 & H); [apply demo_pg_store_wf|reflexivity|reflexivity|reflexivity|lia|exact Hr| |exact Hc| |].
  - vm_compute in Hr. injection Hr as <-. reflexivity.
  - rewrite Hids. by left.
  - exists r, out, s1, s2, s3. split; [reflexivity|]. split; [reflexivity|]. split; [exact Hids|exact H].
Defined.

Lemma postgres_listen_quoted_witness :
  lex_ident (pgQuoteIdent (notifyChannel "a; DROP TABLE jobs") +:+ "") =
    Some (notifyChannel "a; DROP TABLE jobs", "").
Proof. apply (postgres_listen_quoted (notifyChannel "a; DROP TABLE jobs") ""). reflexivity. Defined.
