(* ===== verification/PostgresDurable.v ===== *)
(** The Postgres store as one that several processes share, a call at a time:
    what a call has done to the rows if it returned, whatever values it was
    given and whatever failed on the way. *)

From S2P Require Import Prelude ListLib Types StoreApi Durable Sql SqlEngine SqlBackend SqlFacts SqlDurable.
From S2P Require Import Postgres PostgresFacts.
Local Open Scope Z_scope.

Section durable.
Context `{!PgDriver}.

(** Rows sit under their identifier, their attempts fit the column, and no
    transaction is open. *)
Definition attempts_fit (m : gmap string JobRow.t) : Prop :=
  map_Forall (λ _ r, int4b (JobRow.attempt r) = true) m.
Definition pg_rows_wf (s : Store) : Prop :=
  idle s ∧ keyed JobRow.id (jobs (tables s)) ∧ attempts_fit (jobs (tables s)).

Definition pg_rows (s : Store) : gmap string Job.t := row_job <$> jobs (tables s).

(** [stale], of the job a row stands for: by the server's clock. *)
Definition pg_lock_over (s : Store) (v : Job.t) : bool :=
  (Time.zero <? Job.LockedUntil v) && (Job.LockedUntil v <? server_now s (calls s)).

Section frames.
Variables (t t' : Tables) (F : nat → option string) (n n' rd rd' : nat) (clk clk' sn sn' : nat → Z).
Variable sc : ∀ Row : Set, gmap string Row → list Row.

Lemma pg_wf_tables :
  pg_rows_wf (db t F n clk rd sn sc) → keyed JobRow.id (jobs t') → attempts_fit (jobs t') →
  pg_rows_wf (db t' F n' clk' rd' sn' sc).
Proof. by intros [[_ Hs] _] Hk Ha. Qed.
End frames.

Ltac pg_start Hwf :=
  match type of Hwf with
  | pg_rows_wf ?s => destruct s as [t [?|] F n clk rd sn sc]; [by destruct Hwf as [[? _] _]|];
                 pose proof (proj1 (proj2 Hwf)) as Hkey; pose proof (proj2 (proj2 Hwf)) as Hfit;
                 pose proof (proj2 (proj1 Hwf)) as Hscan; cbn in Hkey, Hscan, Hfit
  end.

(** The rows are as they were. *)
Ltac pg_wf Hwf := eapply pg_wf_tables; [exact Hwf|..].
Ltac pg_same Hwf := split_and!; [pg_wf Hwf; [exact (proj1 (proj2 Hwf))|exact (proj2 (proj2 Hwf))]|done..].
Ltac pg_run Hwf :=
  unfold deferring_rollback, query, stmt, stmt_may, Begin, Commit, Rollback, time_Now, gbind, gret, called,
    set_tables;
  repeat (sql_step; [intros [= _ <-]; pg_same Hwf|]).

Lemma pg_job_row_keyed (s : Store) k P :
  keyed JobRow.id (jobs (tables s)) → (∀ Row : Set, scans (@scan _ s Row)) →
  job_row (by_key JobRow.id k P) s = row_at k P (jobs (tables s)).
Proof. intros Hkey Hscan. apply query_by_key; [apply Hkey|apply Hscan]. Qed.

Lemma pg_Save_rows s j e s' :
  pg_rows_wf s → Save j s = Some (e, s') →
  pg_rows_wf s' ∧ others (Job.ID j) (pg_rows s) (pg_rows s') ∧ stays (pg_rows s) (pg_rows s').
Proof.
  intros Hwf. pg_start Hwf. unfold Save, upsertJobSQL, upsert, stmt, stmt_may, gbind, gret, called, set_tables. cbn.
  destruct (F n); cbn; [intros [= _ <-]; pg_same Hwf|].
  destruct (_ && _) eqn:Hi; cbn; [|intros [= _ <-]; pg_same Hwf].
  set (r := match jobs t !! Job.ID j with Some old => _ | None => _ end).
  assert (Hr : JobRow.id r = Job.ID j ∧ JobRow.attempt r = Job.Attempt j).
  { unfold r. by destruct (jobs t !! Job.ID j). }
  assert (Hkey' : keyed JobRow.id (<[Job.ID j := r]> (jobs t))) by (apply keyed_insert; [done|apply Hr]).
  assert (Hfit' : attempts_fit (<[Job.ID j := r]> (jobs t))).
  { apply map_Forall_insert_2; [|done]. rewrite (proj2 Hr). by breflect. }
  destruct (F (S n)); cbn; intros [= _ <-]; (split; [by pg_wf Hwf|apply rows_insert]).
Qed.

Lemma pg_Ack_rows s k e s' :
  pg_rows_wf s → Ack k s = Some (e, s') → pg_rows_wf s' ∧ others k (pg_rows s) (pg_rows s').
Proof.
  intros Hwf. pg_start Hwf. unfold Ack, ackSQL, delete_jobs, job_in. pg_run Hwf.
  rewrite delete_by_key by done. intros [= _ <-]. case_match; [|pg_same Hwf].
  split; [pg_wf Hwf; [by apply keyed_delete|by apply map_Forall_delete]|apply rows_delete].
Qed.

Lemma pg_Cancel_rows s k e s' :
  pg_rows_wf s → Cancel k s = Some (e, s') →
  pg_rows_wf s' ∧ others k (pg_rows s) (pg_rows s') ∧ settled (pg_rows s) (pg_rows s').
Proof.
  intros Hwf. pg_start Hwf. unfold Cancel, job_is. pg_run Hwf.
  rewrite pg_job_row_keyed by done. unfold Cancel_from. cbn. unfold row_at.
  destruct (jobs t !! k) as [r|] eqn:Hr; cbn; [|intros [= _ <-]; pg_same Hwf].
  destruct (Z.eqb_spec (wrap8 (JobRow.state r)) StatePending); cbn; [|intros [= _ <-]; pg_same Hwf].
  pg_run Hwf. unfold delete_jobs, job_is. cbn. rewrite delete_by_key by done. unfold row_at. rewrite Hr. cbn.
  intros [= _ <-]. split; [pg_wf Hwf; [by apply keyed_delete|by apply map_Forall_delete]|].
  split; [|eapply others_settled; [done..|]]; apply rows_delete.
Qed.

Lemma pg_Reschedule_rows s k u e s' :
  pg_rows_wf s → Reschedule k u s = Some (e, s') →
  pg_rows_wf s' ∧ stays (pg_rows s) (pg_rows s') ∧ settled (pg_rows s) (pg_rows s').
Proof.
  intros Hwf. pg_start Hwf. unfold Reschedule, job_is. pg_run Hwf.
  rewrite pg_job_row_keyed by done. unfold Reschedule_from. cbn. unfold row_at.
  destruct (jobs t !! k) as [r|] eqn:Hr; cbn; [|intros [= _ <-]; pg_same Hwf].
  destruct (Z.eqb_spec (wrap8 (JobRow.state r)) StatePending); cbn; [|intros [= _ <-]; pg_same Hwf].
  pg_run Hwf. unfold rescheduleUpdateSQL, job_is. cbn. rewrite update_by_key by done. unfold row_at. rewrite Hr. cbn.
  intros [= _ <-]. split; [pg_wf Hwf|split; [|eapply others_settled; [done..|]]; apply rows_insert].
  - apply keyed_insert; [done|]. exact (Hkey k r Hr).
  - apply map_Forall_insert_2; [exact (Hfit k r Hr)|done].
Qed.

Lemma pg_Fail_rows s k msg u e s' :
  pg_rows_wf s → Fail k msg u s = Some (e, s') →
  pg_rows_wf s' ∧ others k (pg_rows s) (pg_rows s') ∧
  ∀ v, pg_rows s !! k = Some v → pg_rows s' !! k = None → Spec.exhausted v = true.
Proof.
  intros Hwf. assert (Hsame : ∀ v, pg_rows s !! k = Some v → pg_rows s !! k = None → Spec.exhausted v = true)
    by (intros; congruence).
  pg_start Hwf. unfold Fail. pg_run Hwf. unfold job_in at 1.
  rewrite pg_job_row_keyed by done. unfold Fail_from. cbn. unfold row_at.
  destruct (jobs t !! k) as [r|] eqn:Hr; cbn; [|intros [= _ <-]; pg_same Hwf].
  destruct (JobRow.state r =? StateClaimed) eqn:Hc; cbn; [|intros [= _ <-]; pg_same Hwf].
  destruct (_ && _) eqn:He; cbn; pg_run Hwf.
  - unfold delete_jobs, job_is. cbn. rewrite delete_by_key by done. unfold row_at. rewrite Hr. cbn.
    intros [= _ <-]. split; [pg_wf Hwf; [by apply keyed_delete|by apply map_Forall_delete]|].
    split; [apply rows_delete|].
    intros v. unfold pg_rows. cbn. rewrite lookup_fmap, Hr. intros [= <-] _. unfold Spec.exhausted. cbn.
    by rewrite wrap64_id by apply (int4b_range _ (Hfit k r Hr)).
  - unfold failRetrySQL. cbn. rewrite (retry_in_range k (jobs t) r Hkey Hr (proj1 (Z.eqb_eq _ _) Hc)).
    destruct (int4b (JobRow.attempt r + 1)) eqn:Hi; cbn; [|intros [= _ <-]; pg_same Hwf].
    sql_step; [intros [= _ <-]; pg_same Hwf|].
    unfold job_in. rewrite update_by_key by done. unfold row_at. rewrite Hr, Hc. cbn.
    intros [= _ <-]. split; [pg_wf Hwf|split; [apply rows_insert|]].
    + apply keyed_insert; [done|]. exact (Hkey k r Hr).
    + by apply map_Forall_insert_2.
    + intros v _. unfold pg_rows. cbn. by rewrite lookup_fmap, lookup_insert_eq.
Qed.

Lemma pg_RecoverStale_rows s now res s' :
  pg_rows_wf s → RecoverStale now s = Some (res, s') →
  pg_rows_wf s' ∧ ∀ k v, pg_rows s !! k = Some v →
    pg_rows s' !! k = Some v ∨
    (Job.State v = StateClaimed ∧ pg_lock_over s v = true ∧ pg_rows s' !! k = Some (Spec.release_job v)).
Proof.
  intros Hwf. pg_start Hwf. unfold RecoverStale, recoverStaleSQL, stmt, gbind, gret, called, set_tables. cbn.
  destruct (F n); cbn; intros [= _ <-].
  { split; [by pg_wf Hwf|]. by left. }
  split; [pg_wf Hwf; [by apply keyed_update|]|].
  - intros k r. cbn. rewrite update_where_lookup. destruct (jobs t !! k) as [r0|] eqn:Hr; [|done]. cbn.
    intros [= <-]. pose proof (Hfit k r0 Hr). by destruct (stale _ r0).
  - intros k v. unfold pg_rows. cbn. rewrite !lookup_fmap, update_where_lookup.
    destruct (jobs t !! k) as [r|]; [|done]. cbn. intros [= <-]. destruct (stale _ r) eqn:Hs; [|by left].
    right. unfold stale in Hs. apply andb_true_iff in Hs as [[Hc Hz]%andb_true_iff Hl].
    apply Z.eqb_eq in Hc. unfold pg_lock_over. cbn in *. by rewrite Hc, Hz, Hl.
Qed.

(** A statement on another table. *)
Lemma pg_elsewhere s s' :
  pg_rows_wf s → jobs (tables s') = jobs (tables s) → tx s' = None → @scan _ s' = @scan _ s →
  pg_rows_wf s' ∧ pg_rows s' = pg_rows s.
Proof.
  intros [[_ Hscan] Hkey] Hj Htx Hs. unfold pg_rows_wf, pg_rows, idle. rewrite Hj, Htx, Hs. by split.
Qed.

Ltac pg_other Hwf := apply (pg_elsewhere _ _ Hwf); reflexivity.

Lemma pg_Heartbeat_rows s w now e s' :
  pg_rows_wf s → Heartbeat w now s = Some (e, s') → pg_rows_wf s' ∧ pg_rows s' = pg_rows s.
Proof.
  intros Hwf. pg_start Hwf. unfold Heartbeat, stmt, gbind, gret, called, set_tables. cbn.
  destruct (F n); cbn; intros [= _ <-]; pg_other Hwf.
Qed.

Lemma pg_UpsertRecurring_rows s r e s' :
  pg_rows_wf s → UpsertRecurring r s = Some (e, s') → pg_rows_wf s' ∧ pg_rows s' = pg_rows s.
Proof.
  intros Hwf. pg_start Hwf. unfold UpsertRecurring, upsertRecurringSQL, stmt_may, gbind, gret, called, set_tables.
  cbn. destruct (F n); cbn; [|destruct (_ && _); cbn]; intros [= _ <-]; pg_other Hwf.
Qed.

Lemma pg_UpdateRecurringNextRun_rows s k next last e s' :
  pg_rows_wf s → UpdateRecurringNextRun k next last s = Some (e, s') →
  pg_rows_wf s' ∧ pg_rows s' = pg_rows s.
Proof.
  intros Hwf. pg_start Hwf. unfold UpdateRecurringNextRun, stmt, gbind, gret, called, set_tables. cbn.
  destruct (F n); cbn; intros [= _ <-]; pg_other Hwf.
Qed.

Lemma pg_ListRecurring_rows s r s' :
  pg_rows_wf s → ListRecurring s = Some (r, s') → pg_rows_wf s' ∧ pg_rows s' = pg_rows s.
Proof.
  intros Hwf. pg_start Hwf. unfold ListRecurring, query, stmt, gbind, gret, called, set_tables. cbn.
  destruct (F n); cbn; [|destruct (F (S n)); cbn]; intros [= _ <-]; pg_other Hwf.
Qed.

Lemma pg_AcquireRecurringLease_rows s k u w r s' :
  pg_rows_wf s → AcquireRecurringLease k u w s = Some (r, s') → pg_rows_wf s' ∧ pg_rows s' = pg_rows s.
Proof.
  intros Hwf. pg_start Hwf.
  unfold AcquireRecurringLease, acquireLeaseSQL, query, stmt, gbind, gret, called, set_tables. cbn.
  destruct (F n); cbn; [|destruct (count_where _ _); cbn; [destruct (F (S n)); cbn; [|case_match]|]];
    intros [= _ <-]; pg_other Hwf.
Qed.

Lemma pg_ClaimDue_rows s q now m w u out e s' :
  pg_rows_wf s → 0 ≤ m → ClaimDue q now m w u s = Some ((out, e), s') →
  pg_rows_wf s' ∧ stays (pg_rows s) (pg_rows s') ∧ settled (pg_rows s) (pg_rows s') ∧
  ∀ j, j ∈ out → ∃ v, pg_rows s !! Job.ID j = Some v ∧ Job.State v = StatePending.
Proof.
  intros Hwf Hm. assert (Hnone : ∀ j : Job.t, j ∈ [] → ∃ v, pg_rows s !! Job.ID j = Some v ∧
    Job.State v = StatePending) by (by intros j ?%elem_of_nil).
  pg_start Hwf. unfold ClaimDue, ClaimDue_skipping, claimDueSQL, query, stmt, stmt_may, gbind, gret, called, set_tables.
  sql_step; [intros [= <- _ <-]; pg_same Hwf|]. sql_step; [intros [= <- _ <-]; pg_same Hwf|].
  rewrite (proj2 (Z.ltb_ge m 0) Hm). unfold claim_update, due. cbn.
  set (sel := JobRow.id <$> _).
  assert (Hsel : ∀ k, k ∈ sel → ∃ r, jobs t !! k = Some r ∧ JobRow.state r = StatePending).
  { intros k (r & -> & Hr)%list_elem_of_fmap. apply (selected_elem _ _ (Hscan _)) in Hr as (k & Hr & Hw).
    exists r. rewrite (Hkey k r Hr). split; [done|]. unfold claim_where in Hw.
    apply andb_true_iff in Hw as [[[_ Hw]%andb_true_iff _]%andb_true_iff _]. by apply Z.eqb_eq. }
  set (m' := update_where _ _ (jobs t)). intros [= <- _ <-]. unfold pg_rows. cbn.
  assert (Hlook : ∀ k, m' !! k =
    (λ r, if bool_decide (JobRow.id r ∈ sel) then claim_row w (encode_ts u) (encode_ts now) r else r) <$> jobs t !! k)
    by (intros k; apply update_where_lookup).
  split; [|split; [|split]].
  - pg_wf Hwf; cbn; [by apply keyed_update|]. intros k r. cbn. rewrite Hlook.
    destruct (jobs t !! k) as [r0|] eqn:Hr; [|done]. cbn. intros [= <-]. pose proof (Hfit k r0 Hr).
    by case_bool_decide.
  - intros k. rewrite !lookup_fmap, Hlook. destruct (jobs t !! k); [by eexists|by intros []].
  - intros k v. rewrite !lookup_fmap, Hlook. destruct (jobs t !! k) as [r|] eqn:Hr; [|done]. cbn.
    intros [= <-] Hs. rewrite (Hkey k r Hr). case_bool_decide as Hin; [|done].
    apply Hsel in Hin as (r' & Hr' & Hp). assert (r' = r) as -> by congruence. cbn in Hs. by rewrite Hp in Hs.
  - intros j Hj. change (j ∈ sortJobs (scanJob <$> filter (λ r, JobRow.id r ∈ sel) (sc JobRow.t m'))) in Hj.
    rewrite (proj1 (sortJobs_spec _)) in Hj. apply list_elem_of_fmap in Hj as (r & -> & Hr).
    apply list_elem_of_filter in Hr as [Hin _]. apply Hsel in Hin as (r' & Hr' & Hp). exists (row_job r').
    rewrite lookup_fmap. cbn. rewrite Hr', Hp. done.
Qed.

#[export] Instance postgres_durable : DurableStore Store.
Proof.
  refine {| dur_wf := pg_rows_wf; stored := pg_rows; lapsed s _ := pg_lock_over s |}.
  - intros s e Hwf. done.
  - intros s s' Hwf. done.
  - exact pg_Save_rows.
  - intros s q now n w u out e s' Hwf Hn%makeable_nonneg. by apply pg_ClaimDue_rows.
  - exact pg_Ack_rows.
  - exact pg_Fail_rows.
  - intros s k e s' Hwf Hr. by eapply pg_Cancel_rows.
  - exact pg_Reschedule_rows.
  - exact pg_Heartbeat_rows.
  - exact pg_RecoverStale_rows.
  - exact pg_UpsertRecurring_rows.
  - exact pg_ListRecurring_rows.
  - exact pg_AcquireRecurringLease_rows.
  - exact pg_UpdateRecurringNextRun_rows.
Defined.

(** Every method begins with a call to the server. *)
#[export] Instance postgres_heeds : HeedsContext Store.
Proof.
  split; intros; intros s; cbn;
    unfold Save, ClaimDue, ClaimDue_skipping, Ack, Fail, Heartbeat, RecoverStale, ListRecurring,
      AcquireRecurringLease, UpdateRecurringNextRun, query, stmt_may, stmt, Begin, time_Now, gbind, gret; cbn;
    do 2 eexists; (split; [reflexivity|]); unfold failure; eauto.
Qed.
End durable.
