(* ===== verification/LostReplies.v ===== *)
(** A store behind a network that loses replies: a call that the server has
    carried out may be reported as failed. What [Cluster] promises holds there
    too, for a [DurableStore] behind such a network is one: the interface
    ties what happened to the jobs to nothing but the call having been made. And
    what a lost reply does to the answers of the public API, on Postgres. *)

From S2P Require Import Prelude ListLib Types StoreApi Durable.
From S2P Require Import Sql SqlEngine SqlBackend SqlFacts SqlDurable Postgres PostgresFacts PostgresDurable.
From S2P Require Import World Recurring Scheduler Worker.
From S2P Require Import RecurringProps WorkerProps SchedulerProps Turns System Cluster Trace TwoProcesses.
Local Open Scope Z_scope.
Local Open Scope go_scope.

(** The server, which of the replies are lost, and how many calls were made. *)
Record Lossy (S : Type) : Type := mkLossy {
  server : S;
  lost : nat → bool;
  made : nat
}.
Arguments mkLossy {S} _ _ _.
Arguments server {S} _.
Arguments lost {S} _ _.
Arguments made {S} _.

(** What the driver reports when the connection is gone. *)
Definition gone : option error := Some (ErrOther "unexpected EOF").

Section lossy.
Context {S : Type}.

(** A call, and what the method returns when the driver reports an error. *)
Definition over_network {A} (m : GoM S A) (failed : A) : GoM (Lossy S) A := λ s,
  match m (server s) with
  | Some (r, d) =>
      Some (if lost s (made s) then failed else r, mkLossy d (lost s) (Datatypes.S (made s)))
  | None => None
  end.

Lemma over_network_inv {A} (m : GoM S A) (failed r : A) s s' :
  over_network m failed s = Some (r, s') →
  ∃ r0, m (server s) = Some (r0, server s') ∧ lost s' = lost s ∧ (r = r0 ∨ r = failed).
Proof.
  unfold over_network. destruct (m (server s)) as [[r0 d]|]; [|done]. intros [= <- <-].
  exists r0. split_and!; [done|done|]. destruct (lost s (made s)); auto.
Qed.

Context `{!StoreOps S}.

#[export] Instance lossy_ops : StoreOps (Lossy S) := {
  st_ended e s := mkLossy (st_ended e (server s)) (lost s) (made s);
  st_left s s' := mkLossy (st_left (server s) (server s')) (lost s') (made s');
  st_Save j := over_network (st_Save j) gone;
  st_ClaimDue q now n w u := over_network (st_ClaimDue q now n w u) ([], gone);
  st_Ack id := over_network (st_Ack id) gone;
  st_Fail id msg t := over_network (st_Fail id msg t) gone;
  st_Cancel id := over_network (st_Cancel id) gone;
  st_Reschedule id t := over_network (st_Reschedule id t) gone;
  st_Heartbeat w now := over_network (st_Heartbeat w now) gone;
  st_RecoverStale now := over_network (st_RecoverStale now) (0, gone);
  st_UpsertRecurring r := over_network (st_UpsertRecurring r) gone;
  st_ListRecurring := over_network st_ListRecurring ([], gone);
  st_DeleteRecurring id := over_network (st_DeleteRecurring id) gone;
  st_AcquireRecurringLease id u w := over_network (st_AcquireRecurringLease id u w) (false, gone);
  st_UpdateRecurringNextRun id next last := over_network (st_UpdateRecurringNextRun id next last) gone;
  st_QueueSize q := over_network (st_QueueSize q) (0, gone)
}.

#[export] Instance lossy_durable `{!DurableStore S} : DurableStore (Lossy S).
Proof.
  refine {| dur_wf s := dur_wf (server s); stored s := stored (server s);
            lapsed s := lapsed (server s) |}.
  1: intros s e Hwf; by apply dur_ended.
  1: intros s s' Hwf; by apply dur_left.
  all: intros s; intros; match goal with Hr : _ = Some _ |- _ =>
    apply over_network_inv in Hr as (r0 & Hr & _ & Hres) end.
  - by eapply dur_Save.
  - destruct r0 as [out0 e0].
    match goal with Hr : _ = Some _ |- _ => apply dur_ClaimDue in Hr as (? & ? & ? & Hp); [|done..] end.
    split_and!; [done..|]. destruct Hres as [[= -> ->]|[= -> ->]]; [done|by intros j ?%elem_of_nil].
  - by eapply dur_Ack.
  - by eapply dur_Fail.
  - by eapply dur_Cancel.
  - by eapply dur_Reschedule.
  - by eapply dur_Heartbeat.
  - by eapply dur_RecoverStale.
  - by eapply dur_UpsertRecurring.
  - by eapply dur_ListRecurring.
  - by eapply dur_AcquireRecurringLease.
  - by eapply dur_UpdateRecurringNextRun.
Defined.

(** A call with an ended context fails behind such a network as before it. *)
Lemma lossy_refused `{!DurableStore S} {A} e (m : GoM S A) (failed : A) (P : A → Prop) :
  refused e m P → P failed → refused e (over_network m failed) P.
Proof.
  intros Hm HP s. destruct (Hm (server s)) as (r & d & Hr & Hs & Hp). unfold under, over_network in *. cbn in Hr |- *.
  destruct (m (st_ended e (server s))) as [[r0 d0]|]; [|done]. injection Hr as -> <-.
  do 2 eexists. split; [reflexivity|]. split; [done|]. by destruct (lost s (made s)).
Qed.

#[export] Instance lossy_heeds `{!DurableStore S, !HeedsContext S} : HeedsContext (Lossy S).
Proof.
  assert (failure gone) by by eexists.
  split; intros; apply lossy_refused; try done.
  - apply heeds_Save.
  - apply heeds_ClaimDue.
  - apply heeds_Ack.
  - apply heeds_Fail.
  - apply heeds_Heartbeat.
  - apply heeds_RecoverStale.
  - apply heeds_ListRecurring.
  - apply heeds_AcquireRecurringLease.
  - apply heeds_UpdateRecurringNextRun.
Qed.
End lossy.

(** ** What lost replies do on Postgres

    A process "a" and a process "b" whose clock is later, on a server whose
    clock is as late. *)

#[local] Instance network_driver : PgDriver := { encode_ts t := t / 1000 * 1000 }.

(** The reply to the [k]-th call is lost. *)
Definition net_store (k : nat) : Lossy Postgres.Store :=
  mkLossy (mkEngine (mkTables ∅ ∅ ∅ []) None no_faults 0 (λ n, 5000 + Z.of_nat n) 0 (λ _, 10 ^ 12) demo_scan)
    (λ n, bool_decide (n = k)) 0.

Definition net_play (k : nat) := pair_play (pair_sched (10 ^ 6) (10 ^ 12) 100000) (10 ^ 6) (net_store k).

(** The caller is told that the dispatch failed, without an identifier, and no
    hook reports it; the job is there, and runs. A caller that tries again
    has it run twice. *)
Example lost_dispatch_runs :
  net_play 0 (pair_run "a") =
    Some (("", Some (StoreError (ErrOther "unexpected EOF"))),
          Some ([("u", 1, 0, "a")], [("a", [EvStart "u" "n" "default" 1]); ("b", [])])).
Proof. vm_compute. reflexivity. Qed.

(** A claim whose reply is lost is held by a process that does not know of
    it, until its lock is over: then [b] recovers the job and runs it. *)
Example lost_claim_recovered :
  net_play 1 [Move "a" (Claim "default")] =
    Some (("u", None), Some ([("u", 1, 0, "a")], [("a", [EvEnqueue "u" "n" "default"]); ("b", [])])) ∧
  net_play 1 (Move "a" (Claim "default") :: pair_sweep "b" ++ pair_run "b") =
    Some (("u", None), Some ([("u", 1, 0, "b")],
      [("a", [EvEnqueue "u" "n" "default"]); ("b", [EvStart "u" "n" "default" 1])])).
Proof. vm_compute. done. Qed.

(** An acknowledgement whose reply is lost has taken the job away: the success
    is reported, and nothing runs again. *)
Example lost_ack_done :
  net_play 2 (pair_run "a" ++ [Move "a" (Finish "default" (HReturn None))]) =
    Some (("u", None), Some ([],
      [("a", [EvEnqueue "u" "n" "default"; EvStart "u" "n" "default" 1; EvSuccess "u" "n" "default" 1 0]);
       ("b", [])])).
Proof. vm_compute. reflexivity. Qed.
