(* ===== verification/Text.v ===== *)
(** Numbers as text and as floating-point numbers: [strconv] of Go
    ([Itoa], [FormatInt], [ParseInt], [FormatBool], [ParseBool]), the numbers of
    Redis scripts and sorted-set scores (IEEE doubles, here of integer value),
    and Lua's [tostring]. *)

From S2P Require Import Prelude.
From stdpp Require Import pretty.
From Stdlib Require Import Ascii.
Local Open Scope Z_scope.

(** ** Decimal strings *)

(** [strconv.Itoa], [strconv.FormatInt(n, 10)]. *)
Definition itoa (n : Z) : string := pretty n.

Definition digit (c : ascii) : option Z :=
  let n := Z.of_N (N_of_ascii c) in if (48 <=? n) && (n <=? 57) then Some (n - 48) else None.

Fixpoint digits (acc : Z) (s : string) : option Z :=
  match s with
  | EmptyString => Some acc
  | String c s => match digit c with Some d => digits (acc * 10 + d) s | None => None end
  end.

(** A decimal integer with an optional sign: [None] is a syntax error. *)
Definition parse_int (s : string) : option Z :=
  match s with
  | EmptyString => None
  | String c rest =>
      if Ascii.eqb c "-" then (match rest with EmptyString => None | _ => Z.opp <$> digits 0 rest end)
      else if Ascii.eqb c "+" then (match rest with EmptyString => None | _ => digits 0 rest end)
      else digits 0 s
  end.

(** The value of [n, _ := strconv.ParseInt(s, 10, 64)] (and of [Atoi]): zero
    for a syntax error, the nearest bound out of range. *)
Definition ParseInt (s : string) : Z :=
  match parse_int s with Some n => Z.max min_int64 (Z.min max_int64 n) | None => 0 end.

Lemma pretty_N_char_digit d : (d < 10)%N → digit (pretty_N_char d) = Some (Z.of_N d).
Proof.
  intros Hd. destruct d as [|[[[[]|[]|]|[[]|[]|]|]|[[[]|[]|]|[[]|[]|]|]|]]; try done; lia.
Qed.

Lemma digits_pretty_go x s : digits 0 (pretty_N_go x s) = digits (Z.of_N x) s.
Proof.
  revert s. induction (N.lt_wf_0 x) as [x _ IH]; intros s.
  destruct (decide (x = 0)%N) as [->|Hx]; [by rewrite pretty_N_go_0|].
  rewrite pretty_N_go_step, IH by (try apply N.div_lt; lia).
  cbn [digits]. rewrite pretty_N_char_digit by (apply N.mod_lt; lia). f_equal.
  pose proof (N.div_mod x 10). lia.
Qed.

Lemma digits_pretty x : digits 0 (pretty x) = Some (Z.of_N x) ∧ pretty x ≠ "".
Proof.
  unfold pretty, pretty_N. case_decide as Hx; [by subst|].
  pose proof (digits_pretty_go x "") as Hd. split; [exact Hd|].
  intros He. rewrite He in Hd. injection Hd as Hd. lia.
Qed.

(** A numeral starts with neither sign. *)
Lemma parse_int_digits s n : digits 0 s = Some n → s ≠ "" → parse_int s = Some n.
Proof.
  destruct s as [|c s]; [done|]. intros Hd _. unfold parse_int.
  destruct (Ascii.eqb_spec c "-") as [->|_]; [done|].
  destruct (Ascii.eqb_spec c "+") as [->|_]; [done|]. exact Hd.
Qed.

Lemma parse_int_itoa n : parse_int (itoa n) = Some n.
Proof.
  unfold itoa. destruct n as [|p|p]; [done| |].
  - destruct (digits_pretty (N.pos p)) as [Hd Hne]. exact (parse_int_digits _ _ Hd Hne).
  - destruct (digits_pretty (N.pos p)) as [Hd Hne].
    change (pretty (Z.neg p)) with (String "-" (pretty (N.pos p))). unfold parse_int.
    rewrite Ascii.eqb_refl, Hd. by destruct (pretty (N.pos p)).
Qed.

Lemma ParseInt_itoa n : in_int64 n → ParseInt (itoa n) = n.
Proof. intros Hn. unfold ParseInt. rewrite parse_int_itoa. int64_lia. Qed.

Lemma itoa_inj a b : itoa a = itoa b → a = b.
Proof. intros H. pose proof (parse_int_itoa a) as Ha. rewrite H, parse_int_itoa in Ha. congruence. Qed.

(** *** A numeral after a separator can be told apart *)

Fixpoint has_char (x : ascii) (s : string) : bool :=
  match s with EmptyString => false | String c s => Ascii.eqb c x || has_char x s end.

Lemma has_char_app x a b : has_char x (a +:+ b) = has_char x a || has_char x b.
Proof.
  induction a as [|c a IH]; [done|].
  change (Ascii.eqb c x || has_char x (a +:+ b) = Ascii.eqb c x || has_char x a || has_char x b).
  by rewrite IH, orb_assoc.
Qed.

Lemma digits_no_char x acc s n : digit x = None → digits acc s = Some n → has_char x s = false.
Proof.
  intros Hx. revert acc. induction s as [|c s IH]; intros acc Hd; [done|]. cbn in *.
  destruct (Ascii.eqb_spec c x) as [->|_]; [by rewrite Hx in Hd|].
  destruct (digit c) as [d|]; [|done]. by eapply IH.
Qed.

Lemma itoa_no_colon n : has_char ":" (itoa n) = false.
Proof.
  unfold itoa. destruct n as [|p|p]; [done| |].
  - apply (digits_no_char ":" 0 _ (Z.pos p)); [done|]. apply (digits_pretty (N.pos p)).
  - apply (digits_no_char ":" 0 (pretty (N.pos p)) (Z.pos p)); [done|]. apply (digits_pretty (N.pos p)).
Qed.

(** The last separator of a string can be found again. *)
Lemma app_sep_inj x a b p q :
  has_char x p = false → has_char x q = false →
  a +:+ String x p = b +:+ String x q → a = b ∧ p = q.
Proof.
  intros Hp Hq. revert b. induction a as [|c a IH]; intros [|d b] Heq.
  - by injection Heq as ->.
  - exfalso. injection Heq as <- Heq.
    assert (Hin : has_char x (b +:+ String x q) = true).
    { rewrite has_char_app. cbn. by rewrite Ascii.eqb_refl, orb_true_r. }
    by rewrite Heq, Hin in Hp.
  - exfalso. injection Heq as -> Heq.
    assert (Hin : has_char x (a +:+ String x p) = true).
    { rewrite has_char_app. cbn. by rewrite Ascii.eqb_refl, orb_true_r. }
    by rewrite <- Heq, Hin in Hq.
  - injection Heq as -> Heq. apply IH in Heq as [-> ->]. done.
Qed.

(** ** Booleans *)

Definition FormatBool (b : bool) : string := if b then "true" else "false".

(** The value of [b, _ := strconv.ParseBool(s)]. *)
Definition ParseBool (s : string) : bool :=
  bool_decide (s ∈ ["1"; "t"; "T"; "TRUE"; "true"; "True"]).

Lemma ParseBool_FormatBool b : ParseBool (FormatBool b) = b.
Proof. by destruct b. Qed.

(** ** Doubles *)

(** The nearest integer to [n / d], the even one of two. *)
Definition round_even (n d : Z) : Z :=
  let q := n / d in let r := n mod d in
  if 2 * r <? d then q else if d <? 2 * r then q + 1 else if Z.even q then q else q + 1.

(** The double nearest to an integer: 53 significant bits. *)
Definition unit_of (a : Z) : Z := 2 ^ Z.max 0 (Z.log2 a - 52).
Definition to_double (z : Z) : Z :=
  let u := unit_of (Z.abs z) in Z.sgn z * (round_even (Z.abs z) u * u).

(** *** Lua's [tostring], ["%.14g"], of a number of integer value *)
Fixpoint strip_zeros (s : string) : string :=
  match s with
  | EmptyString => EmptyString
  | String c s =>
      match strip_zeros s with
      | EmptyString => if Ascii.eqb c "0" then EmptyString else String c EmptyString
      | r => String c r
      end
  end.

Definition mantissa (s : string) : string :=
  match s with
  | EmptyString => EmptyString
  | String c s => match strip_zeros s with
                  | EmptyString => String c EmptyString
                  | r => String c (String "." r)
                  end
  end.

Definition lua_tostring (n : Z) : string :=
  if Z.abs n <? 10 ^ 14 then itoa n
  else
    let e := Z.of_nat (String.length (itoa (Z.abs n))) - 1 in
    let m := round_even (Z.abs n) (10 ^ (e - 13)) in
    let '(m, e) := if m =? 10 ^ 14 then (10 ^ 13, e + 1) else (m, e) in
    (if n <? 0 then "-" else "") +:+ mantissa (itoa m) +:+ "e+" +:+ itoa e.

Example lua_tostring_time : lua_tostring (to_double 1700000000123456000) = "1.7000000001235e+18".
Proof. reflexivity. Qed.

(** Go's [ParseInt] refuses the exponent: the number reads back as zero. *)
Example lua_tostring_lost : ParseInt (lua_tostring (to_double 1700000000123456000)) = 0.
Proof. reflexivity. Qed.

(** *** Rounding *)

Lemma round_even_mul k d : 0 < d → round_even (k * d) d = k.
Proof.
  intros Hd. unfold round_even. rewrite Z_div_mult by lia. rewrite Z_mod_mult.
  by rewrite (proj2 (Z.ltb_lt (2 * 0) d)) by lia.
Qed.

Lemma round_even_near n d : 0 < d → 2 * Z.abs (round_even n d * d - n) ≤ d.
Proof.
  intros Hd. unfold round_even. pose proof (Z.div_mod n d ltac:(lia)) as Hn.
  pose proof (Z.mod_pos_bound n d Hd) as Hr. set (q := n / d) in *. set (r := n mod d) in *.
  destruct (Z.ltb_spec (2 * r) d); [nia|]. destruct (Z.ltb_spec d (2 * r)); [nia|].
  destruct (Z.even q); nia.
Qed.

Lemma round_even_mono n m d : 0 < d → n ≤ m → round_even n d ≤ round_even m d.
Proof.
  intros Hd Hnm. unfold round_even.
  pose proof (Z.div_mod n d ltac:(lia)) as Hn. pose proof (Z.mod_pos_bound n d Hd) as Hr.
  pose proof (Z.div_mod m d ltac:(lia)) as Hm. pose proof (Z.mod_pos_bound m d Hd) as Hs.
  pose proof (Z.div_le_mono n m d Hd Hnm) as Hq.
  set (q := n / d) in *. set (r := n mod d) in *. set (q' := m / d) in *. set (r' := m mod d) in *.
  destruct (Z.eq_dec q q') as [<-|Hne].
  - assert (r ≤ r') by nia.
    destruct (Z.ltb_spec (2 * r) d), (Z.ltb_spec d (2 * r)), (Z.ltb_spec (2 * r') d),
      (Z.ltb_spec d (2 * r')), (Z.even q); lia.
  - destruct (2 * r <? d), (d <? 2 * r), (2 * r' <? d), (d <? 2 * r'), (Z.even q), (Z.even q'); lia.
Qed.

Lemma unit_pos a : 0 < unit_of a.
Proof. apply Z.pow_pos_nonneg; lia. Qed.

(** The magnitude of a double. *)
Definition dbl (a : Z) : Z := round_even a (unit_of a) * unit_of a.

Lemma to_double_dbl z : to_double z = Z.sgn z * dbl (Z.abs z).
Proof. done. Qed.

Lemma dbl_near a : 2 * Z.abs (dbl a - a) ≤ unit_of a.
Proof. apply round_even_near, unit_pos. Qed.

Lemma dbl_small a : 0 ≤ a < 2 ^ 53 → dbl a = a.
Proof.
  intros Ha. unfold dbl, unit_of. replace (Z.max 0 (Z.log2 a - 52)) with 0.
  - change (2 ^ 0) with 1. rewrite <- (Z.mul_1_r a) at 1. rewrite round_even_mul; lia.
  - destruct (Z.eq_dec a 0) as [->|]; [done|].
    assert (Z.log2 a < 53) by (apply Z.log2_lt_pow2; lia). lia.
Qed.

(** Powers of two are doubles, so rounding does not cross them. *)
Lemma dbl_binade a : 2 ^ 53 ≤ a → 2 ^ Z.log2 a ≤ dbl a ≤ 2 ^ (Z.log2 a + 1).
Proof.
  intros Ha. assert (H0 : 0 < a) by lia. pose proof (Z.log2_spec a H0) as [Hlo Hhi].
  assert (Hl : 53 ≤ Z.log2 a) by (by apply Z.log2_le_pow2).
  unfold dbl, unit_of. rewrite Z.max_r by lia. set (e := Z.log2 a - 52).
  assert (Hu : 0 < 2 ^ e) by (apply Z.pow_pos_nonneg; lia).
  assert (H52 : 2 ^ Z.log2 a = 2 ^ 52 * 2 ^ e) by (rewrite <- Z.pow_add_r by lia; f_equal; lia).
  assert (H53 : 2 ^ (Z.log2 a + 1) = 2 ^ 53 * 2 ^ e) by (rewrite <- Z.pow_add_r by lia; f_equal; lia).
  rewrite <- Z.add_1_r in Hhi. rewrite H52, H53 in *. split; apply Z.mul_le_mono_nonneg_r; try lia.
  - rewrite <- (round_even_mul (2 ^ 52) (2 ^ e) Hu). apply round_even_mono; lia.
  - rewrite <- (round_even_mul (2 ^ 53) (2 ^ e) Hu). apply round_even_mono; lia.
Qed.

Lemma dbl_mono a b : 0 ≤ a → a ≤ b → dbl a ≤ dbl b.
Proof.
  intros Ha Hab. destruct (Z_lt_ge_dec b (2 ^ 53)); [rewrite !dbl_small; lia|].
  pose proof (dbl_binade b ltac:(lia)) as [Hb _].
  destruct (Z_lt_ge_dec a (2 ^ 53)).
  - rewrite dbl_small by lia. trans (2 ^ 53); [lia|]. etrans; [|exact Hb].
    apply Z.pow_le_mono_r; [lia|]. apply Z.log2_le_pow2; lia.
  - pose proof (Z.log2_le_mono a b Hab). destruct (Z.eq_dec (Z.log2 a) (Z.log2 b)) as [He|Hne].
    + unfold dbl, unit_of. rewrite He. set (u := 2 ^ _).
      assert (0 < u) by (apply Z.pow_pos_nonneg; lia).
      apply Z.mul_le_mono_nonneg_r; [lia|]. by apply round_even_mono.
    + pose proof (dbl_binade a ltac:(lia)) as [_ Ha']. etrans; [exact Ha'|]. etrans; [|exact Hb].
      apply Z.pow_le_mono_r; lia.
Qed.

Lemma dbl_nonneg a : 0 ≤ a → 0 ≤ dbl a.
Proof. intros Ha. change 0 with (dbl 0) at 1. by apply dbl_mono. Qed.

(** Rounding keeps the order. *)
Lemma to_double_mono a b : a ≤ b → to_double a ≤ to_double b.
Proof.
  intros Hab. rewrite !to_double_dbl.
  pose proof (dbl_nonneg (Z.abs a) ltac:(lia)). pose proof (dbl_nonneg (Z.abs b) ltac:(lia)).
  destruct (Z_lt_ge_dec a 0) as [Ha|Ha], (Z_lt_ge_dec b 0) as [Hb|Hb].
  - rewrite !Z.sgn_neg by lia. pose proof (dbl_mono (Z.abs b) (Z.abs a) ltac:(lia) ltac:(lia)). lia.
  - rewrite Z.sgn_neg by lia. pose proof (Z.sgn_nonneg b) as Hs. nia.
  - lia.
  - destruct (Z.eq_dec a 0) as [->|]; [pose proof (Z.sgn_nonneg b); simpl; nia|].
    rewrite !Z.sgn_pos by lia. pose proof (dbl_mono (Z.abs a) (Z.abs b) ltac:(lia) ltac:(lia)). lia.
Qed.

Lemma to_double_small z : Z.abs z < 2 ^ 53 → to_double z = z.
Proof. intros Hz. rewrite to_double_dbl, dbl_small by lia. lia. Qed.

(** On 64-bit integers the error is at most 512, and multiples of 1024 are
    exact. *)
Lemma unit_of_int64 z : in_int64 z → ∃ k, 0 ≤ k ≤ 11 ∧ unit_of (Z.abs z) = 2 ^ k ∧
  (k = 11 → Z.abs z = 2 ^ 63).
Proof.
  intros Hz. unfold unit_of. exists (Z.max 0 (Z.log2 (Z.abs z) - 52)).
  unfold in_int64, min_int64, max_int64 in Hz.
  assert (Hl : Z.log2 (Z.abs z) ≤ 63).
  { pose proof (Z.log2_le_mono (Z.abs z) (2 ^ 63) ltac:(lia)) as Hm. by rewrite Z.log2_pow2 in Hm. }
  split; [lia|]. split; [done|]. intros He. assert (He' : Z.log2 (Z.abs z) = 63) by lia.
  assert (0 < Z.abs z) as Hp by (destruct (Z.eq_dec z 0) as [->|]; [done|lia]).
  pose proof (Z.log2_spec _ Hp) as [Hs _]. rewrite He' in Hs. lia.
Qed.

Lemma to_double_near z : in_int64 z → Z.abs (to_double z - z) ≤ 512.
Proof.
  intros Hz. destruct (unit_of_int64 z Hz) as (k & Hk & Hu & H11).
  assert (Hd : Z.abs (dbl (Z.abs z) - Z.abs z) ≤ 512).
  { destruct (Z.eq_dec k 11) as [->|].
    - rewrite H11 by done. vm_compute. discriminate.
    - pose proof (dbl_near (Z.abs z)) as Hn. rewrite Hu in Hn.
      pose proof (Z.pow_le_mono_r 2 k 10 ltac:(lia) ltac:(lia)). lia. }
  rewrite to_double_dbl. destruct (Z.eq_dec z 0) as [->|]; [done|]. nia.
Qed.

Lemma to_double_exact z : in_int64 z → z mod 1024 = 0 → to_double z = z.
Proof.
  intros Hz Hm. destruct (unit_of_int64 z Hz) as (k & Hk & Hu & H11).
  assert (Hd : dbl (Z.abs z) = Z.abs z).
  { destruct (Z.eq_dec k 11) as [->|]; [by rewrite H11 by done|].
    assert (Hdiv : (2 ^ k | Z.abs z)).
    { apply Z.divide_abs_r. trans 1024; [|by apply Z.mod_divide].
      exists (2 ^ (10 - k)). rewrite <- Z.pow_add_r by lia. by replace (10 - k + k) with 10 by lia. }
    destruct Hdiv as [q Hq]. unfold dbl. rewrite Hu, Hq, round_even_mul; [done|].
    apply Z.pow_pos_nonneg; lia. }
  rewrite to_double_dbl, Hd. lia.
Qed.

(** Multiples of [2 ^ k] below [2 ^ (53 + k)] are exact. *)
Lemma to_double_multiple z k : 0 ≤ k → Z.abs z < 2 ^ (53 + k) → (2 ^ k | z) → to_double z = z.
Proof.
  intros Hk Hz [q Hq]. rewrite to_double_dbl. assert (Hd : dbl (Z.abs z) = Z.abs z); [|rewrite Hd; lia].
  unfold dbl, unit_of. destruct (Z.eq_dec z 0) as [->|Hne]; [done|].
  assert (Hl : Z.log2 (Z.abs z) < 53 + k) by (apply Z.log2_lt_pow2; lia).
  set (e := Z.max 0 (Z.log2 (Z.abs z) - 52)). assert (He : 0 ≤ e ≤ k) by lia.
  assert (Hu : 0 < 2 ^ e) by (apply Z.pow_pos_nonneg; lia).
  assert (Ha : Z.abs z = Z.abs q * 2 ^ (k - e) * 2 ^ e).
  { rewrite <- Z.mul_assoc, <- Z.pow_add_r by lia. replace (k - e + e) with k by lia.
    rewrite Hq, Z.abs_mul. f_equal. apply Z.abs_eq. apply Z.pow_nonneg. lia. }
  rewrite Ha. by rewrite round_even_mul.
Qed.
