(* ===== verification/RedisEngine.v ===== *)
(** Redis as the store uses it: the values kept under its keys, the commands
    the store and its Lua scripts call, pipelines, and a client's connection. *)

From S2P Require Import Prelude ListLib Text.
Local Open Scope Z_scope.

(** ** Values *)

(** A string may have an instant, in microseconds of the server's clock, at
    which it expires. The members of a sorted set carry a score. *)
Inductive value : Type :=
  | VStr (s : string) (deadline : option Z)
  | VHash (h : gmap string string)
  | VZSet (z : gmap string Z)
  | VSet (l : gset string).

Abbreviation Db := (gmap string value).

(** What a key holds at the instant [t]. *)
Definition live (t : Z) (v : value) : bool :=
  match v with VStr _ (Some deadline) => t <? deadline | _ => true end.
Definition get_key (t : Z) (k : string) (d : Db) : option value :=
  match d !! k with Some v => if live t v then Some v else None | None => None end.

(** ** Commands

    A command runs at an instant of the server and returns its reply or an
    error. A script is a sequence of commands that no other client interrupts:
    an error ends it, and what it has written stays. *)
Definition Cmd (A : Type) : Type := Z → Db → (string + A) * Db.

Definition cret {A} (a : A) : Cmd A := λ _ d, (inr a, d).
Definition cfail {A} (msg : string) : Cmd A := λ _ d, (inl msg, d).
Definition cbind {A B} (m : Cmd A) (k : A → Cmd B) : Cmd B := λ t d,
  match m t d with (inl msg, d) => (inl msg, d) | (inr a, d) => k a t d end.

Declare Scope redis_scope.
Notation "'let%' x := m 'in' k" := (cbind m (λ x, k))
  (at level 10, x binder, m at level 100, k at level 200) : redis_scope.
Notation "'do%' m 'in' k" := (cbind m (λ _, k))
  (at level 10, m at level 100, k at level 200) : redis_scope.
Local Open Scope redis_scope.

Definition wrongtype : string := "WRONGTYPE Operation against a key holding the wrong kind of value".

(** The value of a key of one kind; a missing key is an empty one. *)
Definition as_hash (k : string) : Cmd (gmap string string) := λ t d,
  match get_key t k d with
  | None => (inr ∅, d)
  | Some (VHash h) => (inr h, d)
  | Some _ => (inl wrongtype, d)
  end.
Definition as_zset (k : string) : Cmd (gmap string Z) := λ t d,
  match get_key t k d with
  | None => (inr ∅, d)
  | Some (VZSet z) => (inr z, d)
  | Some _ => (inl wrongtype, d)
  end.
Definition as_set (k : string) : Cmd (gset string) := λ t d,
  match get_key t k d with
  | None => (inr ∅, d)
  | Some (VSet l) => (inr l, d)
  | Some _ => (inl wrongtype, d)
  end.

(** Collections that become empty are removed with their key: no value. *)
Definition zset_value (z : gmap string Z) : option value :=
  if decide (z = ∅) then None else Some (VZSet z).
Definition set_value (l : gset string) : option value :=
  if decide (l = ∅) then None else Some (VSet l).
Definition put (k : string) (v : option value) : Cmd unit := λ _ d,
  (inr tt, partial_alter (λ _, v) k d).

Definition DEL (k : string) : Cmd unit := put k None.
Definition EXISTS (k : string) : Cmd bool := λ t d,
  (inr (match get_key t k d with Some _ => true | None => false end), d).
Definition GET (k : string) : Cmd (option string) := λ t d,
  match get_key t k d with
  | None => (inr None, d)
  | Some (VStr s _) => (inr (Some s), d)
  | Some _ => (inl wrongtype, d)
  end.
(** [SET k s EX ttl]: the new value replaces any other, of whatever kind. *)
Definition SET_EX (k s : string) (ttl : Z) : Cmd unit := λ t d,
  put k (Some (VStr s (Some (t + ttl * 10 ^ 6)))) t d.

(** [HSET] with one field and value at least. *)
Definition HSET (k : string) (fields : gmap string string) : Cmd unit :=
  let% h := as_hash k in put k (Some (VHash (fields ∪ h))).
Definition HGETALL (k : string) : Cmd (gmap string string) := as_hash k.
Definition HGET (k f : string) : Cmd (option string) :=
  let% h := as_hash k in cret (h !! f).
Definition HMGET (k : string) (fs : list string) : Cmd (list (option string)) :=
  let% h := as_hash k in cret ((λ f, h !! f) <$> fs).

Definition ZADD (k : string) (score : Z) (m : string) : Cmd unit :=
  let% z := as_zset k in put k (zset_value (<[m := score]> z)).
Definition ZREM (k m : string) : Cmd unit :=
  let% z := as_zset k in put k (zset_value (delete m z)).
Definition ZCARD (k : string) : Cmd Z :=
  let% z := as_zset k in cret (Z.of_nat (size z)).

(** The order of a sorted set: by score, then by the bytes of the member. *)
Definition zless (a b : string * Z) : bool :=
  if a.2 =? b.2 then negb (String.leb b.1 a.1) else a.2 <? b.2.

(** [ZRANGEBYSCORE k lo hi LIMIT 0 count]: no [lo] is [-inf]; a negative
    [count], or none, is no limit. *)
Definition in_range (lo : option Z) (hi : Z) (x : string * Z) : bool :=
  (match lo with Some lo => lo <=? x.2 | None => true end) && (x.2 <=? hi).
Definition ZRANGEBYSCORE (k : string) (lo : option Z) (hi : Z) (count : option Z)
    : Cmd (list string) :=
  let% z := as_zset k in
  let r := (stable_sort zless (filter (λ x, in_range lo hi x = true) (map_to_list z))).*1 in
  cret (match count with
        | Some n => if n <? 0 then r else take (Z.to_nat n) r
        | None => r
        end).

Definition SADD (k m : string) : Cmd unit :=
  let% l := as_set k in put k (set_value ({[m]} ∪ l)).
Definition SREM (k m : string) : Cmd unit :=
  let% l := as_set k in put k (set_value (l ∖ {[m]})).
Definition SMEMBERS (k : string) : Cmd (gset string) := as_set k.

(** [TIME]: seconds, and the microseconds within. It stands still in a script. *)
Definition TIME : Cmd (Z * Z) := λ t d, (inr (t / 10 ^ 6, t mod 10 ^ 6), d).

(** Scores given as text: the scripts pass integers in decimal only. *)
Definition float_arg (s : string) : Cmd Z :=
  match parse_int s with
  | Some n => cret (to_double n)
  | None => cfail "ERR value is not a valid float"
  end.

(** A pipeline, or the commands between [MULTI] and [EXEC]: all of them run;
    the first error is the result. *)
Fixpoint pipe {A} (cs : list (Cmd A)) : Cmd (list A) :=
  match cs with
  | [] => cret []
  | c :: cs => λ t d,
      let '(r, d1) := c t d in
      let '(rs, d2) := pipe cs t d1 in
      (match r, rs with
       | inl msg, _ => inl msg
       | inr _, inl msg => inl msg
       | inr a, inr l => inr (a :: l)
       end, d2)
  end.

(** ** A client

    [faults] says which round trips fail, by their number, and with what
    message; such a request is taken not to have reached the server. [clock] is
    the process's clock and [server_time] the server's at each round trip.
    [order] is the order in which a set is listed. One round trip runs at
    a time; pipelines are one. *)
Record Server : Type := mkServer {
  db : Db;
  faults : nat → option string;
  calls : nat;
  clock : nat → Z;
  reads : nat;
  server_time : nat → Z;
  order : gset string → list string
}.

Definition set_db (d : Db) (s : Server) : Server :=
  mkServer d (faults s) (calls s) (clock s) (reads s) (server_time s) (order s).
Definition called (s : Server) : Server :=
  mkServer (db s) (faults s) (S (calls s)) (clock s) (reads s) (server_time s) (order s).

Definition with_faults (F : nat → option string) (s : Server) : Server :=
  mkServer (db s) F (calls s) (clock s) (reads s) (server_time s) (order s).

(** The server as a method finds it whose context has ended with the error [msg]:
    the client sends nothing. And after the method, with its own faults. *)
Definition ended_server (msg : string) (s : Server) : Server := with_faults (λ _, Some msg) s.
Definition left_server (s s' : Server) : Server := with_faults (faults s) s'.

Definition time_Now : GoM Server Z := λ s,
  Some (clock s (reads s),
        mkServer (db s) (faults s) (calls s) (clock s) (S (reads s)) (server_time s) (order s)).

Definition call {A} (c : Cmd A) : GoM Server (string + A) := λ s,
  match faults s (calls s) with
  | Some msg => Some (inl msg, called s)
  | None => let '(r, d) := c (server_time s (calls s)) (db s) in Some (r, set_db d (called s))
  end.

(** ** Facts *)

#[export] Instance zless_strict_weak : StrictWeak zless.
Proof.
  assert (Htr : ∀ x y z, String.leb x y = true → String.leb y z = true → String.leb x z = true).
  { intros x y z Hxy Hyz. apply Is_true_true. change (String.le x z).
    etrans; apply Is_true_true; eassumption. }
  split.
  - intros [a x] [b y]. unfold zless. cbn. destruct (Z.eqb_spec x y) as [->|Hne].
    + rewrite Z.eqb_refl. intros Hba%negb_true_iff. apply negb_false_iff.
      by destruct (String.leb_total a b) as [|Hab]; [|rewrite Hab in Hba].
    + rewrite (proj2 (Z.eqb_neq y x)) by done. lia.
  - intros [a x] [b y] [c z]. unfold zless. cbn.
    destruct (Z.eqb_spec y x), (Z.eqb_spec z y), (Z.eqb_spec z x);
      rewrite ?negb_false_iff, ?Z.ltb_ge; try lia; eauto.
Qed.
