(* ===== verification/Redis.v ===== *)
(** The Redis store ([src/store/redis/store.go], [scripts.go], [keys.go]):
    its keys, the text it stores, its Lua scripts command by command, and every
    method as the round trips it makes. *)

From S2P Require Import Prelude ListLib Types StoreApi Text RedisEngine.
From Stdlib Require Import Ascii.
Local Open Scope Z_scope.
Local Open Scope go_scope.
Local Open Scope redis_scope.

Definition Store : Type := Server.

Definition errf (what msg : string) : error := ErrOther (what +:+ msg).

(** ** Keys ([keys.go]) *)

Definition keyPrefix : string := "{goschedule}:".
Definition jobKey (id : string) : string := keyPrefix +:+ "job:" +:+ id.
Definition pendingKey (queue : string) (p : Z) : string :=
  keyPrefix +:+ "pending:" +:+ queue +:+ ":p" +:+ itoa p.
Definition claimedKey : string := keyPrefix +:+ "claimed".
Definition recurringKey (id : string) : string := keyPrefix +:+ "recurring:" +:+ id.
Definition recurringAllKey : string := keyPrefix +:+ "recurring:all".
Definition leaseKey (id : string) : string := keyPrefix +:+ "lease:" +:+ id.
Definition workersKey : string := keyPrefix +:+ "workers".

(** ** Text *)

Definition formatTime (t : Z) : string := if Time.IsZero t then "0" else itoa (Time.UnixNano t).
Definition parseTime (s : string) : Z :=
  let n := ParseInt s in if n =? 0 then Time.zero else Time.Unix0 n.

(** The conversions [string(payload)] and [[]byte(s)]. *)
Definition string_of_bytes (p : list Byte.byte) : string := Stdlib.Strings.String.string_of_list_byte p.
Definition bytes_of_string (s : string) : list Byte.byte := Stdlib.Strings.String.list_byte_of_string s.

Definition serializeJob (j : Job.t) : gmap string string :=
  list_to_map
    [("id", Job.ID j); ("queue", Job.Queue j); ("name", Job.Name j);
     ("payload", string_of_bytes (Job.Payload j)); ("codec_name", Job.CodecName j);
     ("priority", itoa (Job.Priority j)); ("run_at", formatTime (Job.RunAt j));
     ("attempt", itoa (Job.Attempt j)); ("max_attempts", itoa (Job.MaxAttempts j));
     ("state", itoa (Job.State j)); ("timeout_ns", itoa (Job.Timeout j));
     ("locked_by", Job.LockedBy j); ("locked_until", formatTime (Job.LockedUntil j));
     ("last_error", Job.LastError j); ("recurring_id", Job.RecurringID j);
     ("created_at", formatTime (Job.CreatedAt j)); ("updated_at", formatTime (Job.UpdatedAt j))].

(** A missing field reads as the empty string. *)
Definition field (m : gmap string string) (f : string) : string := default "" (m !! f).

Definition deserializeJob (m : gmap string string) : Job.t :=
  {| Job.ID := field m "id"; Job.Name := field m "name"; Job.Queue := field m "queue";
     Job.Priority := wrap8 (ParseInt (field m "priority"));
     Job.Payload := bytes_of_string (field m "payload"); Job.CodecName := field m "codec_name";
     Job.RunAt := parseTime (field m "run_at"); Job.Attempt := ParseInt (field m "attempt");
     Job.MaxAttempts := ParseInt (field m "max_attempts");
     Job.State := wrap8 (ParseInt (field m "state")); Job.Delivery := 0;
     Job.Timeout := ParseInt (field m "timeout_ns"); Job.LockedBy := field m "locked_by";
     Job.LockedUntil := parseTime (field m "locked_until"); Job.LastError := field m "last_error";
     Job.RecurringID := field m "recurring_id"; Job.CreatedAt := parseTime (field m "created_at");
     Job.UpdatedAt := parseTime (field m "updated_at"); Job.catchup := false |}.

Definition serializeRecurring (r : RecurringSpec.t) : gmap string string :=
  list_to_map
    [("id", RecurringSpec.ID r); ("name", RecurringSpec.Name r); ("queue", RecurringSpec.Queue r);
     ("payload", string_of_bytes (RecurringSpec.Payload r));
     ("codec_name", RecurringSpec.CodecName r); ("priority", itoa (RecurringSpec.Priority r));
     ("timeout_ns", itoa (RecurringSpec.Timeout r));
     ("max_attempts", itoa (RecurringSpec.MaxAttempts r)); ("cron", RecurringSpec.Cron r);
     ("every_ns", itoa (RecurringSpec.Every r)); ("catchup", FormatBool (RecurringSpec.Catchup r));
     ("next_run_at", formatTime (RecurringSpec.NextRunAt r));
     ("last_fire_at", formatTime (RecurringSpec.LastFireAt r))].

Definition deserializeRecurring (m : gmap string string) : RecurringSpec.t :=
  {| RecurringSpec.ID := field m "id"; RecurringSpec.Name := field m "name";
     RecurringSpec.Queue := field m "queue";
     RecurringSpec.Priority := wrap8 (ParseInt (field m "priority"));
     RecurringSpec.Payload := bytes_of_string (field m "payload");
     RecurringSpec.CodecName := field m "codec_name"; RecurringSpec.Delivery := 0;
     RecurringSpec.Timeout := ParseInt (field m "timeout_ns");
     RecurringSpec.MaxAttempts := ParseInt (field m "max_attempts");
     RecurringSpec.Cron := field m "cron"; RecurringSpec.Every := ParseInt (field m "every_ns");
     RecurringSpec.Catchup := ParseBool (field m "catchup"); RecurringSpec.LeaseUntil := Time.zero;
     RecurringSpec.LeasedBy := ""; RecurringSpec.NextRunAt := parseTime (field m "next_run_at");
     RecurringSpec.LastFireAt := parseTime (field m "last_fire_at") |}.

(** ** Scripts ([scripts.go])

    [KEYS] and [ARGV] are the arguments, under the names the scripts give them. *)

(** [tonumber(x) or 0]; the fields it is used on hold decimal integers. *)
Definition lua_number (x : option string) : Z :=
  match x with
  | Some s => match parse_int s with Some n => to_double n | None => 0 end
  | None => 0
  end.

(** The fields of an [HSET] with several pairs. *)
Definition pairs (l : list (string * string)) : gmap string string := list_to_map l.

(** The inner loop of [claimDueScript]. *)
Fixpoint claim_ids (zset claimed_key now worker lock_until job_prefix state_claimed : string)
    (ids : list string) : Cmd unit :=
  match ids with
  | [] => cret tt
  | id :: ids =>
      do% ZREM zset id in
      let% score := float_arg lock_until in
      do% ZADD claimed_key score id in
      do% HSET (job_prefix +:+ id)
            (pairs [("state", state_claimed); ("locked_by", worker); ("locked_until", lock_until);
                    ("updated_at", now)]) in
      claim_ids zset claimed_key now worker lock_until job_prefix state_claimed ids
  end.

(** Its loop over the buckets; [remaining] stays far below the integers
    a double cannot hold. *)
Fixpoint claim_buckets (claimed_key now worker lock_until job_prefix state_claimed : string)
    (buckets : list string) (remaining : Z) : Cmd (list string) :=
  match buckets with
  | [] => cret []
  | zset :: buckets =>
      if remaining <=? 0 then cret []
      else
        let% max := float_arg now in
        let% ids := ZRANGEBYSCORE zset None max (Some remaining) in
        do% claim_ids zset claimed_key now worker lock_until job_prefix state_claimed ids in
        let% more := claim_buckets claimed_key now worker lock_until job_prefix state_claimed buckets
                       (remaining - Z.of_nat (length ids)) in
        cret (ids ++ more)
  end.

Definition claimDueScript (buckets : list string) (claimed_key now : string) (n : Z)
    (worker lock_until job_prefix state_claimed : string) : Cmd (list string) :=
  claim_buckets claimed_key now worker lock_until job_prefix state_claimed buckets n.

Definition ackScript (job claimed id state_claimed : string) : Cmd string :=
  let% state := HGET job "state" in
  if negb (bool_decide (state = Some state_claimed)) then cret "missing"
  else
    do% ZREM claimed id in
    do% DEL job in
    cret "ok".

Definition failScript (job claimed pending id err_msg next_at now state_pending state_claimed : string)
    : Cmd string :=
  let% state := HGET job "state" in
  if negb (bool_decide (state = Some state_claimed)) then cret "missing"
  else
    let% a := HGET job "attempt" in
    let% m := HGET job "max_attempts" in
    let maxa := lua_number m in
    let attempt := to_double (lua_number a + 1) in
    do% ZREM claimed id in
    if (0 <? maxa) && (maxa <=? attempt) then
      do% DEL job in
      cret "ok"
    else
      do% HSET job (pairs [("attempt", lua_tostring attempt); ("last_error", err_msg);
                           ("state", state_pending); ("run_at", next_at); ("locked_by", "");
                           ("locked_until", "0"); ("updated_at", now)]) in
      let% score := float_arg next_at in
      do% ZADD pending score id in
      cret "ok".

Definition cancelScript (job pending id state_pending : string) : Cmd string :=
  let% there := EXISTS job in
  if negb there then cret "missing"
  else
    let% state := HGET job "state" in
    if negb (bool_decide (state = Some state_pending)) then cret "not_pending"
    else
      do% ZREM pending id in
      do% DEL job in
      cret "ok".

Definition rescheduleScript (job pending id new_run now state_pending : string) : Cmd string :=
  let% there := EXISTS job in
  if negb there then cret "missing"
  else
    let% state := HGET job "state" in
    if negb (bool_decide (state = Some state_pending)) then cret "not_pending"
    else
      do% HSET job (pairs [("run_at", new_run); ("updated_at", now)]) in
      let% score := float_arg new_run in
      do% ZADD pending score id in
      cret "ok".

(** The server's clock in nanoseconds, in doubles. *)
Definition lua_nanos (t : Z * Z) : Z :=
  to_double (to_double (to_double t.1 * 10 ^ 9) + to_double (to_double t.2 * 1000)).

(** The loop of [recoverStaleScript]. *)
Fixpoint recover_ids (claimed job_prefix pending_prefix state_pending : string) (now_nanos : Z)
    (ids : list string) (n : Z) : Cmd Z :=
  match ids with
  | [] => cret n
  | id :: ids =>
      let job := job_prefix +:+ id in
      let% queue := HGET job "queue" in
      let% priority := HGET job "priority" in
      let% run_at := HGET job "run_at" in
      do% ZREM claimed id in
      match queue, priority, run_at with
      | Some queue, Some priority, Some run_at =>
          let pending_key := pending_prefix +:+ queue +:+ ":p" +:+ priority in
          do% HSET job (pairs [("state", state_pending); ("locked_by", ""); ("locked_until", "0");
                               ("updated_at", lua_tostring now_nanos)]) in
          let% score := float_arg run_at in
          do% ZADD pending_key score id in
          recover_ids claimed job_prefix pending_prefix state_pending now_nanos ids (n + 1)
      | _, _, _ => recover_ids claimed job_prefix pending_prefix state_pending now_nanos ids n
      end
  end.

Definition recoverStaleScript (claimed job_prefix pending_prefix state_pending : string) : Cmd Z :=
  let% t := TIME in
  let now_nanos := lua_nanos t in
  let% ids := ZRANGEBYSCORE claimed (Some 1) now_nanos None in
  recover_ids claimed job_prefix pending_prefix state_pending now_nanos ids 0.

Definition acquireLeaseScript (lease worker : string) (ttl : Z) : Cmd Z :=
  let% current := GET lease in
  if bool_decide (current = None) || bool_decide (current = Some worker) then
    do% SET_EX lease worker ttl in
    cret 1
  else cret 0.

(** ** Jobs ([store.go]) *)

(** The score of a pending job. *)
Definition run_score (runAt : Z) : Z :=
  if negb (Time.IsZero runAt) then to_double (Time.UnixNano runAt) else 0.

Definition Save (j : Job.t) : GoM Store (option error) :=
  let state := if Job.State j =? 0 then StatePending else Job.State j in
  let j := if Job.MaxAttempts j =? 0 then Job.set_MaxAttempts 3 j else j in
  let j := Job.set_State state j in
  let score := run_score (Job.RunAt j) in
  try! _ := call (pipe (HSET (jobKey (Job.ID j)) (serializeJob j) ::
              (if state =? StatePending
               then [ZADD (pendingKey (Job.Queue j) (Job.Priority j)) score (Job.ID j)] else [])))
    else (λ m, Some (errf "redis save: " m)) in
  gret None.

Definition asInt (s : string) : Z := ParseInt s.

Definition priorityBuckets (queue : string) : list string :=
  [pendingKey queue PriorityCritical; pendingKey queue PriorityHigh; pendingKey queue PriorityNormal;
   pendingKey queue PriorityLow].

(** [ClaimDue], once its script has returned [ids]: reads the jobs claimed. *)
Definition ClaimDue_fetch (ids : list string) : GoM Store (list Job.t * option error) :=
  match ids with
  | [] => gret ([], None)
  | _ =>
      try! gets := call (pipe ((λ id, HGETALL (jobKey id)) <$> ids))
        else (λ m, ([], Some (errf "redis claim hgetall: " m))) in
      gret (deserializeJob <$> gets, None)
  end.

Definition claim_command (queue : string) (now n : Z) (workerID : string) (lockUntil : Z)
    : Cmd (list string) :=
  claimDueScript (priorityBuckets queue) claimedKey (formatTime now) n workerID
    (formatTime lockUntil) (keyPrefix +:+ "job:") (itoa StateClaimed).

Definition ClaimDue (queue : string) (now n : Z) (workerID : string) (lockUntil : Z)
    : GoM Store (list Job.t * option error) :=
  try! ids := call (claim_command queue now n workerID lockUntil)
    else (λ m, ([], Some (errf "redis claim: " m))) in
  ClaimDue_fetch ids.

Definition Ack (id : string) : GoM Store (option error) :=
  try! res := call (ackScript (jobKey id) claimedKey id (itoa StateClaimed))
    else (λ m, Some (errf "redis ack: " m)) in
  gret (if String.eqb res "ok" then None else Some ErrJobNotFound).

(** The lookup [Fail], [Cancel] and [Reschedule] start with: the bucket of the
    job, if it has a queue. *)
Definition bucket_of (fields : list (option string)) : option string :=
  match fields with
  | Some queue :: rest =>
      let priorityStr := match rest with Some p :: _ => p | _ => "" end in
      Some (pendingKey queue (wrap8 (asInt priorityStr)))
  | _ => None
  end.

Definition lookup_bucket (id : string) : Cmd (list (option string)) :=
  HMGET (jobKey id) ["queue"; "priority"].

Definition Fail (id errMsg : string) (nextAttemptAt : Z) : GoM Store (option error) :=
  try! fields := call (lookup_bucket id) else (λ m, Some (errf "redis fail lookup: " m)) in
  match bucket_of fields with
  | None => gret (Some ErrJobNotFound)
  | Some pending =>
      let! now := time_Now in
      try! res := call (failScript (jobKey id) claimedKey pending id errMsg
                          (formatTime nextAttemptAt) (formatTime now) (itoa StatePending)
                          (itoa StateClaimed))
        else (λ m, Some (errf "redis fail: " m)) in
      gret (if String.eqb res "ok" then None else Some ErrJobNotFound)
  end.

(** The results of the two scripts that tell a missing job from one that is not
    pending. *)
Definition script_error (what res : string) : option error :=
  if String.eqb res "ok" then None
  else if String.eqb res "missing" then Some ErrJobNotFound
  else if String.eqb res "not_pending" then Some ErrJobNotPending
  else Some (errf what res).

Definition Cancel (id : string) : GoM Store (option error) :=
  try! fields := call (lookup_bucket id) else (λ m, Some (errf "redis cancel lookup: " m)) in
  match bucket_of fields with
  | None => gret (Some ErrJobNotFound)
  | Some pending =>
      try! res := call (cancelScript (jobKey id) pending id (itoa StatePending))
        else (λ m, Some (errf "redis cancel: " m)) in
      gret (script_error "redis cancel: unexpected script result " res)
  end.

Definition Heartbeat (workerID : string) (now : Z) : GoM Store (option error) :=
  try! _ := call (HSET workersKey (pairs [(workerID, formatTime now)]))
    else (λ m, Some (errf "redis heartbeat: " m)) in
  gret None.

(** The caller's clock is not used. *)
Definition RecoverStale (_ : Z) : GoM Store (Z * option error) :=
  try! n := call (recoverStaleScript claimedKey (keyPrefix +:+ "job:") (keyPrefix +:+ "pending:")
                    (itoa StatePending))
    else (λ m, (0, Some (errf "redis recover stale: " m))) in
  gret (n, None).

Definition QueueSize (queue : string) : GoM Store (Z * option error) :=
  try! cmds := call (pipe ((λ p, ZCARD (pendingKey queue p)) <$>
                             [PriorityLow; PriorityNormal; PriorityHigh; PriorityCritical]))
    else (λ m, (0, Some (errf "redis queue size: " m))) in
  gret (foldl Z.add 0 cmds, None).

Definition Reschedule (id : string) (newTime : Z) : GoM Store (option error) :=
  try! fields := call (lookup_bucket id) else (λ m, Some (errf "redis reschedule lookup: " m)) in
  match bucket_of fields with
  | None => gret (Some ErrJobNotFound)
  | Some pending =>
      let! now := time_Now in
      try! res := call (rescheduleScript (jobKey id) pending id (formatTime newTime) (formatTime now)
                          (itoa StatePending))
        else (λ m, Some (errf "redis reschedule: " m)) in
      gret (script_error "redis reschedule: unexpected script result " res)
  end.

(** ** Recurring schedules *)

Definition UpsertRecurring (r : RecurringSpec.t) : GoM Store (option error) :=
  try! _ := call (pipe [HSET (recurringKey (RecurringSpec.ID r)) (serializeRecurring r);
                        SADD recurringAllKey (RecurringSpec.ID r)])
    else (λ m, Some (errf "redis upsert recurring: " m)) in
  gret None.

(** Identifiers without a hash are skipped. *)
Definition ListRecurring : GoM Store (list RecurringSpec.t * option error) :=
  try! members := call (SMEMBERS recurringAllKey)
    else (λ m, ([], Some (errf "redis list recurring: " m))) in
  let! s := gget in
  let ids := order s members in
  match ids with
  | [] => gret ([], None)
  | _ =>
      try! gets := call (pipe ((λ id, HGETALL (recurringKey id)) <$> ids))
        else (λ m, ([], Some (errf "redis list recurring hgetall: " m))) in
      gret (deserializeRecurring <$> filter (λ m, m ≠ ∅) gets, None)
  end.

Definition DeleteRecurring (id : string) : GoM Store (option error) :=
  try! _ := call (pipe [DEL (recurringKey id); SREM recurringAllKey id])
    else (λ m, Some (errf "redis delete recurring: " m)) in
  gret None.

Definition UpdateRecurringNextRun (id : string) (nextRunAt lastFireAt : Z)
    : GoM Store (option error) :=
  try! _ := call (HSET (recurringKey id) (pairs [("next_run_at", formatTime nextRunAt);
                                                 ("last_fire_at", formatTime lastFireAt)]))
    else (λ m, Some (errf "redis update recurring next: " m)) in
  gret None.

(** The lease is a key that the server expires; its time to live is counted in
    whole seconds from the caller's clock. *)
Definition AcquireRecurringLease (specID : string) (leaseUntil : Z) (workerID : string)
    : GoM Store (bool * option error) :=
  let! now := time_Now in
  let ttl := Time.Sub leaseUntil now in
  if ttl <=? 0 then gret (false, None)
  else
    let ttlSec := Z.quot ttl Second in
    let ttlSec := if ttlSec <? 1 then 1 else ttlSec in
    try! n := call (acquireLeaseScript (leaseKey specID) workerID ttlSec)
      else (λ m, (false, Some (errf "redis acquire lease: " m))) in
    gret (n =? 1, None).

#[export] Instance redis_ops : StoreOps Store := {
  st_ended := ended_server; st_left := left_server;
  st_Save := Save; st_ClaimDue := ClaimDue; st_Ack := Ack; st_Fail := Fail;
  st_Cancel := Cancel; st_Reschedule := Reschedule; st_Heartbeat := Heartbeat;
  st_RecoverStale := RecoverStale; st_UpsertRecurring := UpsertRecurring;
  st_ListRecurring := ListRecurring; st_DeleteRecurring := DeleteRecurring;
  st_AcquireRecurringLease := AcquireRecurringLease;
  st_UpdateRecurringNextRun := UpdateRecurringNextRun; st_QueueSize := QueueSize
}.
