(* ===== verification/RedisFacts.v ===== *)
(** The database of the Redis store: its keys, what its values stand for, and
    the invariant that ties the sorted sets to the job hashes; each method run
    on a database that satisfies it. *)

From S2P Require Import Prelude ListLib Types StoreApi Text RedisEngine Redis.
From Stdlib Require Import Ascii.
Local Open Scope Z_scope.
Local Open Scope redis_scope.

(** ** Keys *)

(** The character after the prefix tells the kinds of keys apart. *)
Ltac key_ne :=
  let H := fresh "H" in
  intros H; apply (f_equal (String.get 13)) in H; discriminate H.

Lemma jobKey_inj a b : jobKey a = jobKey b → a = b.
Proof. intros H. by injection H. Qed.
Lemma recurringKey_inj a b : recurringKey a = recurringKey b → a = b.
Proof. intros H. by injection H. Qed.
Lemma leaseKey_inj a b : leaseKey a = leaseKey b → a = b.
Proof. intros H. by injection H. Qed.
Lemma recurringKey_all id : recurringKey id = recurringAllKey → id = "all".
Proof. intros H. by injection H. Qed.

Lemma pendingKey_inj q p q' p' : pendingKey q p = pendingKey q' p' → q = q' ∧ p = p'.
Proof.
  intros H. assert (Hb : q +:+ String ":" ("p" +:+ itoa p) = q' +:+ String ":" ("p" +:+ itoa p'))
    by (by injection H).
  apply app_sep_inj in Hb as [-> Hp]; [|exact (itoa_no_colon p)|exact (itoa_no_colon p')].
  split; [done|]. apply itoa_inj. by injection Hp.
Qed.

Lemma job_pending id q p : jobKey id ≠ pendingKey q p. Proof. key_ne. Qed.
Lemma job_claimed id : jobKey id ≠ claimedKey. Proof. key_ne. Qed.
Lemma pending_claimed q p : pendingKey q p ≠ claimedKey. Proof. key_ne. Qed.

(** ** Times and scores *)

(** The number a time is stored as. *)
Definition time_num (t : Z) : Z := if Time.IsZero t then 0 else Time.UnixNano t.
Definition score (t : Z) : Z := to_double (time_num t).

(** The times that are read back as they were written. *)
Definition time_ok (t : Z) : Prop := t = Time.zero ∨ in_int64 t ∧ t ≠ 0.

Lemma formatTime_num t : formatTime t = itoa (time_num t).
Proof. unfold formatTime, time_num. by destruct (Time.IsZero t). Qed.

Lemma run_score_score t : run_score t = score t.
Proof. unfold run_score, score, time_num. by destruct (Time.IsZero t). Qed.

Lemma float_arg_time t : float_arg (formatTime t) = cret (score t).
Proof. unfold float_arg. by rewrite formatTime_num, parse_int_itoa. Qed.

Lemma time_zero_range t : in_int64 t → Time.IsZero t = false.
Proof. intros Ht. unfold Time.IsZero, Time.zero. int64_lia. Qed.

Lemma parseTime_format t : time_ok t → parseTime (formatTime t) = t.
Proof.
  intros [->|[Hr Hne]]; [done|]. unfold parseTime, formatTime, Time.UnixNano.
  rewrite time_zero_range, wrap64_id, ParseInt_itoa by done.
  by rewrite (proj2 (Z.eqb_neq t 0)).
Qed.

Lemma time_num_range t : in_int64 (time_num t).
Proof.
  unfold time_num, Time.UnixNano. destruct (Time.IsZero t); [int64_lia|]. apply wrap64_range.
Qed.

(** ** Hashes *)

(** The hash of a job; recovery leaves in [updated_at] a text of its own. *)
Definition job_hash (j : Job.t) (upd : string) : gmap string string :=
  <["updated_at" := upd]> (serializeJob j).

Lemma job_hash_self j : serializeJob j = job_hash j (formatTime (Job.UpdatedAt j)).
Proof. reflexivity. Qed.

Lemma save_hash j j' upd : serializeJob j ∪ job_hash j' upd = serializeJob j.
Proof. reflexivity. Qed.

Lemma claim_hash j upd w u now :
  pairs [("state", itoa StateClaimed); ("locked_by", w); ("locked_until", formatTime u);
         ("updated_at", formatTime now)] ∪ job_hash j upd =
  job_hash (Spec.claim_job w u j) (formatTime now).
Proof. reflexivity. Qed.

Lemma release_hash j upd upd' :
  pairs [("state", itoa StatePending); ("locked_by", ""); ("locked_until", "0"); ("updated_at", upd')]
    ∪ job_hash j upd = job_hash (Spec.release_job j) upd'.
Proof. reflexivity. Qed.

Lemma reschedule_hash j upd t now :
  pairs [("run_at", formatTime t); ("updated_at", formatTime now)] ∪ job_hash j upd =
  job_hash (Job.set_RunAt t j) (formatTime now).
Proof. reflexivity. Qed.

Lemma retry_hash j upd msg t now :
  pairs [("attempt", itoa (wrap64 (Job.Attempt j + 1))); ("last_error", msg);
         ("state", itoa StatePending); ("run_at", formatTime t); ("locked_by", "");
         ("locked_until", "0"); ("updated_at", formatTime now)] ∪ job_hash j upd =
  job_hash (Spec.retry_job msg t j) (formatTime now).
Proof. reflexivity. Qed.

Lemma job_hash_fields j upd :
  job_hash j upd !! "state" = Some (itoa (Job.State j)) ∧
  job_hash j upd !! "queue" = Some (Job.Queue j) ∧
  job_hash j upd !! "priority" = Some (itoa (Job.Priority j)) ∧
  job_hash j upd !! "run_at" = Some (formatTime (Job.RunAt j)) ∧
  job_hash j upd !! "attempt" = Some (itoa (Job.Attempt j)) ∧
  job_hash j upd !! "max_attempts" = Some (itoa (Job.MaxAttempts j)).
Proof. repeat split. Qed.

(** What the store can hold: Go's ranges, times it reads back, and an attempt
    that Lua prints in full. *)
Record job_fits (j : Job.t) : Prop := {
  fit_priority : 0 ≤ Job.Priority j < 256;
  fit_state : 0 ≤ Job.State j < 256;
  fit_attempt : Z.abs (Job.Attempt j) < 10 ^ 14;
  fit_max : in_int64 (Job.MaxAttempts j);
  fit_timeout : in_int64 (Job.Timeout j);
  fit_run : time_ok (Job.RunAt j);
  fit_locked : time_ok (Job.LockedUntil j)
}.

(** Reading a hash gives the job back, but for its bookkeeping fields. *)
Lemma job_hash_view j upd :
  job_fits j → Spec.job_view (deserializeJob (job_hash j upd)) = Spec.job_view j.
Proof.
  intros [Hp Hs Ha Hm Ht Hr Hl].
  change (Spec.job_view (deserializeJob (job_hash j upd))) with
    (Spec.job_view
      {| Job.ID := Job.ID j; Job.Name := Job.Name j; Job.Queue := Job.Queue j;
         Job.Priority := wrap8 (ParseInt (itoa (Job.Priority j)));
         Job.Payload := bytes_of_string (string_of_bytes (Job.Payload j));
         Job.CodecName := Job.CodecName j; Job.RunAt := parseTime (formatTime (Job.RunAt j));
         Job.Attempt := ParseInt (itoa (Job.Attempt j));
         Job.MaxAttempts := ParseInt (itoa (Job.MaxAttempts j));
         Job.State := wrap8 (ParseInt (itoa (Job.State j))); Job.Delivery := 0;
         Job.Timeout := ParseInt (itoa (Job.Timeout j)); Job.LockedBy := Job.LockedBy j;
         Job.LockedUntil := parseTime (formatTime (Job.LockedUntil j));
         Job.LastError := Job.LastError j; Job.RecurringID := Job.RecurringID j;
         Job.CreatedAt := 0; Job.UpdatedAt := 0; Job.catchup := false |}).
  rewrite !ParseInt_itoa by int64_lia. rewrite !wrap8_id, !parseTime_format by done.
  unfold bytes_of_string, string_of_bytes. by rewrite Stdlib.Strings.String.list_byte_of_string_of_list_byte.
Qed.

(** ** The invariant *)

(** The jobs stored, with the text of their [updated_at]. *)
Abbreviation Jobs := (gmap string (Job.t * string)).

(** A sorted set as a view of the jobs: those that satisfy [P], scored by
    [f]. *)
Definition members (P : Job.t → bool) (f : Job.t → Z) (J : Jobs) : gmap string Z :=
  omap (λ x, if P x.1 then Some (f x.1) else None) J.

Lemma members_lookup P f J id :
  members P f J !! id = J !! id ≫= λ x, if P x.1 then Some (f x.1) else None.
Proof. unfold members. by rewrite lookup_omap. Qed.

Lemma members_step P f J id o :
  members P f (partial_alter (λ _, o) id J) =
  partial_alter (λ _, o ≫= λ x, if P x.1 then Some (f x.1) else None) id (members P f J).
Proof.
  apply map_eq. intros k. rewrite members_lookup. destruct (decide (id = k)) as [<-|Hne].
  - rewrite lookup_partial_alter_eq. by rewrite lookup_partial_alter_eq.
  - rewrite lookup_partial_alter_ne by done. by rewrite lookup_partial_alter_ne, members_lookup by done.
Qed.

(** A set whose members before and after are not concerned is as it was. *)
Lemma members_other P f J id o :
  (∀ x, J !! id = Some x → P x.1 = false) → (∀ x, o = Some x → P x.1 = false) →
  members P f (partial_alter (λ _, o) id J) = members P f J.
Proof.
  intros Hold Hnew. rewrite members_step. apply map_eq. intros k.
  destruct (decide (id = k)) as [<-|Hne]; [|by rewrite lookup_partial_alter_ne].
  rewrite lookup_partial_alter_eq, members_lookup.
  destruct (J !! id) as [x|] eqn:Hx, o as [y|]; simpl; rewrite ?(Hold _ eq_refl), ?(Hnew _ eq_refl); done.
Qed.

Definition in_bucket (q : string) (p : Z) (j : Job.t) : bool :=
  Spec.pending_in q j && (Job.Priority j =? p).
Definition is_claimed (j : Job.t) : bool := Job.State j =? StateClaimed.

Definition bucket (J : Jobs) (q : string) (p : Z) : gmap string Z :=
  members (in_bucket q p) (λ j, score (Job.RunAt j)) J.
Definition claims (J : Jobs) : gmap string Z :=
  members is_claimed (λ j, score (Job.LockedUntil j)) J.

Lemma in_bucket_spec q p j :
  in_bucket q p j = true ↔ Job.Queue j = q ∧ Job.State j = StatePending ∧ Job.Priority j = p.
Proof.
  unfold in_bucket, Spec.pending_in. rewrite !andb_true_iff, bool_decide_eq_true, !Z.eqb_eq. tauto.
Qed.

Record spec_fits (r : RecurringSpec.t) : Prop := {
  sfit_priority : 0 ≤ RecurringSpec.Priority r < 256;
  sfit_timeout : in_int64 (RecurringSpec.Timeout r);
  sfit_max : in_int64 (RecurringSpec.MaxAttempts r);
  sfit_every : in_int64 (RecurringSpec.Every r);
  sfit_next : time_ok (RecurringSpec.NextRunAt r);
  sfit_last : time_ok (RecurringSpec.LastFireAt r)
}.

(** What an update leaves of a schedule that is not there. *)
Definition update_only (v : option value) : Prop :=
  v = None ∨ ∃ a b, v = Some (VHash (pairs [("next_run_at", a); ("last_fire_at", b)])).

(** The database holds the jobs [J] and the schedules [R]: each pending job is
    in the bucket of its queue and priority under the score of its time and in
    no other, each claimed one in the set of claims, and every key holds a value
    of its kind. *)
Record reps (d : Db) (J : Jobs) (R : gmap string RecurringSpec.t) : Prop := {
  r_jobs : ∀ id, d !! jobKey id = (λ x, VHash (job_hash x.1 x.2)) <$> J !! id;
  r_pending : ∀ q p, d !! pendingKey q p = zset_value (bucket J q p);
  r_claimed : d !! claimedKey = zset_value (claims J);
  r_fits : ∀ id x, J !! id = Some x → Job.ID x.1 = id ∧ job_fits x.1;
  r_all : d !! recurringAllKey = set_value (dom R);
  r_rec : ∀ id r, R !! id = Some r →
    id ≠ "all" ∧ RecurringSpec.ID r = id ∧ spec_fits r ∧
    d !! recurringKey id = Some (VHash (serializeRecurring r));
  r_norec : ∀ id, id ≠ "all" → R !! id = None → update_only (d !! recurringKey id);
  r_lease : ∀ id v, d !! leaseKey id = Some v → ∃ s dl, v = VStr s dl;
  r_workers : ∀ v, d !! workersKey = Some v → ∃ h, v = VHash h
}.

(** The jobs and schedules of the contract. *)
Definition jobs_of (J : Jobs) : gmap string Job.t := (λ x, Spec.job_view x.1) <$> J.
Definition spec_of (J : Jobs) (R : gmap string RecurringSpec.t) : Spec.t :=
  Spec.mk (jobs_of J) (Spec.rec_view <$> R).

Lemma jobs_of_step J id o :
  jobs_of (partial_alter (λ _, o) id J) =
  partial_alter (λ _, (λ x, Spec.job_view x.1) <$> o) id (jobs_of J).
Proof.
  apply map_eq. intros k. unfold jobs_of. rewrite lookup_fmap. destruct (decide (id = k)) as [<-|Hne].
  - rewrite lookup_partial_alter_eq. by rewrite lookup_partial_alter_eq.
  - rewrite lookup_partial_alter_ne by done. by rewrite lookup_partial_alter_ne, lookup_fmap by done.
Qed.

(** *** Commands on such a database *)

Lemma as_zset_run t d k z : d !! k = zset_value z → as_zset k t d = (inr z, d).
Proof.
  unfold as_zset, get_key, zset_value. intros ->. by case_decide; subst.
Qed.

Lemma as_set_run t d k l : d !! k = set_value l → as_set k t d = (inr l, d).
Proof.
  unfold as_set, get_key, set_value. intros ->. by case_decide; subst.
Qed.

Lemma as_hash_run t d k h : d !! k = Some (VHash h) → as_hash k t d = (inr h, d).
Proof. unfold as_hash, get_key. by intros ->. Qed.

Lemma as_hash_none t d k : d !! k = None → as_hash k t d = (inr ∅, d).
Proof. unfold as_hash, get_key. by intros ->. Qed.

Definition set_key (k : string) (v : option value) (d : Db) : Db := partial_alter (λ _, v) k d.

Lemma ZREM_run t d k m z :
  d !! k = zset_value z → ZREM k m t d = (inr tt, set_key k (zset_value (delete m z)) d).
Proof. intros Hk. unfold ZREM, cbind. by rewrite (as_zset_run _ _ _ _ Hk). Qed.

Lemma ZADD_run t d k sc m z :
  d !! k = zset_value z → ZADD k sc m t d = (inr tt, set_key k (zset_value (<[m := sc]> z)) d).
Proof. intros Hk. unfold ZADD, cbind. by rewrite (as_zset_run _ _ _ _ Hk). Qed.

Lemma HSET_run t d k fs h :
  d !! k = Some (VHash h) → HSET k fs t d = (inr tt, set_key k (Some (VHash (fs ∪ h))) d).
Proof. intros Hk. unfold HSET, cbind. by rewrite (as_hash_run _ _ _ _ Hk). Qed.

Lemma HSET_none t d k fs :
  d !! k = None → HSET k fs t d = (inr tt, set_key k (Some (VHash fs)) d).
Proof. intros Hk. unfold HSET, cbind. rewrite (as_hash_none _ _ _ Hk). by rewrite map_union_empty. Qed.

Lemma HGET_run t d k f h : d !! k = Some (VHash h) → HGET k f t d = (inr (h !! f), d).
Proof. intros Hk. unfold HGET, cbind. by rewrite (as_hash_run _ _ _ _ Hk). Qed.

Lemma HGET_none t d k f : d !! k = None → HGET k f t d = (inr None, d).
Proof. intros Hk. unfold HGET, cbind. by rewrite (as_hash_none _ _ _ Hk). Qed.

Lemma set_key_eq k v d : set_key k v d !! k = v.
Proof. apply lookup_partial_alter_eq. Qed.

Lemma set_key_ne k k' v d : k ≠ k' → set_key k v d !! k' = d !! k'.
Proof. apply lookup_partial_alter_ne. Qed.

(** Two keys that differ. *)
Ltac key_diff :=
  first [done | congruence | solve [eauto] | key_ne
        | let H := fresh in intros H; first [apply jobKey_inj in H | apply pendingKey_inj in H as [-> ->]
            | apply recurringKey_inj in H | apply recurringKey_all in H | apply leaseKey_inj in H];
          first [done | congruence]].

(** Looking a key up after writes to others. *)
Ltac lookup_key :=
  repeat first [rewrite set_key_eq | rewrite set_key_ne by key_diff].

Lemma cbind_run {A B} (m : Cmd A) (k : A → Cmd B) t d a d' :
  m t d = (inr a, d') → cbind m k t d = k a t d'.
Proof. unfold cbind. by intros ->. Qed.

(** Run the next command of a script, by the lemma for it. *)
Tactic Notation "script" uconstr(H) := erewrite cbind_run by (eapply H; lookup_key; eassumption).

Section db.
Context (t : Z) (d : Db) (J : Jobs) (R : gmap string RecurringSpec.t) (Hr : reps d J R).

Lemma HGET_job id f :
  HGET (jobKey id) f t d = (inr (J !! id ≫= λ x, job_hash x.1 x.2 !! f), d).
Proof.
  pose proof (r_jobs _ _ _ Hr id) as Hj. destruct (J !! id) as [x|].
  - by rewrite (HGET_run _ _ _ _ _ Hj).
  - by rewrite (HGET_none _ _ _ _ Hj).
Qed.

Lemma EXISTS_job id : EXISTS (jobKey id) t d = (inr (match J !! id with Some _ => true | None => false end), d).
Proof.
  pose proof (r_jobs _ _ _ Hr id) as Hj. unfold EXISTS, get_key. rewrite Hj. by destruct (J !! id).
Qed.

Lemma as_hash_job id :
  as_hash (jobKey id) t d = (inr (default ∅ ((λ x, job_hash x.1 x.2) <$> J !! id)), d).
Proof.
  pose proof (r_jobs _ _ _ Hr id) as Hj. destruct (J !! id) as [x|].
  - by rewrite (as_hash_run _ _ _ _ Hj).
  - by rewrite (as_hash_none _ _ _ Hj).
Qed.

(** What a script that concerns the job [id] must leave. *)
Lemma reps_step id o d' :
  (∀ x, o = Some x → Job.ID x.1 = id ∧ job_fits x.1) →
  (∀ k, (∀ id', jobKey id' ≠ k) → (∀ q p, pendingKey q p ≠ k) → claimedKey ≠ k → d' !! k = d !! k) →
  (∀ id', id ≠ id' → d' !! jobKey id' = d !! jobKey id') →
  d' !! jobKey id = (λ x, VHash (job_hash x.1 x.2)) <$> o →
  (∀ q p, d' !! pendingKey q p = zset_value (bucket (partial_alter (λ _, o) id J) q p)) →
  d' !! claimedKey = zset_value (claims (partial_alter (λ _, o) id J)) →
  reps d' (partial_alter (λ _, o) id J) R.
Proof.
  intros Hfit Hother Hjobs Hjob Hpend Hclaim. destruct Hr as [H1 H2 H3 H4 H5 H6 H7 H8 H9].
  assert (Hk : ∀ k, (∀ id', jobKey id' ≠ k) → (∀ q p, pendingKey q p ≠ k) → claimedKey ≠ k →
                    d' !! k = d !! k) by exact Hother.
  split; try done.
  - intros id'. destruct (decide (id = id')) as [<-|Hne]; [by rewrite lookup_partial_alter_eq|].
    rewrite lookup_partial_alter_ne, Hjobs by done. apply H1.
  - intros id' x. destruct (decide (id = id')) as [<-|Hne]; [rewrite lookup_partial_alter_eq; apply Hfit|].
    rewrite lookup_partial_alter_ne by done. apply H4.
  - rewrite Hk; [done|intros; key_ne|intros; key_ne|key_ne].
  - intros id' r Hr'. destruct (H6 id' r Hr') as (Ha & Hi & Hf & Hd).
    split; [done|]. split; [done|]. split; [done|]. rewrite Hk; [done|intros; key_ne|intros; key_ne|key_ne].
  - intros id' Hall Hr'. rewrite Hk; [by apply H7|intros; key_ne|intros; key_ne|key_ne].
  - intros id' v. rewrite Hk; [by apply H8|intros; key_ne|intros; key_ne|key_ne].
  - intros v. rewrite Hk; [by apply H9|intros; key_ne|intros; key_ne|key_ne].
Qed.
End db.

(** ** Scripts *)

Lemma state_test a b : bool_decide (Some (itoa a) = Some (itoa b)) = (a =? b).
Proof.
  destruct (Z.eqb_spec a b) as [->|Hne]; [by apply bool_decide_eq_true|].
  apply bool_decide_eq_false. intros H. injection H as H. by apply itoa_inj in H.
Qed.

Lemma not_in_bucket q p j : Job.State j ≠ StatePending → in_bucket q p j = false.
Proof.
  intros Hs. destruct (in_bucket q p j) eqn:Hb; [|done]. by apply in_bucket_spec in Hb as (_ & ? & _).
Qed.

Lemma other_bucket q p j :
  pendingKey (Job.Queue j) (Job.Priority j) ≠ pendingKey q p → in_bucket q p j = false.
Proof.
  intros Hk. destruct (in_bucket q p j) eqn:Hb; [|done].
  by apply in_bucket_spec in Hb as (<- & _ & <-).
Qed.

Lemma claims_pending j : Job.State j = StatePending → is_claimed j = false.
Proof. unfold is_claimed. by intros ->. Qed.

Lemma bucket_delete J id q p :
  bucket (partial_alter (λ _, None) id J) q p = delete id (bucket J q p).
Proof. apply members_step. Qed.
Lemma claims_delete J id : claims (partial_alter (λ _, None) id J) = delete id (claims J).
Proof. apply members_step. Qed.

Lemma spec_delete J R id :
  spec_of (partial_alter (λ _, None) id J) R = Spec.set_jobs (delete id (jobs_of J)) (spec_of J R).
Proof. unfold spec_of, Spec.set_jobs. cbn. by rewrite jobs_of_step. Qed.

Lemma spec_insert J R id x :
  spec_of (partial_alter (λ _, Some x) id J) R =
  Spec.set_jobs (<[id := Spec.job_view x.1]> (jobs_of J)) (spec_of J R).
Proof. unfold spec_of, Spec.set_jobs. cbn. by rewrite jobs_of_step. Qed.

Lemma redis_jobs_lookup J id : jobs_of J !! id = (λ x, Spec.job_view x.1) <$> J !! id.
Proof. apply lookup_fmap. Qed.

(** The keys a job script does not write. *)
Ltac other_keys := intros; lookup_key; done.

Section scripts.
Context (t : Z) (d : Db) (J : Jobs) (R : gmap string RecurringSpec.t) (Hr : reps d J R).

Lemma reps_delete_claimed id x :
  J !! id = Some x → Job.State x.1 = StateClaimed →
  reps (set_key (jobKey id) None (set_key claimedKey (zset_value (delete id (claims J))) d))
       (partial_alter (λ _, None) id J) R.
Proof.
  intros Hx Hs. apply (reps_step d J R Hr); [done|other_keys|other_keys|by lookup_key| |].
  - intros q p. lookup_key. rewrite (r_pending _ _ _ Hr). f_equal. symmetry. apply members_other; [|done].
    intros y Hy. rewrite Hx in Hy. injection Hy as <-. by apply not_in_bucket; rewrite Hs.
  - lookup_key. by rewrite claims_delete.
Qed.

Lemma reps_delete_pending id x :
  J !! id = Some x → Job.State x.1 = StatePending →
  let k := pendingKey (Job.Queue x.1) (Job.Priority x.1) in
  reps (set_key (jobKey id) None
         (set_key k (zset_value (delete id (bucket J (Job.Queue x.1) (Job.Priority x.1)))) d))
       (partial_alter (λ _, None) id J) R.
Proof.
  intros Hx Hs k. apply (reps_step d J R Hr); [done|other_keys|other_keys|by lookup_key| |].
  - intros q p. rewrite set_key_ne by key_diff. destruct (decide (k = pendingKey q p)) as [He|Hne].
    + apply pendingKey_inj in He as [<- <-]. rewrite set_key_eq. by rewrite bucket_delete.
    + rewrite set_key_ne by done. rewrite (r_pending _ _ _ Hr). f_equal. symmetry.
      apply members_other; [|done]. intros y Hy. rewrite Hx in Hy. injection Hy as <-. by apply other_bucket.
  - lookup_key. rewrite (r_claimed _ _ _ Hr). f_equal. symmetry. apply members_other; [|done].
    intros y Hy. rewrite Hx in Hy. injection Hy as <-. by apply claims_pending.
Qed.

Lemma bucket_insert id x : in_bucket (Job.Queue x.1) (Job.Priority x.1) x.1 = true →
  bucket (partial_alter (λ _, Some x) id J) (Job.Queue x.1) (Job.Priority x.1) =
  <[id := score (Job.RunAt x.1)]> (bucket J (Job.Queue x.1) (Job.Priority x.1)).
Proof. intros Hb. unfold bucket. rewrite members_step. simpl. by rewrite Hb. Qed.

Lemma claims_insert id x : Job.State x.1 = StateClaimed →
  claims (partial_alter (λ _, Some x) id J) = <[id := score (Job.LockedUntil x.1)]> (claims J).
Proof. intros Hs. unfold claims. rewrite members_step. simpl. unfold is_claimed. by rewrite Hs. Qed.

Lemma in_own_bucket j : Job.State j = StatePending → in_bucket (Job.Queue j) (Job.Priority j) j = true.
Proof. intros Hs. by apply in_bucket_spec. Qed.

(** The other buckets, when the job is in the bucket [k] at most, before and
    after. *)
Lemma buckets_other id o k q p :
  (∀ x, J !! id = Some x → Job.State x.1 = StatePending → pendingKey (Job.Queue x.1) (Job.Priority x.1) = k) →
  (∀ x, o = Some x → Job.State x.1 = StatePending → pendingKey (Job.Queue x.1) (Job.Priority x.1) = k) →
  k ≠ pendingKey q p →
  bucket (partial_alter (λ _, o) id J) q p = bucket J q p.
Proof.
  assert (Haux : ∀ x : Job.t * string, (Job.State x.1 = StatePending →
    pendingKey (Job.Queue x.1) (Job.Priority x.1) = k) → k ≠ pendingKey q p → in_bucket q p x.1 = false).
  { intros x Hk Hne. destruct (decide (Job.State x.1 = StatePending)) as [Hs|Hs];
      [|by apply not_in_bucket]. apply other_bucket. by rewrite Hk. }
  intros Hold Hnew Hne. apply members_other; intros x Hx; apply Haux; eauto.
Qed.

(** A claimed job goes back to its bucket. *)
Lemma reps_requeue id x x' :
  J !! id = Some x → Job.State x.1 = StateClaimed →
  Job.State x'.1 = StatePending → Job.ID x'.1 = id → job_fits x'.1 →
  let q := Job.Queue x'.1 in let p := Job.Priority x'.1 in
  reps (set_key (pendingKey q p) (zset_value (<[id := score (Job.RunAt x'.1)]> (bucket J q p)))
         (set_key (jobKey id) (Some (VHash (job_hash x'.1 x'.2)))
           (set_key claimedKey (zset_value (delete id (claims J))) d)))
       (partial_alter (λ _, Some x') id J) R.
Proof.
  intros Hx Hs Hs' Hid Hfit q p. apply (reps_step d J R Hr).
  - by intros y [= <-].
  - other_keys.
  - other_keys.
  - by lookup_key.
  - intros q' p'. destruct (decide (pendingKey q p = pendingKey q' p')) as [He|Hne].
    + apply pendingKey_inj in He as [<- <-]. lookup_key. by rewrite bucket_insert by by apply in_own_bucket.
    + lookup_key. rewrite (r_pending _ _ _ Hr). f_equal. symmetry. apply (buckets_other _ _ (pendingKey q p)); [| |done].
      * intros y Hy. rewrite Hx in Hy. injection Hy as <-. by rewrite Hs.
      * by intros y [= <-].
  - lookup_key. unfold claims at 2. rewrite members_step. simpl. by rewrite (claims_pending x'.1 Hs').
Qed.

(** A pending job is claimed. *)
Lemma reps_claim id x x' :
  J !! id = Some x → Job.State x.1 = StatePending →
  Job.State x'.1 = StateClaimed → Job.ID x'.1 = id → job_fits x'.1 →
  let q := Job.Queue x.1 in let p := Job.Priority x.1 in
  reps (set_key (jobKey id) (Some (VHash (job_hash x'.1 x'.2)))
         (set_key claimedKey (zset_value (<[id := score (Job.LockedUntil x'.1)]> (claims J)))
           (set_key (pendingKey q p) (zset_value (delete id (bucket J q p))) d)))
       (partial_alter (λ _, Some x') id J) R.
Proof.
  intros Hx Hs Hs' Hid Hfit q p. apply (reps_step d J R Hr).
  - by intros y [= <-].
  - other_keys.
  - other_keys.
  - by lookup_key.
  - intros q' p'. destruct (decide (pendingKey q p = pendingKey q' p')) as [He|Hne].
    + apply pendingKey_inj in He as [<- <-]. lookup_key. unfold bucket at 2. rewrite members_step. simpl.
      by rewrite not_in_bucket by by rewrite Hs'.
    + lookup_key. rewrite (r_pending _ _ _ Hr). f_equal. symmetry. apply (buckets_other _ _ (pendingKey q p)); [| |done].
      * intros y Hy. rewrite Hx in Hy. by injection Hy as <-.
      * intros y [= <-]. by rewrite Hs'.
  - lookup_key. by rewrite claims_insert.
Qed.

(** A job that was not claimed is written as a pending one of its own
    bucket. *)
Lemma reps_enqueue id x' :
  (∀ x, J !! id = Some x → Job.State x.1 ≠ StateClaimed ∧
     (Job.State x.1 = StatePending → Job.Queue x.1 = Job.Queue x'.1 ∧ Job.Priority x.1 = Job.Priority x'.1)) →
  Job.State x'.1 = StatePending → Job.ID x'.1 = id → job_fits x'.1 →
  let q := Job.Queue x'.1 in let p := Job.Priority x'.1 in
  reps (set_key (pendingKey q p) (zset_value (<[id := score (Job.RunAt x'.1)]> (bucket J q p)))
         (set_key (jobKey id) (Some (VHash (job_hash x'.1 x'.2))) d))
       (partial_alter (λ _, Some x') id J) R.
Proof.
  intros Hx Hs' Hid Hfit q p. apply (reps_step d J R Hr).
  - by intros y [= <-].
  - other_keys.
  - other_keys.
  - by lookup_key.
  - intros q' p'. destruct (decide (pendingKey q p = pendingKey q' p')) as [He|Hne].
    + apply pendingKey_inj in He as [<- <-]. lookup_key. by rewrite bucket_insert by by apply in_own_bucket.
    + lookup_key. rewrite (r_pending _ _ _ Hr). f_equal. symmetry. apply (buckets_other _ _ (pendingKey q p)); [| |done].
      * intros y Hy Hs. destruct (Hx y Hy) as [_ Hb]. by destruct (Hb Hs) as [-> ->].
      * by intros y [= <-].
  - lookup_key. rewrite (r_claimed _ _ _ Hr). f_equal. symmetry. apply members_other.
    + intros y Hy. unfold is_claimed. apply Z.eqb_neq. by apply Hx.
    + intros y [= <-]. by apply claims_pending.
Qed.

(** [ackScript]. *)
Lemma ack_script id :
  ∃ r d' J', ackScript (jobKey id) claimedKey id (itoa StateClaimed) t d = (inr r, d') ∧ reps d' J' R ∧
    (if String.eqb r "ok" then None else Some ErrJobNotFound, spec_of J' R) = Spec.ack id (spec_of J R).
Proof.
  unfold ackScript, Spec.ack. cbn [Spec.jobs spec_of]. rewrite redis_jobs_lookup.
  erewrite cbind_run by exact (HGET_job t d J R Hr id _). destruct (J !! id) as [x|] eqn:Hx; cbn [mbind option_bind fmap option_fmap option_map].
  2:{ exists "missing", d, J. done. }
  rewrite (proj1 (job_hash_fields _ _)), state_test.
  change (Job.State (Spec.job_view x.1)) with (Job.State x.1). destruct (Z.eqb_spec (Job.State x.1) StateClaimed) as [Hs|Hs]; simpl.
  2:{ exists "missing", d, J. done. }
  erewrite cbind_run by exact (ZREM_run _ _ _ _ _ (r_claimed _ _ _ Hr)). erewrite cbind_run by reflexivity.
  exists "ok". do 2 eexists. split; [reflexivity|]. split; [by eapply reps_delete_claimed|].
  simpl. by rewrite spec_delete.
Qed.

(** [failScript]. Its arithmetic is in doubles. *)
Lemma lua_number_itoa n : lua_number (Some (itoa n)) = to_double n.
Proof. unfold lua_number. by rewrite parse_int_itoa. Qed.

Lemma lua_exhausted m b :
  Z.abs b < 10 ^ 15 → (0 <? to_double m) && (to_double m <=? b) = (0 <? m) && (m <=? b).
Proof.
  intros Hb. assert (Hp : 0 < m ↔ 0 < to_double m).
  { destruct (Z_lt_ge_dec 0 m) as [Hm|Hm].
    - pose proof (to_double_mono 1 m ltac:(lia)). rewrite (to_double_small 1) in H by lia. lia.
    - pose proof (to_double_mono m 0 ltac:(lia)). rewrite (to_double_small 0) in H by lia. lia. }
  assert (Hl : m ≤ b ↔ to_double m ≤ b).
  { destruct (Z_le_gt_dec m b) as [Hm|Hm].
    - pose proof (to_double_mono m b Hm). rewrite (to_double_small b) in H by lia. lia.
    - pose proof (to_double_mono (b + 1) m ltac:(lia)). rewrite (to_double_small (b + 1)) in H by lia. lia. }
  destruct (Z.ltb_spec 0 m), (Z.ltb_spec 0 (to_double m)), (Z.leb_spec m b), (Z.leb_spec (to_double m) b);
    simpl; try reflexivity; lia.
Qed.

(** The attempt that [Fail] counts is one Lua prints in full. *)
Definition attempt_fits (j : Job.t) : Prop := Z.abs (Job.Attempt j + 1) < 10 ^ 14.

Lemma retry_fits j msg u :
  job_fits j → attempt_fits j → time_ok u → job_fits (Spec.retry_job msg u j).
Proof.
  intros [? ? ? ? ? ? ?] Ha Hu. unfold attempt_fits in Ha. split; cbn; try done; try (by left).
  rewrite wrap64_id; [done|int64_lia].
Qed.

Lemma fail_script id msg next now pending :
  time_ok next →
  (∀ x, J !! id = Some x → pending = pendingKey (Job.Queue x.1) (Job.Priority x.1) ∧ attempt_fits x.1) →
  ∃ r d' J', failScript (jobKey id) claimedKey pending id msg (formatTime next) (formatTime now)
      (itoa StatePending) (itoa StateClaimed) t d = (inr r, d') ∧ reps d' J' R ∧
    (if String.eqb r "ok" then None else Some ErrJobNotFound, spec_of J' R) =
      Spec.fail id msg next (spec_of J R).
Proof.
  intros Hnext Hp. unfold failScript, Spec.fail. cbn [Spec.jobs spec_of]. rewrite redis_jobs_lookup.
  erewrite cbind_run by exact (HGET_job t d J R Hr id _).
  destruct (J !! id) as [x|] eqn:Hx; cbn [mbind option_bind fmap option_fmap option_map].
  2:{ exists "missing", d, J. done. }
  destruct (Hp x eq_refl) as [-> Ha]. pose proof (r_fits _ _ _ Hr id x Hx) as [Hid Hfit].
  pose proof (job_hash_fields x.1 x.2) as (-> & _ & _ & _ & Hat & Hmax). rewrite state_test.
  change (Job.State (Spec.job_view x.1)) with (Job.State x.1).
  destruct (Z.eqb_spec (Job.State x.1) StateClaimed) as [Hs|Hs]; cbn [negb].
  2:{ exists "missing", d, J. done. }
  erewrite cbind_run by exact (HGET_job t d J R Hr id _).
  erewrite cbind_run by exact (HGET_job t d J R Hr id _).
  rewrite Hx. cbn [mbind option_bind]. rewrite Hat, Hmax, !lua_number_itoa.
  destruct Hfit as [? ? Hatt ? ? ? ?]. unfold attempt_fits in Ha.
  rewrite (to_double_small (Job.Attempt x.1)), (to_double_small (Job.Attempt x.1 + 1)) by lia.
  erewrite cbind_run by exact (ZREM_run _ _ _ _ _ (r_claimed _ _ _ Hr)).
  rewrite lua_exhausted by lia. unfold Spec.exhausted.
  change (Job.MaxAttempts (Spec.job_view x.1)) with (Job.MaxAttempts x.1).
  change (Job.Attempt (Spec.job_view x.1)) with (Job.Attempt x.1).
  rewrite wrap64_id by int64_lia.
  destruct ((0 <? Job.MaxAttempts x.1) && (Job.MaxAttempts x.1 <=? Job.Attempt x.1 + 1)).
  - erewrite cbind_run by reflexivity. exists "ok". do 2 eexists. split; [reflexivity|].
    split; [by eapply reps_delete_claimed|]. simpl. by rewrite spec_delete.
  - assert (Hat' : lua_tostring (Job.Attempt x.1 + 1) = itoa (wrap64 (Job.Attempt x.1 + 1))).
    { unfold lua_tostring. rewrite (proj2 (Z.ltb_lt _ _) Ha). by rewrite wrap64_id by int64_lia. }
    rewrite Hat'. erewrite cbind_run.
    2:{ apply HSET_run. lookup_key. by rewrite (r_jobs _ _ _ Hr), Hx. }
    rewrite retry_hash, float_arg_time. erewrite cbind_run by reflexivity.
    erewrite cbind_run.
    2:{ apply ZADD_run. lookup_key. by rewrite (r_pending _ _ _ Hr). }
    exists "ok". do 2 eexists. split; [reflexivity|]. split.
    + apply (reps_requeue id x (Spec.retry_job msg next x.1, formatTime now)); try done.
      apply retry_fits; [by split|done|done].
    + rewrite spec_insert. reflexivity.
Qed.

(** [cancelScript] and [rescheduleScript], and the lookup before them. *)
Definition own_key (x : Job.t * string) : string := pendingKey (Job.Queue x.1) (Job.Priority x.1).

Lemma lookup_bucket_run id :
  ∃ fields, lookup_bucket id t d = (inr fields, d) ∧ bucket_of fields = own_key <$> J !! id.
Proof.
  unfold lookup_bucket, HMGET. erewrite cbind_run by exact (as_hash_job t d J R Hr id).
  eexists. split; [reflexivity|]. destruct (J !! id) as [x|] eqn:Hx; [|done].
  pose proof (r_fits _ _ _ Hr id x Hx) as [_ [Hp _ _ _ _ _ _]].
  change (bucket_of [job_hash x.1 x.2 !! "queue"; job_hash x.1 x.2 !! "priority"] = Some (own_key x)).
  pose proof (job_hash_fields x.1 x.2) as (_ & -> & -> & _). unfold bucket_of, asInt, own_key.
  rewrite ParseInt_itoa by int64_lia. by rewrite wrap8_id.
Qed.

Lemma cancel_script id what x :
  J !! id = Some x →
  ∃ r d' J', cancelScript (jobKey id) (own_key x) id (itoa StatePending) t d = (inr r, d') ∧
    reps d' J' R ∧ (script_error what r, spec_of J' R) = Spec.cancel id (spec_of J R).
Proof.
  intros Hx. unfold cancelScript, Spec.cancel. cbn [Spec.jobs spec_of]. rewrite redis_jobs_lookup, Hx.
  erewrite cbind_run by exact (EXISTS_job t d J R Hr id).
  rewrite Hx. cbn [negb fmap option_fmap option_map].
  erewrite cbind_run by exact (HGET_job t d J R Hr id _). rewrite Hx. cbn [mbind option_bind].
  rewrite (proj1 (job_hash_fields _ _)), state_test.
  change (Job.State (Spec.job_view x.1)) with (Job.State x.1).
  destruct (Z.eqb_spec (Job.State x.1) StatePending) as [Hs|Hs]; cbn [negb].
  2:{ exists "not_pending", d, J. done. }
  erewrite cbind_run by exact (ZREM_run _ _ _ _ _ (r_pending _ _ _ Hr _ _)).
  erewrite cbind_run by reflexivity. exists "ok". do 2 eexists. split; [reflexivity|].
  split; [by eapply reps_delete_pending|]. unfold script_error. simpl. by rewrite spec_delete.
Qed.

Lemma reschedule_fits j u : job_fits j → time_ok u → job_fits (Job.set_RunAt u j).
Proof. intros [? ? ? ? ? ? ?] Hu. by split. Qed.

Lemma reschedule_script id what x u now :
  time_ok u → J !! id = Some x →
  ∃ r d' J', rescheduleScript (jobKey id) (own_key x) id (formatTime u) (formatTime now) (itoa StatePending)
      t d = (inr r, d') ∧
    reps d' J' R ∧ (script_error what r, spec_of J' R) = Spec.reschedule id u (spec_of J R).
Proof.
  intros Hu Hx. unfold rescheduleScript, Spec.reschedule. cbn [Spec.jobs spec_of].
  rewrite redis_jobs_lookup, Hx. pose proof (r_fits _ _ _ Hr id x Hx) as [Hid Hfit].
  erewrite cbind_run by exact (EXISTS_job t d J R Hr id).
  rewrite Hx. cbn [negb fmap option_fmap option_map].
  erewrite cbind_run by exact (HGET_job t d J R Hr id _). rewrite Hx. cbn [mbind option_bind].
  rewrite (proj1 (job_hash_fields _ _)), state_test.
  change (Job.State (Spec.job_view x.1)) with (Job.State x.1).
  destruct (Z.eqb_spec (Job.State x.1) StatePending) as [Hs|Hs]; cbn [negb].
  2:{ exists "not_pending", d, J. done. }
  erewrite cbind_run.
  2:{ apply HSET_run. by rewrite (r_jobs _ _ _ Hr), Hx. }
  rewrite reschedule_hash, float_arg_time. erewrite cbind_run by reflexivity.
  erewrite cbind_run.
  2:{ apply ZADD_run. unfold own_key. lookup_key. by rewrite (r_pending _ _ _ Hr). }
  exists "ok". do 2 eexists. split; [reflexivity|]. split.
  - apply (reps_enqueue id (Job.set_RunAt u x.1, formatTime now)); try done.
    + intros y Hy. rewrite Hx in Hy. injection Hy as <-. by rewrite Hs.
    + by apply reschedule_fits.
  - rewrite spec_insert. reflexivity.
Qed.

(** The transaction of [Save]: the job is new, or stays in its bucket. *)
Definition save_ok (j : Job.t) : Prop :=
  job_fits j ∧ Job.State j = StatePending ∧ Job.MaxAttempts j ≠ 0 ∧
  ∀ x, J !! Job.ID j = Some x → Job.State x.1 = StatePending ∧ Job.Queue x.1 = Job.Queue j ∧
                                Job.Priority x.1 = Job.Priority j.

Lemma save_run j :
  save_ok j →
  ∃ d' J', pipe [HSET (jobKey (Job.ID j)) (serializeJob j);
                 ZADD (pendingKey (Job.Queue j) (Job.Priority j)) (run_score (Job.RunAt j)) (Job.ID j)] t d
             = (inr [tt; tt], d') ∧
    reps d' J' R ∧ (None, spec_of J' R) = Spec.save j (spec_of J R).
Proof.
  intros (Hfit & Hs & _ & Hsame).
  assert (Hh : HSET (jobKey (Job.ID j)) (serializeJob j) t d =
    (inr tt, set_key (jobKey (Job.ID j)) (Some (VHash (job_hash j (formatTime (Job.UpdatedAt j))))) d)).
  { pose proof (r_jobs _ _ _ Hr (Job.ID j)) as Hk. destruct (J !! Job.ID j) as [x|].
    - rewrite (HSET_run _ _ _ _ _ Hk). by rewrite save_hash, <- job_hash_self.
    - rewrite (HSET_none _ _ _ _ Hk). by rewrite <- job_hash_self. }
  cbn [pipe]. rewrite Hh, run_score_score. erewrite ZADD_run.
  2:{ lookup_key. by rewrite (r_pending _ _ _ Hr). }
  do 2 eexists. split; [reflexivity|]. split.
  - apply (reps_enqueue (Job.ID j) (j, formatTime (Job.UpdatedAt j))); try done.
    intros x Hx. destruct (Hsame x Hx) as (Hsx & -> & ->). by rewrite Hsx.
  - rewrite spec_insert. reflexivity.
Qed.
End scripts.

(** ** Schedules *)

Lemma schedule_update_hash r next last :
  pairs [("next_run_at", formatTime next); ("last_fire_at", formatTime last)] ∪ serializeRecurring r =
  serializeRecurring (RecurringSpec.set_LastFireAt last (RecurringSpec.set_NextRunAt next r)).
Proof. reflexivity. Qed.

Lemma schedule_upsert_hash r a b :
  serializeRecurring r ∪ pairs [("next_run_at", a); ("last_fire_at", b)] = serializeRecurring r.
Proof. reflexivity. Qed.

Lemma schedule_overlay_hash r r' : serializeRecurring r ∪ serializeRecurring r' = serializeRecurring r.
Proof. reflexivity. Qed.

Lemma update_overlay_hash a b a' b' :
  pairs [("next_run_at", a); ("last_fire_at", b)] ∪ pairs [("next_run_at", a'); ("last_fire_at", b')] =
  pairs [("next_run_at", a); ("last_fire_at", b)].
Proof. reflexivity. Qed.

Section schedules.
Context (t : Z) (d : Db) (J : Jobs) (R : gmap string RecurringSpec.t) (Hr : reps d J R).

Lemma SADD_run k m l :
  d !! k = set_value l → SADD k m t d = (inr tt, set_key k (set_value ({[m]} ∪ l)) d).
Proof. intros Hk. unfold SADD, cbind. by rewrite (as_set_run _ _ _ _ Hk). Qed.

Lemma SREM_run k m l :
  d !! k = set_value l → SREM k m t d = (inr tt, set_key k (set_value (l ∖ {[m]})) d).
Proof. intros Hk. unfold SREM, cbind. by rewrite (as_set_run _ _ _ _ Hk). Qed.

(** A change of the schedule [id] alone. *)
Lemma reps_schedule id o d' :
  id ≠ "all" →
  (∀ k, recurringKey id ≠ k → recurringAllKey ≠ k → d' !! k = d !! k) →
  (∀ r, o = Some r → RecurringSpec.ID r = id ∧ spec_fits r ∧
     d' !! recurringKey id = Some (VHash (serializeRecurring r))) →
  (o = None → update_only (d' !! recurringKey id)) →
  d' !! recurringAllKey = set_value (dom (partial_alter (λ _, o) id R)) →
  reps d' J (partial_alter (λ _, o) id R).
Proof.
  intros Hid Hk Hsome Hnone Hall. destruct Hr as [H1 H2 H3 H4 H5 H6 H7 H8 H9]. split; try done.
  - intros id'. rewrite Hk by key_diff. apply H1.
  - intros q p. rewrite Hk by key_diff. apply H2.
  - rewrite Hk by key_diff. apply H3.
  - intros id' r. destruct (decide (id = id')) as [<-|Hne].
    + rewrite lookup_partial_alter_eq. intros Ho. split; [done|]. by apply Hsome.
    + rewrite lookup_partial_alter_ne by done. intros Hr'. destruct (H6 id' r Hr') as (Ha & Hi & Hf & Hd).
      split; [done|]. split; [done|]. split; [done|]. rewrite Hk; [done|key_diff|].
      intros H. symmetry in H. by apply recurringKey_all in H.
  - intros id' Ha. destruct (decide (id = id')) as [<-|Hne].
    + rewrite lookup_partial_alter_eq. exact Hnone.
    + rewrite lookup_partial_alter_ne by done. intros Hr'. rewrite Hk; [by apply H7|key_diff|].
      intros H. symmetry in H. by apply recurringKey_all in H.
  - intros id' v. rewrite Hk by key_diff. apply H8.
  - intros v. rewrite Hk by key_diff. apply H9.
Qed.

(** The hash of an identifier that is not the index's. *)
Lemma schedule_hash id :
  id ≠ "all" →
  ∃ h, as_hash (recurringKey id) t d = (inr h, d) ∧
    match R !! id with
    | Some r => h = serializeRecurring r ∧ spec_fits r ∧ RecurringSpec.ID r = id
    | None => h = ∅ ∨ ∃ a b, h = pairs [("next_run_at", a); ("last_fire_at", b)]
    end.
Proof.
  intros Hid. destruct (R !! id) as [r|] eqn:HR.
  - destruct (r_rec _ _ _ Hr id r HR) as (_ & ? & ? & Hd). eexists. by split; [apply as_hash_run, Hd|].
  - destruct (r_norec _ _ _ Hr id Hid HR) as [Hd|(a & b & Hd)].
    + eexists. split; [by apply as_hash_none|]. by left.
    + eexists. split; [by apply as_hash_run|]. right. by exists a, b.
Qed.

Lemma all_ne id : id ≠ "all" → recurringKey id ≠ recurringAllKey.
Proof. intros Hid H. by apply recurringKey_all in H. Qed.

Lemma redis_upsert_run r :
  RecurringSpec.ID r ≠ "all" → spec_fits r →
  ∃ d' R', pipe [HSET (recurringKey (RecurringSpec.ID r)) (serializeRecurring r);
                 SADD recurringAllKey (RecurringSpec.ID r)] t d = (inr [tt; tt], d') ∧
    reps d' J R' ∧ (None, spec_of J R') = Spec.upsert_recurring r (spec_of J R).
Proof.
  intros Hid Hfit. destruct (schedule_hash _ Hid) as (h & Hh & Hc).
  assert (Hw : serializeRecurring r ∪ h = serializeRecurring r).
  { destruct (R !! RecurringSpec.ID r); [destruct Hc as [-> _]; apply schedule_overlay_hash|].
    destruct Hc as [->|(a & b & ->)]; [apply map_union_empty|apply schedule_upsert_hash]. }
  cbn [pipe]. unfold HSET at 1, cbind. rewrite Hh, Hw. unfold put. fold (set_key (recurringKey (RecurringSpec.ID r)) (Some (VHash (serializeRecurring r))) d).
  unfold SADD, cbind. erewrite as_set_run.
  2:{ rewrite set_key_ne by by apply all_ne. exact (r_all _ _ _ Hr). }
  do 2 eexists. split; [reflexivity|]. split.
  - apply (reps_schedule (RecurringSpec.ID r) (Some r)); [done| | |done|].
    + intros k Hk1 Hk2. unfold put. change (set_key recurringAllKey (set_value ({[RecurringSpec.ID r]} ∪ dom R))
        (set_key (recurringKey (RecurringSpec.ID r)) (Some (VHash (serializeRecurring r))) d) !! k = d !! k). by lookup_key.
    + intros r' [= <-]. split; [done|]. split; [done|].
      rewrite lookup_partial_alter_ne by by apply not_eq_sym, all_ne. apply set_key_eq.
    + rewrite lookup_partial_alter_eq. f_equal. exact (eq_sym (dom_insert_L R (RecurringSpec.ID r) r)).
  - unfold spec_of, Spec.upsert_recurring, Spec.done_with, Spec.set_recurring. cbn. do 2 f_equal.
    exact (fmap_insert Spec.rec_view R (RecurringSpec.ID r) r).
Qed.

Lemma delete_run id :
  id ≠ "all" →
  ∃ d' R', pipe [DEL (recurringKey id); SREM recurringAllKey id] t d = (inr [tt; tt], d') ∧
    reps d' J R' ∧ (None, spec_of J R') = Spec.delete_recurring id (spec_of J R).
Proof.
  intros Hid. cbn [pipe]. unfold DEL, put. fold (set_key (recurringKey id) None d).
  unfold SREM, cbind. erewrite as_set_run.
  2:{ rewrite set_key_ne by by apply all_ne. exact (r_all _ _ _ Hr). }
  do 2 eexists. split; [reflexivity|]. split.
  - apply (reps_schedule id None); [done| |done| |].
    + intros k Hk1 Hk2. rewrite lookup_partial_alter_ne by done. by apply set_key_ne.
    + intros _. left. rewrite lookup_partial_alter_ne by by apply not_eq_sym, all_ne. apply set_key_eq.
    + rewrite lookup_partial_alter_eq. f_equal. exact (eq_sym (dom_delete_L R id)).
  - unfold spec_of, Spec.delete_recurring, Spec.done_with, Spec.set_recurring. cbn. do 2 f_equal.
    exact (fmap_delete Spec.rec_view R id).
Qed.

Lemma update_run id next last :
  id ≠ "all" → time_ok next → time_ok last →
  ∃ d' R', HSET (recurringKey id) (pairs [("next_run_at", formatTime next); ("last_fire_at", formatTime last)])
             t d = (inr tt, d') ∧
    reps d' J R' ∧ (None, spec_of J R') = Spec.update_next_run id next last (spec_of J R).
Proof.
  intros Hid Hn Hl. destruct (schedule_hash _ Hid) as (h & Hh & Hc). unfold HSET, cbind. rewrite Hh.
  do 2 eexists. split; [reflexivity|]. unfold put. set (o := (λ r, RecurringSpec.set_LastFireAt last (RecurringSpec.set_NextRunAt next r)) <$> R !! id).
  split.
  - apply (reps_schedule id o); unfold o; [done| | | |].
    + intros k Hk1 _. by rewrite lookup_partial_alter_ne.
    + intros r' Ho. destruct (R !! id) as [r|]; [|done]. injection Ho as <-. destruct Hc as (-> & Hf & He).
      split; [done|]. split; [by destruct Hf; split|]. by rewrite lookup_partial_alter_eq, schedule_update_hash.
    + intros Ho. destruct (R !! id) as [r|]; [done|]. right. rewrite lookup_partial_alter_eq.
      exists (formatTime next), (formatTime last). destruct Hc as [->|(a & b & ->)]; [by rewrite map_union_empty|by rewrite update_overlay_hash].
    + rewrite lookup_partial_alter_ne by by apply all_ne. rewrite (r_all _ _ _ Hr). f_equal. apply set_eq. intros k.
      rewrite !elem_of_dom. destruct (decide (id = k)) as [<-|Hne].
      * rewrite lookup_partial_alter_eq. by destruct (R !! id).
      * by rewrite lookup_partial_alter_ne.
  - unfold spec_of, Spec.update_next_run, Spec.done_with, Spec.set_recurring. cbn. do 2 f_equal.
    apply map_eq. intros k. rewrite lookup_fmap. destruct (decide (id = k)) as [<-|Hne].
    + rewrite lookup_partial_alter_eq, lookup_alter_eq, lookup_fmap. unfold o. by destruct (R !! id).
    + by rewrite lookup_partial_alter_ne, lookup_alter_ne, lookup_fmap by done.
Qed.
End schedules.
