(* ===== verification/RedisClaim.v ===== *)
(** The two scripts that move many jobs: [claimDueScript], which answers with
    the first due jobs of the buckets taken one after the other, and
    [recoverStaleScript]. *)

From S2P Require Import Prelude ListLib Types StoreApi Text RedisEngine Redis RedisFacts.
Local Open Scope Z_scope.
Local Open Scope redis_scope.

(** ** The order of the answer *)

(** Priorities first; then the times as doubles. *)
Definition redis_less (a b : Job.t) : bool :=
  if negb (Job.Priority a =? Job.Priority b) then Job.Priority b <? Job.Priority a
  else score (Job.RunAt a) <? score (Job.RunAt b).

#[export] Instance redis_less_strict_weak : StrictWeak redis_less.
Proof.
  unfold redis_less. split.
  - intros a b. destruct (Z.eqb_spec (Job.Priority a) (Job.Priority b)),
      (Z.eqb_spec (Job.Priority b) (Job.Priority a)); cbn; lia.
  - intros a b c. destruct (Z.eqb_spec (Job.Priority b) (Job.Priority a)),
      (Z.eqb_spec (Job.Priority c) (Job.Priority b)), (Z.eqb_spec (Job.Priority c) (Job.Priority a)); cbn; lia.
Qed.

Definition redis_due (ps : list Z) (q : string) (now : Z) (j : Job.t) : bool :=
  Spec.pending_in q j && bool_decide (Job.Priority j ∈ ps) && (score (Job.RunAt j) <=? score now).

Section ranked.
Context (J : Jobs) (q : string) (now : Z).

(** The due members of a bucket, and those of several, in order. *)
Definition bucket_ids (p : Z) : list string :=
  (stable_sort zless (filter (λ x, in_range None (score now) x = true) (map_to_list (bucket J q p)))).*1.
Definition ranked (ps : list Z) : list string := concat (bucket_ids <$> ps).

Lemma bucket_lookup p id sc :
  bucket J q p !! id = Some sc ↔
  ∃ x, J !! id = Some x ∧ in_bucket q p x.1 = true ∧ sc = score (Job.RunAt x.1).
Proof.
  unfold bucket. rewrite members_lookup. destruct (J !! id) as [x|]; simpl.
  - destruct (in_bucket q p x.1) eqn:Hb.
    + split; [intros [= <-]; by exists x|]. by intros (y & [= <-] & _ & ->).
    + split; [done|]. intros (y & [= <-] & Hy & _). by rewrite Hb in Hy.
  - split; [done|]. by intros (y & ? & _).
Qed.

Lemma elem_of_bucket_ids p id :
  id ∈ bucket_ids p ↔
  ∃ x, J !! id = Some x ∧ in_bucket q p x.1 = true ∧ score (Job.RunAt x.1) ≤ score now.
Proof.
  unfold bucket_ids. rewrite list_elem_of_fmap. setoid_rewrite stable_sort_perm.
  setoid_rewrite list_elem_of_filter. split.
  - intros ([k sc] & -> & Hs & Hin). apply elem_of_map_to_list in Hin. unfold in_range in Hs. cbn in *.
    apply bucket_lookup in Hin as (x & Hx & Hb & ->). exists x. repeat split; [done|done|lia].
  - intros (x & Hx & Hb & Hs). exists (id, score (Job.RunAt x.1)). split; [done|]. split.
    + unfold in_range. cbn. lia.
    + apply elem_of_map_to_list, bucket_lookup. by exists x.
Qed.

Lemma bucket_ids_nodup p : NoDup (bucket_ids p).
Proof.
  unfold bucket_ids. rewrite stable_sort_perm.
  apply (sublist_NoDup _ (map_to_list (bucket J q p)).*1); [apply NoDup_fst_map_to_list|].
  apply fmap_sublist, sublist_filter.
Qed.

Lemma elem_of_ranked ps id :
  id ∈ ranked ps ↔ ∃ x, J !! id = Some x ∧ redis_due ps q now x.1 = true.
Proof.
  unfold ranked. rewrite list_elem_of_In, in_concat. setoid_rewrite <- list_elem_of_In.
  unfold redis_due. split.
  - intros (l & Hl & Hid). apply list_elem_of_fmap in Hl as (p & -> & Hp).
    apply elem_of_bucket_ids in Hid as (x & Hx & (Hq & Hs & <-)%in_bucket_spec & Hle).
    exists x. split; [done|]. unfold Spec.pending_in. rewrite Hs, !bool_decide_eq_true_2 by done. lia.
  - intros (x & Hx & [[Hq Hp]%andb_true_iff Hs]%andb_true_iff). apply bool_decide_eq_true in Hp.
    exists (bucket_ids (Job.Priority x.1)). split; [by apply list_elem_of_fmap_2|].
    apply elem_of_bucket_ids. exists x. split; [done|]. split; [|lia].
    unfold in_bucket. by rewrite Hq, Z.eqb_refl.
Qed.

Lemma ranked_nodup ps : NoDup ps → NoDup (ranked ps).
Proof.
  unfold ranked. induction ps as [|p ps IH]; intros Hnd; simpl; [constructor|].
  apply NoDup_cons in Hnd as [Hp Hnd]. apply NoDup_app. split; [apply bucket_ids_nodup|].
  split; [|by apply IH]. intros id Hid Hin.
  apply elem_of_bucket_ids in Hid as (x & Hx & (_ & _ & <-)%in_bucket_spec & _).
  apply elem_of_ranked in Hin as (y & Hy & [[_ Hps]%andb_true_iff _]%andb_true_iff).
  rewrite Hx in Hy. injection Hy as <-. by apply bool_decide_eq_true in Hps.
Qed.

Lemma ranked_lookup ps id : id ∈ ranked ps → ∃ x, J !! id = Some x.
Proof. intros (x & Hx & _)%elem_of_ranked. eauto. Qed.

(** The job of an identifier. *)
Definition job_at (id : string) : Job.t := default Job.zero (jobs_of J !! id).

Lemma job_at_some id x : J !! id = Some x → job_at id = Spec.job_view x.1.
Proof. intros Hx. unfold job_at. by rewrite redis_jobs_lookup, Hx. Qed.

Lemma bucket_sorted p : StronglySorted (le_of redis_less) (job_at <$> bucket_ids p).
Proof.
  unfold bucket_ids. rewrite <- list_fmap_compose.
  apply (sorted_fmap_in (le_of zless)); [|apply stable_sort_sorted, _].
  assert (Hsc : ∀ a : string * Z, a ∈ stable_sort zless (filter (λ x, in_range None (score now) x = true)
      (map_to_list (bucket J q p))) →
    ∃ x, J !! a.1 = Some x ∧ Job.Priority x.1 = p ∧ a.2 = score (Job.RunAt x.1)).
  { intros [k sc]. rewrite stable_sort_perm, list_elem_of_filter, elem_of_map_to_list.
    intros [_ (x & ? & (_ & _ & ?)%in_bucket_spec & ?)%bucket_lookup]. by exists x. }
  intros a b (x & Hx & Hpx & Ha)%Hsc (y & Hy & Hpy & Hb)%Hsc Hle. cbn.
  rewrite (job_at_some _ _ Hx), (job_at_some _ _ Hy). unfold le_of, zless, redis_less in *. cbn.
  rewrite Hpx, Hpy, Z.eqb_refl. cbn. rewrite <- Ha, <- Hb.
  destruct (Z.eqb_spec b.2 a.2) as [He|]; lia.
Qed.

Lemma ranked_sorted ps :
  StronglySorted Z.gt ps → StronglySorted (le_of redis_less) (job_at <$> ranked ps).
Proof.
  unfold ranked. induction 1 as [|p ps Hs IH Hall]; simpl; [constructor|].
  rewrite fmap_app. apply StronglySorted_app_2; [|apply bucket_sorted|done].
  intros a b Ha Hb. apply list_elem_of_fmap in Ha as (i & -> & Hi), Hb as (k & -> & Hk).
  apply elem_of_bucket_ids in Hi as (x & Hx & (_ & _ & Hp)%in_bucket_spec & _).
  apply elem_of_ranked in Hk as (y & Hy & [[_ Hps]%andb_true_iff _]%andb_true_iff).
  apply bool_decide_eq_true in Hps. rewrite Forall_forall in Hall. pose proof (Hall _ Hps) as Hgt.
  rewrite (job_at_some _ _ Hx), (job_at_some _ _ Hy). unfold le_of, redis_less. cbn.
  destruct (Z.eqb_spec (Job.Priority y.1) (Job.Priority x.1)); cbn; lia.
Qed.
End ranked.

(** ** Many jobs changed alike *)

Definition alter_all (f : Job.t * string → Job.t * string) (ids : list string) (J : Jobs) : Jobs :=
  foldl (λ J id, alter f id J) J ids.

Lemma alter_all_lookup f ids J k :
  (∀ x, f (f x) = f x) → alter_all f ids J !! k = if decide (k ∈ ids) then f <$> J !! k else J !! k.
Proof.
  intros Hf. unfold alter_all. revert J. induction ids as [|id ids IH]; intros J; simpl; [done|]. rewrite IH.
  destruct (decide (k = id)) as [->|Hne].
  - rewrite lookup_alter_eq, (decide_True (P := id ∈ id :: ids)) by by left.
    case_decide; [|done]. destruct (J !! id); [|done]. cbn. by rewrite Hf.
  - rewrite lookup_alter_ne by done. assert (k ∈ id :: ids ↔ k ∈ ids) by (rewrite elem_of_cons; tauto).
    by repeat case_decide; try tauto.
Qed.

Lemma alter_entry (f : Job.t * string → Job.t * string) (J : Jobs) id x :
  J !! id = Some x → alter f id J = partial_alter (λ _, Some (f x)) id J.
Proof. intros Hx. apply partial_alter_ext. intros y Hy. rewrite Hx in Hy. by subst. Qed.

(** The jobs still to be changed are as they were. *)
Lemma still_there (P : Job.t * string → Prop) ids id (y : Job.t * string) (J : Jobs) :
  id ∉ ids → (∀ k, k ∈ id :: ids → ∃ x, J !! k = Some x ∧ P x) →
  ∀ k, k ∈ ids → ∃ x, partial_alter (λ _, Some y) id J !! k = Some x ∧ P x.
Proof.
  intros Hid Hin k Hk. destruct (Hin k ltac:(by right)) as (x & Hx & Hp). exists x. split; [|done].
  rewrite lookup_partial_alter_ne; [done|]. by intros ->.
Qed.

(** ** [claimDueScript] *)

Section claims.
Context (w : string) (u now : Z).

Definition claim_entry (x : Job.t * string) : Job.t * string := (Spec.claim_job w u x.1, formatTime now).
Definition claim_entries : list string → Jobs → Jobs := alter_all claim_entry.

Lemma claim_entries_lookup ids J k :
  claim_entries ids J !! k = if decide (k ∈ ids) then claim_entry <$> J !! k else J !! k.
Proof. by apply alter_all_lookup. Qed.

Lemma claim_fits j : job_fits j → time_ok u → job_fits (Spec.claim_job w u j).
Proof. intros [? ? ? ? ? ? ?] Hu. by split. Qed.

Lemma claim_ids_run t q p ids : ∀ d J R,
  reps d J R → time_ok u → NoDup ids →
  (∀ id, id ∈ ids → ∃ x, J !! id = Some x ∧ in_bucket q p x.1 = true) →
  ∃ d', claim_ids (pendingKey q p) claimedKey (formatTime now) w (formatTime u) (keyPrefix +:+ "job:")
          (itoa StateClaimed) ids t d = (inr tt, d') ∧ reps d' (claim_entries ids J) R.
Proof.
  induction ids as [|id ids IH]; intros d J R Hr Hu Hnd Hin; [by exists d|].
  apply NoDup_cons in Hnd as [Hid Hnd]. destruct (Hin id ltac:(by left)) as (x & Hx & Hb).
  apply in_bucket_spec in Hb as (<- & Hs & <-). pose proof (r_fits _ _ _ Hr id x Hx) as [Hkey Hfit].
  cbn [claim_ids].
  erewrite cbind_run by exact (ZREM_run _ _ _ _ _ (r_pending _ _ _ Hr _ _)).
  rewrite float_arg_time. erewrite cbind_run by reflexivity.
  erewrite cbind_run.
  2:{ apply ZADD_run. lookup_key. exact (r_claimed _ _ _ Hr). }
  change ((keyPrefix +:+ "job:") +:+ id) with (jobKey id). erewrite cbind_run.
  2:{ apply HSET_run. lookup_key. by rewrite (r_jobs _ _ _ Hr), Hx. }
  rewrite claim_hash. unfold claim_entries, alter_all. cbn [foldl].
  pose proof (reps_claim d J R Hr id x (claim_entry x) Hx Hs eq_refl Hkey (claim_fits _ Hfit Hu)) as Hr'.
  rewrite (alter_entry claim_entry J id x Hx). apply IH; [exact Hr'|done|done|].
  by apply (still_there (λ x, in_bucket _ _ x.1 = true)).
Qed.

(** Claiming from one bucket leaves the others. *)
Lemma claim_entries_bucket ids J q p :
  (∀ id, id ∈ ids → ∃ x, J !! id = Some x ∧ in_bucket q p x.1 = false) →
  bucket (claim_entries ids J) q p = bucket J q p.
Proof.
  intros Hin. apply map_eq. intros k. unfold bucket. rewrite !members_lookup, claim_entries_lookup.
  case_decide as Hk; [|done]. destruct (Hin k Hk) as (x & -> & Hb). simpl. by rewrite Hb, not_in_bucket.
Qed.

Lemma ranked_ext J J' q ps :
  (∀ p, p ∈ ps → bucket J' q p = bucket J q p) → ranked J' q now ps = ranked J q now ps.
Proof.
  intros Hb. unfold ranked. f_equal. apply list_fmap_ext. intros i p Hp. unfold bucket_ids.
  by rewrite Hb by by eapply list_elem_of_lookup_2.
Qed.

Lemma claim_buckets_run t q ps : ∀ n d J R,
  reps d J R → time_ok u → NoDup ps →
  let ids := take (Z.to_nat n) (ranked J q now ps) in
  ∃ d', claim_buckets claimedKey (formatTime now) w (formatTime u) (keyPrefix +:+ "job:")
          (itoa StateClaimed) (pendingKey q <$> ps) n t d = (inr ids, d') ∧
        reps d' (claim_entries ids J) R.
Proof.
  induction ps as [|p ps IH]; intros n d J R Hr Hu Hnd; cbn [claim_buckets fmap list_fmap map].
  { unfold ranked. simpl. rewrite take_nil. by exists d. }
  destruct (Z.leb_spec n 0) as [Hn|Hn]; [replace (Z.to_nat n) with 0%nat by lia; by exists d|].
  apply NoDup_cons in Hnd as [Hp Hnd].
  rewrite float_arg_time. erewrite cbind_run by reflexivity.
  erewrite cbind_run.
  2:{ unfold ZRANGEBYSCORE. erewrite cbind_run by exact (as_zset_run _ _ _ _ (r_pending _ _ _ Hr q p)). reflexivity. }
  rewrite (proj2 (Z.ltb_ge n 0)) by lia. fold (bucket_ids J q now p).
  set (l := bucket_ids J q now p). set (ids := take (Z.to_nat n) l).
  assert (Hids : ∀ id, id ∈ ids → ∃ x, J !! id = Some x ∧ in_bucket q p x.1 = true).
  { intros id Hid. assert (Hl : id ∈ l) by (eapply elem_of_sublist; [done|apply sublist_take]).
    apply elem_of_bucket_ids in Hl as (x & ? & ? & _). eauto. }
  destruct (claim_ids_run t q p ids d J R Hr Hu) as (d1 & Hrun & Hr1); [|exact Hids|].
  { apply (sublist_NoDup _ l); [apply bucket_ids_nodup|apply sublist_take]. }
  erewrite cbind_run by exact Hrun.
  assert (Hext : ranked (claim_entries ids J) q now ps = ranked J q now ps).
  { apply ranked_ext. intros p' Hp'. apply claim_entries_bucket. intros id Hid. destruct (Hids id Hid) as (x & Hx & Hb).
      exists x. split; [done|]. apply in_bucket_spec in Hb as (<- & _ & <-). apply other_bucket.
      intros [_ He]%pendingKey_inj. by subst. }
  destruct (IH (n - Z.of_nat (length ids)) d1 _ R Hr1 Hu Hnd) as (d2 & Hrun2 & Hr2).
  rewrite Hext in Hrun2, Hr2. erewrite cbind_run by exact Hrun2. exists d2.
  assert (Hall : take (Z.to_nat n) (ranked J q now (p :: ps)) =
                 ids ++ take (Z.to_nat (n - Z.of_nat (length ids))) (ranked J q now ps)).
  { unfold ranked. simpl. fold l. rewrite take_app. fold ids. f_equal. f_equal.
    unfold ids. rewrite length_take. lia. }
  rewrite Hall. split; [done|]. unfold claim_entries, alter_all in *. by rewrite foldl_app.
Qed.
End claims.

(** In terms of the contract: the answer is the first [n] of the due jobs in
    order. *)
Section answer.
Context (d : Db) (J : Jobs) (R : gmap string RecurringSpec.t) (Hr : reps d J R).

Lemma jobs_of_keyed k j : jobs_of J !! k = Some j → Job.ID j = k.
Proof.
  rewrite redis_jobs_lookup. destruct (J !! k) as [x|] eqn:Hx; [|done]. intros [= <-].
  apply (r_fits _ _ _ Hr _ _ Hx).
Qed.

Lemma job_at_ID id x : J !! id = Some x → Job.ID (job_at J id) = id.
Proof. intros Hx. rewrite (job_at_some _ _ _ Hx). apply (r_fits _ _ _ Hr _ _ Hx). Qed.

Lemma ids_of_ranked q now ps l :
  sublist l (ranked J q now ps) → Spec.ids (job_at J <$> l) = l.
Proof.
  intros Hl. unfold Spec.ids. rewrite <- list_fmap_compose. rewrite <- (list_fmap_id l) at 2.
  apply list_fmap_ext. intros i id Hi. cbn.
  assert (Hin : id ∈ ranked J q now ps) by (eapply elem_of_sublist; [by eapply list_elem_of_lookup_2|done]).
  destruct (ranked_lookup _ _ _ _ _ Hin) as [x Hx]. by eapply job_at_ID.
Qed.

Lemma ranked_perm q now ps :
  NoDup ps →
  job_at J <$> ranked J q now ps ≡ₚ filter (λ j, redis_due ps q now j = true) (map_to_list (jobs_of J)).*2.
Proof.
  intros Hnd. apply NoDup_Permutation.
  - apply (NoDup_fmap_1 Job.ID). change (NoDup (Spec.ids (job_at J <$> ranked J q now ps))).
    rewrite (ids_of_ranked q now ps) by done. by apply ranked_nodup.
  - apply (NoDup_fmap_1 Job.ID), keyed_filter_nodup, jobs_of_keyed.
  - intros j. rewrite list_elem_of_filter, !list_elem_of_fmap. split.
    + intros (id & -> & (x & Hx & Hd)%elem_of_ranked). rewrite (job_at_some _ _ _ Hx).
      split; [done|]. exists (id, Spec.job_view x.1). split; [done|].
      apply elem_of_map_to_list. by rewrite redis_jobs_lookup, Hx.
    + intros (Hd & [k j'] & -> & Hk%elem_of_map_to_list). cbn in *. rewrite redis_jobs_lookup in Hk.
      destruct (J !! k) as [x|] eqn:Hx; [|done]. injection Hk as <-. exists k.
      rewrite (job_at_some _ _ _ Hx). split; [done|]. apply elem_of_ranked. by exists x.
Qed.

Lemma jobs_of_claim w u now q nw ps l :
  NoDup ps → sublist l (ranked J q nw ps) →
  jobs_of (claim_entries w u now l J) = Spec.claim_all w u (job_at J <$> l) (jobs_of J).
Proof.
  intros Hps Hl. apply map_eq. intros k. unfold Spec.claim_all. rewrite update_all_lookup.
  - rewrite (ids_of_ranked q nw ps) by done. rewrite !redis_jobs_lookup, claim_entries_lookup.
    case_decide; [|done]. by destruct (J !! k).
  - rewrite (ids_of_ranked q nw ps) by done. eapply sublist_NoDup; [by apply ranked_nodup|done].
  - rewrite Forall_fmap, Forall_forall. intros id Hid. cbn.
    assert (Hin : id ∈ ranked J q nw ps) by by eapply elem_of_sublist.
    destruct (ranked_lookup _ _ _ _ _ Hin) as [x Hx]. rewrite (job_at_ID _ _ Hx).
    by rewrite (job_at_some _ _ _ Hx), redis_jobs_lookup, Hx.
Qed.
End answer.

(** ** [recoverStaleScript] *)

Definition release_entry (upd : string) (x : Job.t * string) : Job.t * string := (Spec.release_job x.1, upd).

Lemma release_fits j : job_fits j → job_fits (Spec.release_job j).
Proof. intros [? ? ? ? ? ? ?]. split; try done. by left. Qed.

Section recover.
Context (t nanos : Z).

Lemma recover_ids_run ids : ∀ n d J R,
  reps d J R → NoDup ids →
  (∀ id, id ∈ ids → ∃ x, J !! id = Some x ∧ Job.State x.1 = StateClaimed) →
  ∃ d', recover_ids claimedKey (keyPrefix +:+ "job:") (keyPrefix +:+ "pending:") (itoa StatePending) nanos
          ids n t d = (inr (n + Z.of_nat (length ids)), d') ∧
        reps d' (alter_all (release_entry (lua_tostring nanos)) ids J) R.
Proof.
  induction ids as [|id ids IH]; intros n d J R Hr Hnd Hin; [exists d; by rewrite Z.add_0_r|].
  apply NoDup_cons in Hnd as [Hid Hnd]. destruct (Hin id ltac:(by left)) as (x & Hx & Hs).
  pose proof (r_fits _ _ _ Hr id x Hx) as [Hkey Hfit]. cbn [recover_ids].
  change ((keyPrefix +:+ "job:") +:+ id) with (jobKey id).
  erewrite cbind_run by exact (HGET_job t d J R Hr id _).
  erewrite cbind_run by exact (HGET_job t d J R Hr id _).
  erewrite cbind_run by exact (HGET_job t d J R Hr id _).
  rewrite Hx. cbn [mbind option_bind].
  pose proof (job_hash_fields x.1 x.2) as (_ & -> & -> & -> & _).
  erewrite cbind_run by exact (ZREM_run _ _ _ _ _ (r_claimed _ _ _ Hr)).
  erewrite cbind_run.
  2:{ apply HSET_run. lookup_key. by rewrite (r_jobs _ _ _ Hr), Hx. }
  rewrite release_hash, float_arg_time. erewrite cbind_run by reflexivity.
  change ((keyPrefix +:+ "pending:") +:+ Job.Queue x.1 +:+ ":p" +:+ itoa (Job.Priority x.1))
    with (pendingKey (Job.Queue x.1) (Job.Priority x.1)).
  erewrite cbind_run.
  2:{ apply ZADD_run. lookup_key. by rewrite (r_pending _ _ _ Hr). }
  pose proof (reps_requeue d J R Hr id x (release_entry (lua_tostring nanos) x) Hx Hs eq_refl Hkey
    (release_fits _ Hfit)) as Hr'.
  unfold alter_all. cbn [foldl]. rewrite (alter_entry (release_entry (lua_tostring nanos)) J id x Hx).
  replace (n + Z.of_nat (length (id :: ids))) with (n + 1 + Z.of_nat (length ids)) by (simpl; lia).
  apply IH; [exact Hr'|done|]. by apply (still_there (λ x, Job.State x.1 = StateClaimed)).
Qed.
End recover.

Lemma claims_lookup J id sc :
  claims J !! id = Some sc ↔
  ∃ x, J !! id = Some x ∧ Job.State x.1 = StateClaimed ∧ sc = score (Job.LockedUntil x.1).
Proof.
  unfold claims. rewrite members_lookup. destruct (J !! id) as [x|]; simpl.
  - unfold is_claimed. destruct (Z.eqb_spec (Job.State x.1) StateClaimed).
    + split; [intros [= <-]; by exists x|]. by intros (y & [= <-] & _ & ->).
    + split; [done|]. by intros (y & [= <-] & Hy & _).
  - split; [done|]. by intros (y & ? & _).
Qed.

Lemma recover_run t d J R :
  reps d J R →
  let nanos := lua_nanos (t / 10 ^ 6, t mod 10 ^ 6) in
  ∃ stale d', recoverStaleScript claimedKey (keyPrefix +:+ "job:") (keyPrefix +:+ "pending:")
      (itoa StatePending) t d = (inr (Z.of_nat (length stale)), d') ∧
    reps d' (alter_all (release_entry (lua_tostring nanos)) stale J) R ∧ NoDup stale ∧
    ∀ id, id ∈ stale ↔ ∃ x, J !! id = Some x ∧ Job.State x.1 = StateClaimed ∧
                            1 ≤ score (Job.LockedUntil x.1) ≤ nanos.
Proof.
  intros Hr nanos. unfold recoverStaleScript. erewrite cbind_run by reflexivity. fold nanos.
  unfold ZRANGEBYSCORE. erewrite cbind_run.
  2:{ erewrite cbind_run by exact (as_zset_run _ _ _ _ (r_claimed _ _ _ Hr)). reflexivity. }
  set (stale := (stable_sort zless _).*1).
  assert (Hin : ∀ id, id ∈ stale ↔ ∃ x, J !! id = Some x ∧ Job.State x.1 = StateClaimed ∧
                            1 ≤ score (Job.LockedUntil x.1) ≤ nanos).
  { intros id. unfold stale. rewrite list_elem_of_fmap. setoid_rewrite stable_sort_perm.
    setoid_rewrite list_elem_of_filter. split.
    - intros ([k sc] & -> & Hs & Hk%elem_of_map_to_list%claims_lookup). unfold in_range in Hs. cbn in *.
      destruct Hk as (x & Hx & Hc & ->). exists x. repeat split; [done|done|lia|lia].
    - intros (x & Hx & Hc & Hs). exists (id, score (Job.LockedUntil x.1)). split; [done|]. split.
      + unfold in_range. cbn. lia.
      + apply elem_of_map_to_list, claims_lookup. by exists x. }
  assert (Hnd : NoDup stale).
  { unfold stale. rewrite stable_sort_perm.
    apply (sublist_NoDup _ (map_to_list (claims J)).*1); [apply NoDup_fst_map_to_list|].
    apply fmap_sublist, sublist_filter. }
  destruct (recover_ids_run t nanos stale 0 d J R Hr Hnd) as (d' & Hrun & Hr').
  { intros id Hid. apply Hin in Hid as (x & Hx & Hc & _). by exists x. }
  exists stale, d'. by split; [exact Hrun|].
Qed.

(** The clock of the server, read by the script, is the nearest double of its
    nanoseconds (up to the year 2116). *)
Lemma lua_nanos_time t : 0 ≤ t * 1000 < 2 ^ 62 → lua_nanos (t / 10 ^ 6, t mod 10 ^ 6) = to_double (t * 1000).
Proof.
  intros Ht. unfold lua_nanos. cbn [fst snd].
  pose proof (Z.div_mod t (10 ^ 6) ltac:(lia)). pose proof (Z.mod_pos_bound t (10 ^ 6) ltac:(lia)).
  set (a := t / 10 ^ 6) in *. set (b := t mod 10 ^ 6) in *.
  rewrite (to_double_small a), (to_double_small b), (to_double_small (b * 1000)) by lia.
  rewrite (to_double_multiple (a * 10 ^ 9) 9); [f_equal; lia|lia|lia|].
  exists (a * 5 ^ 9). lia.
Qed.
