(* ===== verification/RedisMethods.v ===== *)
(** The methods of the Redis store against the contract: what a database
    stands for, the answer of every method that the abstract store determines,
    and what a claim takes. *)

From S2P Require Import Prelude ListLib Types StoreApi Text RedisEngine Redis RedisFacts RedisClaim.
Local Open Scope Z_scope.

(** ** What a database stands for *)

(** The database of [s] satisfies the invariant and holds the jobs and the
    schedules of [sp]. *)
Definition shows (s : Store) (sp : Spec.t) : Prop := ∃ J R, reps (db s) J R ∧ sp = spec_of J R.

Lemma reps_view d J R id x : reps d J R → J !! id = Some x → jobs_of J !! id = Some (Spec.job_view x.1).
Proof. intros _ Hx. by rewrite redis_jobs_lookup, Hx. Qed.

(** The abstract store is determined by the database. *)
Lemma schedule_view r : spec_fits r →
  Spec.rec_view (deserializeRecurring (serializeRecurring r)) = Spec.rec_view r.
Proof.
  intros [Hp Ht Hm He Hn Hl].
  change (Spec.rec_view (deserializeRecurring (serializeRecurring r))) with
    (Spec.rec_view
      {| RecurringSpec.ID := RecurringSpec.ID r; RecurringSpec.Name := RecurringSpec.Name r;
         RecurringSpec.Queue := RecurringSpec.Queue r;
         RecurringSpec.Priority := wrap8 (ParseInt (itoa (RecurringSpec.Priority r)));
         RecurringSpec.Payload := bytes_of_string (string_of_bytes (RecurringSpec.Payload r));
         RecurringSpec.CodecName := RecurringSpec.CodecName r; RecurringSpec.Delivery := 0;
         RecurringSpec.Timeout := ParseInt (itoa (RecurringSpec.Timeout r));
         RecurringSpec.MaxAttempts := ParseInt (itoa (RecurringSpec.MaxAttempts r));
         RecurringSpec.Cron := RecurringSpec.Cron r;
         RecurringSpec.Every := ParseInt (itoa (RecurringSpec.Every r));
         RecurringSpec.Catchup := ParseBool (FormatBool (RecurringSpec.Catchup r));
         RecurringSpec.LeaseUntil := Time.zero; RecurringSpec.LeasedBy := "";
         RecurringSpec.NextRunAt := parseTime (formatTime (RecurringSpec.NextRunAt r));
         RecurringSpec.LastFireAt := parseTime (formatTime (RecurringSpec.LastFireAt r)) |}).
  rewrite !ParseInt_itoa by int64_lia. rewrite ParseBool_FormatBool, wrap8_id, !parseTime_format by done.
  unfold bytes_of_string, string_of_bytes. by rewrite Stdlib.Strings.String.list_byte_of_string_of_list_byte.
Qed.

Lemma set_value_inj a b : set_value a = set_value b → a = b.
Proof. unfold set_value. intros H. repeat case_decide; congruence. Qed.

Lemma hash_inj a b : Some (VHash a) = Some (VHash b) → a = b.
Proof. congruence. Qed.

Lemma shows_functional s sp sp' : shows s sp → shows s sp' → sp = sp'.
Proof.
  intros (J & R & Hr & ->) (J' & R' & Hr' & ->). unfold spec_of. f_equal; apply map_eq; intros id.
  - rewrite !redis_jobs_lookup. pose proof (r_jobs _ _ _ Hr id) as Hj. rewrite (r_jobs _ _ _ Hr') in Hj.
    destruct (J !! id) as [x|] eqn:Hx, (J' !! id) as [y|] eqn:Hy; try done.
    apply hash_inj in Hj. cbn [fmap option_fmap option_map]. f_equal.
    pose proof (proj2 (r_fits _ _ _ Hr _ _ Hx)) as Hfx. pose proof (proj2 (r_fits _ _ _ Hr' _ _ Hy)) as Hfy.
    rewrite <- (job_hash_view _ x.2 Hfx), <- (job_hash_view _ y.2 Hfy). by rewrite Hj.
  - rewrite !lookup_fmap. assert (Hd : dom R = dom R').
    { apply set_value_inj. by rewrite <- (r_all _ _ _ Hr), <- (r_all _ _ _ Hr'). }
    assert (Hin : is_Some (R !! id) ↔ is_Some (R' !! id)) by (rewrite <- !elem_of_dom; by rewrite Hd).
    destruct (R !! id) as [r|] eqn:Hx, (R' !! id) as [r'|] eqn:Hy; cbn; [|by destruct Hin as [[? ?] _]; eauto|
      by destruct Hin as [_ [? ?]]; eauto|done]. f_equal.
    destruct (r_rec _ _ _ Hr _ _ Hx) as (_ & _ & Hf & He).
    destruct (r_rec _ _ _ Hr' _ _ Hy) as (_ & _ & Hf' & He').
    rewrite He in He'. apply hash_inj in He'.
    rewrite <- (schedule_view _ Hf), <- (schedule_view _ Hf'). by rewrite He'.
Qed.

(** ** Methods *)

(** The arguments a method accepts in a store that holds [sp]: a job that is
    saved again stays in its bucket, an attempt is one Lua prints in full, and
    no schedule is called [all], the name of the index. *)
Definition same_bucket (j : Job.t) (sp : Spec.t) : Prop :=
  ∀ j0, Spec.jobs sp !! Job.ID j = Some j0 →
    Job.State j0 = StatePending ∧ Job.Queue j0 = Job.Queue j ∧ Job.Priority j0 = Job.Priority j.

Definition call_ok (c : method) (sp : Spec.t) : Prop :=
  match c with
  | MSave j => job_fits j ∧ Job.State j = StatePending ∧ Job.MaxAttempts j ≠ 0 ∧ same_bucket j sp
  | MFail id _ t => time_ok t ∧ ∀ j, Spec.jobs sp !! id = Some j → attempt_fits j
  | MReschedule _ t => time_ok t
  | MUpsertRecurring r => RecurringSpec.ID r ≠ "all" ∧ spec_fits r
  | MDeleteRecurring id => id ≠ "all"
  | MUpdateRecurringNextRun id next last => id ≠ "all" ∧ time_ok next ∧ time_ok last
  | MAck _ | MCancel _ => True
  end.

(** The database shows [sp] before; the answer and the contents after are
    [target], or a round trip failed and nothing has changed. *)
Definition answers (run : GoM Store (option error)) (s : Store) (sp : Spec.t)
    (target : option error * Spec.t) : Prop :=
  ∃ e s' sp', run s = Some (e, s') ∧ shows s' sp' ∧
    ((e, sp') = target ∨ ((∃ msg, e = Some (ErrOther msg)) ∧ sp' = sp ∧ ∃ i, faults s i ≠ None)).

Section methods.
Context (s : Store) (J : Jobs) (R : gmap string RecurringSpec.t) (Hr : reps (db s) J R).

Lemma shows_reps (s' : Store) d J' R' : db s' = d → reps d J' R' → shows s' (spec_of J' R').
Proof. intros <- H. by exists J', R'. Qed.

(** A round trip that fails. *)
Lemma fails (s' : Store) msg (target : option error * Spec.t) i e0 :
  db s' = db s → faults s i = Some e0 →
  shows s' (spec_of J R) ∧
    ((Some (ErrOther msg), spec_of J R) = target ∨
     ((∃ msg0, Some (ErrOther msg) = Some (ErrOther msg0)) ∧ spec_of J R = spec_of J R ∧ ∃ i, faults s i ≠ None)).
Proof.
  intros Hd Hf. split; [by eapply shows_reps|]. right. split; [eauto|]. split; [done|].
  exists i. by rewrite Hf.
Qed.

Ltac fail_case :=
  do 3 eexists; split; [reflexivity|]; eapply fails; [reflexivity|eassumption].

Lemma redis_Ack id : answers (Ack id) s (spec_of J R) (Spec.ack id (spec_of J R)).
Proof.
  unfold answers, Ack, gbind, call. destruct (faults s (calls s)) as [m|] eqn:Hf; [cbn; fail_case|].
  destruct (ack_script (server_time s (calls s)) _ _ _ Hr id) as (r & d' & J' & Hrun & Hr' & Ht).
  rewrite Hrun. cbn. do 3 eexists. split; [reflexivity|]. split; [by eapply shows_reps|]. left. exact Ht.
Qed.

Lemma redis_Save j :
  save_ok J j → answers (Save j) s (spec_of J R) (Spec.save j (spec_of J R)).
Proof.
  intros Hj. pose proof Hj as (Hfit & Hs & Hm & _). unfold answers, Save. rewrite Hs.
  change (StatePending =? 0) with true. rewrite (proj2 (Z.eqb_neq _ _) Hm). cbn [negb].
  assert (Hset : Job.set_State StatePending j = j) by (destruct j; cbn in *; by subst).
  rewrite Hset. change (StatePending =? StatePending) with true. cbn iota. unfold gbind, call.
  destruct (faults s (calls s)) as [m|] eqn:Hf; [cbn; fail_case|].
  destruct (save_run (server_time s (calls s)) _ _ _ Hr j Hj) as (d' & J' & Hrun & Hr' & Ht).
  rewrite Hrun. cbn. do 3 eexists. split; [reflexivity|]. split; [by eapply shows_reps|]. left. exact Ht.
Qed.

Lemma redis_Fail id msg next :
  time_ok next → (∀ x, J !! id = Some x → attempt_fits x.1) →
  answers (Fail id msg next) s (spec_of J R) (Spec.fail id msg next (spec_of J R)).
Proof.
  intros Hn Ha. unfold answers, Fail, gbind, call. destruct (faults s (calls s)) as [m|] eqn:Hf; [cbn; fail_case|].
  destruct (lookup_bucket_run (server_time s (calls s)) _ _ _ Hr id) as (fs & -> & Hb).
  rewrite Hb. cbn -[failScript]. destruct (J !! id) as [x|] eqn:Hx; cbn -[failScript].
  2:{ do 3 eexists. split; [reflexivity|]. split; [by eapply shows_reps|]. left.
      unfold Spec.fail. cbn. by rewrite redis_jobs_lookup, Hx. }
  destruct (faults s (S (calls s))) as [m|] eqn:Hf2; [cbn; fail_case|].
  edestruct (fail_script (server_time s (S (calls s))) _ _ _ Hr id msg next) as (r & d' & J' & Hrun & Hr' & Ht);
    [done| |rewrite Hrun].
  - intros y Hy. rewrite Hx in Hy. injection Hy as <-. split; [reflexivity|by apply Ha].
  - cbn. do 3 eexists. split; [reflexivity|]. split; [by eapply shows_reps|]. left. exact Ht.
Qed.

Lemma redis_Cancel id : answers (Cancel id) s (spec_of J R) (Spec.cancel id (spec_of J R)).
Proof.
  unfold answers, Cancel, gbind, call. destruct (faults s (calls s)) as [m|] eqn:Hf; [cbn; fail_case|].
  destruct (lookup_bucket_run (server_time s (calls s)) _ _ _ Hr id) as (fs & -> & Hb).
  rewrite Hb. cbn -[cancelScript own_key itoa]. destruct (J !! id) as [x|] eqn:Hx; cbn -[cancelScript own_key itoa].
  2:{ do 3 eexists. split; [reflexivity|]. split; [by eapply shows_reps|]. left.
      unfold Spec.cancel. cbn. by rewrite redis_jobs_lookup, Hx. }
  destruct (faults s (S (calls s))) as [m|] eqn:Hf2; [cbn; fail_case|].
  edestruct (cancel_script (server_time s (S (calls s))) _ _ _ Hr id) as (r & d' & J' & Hrun & Hr' & Ht);
    [exact Hx|rewrite Hrun].
  cbn -[script_error]. do 3 eexists. split; [reflexivity|]. split; [by eapply shows_reps|]. left. exact Ht.
Qed.

Lemma redis_Reschedule id u :
  time_ok u → answers (Reschedule id u) s (spec_of J R) (Spec.reschedule id u (spec_of J R)).
Proof.
  intros Hu. unfold answers, Reschedule, gbind, call.
  destruct (faults s (calls s)) as [m|] eqn:Hf; [cbn; fail_case|].
  destruct (lookup_bucket_run (server_time s (calls s)) _ _ _ Hr id) as (fs & -> & Hb).
  rewrite Hb. cbn -[rescheduleScript own_key itoa]. destruct (J !! id) as [x|] eqn:Hx; cbn -[rescheduleScript own_key itoa].
  2:{ do 3 eexists. split; [reflexivity|]. split; [by eapply shows_reps|]. left.
      unfold Spec.reschedule. cbn. by rewrite redis_jobs_lookup, Hx. }
  destruct (faults s (S (calls s))) as [m|] eqn:Hf2; [cbn; fail_case|].
  edestruct (reschedule_script (server_time s (S (calls s))) _ _ _ Hr id)
    as (r & d' & J' & Hrun & Hr' & Ht); [exact Hu|exact Hx|rewrite Hrun].
  cbn -[script_error]. do 3 eexists. split; [reflexivity|]. split; [by eapply shows_reps|]. left. exact Ht.
Qed.

(** The methods on schedules make one round trip. *)
Lemma one_trip {A} (c : Cmd A) what (target : option error * Spec.t) :
  (∃ a d' R', c (server_time s (calls s)) (db s) = (inr a, d') ∧ reps d' J R' ∧
     (None, spec_of J R') = target) →
  answers (gbind (call c) (λ r, match r with
                                | inl msg => gret (Some (errf what msg))
                                | inr _ => gret None
                                end)) s (spec_of J R) target.
Proof.
  intros (a & d' & R' & Hrun & Hr' & Ht). unfold answers, gbind, call.
  destruct (faults s (calls s)) as [m|] eqn:Hf; [cbn; fail_case|]. rewrite Hrun. cbn.
  do 3 eexists. split; [reflexivity|]. split; [by eapply shows_reps|]. by left.
Qed.

Lemma redis_UpsertRecurring r :
  RecurringSpec.ID r ≠ "all" → spec_fits r →
  answers (UpsertRecurring r) s (spec_of J R) (Spec.upsert_recurring r (spec_of J R)).
Proof.
  intros Hid Hf. apply (one_trip (pipe _) "redis upsert recurring: ").
  destruct (redis_upsert_run (server_time s (calls s)) _ _ _ Hr r Hid Hf) as (d' & R' & ?). eauto.
Qed.

Lemma redis_DeleteRecurring id :
  id ≠ "all" → answers (DeleteRecurring id) s (spec_of J R) (Spec.delete_recurring id (spec_of J R)).
Proof.
  intros Hid. apply (one_trip (pipe _) "redis delete recurring: ").
  destruct (delete_run (server_time s (calls s)) _ _ _ Hr id Hid) as (d' & R' & ?). eauto.
Qed.

Lemma redis_UpdateRecurringNextRun id next last :
  id ≠ "all" → time_ok next → time_ok last →
  answers (UpdateRecurringNextRun id next last) s (spec_of J R)
    (Spec.update_next_run id next last (spec_of J R)).
Proof.
  intros Hid Hn Hl. apply (one_trip (HSET _ _) "redis update recurring next: ").
  destruct (update_run (server_time s (calls s)) _ _ _ Hr id next last Hid Hn Hl) as (d' & R' & ?). eauto.
Qed.

Lemma redis_method c : call_ok c (spec_of J R) → answers (run_method c) s (spec_of J R) (spec_method c (spec_of J R)).
Proof.
  destruct c as [j|id|id msg t|id|id t|r|id|id next last]; cbn; intros Hc.
  - apply redis_Save. destruct Hc as (Hf & Hs & Hm & Hb). split; [done|]. split; [done|]. split; [done|].
    intros x Hx. apply (Hb (Spec.job_view x.1)). exact (reps_view _ _ _ _ _ Hr Hx).
  - apply redis_Ack.
  - destruct Hc as [Ht Ha]. apply redis_Fail; [done|]. intros x Hx.
    apply (Ha (Spec.job_view x.1)). exact (reps_view _ _ _ _ _ Hr Hx).
  - apply redis_Cancel.
  - by apply redis_Reschedule.
  - destruct Hc. by apply redis_UpsertRecurring.
  - by apply redis_DeleteRecurring.
  - destruct Hc as (? & ? & ?). by apply redis_UpdateRecurringNextRun.
Qed.
End methods.

(** *** Claims *)

Definition all_buckets : list Z := [PriorityCritical; PriorityHigh; PriorityNormal; PriorityLow].

Lemma all_buckets_nodup : NoDup all_buckets.
Proof. apply (bool_decide_unpack _). reflexivity. Qed.

Lemma all_buckets_sorted : StronglySorted Z.gt all_buckets.
Proof. repeat constructor. Qed.

Lemma fetch_run t d J R ids :
  reps d J R → (∀ id, id ∈ ids → ∃ x, J !! id = Some x) →
  ∃ hs, pipe ((λ id, HGETALL (jobKey id)) <$> ids) t d = (inr hs, d) ∧
        Spec.job_view <$> (deserializeJob <$> hs) = job_at J <$> ids.
Proof.
  intros Hr. induction ids as [|id ids IH]; intros Hin; [by exists []|].
  destruct IH as (hs & Hrun & Hv); [intros k Hk; apply Hin; by right|].
  destruct (Hin id ltac:(by left)) as [x Hx]. exists (job_hash x.1 x.2 :: hs).
  cbn [fmap list_fmap map pipe]. unfold HGETALL at 1. rewrite (as_hash_job t d J R Hr id), Hx.
  cbn in Hrun |- *. rewrite Hrun. split; [done|]. cbn in Hv. rewrite Hv. f_equal.
  rewrite (job_at_some _ _ _ Hx). apply job_hash_view. apply (r_fits _ _ _ Hr _ _ Hx).
Qed.

Lemma claimed_view J w u now ids :
  (∀ id, id ∈ ids → ∃ x, J !! id = Some x) →
  job_at (claim_entries w u now ids J) <$> ids = Spec.claim_job w u <$> (job_at J <$> ids).
Proof.
  intros Hin. rewrite <- list_fmap_compose. apply list_fmap_ext. intros i id Hi.
  apply list_elem_of_lookup_2 in Hi. destruct (Hin id Hi) as [x Hx]. cbn.
  unfold job_at. rewrite !redis_jobs_lookup, claim_entries_lookup, decide_True, Hx by done. done.
Qed.

(** Taking [js] is what a claim does: the first [n] due jobs of the four
    buckets, in order. *)
Definition redis_takes (q : string) (now n : Z) (m : gmap string Job.t) (js : list Job.t) : Prop :=
  ∃ srt, StronglySorted (le_of redis_less) srt ∧
    srt ≡ₚ filter (λ j, redis_due all_buckets q now j = true) (map_to_list m).*2 ∧
    js = take (Z.to_nat n) srt.

Lemma claim_run t d J R q now n w u :
  reps d J R → time_ok u →
  ∃ ids d', claim_command q now n w u t d = (inr ids, d') ∧ reps d' (claim_entries w u now ids J) R ∧
    (∀ id, id ∈ ids → ∃ x, J !! id = Some x) ∧ redis_takes q now n (jobs_of J) (job_at J <$> ids) ∧
    jobs_of (claim_entries w u now ids J) = Spec.claim_all w u (job_at J <$> ids) (jobs_of J).
Proof.
  intros Hr Hu.
  destruct (claim_buckets_run w u now t q all_buckets n d J R Hr Hu all_buckets_nodup) as (d' & Hrun & Hr').
  set (ids := take (Z.to_nat n) (ranked J q now all_buckets)) in *.
  assert (Hsub : sublist ids (ranked J q now all_buckets)) by apply sublist_take.
  exists ids, d'. split; [exact Hrun|]. split; [done|]. split.
  { intros id Hid. eapply ranked_lookup, elem_of_sublist; [exact Hid|exact Hsub]. }
  split.
  - exists (job_at J <$> ranked J q now all_buckets). split; [apply ranked_sorted, all_buckets_sorted|].
    split; [by apply (ranked_perm d J R Hr), all_buckets_nodup|]. unfold ids. apply fmap_take.
  - exact (jobs_of_claim d J R Hr w u now q now all_buckets ids all_buckets_nodup Hsub).
Qed.

Lemma redis_ClaimDue_run s J R q now n w u :
  reps (db s) J R → time_ok u →
  (∃ m msg, faults s (calls s) = Some m ∧ ClaimDue q now n w u s = Some (([], Some (ErrOther msg)), called s)) ∨
  ∃ ids out e s', ClaimDue q now n w u s = Some ((out, e), s') ∧
    reps (db s') (claim_entries w u now ids J) R ∧ redis_takes q now n (jobs_of J) (job_at J <$> ids) ∧
    jobs_of (claim_entries w u now ids J) = Spec.claim_all w u (job_at J <$> ids) (jobs_of J) ∧
    ((e = None ∧ Spec.job_view <$> out = Spec.claim_job w u <$> (job_at J <$> ids)) ∨
     (out = [] ∧ ids ≠ [] ∧ (∃ msg, e = Some (ErrOther msg)) ∧ ∃ i, faults s i ≠ None)).
Proof.
  intros Hr Hu. unfold ClaimDue, gbind, call. destruct (faults s (calls s)) as [m|] eqn:Hf.
  { left. exists m. eexists. split; [done|]. reflexivity. }
  right. destruct (claim_run (server_time s (calls s)) _ _ _ q now n w u Hr Hu)
    as (ids & d' & Hrun & Hr' & Hin & Htakes & Hjobs). rewrite Hrun.
  destruct ids as [|id ids].
  { cbn. exists [], [], None. eexists. split; [reflexivity|]. split; [exact Hr'|]. split; [done|].
    split; [done|]. by left. }
  set (l := id :: ids) in *. assert (Hl : l ≠ []) by done. unfold ClaimDue_fetch. unfold l at 1. fold l.
  unfold gbind, call. cbn [faults calls set_db called server_time db].
  destruct (faults s (S (calls s))) as [m|] eqn:Hf2.
  - exists l. do 3 eexists. split; [reflexivity|]. split; [exact Hr'|]. split; [done|]. split; [done|].
    right. split; [done|]. split; [done|]. split; [eauto|]. exists (S (calls s)). by rewrite Hf2.
  - destruct (fetch_run (server_time s (S (calls s))) d' _ _ l Hr') as (hs & Hget & Hv).
    { intros k Hk. destruct (Hin k Hk) as [x Hx]. exists (claim_entry w u now x).
      by rewrite claim_entries_lookup, decide_True, Hx by done. }
    rewrite Hget. exists l. do 3 eexists. split; [reflexivity|]. split; [exact Hr'|]. split; [done|].
    split; [done|]. left. split; [done|]. rewrite Hv. by apply claimed_view.
Qed.
