(* ===== verification/RedisProps.v ===== *)
(** What the Redis store guarantees: its methods keep the sorted sets and the
    hashes in step and act as the abstract store while a job saved again stays
    in its bucket; what a claim takes, up to the rounding of scores; recovery by
    the server's clock; leases that exclude other workers. And where it falls
    short of the contract. *)

From S2P Require Import Prelude ListLib Types StoreApi Text RedisEngine Redis RedisFacts RedisClaim.
From S2P Require Import RedisMethods.
From S2P Require Conformance.
Local Open Scope Z_scope.

(** ** Runs of the store *)

(** The calls the store accepts: as [call_ok] says of the job that [Save] stores, and
    with an end of the lock that reads back. *)
Definition op_ok (o : op) (sp : Spec.t) : Prop :=
  match o with
  | OMethod c => call_ok (as_stored c) sp
  | OClaim _ _ _ _ u => time_ok u
  | _ => True
  end.

(** What [Save] stores. *)
Lemma redis_as_stored c s : run_method (as_stored c) s = run_method c s.
Proof.
  destruct c as [j| | | | | | |]; try done. cbn [as_stored run_method st_Save redis_ops].
  assert (Hj : ∀ m, Job.MaxAttempts (Job.set_MaxAttempts m j) = m) by done.
  unfold stored_job. destruct (Job.MaxAttempts j =? 0) eqn:Hm.
  - unfold Save. rewrite Hj, Hm. reflexivity.
  - by destruct j.
Qed.

(** The result of a run, and the state it leaves. *)
Definition result {A} (m : GoM Store A) (s : Store) : option A := fst <$> m s.
Definition next {A} (m : GoM Store A) (s : Store) : Store :=
  match m s with Some (_, s') => s' | None => s end.

Lemma run_result {A} (m : GoM Store A) s a : result m s = Some a → m s = Some (a, next m s).
Proof. unfold result, next. destruct (m s) as [[x s']|]; [|done]. by intros [= <-]. Qed.

(** *** The calls that leave jobs and schedules alone *)

Lemma reps_other d J R d' :
  reps d J R →
  (∀ k, (∀ id, leaseKey id ≠ k) → workersKey ≠ k → d' !! k = d !! k) →
  (∀ id v, d' !! leaseKey id = Some v → ∃ s dl, v = VStr s dl) →
  (∀ v, d' !! workersKey = Some v → ∃ h, v = VHash h) →
  reps d' J R.
Proof.
  intros [H1 H2 H3 H4 H5 H6 H7 H8 H9] Hk Hlease Hworkers.
  assert (Hk' : ∀ k, (∀ id, leaseKey id ≠ k) → workersKey ≠ k → d' !! k = d !! k) by exact Hk.
  split; try done.
  - intros id. rewrite Hk' by (intros; key_ne). apply H1.
  - intros q p. rewrite Hk' by (intros; key_ne). apply H2.
  - rewrite Hk' by (intros; key_ne). apply H3.
  - rewrite Hk' by (intros; key_ne). apply H5.
  - intros id r Hr. rewrite Hk' by (intros; key_ne). by apply H6.
  - intros id Hid Hr. rewrite Hk' by (intros; key_ne). by apply H7.
Qed.

Lemma heartbeat_reps s J R w now :
  reps (db s) J R → ∃ e s', Heartbeat w now s = Some (e, s') ∧ reps (db s') J R.
Proof.
  intros Hr. unfold Heartbeat, gbind, call. destruct (faults s (calls s)); [cbn; by do 2 eexists|].
  assert (Hh : ∃ h, as_hash workersKey (server_time s (calls s)) (db s) = (inr h, db s)).
  { destruct (db s !! workersKey) as [v|] eqn:Hv.
    - destruct (r_workers _ _ _ Hr v Hv) as [h ->]. exists h. by apply as_hash_run.
    - exists ∅. by apply as_hash_none. }
  destruct Hh as [h Hh]. unfold HSET, cbind. rewrite Hh. cbn -[pairs]. do 2 eexists. split; [reflexivity|].
  cbn [db set_db]. apply (reps_other _ _ _ _ Hr).
  - intros k _ Hk. by apply lookup_partial_alter_ne.
  - intros id v. rewrite lookup_partial_alter_ne by key_ne. apply (r_lease _ _ _ Hr).
  - intros v. rewrite lookup_partial_alter_eq. intros [= <-]. eauto.
Qed.

(** [GET] on a lease. *)
Lemma lease_get t d J R id :
  reps d J R →
  GET (leaseKey id) t d =
    (inr (match get_key t (leaseKey id) d with Some (VStr w _) => Some w | _ => None end), d).
Proof.
  intros Hr. unfold GET, get_key. destruct (d !! leaseKey id) as [v|] eqn:Hv; [|done].
  destruct (r_lease _ _ _ Hr id v Hv) as (w & dl & ->). by destruct (live t (VStr w dl)).
Qed.

Lemma lease_run t d J R id w ttl :
  reps d J R →
  let holder := match get_key t (leaseKey id) d with Some (VStr w' _) => Some w' | _ => None end in
  let free := bool_decide (holder = None) || bool_decide (holder = Some w) in
  acquireLeaseScript (leaseKey id) w ttl t d =
    (inr (if free then 1 else 0),
     if free then set_key (leaseKey id) (Some (VStr w (Some (t + ttl * 10 ^ 6)))) d else d).
Proof.
  intros Hr holder free. unfold acquireLeaseScript. erewrite cbind_run by exact (lease_get _ _ _ _ _ Hr).
  fold holder. fold free. by destruct free.
Qed.

Lemma lease_reps s J R id u w :
  reps (db s) J R → ∃ r s', AcquireRecurringLease id u w s = Some (r, s') ∧ reps (db s') J R.
Proof.
  intros Hr. unfold AcquireRecurringLease, gbind at 1, time_Now.
  destruct (Time.Sub u (clock s (reads s)) <=? 0); [by do 2 eexists|].
  unfold gbind, call. cbn [faults calls db server_time clock reads].
  destruct (faults s (calls s)); [cbn; by do 2 eexists|]. rewrite (lease_run _ _ _ _ _ _ _ Hr).
  set (b := bool_decide _ || bool_decide _). set (ttl := if _ <? 1 then _ else _).
  do 2 eexists. split; [reflexivity|]. cbn [db set_db]. destruct b; [|done].
  apply (reps_other _ _ _ _ Hr).
  - intros k Hk _. by apply set_key_ne.
  - intros id' v. destruct (decide (leaseKey id = leaseKey id')) as [<-|Hne].
    + rewrite set_key_eq. intros [= <-]. eauto.
    + rewrite set_key_ne by done. apply (r_lease _ _ _ Hr).
  - intros v. rewrite set_key_ne by key_ne. apply (r_workers _ _ _ Hr).
Qed.

(** *** Calls that only read *)

Definition reads_only {A} (c : Cmd A) : Prop := ∀ t d, (c t d).2 = d.

Lemma as_hash_reads k : reads_only (as_hash k).
Proof. intros t d. unfold as_hash. by destruct (get_key t k d) as [[]|]. Qed.

Lemma as_zset_reads k : reads_only (as_zset k).
Proof. intros t d. unfold as_zset. by destruct (get_key t k d) as [[]|]. Qed.

Lemma as_set_reads k : reads_only (as_set k).
Proof. intros t d. unfold as_set. by destruct (get_key t k d) as [[]|]. Qed.

Lemma ZCARD_reads k : reads_only (ZCARD k).
Proof.
  intros t d. unfold ZCARD, cbind. pose proof (as_zset_reads k t d) as Hd.
  by destruct (as_zset k t d) as [[|]].
Qed.

Lemma pipe_reads {A} (cs : list (Cmd A)) : Forall reads_only cs → reads_only (pipe cs).
Proof.
  induction 1 as [|c cs Hc _ IH]; intros t d; [done|]. cbn [pipe]. pose proof (Hc t d) as H1.
  destruct (c t d) as [r d1]. cbn in H1. subst d1. pose proof (IH t d) as H2.
  destruct (pipe cs t d) as [rs d2]. exact H2.
Qed.

Lemma call_reads {A} (c : Cmd A) s : reads_only c → ∃ r, call c s = Some (r, set_db (db s) (called s)).
Proof.
  intros Hc. unfold call. destruct (faults s (calls s)); [by eexists|].
  pose proof (Hc (server_time s (calls s)) (db s)) as Hd. destruct (c _ _) as [r d]. cbn in Hd. subst. eauto.
Qed.

(** The next round trip, one that only reads. *)
Ltac read_call :=
  match goal with
  | |- context [call ?c ?s] =>
      destruct (call_reads c s) as [[?|?] ->];
        [first [apply as_set_reads | apply pipe_reads, Forall_fmap, Forall_true; intros ?;
                first [apply as_hash_reads | apply ZCARD_reads]]
        |by do 2 eexists|]
  end.

Lemma list_same s : ∃ r s', ListRecurring s = Some (r, s') ∧ db s' = db s.
Proof.
  unfold ListRecurring, gbind. read_call. unfold gget.
  destruct (order _ _) as [|id ids]; [by do 2 eexists|]. unfold gbind. read_call. by do 2 eexists.
Qed.

Lemma size_same s q : ∃ r s', QueueSize q s = Some (r, s') ∧ db s' = db s.
Proof. unfold QueueSize, gbind. read_call. by do 2 eexists. Qed.

Lemma recover_answer s J R now :
  reps (db s) J R →
  (∃ msg, faults s (calls s) ≠ None ∧ RecoverStale now s = Some ((0, Some (ErrOther msg)), called s)) ∨
  ∃ stale s' upd, RecoverStale now s = Some ((Z.of_nat (length stale), None), s') ∧
    reps (db s') (alter_all (release_entry upd) stale J) R ∧ NoDup stale ∧
    let t := server_time s (calls s) in
    ∀ id, id ∈ stale ↔ ∃ x, J !! id = Some x ∧ Job.State x.1 = StateClaimed ∧
                            1 ≤ score (Job.LockedUntil x.1) ≤ lua_nanos (t / 10 ^ 6, t mod 10 ^ 6).
Proof.
  intros Hr. unfold RecoverStale, gbind, call. destruct (faults s (calls s)) as [m|] eqn:Hf.
  { left. eexists. by split. }
  right. destruct (recover_run (server_time s (calls s)) _ _ _ Hr) as (stale & d' & Hrun & Hr' & Hnd & Hin).
  rewrite Hrun. exists stale. do 2 eexists. split; [reflexivity|]. by split.
Qed.

(** ** The invariant over whole runs *)

(** The states the store can reach: from a server without keys, by calls with
    arguments it accepts. *)
Inductive reachable : Store → Prop :=
  | reach_new s : db s = ∅ → reachable s
  | reach_op s sp o s' :
      reachable s → shows s sp → op_ok o sp → run_op o s = Some (tt, s') → reachable s'.

Lemma shows_new s : db s = ∅ → shows s (Spec.mk ∅ ∅).
Proof.
  intros Hd. exists ∅, ∅. split; [|done]. rewrite Hd. split; try done. by left.
Qed.

Lemma run_shows o s sp : shows s sp → op_ok o sp → ∃ s' sp', run_op o s = Some (tt, s') ∧ shows s' sp'.
Proof.
  intros (J & R & Hr & ->) Hok. destruct o; cbn [run_op op_ok] in *; unfold gbind, gret; cbn [st_ClaimDue st_Heartbeat st_RecoverStale st_ListRecurring st_AcquireRecurringLease st_QueueSize redis_ops].
  - destruct (redis_method s J R Hr _ Hok) as (e & s' & sp' & Hrun & Hs & _).
    rewrite redis_as_stored in Hrun. rewrite Hrun. eauto.
  - destruct (redis_ClaimDue_run s J R q now n w u Hr Hok) as [(m & msg & _ & ->)|(ids & out & e & s' & -> & Hr' & _)].
    + exists (called s), (spec_of J R). split; [done|]. by exists J, R.
    + do 2 eexists. split; [reflexivity|]. do 2 eexists. split; [exact Hr'|reflexivity].
  - destruct (heartbeat_reps s J R w now Hr) as (e & s' & -> & Hr'). do 2 eexists. split; [reflexivity|]. by exists J, R.
  - destruct (recover_answer s J R now Hr) as [(msg & _ & ->)|(stale & s' & upd & -> & Hr' & _)].
    + exists (called s), (spec_of J R). split; [done|]. by exists J, R.
    + do 2 eexists. split; [reflexivity|]. do 2 eexists. split; [exact Hr'|reflexivity].
  - destruct (list_same s) as (r & s' & -> & Hd). do 2 eexists. split; [reflexivity|].
    exists J, R. rewrite Hd. by split.
  - destruct (lease_reps s J R id u w Hr) as (r & s' & -> & Hr'). do 2 eexists. split; [reflexivity|]. by exists J, R.
  - destruct (size_same s q) as (r & s' & -> & Hd). do 2 eexists. split; [reflexivity|].
    exists J, R. rewrite Hd. by split.
Qed.

Lemma reachable_shows s : reachable s → ∃ sp, shows s sp.
Proof.
  induction 1 as [s Hd|s sp o s' _ _ Hs Hok Hrun]; [eexists; by apply shows_new|].
  destruct (run_shows o s sp Hs Hok) as (s1 & sp1 & Hrun1 & Hs1). rewrite Hrun in Hrun1.
  injection Hrun1 as <-. eauto.
Qed.

(** The score of a member of a sorted set, and the job a hash holds. *)
Definition zscore (k id : string) (s : Store) : option Z :=
  match db s !! k with Some (VZSet z) => z !! id | _ => None end.
Definition stored (s : Store) (id : string) : option Job.t :=
  match db s !! jobKey id with Some (VHash h) => Some (deserializeJob h) | _ => None end.

Lemma zscore_reps s k z : db s !! k = zset_value z → ∀ id, zscore k id s = z !! id.
Proof. unfold zscore, zset_value. intros -> id. by case_decide; subst. Qed.

Lemma stored_reps s J R id :
  reps (db s) J R → stored s id = (λ x, deserializeJob (job_hash x.1 x.2)) <$> J !! id.
Proof. intros Hr. unfold stored. rewrite (r_jobs _ _ _ Hr). by destruct (J !! id). Qed.

(** What a field of the contract reads from the hash. *)
Lemma stored_field {A} (f : Job.t → A) j upd :
  job_fits j → (∀ j, f (Spec.job_view j) = f j) → f (deserializeJob (job_hash j upd)) = f j.
Proof. intros Hfit Hf. by rewrite <- Hf, (job_hash_view _ _ Hfit), Hf. Qed.

Lemma stored_entry s J R id j :
  reps (db s) J R → stored s id = Some j →
  ∃ x, J !! id = Some x ∧ Job.ID j = id ∧ Job.Queue j = Job.Queue x.1 ∧ Job.Priority j = Job.Priority x.1 ∧
       Job.State j = Job.State x.1 ∧ Job.RunAt j = Job.RunAt x.1 ∧ Job.LockedUntil j = Job.LockedUntil x.1.
Proof.
  intros Hr. rewrite (stored_reps _ _ _ _ Hr). destruct (J !! id) as [x|] eqn:Hx; [|done].
  cbn [fmap option_fmap option_map]. intros Hj. assert (j = deserializeJob (job_hash x.1 x.2)) as -> by congruence.
  destruct (r_fits _ _ _ Hr id x Hx) as [Hid Hfit]. exists x. split; [done|].
  rewrite <- Hid. split_and!; [apply (stored_field Job.ID)|apply (stored_field Job.Queue)|
    apply (stored_field Job.Priority)|apply (stored_field Job.State)|apply (stored_field Job.RunAt)|
    apply (stored_field Job.LockedUntil)]; done.
Qed.

Lemma entry_stored s J R id x :
  reps (db s) J R → J !! id = Some x → ∃ j, stored s id = Some j.
Proof. intros Hr Hx. rewrite (stored_reps _ _ _ _ Hr), Hx. eauto. Qed.

(** ** Properties *)

(** C23: after any calls from a server without keys, round trips that fail included,
    of which every [Save] is of a pending job that is new or stays in the
    bucket it is pending in, none names a schedule [all], and the times and
    numbers are ones the store reads back: every job key holds the hash of that
    job, and the sorted sets say what the hashes say: a job is in the bucket of
    a queue and a priority, under the score of its time, exactly when its
    hash is that of a pending job of theirs, and in the set of claims, under the
    end of its lock, exactly when it is claimed. *)
Theorem redis_invariant (s : Store) :
  reachable s →
  (∀ id v, db s !! jobKey id = Some v → ∃ h, v = VHash h ∧ Job.ID (deserializeJob h) = id) ∧
  (∀ q p id sc, zscore (pendingKey q p) id s = Some sc ↔
     ∃ j, stored s id = Some j ∧ Job.State j = StatePending ∧ Job.Queue j = q ∧ Job.Priority j = p ∧
          sc = score (Job.RunAt j)) ∧
  (∀ id sc, zscore claimedKey id s = Some sc ↔
     ∃ j, stored s id = Some j ∧ Job.State j = StateClaimed ∧ sc = score (Job.LockedUntil j)).
Proof.
  intros (sp & J & R & Hr & _)%reachable_shows. split; [|split].
  - intros id v Hv. pose proof (r_jobs _ _ _ Hr id) as Hj. rewrite Hv in Hj.
    destruct (J !! id) as [x|] eqn:Hx; [|done]. exists (job_hash x.1 x.2). split; [by injection Hj|].
    destruct (r_fits _ _ _ Hr id x Hx) as [<- Hfit]. by apply (stored_field Job.ID).
  - intros q p id sc. rewrite (zscore_reps _ _ _ (r_pending _ _ _ Hr q p)), bucket_lookup. split.
    + intros (x & Hx & (Hq & Hs & Hp)%in_bucket_spec & ->). destruct (entry_stored s J R id x Hr Hx) as [j Hj].
      destruct (stored_entry s J R id j Hr Hj) as (y & Hy & _ & H1 & H2 & H3 & H4 & _).
      rewrite Hx in Hy. injection Hy as <-. exists j. rewrite H1, H2, H3, H4. done.
    + intros (j & Hj & Hs & Hq & Hp & ->).
      destruct (stored_entry s J R id j Hr Hj) as (x & Hx & _ & H1 & H2 & H3 & H4 & _).
      exists x. split; [done|]. rewrite <- H4. split; [|done]. apply in_bucket_spec. by rewrite <- H1, <- H2, <- H3.
  - intros id sc. rewrite (zscore_reps _ _ _ (r_claimed _ _ _ Hr)), claims_lookup. split.
    + intros (x & Hx & Hs & ->). destruct (entry_stored s J R id x Hr Hx) as [j Hj].
      destruct (stored_entry s J R id j Hr Hj) as (y & Hy & _ & _ & _ & H3 & _ & H5).
      rewrite Hx in Hy. injection Hy as <-. exists j. by rewrite H3, H5.
    + intros (j & Hj & Hs & ->).
      destruct (stored_entry s J R id j Hr Hj) as (x & Hx & _ & _ & _ & H3 & _ & H5).
      exists x. by rewrite <- H3, <- H5.
Qed.

(** C24: from the contents [sp], each method answers and changes the contents as the
    abstract store does, provided that a job saved is pending and new, or pending
    in the bucket it stays in ([Save] taking three attempts for a [MaxAttempts]
    of zero), that no schedule is called [all], and that the times and
    numbers are ones the store reads back; only a round trip that fails, taken
    not to have reached the server, makes it report an infrastructure error,
    and then the contents are as before. *)
Theorem redis_refines (c : method) (s : Store) (sp : Spec.t) :
  shows s sp → call_ok (as_stored c) sp →
  ∃ e s' sp', run_method c s = Some (e, s') ∧ shows s' sp' ∧
    ((e, sp') = spec_method (as_stored c) sp ∨
     ((∃ msg, e = Some (ErrOther msg)) ∧ sp' = sp ∧ ∃ i, faults s i ≠ None)).
Proof. intros (J & R & Hr & ->) Hc. rewrite <- redis_as_stored. exact (redis_method s J R Hr _ Hc). Qed.

(** C25: from contents whose sorted sets are in step with the hashes (the states of
    C23), a claim takes the first [n] due jobs of the four named priorities, from
    the highest to the lowest and by score within a priority, claims all of them
    for the worker and no other job, and returns them in that order. When the
    first round trip fails, taken not to have reached the server, nothing is
    claimed; when the jobs cannot be read afterwards they stay claimed although
    the call returns none of them. *)
Theorem redis_claim (s : Store) (sp : Spec.t) (q : string) (now n : Z) (w : string) (u : Z) :
  shows s sp → time_ok u →
  ∃ out e s' sp', ClaimDue q now n w u s = Some ((out, e), s') ∧ shows s' sp' ∧
    ((out = [] ∧ (∃ msg, e = Some (ErrOther msg)) ∧ sp' = sp ∧ faults s (calls s) ≠ None) ∨
     ∃ js, redis_takes q now n (Spec.jobs sp) js ∧
       sp' = Spec.set_jobs (Spec.claim_all w u js (Spec.jobs sp)) sp ∧
       ((e = None ∧ Spec.job_view <$> out = Spec.claim_job w u <$> js) ∨
        (out = [] ∧ js ≠ [] ∧ (∃ msg, e = Some (ErrOther msg)) ∧ ∃ i, faults s i ≠ None))).
Proof.
  intros (J & R & Hr & ->) Hu.
  destruct (redis_ClaimDue_run s J R q now n w u Hr Hu)
    as [(m & msg & Hf & Hrun)|(ids & out & e & s' & Hrun & Hr' & Htakes & Hjobs & Hout)].
  - exists [], (Some (ErrOther msg)), (called s), (spec_of J R). split; [exact Hrun|].
    split; [by exists J, R|]. left. rewrite Hf. eauto.
  - exists out, e, s', (spec_of (claim_entries w u now ids J) R). split; [exact Hrun|].
    split; [by do 2 eexists|]. right. exists (job_at J <$> ids). split; [exact Htakes|]. split.
    + unfold spec_of, Spec.set_jobs. cbn. by rewrite Hjobs.
    + destruct Hout as [?|(? & Hne & ?)]; [by left|]. right. split; [done|]. split; [|done].
      by destruct ids.
Qed.

(** *** Rounding *)

Lemma score_near t : Z.abs (score t - time_num t) ≤ 512.
Proof. apply to_double_near, time_num_range. Qed.

Lemma score_mono a b : time_num a ≤ time_num b → score a ≤ score b.
Proof. apply to_double_mono. Qed.

Lemma score_gap a b : score a ≤ score b → time_num a ≤ time_num b + 1024.
Proof. pose proof (score_near a). pose proof (score_near b). lia. Qed.

Lemma takes_elem q now n m js j :
  redis_takes q now n m js → j ∈ js → redis_due all_buckets q now j = true ∧ ∃ k, m !! k = Some j.
Proof.
  intros (srt & _ & Hp & ->) Hj.
  assert (Hs : j ∈ srt) by (eapply elem_of_sublist; [exact Hj|apply sublist_take]).
  rewrite Hp in Hs. apply list_elem_of_filter in Hs as [Hd Hin]. split; [done|].
  apply list_elem_of_fmap in Hin as ([k j'] & -> & Hk). exists k. by apply elem_of_map_to_list.
Qed.

(** What is due and not taken comes after all that is, and only when [n] jobs
    are taken. *)
Lemma takes_left q now n m js k j :
  redis_takes q now n m js → m !! k = Some j → redis_due all_buckets q now j = true → j ∉ js →
  Z.of_nat (length js) = Z.max 0 n ∧ Forall (λ c, le_of redis_less c j) js.
Proof.
  intros (srt & Hs & Hp & ->) Hk Hd Hj.
  assert (Hin : j ∈ srt).
  { rewrite Hp. apply list_elem_of_filter. split; [done|]. apply list_elem_of_fmap.
    exists (k, j). split; [done|]. by apply elem_of_map_to_list. }
  split; [|by apply sorted_prefix_best].
  rewrite length_take. destruct (Nat.le_gt_cases (length srt) (Z.to_nat n)) as [Hl|Hl]; [|lia].
  by rewrite take_ge in Hj.
Qed.

(** C26: scores are doubles, so a job may be claimed before its time, but by
    1024 nanoseconds at most; and a job of one of the four named priorities that is
    due is left by a claim without an error only when [n] jobs are claimed, each
    of a higher priority, or of the same and no more than 1024 nanoseconds
    later. *)
Theorem redis_claim_rounding (s s' : Store) (sp : Spec.t) (q : string) (now n : Z) (w : string) (u : Z)
    (out : list Job.t) :
  shows s sp → time_ok u → ClaimDue q now n w u s = Some ((out, None), s') →
  (∀ c, c ∈ out → time_num (Job.RunAt c) ≤ time_num now + 1024) ∧
  (∀ k j, Spec.jobs sp !! k = Some j → Spec.pending_in q j = true → Job.Priority j ∈ all_buckets →
     time_num (Job.RunAt j) ≤ time_num now → k ∉ Spec.ids out →
     Z.of_nat (length out) = Z.max 0 n ∧
     Forall (λ c, Job.Priority j < Job.Priority c ∨
                  Job.Priority c = Job.Priority j ∧
                  time_num (Job.RunAt c) ≤ time_num (Job.RunAt j) + 1024) out).
Proof.
  intros (J & R & Hr & ->) Hu Hrun.
  destruct (redis_ClaimDue_run s J R q now n w u Hr Hu)
    as [(m & msg & Hf & Hrun')|(ids & out' & e & s1 & Hrun' & Hr' & Htakes & _ & Hout)];
    rewrite Hrun in Hrun'; [congruence|]. injection Hrun' as <- <- <-.
  destruct Hout as [[_ Hv]|(_ & _ & [? ?] & _)]; [|done]. set (js := job_at J <$> ids) in *.
  assert (Hc : ∀ c, c ∈ out → ∃ j, j ∈ js ∧ Spec.job_view c = Spec.claim_job w u j).
  { intros c Hc. apply (list_elem_of_fmap_2 Spec.job_view) in Hc. rewrite Hv in Hc.
    apply list_elem_of_fmap in Hc as (j & ? & ?). eauto. }
  assert (Hkeys : Spec.ids out = Spec.ids js).
  { unfold Spec.ids. transitivity (Job.ID <$> (Spec.job_view <$> out)); [by rewrite <- list_fmap_compose|].
    rewrite Hv. by rewrite <- list_fmap_compose. }
  assert (Hlen : length out = length js).
  { rewrite <- (length_fmap Spec.job_view out), Hv. apply length_fmap. }
  split.
  - intros c (j & Hj & Hcj)%Hc. destruct (takes_elem _ _ _ _ _ _ Htakes Hj) as [Hd _].
    change (Job.RunAt c) with (Job.RunAt (Spec.job_view c)). rewrite Hcj. cbn.
    apply score_gap. unfold redis_due in Hd. lia.
  - intros k j Hk Hp Hprio Hdue Hnin. cbn in Hk. rewrite Hkeys in Hnin. rewrite Hlen.
    destruct (takes_left _ _ _ _ _ k j Htakes Hk) as [H1 H2].
    + unfold redis_due. rewrite Hp, bool_decide_eq_true_2 by done. pose proof (score_mono _ _ Hdue). lia.
    + intros Hj. apply Hnin. rewrite <- (jobs_of_keyed _ _ _ Hr k j Hk). by apply list_elem_of_fmap_2.
    + split; [done|]. apply Forall_forall. intros c (i & Hi & Hci)%Hc.
      change (Job.RunAt c) with (Job.RunAt (Spec.job_view c)).
      change (Job.Priority c) with (Job.Priority (Spec.job_view c)). rewrite Hci. cbn.
      rewrite Forall_forall in H2. specialize (H2 i Hi). unfold le_of, redis_less in H2.
      destruct (Z.eqb_spec (Job.Priority j) (Job.Priority i)) as [He|Hne]; cbn in H2; [|left; lia].
      right. split; [done|]. apply score_gap. lia.
Qed.

(** *** Recovery *)

(** C27: recovery goes by the server's clock alone: it puts claimed jobs back to
    pending and leaves all the others as they are; every claimed job whose lock
    has ended goes back, and every one whose lock goes on for more than
    1024 nanoseconds stays claimed (scores are doubles: in between, either may
    happen); a first round trip that fails, taken not to have reached the server,
    recovers nothing. *)
Theorem redis_recovery (s : Store) (sp : Spec.t) (now : Z) :
  shows s sp → 0 ≤ server_time s (calls s) * 1000 < 2 ^ 62 →
  ∃ n e s' sp', RecoverStale now s = Some ((n, e), s') ∧ shows s' sp' ∧
    ((n = 0 ∧ (∃ msg, e = Some (ErrOther msg)) ∧ sp' = sp ∧ faults s (calls s) ≠ None) ∨
     (e = None ∧ Spec.recovered (Spec.jobs sp) (Spec.jobs sp') n ∧
      Spec.recurring sp' = Spec.recurring sp ∧
      ∀ k j, Spec.jobs sp !! k = Some j → Job.State j = StateClaimed →
        let t := server_time s (calls s) * 1000 in
        (1 ≤ time_num (Job.LockedUntil j) ≤ t → Spec.jobs sp' !! k = Some (Spec.release_job j)) ∧
        (t + 1024 < time_num (Job.LockedUntil j) → Spec.jobs sp' !! k = Some j))).
Proof.
  intros (J & R & Hr & ->) Ht.
  destruct (recover_answer s J R now Hr) as [(msg & Hf & Hrun)|(stale & s' & upd & Hrun & Hr' & Hnd & Hin)].
  { do 2 eexists. exists (called s), (spec_of J R). split; [exact Hrun|]. split; [by exists J, R|]. left. eauto. }
  cbn zeta in Hin. rewrite lua_nanos_time in Hin by done. set (t := server_time s (calls s) * 1000) in *.
  assert (Hk : ∀ k, jobs_of (alter_all (release_entry upd) stale J) !! k =
                    if decide (k ∈ stale) then Spec.release_job <$> jobs_of J !! k else jobs_of J !! k).
  { intros k. rewrite !redis_jobs_lookup, alter_all_lookup by done. case_decide; [|done]. by destruct (J !! k). }
  do 2 eexists. exists s', (spec_of (alter_all (release_entry upd) stale J) R). split; [exact Hrun|].
  split; [by do 2 eexists|]. right. split; [done|]. split; [|split; [done|]].
  - exists stale. split; [done|]. split; [done|]. split; intros k Hks; cbn; rewrite Hk.
    + pose proof (proj1 (Hin k) Hks) as (x & Hx & Hs & _). exists (Spec.job_view x.1).
      rewrite decide_True, redis_jobs_lookup, Hx by done. done.
    + by rewrite decide_False.
  - intros k j Hj Hs. cbn in Hj |- *. rewrite Hk, Hj. rewrite redis_jobs_lookup in Hj.
    destruct (J !! k) as [x|] eqn:Hx; [|done]. injection Hj as <-. cbn in Hs |- *. split; intros Hl.
    + rewrite decide_True; [done|]. apply Hin. exists x. split; [done|]. split; [done|].
      unfold score. rewrite <- (to_double_small 1) at 1 by lia. split; apply to_double_mono; lia.
    + rewrite decide_False; [done|]. intros (y & Hy & _ & Hle)%Hin. rewrite Hx in Hy. injection Hy as <-.
      pose proof (score_near (Job.LockedUntil x.1)).
      assert (Hti : in_int64 t) by int64_lia. pose proof (to_double_near t Hti). lia.
Qed.

(** ** A server for the witnesses *)

Definition demo_redis (fails : nat → option string) (server : nat → Z) : Store :=
  mkServer ∅ fails 0 (λ n, 10 ^ 18 + Z.of_nat n) 0 server elements.

Definition demo_redis_job (id q : string) (p t : Z) : Job.t :=
  {| Job.ID := id; Job.Name := "n"; Job.Queue := q; Job.Priority := p; Job.Payload := [];
     Job.CodecName := ""; Job.RunAt := t; Job.Attempt := 0; Job.MaxAttempts := 3; Job.State := 0;
     Job.Delivery := 0; Job.Timeout := 0; Job.LockedBy := ""; Job.LockedUntil := Time.zero;
     Job.LastError := ""; Job.RecurringID := ""; Job.CreatedAt := 7; Job.UpdatedAt := 7;
     Job.catchup := false |}.

Definition demo_low : Job.t := demo_redis_job "low" "default" PriorityLow 1000.
Definition demo_high : Job.t := demo_redis_job "high" "default" PriorityHigh 3000.

Lemma demo_fits id q p t : 0 ≤ p < 256 → 0 < t < 2 ^ 62 → job_fits (demo_redis_job id q p t).
Proof.
  intros Hp Ht. split; cbn; try int64_lia; try lia; [|by left]. right. split; [int64_lia|lia].
Qed.

(** The store once the two jobs are saved. *)
Definition demo_server : Store := demo_redis (λ _, None) (λ _, 10 ^ 15).
Definition demo_one : Store := next (run_op (OMethod (MSave demo_low))) demo_server.
Definition demo_two : Store := next (run_op (OMethod (MSave demo_high))) demo_one.
Definition demo_spec_one : Spec.t := (Spec.save demo_low (Spec.mk ∅ ∅)).2.
Definition demo_spec_two : Spec.t := (Spec.save demo_high demo_spec_one).2.

Lemma save_shows s sp j :
  shows s sp → call_ok (MSave j) sp → (∀ i, faults s i = None) →
  run_op (OMethod (MSave j)) s = Some (tt, next (run_op (OMethod (MSave j))) s) ∧
  shows (next (run_op (OMethod (MSave j))) s) (Spec.save j sp).2.
Proof.
  intros (J & R & Hr & ->) Hc Hf. destruct (redis_method s J R Hr (MSave j) Hc) as (e & s' & sp' & Hrun & Hs & Ht).
  unfold next, run_op, gbind, gret. rewrite Hrun. split; [done|].
  destruct Ht as [Ht|(_ & _ & i & Hi)]; [|by rewrite Hf in Hi].
  apply (f_equal snd) in Ht. change (sp' = (Spec.save j (spec_of J R)).2) in Ht. by rewrite <- Ht.
Qed.

Lemma demo_new_ok j sp : job_fits j → Job.State j = StatePending → Job.MaxAttempts j ≠ 0 →
  Spec.jobs sp !! Job.ID j = None → call_ok (MSave j) sp.
Proof. intros ? ? ? Hn. split_and!; [done..|]. intros j0 Hj. congruence. Qed.

Lemma demo_low_ok : call_ok (MSave demo_low) (Spec.mk ∅ ∅).
Proof. apply demo_new_ok; [apply demo_fits; unfold PriorityLow, PriorityHigh; lia|done|done|done]. Qed.

Lemma demo_high_ok : call_ok (MSave demo_high) demo_spec_one.
Proof. apply demo_new_ok; [apply demo_fits; unfold PriorityLow, PriorityHigh; lia|done|done|by vm_compute]. Qed.

Lemma demo_one_shows : shows demo_one demo_spec_one.
Proof. apply (save_shows demo_server _ demo_low); [by apply shows_new|apply demo_low_ok|done]. Qed.

Lemma demo_two_shows : shows demo_two demo_spec_two.
Proof. apply (save_shows demo_one _ demo_high); [apply demo_one_shows|apply demo_high_ok|by intros i; vm_compute]. Qed.

Lemma demo_two_reachable : reachable demo_two.
Proof.
  apply (reach_op demo_one demo_spec_one (OMethod (MSave demo_high))); [|apply demo_one_shows|apply demo_high_ok|].
  - apply (reach_op demo_server (Spec.mk ∅ ∅) (OMethod (MSave demo_low))); [by apply reach_new|by apply shows_new|
      apply demo_low_ok|]. apply run_result. by vm_compute.
  - apply run_result. by vm_compute.
Qed.

(** An empty server passes the conformance suite. *)
Example redis_conforms :
  forallb (λ t, match t.2 (λ n, 10 ^ 18 + 1000 * Z.of_nat n) (demo_redis (λ _, None) (λ _, 10 ^ 15)) with
                | Some (true, _) => true
                | _ => false
                end) Conformance.Run = true.
Proof. vm_compute. reflexivity. Qed.

(** A job saved again under another queue stays in the bucket of the old one.
    Once it is cancelled, a claim of the old queue makes a hash out of nothing
    and returns a job without an identifier. *)
Example redis_stale_member :
  let m := gbind (Save (demo_redis_job "j" "other" PriorityNormal 2000)) (λ _,
           gbind (Save (demo_redis_job "j" "default" PriorityNormal 2000)) (λ _,
           gbind (QueueSize "other") (λ n,
           gbind (Cancel "j") (λ e,
           gbind (ClaimDue "other" 5000 10 "w" 9000) (λ out,
           gret (n, e, Job.ID <$> out.1)))))) in
  result m demo_server = Some ((1, None), None, [""]).
Proof. vm_compute. reflexivity. Qed.

(** A job of a priority above [PriorityCritical] is never claimed nor
    counted. *)
Example redis_priority_lost :
  let m := gbind (Save (demo_redis_job "j" "default" 4 2000)) (λ e,
           gbind (QueueSize "default") (λ n,
           gbind (ClaimDue "default" 5000 10 "w" 9000) (λ out, gret (e, n, out)))) in
  result m demo_server = Some (None, (0, None), ([], None)).
Proof. vm_compute. reflexivity. Qed.

(** After a recovery [updated_at] is a text that reads back as the zero time. *)
Example redis_updated_at_lost :
  let m := gbind (Save (demo_redis_job "j" "default" PriorityNormal 2000)) (λ _,
           gbind (ClaimDue "default" 5000 10 "w" 9000) (λ _,
           gbind (RecoverStale 0) (λ n, gret n))) in
  let s := next m demo_server in
  result m demo_server = Some (1, None) ∧
  (Job.UpdatedAt <$> stored s "j") = Some Time.zero.
Proof. by vm_compute. Qed.

(** When the claimed jobs cannot be read the call fails, and they stay claimed
    until their lock ends. *)
Example redis_claim_unread :
  let s := demo_redis (λ n, if (n =? 2)%nat then Some "i/o timeout" else None) (λ _, 10 ^ 15) in
  let m := gbind (Save (demo_redis_job "j" "default" PriorityNormal 2000)) (λ _,
           gbind (ClaimDue "default" 5000 10 "w" 9000) (λ out, gret out)) in
  result m s = Some ([], Some (ErrOther "redis claim hgetall: i/o timeout")) ∧
  (Job.State <$> stored (next m s) "j") = Some StateClaimed.
Proof. by vm_compute. Qed.

(** A schedule named [all] takes the key of the index: the call reports an
    error, having replaced nothing less than the index itself. *)
Example redis_all_schedule :
  let r := {| RecurringSpec.ID := "all"; RecurringSpec.Name := "n"; RecurringSpec.Queue := "default";
              RecurringSpec.Priority := 1; RecurringSpec.Payload := []; RecurringSpec.CodecName := "";
              RecurringSpec.Delivery := 0; RecurringSpec.Timeout := 0; RecurringSpec.MaxAttempts := 3;
              RecurringSpec.Cron := ""; RecurringSpec.Every := Second; RecurringSpec.Catchup := false;
              RecurringSpec.LeaseUntil := Time.zero; RecurringSpec.LeasedBy := "";
              RecurringSpec.NextRunAt := 50; RecurringSpec.LastFireAt := Time.zero |} in
  let m := gbind (UpsertRecurring r) (λ e, gbind ListRecurring (λ l, gret (e, l))) in
  result m demo_server =
    Some (Some (ErrOther ("redis upsert recurring: " +:+ wrongtype)),
          ([], Some (ErrOther ("redis list recurring: " +:+ wrongtype)))).
Proof. vm_compute. reflexivity. Qed.

(** *** Witnesses *)

Lemma redis_invariant_witness :
  zscore (pendingKey "default" PriorityHigh) "high" demo_two = Some 3000 ∧
  ∃ j, stored demo_two "high" = Some j ∧ Job.State j = StatePending ∧ Job.Queue j = "default" ∧
       Job.Priority j = PriorityHigh ∧ 3000 = score (Job.RunAt j).
Proof.
  assert (Hz : zscore (pendingKey "default" PriorityHigh) "high" demo_two = Some 3000) by (vm_compute; reflexivity).
  split; [exact Hz|].
  destruct (redis_invariant demo_two demo_two_reachable) as (_ & Hp & _).
  by apply Hp.
Defined.

(** A job with no bound. *)
Definition demo_free : Job.t := Job.set_MaxAttempts 0 (demo_redis_job "free" "default" PriorityNormal 2000).

Lemma redis_refines_witness :
  (∃ e s' sp', run_method (MSave demo_free) demo_two = Some (e, s') ∧ shows s' sp' ∧
    ((e, sp') = spec_method (MSave (stored_job demo_free)) demo_spec_two ∨
     ((∃ msg, e = Some (ErrOther msg)) ∧ sp' = demo_spec_two ∧ ∃ i, faults demo_two i ≠ None))) ∧
  (Job.MaxAttempts <$> stored (next (run_method (MSave demo_free)) demo_two) "free") = Some 3.
Proof.
  split; [|vm_compute; reflexivity].
  apply (redis_refines (MSave demo_free) demo_two demo_spec_two); [apply demo_two_shows|].
  apply demo_new_ok; [|done|done|by vm_compute].
  apply (demo_fits "free" "default" PriorityNormal 2000); unfold PriorityNormal; lia.
Defined.

Lemma redis_claim_witness :
  ∃ out e s' sp', ClaimDue "default" 5000 1 "w" 9000 demo_two = Some ((out, e), s') ∧ shows s' sp' ∧
    Job.ID <$> out = ["high"] ∧
    ∃ js, redis_takes "default" 5000 1 (Spec.jobs demo_spec_two) js.
Proof.
  destruct (redis_claim demo_two demo_spec_two "default" 5000 1 "w" 9000)
    as (out & e & s' & sp' & Hrun & Hs & Hout); [apply demo_two_shows|right; split; [int64_lia|lia]|].
  exists out, e, s', sp'. split; [exact Hrun|]. split; [exact Hs|].
  assert (Hids : (λ r : list Job.t * option error, Job.ID <$> r.1) <$> result (ClaimDue "default" 5000 1 "w" 9000) demo_two = Some ["high"])
    by (vm_compute; reflexivity).
  unfold result in Hids. rewrite Hrun in Hids. injection Hids as Hids. split; [exact Hids|].
  destruct Hout as [(-> & _)|(js & Hjs & _)]; [discriminate Hids|]. by exists js.
Defined.

Lemma redis_claim_rounding_witness :
  ∃ out s', ClaimDue "default" 5000 1 "w" 9000 demo_two = Some ((out, None), s') ∧
    Forall (λ c, Job.Priority demo_low < Job.Priority c ∨
                 Job.Priority c = Job.Priority demo_low ∧
                 time_num (Job.RunAt c) ≤ time_num (Job.RunAt demo_low) + 1024) out.
Proof.
  set (m := ClaimDue "default" 5000 1 "w" 9000).
  destruct (result m demo_two) as [[out e]|] eqn:Hr; [|vm_compute in Hr; discriminate].
  assert (He : e = None) by (vm_compute in Hr; by injection Hr as _ <-).
  assert (Hids : Spec.ids out = ["high"]) by (vm_compute in Hr; injection Hr as <- _; vm_compute; reflexivity).
  subst e. apply run_result in Hr. exists out, (next m demo_two). split; [exact Hr|].
  destruct (redis_claim_rounding demo_two _ demo_spec_two "default" 5000 1 "w" 9000 out demo_two_shows
    ltac:(right; split; [int64_lia|lia]) Hr) as [_ Hleft].
  apply (Hleft "low" (Spec.job_view demo_low)).
  - vm_compute. reflexivity.
  - vm_compute. reflexivity.
  - apply (bool_decide_unpack _). reflexivity.
  - vm_compute. discriminate.
  - rewrite Hids. intros [Hx|Hx]%elem_of_cons; [discriminate|by apply elem_of_nil in Hx].
Defined.

(** One job claimed with a lock that has ended by the server's clock, and one with a
    lock that has not. *)
Definition demo_ended : Store := next (run_op (OClaim "default" 5000 1 "w" 9000)) demo_two.
Definition demo_locked : Store := next (run_op (OClaim "default" 5000 1 "w" (2 * 10 ^ 18))) demo_ended.

Lemma demo_claim_reachable s sp w u :
  reachable s → shows s sp → time_ok u → reachable (next (run_op (OClaim "default" 5000 1 w u)) s).
Proof.
  intros Hr Hs Hu. destruct (run_shows (OClaim "default" 5000 1 w u) s sp Hs Hu) as (s' & sp' & Hrun & _).
  unfold next. rewrite Hrun. by apply (reach_op s sp (OClaim "default" 5000 1 w u)).
Qed.

Lemma demo_locked_shows : ∃ sp, shows demo_locked sp.
Proof.
  assert (He : reachable demo_ended).
  { apply (demo_claim_reachable _ demo_spec_two); [apply demo_two_reachable|apply demo_two_shows|].
    right. split; [int64_lia|lia]. }
  destruct (reachable_shows _ He) as [sp Hs]. apply reachable_shows.
  apply (demo_claim_reachable _ sp); [done|done|]. right. split; [int64_lia|lia].
Qed.

Lemma redis_recovery_witness :
  (Job.State <$> stored demo_locked "high") = Some StateClaimed ∧
  (Job.State <$> stored demo_locked "low") = Some StateClaimed ∧
  ∃ sp n e s' sp', shows demo_locked sp ∧ RecoverStale 0 demo_locked = Some ((n, e), s') ∧ shows s' sp' ∧
    ((n = 0 ∧ (∃ msg, e = Some (ErrOther msg)) ∧ sp' = sp ∧ faults demo_locked (calls demo_locked) ≠ None) ∨
     (e = None ∧ Spec.recovered (Spec.jobs sp) (Spec.jobs sp') n)) ∧
    (n, e) = (1, None) ∧ (Job.State <$> stored s' "high") = Some StatePending ∧
    (Job.State <$> stored s' "low") = Some StateClaimed.
Proof.
  split; [vm_compute; reflexivity|]. split; [vm_compute; reflexivity|].
  destruct demo_locked_shows as [sp Hsp]. exists sp.
  destruct (redis_recovery demo_locked sp 0) as (n & e & s' & sp' & Hrun & Hs & Hc);
    [exact Hsp|vm_compute; split; [discriminate|reflexivity]|].
  exists n, e, s', sp'. split; [exact Hsp|]. split; [exact Hrun|]. split; [exact Hs|]. split.
  - destruct Hc as [Hc|(He & Hr & _)]; [by left|right]. by split.
  - assert (Hv : (λ r : Z * option error * Store, (r.1, Job.State <$> stored r.2 "high", Job.State <$> stored r.2 "low"))
        <$> RecoverStale 0 demo_locked = Some ((1, None), Some StatePending, Some StateClaimed))
      by (vm_compute; reflexivity).
    rewrite Hrun in Hv. cbn [fmap option_fmap option_map fst snd] in Hv. injection Hv as -> -> H1 H2.
    split; [reflexivity|]. split; [exact H1|exact H2].
Defined.
