(* ===== verification/RedisLease.v ===== *)
(** Leases of the Redis store: what leaves a lease's key alone, command by
    command and call by call, and the exclusion that follows. *)

From S2P Require Import Prelude ListLib Types StoreApi Text RedisEngine Redis RedisFacts RedisMethods RedisProps.
Local Open Scope Z_scope.
Local Open Scope redis_scope.

(** ** Commands that do not write a key *)

Definition keeps (k : string) {A} (c : Cmd A) : Prop := ∀ t d, (c t d).2 !! k = d !! k.

Create HintDb keeps.

Section keeps.
Context (k : string).

Lemma keeps_reads {A} (c : Cmd A) : reads_only c → keeps k c.
Proof. intros Hc t d. by rewrite Hc. Qed.

Lemma keeps_ret {A} (a : A) : keeps k (cret a).
Proof. done. Qed.

Lemma keeps_fail {A} msg : keeps k (cfail (A := A) msg).
Proof. done. Qed.

Lemma keeps_bind {A B} (m : Cmd A) (f : A → Cmd B) :
  keeps k m → (∀ a, keeps k (f a)) → keeps k (cbind m f).
Proof.
  intros Hm Hf t d. unfold cbind. pose proof (Hm t d) as H1. destruct (m t d) as [[msg|a] d1]; [exact H1|].
  rewrite (Hf a). exact H1.
Qed.

Lemma keeps_put k' v : k' ≠ k → keeps k (put k' v).
Proof. intros Hne t d. by apply lookup_partial_alter_ne. Qed.

Lemma keeps_pipe {A} (cs : list (Cmd A)) : Forall (λ c, keeps k c) cs → keeps k (pipe cs).
Proof.
  induction 1 as [|c cs Hc _ IH]; intros t d; [done|]. cbn [pipe]. pose proof (Hc t d) as H1.
  destruct (c t d) as [r d1]. pose proof (IH t d1) as H2. destruct (pipe cs t d1) as [rs d2].
  cbn in *. congruence.
Qed.

Lemma keeps_float x : keeps k (float_arg x).
Proof. unfold float_arg. by destruct (parse_int x). Qed.

Lemma keeps_EXISTS k' : keeps k (EXISTS k').
Proof. done. Qed.

Lemma keeps_SET_EX k' x ttl : k' ≠ k → keeps k (SET_EX k' x ttl).
Proof. intros Hne t d. by apply lookup_partial_alter_ne. Qed.
End keeps.

#[export] Hint Resolve keeps_ret keeps_fail keeps_put keeps_float keeps_EXISTS keeps_SET_EX as_hash_reads
  as_zset_reads as_set_reads : keeps.
#[export] Hint Resolve keeps_reads | 5 : keeps.

(** Decompose a script; the keys that are written differ from the one kept. *)
Ltac keep_step :=
  first
    [ apply keeps_bind; [|intros ?]
    | apply keeps_pipe; repeat (apply Forall_cons; split); [..|apply Forall_nil; exact I]
    | solve [eauto with keeps]
    | solve [apply keeps_put; key_ne | apply keeps_SET_EX; key_ne]
    | match goal with |- keeps _ (match ?x with _ => _ end) => destruct x end ].
Ltac keep_all := unfold HSET, HGET, HMGET, HGETALL, DEL, ZADD, ZREM, ZCARD, ZRANGEBYSCORE, SADD, SREM, SMEMBERS in *;
  repeat keep_step.

Section lease_key.
Context (id : string).
Local Abbreviation lk := (leaseKey id).

Lemma keeps_claim_ids q p w u now ids :
  keeps lk (claim_ids (pendingKey q p) claimedKey now w u (keyPrefix +:+ "job:") (itoa StateClaimed) ids).
Proof. induction ids as [|i ids IH]; cbn [claim_ids]; [done|]. keep_all. Qed.

Lemma keeps_claim_buckets q ps w u now n :
  keeps lk (claim_buckets claimedKey now w u (keyPrefix +:+ "job:") (itoa StateClaimed) (pendingKey q <$> ps) n).
Proof.
  revert n. induction ps as [|p ps IH]; intros n; cbn [claim_buckets fmap list_fmap map]; [done|].
  destruct (n <=? 0); [done|]. apply keeps_bind; [auto with keeps|intros mx].
  apply keeps_bind; [by keep_all|intros ids]. apply keeps_bind; [apply keeps_claim_ids|intros _].
  apply keeps_bind; [apply IH|done].
Qed.

Lemma keeps_recover_ids now ids n :
  keeps lk (recover_ids claimedKey (keyPrefix +:+ "job:") (keyPrefix +:+ "pending:") (itoa StatePending) now ids n).
Proof.
  revert n. induction ids as [|i ids IH]; intros n; cbn [recover_ids]; [done|].
  apply keeps_bind; [by keep_all|intros q]. apply keeps_bind; [by keep_all|intros p].
  apply keeps_bind; [by keep_all|intros r]. apply keeps_bind; [by keep_all|intros _].
  destruct q, p, r; try apply IH. keep_all.
Qed.

Lemma keeps_recover : keeps lk (recoverStaleScript claimedKey (keyPrefix +:+ "job:") (keyPrefix +:+ "pending:")
                                  (itoa StatePending)).
Proof.
  unfold recoverStaleScript. apply keeps_bind; [done|intros t].
  apply keeps_bind; [by keep_all|intros ids]. apply keeps_recover_ids.
Qed.
End lease_key.

(** ** Calls that do not write a key *)

(** The key is as it was, round trips are counted, and the server's clock is
    the same. *)
Definition undisturbed (k : string) (s s' : Store) : Prop :=
  db s' !! k = db s !! k ∧ (calls s ≤ calls s')%nat ∧ server_time s' = server_time s.

#[export] Instance undisturbed_preorder k : PreOrder (undisturbed k).
Proof.
  unfold undisturbed. split; [intros a; by split_and!|]. intros a b c (? & ? & ?) (? & ? & ?).
  split_and!; [congruence|lia|congruence].
Qed.

Definition gkeeps (k : string) {A} (m : GoM Store A) : Prop :=
  ∀ s r s', m s = Some (r, s') → undisturbed k s s'.

Lemma gkeeps_ret k {A} (a : A) : gkeeps k (gret a).
Proof. intros s r s' [= <- <-]. reflexivity. Qed.

Lemma gkeeps_get k : gkeeps k gget.
Proof. intros s r s' [= <- <-]. reflexivity. Qed.

Lemma gkeeps_now k : gkeeps k time_Now.
Proof. intros s r s' [= <- <-]. unfold undisturbed. by split_and!. Qed.

Lemma gkeeps_bind k {A B} (m : GoM Store A) (f : A → GoM Store B) :
  gkeeps k m → (∀ a, gkeeps k (f a)) → gkeeps k (gbind m f).
Proof.
  intros Hm Hf s r s'. unfold gbind. destruct (m s) as [[a s1]|] eqn:H1; [|done].
  intros H2. trans s1; [by eapply Hm|by eapply Hf].
Qed.

Lemma gkeeps_call k {A} (c : Cmd A) : keeps k c → gkeeps k (call c).
Proof.
  intros Hc s r s'. unfold call. destruct (faults s (calls s)).
  - intros [= <- <-]. split_and!; [done|simpl; lia|done].
  - pose proof (Hc (server_time s (calls s)) (db s)) as Hk. destruct (c _ _) as [x d]. cbn in Hk.
    intros [= <- <-]. split_and!; [done|simpl; lia|done].
Qed.

#[export] Hint Resolve gkeeps_ret gkeeps_get gkeeps_now : keeps.

(** Walk through a method; what is left are its commands. *)
Ltac gkeep_all :=
  repeat first
    [ apply gkeeps_bind; [|intros ?]
    | solve [auto with keeps]
    | apply gkeeps_call
    | match goal with |- gkeeps _ (match ?x with _ => _ end) => destruct x end
    | match goal with |- gkeeps _ (if ?x then _ else _) => destruct x end ].

Section lease_calls.
Context (id : string).
Local Abbreviation lk := (leaseKey id).

Lemma bucket_key fields k : bucket_of fields = Some k → ∃ q p, k = pendingKey q p.
Proof.
  unfold bucket_of. destruct fields as [|[q|] rest]; [done| |done]. intros [= <-]. eauto.
Qed.

Lemma keeps_lookup i : keeps lk (lookup_bucket i).
Proof. unfold lookup_bucket. keep_all. Qed.

(** The three methods that look the bucket of a job up first. *)
Lemma gkeeps_lookup i {A} (f : string → GoM Store A) (g : string → A) (a : A) :
  (∀ q p, gkeeps lk (f (pendingKey q p))) →
  gkeeps lk (gbind (call (lookup_bucket i)) (λ r,
    match r with
    | inl msg => gret (g msg)
    | inr fields => match bucket_of fields with None => gret a | Some pending => f pending end
    end)).
Proof.
  intros Hf. apply gkeeps_bind; [apply gkeeps_call, keeps_lookup|]. intros [msg|fields]; [auto with keeps|].
  destruct (bucket_of fields) as [k|] eqn:Hk; [|auto with keeps].
  apply bucket_key in Hk as (q & p & ->). apply Hf.
Qed.

Lemma gkeeps_method c : gkeeps lk (run_method c).
Proof.
  destruct c as [j|i|i msg t|i|i t|r|i|i next last]; cbn [run_method st_Save st_Ack st_Fail st_Cancel
    st_Reschedule st_UpsertRecurring st_DeleteRecurring st_UpdateRecurringNextRun redis_ops].
  - unfold Save. gkeep_all. destruct (_ =? StatePending); keep_all.
  - unfold Ack. gkeep_all. unfold ackScript. keep_all.
  - unfold Fail.
    apply (gkeeps_lookup i _ (λ m, Some (errf "redis fail lookup: " m)) (Some ErrJobNotFound)).
    intros q p. gkeep_all. unfold failScript. keep_all.
  - unfold Cancel.
    apply (gkeeps_lookup i _ (λ m, Some (errf "redis cancel lookup: " m)) (Some ErrJobNotFound)).
    intros q p. gkeep_all. unfold cancelScript. keep_all.
  - unfold Reschedule.
    apply (gkeeps_lookup i _ (λ m, Some (errf "redis reschedule lookup: " m)) (Some ErrJobNotFound)).
    intros q p. gkeep_all. unfold rescheduleScript. keep_all.
  - unfold UpsertRecurring. gkeep_all. keep_all.
  - unfold DeleteRecurring. gkeep_all. keep_all.
  - unfold UpdateRecurringNextRun. gkeep_all. keep_all.
Qed.

Lemma gkeeps_ClaimDue q now n w u : gkeeps lk (ClaimDue q now n w u).
Proof.
  unfold ClaimDue. gkeep_all.
  - unfold claim_command, claimDueScript.
    exact (keeps_claim_buckets id q all_buckets w (formatTime u) (formatTime now) n).
  - unfold ClaimDue_fetch. gkeep_all. apply keeps_pipe, Forall_fmap, Forall_true. intros k. cbn. keep_all.
Qed.

Lemma gkeeps_RecoverStale now : gkeeps lk (RecoverStale now).
Proof. unfold RecoverStale. gkeep_all. apply keeps_recover. Qed.

Lemma gkeeps_reading : gkeeps lk ListRecurring ∧ ∀ q, gkeeps lk (QueueSize q).
Proof.
  split; [|intros q].
  - unfold ListRecurring. gkeep_all.
    apply keeps_pipe, Forall_fmap, Forall_true. intros k. cbn. keep_all.
  - unfold QueueSize. gkeep_all. apply keeps_pipe, Forall_fmap, Forall_true. intros p. cbn. keep_all.
Qed.
End lease_calls.

(** ** Holding a lease *)

(** The seconds a lease is granted for. *)
Definition lease_seconds (u now : Z) : Z := Z.max 1 (Z.quot (Time.Sub u now) Second).

(** No call of [ops] renews the lease [id] of [w]. *)
Definition not_renewed (id w : string) (o : op) : Prop :=
  match o with OLease id' _ w' => id' = id → w' ≠ w | _ => True end.

Lemma lease_script_granted k w ttl t d d' :
  acquireLeaseScript k w ttl t d = (inr 1, d') → d' = set_key k (Some (VStr w (Some (t + ttl * 10 ^ 6)))) d.
Proof.
  unfold acquireLeaseScript, cbind, GET. destruct (get_key t k d) as [[x dl|h|z|l]|]; cbn; try done.
  - destruct (bool_decide (Some x = Some w)); [|done]. by intros [= <-].
  - by intros [= <-].
Qed.

Lemma lease_script_keeps id id' w ttl :
  id' ≠ id → keeps (leaseKey id) (acquireLeaseScript (leaseKey id') w ttl).
Proof.
  intros Hne t d. unfold acquireLeaseScript, cbind, GET.
  destruct (get_key t (leaseKey id') d) as [[]|]; cbn; try done.
  - case_bool_decide; cbn; [|done]. apply lookup_partial_alter_ne. by intros ?%leaseKey_inj.
  - apply lookup_partial_alter_ne. by intros ?%leaseKey_inj.
Qed.

Lemma gkeeps_other_lease id id' u w : id' ≠ id → gkeeps (leaseKey id) (AcquireRecurringLease id' u w).
Proof.
  intros Hne. unfold AcquireRecurringLease. gkeep_all; by apply lease_script_keeps.
Qed.

Section held.
Context (id : string).
Local Abbreviation lk := (leaseKey id).

(** A lease that was granted. *)
Lemma acquire_granted s s1 u w :
  AcquireRecurringLease id u w s = Some ((true, None), s1) →
  db s1 !! lk = Some (VStr w (Some (server_time s (calls s) + lease_seconds u (clock s (reads s)) * 10 ^ 6))) ∧
  (calls s ≤ calls s1)%nat ∧ server_time s1 = server_time s.
Proof.
  unfold AcquireRecurringLease, gbind at 1, time_Now. destruct (Time.Sub u (clock s (reads s)) <=? 0) eqn:Hp; [done|].
  unfold gbind, call. cbn [faults calls db server_time clock reads].
  destruct (faults s (calls s)); [done|].
  assert (Hs : (if Z.quot (Time.Sub u (clock s (reads s))) Second <? 1 then 1
                else Z.quot (Time.Sub u (clock s (reads s))) Second) = lease_seconds u (clock s (reads s))).
  { unfold lease_seconds. destruct (Z.ltb_spec (Z.quot (Time.Sub u (clock s (reads s))) Second) 1); lia. }
  rewrite Hs. destruct (acquireLeaseScript _ _ _ _ _) as [[msg|n] d] eqn:Hrun; [done|]. cbn.
  intros Heq. injection Heq as Hn <-. apply Z.eqb_eq in Hn as ->.
  apply lease_script_granted in Hrun as ->. cbn. split; [apply set_key_eq|]. split; [lia|done].
Qed.

(** While it lasts, no other worker gets it, and asking changes nothing. *)
Lemma acquire_refused s s' r u w w' dl :
  db s !! lk = Some (VStr w (Some dl)) → server_time s (calls s) < dl → w' ≠ w →
  AcquireRecurringLease id u w' s = Some (r, s') → r.1 = false ∧ undisturbed lk s s'.
Proof.
  intros Hk Hlive Hne. unfold AcquireRecurringLease, gbind at 1, time_Now.
  destruct (Time.Sub u (clock s (reads s)) <=? 0); [intros [= <- <-]; split; [done|by split_and!]|].
  unfold gbind, call. cbn [faults calls db server_time clock reads].
  destruct (faults s (calls s)); [intros [= <- <-]; split; [done|unfold undisturbed; split_and!; [done|simpl; lia|done]]|].
  unfold acquireLeaseScript, cbind, GET, get_key. rewrite Hk. cbn [live]. rewrite (proj2 (Z.ltb_lt _ _) Hlive).
  rewrite (bool_decide_eq_false_2 (Some w = None)) by done.
  rewrite (bool_decide_eq_false_2 (Some w = Some w')) by congruence. cbn.
  intros [= <- <-]. split; [done|]. unfold undisturbed. split_and!; [done|simpl; lia|done].
Qed.

Lemma gkeeps_heartbeat w now : gkeeps lk (Heartbeat w now).
Proof. unfold Heartbeat. gkeep_all. keep_all. Qed.

(** A call leaves the lease, but for a request for it. *)
Lemma op_undisturbed o s s' w dl :
  db s !! lk = Some (VStr w (Some dl)) → server_time s (calls s) < dl → not_renewed id w o →
  run_op o s = Some (tt, s') → undisturbed lk s s'.
Proof.
  intros Hk Hlive Ho. destruct o; cbn [run_op not_renewed st_ClaimDue st_Heartbeat st_RecoverStale st_ListRecurring st_AcquireRecurringLease st_QueueSize redis_ops] in *.
  - apply (gkeeps_bind lk (run_method c)); [apply gkeeps_method|auto with keeps].
  - apply (gkeeps_bind lk (ClaimDue q now n w0 u)); [apply gkeeps_ClaimDue|auto with keeps].
  - apply (gkeeps_bind lk (Heartbeat w0 now)); [apply gkeeps_heartbeat|auto with keeps].
  - apply (gkeeps_bind lk (RecoverStale now)); [apply gkeeps_RecoverStale|auto with keeps].
  - apply (gkeeps_bind lk ListRecurring); [apply gkeeps_reading|auto with keeps].
  - destruct (decide (id0 = id)) as [->|Hne].
    + unfold gbind. destruct (AcquireRecurringLease id u w0 s) as [[r s1]|] eqn:Hrun; [|done].
      intros [= <-]. by eapply acquire_refused; [| |apply Ho|].
    + apply (gkeeps_bind lk (AcquireRecurringLease id0 u w0)); [by apply gkeeps_other_lease|auto with keeps].
  - apply (gkeeps_bind lk (QueueSize q)); [apply gkeeps_reading|auto with keeps].
Qed.

(** Round trips are only ever counted. *)
Lemma op_counts o s s' :
  run_op o s = Some (tt, s') → (calls s ≤ calls s')%nat ∧ server_time s' = server_time s.
Proof.
  assert (Hk : ∃ k, gkeeps k (run_op o)).
  { destruct o as [c|q now n w u|w now|now| |i u w|q]; cbn [run_op st_ClaimDue st_Heartbeat st_RecoverStale st_ListRecurring st_AcquireRecurringLease st_QueueSize redis_ops].
    1-5,7: exists lk; apply gkeeps_bind; [|auto with keeps].
    - apply gkeeps_method.
    - apply gkeeps_ClaimDue.
    - apply gkeeps_heartbeat.
    - apply gkeeps_RecoverStale.
    - apply gkeeps_reading.
    - apply gkeeps_reading.
    - exists (leaseKey (if decide (i = "") then "x" else "")). apply gkeeps_bind; [|auto with keeps].
      apply gkeeps_other_lease. case_decide; congruence. }
  destruct Hk as [k Hk]. intros Hrun. by destruct (Hk s tt s' Hrun) as (_ & ? & ?).
Qed.

Lemma ops_count ops : ∀ s s',
  run_ops ops s = Some (tt, s') → (calls s ≤ calls s')%nat ∧ server_time s' = server_time s.
Proof.
  induction ops as [|o ops IH]; intros s s' Hrun; [by injection Hrun as <-|].
  unfold run_ops in Hrun. cbn [gfor] in Hrun. unfold gbind in Hrun.
  destruct (run_op o s) as [[[] s1]|] eqn:H1; [|done].
  destruct (op_counts o s s1 H1) as [H2 H3]. destruct (IH s1 s' Hrun) as [H4 H5].
  split; [lia|congruence].
Qed.

Lemma ops_undisturbed ops : ∀ s s' w dl,
  (∀ i j, (i ≤ j)%nat → server_time s i ≤ server_time s j) →
  db s !! lk = Some (VStr w (Some dl)) → Forall (not_renewed id w) ops →
  run_ops ops s = Some (tt, s') → server_time s (calls s') < dl → undisturbed lk s s'.
Proof.
  induction ops as [|o ops IH]; intros s s' w dl Hmono Hk Hops Hrun Hlive.
  - injection Hrun as <-. reflexivity.
  - apply Forall_cons in Hops as [Ho Hops]. unfold run_ops in Hrun. cbn [gfor] in Hrun.
    unfold gbind in Hrun. destruct (run_op o s) as [[[] s1]|] eqn:H1; [|done].
    assert (Hc1 : (calls s ≤ calls s1)%nat → (calls s1 ≤ calls s')%nat → undisturbed lk s s1).
    { intros Hc Hc'. eapply op_undisturbed; [exact Hk| |exact Ho|exact H1].
      eapply Z.le_lt_trans; [apply (Hmono _ (calls s')); lia|done]. }
    destruct (op_counts o s s1 H1) as [Hc Ht]. destruct (ops_count ops s1 s' Hrun) as [Hc' _].
    destruct (Hc1 Hc Hc') as (Hk1 & _ & _). trans s1; [by split_and!|].
    eapply (IH s1 s' w dl); [by rewrite Ht|by rewrite Hk1|done|exact Hrun|by rewrite Ht].
Qed.
End held.

(** ** The property *)

(** C28: a worker that is granted the lease of a schedule holds it, by the
    server's clock, for the whole seconds left until [u] (one at least): until
    then no other worker gets it, whatever calls come in between. *)
Theorem redis_lease_exclusive (s s1 s2 s3 : Store) (id w w' : string) (u u' : Z) (ops : list op)
    (r : bool * option error) :
  (∀ i j, (i ≤ j)%nat → server_time s i ≤ server_time s j) →
  AcquireRecurringLease id u w s = Some ((true, None), s1) →
  Forall (not_renewed id w) ops → run_ops ops s1 = Some (tt, s2) → w' ≠ w →
  server_time s (calls s2) < server_time s (calls s) + lease_seconds u (clock s (reads s)) * 10 ^ 6 →
  AcquireRecurringLease id u' w' s2 = Some (r, s3) → r.1 = false.
Proof.
  intros Hmono Hgrant Hops Hrun Hne Hlive Hask.
  destruct (acquire_granted id s s1 u w Hgrant) as (Hk & _ & Ht).
  destruct (ops_undisturbed id ops s1 s2 w _ ltac:(by rewrite Ht) Hk Hops Hrun ltac:(by rewrite Ht))
    as (Hk2 & _ & Ht2).
  rewrite Hk in Hk2.
  by destruct (acquire_refused id s2 s3 r u' w w' _ Hk2 ltac:(by rewrite Ht2, Ht) Hne Hask).
Qed.

(** A lease for 1.9 seconds is granted for one: once that is over, another
    worker gets it, although the first still counts on it. *)
Definition lease_server (t : nat → Z) : Store :=
  mkServer ∅ (λ _, None) 0 (λ _, 10 ^ 18) 0 t elements.

Example lease_rounded_down :
  match gbind (AcquireRecurringLease "r" (10 ^ 18 + 1900 * Millisecond) "a") (λ a,
        gbind (AcquireRecurringLease "r" (10 ^ 18 + 1900 * Millisecond) "b") (λ b, gret (a, b)))
        (lease_server (λ i, 10 ^ 15 + 1100000 * Z.of_nat i)) with
  | Some (a, b, _) => a = (true, None) ∧ b = (true, None)
  | None => False
  end.
Proof. vm_compute. done. Qed.

Lemma redis_lease_exclusive_witness :
  let s := lease_server (λ i, 10 ^ 15 + Z.of_nat i) in
  ∃ s1 s2 s3 r,
    AcquireRecurringLease "r" (10 ^ 18 + 30 * Second) "a" s = Some ((true, None), s1) ∧
    run_ops [OHeartbeat "a" 5; OLease "r" (10 ^ 18 + 60 * Second) "c"] s1 = Some (tt, s2) ∧
    AcquireRecurringLease "r" (10 ^ 18 + 30 * Second) "b" s2 = Some (r, s3) ∧ r.1 = false.
Proof.
  intros s. set (ask := AcquireRecurringLease "r" (10 ^ 18 + 30 * Second)).
  set (ops := [OHeartbeat "a" 5; OLease "r" (10 ^ 18 + 60 * Second) "c"]).
  assert (H1 : ask "a" s = Some ((true, None), next (ask "a") s)) by (apply run_result; vm_compute; reflexivity).
  set (s1 := next (ask "a") s) in *.
  assert (H2 : run_ops ops s1 = Some (tt, next (run_ops ops) s1)) by (apply run_result; vm_compute; reflexivity).
  set (s2 := next (run_ops ops) s1) in *.
  assert (H3 : ask "b" s2 = Some ((false, None), next (ask "b") s2)) by (apply run_result; vm_compute; reflexivity).
  exists s1, s2, (next (ask "b") s2), (false, None). split; [exact H1|]. split; [exact H2|]. split; [exact H3|].
  refine (redis_lease_exclusive s s1 s2 _ "r" "a" "b" (10 ^ 18 + 30 * Second) (10 ^ 18 + 30 * Second)
    ops _ _ H1 _ H2 _ _ H3).
  - intros i j Hij. unfold s, lease_server. cbn [server_time]. lia.
  - repeat constructor. cbn. intros _. discriminate.
  - discriminate.
  - vm_compute. reflexivity.
Defined.
