(* ===== verification/RedisDurable.v ===== *)
(** The Redis store as one that several processes share. It is a [DurableStore]
    for callers that keep to the conditions under which it refines the
    contract: a job saved again stays in its bucket, times are ones the store
    reads back, no schedule is called [all]. [Careful] is the store with
    these conditions as guards: a call outside of them has no answer here, so what
    [Cluster] promises is promised for runs in which every call is inside. A
    scheduler's calls are: it saves jobs under new identifiers, in the states
    the conditions ask for. *)

From S2P Require Import Prelude ListLib Types StoreApi Text RedisEngine Redis RedisFacts RedisClaim.
From S2P Require Import RedisMethods RedisProps Durable World Recurring Scheduler Worker.
From S2P Require Import RecurringProps WorkerProps SchedulerProps Turns System Cluster Trace TwoProcesses.
Local Open Scope Z_scope.
Local Open Scope go_scope.

(** ** The jobs a database holds *)

(** What follows a prefix. *)
Fixpoint strip (p s : string) : option string :=
  match p, s with
  | "", _ => Some s
  | String a p', String b s' => if decide (a = b) then strip p' s' else None
  | String _ _, "" => None
  end.

Lemma strip_app p s : strip p (p +:+ s) = Some s.
Proof. induction p as [|a p IH]; [done|]. change (String a p +:+ s) with (String a (p +:+ s)).
  cbn -[decide]. by rewrite decide_True. Qed.

Lemma strip_inv p k s : strip p k = Some s → k = p +:+ s.
Proof.
  revert k. induction p as [|a p IH]; intros k; [by intros [= ->]|]. destruct k as [|b k]; [done|]. cbn -[decide].
  case_decide as Hab; [subst b|done]. by intros ->%IH.
Qed.

(** A key of a job and its hash, as the contract sees them. *)
Definition job_entry (kv : string * value) : option (string * Job.t) :=
  match strip (keyPrefix +:+ "job:") kv.1, kv.2 with
  | Some id, VHash h => Some (id, Spec.job_view (deserializeJob h))
  | _, _ => None
  end.

Definition redis_jobs (s : Store) : gmap string Job.t :=
  list_to_map (omap job_entry (map_to_list (db s))).

Lemma job_entry_key id h :
  job_entry (jobKey id, VHash h) = Some (id, Spec.job_view (deserializeJob h)).
Proof. unfold job_entry. cbn [fst snd]. change (jobKey id) with ((keyPrefix +:+ "job:") +:+ id). by rewrite strip_app. Qed.

Lemma job_entry_inv kv id v :
  job_entry kv = Some (id, v) → ∃ h, kv = (jobKey id, VHash h) ∧ v = Spec.job_view (deserializeJob h).
Proof.
  destruct kv as [k x]. unfold job_entry. cbn [fst snd].
  destruct (strip (keyPrefix +:+ "job:") k) as [id'|] eqn:Hs; [|done]. apply strip_inv in Hs as ->.
  destruct x as [|h| |]; try done. intros [= -> <-]. exists h. by split.
Qed.

Lemma reps_jobs s J R : reps (db s) J R → redis_jobs s = jobs_of J.
Proof.
  intros Hr. apply map_eq. intros id. rewrite redis_jobs_lookup.
  destruct (redis_jobs s !! id) as [v|] eqn:Hv; unfold redis_jobs in Hv.
  - apply elem_of_list_to_map_2, list_elem_of_omap in Hv as (kv & Hin & (h & -> & ->)%job_entry_inv).
    apply elem_of_map_to_list in Hin. rewrite (r_jobs _ _ _ Hr) in Hin.
    destruct (J !! id) as [x|] eqn:Hx; [|done]. injection Hin as <-. cbn. f_equal.
    apply job_hash_view, (r_fits _ _ _ Hr _ _ Hx).
  - destruct (J !! id) as [x|] eqn:Hx; [|done]. exfalso. apply not_elem_of_list_to_map_2 in Hv. apply Hv.
    apply list_elem_of_fmap. eexists (id, _). split; [done|]. apply list_elem_of_omap.
    exists (jobKey id, VHash (job_hash x.1 x.2)). split; [|apply job_entry_key].
    apply elem_of_map_to_list. by rewrite (r_jobs _ _ _ Hr), Hx.
Qed.

Lemma shows_jobs s sp : shows s sp → redis_jobs s = Spec.jobs sp.
Proof. intros (J & R & Hr & ->). exact (reps_jobs _ _ _ Hr). Qed.

(** ** The conditions, decided *)

#[export] Instance time_ok_dec t : Decision (time_ok t).
Proof. unfold time_ok, in_int64. apply _. Defined.

Lemma job_fits_iff j : job_fits j ↔
  0 ≤ Job.Priority j < 256 ∧ 0 ≤ Job.State j < 256 ∧ Z.abs (Job.Attempt j) < 10 ^ 14 ∧
  in_int64 (Job.MaxAttempts j) ∧ in_int64 (Job.Timeout j) ∧ time_ok (Job.RunAt j) ∧ time_ok (Job.LockedUntil j).
Proof. split; [by intros []|]. intros (?&?&?&?&?&?&?). by split. Qed.

Lemma spec_fits_iff r : spec_fits r ↔
  0 ≤ RecurringSpec.Priority r < 256 ∧ in_int64 (RecurringSpec.Timeout r) ∧
  in_int64 (RecurringSpec.MaxAttempts r) ∧ in_int64 (RecurringSpec.Every r) ∧
  time_ok (RecurringSpec.NextRunAt r) ∧ time_ok (RecurringSpec.LastFireAt r).
Proof. split; [by intros []|]. intros (?&?&?&?&?&?). by split. Qed.

#[export] Instance in_int64_dec x : Decision (in_int64 x).
Proof. unfold in_int64. apply _. Defined.

(** A condition that is equivalent to one that is decided. *)
Definition decide_by {P Q : Prop} (H : P ↔ Q) `{!Decision Q} : Decision P :=
  match decide Q with left q => left (proj2 H q) | right n => right (λ p, n (proj1 H p)) end.

#[export] Instance job_fits_dec j : Decision (job_fits j) :=
  decide_by (job_fits_iff j).

#[export] Instance spec_fits_dec r : Decision (spec_fits r) :=
  decide_by (spec_fits_iff r).

(** A condition on the value that may be there. *)
#[export] Instance option_all_dec {A} (o : option A) (P : A → Prop) `{!∀ x, Decision (P x)} :
  Decision (∀ x, o = Some x → P x).
Proof.
  destruct o as [x|]; [|by left]. destruct (decide (P x)) as [HP|HP]; [left; by intros ? [= <-]|].
  right. intros Hall. by apply HP, Hall.
Defined.

#[export] Instance call_ok_dec c sp : Decision (call_ok c sp).
Proof. destruct c; cbn; unfold same_bucket, attempt_fits; apply _. Defined.

(** ** The store with its conditions *)

Record Careful : Type := mkCareful { redis : Store }.

(** The contents the conditions speak of. *)
Definition contents (s : Store) : Spec.t := Spec.mk (redis_jobs s) ∅.

Definition careful {A} (ok : Store → Prop) `{!∀ s, Decision (ok s)} (m : GoM Store A) : GoM Careful A := λ s,
  if decide (ok (redis s)) then
    match m (redis s) with Some (r, d) => Some (r, mkCareful d) | None => None end
  else None.

Definition careful_call (c : method) : GoM Careful (option error) :=
  careful (λ s, call_ok c (contents s)) (run_method c).

#[export] Instance careful_ops : StoreOps Careful := {
  st_ended e s := mkCareful (st_ended e (redis s));
  st_left s s' := mkCareful (st_left (redis s) (redis s'));
  st_Save j := careful_call (MSave j);
  st_ClaimDue q now n w u := careful (λ _, time_ok u) (ClaimDue q now n w u);
  st_Ack id := careful_call (MAck id);
  st_Fail id msg t := careful_call (MFail id msg t);
  st_Cancel id := careful_call (MCancel id);
  st_Reschedule id t := careful_call (MReschedule id t);
  st_Heartbeat w now := careful (λ _, True) (Heartbeat w now);
  st_RecoverStale now := careful (λ _, True) (RecoverStale now);
  st_UpsertRecurring r := careful_call (MUpsertRecurring r);
  st_ListRecurring := careful (λ _, True) ListRecurring;
  st_DeleteRecurring id := careful_call (MDeleteRecurring id);
  st_AcquireRecurringLease id u w := careful (λ _, True) (AcquireRecurringLease id u w);
  st_UpdateRecurringNextRun id next last := careful_call (MUpdateRecurringNextRun id next last);
  st_QueueSize q := careful (λ _, True) (QueueSize q)
}.

Lemma careful_inv {A} (ok : Store → Prop) `{!∀ s, Decision (ok s)} (m : GoM Store A) s r s' :
  careful ok m s = Some (r, s') → ok (redis s) ∧ m (redis s) = Some (r, redis s').
Proof.
  unfold careful. case_decide; [|done]. destruct (m (redis s)) as [[r0 d]|]; [|done]. by intros [= <- <-].
Qed.

Definition redis_wf (s : Careful) : Prop := ∃ sp, shows (redis s) sp.
Definition careful_jobs (s : Careful) : gmap string Job.t := redis_jobs (redis s).

Lemma call_ok_jobs c sp sp' : Spec.jobs sp = Spec.jobs sp' → call_ok c sp → call_ok c sp'.
Proof. intros He. destruct c; cbn; unfold same_bucket; by rewrite ?He. Qed.

(** A call of the contract does what the abstract store does, or nothing. *)
Lemma careful_method c s e s' :
  redis_wf s → careful_call c s = Some (e, s') →
  redis_wf s' ∧ ∃ sp, Spec.jobs sp = careful_jobs s ∧
    (careful_jobs s' = Spec.jobs (spec_method c sp).2 ∨ careful_jobs s' = careful_jobs s).
Proof.
  intros [sp Hsp] (Hok & Hrun)%careful_inv. pose proof (shows_jobs _ _ Hsp) as Hj.
  assert (Hok' : call_ok c sp) by (eapply call_ok_jobs, Hok; exact Hj).
  destruct Hsp as (J & R & Hr & ->). destruct (redis_method _ J R Hr c Hok') as (e1 & s1 & sp1 & Hrun1 & Hs1 & Hres).
  rewrite Hrun in Hrun1. injection Hrun1 as <- <-. split; [by exists sp1|]. exists (spec_of J R).
  unfold careful_jobs. rewrite (shows_jobs _ _ Hs1). split; [done|].
  destruct Hres as [<-|(_ & -> & _)]; [by left|by right].
Qed.

(** A call that keeps the jobs. *)
Lemma careful_same {A} (m : GoM Store A) :
  (∀ s J R, reps (db s) J R → ∃ r s', m s = Some (r, s') ∧ reps (db s') J R) →
  ∀ s r s', redis_wf s → careful (λ _, True) m s = Some (r, s') →
    redis_wf s' ∧ careful_jobs s' = careful_jobs s.
Proof.
  intros Hm s r s' (sp & J & R & Hr & _) (_ & Hrun)%careful_inv.
  destruct (Hm _ _ _ Hr) as (r1 & s1 & Hrun1 & Hr1). rewrite Hrun in Hrun1. injection Hrun1 as <- <-.
  split; [by exists (spec_of J R), J, R|]. unfold careful_jobs. by rewrite !(reps_jobs _ J R).
Qed.

(** What a claim takes was pending, and nothing else changes. *)
Lemma takes_claims q now n J R d js w u :
  reps d J R → redis_takes q now n (jobs_of J) js →
  (∀ v, v ∈ js → jobs_of J !! Job.ID v = Some v ∧ Job.State v = StatePending) ∧
  stays (jobs_of J) (Spec.claim_all w u js (jobs_of J)) ∧
  settled (jobs_of J) (Spec.claim_all w u js (jobs_of J)).
Proof.
  intros Hr Ht. pose proof (jobs_of_keyed _ _ _ Hr) as Hkey.
  assert (Hel : ∀ v, v ∈ js → jobs_of J !! Job.ID v = Some v ∧ Job.State v = StatePending).
  { intros v Hv. destruct (takes_elem _ _ _ _ _ _ Ht Hv) as [Hd (k & Hk)].
    rewrite (Hkey k v Hk). split; [done|].
    unfold redis_due, Spec.pending_in in Hd. rewrite !andb_true_iff, !Z.eqb_eq in Hd. tauto. }
  split; [done|]. apply claim_all_settled; [|done]. destruct Ht as (srt & _ & Hp & ->).
  apply (sublist_NoDup _ (Spec.ids srt)); [|apply fmap_sublist, sublist_take].
  unfold Spec.ids. rewrite Hp. by apply keyed_filter_nodup.
Qed.

(** The lock is over by the server's clock, as the script sees it: in doubles. *)
Definition careful_lapsed (s : Careful) (_ : Z) (v : Job.t) : bool :=
  let t := server_time (redis s) (calls (redis s)) in
  (1 <=? score (Job.LockedUntil v)) && (score (Job.LockedUntil v) <=? lua_nanos (t / 10 ^ 6, t mod 10 ^ 6)).

Lemma careful_ClaimDue s q now n w u out e s' :
  redis_wf s → careful (λ _, time_ok u) (ClaimDue q now n w u) s = Some ((out, e), s') →
  redis_wf s' ∧ stays (careful_jobs s) (careful_jobs s') ∧ settled (careful_jobs s) (careful_jobs s') ∧
  ∀ j, j ∈ out → ∃ v, careful_jobs s !! Job.ID j = Some v ∧ Job.State v = StatePending.
Proof.
  intros (sp & J & R & Hr & _) (Hu & Hrun)%careful_inv. unfold redis_wf, careful_jobs.
  destruct (redis_ClaimDue_run _ J R q now n w u Hr Hu)
    as [(m & msg & _ & Hrun1)|(ids & out1 & e1 & s1 & Hrun1 & Hr1 & Ht & Hjobs & Hout)];
    rewrite Hrun in Hrun1; simplify_eq.
  - replace (redis s') with (called (redis s)). split; [by exists (spec_of J R), J, R|]. cbn.
    rewrite (reps_jobs (called (redis s)) J R Hr), (reps_jobs _ J R Hr). split; [done|].
    split; [done|]. by intros j ?%elem_of_nil.
  - rewrite (reps_jobs _ _ _ Hr1), (reps_jobs _ _ _ Hr), Hjobs. split; [by eexists _, _, _|].
    destruct (takes_claims _ _ _ _ _ _ _ w u Hr Ht) as (Hel & Hst & Hse). split; [done|]. split; [done|].
    intros j Hj. destruct Hout as [(_ & Hv)|(-> & _)]; [|by apply elem_of_nil in Hj].
    apply (list_elem_of_fmap_2 Spec.job_view) in Hj. rewrite Hv in Hj.
    apply list_elem_of_fmap in Hj as (v & Hjv & Hin). exists v.
    assert (Job.ID j = Job.ID v) as -> by exact (f_equal Job.ID Hjv). by apply Hel.
Qed.

Lemma careful_RecoverStale s now r s' :
  redis_wf s → careful (λ _, True) (RecoverStale now) s = Some (r, s') →
  redis_wf s' ∧ ∀ k v, careful_jobs s !! k = Some v →
    careful_jobs s' !! k = Some v ∨
    (Job.State v = StateClaimed ∧ careful_lapsed s now v = true ∧
     careful_jobs s' !! k = Some (Spec.release_job v)).
Proof.
  intros (sp & J & R & Hr & _) (_ & Hrun)%careful_inv. unfold redis_wf, careful_jobs.
  destruct (recover_answer _ J R now Hr) as [(msg & _ & Hrun1)|(stale & s1 & upd & Hrun1 & Hr1 & Hnd & Hin)];
    rewrite Hrun in Hrun1; simplify_eq.
  - replace (redis s') with (called (redis s)). split; [by exists (spec_of J R), J, R|]. cbn.
    rewrite (reps_jobs (called (redis s)) J R Hr), (reps_jobs _ J R Hr). by left.
  - rewrite (reps_jobs _ _ _ Hr1), (reps_jobs _ _ _ Hr). split; [by eexists _, _, _|].
    intros k v. rewrite !redis_jobs_lookup, alter_all_lookup by done.
    destruct (J !! k) as [x|] eqn:Hx; [|done]. intros [= <-]. case_decide as Hk; [|by left]. right.
    apply Hin in Hk as (y & Hy & Hs & Hl). assert (y = x) as -> by congruence.
    split; [done|]. split; [|done]. unfold careful_lapsed. cbn in Hl |- *. rewrite andb_true_iff, !Z.leb_le. lia.
Qed.

#[export] Instance redis_durable : DurableStore Careful.
Proof.
  refine {| dur_wf := redis_wf; stored := careful_jobs; lapsed := careful_lapsed |}.
  - intros s e Hwf. split; [exact Hwf|done].
  - intros s s' Hwf. split; [exact Hwf|done].
  - intros s j e s' Hwf Hr. apply careful_method in Hr as (Hwf' & sp & Hj & Hres); [|done]. split; [done|].
    assert (Ho : others (Job.ID j) (careful_jobs s) (careful_jobs s') ∧
                 (is_Some (careful_jobs s !! Job.ID j) → is_Some (careful_jobs s' !! Job.ID j))).
    { destruct Hres as [->| ->]; [|by split]. rewrite <- Hj. split; [intros k Hk|]; cbn.
      - by rewrite lookup_insert_ne.
      - rewrite lookup_insert_eq. by eexists. }
    destruct Ho. split; [done|]. by apply (others_stays (Job.ID j)).
  - intros s q now n w u out e s' Hwf _. by apply careful_ClaimDue.
  - intros s id e s' Hwf Hr. apply careful_method in Hr as (Hwf' & sp & Hj & [->| ->]); [|done..].
    rewrite <- Hj. split; [done|]. apply spec_ack_others.
  - intros s id msg t e s' Hwf Hr. apply careful_method in Hr as (Hwf' & sp & Hj & [->| ->]); [..|done].
    + rewrite <- Hj. split; [done|]. apply spec_fail_others.
    + split; [done|]. split; [done|]. intros v Hv. congruence.
  - intros s id e s' Hwf Hr. apply careful_method in Hr as (Hwf' & sp & Hj & [->| ->]); [|done..].
    rewrite <- Hj. split; [done|]. split; [apply spec_cancel_others|apply spec_cancel_settled].
  - intros s id t e s' Hwf Hr. apply careful_method in Hr as (Hwf' & sp & Hj & [->| ->]); [|done..].
    rewrite <- Hj. split; [done|]. apply spec_reschedule_settled.
  - intros s w now. apply careful_same. intros. by apply heartbeat_reps.
  - exact careful_RecoverStale.
  - intros s r e s' Hwf Hr. by apply careful_method in Hr as (Hwf' & sp & Hj & [->| ->]).
  - intros s. apply careful_same. intros s0 J R Hr. destruct (list_same s0) as (r & s1 & -> & Hd).
    do 2 eexists. split; [done|]. by rewrite Hd.
  - intros s id u w. apply careful_same. intros. by apply lease_reps.
  - intros s id next last e s' Hwf Hr. by apply careful_method in Hr as (Hwf' & sp & Hj & [->| ->]).
Defined.

(** ** Calls inside the conditions are answered *)

Lemma careful_answers c s :
  redis_wf s → call_ok c (contents (redis s)) → ∃ e s', careful_call c s = Some (e, s').
Proof.
  intros [sp Hsp] Hok. unfold careful_call, careful. rewrite decide_True by done.
  assert (Hok' : call_ok c sp) by (eapply call_ok_jobs, Hok; exact (shows_jobs _ _ Hsp)).
  destruct Hsp as (J & R & Hr & ->).
  destruct (redis_method _ J R Hr c Hok') as (e & s' & sp' & -> & _). eauto.
Qed.

(** A job under a new identifier is one the store accepts, whatever its queue. *)
Lemma careful_new_job s j :
  redis_wf s → job_fits j → Job.State j = StatePending → Job.MaxAttempts j ≠ 0 →
  stored s !! Job.ID j = None → ∃ e s', st_Save j s = Some (e, s').
Proof.
  intros Hwf Hf Hs Hm Hn. apply (careful_answers (MSave j)); [done|]. split_and!; [done..|].
  intros j0 Hj0. cbn in Hj0, Hn. unfold careful_jobs in Hn. congruence.
Qed.

(** *** A crash on a Redis server

    [a] dies while it runs a job; once its lock is over by the server's clock
    [b] recovers the job and runs it, with the attempts it had. Before, [b]'s
    janitor does nothing. *)
Definition crash_play (server : Z) (es : list event_of_cluster) :=
  pair_play (pair_sched (10 ^ 18) (10 ^ 18 + 10 ^ 10) (10 ^ 9)) (10 ^ 18) (mkCareful (demo_redis (λ _, None) (λ _, server))) es.

Example redis_crash_recovered :
  let dead := [Crash "a"] in
  crash_play (10 ^ 15) (pair_run "a" ++ dead ++ pair_sweep "b") =
    Some (("u", None), Some ([("u", 1, 0, "a")], [("b", [])])) ∧
  crash_play (10 ^ 15 + 2 * 10 ^ 6) (pair_run "a" ++ dead ++ pair_sweep "b") =
    Some (("u", None), Some ([("u", 0, 0, "")], [("b", [])])) ∧
  crash_play (10 ^ 15 + 2 * 10 ^ 6) (pair_run "a" ++ dead ++ pair_sweep "b" ++ pair_run "b") =
    Some (("u", None), Some ([("u", 1, 0, "b")], [("b", [EvStart "u" "n" "default" 1])])).
Proof. vm_compute. done. Qed.
