(* ===== verification/Open.v ===== *)
(** Opening and closing the stores that live outside the process ([New] and
    [Close] of [src/store/sqlite/store.go], [src/store/postgres/store.go],
    [src/store/redis/store.go], [Listen] and [Listener.Close] of
    [src/store/postgres/listen.go]), and the addresses the Redis store takes.

    The drivers are parameters: whether a call of theirs fails, and with what
    message. What is tracked is which of their handles (pools, clients,
    connections) are open, with the limit set on a pool's connections, and which
    connections have a goroutine that waits for notifications. *)

From S2P Require Import Prelude ListLib Types.
From Stdlib Require Import Ascii.
From Stdlib Require String.
Local Open Scope Z_scope.
Local Open Scope go_scope.

(** ** Handles *)

Record Handles : Type := mkHandles {
  opened : gmap nat Z;
  pumps : gset nat;
  next_handle : nat
}.

(** A handle that is new; [0] is no limit. *)
Definition open_handle : GoM Handles nat := λ s,
  Some (next_handle s, mkHandles (<[next_handle s := 0]> (opened s)) (pumps s) (S (next_handle s))).
Definition close_handle (h : nat) : GoM Handles unit :=
  gmodify (λ s, mkHandles (delete h (opened s)) (pumps s) (next_handle s)).
Definition SetMaxOpenConns (h : nat) (n : Z) : GoM Handles unit :=
  gmodify (λ s, mkHandles (<[h := n]> (opened s)) (pumps s) (next_handle s)).
Definition start_pump (h : nat) : GoM Handles unit :=
  gmodify (λ s, mkHandles (opened s) ({[h]} ∪ pumps s) (next_handle s)).
Definition end_pump (h : nat) : GoM Handles unit :=
  gmodify (λ s, mkHandles (opened s) (pumps s ∖ {[h]}) (next_handle s)).

(** A handle, or an error. *)
Definition result : Type := option nat * option error.

Definition failed (what msg : string) : result := (None, Some (ErrOther (what +:+ msg))).

(** ** SQLite *)

Module SqliteOpen.
(** [sql.Open] and [db.Exec]: the error, if any. *)
Class Driver : Type := { sql_Open : string → option string; sql_Exec : option string }.

Section open.
Context `{!Driver}.

Definition dsn (path : string) : string :=
  "file:" +:+ path +:+ "?_pragma=journal_mode(wal)&_pragma=busy_timeout(5000)".

Definition New (path : string) : GoM Handles result :=
  match sql_Open (dsn path) with
  | Some m => gret (failed "sqlite open: " m)
  | None =>
      let! h := open_handle in
      do! SetMaxOpenConns h 1 in
      match sql_Exec with
      | Some m => do! close_handle h in gret (failed "sqlite migrate: " m)
      | None => gret (Some h, None)
      end
  end.

Definition Close (h : nat) : GoM Handles unit := close_handle h.
End open.
End SqliteOpen.

(** ** Postgres *)

Module PostgresOpen.
(** [pgxpool.New], [pool.Exec], [pgx.ConnectConfig], [conn.Exec]. *)
Class Driver : Type := {
  pool_New : string → option string;
  pool_Exec : option string;
  ConnectConfig : option string;
  conn_Exec : option string
}.

Section open.
Context `{!Driver}.

Definition New (dsn : string) : GoM Handles result :=
  match pool_New dsn with
  | Some m => gret (failed "postgres pool: " m)
  | None =>
      let! h := open_handle in
      match pool_Exec with
      | Some m => do! close_handle h in gret (failed "postgres migrate: " m)
      | None => gret (Some h, None)
      end
  end.

Definition Close (h : nat) : GoM Handles unit := close_handle h.

(** The connection of a [Listener], with its goroutine started. *)
Definition Listen : GoM Handles result :=
  match ConnectConfig with
  | Some m => gret (failed "postgres listen connect: " m)
  | None =>
      let! h := open_handle in
      match conn_Exec with
      | Some m => do! close_handle h in gret (failed "postgres LISTEN: " m)
      | None => do! start_pump h in gret (Some h, None)
      end
  end.

(** [cancel] makes [WaitForNotification] return, which ends the goroutine;
    [Close] waits for that, and closes the connection then. *)
Definition Listener_Close (h : nat) : GoM Handles unit :=
  do! end_pump h in close_handle h.
End open.
End PostgresOpen.

(** ** Redis *)

Module RedisOpen.
Record UniversalOptions : Type := mkOptions {
  Addrs : list string;
  Username : string;
  Password : string;
  DB : Z
}.

(** [redis.ParseURL] (address, user name, password, database) and [Ping]. *)
Class Driver : Type := {
  ParseURL : string → (string * string * string * Z) + string;
  Ping : UniversalOptions → option string
}.

(** [strings.Split(s, ",")]. *)
Fixpoint split_comma (s : list ascii) : list (list ascii) :=
  match s with
  | [] => [[]]
  | c :: s =>
      if Ascii.eqb c "," then [] :: split_comma s
      else match split_comma s with x :: xs => (c :: x) :: xs | [] => [[c]] end
  end.

(** [strings.TrimSpace]: white space is six ASCII characters and, in UTF-8, the
    spaces of Unicode. *)
Definition byte (n : nat) : ascii := ascii_of_nat n.
Definition spaces : list (list ascii) :=
  ((λ n, [byte n]) <$> [9; 10; 11; 12; 13; 32]%nat) ++
  ((λ n, [byte 194; byte n]) <$> [133; 160]%nat) ++ [[byte 225; byte 154; byte 128]] ++
  ((λ n, [byte 226; byte 128; byte n]) <$> (seq 128 11 ++ [168; 169; 175]%nat)) ++
  [[byte 226; byte 129; byte 159]; [byte 227; byte 128; byte 128]].

(** [p] taken off the front of [s], if it is there. *)
Fixpoint strip (p s : list ascii) : option (list ascii) :=
  match p, s with
  | [], _ => Some s
  | c :: p, d :: s => if Ascii.eqb c d then strip p s else None
  | _ :: _, [] => None
  end.

(** One of [ps] taken off the front. *)
Fixpoint strip_any (ps : list (list ascii)) (s : list ascii) : option (list ascii) :=
  match ps with
  | [] => None
  | p :: ps => match strip p s with Some s' => Some s' | None => strip_any ps s end
  end.

(** Each turn shortens the string: its length is fuel enough. *)
Fixpoint trim_front (fuel : nat) (ps : list (list ascii)) (s : list ascii) : list ascii :=
  match fuel with
  | O => s
  | S fuel => match strip_any ps s with Some s' => trim_front fuel ps s' | None => s end
  end.

Definition TrimLeft (ps : list (list ascii)) (s : list ascii) : list ascii :=
  trim_front (length s) ps s.
Definition TrimSpace (s : list ascii) : list ascii :=
  reverse (TrimLeft (reverse <$> spaces) (reverse (TrimLeft spaces s))).

Section open.
Context `{!Driver}.

Definition parseAddr (addr : string) : UniversalOptions + string :=
  if String.prefix "redis://" addr || String.prefix "rediss://" addr then
    match ParseURL addr with
    | inr m => inr m
    | inl (a, user, password, db) => inl (mkOptions [a] user password db)
    end
  else
    inl (mkOptions ((λ a, String.string_of_list_ascii (TrimSpace a)) <$> split_comma (String.list_ascii_of_string addr))
                   "" "" 0).

Definition New (addr : string) : GoM Handles result :=
  match parseAddr addr with
  | inr m => gret (failed "redis parse addr: " m)
  | inl opts =>
      let! h := open_handle in
      match Ping opts with
      | Some m => do! close_handle h in gret (failed "redis ping: " m)
      | None => gret (Some h, None)
      end
  end.

Definition Close (h : nat) : GoM Handles unit := close_handle h.
End open.
End RedisOpen.

(** ** Facts *)

(** Handles in use are among those given out, and a goroutine that waits has
    its connection. *)
Definition handles_ok (s : Handles) : Prop :=
  (∀ h, h ∈ dom (opened s) → (h < next_handle s)%nat) ∧ pumps s ⊆ dom (opened s).

(** [m] fails and leaves no handle behind, or returns one that is new, open
    ([good] says how), and whose [close] undoes everything. *)
Definition balanced (m : GoM Handles result) (close : nat → GoM Handles unit)
    (good : Handles → nat → Prop) : Prop :=
  ∀ s, handles_ok s → ∃ r s', m s = Some (r, s') ∧ handles_ok s' ∧
    match r with
    | (Some h, None) => opened s !! h = None ∧ is_Some (opened s' !! h) ∧ good s' h ∧
        ∃ s'', close h s' = Some (tt, s'') ∧ opened s'' = opened s ∧ pumps s'' = pumps s
    | (None, Some _) => opened s' = opened s ∧ pumps s' = pumps s
    | _ => False
    end.

Section handles.
Implicit Types s : Handles.

Lemma fresh_handle s : handles_ok s → opened s !! next_handle s = None ∧ next_handle s ∉ pumps s.
Proof.
  intros [Ho Hp]. assert (Hd : next_handle s ∉ dom (opened s)).
  { intros Hd. specialize (Ho _ Hd). lia. }
  split; [by apply not_elem_of_dom|]. intros Hin. by apply Hd, Hp.
Qed.

(** A handle that is new, with or without its goroutine. *)
Lemma open_ok s n (ps : gset nat) :
  handles_ok s → ps ⊆ {[next_handle s]} ∪ pumps s →
  handles_ok (mkHandles (<[next_handle s := n]> (opened s)) ps (S (next_handle s))).
Proof.
  intros [Ho Hp] Hps. split; cbn; [|rewrite dom_insert; etrans; [exact Hps|by apply union_mono_l]]. intros h. rewrite dom_insert, elem_of_union, elem_of_singleton.
  intros [->|Hh]; [lia|]. specialize (Ho h Hh). lia.
Qed.

Lemma closed_ok s : handles_ok s → handles_ok (mkHandles (opened s) (pumps s) (S (next_handle s))).
Proof. intros [Ho Hp]. split; [|done]. intros h Hh. specialize (Ho h Hh). cbn. lia. Qed.

Lemma undo_open s n : handles_ok s → delete (next_handle s) (<[next_handle s := n]> (opened s)) = opened s.
Proof. intros Hs. apply delete_insert_id, fresh_handle, Hs. Qed.
End handles.

(** Opening a handle, and closing it when what follows fails. *)
Lemma opening_balanced (m : option string) (n : Z) what :
  balanced (let! h := open_handle in
            do! SetMaxOpenConns h n in
            match m with
            | Some msg => do! close_handle h in gret (failed what msg)
            | None => gret (Some h, None)
            end) close_handle (λ s h, opened s !! h = Some n).
Proof.
  intros s Hs. unfold gbind, open_handle, SetMaxOpenConns, close_handle, gmodify, gret, failed. cbn.
  rewrite insert_insert_eq. destruct m; cbn; do 2 eexists; (split; [reflexivity|]); cbn;
    rewrite ?undo_open by done.
  - split; [by apply closed_ok|done].
  - split; [apply open_ok; [done|apply union_subseteq_r]|]. rewrite lookup_insert_eq.
    split; [by apply fresh_handle|]. split; [by eexists|]. split; [done|].
    by eexists.
Qed.

Lemma balanced_plain (m : option string) what :
  balanced (let! h := open_handle in
            match m with
            | Some msg => do! close_handle h in gret (failed what msg)
            | None => gret (Some h, None)
            end) close_handle (λ _ _, True).
Proof.
  intros s Hs. destruct (opening_balanced m 0 what s Hs) as (r & s' & Hr & Hok & Hres).
  unfold gbind, open_handle, SetMaxOpenConns, close_handle, gmodify, gret, failed in *. cbn in Hr |- *.
  rewrite insert_insert_eq in Hr. exists r, s'. split; [by destruct m|]. split; [done|].
  destruct r as [[h|] [e|]]; try done. by destruct Hres as (? & ? & _ & ?).
Qed.

Lemma refused_balanced what msg close good : balanced (gret (failed what msg)) close good.
Proof. intros s Hs. exists (failed what msg), s. by split. Qed.

(** ** Addresses *)

Section addresses.
Import RedisOpen.

(** A printable ASCII character other than the comma. *)
Definition plain (c : ascii) : bool :=
  let n := nat_of_ascii c in (33 <=? n)%nat && (n <=? 126)%nat && negb (Ascii.eqb c ",").

Lemma plain_kept c s :
  plain c = true → strip_any spaces (c :: s) = None ∧ strip_any (reverse <$> spaces) (c :: s) = None.
Proof. destruct c as [[] [] [] [] [] [] [] []]; try done; by split. Qed.

Lemma blank_stripped s :
  strip_any spaces (" "%char :: s) = Some s ∧ strip_any (reverse <$> spaces) (" "%char :: s) = Some s.
Proof. by split. Qed.

(** Blanks, then a string whose first character is no space. *)
Lemma trim_blanks ps n c s :
  (∀ s, strip_any ps (" "%char :: s) = Some s) → strip_any ps (c :: s) = None →
  TrimLeft ps (replicate n " "%char ++ c :: s) = c :: s.
Proof.
  intros Hb Hc. unfold TrimLeft. rewrite length_app, length_replicate.
  generalize (length (c :: s)). intros k. induction n as [|n IH]; cbn; [|by rewrite Hb].
  destruct k; cbn; [done|by rewrite Hc].
Qed.

Lemma TrimSpace_blanks n m a :
  a ≠ [] → forallb plain a = true →
  TrimSpace (replicate n " "%char ++ a ++ replicate m " "%char) = a.
Proof.
  intros Ha Hp. unfold TrimSpace. destruct a as [|c a]; [done|].
  assert (Hc : plain c = true) by (cbn [forallb] in Hp; by apply andb_true_iff in Hp as [? _]).
  cbn [app]. rewrite (trim_blanks spaces); [|intros s; exact (proj1 (blank_stripped s))|exact (proj1 (plain_kept c _ Hc))].
  change (c :: a ++ replicate m " "%char) with ((c :: a) ++ replicate m " "%char).
  rewrite reverse_app, reverse_replicate.
  destruct (reverse (c :: a)) as [|d b] eqn:Hrev.
  { apply (f_equal length) in Hrev. by rewrite length_reverse in Hrev. }
  assert (Hd : plain d = true).
  { rewrite forallb_forall in Hp. apply Hp, list_elem_of_In, elem_of_reverse. rewrite Hrev. by left. }
  rewrite (trim_blanks (reverse <$> spaces)); [by rewrite <- Hrev, reverse_involutive
    |intros s; exact (proj2 (blank_stripped s))|exact (proj2 (plain_kept d _ Hd))].
Qed.

(** [strings.Join(xs, ",")]. *)
Fixpoint join_comma (xs : list (list ascii)) : list ascii :=
  match xs with
  | [] => []
  | [x] => x
  | x :: xs => x ++ ","%char :: join_comma xs
  end.

Lemma split_comma_app x s : forallb (λ c, negb (Ascii.eqb c ",")) x = true →
  split_comma (x ++ ","%char :: s) = x :: split_comma s.
Proof.
  induction x as [|c x IH]; cbn; [done|]. intros [Hc Hx]%andb_true_iff. apply negb_true_iff in Hc.
  by rewrite Hc, IH.
Qed.

Lemma split_comma_one x : forallb (λ c, negb (Ascii.eqb c ",")) x = true → split_comma x = [x].
Proof.
  induction x as [|c x IH]; cbn; [done|]. intros [Hc Hx]%andb_true_iff. apply negb_true_iff in Hc.
  by rewrite Hc, IH.
Qed.

Lemma split_join xs :
  xs ≠ [] → Forall (λ x, forallb (λ c, negb (Ascii.eqb c ",")) x = true) xs → split_comma (join_comma xs) = xs.
Proof.
  intros Hne Hall. induction Hall as [|x xs Hx Hall IH]; [done|]. destruct xs as [|y xs].
  - by apply split_comma_one.
  - change (join_comma (x :: y :: xs)) with (x ++ ","%char :: join_comma (y :: xs)).
    rewrite split_comma_app by done. by rewrite IH.
Qed.

(** An address in a list, with blanks around it. *)
Definition padded (x : nat * list ascii * nat) : list ascii :=
  let '(n, a, m) := x in replicate n " "%char ++ a ++ replicate m " "%char.

Lemma padded_no_comma n m a :
  forallb plain a = true → forallb (λ c, negb (Ascii.eqb c ",")) (padded (n, a, m)) = true.
Proof.
  intros Ha. unfold padded. rewrite !forallb_app.
  assert (Hb : ∀ k, forallb (λ c, negb (Ascii.eqb c ",")) (replicate k " "%char) = true).
  { intros k. by induction k. }
  rewrite !Hb, andb_true_r. cbn. rewrite forallb_forall in Ha |- *. intros c Hc. specialize (Ha c Hc).
  unfold plain in Ha. by apply andb_true_iff in Ha as [_ ?].
Qed.
End addresses.

(** ** Properties *)

(** C29: opening leaks nothing: [New] of each store, and [Listen], return a handle
    that is open and nothing else, which its [Close] gives back together with
    the goroutine that waits on it, or an error, and then no handle is left
    open. SQLite's is limited to the one connection its transactions
    rely on. *)
Theorem open_no_leak `{!SqliteOpen.Driver, !PostgresOpen.Driver, !RedisOpen.Driver} (path dsn addr : string) :
  balanced (SqliteOpen.New path) SqliteOpen.Close (λ s h, opened s !! h = Some 1) ∧
  balanced (PostgresOpen.New dsn) PostgresOpen.Close (λ _ _, True) ∧
  balanced (RedisOpen.New addr) RedisOpen.Close (λ _ _, True) ∧
  balanced PostgresOpen.Listen PostgresOpen.Listener_Close (λ s h, h ∈ pumps s).
Proof.
  split; [|split; [|split]].
  - unfold SqliteOpen.New. case_match; [apply refused_balanced|apply opening_balanced].
  - unfold PostgresOpen.New. case_match; [apply refused_balanced|apply balanced_plain].
  - unfold RedisOpen.New. destruct (RedisOpen.parseAddr addr); [apply balanced_plain|apply refused_balanced].
  - unfold PostgresOpen.Listen. case_match; [apply refused_balanced|]. intros s Hs.
    unfold gbind, open_handle, close_handle, start_pump, gmodify, gret, failed. cbn.
    destruct (fresh_handle s Hs) as [Hn Hp].
    destruct PostgresOpen.conn_Exec; cbn; do 2 eexists; (split; [reflexivity|]); cbn; rewrite ?undo_open by done.
    + split; [by apply closed_ok|done].
    + split; [by apply open_ok|]. rewrite lookup_insert_eq. split; [done|]. split; [by eexists|].
      split; [by apply elem_of_union_l, elem_of_singleton|]. eexists. split; [reflexivity|]. cbn.
      rewrite undo_open by done. split; [done|].
      rewrite difference_union_distr_l_L, difference_diag_L, (left_id_L ∅ (∪)). by apply difference_disjoint_L, disjoint_singleton_r.
Qed.

(** a list of addresses, whatever blanks are around them, is read back as that
    list, without user or database; an address in the form of a URL goes to the
    driver as it is. *)
Theorem parseAddr_roundtrip `{!RedisOpen.Driver} (xs : list (nat * list ascii * nat)) :
  let addr := String.string_of_list_ascii (join_comma (padded <$> xs)) in
  xs ≠ [] → Forall (λ x, x.1.2 ≠ [] ∧ forallb plain x.1.2 = true) xs →
  String.prefix "redis://" addr = false → String.prefix "rediss://" addr = false →
  RedisOpen.parseAddr addr =
    inl (RedisOpen.mkOptions ((λ x, String.string_of_list_ascii x.1.2) <$> xs) "" "" 0).
Proof.
  intros addr Hne Hall H1 H2. unfold RedisOpen.parseAddr. rewrite H1, H2. cbn [orb].
  unfold addr. rewrite String.list_ascii_of_string_of_list_ascii, split_join.
  - f_equal. f_equal. rewrite <- list_fmap_compose. clear addr Hne H1 H2.
    induction Hall as [|[[n a] m] xs [Ha Hp] _ IH]; [done|]. cbn [fmap list_fmap compose]. f_equal; [|exact IH].
    cbn [compose padded fst snd] in *. by rewrite TrimSpace_blanks.
  - by destruct xs.
  - apply Forall_fmap. eapply Forall_impl; [exact Hall|]. intros [[n a] m] [_ Hp]. by apply padded_no_comma.
Qed.

Definition demo_hosts : list (nat * list ascii * nat) :=
  [(0%nat, String.list_ascii_of_string "a:6379", 1%nat); (2%nat, String.list_ascii_of_string "b:6380", 0%nat)].

#[local] Instance demo_driver : RedisOpen.Driver := {
  RedisOpen.ParseURL a := inl (a, "u", "p", 2);
  RedisOpen.Ping _ := None
}.

Lemma parseAddr_roundtrip_witness :
  RedisOpen.parseAddr "a:6379 ,  b:6380" = inl (RedisOpen.mkOptions ["a:6379"; "b:6380"] "" "" 0) ∧
  RedisOpen.parseAddr "redis://u:p@h/2" = inl (RedisOpen.mkOptions ["redis://u:p@h/2"] "u" "p" 2).
Proof.
  split; [|reflexivity]. apply (parseAddr_roundtrip demo_hosts).
  - discriminate.
  - repeat constructor; (discriminate || reflexivity).
  - reflexivity.
  - reflexivity.
Defined.
