(* ===== verification/Codec.v ===== *)
(** Typed payloads ([src/codec.go]): registration and dispatch through a codec.

    A codec is what [encoding/json] or the protobuf library makes of a type [T];
    the encoders are third-party, so a codec is a record of its three methods,
    and that decoding inverts encoding is a hypothesis on it. *)

From S2P Require Import Prelude ListLib Types Backoff StoreApi ContainerHeap MemStore MemStoreFacts.
From S2P Require Import MemStoreProps World Recurring RecurringProps Scheduler Worker WorkerProps.
From S2P Require Import SchedulerProps.
Local Open Scope Z_scope.
Local Open Scope go_scope.

(** The [Codec] interface at a payload type: results or the error's text. *)
Record Codec (T : Type) : Type := mkCodec {
  Encode : T → list Byte.byte + string;
  Decode : list Byte.byte → T + string;
  Name : string
}.
Arguments mkCodec {T}.
Arguments Encode {T}.
Arguments Decode {T}.
Arguments Name {T}.

(** Decoding what was encoded gives the value back. *)
Definition faithful {T} (codec : Codec T) : Prop :=
  ∀ v data, Encode codec v = inl data → Decode codec data = inl v.

Section codec.
Context {St H : Type} `{!StoreOps St} {T : Type}.
Variable uuid : nat → string.
Variable ParseStandard : string → (Z → Z) + string.

(** The handler [RegisterTyped] installs. *)
Definition typed_handler (codec : Codec T)
    (h : option Z → T → World St H → outcome * World St H) : Handler St H :=
  λ timeout payload w,
    match Decode codec payload with
    | inr msg => (HReturn (Some (ErrOther ("decode " +:+ Name codec +:+ ": " +:+ msg))), w)
    | inl v => h timeout v w
    end.

Definition RegisterTyped (name : string) (codec : Codec T)
    (h : option Z → T → World St H → outcome * World St H) (s : Scheduler St H) : Scheduler St H :=
  Register name (typed_handler codec h) s.

Definition dispatchTyped (codec : Codec T) (payload : T) (opts : list JobOption)
    : (list JobOption * list Byte.byte) + api_error :=
  match Encode codec payload with
  | inr msg => inr (EncodeError (Name codec) msg)
  | inl data => inl (opts ++ [withCodec (Name codec)], data)
  end.

Definition NowTyped (s : Scheduler St H) (name : string) (codec : Codec T) (payload : T)
    (opts : list JobOption) : GoM (World St H) (string * option api_error) :=
  match dispatchTyped codec payload opts with
  | inr err => gret ("", Some err)
  | inl (opts, data) => Scheduler.Now uuid s name data opts
  end.

Definition AtTyped (s : Scheduler St H) (t : Z) (name : string) (codec : Codec T) (payload : T)
    (opts : list JobOption) : GoM (World St H) (string * option api_error) :=
  match dispatchTyped codec payload opts with
  | inr err => gret ("", Some err)
  | inl (opts, data) => At uuid s t name data opts
  end.

Definition AfterTyped (s : Scheduler St H) (d : Z) (name : string) (codec : Codec T) (payload : T)
    (opts : list JobOption) : GoM (World St H) (string * option api_error) :=
  match dispatchTyped codec payload opts with
  | inr err => gret ("", Some err)
  | inl (opts, data) => After uuid s d name data opts
  end.

Definition EveryTyped (s : Scheduler St H) (d : Z) (name : string) (codec : Codec T) (payload : T)
    (opts : list JobOption) : GoM (World St H) (string * option api_error) :=
  match dispatchTyped codec payload opts with
  | inr err => gret ("", Some err)
  | inl (opts, data) => Every uuid s d name data opts
  end.

Definition CronTyped (s : Scheduler St H) (expr name : string) (codec : Codec T) (payload : T)
    (opts : list JobOption) : GoM (World St H) (string * option api_error) :=
  match dispatchTyped codec payload opts with
  | inr err => gret ("", Some err)
  | inl (opts, data) => Cron uuid ParseStandard s expr name data opts
  end.
End codec.

(** ** Facts *)

Lemma builtin_payload opts j :
  Forall builtin opts → Job.Payload (apply_options opts j) = Job.Payload j.
Proof.
  unfold apply_options. intros Hopts. revert j. induction Hopts as [|opt opts Ho _ IH]; intros j; simpl.
  - done.
  - rewrite IH. by destruct Ho.
Qed.

(** ** Properties *)

Section properties.
Context {St H : Type} `{!StoreOps St, !LawfulStore St} {T : Type}.

(** C37: a typed job reaches its handler unchanged. A value dispatched with
    [AtTyped] under a faithful codec is stored with the codec's name and a
    payload on which the handler [RegisterTyped] installed for the name calls
    the user's function with that very value. *)
Theorem typed_roundtrip (uuid : nat → string) (codec : Codec T)
    (h : option Z → T → World St H → outcome * World St H) (s : Scheduler St H) (t : Z)
    (name : string) (v : T) (opts : list JobOption) (id : string) (w w1 : World St H) :
  faithful codec → Forall builtin opts → wf (w_store w) →
  (∀ data, Encode codec v = inl data →
     ok_job (dispatched uuid (RegisterTyped name codec h s) w t name data
               (opts ++ [withCodec (Name codec)]))) →
  AtTyped uuid (RegisterTyped name codec h s) t name codec v opts w = Some ((id, None), w1) →
  ∃ (j : Job.t) (g : Handler St H), Spec.jobs (abs (w_store w1)) !! id = Some (Spec.job_view j) ∧
    Job.CodecName j = Name codec ∧
    handlers (RegisterTyped name codec h s) !! name = Some g ∧
    ∀ timeout w2, g timeout (Job.Payload j) w2 = h timeout v w2.
Proof.
  intros Hf Hopts Hwf Hok. unfold AtTyped, dispatchTyped. destruct (Encode codec v) as [data|] eqn:He; [|done].
  intros Hat. set (opts' := opts ++ [withCodec (Name codec)]) in *.
  set (s' := RegisterTyped name codec h s) in *.
  assert (Hopts' : Forall builtin opts') by (apply Forall_app; split; [done|by repeat constructor]).
  destruct (At_run uuid s' t name data opts' w Hwf (Hok data eq_refl)) as (id' & err & w' & Hrun & _ & _ & _ & Hres).
  rewrite Hat in Hrun. injection Hrun as <- <- <-. destruct Hres as (-> & _ & _ & Habs & _).
  exists (dispatched uuid s' w t name data opts'), (typed_handler codec h).
  split; [rewrite Habs; apply lookup_insert_eq|]. split.
  - unfold dispatched, apply_options, opts'. by rewrite foldl_snoc.
  - split; [apply lookup_insert_eq|]. intros timeout w2. unfold dispatched.
    rewrite builtin_payload by done. simpl. unfold typed_handler. by rewrite (Hf v data He).
Qed.

(** A value that cannot be encoded is refused with the codec's error before
    anything happens; a stored payload that cannot be decoded makes the attempt
    fail with the codec's error, and the user's function is not called. *)
Theorem typed_errors (uuid : nat → string) (codec : Codec T)
    (h : option Z → T → World St H → outcome * World St H) (s : Scheduler St H) (t d : Z)
    (name emsg dmsg : string) (v : T) (data : list Byte.byte) (opts : list JobOption)
    (w : World St H) (timeout : option Z) :
  Encode codec v = inr emsg → Decode codec data = inr dmsg →
  AtTyped uuid s t name codec v opts w = Some (("", Some (EncodeError (Name codec) emsg)), w) ∧
  EveryTyped uuid s d name codec v opts w = Some (("", Some (EncodeError (Name codec) emsg)), w) ∧
  typed_handler codec h timeout data w =
    (HReturn (Some (ErrOther ("decode " +:+ Name codec +:+ ": " +:+ dmsg))), w).
Proof.
  intros He Hd. unfold AtTyped, EveryTyped, dispatchTyped, typed_handler. by rewrite He, Hd.
Qed.
End properties.

(** A codec for the witnesses: booleans as one byte, [true] alone encodable
    under the second. *)
Definition bool_codec : Codec bool :=
  mkCodec (λ b : bool, inl (if b then [Byte.x01] else [Byte.x00]))
    (λ l, match l with
          | [Byte.x01] => inl true
          | [Byte.x00] => inl false
          | _ => inr "bad length"
          end) "bool".
Definition partial_codec : Codec bool :=
  mkCodec (λ b : bool, if b then inl [] else inr "unsupported") (λ _, inr "bad") "p".

Definition bool_handler : option Z → bool → World Store (list event) → outcome * World Store (list event) :=
  λ _ b w, (HReturn (if b then None else Some (ErrOther "false")), w).

Lemma typed_roundtrip_witness :
  ∃ id w1, AtTyped demo_uuid (RegisterTyped "b" bool_codec bool_handler demo_scheduler) 5 "b"
      bool_codec true [WithPriority PriorityLow] empty_world = Some ((id, None), w1) ∧
    ∃ (j : Job.t) (g : Handler Store (list event)), Spec.jobs (abs (w_store w1)) !! id = Some (Spec.job_view j) ∧
      Job.CodecName j = "bool" ∧
      handlers (RegisterTyped "b" bool_codec bool_handler demo_scheduler) !! "b" = Some g ∧
      ∀ timeout w2, g timeout (Job.Payload j) w2 = bool_handler timeout true w2.
Proof.
  eexists _, _. split; [vm_compute; reflexivity|].
  eapply (typed_roundtrip demo_uuid bool_codec bool_handler demo_scheduler 5 "b" true
            [WithPriority PriorityLow] _ empty_world).
  - intros b data [= <-]. by destruct b.
  - repeat constructor.
  - apply New_wf.
  - intros data _. exact I.
  - vm_compute; reflexivity.
Defined.

Lemma typed_errors_witness :
  AtTyped demo_uuid demo_scheduler 5 "b" partial_codec false [] empty_world =
    Some (("", Some (EncodeError "p" "unsupported")), empty_world) ∧
  EveryTyped demo_uuid demo_scheduler 5 "b" partial_codec false [] empty_world =
    Some (("", Some (EncodeError "p" "unsupported")), empty_world) ∧
  typed_handler partial_codec bool_handler None [] empty_world =
    (HReturn (Some (ErrOther "decode p: bad")), empty_world).
Proof.
  apply (typed_errors demo_uuid partial_codec bool_handler demo_scheduler 5 5 "b" "unsupported" "bad"
           false [] [] empty_world None); reflexivity.
Defined.
