(* ===== verification/ProtoCodec.v ===== *)
(** The codecs the repository ships ([src/codec/proto/proto.go],
    [src/codec/json/json.go]).

    Both hand the bytes to a library. The protobuf one first finds the
    message behind the value it is given, by a type assertion and then by
    reflection; that is modelled on values that carry their dynamic type, over a
    memory of messages and pointer variables. [proto.Marshal] and
    [proto.Unmarshal] are parameters on the contents of messages. As the package
    says, generated messages implement [proto.Message] through their pointer. *)

From S2P Require Import Prelude ListLib Types StoreApi World Scheduler Codec.
Local Open Scope go_scope.

(** A type: a named one that is no pointer, or a pointer type. *)
Inductive gotype : Set :=
  | TNamed (name : string)
  | TPtr (elem : gotype).

(** A value in an [any]: nothing, a value that is no pointer, or a pointer to
    [elem] that may be nil. *)
Inductive any : Set :=
  | ANil
  | AValue (name : string)
  | APtr (elem : gotype) (l : option nat).

(** The name [%T] prints. *)
Fixpoint type_name (t : gotype) : string :=
  match t with TNamed n => n | TPtr t => "*" +:+ type_name t end.
Definition any_type (v : any) : string :=
  match v with
  | ANil => "<nil>"
  | AValue n => n
  | APtr elem _ => type_name (TPtr elem)
  end.

(** [ErrNotProtoMessage] wrapped with the type, or an error of the library. *)
Inductive proto_error : Set :=
  | NotProtoMessage (type : string)
  | ProtoError (msg : string).

Section proto.
Context {M : Type}.
(** The struct types whose pointers are messages; the library's two functions, on
    the contents of a message ([None] for a nil one, where [Unmarshal] may
    panic); the contents of a new message. *)
Variable is_message : string → bool.
Variable Marshal : option M → list Byte.byte + string.
Variable Unmarshal : list Byte.byte → M → M * option string.
Variable UnmarshalNil : list Byte.byte → option (option string).
Variable zero : M.

(** What a cell of the memory holds: a message, a pointer variable, or anything
    else. *)
Inductive cell : Type :=
  | CMessage (m : M)
  | CPtr (p : option nat)
  | COther.

Abbreviation memory := (gmap nat cell).

(** Whether [*elem] implements [proto.Message]. *)
Definition implements (elem : gotype) : bool :=
  match elem with TNamed n => is_message n | TPtr _ => false end.

(** The zero value of a type. *)
Definition zero_cell (t : gotype) : cell :=
  match t with
  | TNamed n => if is_message n then CMessage zero else COther
  | TPtr _ => CPtr None
  end.

(** [proto.Marshal] and [proto.Unmarshal] at a pointer to a message. *)
Definition marshal_at (l : option nat) (h : memory) : option (list Byte.byte + proto_error) :=
  match l with
  | None => Some (match Marshal None with inl d => inl d | inr e => inr (ProtoError e) end)
  | Some a =>
      match h !! a with
      | Some (CMessage m) =>
          Some (match Marshal (Some m) with inl d => inl d | inr e => inr (ProtoError e) end)
      | _ => None
      end
  end.

Definition unmarshal_at (data : list Byte.byte) (l : option nat) : GoM memory (option proto_error) :=
  λ h,
  match l with
  | None => match UnmarshalNil data with Some e => Some (ProtoError <$> e, h) | None => None end
  | Some a =>
      match h !! a with
      | Some (CMessage m) =>
          let (m', e) := Unmarshal data m in Some (ProtoError <$> e, <[a := CMessage m']> h)
      | _ => None
      end
  end.

(** [Codec.Encode]. *)
Definition Encode (v : any) (h : memory) : option (list Byte.byte + proto_error) :=
  match v with
  | APtr elem l =>
      if implements elem then marshal_at l h else Some (inr (NotProtoMessage (any_type v)))
  | _ => Some (inr (NotProtoMessage (any_type v)))
  end.

(** [Codec.Decode]. *)
Definition Decode (data : list Byte.byte) (v : any) : GoM memory (option proto_error) :=
  match v with
  | APtr elem l =>
      if implements elem then unmarshal_at data l
      else
        match l, elem with
        | None, _ | _, TNamed _ => gret (Some (NotProtoMessage (any_type v)))
        | Some a, TPtr elem' => λ h,
            match h !! a with
            | Some (CPtr p) =>
                let (p', h') :=
                  match p with
                  | Some b => (b, h)
                  | None => let b := fresh (dom h) in
                            (b, <[a := CPtr (Some b)]> (<[b := zero_cell elem']> h))
                  end in
                if implements elem' then unmarshal_at data (Some p') h'
                else Some (Some (NotProtoMessage (any_type v)), h')
            | _ => None
            end
        end
  | _ => gret (Some (NotProtoMessage (any_type v)))
  end.

(** ** What the typed helpers make of it *)

(** [codec.go]'s use at [T = *name]: dispatch passes the pointer to [Encode]; a
    typed handler declares a variable [v] of type [T], passes its address to
    [Decode], and reads [v]. Here on contents, from a memory with nothing else. *)
Definition error_text (e : proto_error) : string :=
  match e with
  | NotProtoMessage t =>
      "goschedule/codec/proto: value does not implement proto.Message: got " +:+ t
  | ProtoError msg => msg
  end.

Definition pointer_codec (name : string) : Codec.Codec M := {|
  Codec.Encode m :=
    match Encode (APtr (TNamed name) (Some 0%nat)) {[0%nat := CMessage m]} with
    | Some (inl data) => inl data
    | Some (inr e) => inr (error_text e)
    | None => inr ""
    end;
  Codec.Decode data :=
    match Decode data (APtr (TPtr (TNamed name)) (Some 0%nat)) {[0%nat := CPtr None]} with
    | Some (None, h) =>
        match h !! 0%nat with
        | Some (CPtr (Some b)) => match h !! b with Some (CMessage m) => inl m | _ => inr "" end
        | _ => inr ""
        end
    | Some (Some e, _) => inr (error_text e)
    | None => inr ""
    end;
  Codec.Name := "proto"
|}.
End proto.
Arguments CMessage {M}.
Arguments CPtr {M}.
Arguments COther {M}.

(** [encoding/json], whose functions are the parameters. *)
Definition json_codec {T} (Marshal : T → list Byte.byte + string)
    (Unmarshal : list Byte.byte → T + string) : Codec.Codec T :=
  {| Codec.Encode := Marshal; Codec.Decode := Unmarshal; Codec.Name := "json" |}.

(** ** Facts *)

Section facts.
Context {M : Type}.
Variable is_message : string → bool.
Variable Marshal : option M → list Byte.byte + string.
Variable Unmarshal : list Byte.byte → M → M * option string.
Variable UnmarshalNil : list Byte.byte → option (option string).
Variable zero : M.
Local Abbreviation implements := (implements is_message).
Local Abbreviation Encode := (Encode is_message Marshal).
Local Abbreviation Decode := (Decode is_message Unmarshal UnmarshalNil zero).
Implicit Types h : gmap nat (cell (M := M)).

(** A pointer to [t] that points to a cell of that type. *)
Fixpoint points (t : gotype) (l : option nat) h : Prop :=
  match l with
  | None => True
  | Some a =>
      match t, h !! a with
      | TNamed n, Some (CMessage _) => is_message n = true
      | TNamed n, Some COther => is_message n = false
      | TPtr t', Some (CPtr p) => points t' p h
      | _, _ => False
      end
  end.

(** The values [Decode] finds a message behind. *)
Definition decodable (v : any) : bool :=
  match v with
  | APtr elem l =>
      implements elem ||
      match l, elem with Some _, TPtr elem' => implements elem' | _, _ => false end
  | _ => false
  end.

(** A variable that holds no message yet gets a new one. *)
Lemma decode_new data n a h :
  is_message n = true → h !! a = Some (CPtr None) →
  Decode data (APtr (TPtr (TNamed n)) (Some a)) h =
    let b := fresh (dom h) in
    let (m, e) := Unmarshal data zero in
    Some (ProtoError <$> e, <[b := CMessage m]> (<[a := CPtr (Some b)]> (<[b := CMessage zero]> h))).
Proof.
  intros Hn Ha. unfold ProtoCodec.Decode, unmarshal_at. cbn [ProtoCodec.implements zero_cell]. rewrite Ha, Hn.
  assert (Hne : fresh (dom h) ≠ a).
  { intros He. apply (is_fresh (dom h)). rewrite He. by apply elem_of_dom_2 in Ha. }
  by rewrite lookup_insert_ne, lookup_insert_eq by done.
Qed.

Lemma fresh_free h : h !! fresh (dom h) = None.
Proof. apply not_elem_of_dom, is_fresh. Qed.
End facts.

(** ** Properties *)

Section properties.
Context {M : Type}.

(** C38: A message survives the way through its bytes: what [Encode] makes of a pointer
    to a message, [Decode] turns, at a nil pointer variable, into a new message
    with the same contents that the variable then points to; no other cell
    changes, and the message that was encoded is not shared. The codec the
    typed helpers see at a message type decodes what it encodes. *)
Theorem proto_roundtrip (is_message : string → bool) (Marshal : option M → list Byte.byte + string)
    (Unmarshal : list Byte.byte → M → M * option string)
    (UnmarshalNil : list Byte.byte → option (option string)) (zero : M) (n : string) :
  is_message n = true →
  (∀ m m0 data, Marshal (Some m) = inl data → Unmarshal data m0 = (m, None)) →
  (∀ (h : gmap nat cell) a v m data, h !! a = Some (CMessage m) → h !! v = Some (CPtr None) →
     Encode is_message Marshal (APtr (TNamed n) (Some a)) h = Some (inl data) →
     ∃ b h', Decode is_message Unmarshal UnmarshalNil zero data (APtr (TPtr (TNamed n)) (Some v)) h =
               Some (None, h') ∧
       h !! b = None ∧ h' !! v = Some (CPtr (Some b)) ∧ h' !! b = Some (CMessage m) ∧
       ∀ c, c ≠ v → c ≠ b → h' !! c = h !! c) ∧
  faithful (pointer_codec is_message Marshal Unmarshal UnmarshalNil zero n).
Proof.
  intros Hn Hlib. split.
  - intros h a v m data Ha Hv He. unfold Encode, marshal_at in He. cbn [implements] in He.
    rewrite Hn, Ha in He. destruct (Marshal (Some m)) as [d|] eqn:Hm; [|done]. injection He as ->.
    rewrite (decode_new _ _ _ _ _ _ _ _ Hn Hv), (Hlib m zero data Hm). simpl.
    assert (Hne : fresh (dom h) ≠ v).
    { intros Heq. pose proof (fresh_free h) as Hf. congruence. }
    do 2 eexists. split; [reflexivity|]. split; [apply fresh_free|].
    rewrite lookup_insert_ne, lookup_insert_eq, lookup_insert_eq by done.
    split; [done|]. split; [done|]. intros c Hcv Hcb. by rewrite !lookup_insert_ne by done.
  - intros m data. unfold pointer_codec. cbn [Codec.Encode Codec.Decode].
    unfold Encode, marshal_at. cbn [implements]. rewrite Hn, lookup_singleton_eq.
    destruct (Marshal (Some m)) as [d|e] eqn:Hm; [|done]. intros [= ->].
    rewrite (decode_new _ _ _ _ _ n _ _ Hn) by apply lookup_singleton_eq. rewrite (Hlib m zero data Hm).
    cbv zeta beta iota. cbn [fmap option_fmap option_map].
    set (b := fresh (dom ({[0%nat := CPtr None]} : gmap nat (cell (M := M))))).
    assert (Hb : b ≠ 0%nat).
    { intros Hb. pose proof (fresh_free ({[0%nat := CPtr None]} : gmap nat (cell (M := M)))) as Hf.
      fold b in Hf. rewrite Hb, lookup_singleton_eq in Hf. done. }
    rewrite lookup_insert_ne, lookup_insert_eq, lookup_insert_eq by done. done.
Qed.

(** What is no message is refused, by its type: [Decode] answers
    [ErrNotProtoMessage] exactly for the values it finds no message behind, and no
    message changes; [Encode] for all but pointers to messages. Neither panics
    on a value of consistent type, unless the library does at a nil message. *)
Theorem proto_rejects (is_message : string → bool) (Marshal : option M → list Byte.byte + string)
    (Unmarshal : list Byte.byte → M → M * option string)
    (UnmarshalNil : list Byte.byte → option (option string)) (zero : M) (data : list Byte.byte)
    (v : any) (h : gmap nat cell) :
  (∀ elem l, v = APtr elem l → points is_message elem l h) →
  (decodable is_message v = false →
   ∃ h', Decode is_message Unmarshal UnmarshalNil zero data v h =
           Some (Some (NotProtoMessage (any_type v)), h') ∧
     ∀ a m, h !! a = Some (CMessage m) → h' !! a = Some (CMessage m)) ∧
  (decodable is_message v = true → (∀ elem, v ≠ APtr elem None) →
   ∃ e h', Decode is_message Unmarshal UnmarshalNil zero data v h = Some (ProtoError <$> e, h')) ∧
  ((∀ n l, v = APtr (TNamed n) l → is_message n = false) →
   Encode is_message Marshal v h = Some (inr (NotProtoMessage (any_type v)))).
Proof.
  intros Hty. split; [|split].
  - intros Hd. destruct v as [|n|elem l]; [by exists h|by exists h|]. specialize (Hty elem l eq_refl).
    simpl in Hd. apply orb_false_iff in Hd as [Hi Hd]. unfold Decode. rewrite Hi.
    destruct l as [a|]; [|by exists h]. destruct elem as [n|t]; [by exists h|]. simpl in Hty.
    destruct (h !! a) as [[m|p|]|] eqn:Ha; try done. rewrite Hd. destruct p as [b|].
    + eexists. split; [reflexivity|done].
    + eexists. split; [reflexivity|]. intros c m Hc. pose proof (fresh_free h) as Hf.
      rewrite !lookup_insert_ne; [done|congruence|congruence].
  - intros Hd Hnil. destruct v as [|n|elem l]; [done|done|]. specialize (Hty elem l eq_refl).
    destruct l as [a|]; [|by destruct (Hnil elem)]. destruct elem as [n|t]; simpl in Hd.
    + rewrite orb_false_r in Hd. unfold Decode, unmarshal_at. simpl in *. rewrite Hd.
      destruct (h !! a) as [[m|p|]|]; try done; [|congruence].
      destruct (Unmarshal data m) as [m' e]. by eexists _, _.
    + destruct t as [n|t]; [|done]. simpl in Hd, Hty. destruct (h !! a) as [[m|[b|]|]|] eqn:Ha; try done.
      * unfold Decode, unmarshal_at. simpl. rewrite Ha, Hd.
        destruct (h !! b) as [[m|p|]|]; try done; [|congruence].
        destruct (Unmarshal data m) as [m' e]. by eexists _, _.
      * rewrite (decode_new _ _ _ _ _ n _ _ Hd Ha). destruct (Unmarshal data zero) as [m e].
        by eexists _, _.
  - intros Hn. destruct v as [|n|elem l]; [done|done|]. unfold Encode, implements.
    destruct elem as [n|t]; [|done]. by rewrite (Hn n l eq_refl).
Qed.
End properties.

(** ** A library to try the theorems on: one message type, of one bit *)

Definition demo_message (n : string) : bool := String.eqb n "pb.Flag".
Definition demo_marshal (m : option bool) : list Byte.byte + string :=
  inl match m with Some true => [Byte.x08; Byte.x01] | _ => [] end.
Definition demo_unmarshal (data : list Byte.byte) (m : bool) : bool * option string :=
  match data with
  | [] => (false, None)
  | [Byte.x08; Byte.x01] => (true, None)
  | _ => (m, Some "proto: cannot parse")
  end.
Definition demo_heap : gmap nat cell :=
  <[0%nat := CMessage true]> (<[1%nat := CPtr None]> (<[2%nat := COther]> ∅)).

Lemma demo_library m m0 data :
  demo_marshal (Some m) = inl data → demo_unmarshal data m0 = (m, None).
Proof. intros [= <-]. by destruct m. Qed.

Lemma proto_roundtrip_witness :
  Encode demo_message demo_marshal (APtr (TNamed "pb.Flag") (Some 0%nat)) demo_heap =
    Some (inl [Byte.x08; Byte.x01]) ∧
  (∃ b h', Decode demo_message demo_unmarshal (λ _, None) false [Byte.x08; Byte.x01]
             (APtr (TPtr (TNamed "pb.Flag")) (Some 1%nat)) demo_heap = Some (None, h') ∧
     demo_heap !! b = None ∧ h' !! 1%nat = Some (CPtr (Some b)) ∧ h' !! b = Some (CMessage true) ∧
     ∀ c, c ≠ 1%nat → c ≠ b → h' !! c = demo_heap !! c) ∧
  faithful (pointer_codec demo_message demo_marshal demo_unmarshal (λ _, None) false "pb.Flag").
Proof.
  split; [reflexivity|].
  destruct (proto_roundtrip demo_message demo_marshal demo_unmarshal (λ _, None) false "pb.Flag"
    eq_refl demo_library) as [Hrun Hfaithful].
  split; [|exact Hfaithful].
  apply (Hrun demo_heap 0%nat 1%nat true [Byte.x08; Byte.x01]); reflexivity.
Defined.

Lemma proto_rejects_witness :
  ∃ h', Decode demo_message demo_unmarshal (λ _, None) false [] (APtr (TNamed "int") (Some 2%nat)) demo_heap =
          Some (Some (NotProtoMessage "*int"), h') ∧
    ∀ a m, demo_heap !! a = Some (CMessage m) → h' !! a = Some (CMessage m).
Proof.
  apply (proto_rejects demo_message demo_marshal demo_unmarshal (λ _, None) false []
    (APtr (TNamed "int") (Some 2%nat)) demo_heap); [|reflexivity].
  intros elem l [= <- <-]. reflexivity.
Defined.

(** A variable of a value type decodes, through its address, but does not encode:
    the type to register is the pointer. *)
Example value_type_decodes_only :
  ProtoCodec.Encode demo_message demo_marshal (AValue "pb.Flag") demo_heap =
    Some (inr (NotProtoMessage "pb.Flag")) ∧
  fst <$> ProtoCodec.Decode demo_message demo_unmarshal (λ _, None) true [] (APtr (TNamed "pb.Flag") (Some 0%nat))
    demo_heap = Some None.
Proof. by vm_compute. Qed.

(** A nil message does not come back as nil: it encodes to no bytes, which decode
    to a new message. *)
Example nil_message_becomes_empty :
  ProtoCodec.Encode demo_message demo_marshal (APtr (TNamed "pb.Flag") None) demo_heap = Some (inl []) ∧
  (λ r, r.2 !! 1%nat) <$> ProtoCodec.Decode demo_message demo_unmarshal (λ _, None) false []
    (APtr (TPtr (TNamed "pb.Flag")) (Some 1%nat)) demo_heap = Some (Some (CPtr (Some 3%nat))).
Proof. by vm_compute. Qed.
