(* ===== verification/FakeClock.v ===== *)
(** The deterministic clock of the tests ([src/schedtest/schedtest.go]).

    A waiter's channel is identified by a number; [fired] records what has been
    sent, in order: the channel and the instant it received. A channel has room
    for one value and is closed after it, so a send never blocks. Every method
    holds the mutex from start to end. [Sleep] is a receive on [After]'s
    channel, which the model leaves to the caller. *)

From S2P Require Import Prelude ListLib Types.
Local Open Scope Z_scope.

Record waiter : Type := mkWaiter { deadline : Z; ch : nat }.

Record FakeClock : Type := mkClock {
  now : Z;
  waiters : list waiter;
  fired : list (nat * Z);
  next_ch : nat
}.

Definition NewFakeClock (start : Z) : FakeClock := mkClock start [] [] 0.

Definition Now (c : FakeClock) : Z := now c.

Definition earlier (a b : waiter) : bool := Time.Before (deadline a) (deadline b).

(** The loop of [fireDueLocked]. *)
Fixpoint fire_loop (now : Z) (ws : list waiter) (keep : list waiter) (fired : list (nat * Z))
    : list waiter * list (nat * Z) :=
  match ws with
  | [] => (keep, fired)
  | w :: ws =>
      if negb (Time.After (deadline w) now) then fire_loop now ws keep (fired ++ [(ch w, now)])
      else fire_loop now ws (keep ++ [w]) fired
  end.

Definition fireDueLocked (c : FakeClock) : FakeClock :=
  let (keep, fired') := fire_loop (now c) (waiters c) [] (fired c) in
  mkClock (now c) keep fired' (next_ch c).

Definition After (d : Z) (c : FakeClock) : nat * FakeClock :=
  let w := mkWaiter (Time.Add (now c) d) (next_ch c) in
  let ws := stable_sort earlier (waiters c ++ [w]) in
  let c := mkClock (now c) ws (fired c) (S (next_ch c)) in
  (ch w, if d <=? 0 then fireDueLocked c else c).

Definition Advance (d : Z) (c : FakeClock) : FakeClock :=
  fireDueLocked (mkClock (Time.Add (now c) d) (waiters c) (fired c) (next_ch c)).

(** ** Facts *)

#[export] Instance earlier_strict_weak : StrictWeak earlier.
Proof. split; unfold earlier, Time.Before; intros *; rewrite ?Z.ltb_lt, ?Z.ltb_ge; lia. Qed.

Definition due_by (t : Z) (w : waiter) : Prop := deadline w ≤ t.
#[export] Instance due_by_dec t w : Decision (due_by t w).
Proof. unfold due_by. apply _. Defined.

Lemma fire_loop_spec t ws : ∀ keep f,
  fire_loop t ws keep f =
    (keep ++ filter (λ w, ¬ due_by t w) ws,
     f ++ ((λ w, (ch w, t)) <$> filter (due_by t) ws)).
Proof.
  induction ws as [|w ws IH]; intros keep f; simpl; [by rewrite !app_nil_r|].
  rewrite !filter_cons. unfold Time.After, due_by in *.
  destruct (Z.ltb_spec t (deadline w)); simpl; rewrite IH.
  - rewrite decide_True, decide_False by lia. by rewrite <- app_assoc.
  - rewrite decide_False, decide_True by lia. simpl. by rewrite <- app_assoc.
Qed.

(** The clock's state between calls: waiters in deadline order, none of them
    due, on channels of their own that have not fired. *)
Record clock_ok (c : FakeClock) : Prop := {
  ok_sorted : StronglySorted (le_of earlier) (waiters c);
  ok_ahead : Forall (λ w, now c < deadline w) (waiters c);
  ok_channels : NoDup ((ch <$> waiters c) ++ (fired c).*1);
  ok_next : Forall (λ k, (k < next_ch c)%nat) ((ch <$> waiters c) ++ (fired c).*1)
}.

Lemma filter_split_perm {A} (P : A → Prop) `{!∀ x, Decision (P x)} (l : list A) :
  filter (λ x, ¬ P x) l ++ filter P l ≡ₚ l.
Proof.
  induction l as [|x l IH]; [done|]. rewrite !filter_cons. destruct (decide (P x)).
  - rewrite decide_False by tauto. by rewrite <- Permutation_middle, IH.
  - rewrite decide_True by done. simpl. by rewrite IH.
Qed.

Lemma StronglySorted_filter {A} (R : A → A → Prop) (P : A → Prop) `{!∀ x, Decision (P x)} l :
  StronglySorted R l → StronglySorted R (filter P l).
Proof.
  induction 1 as [|x l Hs IH Hx]; [constructor|]. rewrite filter_cons. case_decide; [|done].
  constructor; [done|]. rewrite Forall_forall in Hx |- *.
  intros y [_ Hy]%list_elem_of_filter. by apply Hx.
Qed.

(** Firing keeps the channels, and leaves no waiter due. *)
Lemma fireDue_ok c :
  StronglySorted (le_of earlier) (waiters c) →
  NoDup ((ch <$> waiters c) ++ (fired c).*1) →
  Forall (λ k, (k < next_ch c)%nat) ((ch <$> waiters c) ++ (fired c).*1) →
  clock_ok (fireDueLocked c).
Proof.
  intros Hs Hnd Hn. unfold fireDueLocked. rewrite fire_loop_spec. simpl.
  assert (Hp : (ch <$> filter (λ w, ¬ due_by (now c) w) (waiters c)) ++
    (fired c ++ ((λ w, (ch w, now c)) <$> filter (due_by (now c)) (waiters c))).*1
    ≡ₚ (ch <$> waiters c) ++ (fired c).*1).
  { rewrite fmap_app, <- list_fmap_compose. simpl.
    rewrite (Permutation_app_comm (fired c).*1), app_assoc. f_equiv.
    change (fst ∘ λ w : waiter, (ch w, now c)) with ch. rewrite <- fmap_app.
    by rewrite filter_split_perm. }
  split; simpl.
  - by apply StronglySorted_filter.
  - apply Forall_forall. intros w [Hw _]%list_elem_of_filter. unfold due_by in Hw. lia.
  - by rewrite Hp.
  - by rewrite Hp.
Qed.

Lemma After_ok d c : clock_ok c → clock_ok (After d c).2.
Proof.
  intros [Hs Ha Hnd Hn]. unfold After. set (w := mkWaiter _ _).
  assert (Hp : (ch <$> stable_sort earlier (waiters c ++ [w])) ++ (fired c).*1
    ≡ₚ next_ch c :: (ch <$> waiters c) ++ (fired c).*1).
  { rewrite (stable_sort_perm earlier), fmap_app, <- app_assoc.
    change ((ch <$> [w]) ++ (fired c).*1) with (next_ch c :: (fired c).*1).
    by rewrite <- Permutation_middle. }
  assert (Hnd' : NoDup ((ch <$> stable_sort earlier (waiters c ++ [w])) ++ (fired c).*1)).
  { rewrite Hp. constructor; [|done]. intros Hin. rewrite Forall_forall in Hn.
    specialize (Hn _ Hin). lia. }
  assert (Hn' : Forall (λ k, (k < S (next_ch c))%nat)
    ((ch <$> stable_sort earlier (waiters c ++ [w])) ++ (fired c).*1)).
  { rewrite Hp. constructor; [lia|]. eapply Forall_impl; [exact Hn|]. simpl. lia. }
  destruct (Z.leb_spec d 0).
  - apply fireDue_ok; simpl; [|done|done]. apply stable_sort_sorted, _.
  - split; simpl; [apply stable_sort_sorted, _| |done|done].
    rewrite (stable_sort_perm earlier). apply Forall_app. split; [done|]. constructor; [|constructor].
    simpl. unfold Time.Add. lia.
Qed.

Lemma Advance_ok d c : clock_ok c → clock_ok (Advance d c).
Proof. intros [Hs _ Hnd Hn]. by apply fireDue_ok. Qed.

(** Calls to the clock. *)
Inductive clock_call : Type := CAfter (d : Z) | CAdvance (d : Z).

Definition clock_step (c : FakeClock) (k : clock_call) : FakeClock :=
  match k with CAfter d => (After d c).2 | CAdvance d => Advance d c end.

Lemma calls_ok ks c : clock_ok c → clock_ok (foldl clock_step c ks).
Proof.
  revert c. induction ks as [|k ks IH]; intros c Hc; [done|]. apply IH.
  destruct k; [by apply After_ok|by apply Advance_ok].
Qed.

(** ** Properties *)

(** after any sequence of [After] and [Advance] the clock is in order: the
    waiters are sorted by deadline, none is due, and no channel has fired
    twice or fires again. *)
Theorem fakeclock_invariant (start : Z) (ks : list clock_call) :
  let c := foldl clock_step (NewFakeClock start) ks in
  StronglySorted (le_of earlier) (waiters c) ∧ Forall (λ w, now c < deadline w) (waiters c) ∧
  NoDup ((ch <$> waiters c) ++ (fired c).*1).
Proof.
  cbv zeta. destruct (calls_ok ks (NewFakeClock start)) as [Hs Ha Hnd _]; [|done].
  by split; simpl; constructor.
Qed.

(** [Advance] fires exactly the waiters whose deadline the clock reaches,
    in deadline order, each with the new instant, and keeps the others; one
    waiting for [d] has fired after the clock has advanced by [d] and not
    before. *)
Theorem fakeclock_advance (c : FakeClock) (d : Z) :
  let c' := Advance d c in
  now c' = now c + d ∧
  fired c' = fired c ++ ((λ w, (ch w, now c + d)) <$> filter (due_by (now c + d)) (waiters c)) ∧
  waiters c' = filter (λ w, ¬ due_by (now c + d) w) (waiters c).
Proof. unfold Advance, fireDueLocked. rewrite fire_loop_spec. done. Qed.
