(* ===== verification/Metrics.v ===== *)
(** The Prometheus collector ([src/metrics/prometheus]): the hooks that drive
    its counters and gauges, and the sampling of queue sizes.

    The vectors of the client library are third-party: an interface with the
    behaviour documented for [Inc], [Dec], [Set] and [Observe] of one child.
    Their values are floats in the library, exact for the integers below 2^53
    the program puts there. *)

From S2P Require Import Prelude ListLib Types Backoff StoreApi ContainerHeap MemStore MemStoreFacts.
From S2P Require Import MemStoreProps World Recurring RecurringProps Scheduler Worker WorkerProps.
Local Open Scope Z_scope.
Local Open Scope go_scope.

(** A vector of children, one per list of label values. *)
Class MetricVec (V : Type) : Type := {
  value : V → list string → Z;
  Inc : list string → V → V;
  Dec : list string → V → V;
  Set_ : list string → Z → V → V;
  value_Inc : ∀ v l l', value (Inc l v) l' = if decide (l = l') then value v l' + 1 else value v l';
  value_Dec : ∀ v l l', value (Dec l v) l' = if decide (l = l') then value v l' - 1 else value v l';
  value_Set : ∀ v l n l', value (Set_ l n v) l' = if decide (l = l') then n else value v l'
}.

(** A histogram vector: the durations observed, per child. *)
Class HistogramVec (V : Type) : Type := {
  observed : V → list string → list Z;
  Observe : list string → Z → V → V;
  observed_Observe : ∀ v l d l',
    observed (Observe l d v) l' = if decide (l = l') then observed v l' ++ [d] else observed v l'
}.

Record metrics (V D : Type) : Type := mkMetrics {
  enqueued : V;
  succeeded : V;
  failed : V;
  retried : V;
  duration : D;
  inFlight : V;
  queueSize : V
}.
Arguments mkMetrics {V D}.
Arguments enqueued {V D}.
Arguments succeeded {V D}.
Arguments failed {V D}.
Arguments retried {V D}.
Arguments duration {V D}.
Arguments inFlight {V D}.
Arguments queueSize {V D}.

(** What [newMetrics] asks of the library: the name of a family (under the
    namespace), its labels, and for the histogram its buckets, from a first bound in
    microseconds by a factor and their number. *)
Record vec_opts : Type := mkVecOpts {
  vec_name : string;
  vec_labels : list string;
  vec_buckets : option (Z * Z * Z)
}.

Definition namespace : string := "goschedule".

Definition newMetrics : metrics vec_opts vec_opts :=
  let jobLabels := ["queue"; "name"] in
  let queueLabels := ["queue"] in
  mkMetrics (mkVecOpts "jobs_enqueued_total" jobLabels None)
    (mkVecOpts "jobs_succeeded_total" jobLabels None)
    (mkVecOpts "jobs_failed_total" jobLabels None)
    (mkVecOpts "jobs_retried_total" jobLabels None)
    (mkVecOpts "job_duration_seconds" jobLabels (Some (1000, 2, 14)))
    (mkVecOpts "jobs_in_flight" queueLabels None)
    (mkVecOpts "queue_size" queueLabels None).

Section collector.
Context {V D : Type} `{!MetricVec V, !HistogramVec D}.

(** [Collector.Hooks]. *)
Definition collector_Hooks : Hooks (metrics V D) := {|
  OnEnqueue := Some (λ _ name queue m,
    mkMetrics (Inc [queue; name] (enqueued m)) (succeeded m) (failed m) (retried m) (duration m)
      (inFlight m) (queueSize m));
  OnStart := Some (λ _ _ queue _ m,
    mkMetrics (enqueued m) (succeeded m) (failed m) (retried m) (duration m)
      (Inc [queue] (inFlight m)) (queueSize m));
  OnSuccess := Some (λ _ name queue _ d m,
    mkMetrics (enqueued m) (Inc [queue; name] (succeeded m)) (failed m) (retried m)
      (Observe [queue; name] d (duration m)) (Dec [queue] (inFlight m)) (queueSize m));
  OnFailure := Some (λ _ name queue _ _ m,
    mkMetrics (enqueued m) (succeeded m) (Inc [queue; name] (failed m)) (retried m) (duration m)
      (Dec [queue] (inFlight m)) (queueSize m));
  OnRetry := Some (λ _ name queue _ _ _ m,
    mkMetrics (enqueued m) (succeeded m) (failed m) (Inc [queue; name] (retried m)) (duration m)
      (Dec [queue] (inFlight m)) (queueSize m))
|}.

(** The loop of [Collector.Collect] that samples the queues: a failing store
    leaves the last sample. The context it makes ends after two seconds: [ctx q]
    is what has become of it when [q] is counted. *)
Definition sample {St} `{!StoreOps St} (ctx : string → context) (queues : list string)
    : GoM (World St (metrics V D)) unit :=
  gfor queues (λ q,
    let! r := on_store (ctx q) (st_QueueSize q) in
    match r with
    | (_, Some _) => gret tt
    | (n, None) => gmodify (λ w, with_hooks
        (let m := w_hooks w in
         mkMetrics (enqueued m) (succeeded m) (failed m) (retried m) (duration m) (inFlight m)
           (Set_ [q] n (queueSize m))) w)
    end).

(** The families a collector hands to the registry, each by its vector. *)
Inductive family : Type :=
  | FVec (v : V)
  | FHistogram (d : D).

(** [Describe]: the families whose descriptors are sent. *)
Definition Describe (m : metrics V D) : list family :=
  [FVec (enqueued m); FVec (succeeded m); FVec (failed m); FVec (retried m);
   FHistogram (duration m); FVec (inFlight m); FVec (queueSize m)].

(** [Collect]: a fresh sample of the queue sizes, then every family. *)
Definition Collect {St} `{!StoreOps St} (ctx : string → context) (queues : list string)
    : GoM (World St (metrics V D)) (list family) :=
  do! sample ctx queues in
  λ w, let m := w_hooks w in
       Some ([FVec (enqueued m); FVec (succeeded m); FVec (failed m); FVec (retried m);
              FHistogram (duration m); FVec (inFlight m); FVec (queueSize m)], w).

(** Jobs in flight of a queue, as the gauge shows them. *)
Definition in_flight (m : metrics V D) (queue : string) : Z := value (inFlight m) [queue].

(** Attempts that ended for a handler, of all kinds. *)
Definition completed (m : metrics V D) (queue name : string) : Z :=
  value (succeeded m) [queue; name] + value (failed m) [queue; name] +
  value (retried m) [queue; name].

Lemma in_flight_start m id n q a q' :
  in_flight (apply_event collector_Hooks (EvStart id n q a) m) q' =
    in_flight m q' + (if decide (q = q') then 1 else 0).
Proof.
  unfold in_flight. simpl. rewrite value_Inc.
  destruct (decide (q = q')) as [->|]; [by rewrite decide_True|rewrite decide_False by congruence; lia].
Qed.

(** An event that ends an attempt. *)
Definition ending (e : event) : option (string * string) :=
  match e with
  | EvSuccess _ n q _ _ | EvFailure _ n q _ _ | EvRetry _ n q _ _ _ => Some (q, n)
  | _ => None
  end.

Lemma ending_counts e q n m :
  ending e = Some (q, n) →
  (∀ q', in_flight (apply_event collector_Hooks e m) q' =
           in_flight m q' - (if decide (q = q') then 1 else 0)) ∧
  completed (apply_event collector_Hooks e m) q n = completed m q n + 1.
Proof.
  intros He. split.
  - intros q'. unfold in_flight.
    destruct e; simplify_eq/=; rewrite value_Dec;
      (destruct (decide (q = q')) as [->|];
       [by rewrite decide_True|rewrite decide_False by congruence; lia]).
  - unfold completed. destruct e; simplify_eq/=; rewrite value_Inc, decide_True by done; lia.
Qed.
End collector.

(** ** Properties *)

Section properties.
Context {V D : Type} `{!MetricVec V, !HistogramVec D}.
Context {St : Type} `{!StoreOps St, !LawfulStore St}.
Local Abbreviation M := (metrics V D).

(** C39: the in-flight gauge is balanced for a job with a registered handler and a
    [MaxAttempts] above zero that the store holds as claimed, on a store inside
    the process, which does not fail: the gauge of its queue goes up by one when
    the handler starts and down by one when it has ended, by success, retry or
    terminal failure alike, and one attempt is counted, in one of the three
    counters. ([gauge_negative] and [gauge_leak] are what happens without
    a handler and on a store that fails.) *)
Theorem gauge_balanced `{!LocalStore St} (ctx : context) (s : Scheduler St M) (j v : Job.t) (h : Handler St M)
    (w w2 : World St M) (o : outcome) :
  hooks s = collector_Hooks → handlers s !! Job.Name j = Some h →
  h (timeout_of j) (Job.Payload j) (started s j w) = (o, w2) →
  wf (w_store w2) → Spec.jobs (abs (w_store w2)) !! Job.ID j = Some v →
  Job.State v = StateClaimed → Job.Attempt v = Job.Attempt j →
  Job.MaxAttempts v = Job.MaxAttempts j → 0 < Job.MaxAttempts j →
  in_flight (w_hooks (started s j w)) (Job.Queue j) = in_flight (w_hooks w) (Job.Queue j) + 1 ∧
  ∃ w', executeOne ctx s j w = Some (tt, w') ∧
    in_flight (w_hooks w') (Job.Queue j) = in_flight (w_hooks w2) (Job.Queue j) - 1 ∧
    completed (w_hooks w') (Job.Queue j) (Job.Name j) =
      completed (w_hooks w2) (Job.Queue j) (Job.Name j) + 1.
Proof.
  intros Hhk Hh Ho Hwf Hv Hc Ha Hm Hpos. split.
  - rewrite (proj1 (proj2 (started_facts s j w))), Hhk. unfold event_of.
    by rewrite in_flight_start, decide_True.
  - destruct (execute_claimed ctx s j v h w w2 o Hh Ho Hwf Hv Hc Ha Hm Hpos)
      as (dur & w' & Hrun & _ & Hres). exists w'. split; [done|].
    assert (He : ∃ e, w_hooks w' = apply_event collector_Hooks e (w_hooks w2) ∧
                      ending e = Some (Job.Queue j, Job.Name j)).
    { rewrite Hhk in Hres. destruct (outcome_error o) as [err|]; [case_match|];
        destruct Hres as [_ Hres]; eexists; (split; [exact Hres|done]). }
    destruct He as (e & -> & He). destruct (ending_counts e _ _ (w_hooks w2) He) as [Hg Hn].
    rewrite Hg, decide_True by done. done.
Qed.

(** A job without a registered handler lowers the gauge without having
    raised it: the number of jobs in flight shown falls below the true one, and
    below zero. *)
Theorem gauge_negative (ctx : context) (s : Scheduler St M) (j : Job.t) (w : World St M) :
  hooks s = collector_Hooks → handlers s !! Job.Name j = None → wf (w_store w) →
  ok_time (clock s (w_reads w) + Hour) →
  ∃ w', executeOne ctx s j w = Some (tt, w') ∧
    in_flight (w_hooks w') (Job.Queue j) = in_flight (w_hooks w) (Job.Queue j) - 1.
Proof.
  intros Hhk Hh Hwf Hok.
  destruct (no_handler_run ctx s j w Hh Hwf Hok) as (e & st & w' & _ & Hrun & _ & _ & _ & Hhook & _).
  exists w'. split; [done|]. rewrite Hhook, Hhk. unfold event_of.
  set (ev := EvFailure _ _ _ _ _).
  destruct (ending_counts ev (Job.Queue j) (Job.Name j) (w_hooks w) eq_refl) as [Hg _].
  by rewrite Hg, decide_True.
Qed.

(** where the store fails to record a retry no hook fires after [OnStart]:
    the gauge has been raised for the attempt and is never lowered for it. *)
Theorem gauge_leak (ctx : context) (s : Scheduler St M) (j : Job.t) (h : Handler St M) (w w2 : World St M)
    (o : outcome) (err : error) (msg : string) (st : St) :
  hooks s = collector_Hooks → handlers s !! Job.Name j = Some h →
  h (timeout_of j) (Job.Payload j) (started s j w) = (o, w2) → outcome_error o = Some err →
  wf (w_store w2) →
  let attempt := wrap64 (Job.Attempt j + 1) in
  let nextAt := clock s (S (w_reads w2)) + defaultBackoff s attempt in
  0 < Job.MaxAttempts j → attempt < Job.MaxAttempts j → ok_time nextAt →
  under ctx (st_Fail (Job.ID j) (Error err) nextAt) (w_store w2) = Some (Some (ErrOther msg), st) →
  in_flight (w_hooks (started s j w)) (Job.Queue j) = in_flight (w_hooks w) (Job.Queue j) + 1 ∧
  ∃ w', executeOne ctx s j w = Some (tt, w') ∧ w_hooks w' = w_hooks w2.
Proof.
  intros Hhk Hh Ho He Hwf attempt nextAt Hpos Hlt Hok Hst. split.
  - rewrite (proj1 (proj2 (started_facts s j w))), Hhk. unfold event_of.
    by rewrite in_flight_start, decide_True.
  - destruct (executeOne_runs ctx s j h w o w2 Hh Ho) as [dur Hrun]. rewrite He in Hrun.
    assert (Ht : worker_terminal j attempt = false).
    { unfold worker_terminal. destruct (Z.leb_spec (Job.MaxAttempts j) 0); [lia|].
      by apply Z.leb_gt. }
    assert (Hn : next_attempt_at s j attempt (clock s (S (w_reads w2))) = nextAt).
    { unfold next_attempt_at. by rewrite Ht. }
    destruct (handle_error_run ctx s j attempt err (with_reads (S (w_reads w2)) w2) Hwf) as
      (e & st' & w' & Hst' & Hr & _ & _ & _ & Hhook & _); [simpl; by rewrite Hn|].
    simpl in Hst', Hhook. rewrite Hn, Hst in Hst'. injection Hst' as <- _.
    rewrite Ht in Hhook. exists w'. split; [rewrite Hrun; exact Hr|]. exact Hhook.
Qed.

(** The store fails to count a queue, in some state with the same contents. *)
Definition size_fails (q : string) (sp : Spec.t) : Prop :=
  ∃ (st st' : St) n e, abs st = sp ∧ st_QueueSize q st = Some ((n, Some e), st').

(** One queue of a scrape. *)
Lemma sample_one (ctx : string → context) (q : string) (w : World St M) :
  wf (w_store w) →
  ∃ w', sample ctx [q] w = Some (tt, w') ∧ wf (w_store w') ∧ abs (w_store w') = abs (w_store w) ∧
    (w_hooks w' = w_hooks w ∧ size_fails q (abs (w_store w)) ∨
     w_hooks w' = (let m := w_hooks w in
       mkMetrics (enqueued m) (succeeded m) (failed m) (retried m) (duration m) (inFlight m)
         (Set_ [q] (Spec.queue_size q (abs (w_store w))) (queueSize m)))).
Proof.
  intros Hwf.
  destruct (under_run (ctx q) (st_QueueSize q) (w_store w) (λ r sp, sp = abs (w_store w) ∧
      ((∃ e, r.2 = Some e) ∧ size_fails q (abs (w_store w)) ∨
       r = (Spec.queue_size q (abs (w_store w)), None))) Hwf) as ([n e] & st & Hrun & Hwf' & Ha & Hres).
  { intros s0 Hwf0 Ha0. destruct (law_QueueSize s0 q Hwf0) as (n & e & st & Hrun & Hwf' & Ha & Hres).
    exists (n, e), st. split; [done|]. split; [done|]. split; [congruence|].
    destruct Hres as [(msg & -> & ->)|[-> ->]]; [left|right; by rewrite Ha0]. split; [by eexists|].
    by exists s0, st, 0, (ErrOther msg). }
  unfold sample. simpl. unfold gbind, on_store, at_store. rewrite Hrun.
  destruct Hres as [[[e' [= ->]] Hf]|[= -> ->]]; eexists; (split; [reflexivity|]); cbn; auto.
Qed.

(** A scrape emits the families the collector describes, changes no vector but the
    queue sizes, and there only the gauges of its queues: each shows the number
    of pending jobs, unless the store fails to count them, and then what it
    showed before. *)
Theorem collect_exact (ctx : string → context) (queues : list string) (w : World St M) :
  wf (w_store w) →
  ∃ w', Collect ctx queues w = Some (Describe (w_hooks w'), w') ∧ wf (w_store w') ∧
    abs (w_store w') = abs (w_store w) ∧
    (let m := w_hooks w in let m' := w_hooks w' in
     enqueued m' = enqueued m ∧ succeeded m' = succeeded m ∧ failed m' = failed m ∧
     retried m' = retried m ∧ duration m' = duration m ∧ inFlight m' = inFlight m ∧
     (∀ l, value (queueSize m') l = value (queueSize m) l ∨
        ∃ q, q ∈ queues ∧ l = [q] ∧ value (queueSize m') l = Spec.queue_size q (abs (w_store w))) ∧
     ∀ q, q ∈ queues → value (queueSize m') [q] = Spec.queue_size q (abs (w_store w)) ∨
        size_fails q (abs (w_store w))).
Proof.
  intros Hwf. unfold Collect, gbind. revert w Hwf.
  induction queues as [|q queues IH]; intros w Hwf.
  { exists w. split; [reflexivity|]. split; [done|]. split; [done|]. cbv zeta.
    repeat (split; [done|]). split; [by left|]. by intros q ?%elem_of_nil. }
  destruct (sample_one ctx q w Hwf) as (w1 & Hrun1 & Hwf1 & Ha1 & Hm1).
  assert (Hcons : sample ctx (q :: queues) w = sample ctx queues w1).
  { revert Hrun1. unfold sample. cbn [gfor]. unfold gbind.
    destruct (on_store _ _ w) as [[[n [e|]] w2]|]; [| |done]; cbn; by intros [= <-]. }
  rewrite Hcons.
  destruct (IH w1 Hwf1) as (w' & Hrun & Hwf' & Ha & He & Hs & Hf & Hr & Hd & Hi & Hl & Hq).
  exists w'. split; [exact Hrun|]. split; [done|]. split; [by rewrite Ha|]. cbv zeta in *.
  rewrite He, Hs, Hf, Hr, Hd, Hi, Ha1 in *.
  assert (Hq1 : (∀ l, value (queueSize (w_hooks w1)) l = value (queueSize (w_hooks w)) l ∨
      l = [q] ∧ value (queueSize (w_hooks w1)) l = Spec.queue_size q (abs (w_store w))) ∧
    (value (queueSize (w_hooks w1)) [q] = Spec.queue_size q (abs (w_store w)) ∨
     size_fails q (abs (w_store w)))).
  { destruct Hm1 as [[-> Hfail]| ->]; [by split; [left|right]|]. cbn. split; [intros l|left].
    - rewrite value_Set. case_decide as Heq; [right; by subst|by left].
    - by rewrite value_Set, decide_True. }
  destruct Hq1 as [Hl1 Hq1].
  assert (Hrest : (∀ l, value (queueSize (w_hooks w')) l = value (queueSize (w_hooks w)) l ∨
      ∃ q', q' ∈ q :: queues ∧ l = [q'] ∧
        value (queueSize (w_hooks w')) l = Spec.queue_size q' (abs (w_store w))) ∧
    ∀ q', q' ∈ q :: queues →
      value (queueSize (w_hooks w')) [q'] = Spec.queue_size q' (abs (w_store w)) ∨
      size_fails q' (abs (w_store w))).
  { split.
    - intros l. destruct (Hl l) as [->|(q' & Hin & -> & ->)]; [|right; exists q'; by split; [right|]].
      destruct (Hl1 l) as [->|[-> ->]]; [by left|right; exists q; by split; [left|]].
    - intros q' [->|Hin]%elem_of_cons; [|by apply Hq].
      destruct Hq1 as [Hq1|]; [left|by right].
      destruct (Hl [q]) as [->|(q' & _ & [= <-] & ->)]; done. }
  destruct Hm1 as [[-> _]| ->]; cbn in *; repeat (split; [done|]); exact Hrest.
Qed.

(** a scrape sets the size gauge of a queue it samples to the number of its
    pending jobs, and where the store fails leaves the last sample. *)
Theorem sample_queue (ctx : string → context) (q : string) (w : World St M) :
  wf (w_store w) →
  ∃ w', sample ctx [q] w = Some (tt, w') ∧ wf (w_store w') ∧ abs (w_store w') = abs (w_store w) ∧
    (value (queueSize (w_hooks w')) [q] = Spec.queue_size q (abs (w_store w)) ∨
     w_hooks w' = w_hooks w).
Proof.
  intros Hwf. destruct (sample_one ctx q w Hwf) as (w' & Hrun & Hwf' & Ha & Hm).
  exists w'. split; [done|]. split; [done|]. split; [done|]. destruct Hm as [[-> _]| ->]; [by right|left].
  cbn. by rewrite value_Set, decide_True.
Qed.
End properties.

(** ** The properties on concrete vectors *)

Abbreviation map_vec := (gmap (list string) Z) (only parsing).
Abbreviation hist_vec := (gmap (list string) (list Z)) (only parsing).

Lemma map_Inc (v : map_vec) (l l' : list string) :
  default 0 (<[l := default 0 (v !! l) + 1]> v !! l') =
    if decide (l = l') then default 0 (v !! l') + 1 else default 0 (v !! l').
Proof. case_decide; [subst; by rewrite lookup_insert_eq|by rewrite lookup_insert_ne]. Qed.

Lemma map_Dec (v : map_vec) (l l' : list string) :
  default 0 (<[l := default 0 (v !! l) - 1]> v !! l') =
    if decide (l = l') then default 0 (v !! l') - 1 else default 0 (v !! l').
Proof. case_decide; [subst; by rewrite lookup_insert_eq|by rewrite lookup_insert_ne]. Qed.

Lemma map_Set (v : map_vec) (l : list string) (n : Z) (l' : list string) :
  default 0 (<[l := n]> v !! l') = if decide (l = l') then n else default 0 (v !! l').
Proof. case_decide; [subst; by rewrite lookup_insert_eq|by rewrite lookup_insert_ne]. Qed.

Lemma map_Observe (v : hist_vec) (l : list string) (d : Z) (l' : list string) :
  default [] (<[l := default [] (v !! l) ++ [d]]> v !! l') =
    if decide (l = l') then default [] (v !! l') ++ [d] else default [] (v !! l').
Proof. case_decide; [subst; by rewrite lookup_insert_eq|by rewrite lookup_insert_ne]. Qed.

#[export] Instance map_MetricVec : MetricVec map_vec := {
  value v l := default 0 (v !! l);
  Inc l v := <[l := default 0 (v !! l) + 1]> v;
  Dec l v := <[l := default 0 (v !! l) - 1]> v;
  Set_ l n v := <[l := n]> v;
  value_Inc := map_Inc; value_Dec := map_Dec; value_Set := map_Set
}.

#[export] Instance map_HistogramVec : HistogramVec hist_vec := {
  observed v l := default [] (v !! l);
  Observe l d v := <[l := default [] (v !! l) ++ [d]]> v;
  observed_Observe := map_Observe
}.

Abbreviation demo_metrics := (metrics map_vec hist_vec) (only parsing).

Definition zero_metrics : demo_metrics := mkMetrics ∅ ∅ ∅ ∅ ∅ ∅ ∅.

Definition metrics_handler : Handler Store demo_metrics :=
  λ _ _ w, (HReturn (Some (ErrOther "no")), w).

Definition metrics_scheduler (reg : bool) : Scheduler Store demo_metrics :=
  let s := WithHooks collector_Hooks (default_scheduler 4 "w" (λ n, 1000 + Z.of_nat n)) in
  if reg then Register "job" metrics_handler s else s.

Definition metrics_world : World Store demo_metrics := mkWorld (demo_store 3 0) zero_metrics [] 0 0.

Lemma gauge_balanced_witness :
  in_flight (w_hooks (started (metrics_scheduler true) (demo_claimed 3 0) metrics_world)) "default"
    = in_flight zero_metrics "default" + 1 ∧
  ∃ w', executeOne Background (metrics_scheduler true) (demo_claimed 3 0) metrics_world = Some (tt, w') ∧
    in_flight (w_hooks w') "default" =
      in_flight (w_hooks (started (metrics_scheduler true) (demo_claimed 3 0) metrics_world)) "default" - 1 ∧
    completed (w_hooks w') "default" "job" =
      completed (w_hooks (started (metrics_scheduler true) (demo_claimed 3 0) metrics_world))
        "default" "job" + 1.
Proof.
  apply (gauge_balanced Background (metrics_scheduler true) (demo_claimed 3 0) (Spec.job_view (demo_claimed 3 0))
    metrics_handler metrics_world
    (started (metrics_scheduler true) (demo_claimed 3 0) metrics_world)
    (HReturn (Some (ErrOther "no")))).
  - reflexivity.
  - reflexivity.
  - reflexivity.
  - apply (demo_store_wf 3 0).
  - vm_compute; reflexivity.
  - vm_compute; reflexivity.
  - vm_compute; reflexivity.
  - vm_compute; reflexivity.
  - vm_compute; reflexivity.
Defined.

Lemma gauge_negative_witness :
  ∃ w', executeOne Background (metrics_scheduler false) (demo_claimed 3 0) metrics_world = Some (tt, w') ∧
    in_flight (w_hooks w') "default" = in_flight zero_metrics "default" - 1.
Proof.
  apply (gauge_negative Background (metrics_scheduler false) (demo_claimed 3 0) metrics_world).
  - reflexivity.
  - reflexivity.
  - apply (demo_store_wf 3 0).
  - exact I.
Defined.

Lemma sample_queue_witness :
  ∃ w', sample (V := map_vec) (D := hist_vec) (λ _, Background) ["default"] metrics_world = Some (tt, w') ∧
    wf (w_store w') ∧ abs (w_store w') = abs (w_store metrics_world) ∧
    (value (queueSize (w_hooks w')) ["default"] = Spec.queue_size "default" (abs (w_store metrics_world)) ∨
     w_hooks w' = w_hooks metrics_world).
Proof. apply (sample_queue (λ _, Background) "default" metrics_world). apply (demo_store_wf 3 0). Defined.

(** No family has the name of another: the registry takes them all. *)
Example family_names :
  let m := newMetrics in
  NoDup (vec_name <$> [enqueued m; succeeded m; failed m; retried m; duration m; inFlight m; queueSize m]).
Proof. cbv zeta. apply (bool_decide_unpack _). by vm_compute. Qed.

Lemma collect_exact_witness :
  ∃ w', Collect (V := map_vec) (D := hist_vec) (λ _, Background) ["default"; "other"] metrics_world =
          Some (Describe (w_hooks w'), w') ∧ wf (w_store w') ∧
    abs (w_store w') = abs (w_store metrics_world) ∧
    (let m := w_hooks metrics_world in let m' := w_hooks w' in
     enqueued m' = enqueued m ∧ succeeded m' = succeeded m ∧ failed m' = failed m ∧
     retried m' = retried m ∧ duration m' = duration m ∧ inFlight m' = inFlight m ∧
     (∀ l, value (queueSize m') l = value (queueSize m) l ∨
        ∃ q, q ∈ ["default"; "other"] ∧ l = [q] ∧
          value (queueSize m') l = Spec.queue_size q (abs (w_store metrics_world))) ∧
     ∀ q, q ∈ ["default"; "other"] →
        value (queueSize m') [q] = Spec.queue_size q (abs (w_store metrics_world)) ∨
        size_fails (St := Store) q (abs (w_store metrics_world))).
Proof. apply (collect_exact (λ _, Background) ["default"; "other"] metrics_world). apply (demo_store_wf 3 0). Defined.

(** A store that is down: every method reports an infrastructure error. *)
Definition down : option error := Some (ErrOther "connection refused").

#[export] Instance down_ops : StoreOps unit := {
  st_ended _ s := s; st_left _ s := s;
  st_Save _ := gret down; st_ClaimDue _ _ _ _ _ := gret ([], down); st_Ack _ := gret down;
  st_Fail _ _ _ := gret down; st_Cancel _ := gret down; st_Reschedule _ _ := gret down;
  st_Heartbeat _ _ := gret down; st_RecoverStale _ := gret (0, down);
  st_UpsertRecurring _ := gret down; st_ListRecurring := gret ([], down);
  st_DeleteRecurring _ := gret down; st_AcquireRecurringLease _ _ _ := gret (false, down);
  st_UpdateRecurringNextRun _ _ _ := gret down; st_QueueSize _ := gret (0, down)
}.

#[export] Instance down_lawful : LawfulStore unit.
Proof.
  refine {| wf := λ _, True; abs := λ _, Spec.mk ∅ ∅; ok_job := λ _, True; ok_spec := λ _, True;
            ok_time := λ _, True |}.
  - done.
  - done.
  - intros s k j _ [=].
  - intros s j _ _. eexists _, _. split; [reflexivity|]. eauto.
  - intros s id _. eexists _, _. split; [reflexivity|]. eauto.
  - intros s id msg t _ _. eexists _, _. split; [reflexivity|]. eauto.
  - intros s id _. eexists _, _. split; [reflexivity|]. eauto.
  - intros s id t _ _. eexists _, _. split; [reflexivity|]. eauto.
  - intros s q now n w u _ _ _ _. eexists _, _, _. split; [reflexivity|]. eauto 6.
  - intros s w now _. eexists _, _. split; [reflexivity|]. eauto.
  - intros s now _ _. eexists _, _, _. split; [reflexivity|]. eauto 6.
  - intros s r _ _. eexists _, _. split; [reflexivity|]. eauto.
  - intros s _. eexists _, _, _. split; [reflexivity|]. eauto 6.
  - intros s id _. eexists _, _. split; [reflexivity|]. eauto.
  - intros s id u w _ _. eexists _, _, _. split; [reflexivity|]. eauto.
  - intros s id next last _ _ _. eexists _, _. split; [reflexivity|]. eauto.
  - intros s q _. eexists _, _, _. split; [reflexivity|]. eauto 6.
Defined.

Definition down_handler : Handler unit demo_metrics :=
  λ _ _ w, (HReturn (Some (ErrOther "no")), w).

Definition down_scheduler : Scheduler unit demo_metrics :=
  Register "job" down_handler
    (WithHooks collector_Hooks (default_scheduler 4 "w" (λ n, 1000 + Z.of_nat n))).

Definition down_world : World unit demo_metrics := mkWorld tt zero_metrics [] 0 0.

Lemma gauge_leak_witness :
  in_flight (w_hooks (started down_scheduler (demo_claimed 3 0) down_world)) "default"
    = in_flight zero_metrics "default" + 1 ∧
  ∃ w', executeOne Background down_scheduler (demo_claimed 3 0) down_world = Some (tt, w') ∧
    w_hooks w' = w_hooks (started down_scheduler (demo_claimed 3 0) down_world).
Proof.
  apply (gauge_leak Background down_scheduler (demo_claimed 3 0) down_handler down_world
    (started down_scheduler (demo_claimed 3 0) down_world) (HReturn (Some (ErrOther "no")))
    (ErrOther "no") "connection refused" tt); try reflexivity; exact I.
Defined.
